(* ===== verification/_CoqProject ===== *)
-Q . S2P
Prelude.v
NativeTypes.v
Storage.v
Effects.v
Text.v
Keys.v
Bytes.v
Json.v
StockProof.v
AuthorityPlan.v
PackEntry.v
Delta.v
PackIndex.v
ByteCache.v
GitObjects.v
PackRefs.v
ObjectReaders.v
RefClosure.v
ObjectStore.v
ObjectReads.v
PayloadCache.v
Heap.v
Rewrite.v
RewriteLayout.v
RewriteCompact.v
OidLookup.v
RefUpdate.v
Connectivity.v
PktLine.v
GitProtocol.v
Catalog.v
Activity.v
Scheduler.v
Lifecycle.v
Gc.v
ReachabilityGc.v
GcOperations.v
GcRefinement.v
Leases.v
AcceptedWrites.v
Receive.v
StockReceive.v
StockMachine.v
StockSafety.v
StockAdmission.v
Compaction.v
NativeExecution.v
NativeReceive.v
NativeQueue.v
Authority.v
StockAuthority.v
GcWorker.v
RepoSystem.v
