(* ===== verification/Prelude.v ===== *)
(** * git-on-cloudflare: a verification library for the repository authority

    git-on-cloudflare serves git repositories from Cloudflare Workers.  Packs are
    immutable objects in R2; everything that may change - refs, HEAD, the catalog
    of packs, leases, the write-ahead log of pushes, the ledger of stock receives,
    the journal of accepted writes, the collection of garbage - is owned by one
    Durable Object per repository ([src/worker/do/repo]).  Around it are the codecs
    of packs, indexes and sidecars, the readers of objects and the rewriter of
    packs ([src/worker/git]).  This library models both: the storage of the object
    and the handlers that change it, and the pure data plane that handlers and
    workers share, and proves what makes them correct.  Paths below are relative to
    [src/src/worker].

    ** How the program is represented

    - [Storage]: the typed key/value schema ([do/repo/repoState.ts]) as a record,
      one field per key, a family of keys as a finite map; the SQL table
      [pack_catalog] ([do/repo/db/schema.ts]) as a list of rows; the alarm.
    - [Effects]: a handler is a function from a world (storage and a step counter)
      to a result and a world.  The clock, the random tokens, the digests, the
      answers of R2 and of the queue, the failure of a durable write - an exception
      or the eviction of the isolate - and what other requests do at an open input
      gate are oracles of the class [Env], indexed by the step counter.  A theorem
      over [Env] holds for all of them.  [transaction] rolls back, [try_catch] does
      not run after an eviction.  The file has the rules to reason about runs: [wp]
      (weakest preconditions), [respects I R m Q] (a run keeps the invariant [I]
      and evolves by the preorder [R], wherever it stops) and [framed f m] (a run
      leaves the part [f] of the storage alone).
    - Pure code that may throw returns an option or [res].  Integers of the source
      are JavaScript numbers below 2^53 and are [Z]; bit operators go through
      [toInt32] and [toUint32] of [Bytes], typed arrays through [toUint16] and
      the like.  A byte is a [Z], a [Uint8Array] a list of them.  Strings are
      [String.string], the regular expressions are in [Text].  Loops that count
      down a fuel are listed below.

    ** The files

    Foundations.
    - [Prelude], [Storage], [Effects], [Text]: the above, and the JavaScript idioms
      (truthiness, [find], [filter], stable sort, insertion-ordered maps).
    - [NativeTypes]: [git/nativeReceive/types.ts] and the nodes of
      [git/nativeReceive/physicalDependencyPlan.ts].  [Keys]: [keys.ts].
    - [Json]: [JSON.stringify] and the digests made of its texts
      ([git/nativeReceive/fingerprint.ts], the key of
      [git/nativeReceive/catalogMetadataBundle.ts]).

    The authority.
    - [RefUpdate]: [git/operations/validation.ts], [git/acceptedWrite.ts] - ref
      names, the exact-old check, the application of a push, the recorded facts.
    - [Catalog]: [db/dal/packCatalog.ts], [catalog/compaction/plan.ts],
      [catalog/shared.ts], [catalog/generation.ts] - the table and its plans.
    - [Activity]: [catalog/activity.ts], [nativeReceiveActivity.ts], [refs.ts].
    - [Scheduler]: [scheduler.ts] and the compaction wake-ups.
    - [Lifecycle]: [repositoryLifecycle.ts] and the idle cleanup of
      [maintenance.ts] - read, maintenance and snapshot leases, deletion.
    - [Gc], [ReachabilityGc], [GcOperations]: [catalog/gcCoordination.ts],
      [catalog/gcPublication.ts], [catalog/reachabilityGc.ts],
      [catalog/gcOperation.ts]; [GcRefinement]: the abstract machine they refine.
    - [Leases]: [catalog/leases.ts] - admission and expiry of receives.
    - [AcceptedWrites]: [acceptedWrites.ts] - journal, pins, current pointers.
    - [Receive]: [catalog/receive.ts] - verification, durable intent, activation,
      compare-and-swap, outcome, recovery.
    - [Compaction]: [catalog/compaction/lease.ts], [requests.ts],
      [packOperations.ts].
    - [NativeExecution]: [nativeExecution.ts] and [Module Slot],
      [do/nativeProcessorSlot.ts].

    Stock receives: pushes that a worker or a container prepares.
    - [StockProof]: [git/nativeReceive/stockProof.ts] - the report of a processor
      and the physical plan it must justify.
    - [AuthorityPlan]: [git/nativeReceive/authorityPlan.ts] - the planned and the
      observed publication.
    - [StockReceive]: [stockReceiveAuthority.ts] - admission, retention of the
      result, write-ahead intent, compare-and-swap, confirmation, rejection,
      cleanup, recovery from the alarm.
    - [StockMachine]: the life of a stored operation as a step relation, and what
      the ledger promises.  [StockSafety]: the finalization is atomic.
      [StockAdmission]: the two ends of a push.

    Native receives: pushes that the object runs through its own queue.
    - [NativeReceive]: [nativeReceive.ts] - staging, claims, reader leases, the
      execution in the foreground lane, finalization, the alarm.  [NativeQueue]: what
      a claim excludes, the life of an operation, and what a lost claim cannot do.

    The system.
    - [Authority]: the invariant [repo_ok] and the evolution [repo_evolves] of the
      whole storage, and a lemma per handler that it keeps them; [StockAuthority]
      the same for the handlers of stock receives.
    - [RepoSystem]: [repoDO.ts], [repoDO/access.ts] - the requests of the object
      and the histories of a repository.

    The data plane.
    - [Bytes]: [common/hex.ts], [common/bytes.ts].  [PackEntry]:
      [git/core/objects.ts], [git/pack/packMeta.ts] - entry headers.
    - [Delta]: [git/object-store/delta.ts].
    - [PackIndex], [ByteCache]: [git/pack/indexer/writeIdx.ts],
      [git/pack/indexer/types.ts], [git/object-store/idxView.ts].
    - [GitObjects]: [git/core/objects.ts], [commitParse.ts], [object-parse.ts];
      [PackRefs]: [git/pack/refIndex.ts]; [ObjectReaders]: where the two agree.
    - [ObjectStore]: [git/object-store/candidates.ts], [materialize.ts].
    - [ObjectReads]: [store.ts], [lookup.ts], [catalog.ts] of [git/object-store] -
      reads through the memo of a request.  [Connectivity]:
      [git/pack/indexer/connectivity.ts] - what a push must not leave out.
    - [PktLine]: [git/core/pktline.ts], [git/receive/pktSectionStream.ts] - the
      packets of the git protocol and the command section of a push.
      [GitProtocol]: [git/receive/request.ts], [support.ts], [response.ts],
      [git/core/protocol.ts], [git/operations/args.ts], [fetch/protocol.ts],
      [fetch/sideband.ts], ls-refs of [routes/git.ts] - what the packets say.
    - [RefClosure]: [git/operations/fetch/refClosure.ts] - the objects a fetch
      needs.  [GcWorker]: [git/maintenance/reachabilityGc.ts] - the worker of a
      collection, with the handlers of [ReachabilityGc].
    - [PayloadCache]: [git/pack/indexer/resolve/payloadCache.ts].  [Heap]:
      [common/heap.ts].
    - [Rewrite], [RewriteLayout], [RewriteCompact], [OidLookup]:
      [git/pack/rewrite] - rows, order and layout of the output, the stream, the
      removal of duplicates, the owner table.

    The files depend on each other as the modules of the program do.  What a
    component promises to its clients is stated as [wp] or [respects] lemmas; the
    hint databases [respects], [framed], [golib] and [served] carry them.

    ** What is proved

    - The system ([RepoSystem]): along every history - requests one after another,
      failing anywhere, with further histories running at every open gate - the
      storage keeps its invariants; unless it is reset, no version, pointer, plan,
      receipt or admission is taken back, and a published stock push stays
      published; the deletion fence is final.  Finalizing and confirming stock
      receives are not refused behind the fence: a deletion waits for them.
    - Pushes ([RefUpdate], [Receive], [Leases]): the check accepts exactly the
      exact-old pushes; publication is a compare-and-swap that a replay repeats; a
      good push commits, a refused one changes nothing; a verified output is the
      declared one; admission is exclusive and its loop ends.  Three theorems show
      where the recovery paths do not do what they are for.
    - Stock receives: an accepted physical plan rebuilds what the push needs, equal
      fingerprints and accepted publications identify the push, a finalization
      publishes one push as a whole or nothing, the ledger stays within 128
      operations and forgets finished ones only, and a publication is confirmed by
      the matching proof once.
    - Native receives ([NativeQueue]): a claim excludes every other, a run that lost
      its claim writes nothing, every operation follows the steps of its life, and a
      run ends.  [demo_push] takes a push from its staging to its commit.
    - The catalog ([Catalog], [Compaction]): plans, atomic replacement, the commit,
      and a bound on the number of compactions.
    - The collection ([Gc], [GcRefinement]): publication is atomic and never over a
      receive; every handler refines a phase machine; claims exclude each other; what a
      worker collects and the object accepts loses no reachable object ([GcWorker]).
    - Readers, snapshots, deletion ([Lifecycle], [AcceptedWrites]): bounded and
      independent readers, pointers that never go back, the exact condition under
      which a deletion is ready.
    - Native executions ([NativeExecution]): generations increase, a stop is final,
      an execution is issued once and authorized exactly while it is owned.
    - Alarms ([Scheduler]): a wake-up is always planned and never postponed.
    - Pushed objects ([Connectivity]): a ref is refused exactly when its object, or
      the tree and parents of its commit, are in no pack.
    - The protocol ([PktLine], [GitProtocol]): a push is read the same however the
      network cuts it; pushes, fetches, advertisements and reports say at one end what
      was written at the other; a name cannot forge a line of a report.
    - Fetches ([RefClosure]): exactly the objects the client lacks, each once.
    - The data plane: entry headers, indexes and sidecars are read back as they
      were written; a delta is applied exactly when it is one; reading an object
      from packs gives what its entries denote, and the memo of a request does not
      change it; the heap, the payload cache and
      the owner table refine their abstract counterparts; the order of a rewrite
      is the least topological one and its output can be read.

    ** Bounds and fuel

    [admitLease] runs the admission loop with fuel two; [admission_terminates]
    shows that the unbounded loop gives the same result.  [batches] cuts a list
    with the list's length as fuel; [make_room] runs once per excess name.
    [size_groups] and [distance_groups] read at most five bytes, as the source
    does.  The loops over a byte list ([run_delta], the readers of headers, trees
    and runs, [binary_search]) have its length as fuel, those of [PktLine], which
    take four bytes a turn, one more.  [materializeCandidate]
    recurses with more fuel than there are entries in all packs, and so reaches
    every base.  The loops of a rewrite have the number of rows ([order_loop],
    [release]), its square ([collapseUnsafeRedirectOwners]), the slots of the
    table (its probes), the rows of the map plus one ([prune_loop]); the sixteen
    rounds of [HEADER_STABILITY_CAP] are the code's own.  [next_power] doubles at
    most 32 times.  A run of a native receive calls itself once, so two is enough
    ([NativeQueue.run_ends]).  The walks of [StockProof] have the number of nodes, those of [RefClosure] the
    number of objects plus one.  That the
    fuel suffices is part of the theorems that use these loops.

    ** What is not modelled

    Logging, metrics and the hooks that only tests set.  The purge of R2 objects
    after a reset, which changes no state of the object.  [Promise.all] runs its
    parts in order.  What the pack indexes and sidecars in R2 say about the objects
    a receive revives is the oracle argument [inspect].  SHA-1, SHA-256, inflation
    and the contents of the bucket are parameters.  Of [nativeReceive.ts], the stock
    branches behind the refusal of stock receives, the evidence events, the schema of a
    result and the maintenance lane ([gcNative.ts]) are left out; the histories of
    [RepoSystem] hold the requests of stock receives, those of the queue are in
    [NativeQueue].  Not modelled either: the planner that prepares stock receives,
    the qualification and debug routes, the order of the stages of one alarm, the
    selection loop of a rewrite and the resolver of uploaded packs, and the layers
    around - the streaming of a fetch, ingestion, registry, authentication, HTTP routes. *)
From stdpp Require Export base tactics list numbers strings gmap sorting pretty.
From Stdlib Require Export ZArith Lia.

#[global] Open Scope Z_scope.

(** ** JavaScript idioms *)

(** [x || d] for an optional number: absent and zero both select [d]. *)
Definition orZ (x : option Z) (d : Z) : Z :=
  match x with
  | Some v => if v =? 0 then d else v
  | None => d
  end.

(** Truthiness of an optional boolean and of an optional string. *)
Definition truthy (b : option bool) : bool := default false b.

Definition truthy_string (s : option string) : bool :=
  match s with
  | Some x => negb (bool_decide (x = ""%string))
  | None => false
  end.

(** Array.prototype.find, some, every and push. *)
Definition js_find {A} (p : A -> bool) (l : list A) : option A := List.find p l.

Definition js_some {A} (p : A -> bool) (l : list A) : bool := existsb p l.

Definition js_every {A} (p : A -> bool) (l : list A) : bool := forallb p l.

Definition js_filter {A} (p : A -> bool) (l : list A) : list A := List.filter p l.

Definition js_push {A} (l : list A) (x : A) : list A := l ++ [x].

(** Array.prototype.findIndex, -1 written as [None]. *)
Fixpoint js_findIndex {A} (p : A -> bool) (l : list A) : option nat :=
  match l with
  | [] => None
  | x :: r => if p x then Some O else S <$> js_findIndex p r
  end.

(** String equality as a boolean, the source's [===] on strings. *)
Definition str_eq (a b : string) : bool := bool_decide (a = b).

(** [===] on optional strings ([undefined === undefined] is true). *)
Definition ostr_eq (a b : option string) : bool := bool_decide (a = b).

(** ** Tactics *)

(** Split conjunctions and existentials in the hypotheses. *)
Ltac crush_hyps :=
  repeat match goal with
    | H : _ /\ _ |- _ => destruct H
    | H : exists _, _ |- _ => destruct H
    end.

(** Turn boolean tests of the program into propositions. *)
Ltac to_prop :=
  unfold str_eq, ostr_eq in *;
  repeat match goal with
    | H : bool_decide _ = true |- _ => apply bool_decide_eq_true_1 in H
    | H : bool_decide _ = false |- _ => apply bool_decide_eq_false_1 in H
    | H : (_ && _)%bool = true |- _ => apply andb_true_iff in H; destruct H
    | H : (_ && _)%bool = false |- _ => apply andb_false_iff in H
    | H : (_ || _)%bool = false |- _ => apply orb_false_iff in H; destruct H
    | H : (_ || _)%bool = true |- _ => apply orb_true_iff in H
    | H : negb _ = true |- _ => apply negb_true_iff in H
    | H : negb _ = false |- _ => apply negb_false_iff in H
    | H : (_ <? _) = true |- _ => apply Z.ltb_lt in H
    | H : (_ <? _) = false |- _ => apply Z.ltb_ge in H
    | H : (_ <=? _) = true |- _ => apply Z.leb_le in H
    | H : (_ <=? _) = false |- _ => apply Z.leb_gt in H
    | H : (_ =? _) = true |- _ => apply Z.eqb_eq in H
    | H : (_ =? _) = false |- _ => apply Z.eqb_neq in H
    end.

(** ** Lists *)

Create HintDb golib.

Lemma js_find_some {A} (p : A -> bool) (l : list A) x :
  js_find p l = Some x -> x ∈ l /\ p x = true.
Proof.
  intros H. apply List.find_some in H as [H1 H2].
  split; [by apply list_elem_of_In | done].
Qed.

Lemma js_find_none {A} (p : A -> bool) (l : list A) x :
  js_find p l = None -> x ∈ l -> p x = false.
Proof. intros H Hx. eapply List.find_none; [done | by apply list_elem_of_In]. Qed.

Lemma js_find_app {A} (p : A -> bool) (l1 l2 : list A) :
  js_find p (l1 ++ l2) = match js_find p l1 with Some x => Some x | None => js_find p l2 end.
Proof.
  unfold js_find. induction l1 as [|a l1 IH]; simpl; [done|]. by destruct (p a).
Qed.

Lemma js_some_true {A} (p : A -> bool) (l : list A) :
  js_some p l = true <-> exists x, x ∈ l /\ p x = true.
Proof.
  unfold js_some. rewrite existsb_exists.
  split; intros (x & Hx & Hp); exists x; (split; [by apply list_elem_of_In | done]).
Qed.

Lemma js_some_false {A} (p : A -> bool) (l : list A) :
  js_some p l = false <-> forall x, x ∈ l -> p x = false.
Proof.
  split.
  - intros H x Hx. destruct (p x) eqn:E; [|done].
    assert (js_some p l = true) by (apply js_some_true; eauto). congruence.
  - intros H. destruct (js_some p l) eqn:E; [|done].
    apply js_some_true in E as (x & Hx & Hp). by rewrite (H x Hx) in Hp.
Qed.

Lemma js_every_true {A} (p : A -> bool) (l : list A) :
  js_every p l = true <-> forall x, x ∈ l -> p x = true.
Proof.
  unfold js_every. rewrite forallb_forall.
  split; intros H x Hx; apply H; by apply list_elem_of_In.
Qed.

Lemma elem_of_js_filter {A} (p : A -> bool) (l : list A) x :
  x ∈ js_filter p l <-> x ∈ l /\ p x = true.
Proof. unfold js_filter. by rewrite !list_elem_of_In, List.filter_In. Qed.

Lemma js_filter_fmap {A B} (p : B -> bool) (f : A -> B) (l : list A) :
  js_filter p (f <$> l) = f <$> js_filter (fun x => p (f x)) l.
Proof.
  induction l as [|a l IH]; simpl; [done|].
  destruct (p (f a)); simpl; [f_equal|]; exact IH.
Qed.

Lemma js_filter_nil {A} (p : A -> bool) (l : list A) :
  js_filter p l = [] <-> forall x, x ∈ l -> p x = false.
Proof.
  induction l as [|a l IH]; simpl.
  - split; [intros _ x Hx; by apply elem_of_nil in Hx | done].
  - destruct (p a) eqn:E.
    + split; [done|]. intros H. rewrite H in E by apply list_elem_of_here. done.
    + rewrite IH. split.
      * intros H x [->|Hx]%elem_of_cons; [done | by apply H].
      * intros H x Hx. apply H. by apply elem_of_cons; right.
Qed.

Lemma js_findIndex_lookup {A} (p : A -> bool) (l : list A) i :
  js_findIndex p l = Some i -> exists x, l !! i = Some x /\ p x = true.
Proof.
  revert i. induction l as [|a l IH]; intros i; simpl; [done|].
  destruct (p a) eqn:E.
  - intros [= <-]. by exists a.
  - destruct (js_findIndex p l) as [j|]; simpl; [|done].
    intros [= <-]. simpl. by apply IH.
Qed.

Lemma NoDup_js_filter {A} (p : A -> bool) (l : list A) : NoDup l -> NoDup (js_filter p l).
Proof.
  induction 1 as [|a l Ha Hl IH]; simpl; [constructor|].
  destruct (p a); [|done]. constructor; [|done].
  rewrite elem_of_js_filter. tauto.
Qed.

Lemma NoDup_fmap_js_filter {A B} (f : A -> B) (p : A -> bool) (l : list A) :
  NoDup (f <$> l) -> NoDup (f <$> js_filter p l).
Proof.
  induction l as [|x l IH]; csimpl; [done|]. intros [H1 H2]%NoDup_cons.
  destruct (p x); csimpl; [|by apply IH]. constructor; [|by apply IH].
  intros (y & E & [Hy _]%elem_of_js_filter)%list_elem_of_fmap.
  apply H1, list_elem_of_fmap. eauto.
Qed.

Lemma elem_of_take_in {A} n (l : list A) x : x ∈ take n l -> x ∈ l.
Proof. intros H. rewrite <- (take_drop n l). by apply elem_of_app; left. Qed.

Lemma NoDup_take_of {A} n (l : list A) : NoDup l -> NoDup (take n l).
Proof. rewrite <- (take_drop n l) at 1. by intros (? & _ & _)%NoDup_app. Qed.

Lemma StronglySorted_take_drop {A} (R : A -> A -> Prop) n l x y :
  StronglySorted R l -> x ∈ take n l -> y ∈ drop n l -> R x y.
Proof.
  intros Hl. revert n. induction Hl as [|a l Hl IH Ha]; intros n Hx Hy.
  - rewrite take_nil in Hx. by apply elem_of_nil in Hx.
  - destruct n as [|n]; simpl in *; [by apply elem_of_nil in Hx|].
    apply elem_of_cons in Hx as [->|Hx]; [|eauto].
    rewrite Forall_forall in Ha. apply Ha. rewrite <- (take_drop n l).
    by apply elem_of_app; right.
Qed.

Lemma js_filter_length_le {A} (p : A -> bool) (l : list A) :
  (length (js_filter p l) <= length l)%nat.
Proof. induction l as [|a l IH]; simpl; [done|]. destruct (p a); simpl; lia. Qed.

#[export] Hint Resolve NoDup_js_filter js_filter_length_le : golib.

(** ** Stable sorting: [Array.prototype.sort] and SQL [ORDER BY]

    [before a b] is [compare(a, b) < 0]. *)
Fixpoint insert_sorted {A} (before : A -> A -> bool) (x : A) (l : list A) : list A :=
  match l with
  | [] => [x]
  | y :: r => if before y x then y :: insert_sorted before x r else x :: l
  end.

Definition js_sort {A} (before : A -> A -> bool) (l : list A) : list A :=
  foldr (insert_sorted before) [] l.

(** The first of the least elements: [sort(...)[0]]. *)
Definition js_first {A} (before : A -> A -> bool) (l : list A) : option A :=
  List.hd_error (js_sort before l).

Section Sort.
Context {A : Type} (before : A -> A -> bool).

Lemma insert_sorted_perm x l : insert_sorted before x l ≡ₚ x :: l.
Proof.
  induction l as [|y l IH]; simpl; [done|]. destruct (before y x); [|done].
  rewrite IH. constructor.
Qed.

Lemma js_sort_perm l : js_sort before l ≡ₚ l.
Proof.
  induction l as [|x l IH]; simpl; [done|]. by rewrite insert_sorted_perm, IH.
Qed.

Lemma elem_of_js_sort l x : x ∈ js_sort before l <-> x ∈ l.
Proof. by rewrite js_sort_perm. Qed.

Lemma js_sort_length l : length (js_sort before l) = length l.
Proof. by rewrite js_sort_perm. Qed.

Lemma js_first_nil l : js_first before l = None <-> l = [].
Proof.
  unfold js_first. split; [|by intros ->].
  destruct (js_sort before l) eqn:E; [|done]. intros _.
  pose proof (js_sort_perm l) as H. rewrite E in H. by apply Permutation_nil in H.
Qed.

Lemma js_first_elem l x : js_first before l = Some x -> x ∈ l.
Proof.
  unfold js_first. destruct (js_sort before l) eqn:E; [done|].
  intros [= <-]. rewrite <- elem_of_js_sort, E. apply list_elem_of_here.
Qed.

(** [before] is a strict weak order. *)
Context (Hasym : forall x y, before x y = true -> before y x = false).
Context (Htrans : forall x y z, before y x = false -> before z y = false -> before z x = false).

Let le x y := before y x = false.

Lemma insert_sorted_sorted x l :
  StronglySorted le l -> StronglySorted le (insert_sorted before x l).
Proof.
  induction 1 as [|y l Hl IH Hy]; simpl; [repeat constructor|].
  destruct (before y x) eqn:E.
  - constructor; [done|]. rewrite insert_sorted_perm. constructor; [|exact Hy].
    by apply Hasym.
  - constructor; [by constructor|]. constructor; [exact E|].
    eapply Forall_impl; [exact Hy|]. intros z Hz. by eapply Htrans.
Qed.

Lemma js_sort_sorted l : StronglySorted le (js_sort before l).
Proof. induction l; simpl; [constructor | by apply insert_sorted_sorted]. Qed.
End Sort.

(** Batches of [n] ([n] > 0): the [slice] loops of the SQL layer.  The fuel is
    the length of the list, and every batch takes at least one element. *)
Fixpoint batches_fuel {A} (fuel n : nat) (l : list A) : list (list A) :=
  match fuel, l with
  | S fuel, _ :: _ => take n l :: batches_fuel fuel n (drop n l)
  | _, _ => []
  end.

Definition batches {A} (n : nat) (l : list A) : list (list A) := batches_fuel (length l) n l.

Lemma batches_concat {A} (n : nat) (l : list A) :
  (0 < n)%nat -> List.concat (batches n l) = l.
Proof.
  intros Hn. unfold batches. generalize (Nat.le_refl (length l)).
  generalize (length l) at 2 3 as fuel. intros fuel. revert l.
  induction fuel as [|fuel IH]; intros l Hl.
  - destruct l; simpl in *; [done | lia].
  - destruct l as [|x l]; [done|]. simpl List.concat.
    rewrite IH; [apply take_drop|]. rewrite length_drop. simpl in *. lia.
Qed.
