(* ===== verification/NativeTypes.v ===== *)
(** * What a native processor reports

    The types of [git/nativeReceive/types.ts] and
    [git/nativeReceive/physicalDependencyPlan.ts] that cross the boundary between
    the data plane - a container or the direct-pack worker - and the repository
    object: the result of a processor with the evidence it carries, the metrics
    of an operation, and the plan and the proof of a publication.  A field keeps
    its name behind a prefix that tells the record; an optional member is an
    [option].  Numbers are integers here; that a number is a safe integer is
    tested where the source tests it. *)
From S2P Require Import Prelude.

(** ** Evidence of a receive *)

Record NativeReceiveStockTraceEvent := mkTrace { trace_sequence : Z; trace_event : string }.

Record NativeReceiveEvidenceEvent := mkEvent {
  ev_sequence : Z;
  ev_phase : string;
  ev_at : option Z;
  ev_durable : option bool;
  ev_bytes : option Z;
  ev_digest : option string;
  ev_detailCode : option string }.

Record NativeReceiveStockRange := mkRange {
  rg_entryId : option string;
  rg_packChecksum : string;
  rg_start : Z;
  rg_end : Z;
  rg_reason : string;
  rg_requiredOid : string;
  rg_semanticRootOids : option (list string) }.

(** The member [kind], with the object id that only a required read has. *)
Inductive ReadKind := ReadTrailer | ReadRequired (oid : string) | ReadWhole.

Record NativeReceiveStockActivePackRead := mkRead {
  rd_packChecksum : string;
  rd_start : Z;
  rd_end : Z;
  rd_returnedBytes : Z;
  rd_kind : ReadKind }.

Record NativeReceiveActiveMetadataBundleProof := mkBundle {
  bd_key : string;
  bd_bytes : Z;
  bd_sha256 : string;
  bd_etag : string;
  bd_catalogFingerprint : string }.

Record ObjectTypeCounts := mkCounts { n_commit : Z; n_tree : Z; n_blob : Z; n_tag : Z }.

#[export] Instance ObjectTypeCounts_eq_dec : EqDecision ObjectTypeCounts.
Proof. solve_decision. Defined.

Record NativeReceiveStockClosureProof := mkClosureProof {
  cp_planSha256 : string;
  cp_incomingOids : list string;
  cp_semanticExternalOids : list string;
  cp_visitedIncomingObjectCount : Z;
  cp_logicalEdgeCount : Z;
  cp_internalEdgeCount : Z;
  cp_externalEdgeCount : Z;
  cp_missingObjectCount : Z;
  cp_objectTypeCounts : ObjectTypeCounts }.

Record NativeReceiveActivePackBinding := mkBinding {
  bi_packKey : string;
  bi_packBytes : Z;
  bi_idxBytes : Z;
  bi_packChecksum : string;
  bi_idxSha256 : string;
  bi_prefSha256 : string }.

(** The nodes of a physical plan are pack entries, its edges delta bases. *)
Record StockPhysicalNode := mkNode {
  pn_entryId : string;
  pn_packChecksum : string;
  pn_idxSha256 : string;
  pn_prefSha256 : string;
  pn_offset : Z;
  pn_end : Z;
  pn_oid : string;
  pn_objectType : string;
  pn_encoding : string;
  pn_semanticRootOids : list string;
  pn_oidVerified : bool;
  pn_integrityBound : bool;
  pn_baseEntryId : option string;
  pn_baseOid : option string }.

Record StockPhysicalDependencyEdge := mkEdge {
  ed_dependentEntryId : string;
  ed_baseEntryId : string;
  ed_kind : string;
  ed_baseOffset : option Z;
  ed_baseOid : option string }.

(** ** The result of a processor

    [pr_jsonBytes] is the length of the JSON text of the whole value: it depends
    on members that no code of the repository object reads. *)
Record NativeReceiveProcessResult := mkResult {
  pr_jsonBytes : Z;
  pr_operationId : string;
  pr_executionMode : option string;
  pr_resultKind : option string;
  pr_packBytes : Z;
  pr_idxBytes : Z;
  pr_refsBytes : Z;
  pr_objectCount : Z;
  pr_inputPackObjectCount : option Z;
  pr_elapsedMs : Z;
  pr_processorStartedAt : option Z;
  pr_scratchBytes : Z;
  pr_hydratedBytes : Z;
  pr_downloadedBytes : Z;
  pr_cacheHitBytes : Z;
  pr_receivePackResponse : option string;
  pr_inputRequestSha256 : option string;
  pr_packSha256 : option string;
  pr_idxSha256 : option string;
  pr_refsSha256 : option string;
  pr_stockTrace : option (list NativeReceiveStockTraceEvent);
  pr_metadataBytes : option Z;
  pr_metadataRequests : option Z;
  pr_inputBytesRead : option Z;
  pr_inputRequests : option Z;
  pr_rangeBytes : option Z;
  pr_rangeRequests : option Z;
  pr_packsTouched : option Z;
  pr_quarantinePathInsideOwnedWorkRoot : option bool;
  pr_quarantineRemovedAfterReceive : option bool;
  pr_quarantinePathNonEmpty : option bool;
  pr_freshWorkDirectory : option bool;
  pr_repositoryPackBytesBeforeHydration : option Z;
  pr_sharedObjectCacheDisabled : option bool;
  pr_skipConnectivityCheck : option bool;
  pr_planSha256 : option string;
  pr_closureProof : option NativeReceiveStockClosureProof;
  pr_semanticExternalOids : option (list string);
  pr_thinDeltaBaseOids : option (list string);
  pr_requiredRootOids : option (list string);
  pr_prerequisiteObjectOids : option (list string);
  pr_physicalNodes : option (list StockPhysicalNode);
  pr_physicalDependencies : option (list StockPhysicalDependencyEdge);
  pr_topologicalEntryIds : option (list string);
  pr_selectedPackChecksums : option (list string);
  pr_activePackBindings : option (list NativeReceiveActivePackBinding);
  pr_activeMetadataBundle : option NativeReceiveActiveMetadataBundleProof;
  pr_ranges : option (list NativeReceiveStockRange);
  pr_activePackReads : option (list NativeReceiveStockActivePackRead);
  pr_activePackTrailerBytes : option Z;
  pr_activePackTrailerRequests : option Z;
  pr_activePackRangeBytes : option Z;
  pr_activePackRangeRequests : option Z;
  pr_activePackWholeBytes : option Z;
  pr_activePackWholeRequests : option Z;
  pr_activePackUnattributedBytes : option Z;
  pr_activePackUnattributedRequests : option Z;
  pr_closureManifestKey : option string;
  pr_closureManifestBytes : option Z;
  pr_closureManifestSha256 : option string;
  pr_closureManifestEtag : option string;
  pr_prerequisitePackKey : option string;
  pr_prerequisitePackBytes : option Z;
  pr_prerequisitePackSha256 : option string;
  pr_prerequisitePackEtag : option string;
  pr_incomingObjectCount : option Z;
  pr_visitedIncomingObjectCount : option Z;
  pr_logicalEdgeCount : option Z;
  pr_internalEdgeCount : option Z;
  pr_externalEdgeCount : option Z;
  pr_missingObjectCount : option Z;
  pr_objectTypeCounts : option ObjectTypeCounts;
  pr_selectedPackBytes : option Z;
  pr_activePackCount : option Z;
  pr_outputValidationBytes : option Z;
  pr_outputValidationRequests : option Z;
  pr_outputBytesWritten : option Z;
  pr_outputRequests : option Z;
  pr_outputPackEtag : option string;
  pr_outputIdxEtag : option string;
  pr_outputRefsEtag : option string;
  pr_outputIntegrityRejectedRole : option string;
  pr_outputIntegrityRejectedAt : option string }.

(** ** The metrics of an operation: a selection of the same members *)

Record NativeReceiveOperationMetrics := mkMetrics {
  om_jsonBytes : Z;
  om_executionMode : option string;
  om_elapsedMs : Z;
  om_processorStartedAt : option Z;
  om_scratchBytes : Z;
  om_hydratedBytes : Z;
  om_downloadedBytes : Z;
  om_cacheHitBytes : Z;
  om_metadataBytes : option Z;
  om_metadataRequests : option Z;
  om_inputBytesRead : option Z;
  om_inputRequests : option Z;
  om_rangeBytes : option Z;
  om_rangeRequests : option Z;
  om_packsTouched : option Z;
  om_ranges : option (list NativeReceiveStockRange);
  om_activePackReads : option (list NativeReceiveStockActivePackRead);
  om_activeMetadataBundle : option NativeReceiveActiveMetadataBundleProof;
  om_activePackTrailerBytes : option Z;
  om_activePackTrailerRequests : option Z;
  om_activePackRangeBytes : option Z;
  om_activePackRangeRequests : option Z;
  om_activePackWholeBytes : option Z;
  om_activePackWholeRequests : option Z;
  om_activePackUnattributedBytes : option Z;
  om_activePackUnattributedRequests : option Z;
  om_selectedPackBytes : option Z;
  om_activePackCount : option Z;
  om_outputValidationBytes : option Z;
  om_outputValidationRequests : option Z;
  om_outputBytesWritten : option Z;
  om_outputRequests : option Z }.

(** ** The publication of a push *)

(** An object that is to be written, and what was observed when it had been. *)
Record NativeReceiveAuthorityPublicationObjectPlan := mkObjectPlan {
  op_key : string;
  op_bytes : Z;
  op_sha256 : string;
  op_json : string }.

Record NativeReceiveAuthorityR2Object := mkR2Proof {
  r2p_key : string;
  r2p_bytes : Z;
  r2p_sha256 : string;
  r2p_etag : string }.

Record PlannedRef := mkPlannedRef {
  plr_object : NativeReceiveAuthorityPublicationObjectPlan;
  plr_name : string;
  plr_oid : string }.

Record PlannedReceipt := mkPlannedReceipt {
  plc_object : NativeReceiveAuthorityPublicationObjectPlan;
  plc_disposition : string;
  plc_refName : string;
  plc_newOid : string;
  plc_digest : string }.

Record NativeReceiveAuthorityPublicationPlan := mkPublicationPlan {
  pp_token : string;
  pp_operationId : string;
  pp_fingerprint : string;
  pp_refs : list PlannedRef;
  pp_receipt : PlannedReceipt }.

Record PublishedRef := mkPublishedRef {
  pbr_object : NativeReceiveAuthorityR2Object;
  pbr_name : string;
  pbr_oid : string }.

Record PublishedReceipt := mkPublishedReceipt {
  pbc_object : NativeReceiveAuthorityR2Object;
  pbc_disposition : string;
  pbc_refName : string;
  pbc_newOid : string;
  pbc_digest : string }.

Record NativeReceiveAuthorityPublication := mkPublication {
  pub_refs : list PublishedRef;
  pub_receipt : PublishedReceipt }.
