(* ===== verification/Storage.v ===== *)
(** * The durable storage of one repository Durable Object

    The records follow [src/worker/do/repo/repoState.ts] (the typed key/value
    schema), [src/worker/do/repo/db/schema.ts] (the SQL pack catalog) and the
    type declarations of [git/maintenance/gcOperation.ts],
    [git/nativeReceive/types.ts] and [git/nativeReceive/execution.ts].  A key
    of the key/value store is a field of [Storage]; an absent key is [None].  A
    family of keys ([receiveOutcome:<token>] and so on) is a finite map keyed by
    the variable part of the key. *)
From S2P Require Import Prelude NativeTypes.

(** ** Refs, HEAD and leases *)

Record Ref := mkRef { ref_name : string; ref_oid : string }.

#[export] Instance Ref_eq_dec : EqDecision Ref.
Proof. solve_decision. Defined.

Record Head := mkHead {
  head_target : string;
  head_oid : option string;
  head_unborn : option bool }.

#[export] Instance Head_eq_dec : EqDecision Head.
Proof. solve_decision. Defined.

(** The [operation] tags of every lease type of repoState.ts. *)
Inductive LeaseOperation :=
  | OpReceive | OpCompaction | OpReachabilityGc | OpPackRefBackfill
  | OpGenerationPublication | OpNativeReader | OpGitFetch | OpSnapshotRead
  | OpSnapshotProjection.

#[export] Instance LeaseOperation_eq_dec : EqDecision LeaseOperation.
Proof. solve_decision. Defined.

Record RepoLease := mkLease {
  lease_token : string;
  lease_createdAt : Z;
  lease_expiresAt : Z;
  lease_operation : option LeaseOperation }.

Record StockReceiveRecoveryLease := mkRecoveryLease {
  recovery_lease : RepoLease;
  recovery_operationId : string }.

Record SnapshotMaterializationLease := mkSnapshotLease {
  snapshot_lease : RepoLease;
  snapshot_prefix : string }.

Record NativeCatalogReaderLease := mkReaderLease {
  reader_lease : RepoLease;
  reader_generation : Z }.

(** [lease.operation === op]. *)
Definition lease_is (op : LeaseOperation) (l : RepoLease) : bool :=
  bool_decide (lease_operation l = Some op).

(** [{ ...lease, expiresAt }]. *)
Definition with_expiresAt (l : RepoLease) (t : Z) : RepoLease :=
  mkLease (lease_token l) (lease_createdAt l) t (lease_operation l).

(** ** The pack catalog *)

Inductive PackKind := KindReceive | KindCompact | KindLegacy.

#[export] Instance PackKind_eq_dec : EqDecision PackKind.
Proof. solve_decision. Defined.

Inductive PackState := PackActive | PackSuperseded.

#[export] Instance PackState_eq_dec : EqDecision PackState.
Proof. solve_decision. Defined.

Record PackCatalogRow := mkRow {
  packKey : string;
  kind : PackKind;
  row_state : PackState;
  tier : Z;
  seqLo : Z;
  seqHi : Z;
  objectCount : Z;
  packBytes : Z;
  idxBytes : Z;
  row_createdAt : Z;
  supersededBy : option string }.

#[export] Instance PackCatalogRow_eq_dec : EqDecision PackCatalogRow.
Proof. solve_decision. Defined.

(** ** Receive records *)

Record ReceiveCommand := mkCommand { oldOid : string; newOid : string; cmd_ref : string }.

#[export] Instance ReceiveCommand_eq_dec : EqDecision ReceiveCommand.
Proof. solve_decision. Defined.

Record ReceiveStatus := mkStatus {
  status_ref : string;
  status_ok : bool;
  status_msg : option string }.

Inductive AcceptedWriteSource := GitPush | Ingestion | Import | Reconcile.

#[export] Instance AcceptedWriteSource_eq_dec : EqDecision AcceptedWriteSource.
Proof. solve_decision. Defined.

Record AcceptedWriteContext := mkWriteContext {
  ctx_repositoryId : string;
  ctx_actor : string;
  ctx_sourceSurface : AcceptedWriteSource;
  ctx_idempotencyKey : option string }.

#[export] Instance AcceptedWriteContext_eq_dec : EqDecision AcceptedWriteContext.
Proof. solve_decision. Defined.

Record AcceptedWriteFact := mkFact {
  fact_repositoryId : string;
  fact_ref : string;
  beforeSha : string;
  afterSha : string;
  fact_actor : string;
  fact_sourceSurface : AcceptedWriteSource;
  fact_idempotencyKey : option string }.

Record IngestionReceipt := mkReceipt {
  keyHash : string;
  fingerprint : string;
  receipt_acceptedWrite : AcceptedWriteFact;
  receipt_treeSha : string;
  receipt_createdAt : Z }.

Record ReceiveRefPublication := mkRefPublication { pub_at : Z; pub_refsVersion : Z }.

Record OutputEtags := mkEtags { etag_pack : string; etag_idx : string; etag_refs : string }.

Record ReceiveCommitOutcome := mkOutcome {
  outcome_token : string;
  outcome_statuses : list ReceiveStatus;
  outcome_changed : bool;
  outcome_empty : bool;
  outcome_shouldQueueCompaction : bool;
  outcome_outputValidationBytes : option Z;
  outcome_outputValidationRequests : option Z;
  outcome_outputEtags : option OutputEtags;
  outcome_refPublication : option ReceiveRefPublication }.

Record StagedIntegrity := mkIntegrity {
  packSha256 : string;
  idxSha256 : string;
  refsSha256 : string;
  refsBytes : Z;
  packEtag : option string;
  idxEtag : option string;
  refsEtag : option string }.

#[export] Instance StagedIntegrity_eq_dec : EqDecision StagedIntegrity.
Proof. solve_decision. Defined.

Record StagedPack := mkStaged {
  staged_packKey : string;
  staged_packBytes : Z;
  staged_idxBytes : Z;
  staged_objectCount : Z;
  staged_integrity : option StagedIntegrity }.

#[export] Instance StagedPack_eq_dec : EqDecision StagedPack.
Proof. solve_decision. Defined.

Record ReceiveFinalizeIntent := mkIntent {
  intent_token : string;
  intent_refPublication : option ReceiveRefPublication;
  intent_commands : list ReceiveCommand;
  expectedRefsVersion : Z;
  nextHead : Head;
  nextRefsVersion : Z;
  intent_stagedPack : option StagedPack;
  packSequence : option Z;
  nextPacksetVersion : option Z;
  intent_ingestionReceipt : option IngestionReceipt;
  intent_acceptedWriteContext : option AcceptedWriteContext;
  recoveryAttempts : option Z;
  recoveryEscalated : option bool;
  intent_createdAt : Z }.

(** ** Accepted writes and snapshots *)

Record AcceptedWriteJournalEntry := mkJournal {
  entry_id : string;
  entry_sequence : Z;
  entry_fact : AcceptedWriteFact;
  entry_acceptedAt : Z;
  entry_materializedAt : option Z }.

Record AcceptedWriteHead := mkWriteHead {
  wh_ref : string;
  wh_beforeSha : string;
  wh_afterSha : string;
  wh_sequence : Z }.

Record MaterializedSnapshot := mkMaterialized {
  ms_commitSha : string;
  ms_firstSequence : Z;
  ms_materializedAt : Z }.

Record SnapshotPin := mkPin {
  pin_commitSha : string;
  pin_treeSha : string;
  pin_ref : string;
  pin_beforeSha : string;
  pin_firstSequence : Z;
  pin_acceptedAt : Z;
  pin_actor : string;
  pin_sourceSurface : AcceptedWriteSource;
  pin_idempotencyKey : option string;
  pin_qualificationOwned : option bool }.

Record ReleasedSnapshot := mkReleased {
  released_commitSha : string;
  releasedAt : Z;
  released_qualificationOwned : option bool }.

Record SnapshotCurrent := mkCurrent {
  current_ref : string;
  current_commitSha : string;
  current_sequence : Z;
  current_updatedAt : Z }.

(** ** Native receive operations *)

Inductive NativeReceiveOperationState :=
  | NrStaged | NrProcessing | NrReady | NrFinalizing | NrCommitted | NrAborted | NrFailed.

#[export] Instance NativeReceiveOperationState_eq_dec : EqDecision NativeReceiveOperationState.
Proof. solve_decision. Defined.

Record NativeReceiveStockInput := mkStockInput {
  si_inputRequestSha256 : string;
  si_packOffset : Z;
  si_packBytes : Z;
  si_advertisedRefs : list Ref;
  si_sideBand64k : option bool }.

Record NativeReceiveTerminalResult := mkTerminal {
  tr_refPublication : option ReceiveRefPublication;
  tr_statuses : list ReceiveStatus;
  tr_changed : bool;
  tr_empty : bool;
  tr_packKey : option string;
  tr_packBytes : option Z;
  tr_receivePackResponse : option string;
  tr_stockTrace : option (list NativeReceiveStockTraceEvent);
  tr_authorityPublication : option NativeReceiveAuthorityPublication }.

Record NativeReceiveOperation := mkNative {
  native_id : string;
  native_fingerprint : string;
  native_leaseToken : string;
  native_repositoryId : string;
  native_state : NativeReceiveOperationState;
  native_inputPackKey : string;
  native_inputBytes : Z;
  native_inputEtag : string;
  native_stockReceive : option NativeReceiveStockInput;
  native_outputPackKey : string;
  native_outputIdxKey : string;
  native_outputRefsKey : string;
  native_commands : list ReceiveCommand;
  native_acceptedWrites : list AcceptedWriteFact;
  native_activeCatalog : list PackCatalogRow;
  native_catalogGeneration : Z;
  native_createdAt : Z;
  native_updatedAt : Z;
  native_attempts : Z;
  native_cleanupPending : bool;
  native_events : option (list NativeReceiveEvidenceEvent);
  native_clientAckReadyAt : option Z;
  native_finalizeAttempts : option Z;
  native_finalizeEscalated : option bool;
  native_claimId : option string;
  native_claimExpiresAt : option Z;
  native_errorCode : option string;
  native_processorResult : option NativeReceiveProcessResult;
  native_rejectionMetrics : option NativeReceiveOperationMetrics;
  native_publicationPlan : option NativeReceiveAuthorityPublicationPlan;
  native_result : option NativeReceiveTerminalResult }.

Definition eta_native (o : NativeReceiveOperation) : NativeReceiveOperation :=
  mkNative (native_id o) (native_fingerprint o) (native_leaseToken o) (native_repositoryId o)
    (native_state o) (native_inputPackKey o) (native_inputBytes o) (native_inputEtag o)
    (native_stockReceive o) (native_outputPackKey o) (native_outputIdxKey o) (native_outputRefsKey o)
    (native_commands o) (native_acceptedWrites o) (native_activeCatalog o)
    (native_catalogGeneration o) (native_createdAt o) (native_updatedAt o) (native_attempts o)
    (native_cleanupPending o) (native_events o) (native_clientAckReadyAt o)
    (native_finalizeAttempts o) (native_finalizeEscalated o) (native_claimId o)
    (native_claimExpiresAt o) (native_errorCode o) (native_processorResult o)
    (native_rejectionMetrics o) (native_publicationPlan o) (native_result o).

(** [{ ...operation, field: v }]. *)
Ltac native_setter field :=
  intros v o;
  let t := eval cbv beta delta [eta_native] in (eta_native o) in
  let c := eval cbv beta in (field o) in
  match eval pattern c in t with
  | ?g _ => let r := eval cbv beta in (g v) in exact r
  end.

Definition set_native_state : NativeReceiveOperationState -> NativeReceiveOperation -> NativeReceiveOperation := ltac:(native_setter native_state).
Definition set_native_outputPackKey : string -> NativeReceiveOperation -> NativeReceiveOperation := ltac:(native_setter native_outputPackKey).
Definition set_native_outputIdxKey : string -> NativeReceiveOperation -> NativeReceiveOperation := ltac:(native_setter native_outputIdxKey).
Definition set_native_outputRefsKey : string -> NativeReceiveOperation -> NativeReceiveOperation := ltac:(native_setter native_outputRefsKey).
Definition set_native_updatedAt : Z -> NativeReceiveOperation -> NativeReceiveOperation := ltac:(native_setter native_updatedAt).
Definition set_native_attempts : Z -> NativeReceiveOperation -> NativeReceiveOperation := ltac:(native_setter native_attempts).
Definition set_native_cleanupPending : bool -> NativeReceiveOperation -> NativeReceiveOperation := ltac:(native_setter native_cleanupPending).
Definition set_native_events : option (list NativeReceiveEvidenceEvent) -> NativeReceiveOperation -> NativeReceiveOperation := ltac:(native_setter native_events).
Definition set_native_clientAckReadyAt : option Z -> NativeReceiveOperation -> NativeReceiveOperation := ltac:(native_setter native_clientAckReadyAt).
Definition set_native_finalizeAttempts : option Z -> NativeReceiveOperation -> NativeReceiveOperation := ltac:(native_setter native_finalizeAttempts).
Definition set_native_finalizeEscalated : option bool -> NativeReceiveOperation -> NativeReceiveOperation := ltac:(native_setter native_finalizeEscalated).
Definition set_native_claimId : option string -> NativeReceiveOperation -> NativeReceiveOperation := ltac:(native_setter native_claimId).
Definition set_native_claimExpiresAt : option Z -> NativeReceiveOperation -> NativeReceiveOperation := ltac:(native_setter native_claimExpiresAt).
Definition set_native_errorCode : option string -> NativeReceiveOperation -> NativeReceiveOperation := ltac:(native_setter native_errorCode).
Definition set_native_processorResult : option NativeReceiveProcessResult -> NativeReceiveOperation -> NativeReceiveOperation := ltac:(native_setter native_processorResult).
Definition set_native_rejectionMetrics : option NativeReceiveOperationMetrics -> NativeReceiveOperation -> NativeReceiveOperation := ltac:(native_setter native_rejectionMetrics).
Definition set_native_publicationPlan : option NativeReceiveAuthorityPublicationPlan -> NativeReceiveOperation -> NativeReceiveOperation := ltac:(native_setter native_publicationPlan).
Definition set_native_result : option NativeReceiveTerminalResult -> NativeReceiveOperation -> NativeReceiveOperation := ltac:(native_setter native_result).

Definition isNativeReceiveTerminal (s : NativeReceiveOperationState) : bool :=
  match s with
  | NrCommitted | NrAborted | NrFailed => true
  | _ => false
  end.

(** ** The garbage-collection operation *)

Inductive GcPhase :=
  | GcQueued | GcRewrite | GcIndex | GcPublish | GcReclaim | GcDiscard | GcComplete | GcBlocked.

#[export] Instance GcPhase_eq_dec : EqDecision GcPhase.
Proof. solve_decision. Defined.

#[export] Instance GcPhase_countable : Countable GcPhase.
Proof.
  refine {| encode p := (match p with
              | GcQueued => 1 | GcRewrite => 2 | GcIndex => 3 | GcPublish => 4
              | GcReclaim => 5 | GcDiscard => 6 | GcComplete => 7 | GcBlocked => 8 end)%positive;
            decode n := (match n with
              | 1 => Some GcQueued | 2 => Some GcRewrite | 3 => Some GcIndex
              | 4 => Some GcPublish | 5 => Some GcReclaim | 6 => Some GcDiscard
              | 7 => Some GcComplete | 8 => Some GcBlocked | _ => None end)%positive |}.
  by intros [].
Defined.

Inductive GcFault := FaultAfterRewrite | FaultDuringNative | FaultBeforePublication | FaultAfterPublication.

#[export] Instance GcFault_eq_dec : EqDecision GcFault.
Proof. solve_decision. Defined.

(** The qualification state: its deadline, the names of the injected faults and
    whether a reader is held.  The trigger times are written by
    [gcQualification.ts] only. *)
Record GcQualificationState := mkQualification {
  qual_deadlineAt : Z;
  qual_faults : list GcFault;
  qual_reader : bool }.

Record GcSnapshot := mkGcSnapshot {
  gs_token : string;
  gs_refs : list Ref;
  gs_snapshotPinOids : option (list string);
  gs_snapshotPinVersion : Z;
  gs_refsVersion : Z;
  gs_packsetVersion : Z;
  gs_sourcePacks : list PackCatalogRow }.

Record GcClosure := mkClosure { closure_objectCount : Z; objectSetSha256 : string }.

Record GcRewriteIdentity := mkRewrite { rewrite_packBytes : Z; rewrite_packSha1 : string }.

(** The result of [commitReachabilityGc] with status "committed". *)
Record GcCommit := mkGcCommit {
  commit_packCatalogVersion : Z;
  commit_supersededPackKeys : list string;
  commit_targetPackKey : option string }.

Record GcPhaseMeasurement := mkMeasurement {
  meas_attempts : Z;
  meas_startedAt : Z;
  meas_completedAt : option Z;
  meas_elapsedMs : option Z }.

Inductive GcStep :=
  | StepClosurePlanning | StepRewriteSelection | StepRewriteUpload
  | StepOutputValidation | StepGenerationPublication.

#[export] Instance GcStep_eq_dec : EqDecision GcStep.
Proof. solve_decision. Defined.

#[export] Instance GcStep_countable : Countable GcStep.
Proof.
  refine {| encode p := (match p with
              | StepClosurePlanning => 1 | StepRewriteSelection => 2 | StepRewriteUpload => 3
              | StepOutputValidation => 4 | StepGenerationPublication => 5 end)%positive;
            decode n := (match n with
              | 1 => Some StepClosurePlanning | 2 => Some StepRewriteSelection
              | 3 => Some StepRewriteUpload | 4 => Some StepOutputValidation
              | 5 => Some StepGenerationPublication | _ => None end)%positive |}.
  by intros [].
Defined.

Record GcStepMeasurement := mkStepMeasurement {
  step_completedAttempts : Z;
  step_elapsedMs : Z;
  step_observedRequests : option Z;
  step_writtenBytes : option Z }.

Record GcClaim := mkClaim { claim_id : string; claim_expiresAt : Z; claim_safeRetryAt : Z }.

Inductive RetentionReason := NewSourceReachability | MetadataUnavailable.

#[export] Instance RetentionReason_eq_dec : EqDecision RetentionReason.
Proof. solve_decision. Defined.

Record GcCoordination := mkCoordination {
  coord_refsVersion : Z;
  coord_packsetVersion : Z;
  coord_snapshotPinVersion : Z;
  retainedSourcePackKeys : list string;
  conservativeRetentionReason : option RetentionReason;
  publicationClaimId : option string;
  acceptedReceives : Z }.

(** The fields of [NativeReceiveProcessResult] that GC inspects. *)
Record GcNativeResult := mkNativeResult {
  nres_operationId : string;
  nres_packSha1 : string;
  nres_packBytes : Z;
  nres_idxBytes : Z;
  nres_objectCount : Z;
  nres_objectSetSha256 : option string }.

Record GcOperation := mkGc {
  gc_id : string;
  gc_repositoryId : string;
  gc_phase : GcPhase;
  gc_createdAt : Z;
  gc_updatedAt : Z;
  gc_claim : option GcClaim;
  gc_snapshot : option GcSnapshot;
  gc_coordination : option GcCoordination;
  gc_closure : option GcClosure;
  gc_retainedPackKey : option string;
  gc_inputPackKey : string;
  gc_outputPackKey : string;
  gc_outputResultKey : string;
  gc_rewriteIntent : option GcRewriteIdentity;
  gc_rewrite : option (GcRewriteIdentity * string);   (* identity and etag *)
  gc_nativeResult : option GcNativeResult;
  gc_commit : option GcCommit;
  gc_blockedReason : option string;
  gc_discardAfter : option Z;
  gc_qualification : option GcQualificationState;
  gc_measurements : gmap GcPhase GcPhaseMeasurement;
  gc_stepMeasurements : gmap GcStep GcStepMeasurement }.

Inductive PendingState := PendingStaged | PendingCommitting | PendingCleanup.

#[export] Instance PendingState_eq_dec : EqDecision PendingState.
Proof. solve_decision. Defined.

Record ReachabilityGcPending := mkGcPending {
  pending_token : string;
  pending_packKey : string;
  pending_state : PendingState;
  pending_safeCleanupAt : option Z }.

Record PendingGenerationPublication := mkGeneration {
  generation : Z;
  activePackKeys : list string }.

(** ** Native execution records *)

Inductive NativeExecutionLane := LaneForeground | LaneMaintenance.

#[export] Instance NativeExecutionLane_eq_dec : EqDecision NativeExecutionLane.
Proof. solve_decision. Defined.

Record NativeExecutionIdentity := mkIdentity {
  ne_repositoryId : string;
  ne_lane : NativeExecutionLane;
  ne_generation : Z;
  ne_operationId : string;
  ne_claimId : string;
  ne_expiresAt : Z;
  ne_grantSha256 : string }.

Inductive NativeExecutionState := NeActive | NeCompleted | NeRevoked.

#[export] Instance NativeExecutionState_eq_dec : EqDecision NativeExecutionState.
Proof. solve_decision. Defined.

Record NativeExecutionRecord := mkExecution {
  ne_identity : NativeExecutionIdentity;
  ne_state : NativeExecutionState;
  ne_drainUntil : Z;
  ne_stopPending : option bool;
  ne_dispatchedAt : option Z;
  ne_completedAt : option Z;
  ne_inputReadStartedAt : option Z;
  ne_readRequests : option Z;
  ne_declaredReadBytes : option Z;
  ne_writeRequests : option Z;
  ne_completedWriteBytes : option Z }.

Definition sameNativeExecution (a b : NativeExecutionIdentity) : bool :=
  str_eq (ne_repositoryId a) (ne_repositoryId b) &&
  bool_decide (ne_lane a = ne_lane b) &&
  (ne_generation a =? ne_generation b) &&
  str_eq (ne_operationId a) (ne_operationId b) &&
  str_eq (ne_claimId a) (ne_claimId b) &&
  (ne_expiresAt a =? ne_expiresAt b) &&
  str_eq (ne_grantSha256 a) (ne_grantSha256 b).

(** ** The storage record

    The last two fields are the SQL table [pack_catalog] (its rows in insertion
    order, one per [packKey]) and the object's alarm. *)
Record Storage := mkStorage {
  refs : option (list Ref);
  head : option Head;
  refsVersion : option Z;
  packsetVersion : option Z;
  snapshotPinVersion : option Z;
  generationPublicationPending : option PendingGenerationPublication;
  nativeCatalogReaderGenerationFloor : option Z;
  nextPackSeq : option Z;
  receiveLease : option RepoLease;
  stockReceivePreparationLeases : option (list RepoLease);
  stockReceivePublicationLease : option RepoLease;
  stockReceiveRecoveryLease : option StockReceiveRecoveryLease;
  receiveOutcomeIndex : option (list string);
  nativeReceiveOperationIndex : option (list string);
  nativeCatalogReaderLease : option NativeCatalogReaderLease;
  repositoryReadLeases : option (list RepoLease);
  ingestionReceiptIndex : option (list string);
  compactLease : option RepoLease;
  reachabilityGcPending : option ReachabilityGcPending;
  snapshotMaterializationLeases : option (list SnapshotMaterializationLease);
  repositoryMaintenanceLeases : option (list RepoLease);
  snapshotPrefixes : option (list string);
  repositoryDeleting : option bool;
  compactionWantedAt : option Z;
  compactionPendingSince : option Z;
  lastAccessMs : option Z;
  receiveOutcomes : gmap string ReceiveCommitOutcome;
  receiveFinalizeIntents : gmap string ReceiveFinalizeIntent;
  nativeReceiveOperations : gmap string NativeReceiveOperation;
  ingestionReceipts : gmap string IngestionReceipt;
  acceptedWrites : gmap string AcceptedWriteJournalEntry;
  acceptedWriteHeads : gmap string AcceptedWriteHead;
  materializedSnapshots : gmap string MaterializedSnapshot;
  snapshotPins : gmap string SnapshotPin;
  releasedSnapshots : gmap string ReleasedSnapshot;
  snapshotCurrents : gmap string SnapshotCurrent;
  gcOperation : option GcOperation;
  gcAdmissions : gmap string bool;
  nativeExecutionForeground : option NativeExecutionRecord;
  nativeExecutionMaintenance : option NativeExecutionRecord;
  nativeExecutionGeneration : option Z;
  pack_catalog : list PackCatalogRow;
  alarm : option Z }.

(** A storage object that was never written. *)
Definition empty_storage : Storage :=
  mkStorage None None None None None None None None None None None None None None None None None None None None None None None None None None ∅ ∅ ∅ ∅ ∅ ∅ ∅ ∅ ∅ ∅ None ∅ None None None [] None.

(** The record written out from its fields; the setters below abstract one
    field of this term. *)
Definition eta_storage (s : Storage) : Storage :=
  mkStorage (refs s) (head s) (refsVersion s) (packsetVersion s) (snapshotPinVersion s) (generationPublicationPending s) (nativeCatalogReaderGenerationFloor s) (nextPackSeq s) (receiveLease s) (stockReceivePreparationLeases s) (stockReceivePublicationLease s) (stockReceiveRecoveryLease s) (receiveOutcomeIndex s) (nativeReceiveOperationIndex s) (nativeCatalogReaderLease s) (repositoryReadLeases s) (ingestionReceiptIndex s) (compactLease s) (reachabilityGcPending s) (snapshotMaterializationLeases s) (repositoryMaintenanceLeases s) (snapshotPrefixes s) (repositoryDeleting s) (compactionWantedAt s) (compactionPendingSince s) (lastAccessMs s) (receiveOutcomes s) (receiveFinalizeIntents s) (nativeReceiveOperations s) (ingestionReceipts s) (acceptedWrites s) (acceptedWriteHeads s) (materializedSnapshots s) (snapshotPins s) (releasedSnapshots s) (snapshotCurrents s) (gcOperation s) (gcAdmissions s) (nativeExecutionForeground s) (nativeExecutionMaintenance s) (nativeExecutionGeneration s) (pack_catalog s) (alarm s).

Ltac storage_setter field :=
  intros v s;
  let t := eval cbv beta delta [eta_storage] in (eta_storage s) in
  let c := eval cbv beta in (field s) in
  match eval pattern c in t with
  | ?g _ => let r := eval cbv beta in (g v) in exact r
  end.

Definition set_refs : option (list Ref) -> Storage -> Storage := ltac:(storage_setter refs).
Definition set_head : option Head -> Storage -> Storage := ltac:(storage_setter head).
Definition set_refsVersion : option Z -> Storage -> Storage := ltac:(storage_setter refsVersion).
Definition set_packsetVersion : option Z -> Storage -> Storage := ltac:(storage_setter packsetVersion).
Definition set_snapshotPinVersion : option Z -> Storage -> Storage := ltac:(storage_setter snapshotPinVersion).
Definition set_generationPublicationPending : option PendingGenerationPublication -> Storage -> Storage := ltac:(storage_setter generationPublicationPending).
Definition set_nativeCatalogReaderGenerationFloor : option Z -> Storage -> Storage := ltac:(storage_setter nativeCatalogReaderGenerationFloor).
Definition set_nextPackSeq : option Z -> Storage -> Storage := ltac:(storage_setter nextPackSeq).
Definition set_receiveLease : option RepoLease -> Storage -> Storage := ltac:(storage_setter receiveLease).
Definition set_stockReceivePreparationLeases : option (list RepoLease) -> Storage -> Storage := ltac:(storage_setter stockReceivePreparationLeases).
Definition set_stockReceivePublicationLease : option RepoLease -> Storage -> Storage := ltac:(storage_setter stockReceivePublicationLease).
Definition set_stockReceiveRecoveryLease : option StockReceiveRecoveryLease -> Storage -> Storage := ltac:(storage_setter stockReceiveRecoveryLease).
Definition set_receiveOutcomeIndex : option (list string) -> Storage -> Storage := ltac:(storage_setter receiveOutcomeIndex).
Definition set_nativeReceiveOperationIndex : option (list string) -> Storage -> Storage := ltac:(storage_setter nativeReceiveOperationIndex).
Definition set_nativeCatalogReaderLease : option NativeCatalogReaderLease -> Storage -> Storage := ltac:(storage_setter nativeCatalogReaderLease).
Definition set_repositoryReadLeases : option (list RepoLease) -> Storage -> Storage := ltac:(storage_setter repositoryReadLeases).
Definition set_ingestionReceiptIndex : option (list string) -> Storage -> Storage := ltac:(storage_setter ingestionReceiptIndex).
Definition set_compactLease : option RepoLease -> Storage -> Storage := ltac:(storage_setter compactLease).
Definition set_reachabilityGcPending : option ReachabilityGcPending -> Storage -> Storage := ltac:(storage_setter reachabilityGcPending).
Definition set_snapshotMaterializationLeases : option (list SnapshotMaterializationLease) -> Storage -> Storage := ltac:(storage_setter snapshotMaterializationLeases).
Definition set_repositoryMaintenanceLeases : option (list RepoLease) -> Storage -> Storage := ltac:(storage_setter repositoryMaintenanceLeases).
Definition set_snapshotPrefixes : option (list string) -> Storage -> Storage := ltac:(storage_setter snapshotPrefixes).
Definition set_repositoryDeleting : option bool -> Storage -> Storage := ltac:(storage_setter repositoryDeleting).
Definition set_compactionWantedAt : option Z -> Storage -> Storage := ltac:(storage_setter compactionWantedAt).
Definition set_compactionPendingSince : option Z -> Storage -> Storage := ltac:(storage_setter compactionPendingSince).
Definition set_lastAccessMs : option Z -> Storage -> Storage := ltac:(storage_setter lastAccessMs).
Definition set_receiveOutcomes : gmap string ReceiveCommitOutcome -> Storage -> Storage := ltac:(storage_setter receiveOutcomes).
Definition set_receiveFinalizeIntents : gmap string ReceiveFinalizeIntent -> Storage -> Storage := ltac:(storage_setter receiveFinalizeIntents).
Definition set_nativeReceiveOperations : gmap string NativeReceiveOperation -> Storage -> Storage := ltac:(storage_setter nativeReceiveOperations).
Definition set_ingestionReceipts : gmap string IngestionReceipt -> Storage -> Storage := ltac:(storage_setter ingestionReceipts).
Definition set_acceptedWrites : gmap string AcceptedWriteJournalEntry -> Storage -> Storage := ltac:(storage_setter acceptedWrites).
Definition set_acceptedWriteHeads : gmap string AcceptedWriteHead -> Storage -> Storage := ltac:(storage_setter acceptedWriteHeads).
Definition set_materializedSnapshots : gmap string MaterializedSnapshot -> Storage -> Storage := ltac:(storage_setter materializedSnapshots).
Definition set_snapshotPins : gmap string SnapshotPin -> Storage -> Storage := ltac:(storage_setter snapshotPins).
Definition set_releasedSnapshots : gmap string ReleasedSnapshot -> Storage -> Storage := ltac:(storage_setter releasedSnapshots).
Definition set_snapshotCurrents : gmap string SnapshotCurrent -> Storage -> Storage := ltac:(storage_setter snapshotCurrents).
Definition set_gcOperation : option GcOperation -> Storage -> Storage := ltac:(storage_setter gcOperation).
Definition set_gcAdmissions : gmap string bool -> Storage -> Storage := ltac:(storage_setter gcAdmissions).
Definition set_nativeExecutionForeground : option NativeExecutionRecord -> Storage -> Storage := ltac:(storage_setter nativeExecutionForeground).
Definition set_nativeExecutionMaintenance : option NativeExecutionRecord -> Storage -> Storage := ltac:(storage_setter nativeExecutionMaintenance).
Definition set_nativeExecutionGeneration : option Z -> Storage -> Storage := ltac:(storage_setter nativeExecutionGeneration).
Definition set_pack_catalog : list PackCatalogRow -> Storage -> Storage := ltac:(storage_setter pack_catalog).
Definition set_alarm : option Z -> Storage -> Storage := ltac:(storage_setter alarm).

(** Field assignments on a [GcOperation] and on its [coordination]. *)
Definition eta_gc (o : GcOperation) : GcOperation :=
  mkGc (gc_id o) (gc_repositoryId o) (gc_phase o) (gc_createdAt o) (gc_updatedAt o) (gc_claim o) (gc_snapshot o) (gc_coordination o) (gc_closure o) (gc_retainedPackKey o) (gc_inputPackKey o) (gc_outputPackKey o) (gc_outputResultKey o) (gc_rewriteIntent o) (gc_rewrite o) (gc_nativeResult o) (gc_commit o) (gc_blockedReason o) (gc_discardAfter o) (gc_qualification o) (gc_measurements o) (gc_stepMeasurements o).

Ltac gc_setter field :=
  intros v o;
  let t := eval cbv beta delta [eta_gc] in (eta_gc o) in
  let c := eval cbv beta in (field o) in
  match eval pattern c in t with
  | ?g _ => let r := eval cbv beta in (g v) in exact r
  end.

Definition set_gc_phase : GcPhase -> GcOperation -> GcOperation := ltac:(gc_setter gc_phase).
Definition set_gc_updatedAt : Z -> GcOperation -> GcOperation := ltac:(gc_setter gc_updatedAt).
Definition set_gc_claim : option GcClaim -> GcOperation -> GcOperation := ltac:(gc_setter gc_claim).
Definition set_gc_snapshot : option GcSnapshot -> GcOperation -> GcOperation := ltac:(gc_setter gc_snapshot).
Definition set_gc_coordination : option GcCoordination -> GcOperation -> GcOperation := ltac:(gc_setter gc_coordination).
Definition set_gc_closure : option GcClosure -> GcOperation -> GcOperation := ltac:(gc_setter gc_closure).
Definition set_gc_retainedPackKey : option string -> GcOperation -> GcOperation := ltac:(gc_setter gc_retainedPackKey).
Definition set_gc_rewriteIntent : option GcRewriteIdentity -> GcOperation -> GcOperation := ltac:(gc_setter gc_rewriteIntent).
Definition set_gc_rewrite : option (GcRewriteIdentity * string) -> GcOperation -> GcOperation := ltac:(gc_setter gc_rewrite).
Definition set_gc_nativeResult : option GcNativeResult -> GcOperation -> GcOperation := ltac:(gc_setter gc_nativeResult).
Definition set_gc_commit : option GcCommit -> GcOperation -> GcOperation := ltac:(gc_setter gc_commit).
Definition set_gc_blockedReason : option string -> GcOperation -> GcOperation := ltac:(gc_setter gc_blockedReason).
Definition set_gc_discardAfter : option Z -> GcOperation -> GcOperation := ltac:(gc_setter gc_discardAfter).
Definition set_gc_measurements : gmap GcPhase GcPhaseMeasurement -> GcOperation -> GcOperation := ltac:(gc_setter gc_measurements).
Definition set_gc_stepMeasurements : gmap GcStep GcStepMeasurement -> GcOperation -> GcOperation := ltac:(gc_setter gc_stepMeasurements).

Definition set_publicationClaimId (v : option string) (c : GcCoordination) : GcCoordination :=
  mkCoordination (coord_refsVersion c) (coord_packsetVersion c) (coord_snapshotPinVersion c)
    (retainedSourcePackKeys c) (conservativeRetentionReason c) v (acceptedReceives c).
