(* ===== verification/Effects.v ===== *)
(** * Effects of a Durable Object handler

    A handler is a function on the world: the durable storage and a step
    counter.  Everything the handlers obtain from the platform is an oracle of
    the class [Env], indexed by the counter, so a theorem that quantifies over
    [Env] holds for every clock, every token generator, every answer of R2 and
    of the queue, and every point at which a storage write fails or the object
    is evicted.

    - [put] is one durable write of [ctx.storage]; it may fail by an exception
      ([Throw]) or because the isolate disappears ([Crash], never caught);
    - [transaction] is [ctx.storage.transaction]: a failure inside it restores
      the storage, SQL rows included;
    - [external] is an awaited call outside the object (R2, the queue).  Only
      there the input gate of the object is open, so other requests may run:
      [env_interleave] is their effect. *)
From S2P Require Import Prelude Storage.

Inductive exn :=
  | Throw (msg : string)
  | Crash.

Inductive res (A : Type) :=
  | Ok (a : A)
  | Err (e : exn).
Arguments Ok {A} a.
Arguments Err {A} e.

(** The object [env.REPO_BUCKET.get] returns. *)
Record R2Object := mkR2 {
  r2_size : Z;
  r2_sha256 : option string;      (* customMetadata.sha256 *)
  r2_etag : string;
  r2_chunks : list (list Z) }.    (* the body stream, chunk by chunk *)

Class Env := {
  do_id : string;
  env_now : nat -> Z;
  env_uuid : nat -> string;
  env_fault : nat -> option exn;
  env_interleave : nat -> Storage -> Storage;
  env_r2_get : nat -> string -> option (option R2Object);   (* [None]: the call throws *)
  env_r2_delete : nat -> list string -> bool;               (* [false]: the call throws *)
  env_queue_send : nat -> bool;                             (* [false]: the call throws *)
  env_sha256_hex : list Z -> string;
  env_idleMs : Z;
  env_snapshotEventProbe : bool;
  env_qualificationMode : bool
}.

Record world := World { st : Storage; tick : nat }.

Definition DO (A : Type) : Type := world -> res A * world.

Definition ret {A} (a : A) : DO A := fun w => (Ok a, w).

Definition throw {A} (msg : string) : DO A := fun w => (Err (Throw msg), w).

(** An expression that may throw. *)
Definition of_res {A} (r : res A) : DO A := fun w => (r, w).

Definition bind {A B} (m : DO A) (f : A -> DO B) : DO B :=
  fun w => match m w with
           | (Ok a, w') => f a w'
           | (Err e, w') => (Err e, w')
           end.

Declare Scope do_scope.
Delimit Scope do_scope with do.
#[global] Open Scope do_scope.

Notation "'let!' x := m 'in' k" := (bind m (fun x => k))
  (at level 10, x binder, m at level 100, k at level 200,
   format "'[v' 'let!'  x  :=  m  'in' '/' k ']'") : do_scope.

Notation "m ;! k" := (bind m (fun _ => k))
  (at level 100, k at level 200, right associativity,
   format "'[v' m  ;! '/' k ']'") : do_scope.

(** Reading storage. *)
Definition get {A} (field : Storage -> A) : DO A := fun w => (Ok (field (st w)), w).

Definition bump (w : world) : world := World (st w) (S (tick w)).

Section Platform.
Context `{Env}.

(** [Date.now()] and [crypto.randomUUID()]. *)
Definition Date_now : DO Z := fun w => (Ok (env_now (tick w)), bump w).

Definition randomUUID : DO string := fun w => (Ok (env_uuid (tick w)), bump w).

(** One durable write. *)
Definition put (f : Storage -> Storage) : DO unit :=
  fun w => match env_fault (tick w) with
           | Some e => (Err e, bump w)
           | None => (Ok tt, World (f (st w)) (S (tick w)))
           end.

(** An awaited call that leaves the object; other requests may run meanwhile. *)
Definition external {A} (f : nat -> A) : DO A :=
  fun w => (Ok (f (tick w)), World (env_interleave (tick w) (st w)) (S (tick w))).

Definition r2_get (key : string) : DO (option R2Object) :=
  let! answer := external (fun n => env_r2_get n key) in
  match answer with
  | Some o => ret o
  | None => throw "r2:get"
  end.

Definition r2_delete (keys : list string) : DO unit :=
  let! ok := external (fun n => env_r2_delete n keys) in
  if ok : bool then ret tt else throw "r2:delete".

Definition queue_send : DO unit :=
  let! ok := external env_queue_send in
  if ok : bool then ret tt else throw "queue:send".
End Platform.

Definition transaction {A} (m : DO A) : DO A :=
  fun w => match m w with
           | (Ok a, w') => (Ok a, w')
           | (Err e, w') => (Err e, World (st w) (tick w'))
           end.

(** [try m catch h]; an evicted isolate runs no handler. *)
Definition try_catch {A} (m : DO A) (h : string -> DO A) : DO A :=
  fun w => match m w with
           | (Err (Throw msg), w') => h msg w'
           | r => r
           end.

(** [for (const x of l) body(x)]. *)
Fixpoint for_each {A} (l : list A) (body : A -> DO unit) : DO unit :=
  match l with
  | [] => ret tt
  | x :: r => body x ;! for_each r body
  end.

(** ** Weakest preconditions

    [wp m Q w]: running [m] in [w] ends in a result and a world satisfying [Q]. *)
Definition wp {A} (m : DO A) (Q : res A -> world -> Prop) (w : world) : Prop :=
  Q (m w).1 (m w).2.

Section WpRules.
Context `{Env}.

Lemma wp_ret {A} (a : A) Q w : Q (Ok a) w -> wp (ret a) Q w.
Proof. done. Qed.

Lemma wp_throw {A} msg (Q : res A -> world -> Prop) w :
  Q (Err (Throw msg)) w -> wp (throw msg) Q w.
Proof. done. Qed.

Lemma wp_of_res {A} (r : res A) (Q : res A -> world -> Prop) w : Q r w -> wp (of_res r) Q w.
Proof. done. Qed.

Lemma wp_bind {A B} (m : DO A) (f : A -> DO B) Q w :
  wp m (fun r w' => match r with
                    | Ok a => wp (f a) Q w'
                    | Err e => Q (Err e) w'
                    end) w ->
  wp (bind m f) Q w.
Proof. unfold wp, bind. by destruct (m w) as [[a|e] w']. Qed.

Lemma wp_get {A} (field : Storage -> A) Q w :
  Q (Ok (field (st w))) w -> wp (get field) Q w.
Proof. done. Qed.

Lemma wp_now (Q : res Z -> world -> Prop) w :
  Q (Ok (env_now (tick w))) (bump w) -> wp Date_now Q w.
Proof. done. Qed.

Lemma wp_uuid (Q : res string -> world -> Prop) w :
  Q (Ok (env_uuid (tick w))) (bump w) -> wp randomUUID Q w.
Proof. done. Qed.

Lemma wp_put f (Q : res unit -> world -> Prop) w :
  (forall e, env_fault (tick w) = Some e -> Q (Err e) (bump w)) ->
  (env_fault (tick w) = None -> Q (Ok tt) (World (f (st w)) (S (tick w)))) ->
  wp (put f) Q w.
Proof.
  intros H1 H2. unfold wp, put. destruct (env_fault (tick w)) as [e|] eqn:E; simpl.
  - by apply H1.
  - by apply H2.
Qed.

Lemma wp_external {A} (f : nat -> A) Q w :
  Q (Ok (f (tick w))) (World (env_interleave (tick w) (st w)) (S (tick w))) ->
  wp (external f) Q w.
Proof. done. Qed.

Lemma wp_transaction {A} (m : DO A) Q w :
  wp m (fun r w' => match r with
                    | Ok a => Q (Ok a) w'
                    | Err e => Q (Err e) (World (st w) (tick w'))
                    end) w ->
  wp (transaction m) Q w.
Proof. unfold wp, transaction. by destruct (m w) as [[a|e] w']. Qed.

Lemma wp_try_catch {A} (m : DO A) h Q w :
  wp m (fun r w' => match r with
                    | Err (Throw msg) => wp (h msg) Q w'
                    | r => Q r w'
                    end) w ->
  wp (try_catch m h) Q w.
Proof. unfold wp, try_catch. by destruct (m w) as [[a|[msg|]] w']. Qed.

Lemma wp_conseq {A} (m : DO A) (Q Q' : res A -> world -> Prop) w :
  wp m Q w -> (forall r w', Q r w' -> Q' r w') -> wp m Q' w.
Proof. unfold wp. auto. Qed.

Lemma wp_and {A} (m : DO A) (Q Q' : res A -> world -> Prop) w :
  wp m Q w -> wp m Q' w -> wp m (fun r w' => Q r w' /\ Q' r w') w.
Proof. unfold wp. auto. Qed.

(** An invariant of the loop's remaining list. *)
Lemma wp_for_each {A} (l : list A) body (Inv : list A -> world -> Prop)
    (Q : res unit -> world -> Prop) w :
  Inv l w ->
  (forall x r w', Inv (x :: r) w' ->
     wp (body x) (fun res w'' => match res with
                                 | Ok _ => Inv r w''
                                 | Err e => Q (Err e) w''
                                 end) w') ->
  (forall w', Inv [] w' -> Q (Ok tt) w') ->
  wp (for_each l body) Q w.
Proof.
  intros Hinit Hstep Hend. revert w Hinit.
  induction l as [|x l IH]; intros w Hinit; simpl.
  - by apply wp_ret, Hend.
  - apply wp_bind. eapply wp_conseq; [by apply Hstep|].
    intros [u|e] w' Hw'; [by apply IH | done].
Qed.
End WpRules.

(** Run the program of a [wp] goal one step, or to its end. *)
Ltac wp_step :=
  lazymatch goal with
  | |- wp (ret _) _ _ => apply wp_ret
  | |- wp (throw _) _ _ => apply wp_throw
  | |- wp (of_res _) _ _ => apply wp_of_res
  | |- wp (bind _ _) _ _ => apply wp_bind
  | |- wp (get _) _ _ => apply wp_get
  | |- wp Date_now _ _ => apply wp_now
  | |- wp randomUUID _ _ => apply wp_uuid
  | |- wp (put _) _ _ => apply wp_put; [intros ? _ | intros _]
  | |- wp (external _) _ _ => apply wp_external
  | |- wp (transaction _) _ _ => apply wp_transaction
  | |- wp (try_catch _ _) _ _ => apply wp_try_catch
  | |- wp (if ?b then _ else _) _ _ => destruct b eqn:?
  | |- wp (match ?x with _ => _ end) _ _ => destruct x eqn:?
  end.

Ltac wp_run := repeat (wp_step; cbn beta iota).

(** Turn a goal about the run [m w] into a [wp] goal. *)
Ltac to_wp m w :=
  let r := fresh "r" in let w' := fresh "w'" in
  try rewrite (surjective_pairing (m w)); cbv beta iota;
  pattern (m w).1, (m w).2;
  match goal with |- ?Q _ _ => change (wp m Q w) end.

(** ** Invariants and evolution

    [respects I R m Q]: from a storage that satisfies the invariant [I], and
    whatever the oracles answer and wherever the run stops, [m] ends in a
    storage that satisfies [I] and is related by [R] to the first one; a result
    it returns satisfies [Q]. *)
Definition respects (I : Storage -> Prop) (R : Storage -> Storage -> Prop) {A}
    (m : DO A) (Q : A -> Prop) : Prop :=
  forall w, I (st w) ->
    I (st (m w).2) /\ R (st w) (st (m w).2) /\
    match (m w).1 with Ok a => Q a | Err _ => True end.

(** What happens at an open input gate respects [I] and [R] too. *)
Definition gate_respects `{Env} (I : Storage -> Prop) (R : Storage -> Storage -> Prop) : Prop :=
  forall n s, I s -> I (env_interleave n s) /\ R s (env_interleave n s).

Definition anything {A} : A -> Prop := fun _ => True.

Section Respects.
Context `{Env} (I : Storage -> Prop) (R : Storage -> Storage -> Prop) `{!PreOrder R}.

Lemma respects_wp {A} (m : DO A) (Q : A -> Prop) :
  (forall w, I (st w) -> wp m (fun r w' => I (st w') /\ R (st w) (st w') /\
                                match r with Ok a => Q a | Err _ => True end) w) ->
  respects I R m Q.
Proof. intros Hm w Hw. apply (Hm w Hw). Qed.

Lemma respects_weaken {A} (m : DO A) (P Q : A -> Prop) :
  respects I R m P -> (forall a, P a -> Q a) -> respects I R m Q.
Proof.
  intros Hm HPQ w Hw. destruct (Hm w Hw) as (H1 & H2 & H3).
  split_and!; [done | done |]. destruct (m w).1; auto.
Qed.

Lemma respects_ret {A} (a : A) (Q : A -> Prop) : Q a -> respects I R (ret a) Q.
Proof. intros Ha w Hw. simpl. split_and!; [done | reflexivity | done]. Qed.

Lemma respects_throw {A} msg (Q : A -> Prop) : respects I R (throw msg) Q.
Proof. intros w Hw. simpl. split_and!; [done | reflexivity | done]. Qed.

Lemma respects_of_res {A} (r : res A) (Q : A -> Prop) :
  (forall a, r = Ok a -> Q a) -> respects I R (of_res r) Q.
Proof. intros HQ w Hw. simpl. split_and!; [done | reflexivity | destruct r; auto]. Qed.

(** What the value of an expression that may throw tells about the rest. *)
Lemma respects_res_bind {A B} (r : res A) (f : A -> DO B) Q :
  (forall a, r = Ok a -> respects I R (f a) Q) -> respects I R (bind (of_res r) f) Q.
Proof.
  intros Hf w Hw. unfold bind, of_res. destruct r; [by apply Hf|].
  split_and!; [done | reflexivity | done].
Qed.

Lemma respects_bind {A B} (m : DO A) (f : A -> DO B) P Q :
  respects I R m P -> (forall a, P a -> respects I R (f a) Q) -> respects I R (bind m f) Q.
Proof.
  intros Hm Hf w Hw. unfold bind. destruct (Hm w Hw) as (H1 & H2 & H3).
  destruct (m w) as [[a|e] w']; simpl in *; [|done].
  destruct (Hf a H3 w' H1) as (H4 & H5 & H6).
  split_and!; [done | by etrans | done].
Qed.

Lemma respects_get_bind {A B} (field : Storage -> A) (f : A -> DO B) Q :
  (forall s, I s -> respects I R (f (field s)) Q) -> respects I R (bind (get field) f) Q.
Proof. intros Hf w Hw. apply (Hf (st w) Hw w Hw). Qed.

Lemma respects_get {A} (field : Storage -> A) Q :
  (forall s, I s -> Q (field s)) -> respects I R (get field) Q.
Proof. intros HQ w Hw. simpl. split_and!; [done | reflexivity | auto]. Qed.

Lemma respects_now (Q : Z -> Prop) : (forall t, Q t) -> respects I R Date_now Q.
Proof. intros HQ w Hw. simpl. split_and!; [done | reflexivity | done]. Qed.

Lemma respects_uuid (Q : string -> Prop) : (forall t, Q t) -> respects I R randomUUID Q.
Proof. intros HQ w Hw. simpl. split_and!; [done | reflexivity | done]. Qed.

Lemma respects_put f (Q : unit -> Prop) :
  (forall s, I s -> I (f s) /\ R s (f s)) -> Q tt -> respects I R (put f) Q.
Proof.
  intros Hf HQ w Hw. unfold put. destruct (env_fault (tick w)); simpl.
  - split_and!; [done | reflexivity | done].
  - destruct (Hf _ Hw). split_and!; done.
Qed.

Lemma respects_external {A} (f : nat -> A) (Q : A -> Prop) :
  gate_respects I R -> (forall n, Q (f n)) -> respects I R (external f) Q.
Proof. intros Hg HQ w Hw. simpl. destruct (Hg (tick w) _ Hw). split_and!; auto. Qed.

Lemma respects_transaction {A} (m : DO A) Q :
  respects I R m Q -> respects I R (transaction m) Q.
Proof.
  intros Hm w Hw. unfold transaction. destruct (Hm w Hw) as (H1 & H2 & H3).
  destruct (m w) as [[a|e] w']; simpl in *; [done|].
  split_and!; [done | reflexivity | done].
Qed.

(** A transaction may pass through storages that break [I] or [R]: only a
    successful run has to restore them. *)
Lemma respects_atomic {A} (m : DO A) (Q : A -> Prop) :
  (forall w, I (st w) -> wp m (fun r w' => match r with
                                | Ok a => I (st w') /\ R (st w) (st w') /\ Q a
                                | Err _ => True end) w) ->
  respects I R (transaction m) Q.
Proof.
  intros Hm w Hw. unfold transaction. specialize (Hm w Hw). unfold wp in Hm.
  destruct (m w) as [[a|e] w']; simpl in *; [tauto|].
  split_and!; [done | reflexivity | done].
Qed.

Lemma respects_try_catch {A} (m : DO A) h Q :
  respects I R m Q -> (forall msg, respects I R (h msg) Q) -> respects I R (try_catch m h) Q.
Proof.
  intros Hm Hh w Hw. unfold try_catch. destruct (Hm w Hw) as (H1 & H2 & H3).
  destruct (m w) as [[a|[msg|]] w']; simpl in *; [done | | done].
  destruct (Hh msg w' H1) as (H4 & H5 & H6). split_and!; [done | by etrans | done].
Qed.

Lemma respects_for_each {A} (l : list A) body :
  (forall x, respects I R (body x) anything) -> respects I R (for_each l body) anything.
Proof.
  intros Hb. induction l as [|x l IH]; simpl; [by apply respects_ret|].
  eapply respects_bind; [apply Hb | by intros].
Qed.

Lemma respects_r2_get key : gate_respects I R -> respects I R (r2_get key) anything.
Proof.
  intros Hg. eapply respects_bind; [by apply (respects_external _ anything)|].
  intros [o|] _; [by apply respects_ret | apply respects_throw].
Qed.

Lemma respects_r2_delete keys : gate_respects I R -> respects I R (r2_delete keys) anything.
Proof.
  intros Hg. eapply respects_bind; [by apply (respects_external _ anything)|].
  intros [] _; [by apply respects_ret | apply respects_throw].
Qed.

Lemma respects_queue_send : gate_respects I R -> respects I R queue_send anything.
Proof.
  intros Hg. eapply respects_bind; [by apply (respects_external _ anything)|].
  intros [] _; [by apply respects_ret | apply respects_throw].
Qed.
End Respects.

(** Use what a handler keeps inside a proof by [wp]. *)
Lemma wp_kept I R {A} (m : DO A) (P : A -> Prop) (Q : res A -> world -> Prop) w :
  respects I R m P -> I (st w) ->
  (forall r w', I (st w') -> R (st w) (st w') -> match r with Ok a => P a | Err _ => True end -> Q r w') ->
  wp m Q w.
Proof. intros Hm Hw HQ. destruct (Hm w Hw) as (? & ? & ?). by apply HQ. Qed.

(** Lemmas about whole handlers are added to this database. *)
Create HintDb respects.

(** One step of a [respects] goal.  A [put] leaves the obligation that the write
    keeps [I] and [R]. *)
Ltac preorder := try match goal with |- PreOrder _ => typeclasses eauto end.

Ltac respect_step :=
  lazymatch goal with
  | |- respects _ _ (ret _) _ => apply respects_ret; preorder; try done
  | |- respects _ _ (throw _) _ => apply respects_throw; preorder
  | |- respects _ _ (of_res _) _ => apply respects_of_res; preorder; try done
  | |- respects _ _ (bind (get _) _) _ => apply respects_get_bind; preorder; intros ? ?
  | |- respects _ _ (bind _ _) _ =>
    first [ eapply respects_bind; preorder; [solve [eauto with respects] | intros ? ?]
          | eapply (respects_bind _ _ _ _ anything); preorder; [ | intros ? _] ]
  | |- respects _ _ (get _) _ => apply respects_get; preorder; intros ? ?; try done
  | |- respects _ _ Date_now _ => apply respects_now; preorder; try done
  | |- respects _ _ randomUUID _ => apply respects_uuid; preorder; try done
  | |- respects _ _ (transaction _) _ => apply respects_transaction; preorder
  | |- respects _ _ (try_catch _ _) _ => apply respects_try_catch; preorder; [ | intros ?]
  | |- respects _ _ (for_each _ _) _ => apply respects_for_each; preorder; intros ?
  | |- respects _ _ (put _) _ => apply respects_put; preorder; [intros ? ? | try done]
  | |- respects _ _ (external _) _ => apply respects_external; preorder; [assumption | try done]
  | |- respects _ _ (r2_get _) _ => apply respects_r2_get; preorder; assumption
  | |- respects _ _ (r2_delete _) _ => apply respects_r2_delete; preorder; assumption
  | |- respects _ _ queue_send _ => apply respects_queue_send; preorder; assumption
  | |- respects _ _ (if ?b then _ else _) _ => destruct b eqn:?
  | |- respects _ _ (match ?x with _ => _ end) _ => destruct x eqn:?
  | |- respects _ _ (match ?x with _ => _ end _) _ => destruct x eqn:?
  | |- respects _ _ (let _ := _ in _) _ => cbv zeta
  | |- respects _ _ _ _ => first [ solve [eauto with respects] ]
  end.

Ltac respect := repeat (respect_step; cbn beta).

(** [framed f m]: a run of [m] leaves the part [f] of the storage as it was. *)
Definition frame {T} (f : Storage -> T) (s s' : Storage) : Prop := f s = f s'.

#[export] Instance frame_preorder {T} (f : Storage -> T) : PreOrder (frame f).
Proof. split; [done | intros s1 s2 s3; unfold frame; congruence]. Qed.

Definition framed {T A} (f : Storage -> T) (m : DO A) : Prop :=
  respects (fun _ => True) (frame f) m anything.

Lemma wp_framed {T A} (f : Storage -> T) (m : DO A) (Q : res A -> world -> Prop) w :
  framed f m -> (forall r w', f (st w) = f (st w') -> Q r w') -> wp m Q w.
Proof. intros Hm HQ. destruct (Hm w I) as (_ & H & _). by apply HQ. Qed.

Create HintDb framed.

(** Prove that a handler leaves [f] alone: step through it, close the writes by
    computation and the calls by the database. *)
Ltac frames :=
  unfold framed in *; respect;
  try (match goal with |- True /\ _ => split; [done|]; unfold frame; done end);
  try (match goal with
       | |- respects _ (frame ?f) ?m _ => change (framed f m); solve [eauto with framed]
       end);
  try assumption; try done.

(** A concrete platform on which nothing fails, with a clock and what happens at
    an open gate. *)
Definition platform (now : nat -> Z) (interleave : nat -> Storage -> Storage) : Env := {|
  do_id := "repo";
  env_now := now;
  env_uuid n := pretty n;
  env_fault _ := None;
  env_interleave := interleave;
  env_r2_get _ _ := Some None;
  env_r2_delete _ _ := true;
  env_queue_send _ := true;
  env_sha256_hex _ := "";
  env_idleMs := 1800000;
  env_snapshotEventProbe := false;
  env_qualificationMode := false
|}.

(** The clock shows the step number in seconds, and nothing interleaves. *)
Definition demo_env : Env := platform (fun n => 1000 * Z.of_nat n) (fun _ s => s).

(** The clock stands still, and nothing interleaves. *)
Definition still_env (t : Z) : Env := platform (fun _ => t) (fun _ s => s).
