(* ===== verification/Text.v ===== *)
(** * Strings and insertion-ordered maps

    The string operations and regular expressions the modelled handlers use,
    on [String.string].  A JavaScript string is represented by its UTF-8 bytes;
    [toLowerCase] acts on the ASCII letters, which is all the object-id
    comparisons of the source can contain.  The second part is the
    insertion-ordered [Map]. *)
From S2P Require Import Prelude.
From Stdlib Require Import Ascii.
From Stdlib Require String.

Definition code (c : ascii) : Z := Z.of_nat (nat_of_ascii c).

Definition chars (s : string) : list ascii := String.list_ascii_of_string s.

Definition unchars (l : list ascii) : string := String.string_of_list_ascii l.

Definition str_length (s : string) : Z := Z.of_nat (String.length s).

Definition char_in (lo hi : Z) (c : ascii) : bool := (lo <=? code c) && (code c <=? hi).

Definition is_digit := char_in 48 57.
Definition is_lower := char_in 97 122.
Definition is_upper := char_in 65 90.
Definition is_hex_lower (c : ascii) : bool := is_digit c || char_in 97 102 c.
Definition is_word_dash (c : ascii) : bool :=
  is_digit c || is_lower c || is_upper c || (code c =? 95) || (code c =? 45).

Definition startsWith (p s : string) : bool := String.prefix p s.

Fixpoint includes (p s : string) : bool :=
  String.prefix p s ||
  match s with
  | String.EmptyString => false
  | String.String _ r => includes p r
  end.

Definition endsWith (p s : string) : bool :=
  let d := (String.length s - String.length p)%nat in
  (String.length p <=? String.length s)%nat &&
  str_eq (String.substring d (String.length p) s) p.

(** [s.split(c)] for a one-character separator, on lists of characters. *)
Fixpoint split_chars (c : ascii) (l : list ascii) : list (list ascii) :=
  match l with
  | [] => [[]]
  | x :: r =>
    if bool_decide (x = c) then [] :: split_chars c r
    else match split_chars c r with
         | [] => [[x]]
         | h :: t => (x :: h) :: t
         end
  end.

Definition split (c : ascii) (s : string) : list string :=
  unchars <$> split_chars c (chars s).

Definition lower_char (c : ascii) : ascii :=
  if is_upper c then ascii_of_nat (nat_of_ascii c + 32) else c.

Definition toLowerCase (s : string) : string := unchars (lower_char <$> chars s).

(** [/^p{lo,hi}$/]: every character satisfies [p] and the length is in range. *)
Definition matches_all (p : ascii -> bool) (lo hi : nat) (s : string) : bool :=
  (lo <=? String.length s)%nat && (String.length s <=? hi)%nat && forallb p (chars s).

(** [/^[0-9a-f]{n}$/]. *)
Definition sha_hex (n : nat) (s : string) : bool := matches_all is_hex_lower n n s.

(** [s.indexOf(p)], -1 written as [None]. *)
Fixpoint indexOf (p s : string) : option nat :=
  if String.prefix p s then Some O
  else match s with
       | String.EmptyString => None
       | String.String _ r => S <$> indexOf p r
       end.

Definition zeroOid : string := unchars (replicate 40 "0"%char).

(** [/^0{40}$/i]. *)
Definition ZERO_OID_RE (s : string) : bool :=
  matches_all (fun c => bool_decide (c = "0"%char)) 40 40 s.

(** [isZeroOid]. *)
Definition isZeroOid (s : string) : bool := str_eq s zeroOid.

(** [String(n).padStart(k, "0")] for a non-negative [n]. *)
Definition padStart0 (k : nat) (s : string) : string :=
  (unchars (replicate (k - String.length s) "0"%char) ++ s)%string.

Definition hex_digit_upper (n : Z) : ascii :=
  ascii_of_nat (Z.to_nat (if n <? 10 then 48 + n else 55 + n)).

(** [encodeURIComponent] on UTF-8 bytes. *)
Definition uri_unreserved (c : ascii) : bool :=
  is_digit c || is_lower c || is_upper c ||
  existsb (fun d => bool_decide (c = d)) (chars "-_.!~*'()").

Definition encodeURIComponent (s : string) : string :=
  unchars (List.concat ((fun c => if uri_unreserved c then [c]
                             else ["%"%char; hex_digit_upper (code c / 16);
                                   hex_digit_upper (code c mod 16)]) <$> chars s)).

(** The entries of a key family in the order [storage.list] returns them. *)
Definition listed {A} (m : gmap string A) : list (string * A) :=
  js_sort (fun a b => String.ltb a.1 b.1) (map_to_list m).

(** [[...new Set(l)]]: the values in the order of their first occurrence. *)
Definition js_unique (l : list string) : list string :=
  foldl (fun acc x => if js_some (str_eq x) acc then acc else js_push acc x) [] l.

(** [[...l].sort()] on strings. *)
Definition sort_strings (l : list string) : list string := js_sort String.ltb l.

(** ** Facts *)

Lemma ZERO_OID_RE_zeroOid s : ZERO_OID_RE s = true <-> s = zeroOid.
Proof.
  unfold ZERO_OID_RE, matches_all. split.
  - intros H. to_prop.
    match goal with H : forallb _ _ = true |- _ => rename H into Hf end.
    rewrite forallb_forall in Hf.
    assert (Hlen : length (chars s) = 40%nat).
    { unfold chars. rewrite <- (String.string_of_list_ascii_of_string s) in *.
      repeat match goal with H : (_ <=? _)%nat = true |- _ => apply Nat.leb_le in H end.
      rewrite String.list_ascii_of_string_of_list_ascii.
      assert (forall l, String.length (String.string_of_list_ascii l) = length l) as E
        by (induction l; simpl; congruence).
      rewrite E in *. lia. }
    unfold zeroOid, unchars. rewrite <- (String.string_of_list_ascii_of_string s). f_equal.
    apply list_eq_Forall2, Forall2_same_length_lookup_2; [rewrite length_replicate; done|].
    intros i x y Hx Hy. apply lookup_replicate in Hy as [-> _].
    apply list_elem_of_lookup_2, list_elem_of_In, Hf in Hx.
    by apply bool_decide_eq_true_1 in Hx.
  - intros ->. vm_compute. done.
Qed.

Lemma isZeroOid_true s : isZeroOid s = true <-> s = zeroOid.
Proof. unfold isZeroOid, str_eq. apply bool_decide_eq_true. Qed.

Lemma ZERO_OID_RE_isZeroOid s : ZERO_OID_RE s = isZeroOid s.
Proof.
  destruct (ZERO_OID_RE s) eqn:E; symmetry.
  - by apply isZeroOid_true, ZERO_OID_RE_zeroOid.
  - destruct (isZeroOid s) eqn:E2; [|done].
    apply isZeroOid_true, ZERO_OID_RE_zeroOid in E2. congruence.
Qed.

(** ** Insertion-ordered maps: [Map] of JavaScript with string keys *)

Module AMap.
Section Map.
Context {A : Type}.
Implicit Types (m : list (string * A)) (k : string) (v : A).

Fixpoint lookup k m : option A :=
  match m with
  | [] => None
  | (k', v) :: r => if str_eq k' k then Some v else lookup k r
  end.

(** [m.set(k, v)]: in place when the key is present, else appended. *)
Fixpoint set k v m : list (string * A) :=
  match m with
  | [] => [(k, v)]
  | (k', v') :: r => if str_eq k' k then (k', v) :: r else (k', v') :: set k v r
  end.

Definition remove k m : list (string * A) :=
  js_filter (fun p => negb (str_eq p.1 k)) m.

(** [new Map(entries)]. *)
Definition of_list (l : list (string * A)) : list (string * A) :=
  foldl (fun m p => set p.1 p.2 m) [] l.

Definition keys m : list string := m.*1.

Lemma lookup_set k v m k' :
  lookup k' (set k v m) = if str_eq k k' then Some v else lookup k' m.
Proof.
  induction m as [|[k0 v0] m IH]; simpl; [done|].
  destruct (str_eq k0 k) eqn:E1; simpl; destruct (str_eq k0 k') eqn:E2;
    rewrite ?IH; destruct (str_eq k k') eqn:E3; to_prop; congruence.
Qed.

Lemma lookup_remove k m k' :
  lookup k' (remove k m) = if str_eq k k' then None else lookup k' m.
Proof.
  induction m as [|[k0 v0] m IH]; simpl; [by destruct (str_eq k k')|].
  destruct (str_eq k0 k) eqn:E1; simpl; rewrite ?IH; destruct (str_eq k0 k') eqn:E2;
    destruct (str_eq k k') eqn:E3; to_prop; congruence.
Qed.

Lemma elem_of_keys k m : k ∈ keys m <-> is_Some (lookup k m).
Proof.
  induction m as [|[k0 v0] m IH]; simpl.
  - split; [intros H; by apply elem_of_nil in H | intros [? ?]; done].
  - rewrite elem_of_cons, IH. unfold str_eq. case_bool_decide as E.
    + subst. split; eauto.
    + split; [intros [->|?]; done | eauto].
Qed.

Lemma lookup_none_keys k m : lookup k m = None <-> k ∉ keys m.
Proof.
  rewrite elem_of_keys. split; [by intros -> [? ?]|].
  intros H. destruct (lookup k m); [|done]. exfalso; eauto.
Qed.

Lemma keys_set_present k v m : k ∈ keys m -> keys (set k v m) = keys m.
Proof.
  induction m as [|[k0 v0] m IH]; simpl; [intros H; by apply elem_of_nil in H|].
  unfold str_eq. case_bool_decide; [by simpl|].
  intros [->|H1]%elem_of_cons; [done|]. simpl. f_equal. by apply IH.
Qed.

Lemma keys_set_absent k v m : k ∉ keys m -> set k v m = m ++ [(k, v)].
Proof.
  induction m as [|[k0 v0] m IH]; simpl; [done|].
  rewrite not_elem_of_cons. intros [H1 H2]. unfold str_eq.
  rewrite bool_decide_false by congruence. f_equal. by apply IH.
Qed.

Lemma NoDup_set k v m : NoDup (keys m) -> NoDup (keys (set k v m)).
Proof.
  intros Hm. destruct (decide (k ∈ keys m)) as [H|H].
  - by rewrite keys_set_present.
  - rewrite keys_set_absent by done. unfold keys. rewrite fmap_app, NoDup_app.
    simpl. split_and!; [done| |apply NoDup_singleton].
    intros x Hx Hk. by apply list_elem_of_singleton in Hk as ->.
Qed.

Lemma NoDup_remove k m : NoDup (keys m) -> NoDup (keys (remove k m)).
Proof.
  induction m as [|[k0 v0] m IH]; simpl; [done|].
  intros [H1 H2]%NoDup_cons. unfold str_eq. case_bool_decide; simpl; [by apply IH|].
  constructor; [|by apply IH]. rewrite elem_of_keys in *.
  rewrite lookup_remove. unfold str_eq. rewrite bool_decide_false by congruence. done.
Qed.

Lemma NoDup_of_list l : NoDup (keys (of_list l)).
Proof.
  unfold of_list. assert (NoDup (keys (@nil (string * A)))) as H by constructor.
  revert H. generalize (@nil (string * A)).
  induction l as [|p l IH]; intros m Hm; simpl; [done|]. by apply IH, NoDup_set.
Qed.

Lemma set_lookup_id k v m : lookup k m = Some v -> set k v m = m.
Proof.
  induction m as [|[k0 v0] m IH]; simpl; [done|]. unfold str_eq.
  case_bool_decide; [intros [= ->]; done | intros H1; f_equal; by apply IH].
Qed.

Lemma remove_absent k m : lookup k m = None -> remove k m = m.
Proof.
  induction m as [|[k0 v0] m IH]; simpl; [done|]. unfold str_eq.
  case_bool_decide; [done|]. simpl. intros. f_equal. by apply IH.
Qed.

(** A list whose keys are already distinct is its own map. *)
Lemma of_list_NoDup l : NoDup (keys l) -> of_list l = l.
Proof.
  unfold of_list. intros Hl.
  assert (forall m, NoDup (keys (m ++ l)) ->
            foldl (fun m p => set p.1 p.2 m) m l = m ++ l) as E.
  { clear Hl. induction l as [|[k v] l IH]; intros m Hm; simpl; [by rewrite app_nil_r|].
    rewrite keys_set_absent.
    - rewrite IH; rewrite <- app_assoc; done.
    - unfold keys in *. rewrite fmap_app, NoDup_app in Hm.
      destruct Hm as (_ & Hm & _). intros Hk. apply (Hm k Hk). simpl. left. }
  apply (E []). done.
Qed.

Lemma lookup_of_list_NoDup l k v :
  NoDup (keys l) -> lookup k l = Some v <-> (k, v) ∈ l.
Proof.
  induction l as [|[k0 v0] l IH]; simpl.
  - intros _. split; [done | intros H; by apply elem_of_nil in H].
  - intros [H1 H2]%NoDup_cons. rewrite elem_of_cons. unfold str_eq. case_bool_decide as E.
    + subst. split; [intros [= ->]; by left|].
      intros [[= ->]|Hin]; [done|]. exfalso. apply H1.
      apply list_elem_of_fmap. by exists (k, v).
    + rewrite IH by done. split; [by right|]. intros [[= -> ->]|?]; [done|done].
Qed.
End Map.
End AMap.

#[export] Hint Resolve AMap.NoDup_set AMap.NoDup_remove AMap.NoDup_of_list : golib.

(** ** Path components *)

Lemma chars_String c s : chars (String.String c s) = c :: chars s.
Proof. done. Qed.

Lemma endsWith_slash s : endsWith "/" s = false -> last (chars s) <> Some "/"%char.
Proof.
  assert (last (chars s) = Some "/"%char ->
          String.substring (String.length s - 1) 1 s = "/"%string) as H.
  { induction s as [|a s IH]; [done|]. rewrite chars_String.
    destruct s as [|b s]; [by intros [= ->]|].
    change (last (a :: chars (String.String b s))) with (last (chars (String.String b s))).
    intros Hl. specialize (IH Hl). simpl in IH |- *. by rewrite Nat.sub_0_r in IH. }
  intros He Hl. unfold endsWith in He. cbv zeta in He.
  change (String.length "/") with 1%nat in He. rewrite (H Hl) in He.
  destruct s as [|a s]; [done|]. by cbn in He.
Qed.

Lemma split_chars_cons c l : exists h t, split_chars c l = h :: t.
Proof.
  induction l as [|x l (h & t & IH)]; simpl; [by eauto|].
  case_bool_decide; [eauto|]. rewrite IH. eauto.
Qed.

Lemma split_chars_head c l h t :
  split_chars c l = h :: t -> h = [] -> l = [] \/ exists l', l = c :: l'.
Proof.
  destruct l as [|x l]; simpl; [by left|]. case_bool_decide; [by subst; eauto|].
  destruct (split_chars_cons c l) as (h' & t' & ->). by intros [= <- <-] ?.
Qed.

(** Without a double separator and a final one, no later component is empty. *)
Lemma split_slash_tail s h t :
  includes "//" s = false -> last (chars s) <> Some "/"%char ->
  split_chars "/"%char (chars s) = h :: t -> [] ∉ t.
Proof.
  revert h t. induction s as [|a s IH]; intros h t Hi Hl.
  - intros [= <- <-]. apply not_elem_of_nil.
  - rewrite chars_String. simpl split_chars.
    destruct (split_chars_cons "/"%char (chars s)) as (h' & t' & E). rewrite E.
    assert (includes "//" s = false) as Hi'.
    { cbn [includes] in Hi. by apply orb_false_iff in Hi as [_ ?]. }
    assert (s <> String.EmptyString -> last (chars s) <> Some "/"%char) as Hl'.
    { destruct s; [done|]. intros _. exact Hl. }
    case_bool_decide as Ea; intros [= <- <-].
    + subst a. assert (s <> String.EmptyString) as Hs by (intros ->; by apply Hl).
      apply not_elem_of_cons. split; [|eapply IH; eauto].
      intros <-. destruct (split_chars_head _ _ _ _ E eq_refl) as [E2|(l' & E2)].
      * by destruct s.
      * destruct s as [|b s]; [done|]. rewrite chars_String in E2. injection E2 as -> _.
        cbn [includes] in Hi. apply orb_false_iff in Hi as [Hp _].
        simpl in Hp. by destruct s.
    + destruct s as [|b s]; [by injection E as <- <-; apply not_elem_of_nil|].
      eapply IH; eauto.
Qed.

Lemma chars_inj s1 s2 : chars s1 = chars s2 -> s1 = s2.
Proof.
  intros E. rewrite <- (String.string_of_list_ascii_of_string s1), <- (String.string_of_list_ascii_of_string s2).
  unfold chars in E. by rewrite E.
Qed.

Lemma unchars_inj l1 l2 : unchars l1 = unchars l2 -> l1 = l2.
Proof.
  unfold unchars. intros H. rewrite <- (String.list_ascii_of_string_of_list_ascii l1), H.
  apply String.list_ascii_of_string_of_list_ascii.
Qed.

Lemma split_nonempty s component :
  s <> ""%string -> startsWith "/" s = false -> includes "//" s = false ->
  endsWith "/" s = false -> component ∈ split "/"%char s -> component <> ""%string.
Proof.
  intros Hs Hst Hi He (l & -> & Hin)%list_elem_of_fmap Hc.
  assert (l = []) as -> by by apply unchars_inj.
  destruct (split_chars_cons "/"%char (chars s)) as (h & t & E). rewrite E in Hin.
  apply elem_of_cons in Hin as [<-|Hin].
  - destruct (split_chars_head _ _ _ _ E eq_refl) as [E2|(l' & E2)]; destruct s as [|b s]; try done.
    rewrite chars_String in E2. injection E2 as -> _. simpl in Hst. by destruct s.
  - eapply split_slash_tail; eauto using endsWith_slash.
Qed.

Lemma includes_char c s : includes (unchars [c]) s = false -> c ∉ chars s.
Proof.
  induction s as [|a s IH]; [intros _; apply not_elem_of_nil|].
  cbn [includes]. intros [Hp Hi]%orb_false_iff. rewrite chars_String.
  apply not_elem_of_cons. split; [|auto].
  intros ->. simpl in Hp. destruct (ascii_dec a a); [|done]. by destruct s.
Qed.

(** *** Numbers in texts *)

(** The characters of a number. *)
Definition is_number_char (c : ascii) : bool := is_digit c || (code c =? 45).

Lemma pretty_N_go_chars x s :
  exists l, chars (pretty_N_go x s) = l ++ chars s /\
    Forall (fun c => is_number_char c = true) l /\ ((0 < x)%N -> l <> []).
Proof.
  revert s. induction (N.lt_wf_0 x) as [x _ IH]. intros s.
  destruct (decide (0 < x)%N) as [Hx|Hx].
  - rewrite pretty_N_go_step by done.
    destruct (IH (x `div` 10)%N ltac:(by apply N.div_lt) (String (pretty_N_char (x `mod` 10)) s))
      as (l & -> & Hl & _).
    rewrite chars_String. eexists (l ++ [_]). rewrite <- (assoc_L (++)). split_and!; [done | | by destruct l].
    apply Forall_app. split; [done|]. constructor; [|done].
    assert (x `mod` 10 < 10)%N as Hd by (by apply N.mod_lt).
    revert Hd. generalize (x `mod` 10)%N. intros d Hd.
    assert (d = 0 \/ d = 1 \/ d = 2 \/ d = 3 \/ d = 4 \/ d = 5 \/ d = 6 \/ d = 7 \/ d = 8 \/ d = 9)%N
      as Hten by lia.
    by repeat destruct Hten as [->|Hten]; [..|subst d].
  - replace x with 0%N by lia. rewrite pretty_N_go_0. exists []. split_and!; [done | done | lia].
Qed.

Lemma number_chars (n : Z) :
  Forall (fun c => is_number_char c = true) (chars (pretty n)) /\ chars (pretty n) <> [].
Proof.
  assert (forall p, Forall (fun c => is_number_char c = true) (chars (pretty (N.pos p))) /\
                    chars (pretty (N.pos p)) <> []) as Hpos.
  { intros p. destruct (pretty_N_go_chars (N.pos p) "") as (l & E & Hl & Hne).
    change (pretty (N.pos p)) with (pretty_N_go (N.pos p) ""). rewrite E. change (chars "") with (@nil ascii).
    rewrite (right_id_L [] (++)). split; [done | by apply Hne]. }
  destruct n as [|p|p]; [by repeat constructor | apply Hpos |].
  destruct (Hpos p) as [H1 H2].
  change (pretty (Z.neg p)) with (String.String "-"%char (pretty (N.pos p))). rewrite chars_String.
  split; [by constructor | done].
Qed.

Lemma chars_append a b : chars (a ++ b)%string = chars a ++ chars b.
Proof.
  unfold chars. induction a as [|c a IH]; [done|].
  change (String.String c a ++ b)%string with (String.String c (a ++ b)). cbn. by rewrite IH.
Qed.

(** What precedes the last mark and what follows it. *)
Lemma split_at_mark {A} (x : A) a b a' b' :
  x ∉ b -> x ∉ b' -> a ++ x :: b = a' ++ x :: b' -> a = a' /\ b = b'.
Proof.
  revert a'. induction a as [|y a IH]; intros [|y' a'] Hb Hb'; cbn; intros E.
  - by injection E.
  - injection E as <- ->. destruct Hb. set_solver.
  - injection E as -> <-. destruct Hb'. set_solver.
  - injection E as -> E. by destruct (IH a' Hb Hb' E) as [-> ->].
Qed.

(** A number after a mark is read back. *)
Lemma number_after (x : ascii) a b (n m : Z) : is_number_char x = false ->
  chars a ++ x :: chars (pretty n) = chars b ++ x :: chars (pretty m) -> a = b /\ n = m.
Proof.
  intros Hx E. assert (forall k : Z, x ∉ chars (pretty k)) as Hn.
  { intros k Hin. destruct (number_chars k) as [Hk _]. rewrite Forall_forall in Hk. apply Hk in Hin. congruence. }
  apply split_at_mark in E as [E1 E2]; [|apply Hn..]. split; [by apply chars_inj|]. by apply chars_inj, (inj pretty) in E2.
Qed.
