(* ===== verification/Keys.v ===== *)
(** * The keys of R2 objects

    [keys.ts]: where the packs, sidecars, requests and publications of a
    repository are stored.  An exception of the source is [None]. *)
From S2P Require Import Prelude Text.
From Stdlib Require Import Ascii.
From Stdlib Require String.

(** ** Definitions *)

Definition doPrefix (id : string) : string := ("do/" ++ id)%string.

Definition r2LooseKey (prefix oid : string) : string := (prefix ++ "/objects/loose/" ++ oid)%string.

Definition r2PackKey (prefix name : string) : string := (prefix ++ "/objects/pack/" ++ name)%string.

(** [key.replace(/\.<old>$/, new)]. *)
Definition replace_suffix (old new key : string) : string :=
  if endsWith old key
  then (String.substring 0 (String.length key - String.length old) key ++ new)%string
  else key.

Definition packIndexKey : string -> string := replace_suffix ".pack" ".idx".
Definition packRefsKey : string -> string := replace_suffix ".pack" ".refs".
Definition packKeyFromIndexKey : string -> string := replace_suffix ".idx" ".pack".

Definition r2PackDirPrefix (prefix : string) : string := (prefix ++ "/objects/pack/")%string.

Definition repositoryGenerationManifestKey (prefix : string) (generation : Z) : string :=
  (prefix ++ "/generations/" ++ pretty generation ++ ".json")%string.

Definition repositoryGenerationIndexKey (prefix : string) : string :=
  (prefix ++ "/generation-index.json")%string.

Definition nativeReceiveInputPackKey (prefix operationId : string) : string :=
  r2PackKey prefix ("pack-native-input-" ++ operationId ++ ".pack").

Definition nativeReceiveInputRequestKey (prefix operationId : string) : string :=
  (prefix ++ "/native-receive/input-" ++ operationId ++ ".request")%string.

Definition nativeReceiveOutputPackKey (prefix operationId fingerprint : string) : string :=
  r2PackKey prefix ("pack-native-" ++ operationId ++ "-" ++ fingerprint ++ ".pack").

(** [/^[0-9a-f-]{36}$/], the shape of a claim id. *)
Definition is_claim_id : string -> bool :=
  matches_all (fun c => is_hex_lower c || (code c =? 45)) 36 36.

Definition nativeReceiveClaimOutputPackKey (basePackKey claimId : string) : option string :=
  if negb (endsWith ".pack" basePackKey) || negb (is_claim_id claimId) then None
  else Some (String.substring 0 (String.length basePackKey - 5) basePackKey
               ++ "-claim-" ++ claimId ++ ".pack")%string.

Definition nativeReceiveAuthorityPrefix (outputPackKey operationId fingerprint : string)
    : option string :=
  match indexOf "/objects/pack/" outputPackKey with
  | Some (S _ as markerIndex) =>
    Some (String.substring 0 markerIndex outputPackKey
            ++ "/native-receive/authority/" ++ operationId ++ "-" ++ fingerprint)%string
  | _ => None
  end.

Definition nativeReceiveAuthorityRefKey (outputPackKey operationId fingerprint : string) (index : Z)
    : option string :=
  (fun p => p ++ "/ref-" ++ pretty index ++ ".json")%string
    <$> nativeReceiveAuthorityPrefix outputPackKey operationId fingerprint.

Definition nativeReceiveAuthorityReceiptKey (outputPackKey operationId fingerprint : string)
    : option string :=
  (fun p => p ++ "/receipt.json")%string
    <$> nativeReceiveAuthorityPrefix outputPackKey operationId fingerprint.

Definition repositoryImportPrefix (repositoryId : string) : string :=
  ("imports/" ++ encodeURIComponent repositoryId ++ "/")%string.

Definition repositoryImportPackKey (repositoryId operationId : string) : string :=
  (repositoryImportPrefix repositoryId ++ operationId ++ ".pack")%string.

Definition isPackKey : string -> bool := endsWith ".pack".
Definition isIdxKey : string -> bool := endsWith ".idx".

(** [/^do\/([^/]+)/.exec(path)]. *)
Definition getDoIdFromPath (path : string) : option string :=
  match split "/"%char path with
  | "do"%string :: id :: _ => if str_eq id "" then None else Some id
  | _ => None
  end.
