(* ===== verification/Bytes.v ===== *)
(** * Bytes, hexadecimal text and big-endian words

    [common/hex.ts], [common/bytes.ts] and what the codecs use of JavaScript: a
    byte is a [Z] from 0 to 255 and a [Uint8Array] a list of them.  The bit
    operators work on 32-bit integers; [toInt32] and [toUint32] are their
    conversions.  A [DataView] access is big-endian here, as everywhere in the
    source. *)
From S2P Require Import Prelude Text.
From Stdlib Require Import Ascii.
From Stdlib Require String.

(** ** Definitions *)

Definition is_byte (b : Z) : Prop := 0 <= b < 256.
Abbreviation is_bytes := (Forall is_byte).

Definition toUint32 (z : Z) : Z := z mod 2 ^ 32.
Definition toInt32 (z : Z) : Z := let u := z mod 2 ^ 32 in if u <? 2 ^ 31 then u else u - 2 ^ 32.
Definition toUint8 (z : Z) : Z := z mod 256.

(** [Number.isSafeInteger] on an integer. *)
Definition is_safe (z : Z) : bool := (- (2 ^ 53 - 1) <=? z) && (z <=? 2 ^ 53 - 1).

(** [bytes[i]] where an index out of range gives [undefined], which the bit
    operators read as zero. *)
Definition byte_at (l : list Z) (i : nat) : Z := default 0 (l !! i).

(** [bytesToHex]. *)
Definition hex_digit_lower (n : Z) : ascii :=
  ascii_of_nat (Z.to_nat (if n <? 10 then 48 + n else 87 + n)).

Definition byte_hex (b : Z) : list ascii := [hex_digit_lower (b / 16); hex_digit_lower (b mod 16)].

Definition bytesToHex (bytes : list Z) : string := unchars (List.concat (byte_hex <$> bytes)).

(** The value of a hexadecimal digit, given by its code. *)
Definition hex_value (c : Z) : option Z :=
  if (48 <=? c) && (c <=? 57) then Some (c - 48)
  else if (97 <=? c) && (c <=? 102) then Some (c - 87)
  else if (65 <=? c) && (c <=? 70) then Some (c - 55)
  else None.

(** *** [parseInt(text, 16)] on UTF-8 bytes *)

(** White space and line terminators, which [parseInt] skips, by their encoding. *)
Definition js_space (l : list Z) : option (list Z) :=
  match l with
  | a :: r1 =>
    if (9 <=? a) && (a <=? 13) || (a =? 32) then Some r1 else
    match r1 with
    | b :: r2 =>
      if (a =? 194) && (b =? 160) then Some r2 else
      match r2 with
      | c :: r3 =>
        if (a =? 225) && (b =? 154) && (c =? 128)
           || (a =? 226) && (b =? 128)
              && ((128 <=? c) && (c <=? 138) || (c =? 168) || (c =? 169) || (c =? 175))
           || (a =? 226) && (b =? 129) && (c =? 159)
           || (a =? 227) && (b =? 128) && (c =? 128)
           || (a =? 239) && (b =? 187) && (c =? 191)
        then Some r3 else None
      | [] => None
      end
    | [] => None
    end
  | [] => None
  end.

(** One turn per byte is enough. *)
Fixpoint skip_space (fuel : nat) (l : list Z) : list Z :=
  match fuel, js_space l with
  | S fuel, Some r => skip_space fuel r
  | _, _ => l
  end.

(** The longest run of digits; [None] is [NaN]. *)
Fixpoint hex_digits (acc : Z) (l : list Z) : Z :=
  match l with
  | c :: r => match hex_value c with Some v => hex_digits (acc * 16 + v) r | None => acc end
  | [] => acc
  end.

Definition hex_number (l : list Z) : option Z :=
  match l with
  | c :: _ => match hex_value c with Some _ => Some (hex_digits 0 l) | None => None end
  | [] => None
  end.

Definition strip_0x (l : list Z) : list Z :=
  match l with
  | 48 :: x :: r => if (x =? 120) || (x =? 88) then r else l
  | _ => l
  end.

Definition parseInt16 (l : list Z) : option Z :=
  match skip_space (length l) l with
  | 45 :: r => Z.opp <$> hex_number (strip_0x r)
  | 43 :: r => hex_number (strip_0x r)
  | l => hex_number (strip_0x l)
  end.

(** The code units of a text.  [encode] is [TextEncoder.encode]. *)
Definition encode (s : string) : list Z := code <$> chars s.

(** [hexToBytes]: storing [NaN] in a byte stores zero. *)
Fixpoint hex_pairs (l : list Z) : option (list Z) :=
  match l with
  | [] => Some []
  | [_] => None
  | a :: b :: r => cons (toUint8 (default 0 (parseInt16 [a; b]))) <$> hex_pairs r
  end.

Definition hexToBytes (hex : string) : option (list Z) := hex_pairs (encode hex).

(** [isValidOid]: [/^[0-9a-f]{40}$/i]. *)
Definition is_hex (c : ascii) : bool := is_hex_lower (lower_char c).
Definition isValidOid (oid : string) : bool := matches_all is_hex 40 40 oid.

(** [bytesEqual]. *)
Definition bytesEqual (left right : list Z) : bool := bool_decide (left = right).

(** [DataView.getUint32] and [setUint32]: four bytes. *)
Definition be32 (v : Z) : list Z := [v / 2 ^ 24 mod 256; v / 2 ^ 16 mod 256; v / 2 ^ 8 mod 256; v mod 256].

Definition getUint32 (l : list Z) (i : nat) : Z :=
  byte_at l i * 2 ^ 24 + byte_at l (i + 1) * 2 ^ 16 + byte_at l (i + 2) * 2 ^ 8 + byte_at l (i + 3).

(** ** Lemmas *)

Create HintDb bytes.

Example hex_example : bytesToHex [0; 171; 255] = "00abff"%string.
Proof. reflexivity. Qed.

Example parse_example : parseInt16 <$> [encode "00a4"; encode " 1f "; encode "-2"; encode "0x1F"; encode "x1"; encode "7g"]
  = [Some 164; Some 31; Some (-2); Some 31; None; Some 7].
Proof. reflexivity. Qed.

Lemma land_127 z : Z.land z 127 = z mod 128.
Proof. apply (Z.land_ones z 7). lia. Qed.

Lemma land_15 z : Z.land z 15 = z mod 16.
Proof. apply (Z.land_ones z 4). lia. Qed.

Lemma shiftr_7 z : Z.shiftr z 7 = z / 128.
Proof. by rewrite Z.shiftr_div_pow2 by lia. Qed.

Lemma shiftr_4 z : Z.shiftr z 4 = z / 16.
Proof. by rewrite Z.shiftr_div_pow2 by lia. Qed.

Lemma lor_shift a b n : 0 <= n -> 0 <= a < 2 ^ n -> Z.lor a (b * 2 ^ n) = a + b * 2 ^ n.
Proof.
  intros Hn Ha. rewrite <- Z.shiftl_mul_pow2 by done.
  assert (Z.land a (Z.shiftl b n) = 0) as H0.
  { apply Z.bits_inj'. intros i Hi. rewrite Z.land_spec, Z.bits_0.
    destruct (decide (i < n)).
    - rewrite Z.shiftl_spec_low by done. apply andb_false_r.
    - rewrite <- (Z.mod_small a (2 ^ n)) by done. rewrite Z.mod_pow2_bits_high by lia. done. }
  by rewrite (Z.add_nocarry_lxor _ _ H0), Z.lxor_lor.
Qed.

(** A fact about small numbers is checked on each of them. *)
Lemma check_below (n : Z) (p : Z -> bool) :
  forallb p (seqZ 0 n) = true -> forall b, 0 <= b < n -> p b = true.
Proof.
  rewrite forallb_forall. intros H b Hb. apply H, list_elem_of_In, elem_of_seqZ. lia.
Qed.

Lemma uint8_bytes l : is_bytes l -> toUint8 <$> l = l.
Proof.
  induction 1 as [|b l Hb _ IH]; [done|]. csimpl. rewrite IH. unfold toUint8.
  by rewrite Z.mod_small.
Qed.

Lemma bit_31 u : 0 <= u < 2 ^ 32 -> (Z.land u (2 ^ 31) =? 0) = (u <? 2 ^ 31).
Proof.
  intros Hu. destruct (Z.ltb_spec u (2 ^ 31)) as [H|H].
  - apply Z.eqb_eq, Z.bits_inj'. intros i Hi. rewrite Z.land_spec, Z.bits_0, Z.pow2_bits_eqb by lia.
    destruct (Z.eqb_spec 31 i) as [<-|]; [|by rewrite andb_false_r].
    rewrite <- (Z.mod_small u (2 ^ 31)) by lia. by rewrite Z.mod_pow2_bits_high by lia.
  - apply Z.eqb_neq. intros E. apply (f_equal (fun z => Z.testbit z 31)) in E.
    rewrite Z.land_spec, Z.bits_0, Z.pow2_bits_true, andb_true_r in E by lia.
    apply Z.testbit_false in E; [|lia]. change (2 ^ 32) with 4294967296 in Hu.
    change (2 ^ 31) with 2147483648 in *. Z.div_mod_to_equations. lia.
Qed.

Lemma toInt32_small z : - 2 ^ 31 <= z < 2 ^ 31 -> toInt32 z = z.
Proof.
  intros Hz. unfold toInt32. destruct (Z.ltb_spec (z mod 2 ^ 32) (2 ^ 31)) as [H|H].
  - destruct (decide (0 <= z)); [by apply Z.mod_small; lia|].
    rewrite <- (Z.mod_unique z (2 ^ 32) (-1) (z + 2 ^ 32)) in H by lia. lia.
  - destruct (decide (0 <= z)); [rewrite Z.mod_small in H by lia; lia|].
    rewrite <- (Z.mod_unique z (2 ^ 32) (-1) (z + 2 ^ 32)) by lia. lia.
Qed.

Lemma length_be32 v : length (be32 v) = 4%nat.
Proof. done. Qed.

Lemma be32_bytes v : is_bytes (be32 v).
Proof. repeat constructor; unfold is_byte; apply Z.mod_pos_bound; lia. Qed.

Lemma byte_at_app_l l r i : (i < length l)%nat -> byte_at (l ++ r) i = byte_at l i.
Proof. intros H. unfold byte_at. by rewrite lookup_app_l. Qed.

Lemma byte_at_app_r l r i : byte_at (l ++ r) (length l + i) = byte_at r i.
Proof. unfold byte_at. rewrite lookup_app_r by lia. f_equal. f_equal. lia. Qed.

Lemma byte_at_insert l i v j :
  (i < length l)%nat -> byte_at (<[i := v]> l) j = if decide (j = i) then v else byte_at l j.
Proof.
  intros. unfold byte_at. case_decide; [subst; by rewrite list_lookup_insert_eq|].
  by rewrite list_lookup_insert_ne.
Qed.

Lemma getUint32_be32 v : 0 <= v < 2 ^ 32 -> getUint32 (be32 v) 0 = v.
Proof.
  intros Hv. unfold getUint32, be32, byte_at. simpl.
  change (2 ^ 32) with 4294967296 in Hv. Z.div_mod_to_equations. lia.
Qed.

(** A word written after [pre]. *)
Lemma getUint32_app pre v rest :
  0 <= v < 2 ^ 32 -> getUint32 (pre ++ be32 v ++ rest) (length pre) = v.
Proof.
  intros Hv. rewrite <- (getUint32_be32 v Hv) at 2. unfold getUint32.
  rewrite <- (Nat.add_0_r (length pre)) at 1. rewrite !byte_at_app_r.
  by rewrite !byte_at_app_l by (rewrite length_be32; lia).
Qed.

(** *** Hexadecimal round trip *)

Lemma chars_unchars l : chars (unchars l) = l.
Proof. apply String.list_ascii_of_string_of_list_ascii. Qed.

Lemma parse_byte_hex b : is_byte b ->
  toUint8 (default 0 (parseInt16 (code <$> byte_hex b))) = b.
Proof.
  intros Hb. apply Z.eqb_eq, (check_below 256
    (fun b => toUint8 (default 0 (parseInt16 (code <$> byte_hex b))) =? b)); [|exact Hb].
  vm_compute. reflexivity.
Qed.

Lemma hex_pairs_byte b l : is_byte b -> hex_pairs ((code <$> byte_hex b) ++ l) = cons b <$> hex_pairs l.
Proof. intros Hb. rewrite <- (parse_byte_hex b Hb) at 2. done. Qed.

Lemma hexToBytes_bytesToHex l : is_bytes l -> hexToBytes (bytesToHex l) = Some l.
Proof.
  unfold hexToBytes, bytesToHex, encode. rewrite chars_unchars.
  induction 1 as [|b l Hb _ IH]; [done|]. cbn [fmap list_fmap List.map List.concat].
  rewrite fmap_app, hex_pairs_byte by done. by rewrite IH.
Qed.

Lemma bytesToHex_inj l1 l2 : is_bytes l1 -> is_bytes l2 -> bytesToHex l1 = bytesToHex l2 -> l1 = l2.
Proof.
  intros H1 H2 E. apply hexToBytes_bytesToHex in H1, H2. congruence.
Qed.

Lemma lower_byte_hex b : is_byte b -> lower_char <$> byte_hex b = byte_hex b.
Proof.
  intros Hb. pose proof (check_below 256 (fun b => bool_decide (lower_char <$> byte_hex b = byte_hex b))) as H.
  specialize (H ltac:(vm_compute; reflexivity) b Hb). by apply bool_decide_eq_true in H.
Qed.

Lemma toLowerCase_hex l : is_bytes l -> toLowerCase (bytesToHex l) = bytesToHex l.
Proof.
  intros Hl. unfold toLowerCase, bytesToHex. rewrite chars_unchars. f_equal.
  induction Hl as [|b l Hb _ IH]; [done|]. cbn [fmap list_fmap List.concat].
  rewrite fmap_app, IH. f_equal. by apply lower_byte_hex.
Qed.

Lemma toLowerCase_twice t : toLowerCase (toLowerCase t) = toLowerCase t.
Proof.
  unfold toLowerCase. rewrite chars_unchars. f_equal. rewrite <- list_fmap_compose. apply list_fmap_ext.
  intros _ c _. unfold compose. destruct c as [[] [] [] [] [] [] [] []]; reflexivity.
Qed.

Lemma length_unchars l : String.length (unchars l) = length l.
Proof. unfold unchars. induction l as [|c l IH]; cbn; [done|]. by rewrite IH. Qed.

Lemma length_chars s : length (chars s) = String.length s.
Proof. unfold chars. induction s as [|c s IH]; cbn; [done|]. by rewrite IH. Qed.

(** *** Texts that are object ids *)

(** A digit of either case is the lower-case digit of a value. *)
Definition hex_case (c : ascii) : bool :=
  negb (is_hex c) || existsb (fun v => bool_decide (lower_char c = hex_digit_lower v)) (Z.of_nat <$> seq 0 16).

Lemma hex_case_all c : hex_case c = true.
Proof. destruct c as [[] [] [] [] [] [] [] []]; vm_compute; reflexivity. Qed.

Lemma hex_digit_of c : is_hex c = true -> exists v, 0 <= v < 16 /\ lower_char c = hex_digit_lower v.
Proof.
  intros Hc. pose proof (hex_case_all c) as H. unfold hex_case in H. rewrite Hc in H. cbn [negb orb] in H.
  apply existsb_exists in H as (v & Hv & E). to_prop. exists v. split; [|done].
  apply list_elem_of_In, list_elem_of_fmap in Hv as (n & -> & Hn%elem_of_seq). lia.
Qed.

Lemma hex_text n l : forallb is_hex l = true -> length l = (2 * n)%nat ->
  exists b, is_bytes b /\ length b = n /\ lower_char <$> l = List.concat (byte_hex <$> b).
Proof.
  revert l. induction n as [|n IH]; intros l Hl Hn.
  { destruct l; [|done]. by exists []. }
  destruct l as [|c [|d l]]; [done | simpl in Hn; lia |]. simpl in Hl. to_prop.
  destruct (hex_digit_of c) as (v & Hv & Ev); [done|]. destruct (hex_digit_of d) as (u & Hu & Eu); [done|].
  destruct (IH l) as (b & Hb & Hlen & E); [done | simpl in Hn; lia |].
  exists (v * 16 + u :: b). split_and!.
  - constructor; [unfold is_byte; lia | done].
  - simpl. lia.
  - cbn [fmap list_fmap List.concat]. rewrite E, Ev, Eu. unfold byte_hex.
    rewrite Z.div_add_l, (Z.div_small u), Z.add_0_r by lia. rewrite Z.add_comm, Z.mod_add, Z.mod_small by lia. done.
Qed.

Lemma valid_oid_names h : isValidOid h = true ->
  exists b, (length b = 20%nat /\ is_bytes b) /\ toLowerCase h = bytesToHex b.
Proof.
  unfold isValidOid, matches_all. intros Hv. to_prop.
  destruct (hex_text 20 (chars h)) as (b & Hb & Hlen & E); [done | rewrite length_chars; apply Nat.leb_le in H, H1; lia |].
  exists b. split; [done|]. unfold toLowerCase, bytesToHex. by rewrite E.
Qed.

Lemma byte_hex_is_hex b : is_byte b -> forallb is_hex (byte_hex b) = true.
Proof. intros Hb. apply (check_below 256 (fun b => forallb is_hex (byte_hex b))); [vm_compute; reflexivity | exact Hb]. Qed.

Lemma length_byte_hexes b : length (List.concat (byte_hex <$> b)) = (2 * length b)%nat.
Proof. induction b as [|x b IH]; [done|]. cbn [fmap list_fmap List.concat]. rewrite length_app, IH. cbn. lia. Qed.

Lemma valid_oid_hex b : length b = 20%nat -> is_bytes b -> isValidOid (bytesToHex b) = true.
Proof.
  intros Hl Hb. unfold isValidOid, matches_all, bytesToHex. rewrite length_unchars, length_byte_hexes, Hl, chars_unchars.
  cbn [Nat.leb andb Nat.mul Nat.add]. clear Hl. induction Hb as [|x b Hx _ IH]; [done|].
  cbn [fmap list_fmap List.concat]. by rewrite forallb_app, byte_hex_is_hex, IH.
Qed.

(** For concrete bytes. *)
Lemma is_bytes_check l : forallb (fun b => (0 <=? b) && (b <? 256)) l = true -> is_bytes l.
Proof.
  rewrite forallb_forall, Forall_forall. intros H b Hb. apply list_elem_of_In, H in Hb.
  to_prop. by split.
Qed.

(** ** Texts as bytes *)

Lemma encode_bytes s : is_bytes (encode s).
Proof.
  unfold encode. apply Forall_fmap, Forall_forall. intros c _. unfold compose, is_byte, code.
  pose proof (nat_ascii_bounded c). lia.
Qed.

#[local] Instance code_inj : Inj (=) (=) code.
Proof.
  intros a b Hab. unfold code in Hab. apply Nat2Z.inj in Hab.
  by rewrite <- (ascii_nat_embedding a), Hab, ascii_nat_embedding.
Qed.

Lemma encode_inj s1 s2 : encode s1 = encode s2 -> s1 = s2.
Proof. unfold encode. intros E. by apply chars_inj, (inj (fmap code)). Qed.

Lemma encode_append a b : encode (a ++ b)%string = encode a ++ encode b.
Proof. unfold encode. by rewrite chars_append, fmap_app. Qed.
