(* ===== verification/Json.v ===== *)
(** * JSON texts and the identities that are digests of them

    [JSON.stringify] on the values the program makes digests of: objects of
    strings, integers, booleans and arrays, whose members appear in the order of
    the source and are left out when they are [undefined].  The text determines
    the value ([stringify_inj]), so a digest of it binds the value as far as the
    hash function is injective.  The second part are those digests:
    [git/nativeReceive/fingerprint.ts], the fingerprint and the key of
    [git/nativeReceive/catalogMetadataBundle.ts], and [stockPhysicalEntryId] of
    [git/nativeReceive/physicalDependencyPlan.ts]. *)
From S2P Require Import Prelude NativeTypes Storage Effects Text Keys Bytes.
From Stdlib Require Import Ascii.
From Stdlib Require String.

(** ** Definitions *)

Inductive json :=
  | JNull
  | JBool (b : bool)
  | JNum (n : Z)
  | JStr (s : string)
  | JArr (items : list json)
  | JObj (members : list (string * json)).

(** An object literal: a member that is [undefined] is left out. *)
Definition js_members (ms : list (string * option json)) : list (string * json) :=
  omap (fun m => v ← m.2; Some (m.1, v)) ms.

Definition js_object (ms : list (string * option json)) : json := JObj (js_members ms).

(** The escapes of [QuoteJSONString] in UTF-8. *)
Definition escape_char (c : ascii) : list ascii :=
  let n := code c in
  if n =? 34 then ["\"%char; ascii_of_nat 34]
  else if n =? 92 then ["\"; "\"]%char
  else if n =? 8 then ["\"; "b"]%char
  else if n =? 9 then ["\"; "t"]%char
  else if n =? 10 then ["\"; "n"]%char
  else if n =? 12 then ["\"; "f"]%char
  else if n =? 13 then ["\"; "r"]%char
  else if n <? 32 then ["\"; "u"; "0"; "0"]%char ++ byte_hex n
  else [c].

Definition quote_mark : ascii := ascii_of_nat 34.

Definition quote (s : string) : list ascii :=
  quote_mark :: List.concat (escape_char <$> chars s) ++ [quote_mark].

Fixpoint json_text (v : json) : list ascii :=
  match v with
  | JNull => chars "null"
  | JBool b => if b then chars "true" else chars "false"
  | JNum n => chars (pretty n)
  | JStr s => quote s
  | JArr [] => chars "[]"
  | JArr (x :: r) =>
    "["%char :: json_text x ++
      (fix rest l := match l with
         | [] => ["]"%char]
         | y :: r => ","%char :: json_text y ++ rest r
         end) r
  | JObj [] => chars "{}"
  | JObj ((k, x) :: r) =>
    "{"%char :: quote k ++ ":"%char :: json_text x ++
      (fix rest l := match l with
         | [] => ["}"%char]
         | (k, y) :: r => ","%char :: quote k ++ ":"%char :: json_text y ++ rest r
         end) r
  end.

Definition stringify (v : json) : string := unchars (json_text v).

(** *** Digests *)

Definition str_member (name : string) (v : string) : string * option json := (name, Some (JStr v)).
Definition num_member (name : string) (v : Z) : string * option json := (name, Some (JNum v)).

Definition command_json (c : ReceiveCommand) : json :=
  js_object [str_member "oldOid" (oldOid c); str_member "newOid" (newOid c); str_member "ref" (cmd_ref c)].

Definition source_name (s : AcceptedWriteSource) : string :=
  match s with GitPush => "git-push" | Ingestion => "ingestion" | Import => "import" | Reconcile => "reconcile" end.

Definition fact_json (f : AcceptedWriteFact) : json :=
  js_object [str_member "repositoryId" (fact_repositoryId f); str_member "ref" (fact_ref f);
    str_member "beforeSha" (beforeSha f); str_member "afterSha" (afterSha f);
    str_member "actor" (fact_actor f); str_member "sourceSurface" (source_name (fact_sourceSurface f));
    ("idempotencyKey", Some (match fact_idempotencyKey f with Some k => JStr k | None => JNull end))].

(** The arguments of [fingerprintNativeReceive]. *)
Record FingerprintArgs := mkFingerprintArgs {
  fp_repositoryId : string;
  fp_commands : list ReceiveCommand;
  fp_acceptedWrites : list AcceptedWriteFact;
  fp_inputPackKey : string;
  fp_inputBytes : Z;
  fp_inputEtag : string;
  fp_stockReceive : option NativeReceiveStockInput }.

Definition fingerprint_json (a : FingerprintArgs) : json :=
  let common := [str_member "repositoryId" (fp_repositoryId a);
    ("commands", Some (JArr (command_json <$> fp_commands a)));
    ("acceptedWrites", Some (JArr (fact_json <$> fp_acceptedWrites a)))] in
  js_object (match fp_stockReceive a with
    | Some s => common ++
      [("stockReceive", Some (js_object [
          str_member "inputRequestSha256" (si_inputRequestSha256 s);
          num_member "packOffset" (si_packOffset s);
          ("sideBand64k", Some (JBool (truthy (si_sideBand64k s))))]))]
    | None => common ++
      [str_member "inputPackKey" (fp_inputPackKey a); num_member "inputBytes" (fp_inputBytes a);
       str_member "inputEtag" (fp_inputEtag a)]
    end).

(** [orderedCatalog]: by pack key. *)
Definition orderedCatalog (rows : list PackCatalogRow) : list PackCatalogRow :=
  js_sort (fun a b => String.ltb (packKey a) (packKey b)) rows.

Definition catalog_json (rows : list PackCatalogRow) : json :=
  JArr ((fun r => js_object [str_member "packKey" (packKey r); num_member "packBytes" (packBytes r);
                             num_member "idxBytes" (idxBytes r)]) <$> orderedCatalog rows).

(** What precedes the marker of a pack key; [None] is the exception. *)
Definition catalog_prefix (key : string) : option string :=
  match indexOf "/objects/pack/" key with
  | Some (S _ as markerIndex) => Some (String.substring 0 markerIndex key)
  | _ => None
  end.

Section Digests.
Context `{Env}.

(** The digest of a text: [bytesToHex(digest("SHA-256", encode(text)))]. *)
Definition sha256Text (text : string) : string := env_sha256_hex (encode text).

Definition fingerprintNativeReceive (a : FingerprintArgs) : string :=
  sha256Text (stringify (fingerprint_json a)).

Definition catalogMetadataFingerprint (rows : list PackCatalogRow) : string :=
  sha256Text (stringify (catalog_json rows)).

Definition catalogMetadataBundleKey (rows : list PackCatalogRow) : res string :=
  match mapM (fun r => catalog_prefix (packKey r)) rows with
  | None => Err (Throw "catalog-metadata:pack-key-shape")
  | Some prefixes =>
    match js_unique prefixes with
    | [prefix] => Ok (prefix ++ "/catalog-metadata/" ++ catalogMetadataFingerprint rows ++ ".bin")%string
    | _ => Err (Throw "catalog-metadata:pack-prefix-mismatch")
    end
  end.

Definition zero_byte : string := unchars [ascii_of_nat 0].

Definition stockPhysicalEntryId (packChecksum idxSha256 prefSha256 : string) (offset end_ : Z)
    (oid : string) : string :=
  sha256Text (String.concat zero_byte
    ["stock-physical-entry-v1"; packChecksum; idxSha256; prefSha256; pretty offset; pretty end_; oid]).
End Digests.

(** ** The text determines the value *)

Section JsonInd.
Context (P : json -> Prop) (HNull : P JNull)
  (HB : forall b, P (JBool b)) (HN : forall n, P (JNum n)) (HS : forall s, P (JStr s))
  (HA : forall l, Forall P l -> P (JArr l)) (HO : forall l, Forall (fun m => P m.2) l -> P (JObj l)).

Fixpoint json_ind_deep (v : json) : P v :=
  match v with
  | JNull => HNull
  | JBool b => HB b
  | JNum n => HN n
  | JStr s => HS s
  | JArr l => HA l ((fix go l := match l return Forall P l with
      | [] => Forall_nil_2 _
      | x :: r => Forall_cons_2 _ _ _ (json_ind_deep x) (go r) end) l)
  | JObj l => HO l ((fix go l := match l return Forall (fun m => P m.2) l with
      | [] => Forall_nil_2 _
      | x :: r => Forall_cons_2 (fun m : string * json => P m.2) _ _ (json_ind_deep x.2) (go r) end) l)
  end.
End JsonInd.

(** Reading one escaped character back. *)
Definition unescape (l : list ascii) : option (ascii * list ascii) :=
  match l with
  | [] => None
  | c :: r =>
    if code c =? 34 then None
    else if code c =? 92 then
      match r with
      | d :: r' =>
        if code d =? 98 then Some (ascii_of_nat 8, r')
        else if code d =? 116 then Some (ascii_of_nat 9, r')
        else if code d =? 110 then Some (ascii_of_nat 10, r')
        else if code d =? 102 then Some (ascii_of_nat 12, r')
        else if code d =? 114 then Some (ascii_of_nat 13, r')
        else if code d =? 117 then
          match r' with
          | _ :: _ :: a :: b :: r2 =>
            hi ← hex_value (code a); lo ← hex_value (code b);
            Some (ascii_of_nat (Z.to_nat (16 * hi + lo)), r2)
          | _ => None
          end
        else Some (d, r')
      | [] => None
      end
    else Some (c, r)
  end.

Lemma unescape_escape c l : unescape (escape_char c ++ l) = Some (c, l).
Proof. destruct c as [[] [] [] [] [] [] [] []]; reflexivity. Qed.

Lemma unescape_quote l : unescape (quote_mark :: l) = None.
Proof. reflexivity. Qed.

Lemma escaped_inj l1 l2 r1 r2 :
  List.concat (escape_char <$> l1) ++ quote_mark :: r1 = List.concat (escape_char <$> l2) ++ quote_mark :: r2 ->
  l1 = l2 /\ r1 = r2.
Proof.
  revert l2. induction l1 as [|c l1 IH]; intros [|d l2]; csimpl; rewrite <- ?(assoc_L (++)); intros E.
  - by injection E.
  - apply (f_equal unescape) in E. by rewrite unescape_quote, unescape_escape in E.
  - apply (f_equal unescape) in E. by rewrite unescape_quote, unescape_escape in E.
  - pose proof (f_equal unescape E) as E2. rewrite !unescape_escape in E2.
    injection E2 as -> E2. by destruct (IH _ E2) as [-> ->].
Qed.

Lemma quote_inj s1 s2 r1 r2 : quote s1 ++ r1 = quote s2 ++ r2 -> s1 = s2 /\ r1 = r2.
Proof.
  unfold quote. rewrite <- !app_comm_cons, <- !(assoc_L (++)). intros [= E].
  apply escaped_inj in E as [E ->]. by apply chars_inj in E as ->.
Qed.

(** What follows a value in a text: nothing, or a mark that ends it. *)
Definition ends (l : list ascii) : Prop :=
  match l with [] => True | c :: _ => is_number_char c = false end.

Lemma number_inj (n1 n2 : Z) r1 r2 :
  ends r1 -> ends r2 -> chars (pretty n1) ++ r1 = chars (pretty n2) ++ r2 -> n1 = n2 /\ r1 = r2.
Proof.
  destruct (number_chars n1) as [H1 _], (number_chars n2) as [H2 _]. intros Hr1 Hr2 E.
  assert (chars (pretty n1) = chars (pretty n2) /\ r1 = r2) as [E1 ->].
  { revert H1 H2 E. generalize (chars (pretty n1)) as l1, (chars (pretty n2)) as l2.
    induction l1 as [|c l1 IH]; intros [|d l2] H1 H2 E; simpl in *.
    - done.
    - subst r1. inversion H2; subst. simpl in Hr1. congruence.
    - subst r2. inversion H1; subst. simpl in Hr2. congruence.
    - injection E as -> E. inversion H1; inversion H2; subst.
      destruct (IH l2) as [-> ->]; done. }
  split; [|done]. by apply chars_inj, (inj pretty) in E1.
Qed.

Lemma number_head (n : Z) : exists c l, chars (pretty n) = c :: l /\ is_number_char c = true.
Proof.
  destruct (number_chars n) as [H Hne]. destruct (chars (pretty n)) as [|c l]; [done|].
  inversion H; subst. eauto.
Qed.

(** The first character tells the kind of a value. *)
Definition json_kind (v : json) : Z :=
  match v with JNull => 7 | JBool true => 0 | JBool false => 1 | JNum _ => 2 | JStr _ => 3 | JArr _ => 4 | JObj _ => 5 end.

Definition kind_of (c : ascii) : Z :=
  if code c =? 116 then 0 else if code c =? 102 then 1 else if is_number_char c then 2
  else if code c =? 34 then 3 else if code c =? 91 then 4 else if code c =? 123 then 5
  else if code c =? 110 then 7 else 6.

Lemma json_text_head v : exists c l, json_text v = c :: l /\ kind_of c = json_kind v.
Proof.
  destruct v as [|[]|n|s|[|x l]|[|[k x] l]]; try (do 2 eexists; split; [reflexivity | done]).
  destruct (number_head n) as (c & l & E & Hc). exists c, l. split; [exact E|].
  unfold kind_of. destruct (code c =? 116) eqn:E1, (code c =? 102) eqn:E2; rewrite ?Hc; try done.
  all: exfalso; unfold is_number_char, is_digit, char_in in Hc; to_prop; lia.
Qed.

#[local] Opaque quote.

(** The rest of an array and of an object after a value. *)
Fixpoint items_rest (l : list json) : list ascii :=
  match l with
  | [] => ["]"%char]
  | y :: r => ","%char :: json_text y ++ items_rest r
  end.

Fixpoint members_rest (l : list (string * json)) : list ascii :=
  match l with
  | [] => ["}"%char]
  | (k, y) :: r => ","%char :: quote k ++ ":"%char :: json_text y ++ members_rest r
  end.

Lemma json_text_arr x r : json_text (JArr (x :: r)) = "["%char :: json_text x ++ items_rest r.
Proof. reflexivity. Qed.

Lemma json_text_obj k x r :
  json_text (JObj ((k, x) :: r)) = "{"%char :: quote k ++ ":"%char :: json_text x ++ members_rest r.
Proof. reflexivity. Qed.

Definition reads_back (v : json) : Prop :=
  forall v' r r', ends r -> ends r' -> json_text v ++ r = json_text v' ++ r' -> v = v' /\ r = r'.

Lemma tail_inj {A} (x y : A) l l' : x :: l = y :: l' -> l = l'.
Proof. by intros [= _ ->]. Qed.

Lemma items_ends l r : ends r -> ends (items_rest l ++ r).
Proof. by destruct l. Qed.

Lemma members_ends l r : ends r -> ends (members_rest l ++ r).
Proof. by destruct l as [|[]]. Qed.

Lemma items_rest_inj l l' r r' :
  Forall reads_back l -> ends r -> ends r' ->
  items_rest l ++ r = items_rest l' ++ r' -> l = l' /\ r = r'.
Proof.
  intros Hl. revert l'. induction Hl as [|x l Hx Hl IH]; intros [|y l'] Hr Hr' E; simpl in E;
    rewrite <- ?(assoc_L (++)) in E; try discriminate.
  - by injection E.
  - injection E as E. destruct (Hx y _ _ (items_ends _ _ Hr) (items_ends _ _ Hr') E) as [-> E2].
    by destruct (IH l' Hr Hr' E2) as [-> ->].
Qed.

Lemma members_rest_inj l l' r r' :
  Forall (fun m => reads_back m.2) l -> ends r -> ends r' ->
  members_rest l ++ r = members_rest l' ++ r' -> l = l' /\ r = r'.
Proof.
  intros Hl. revert l'. induction Hl as [|[k x] l Hx Hl IH]; intros [|[k' y] l'] Hr Hr' E; simpl in E;
    try discriminate.
  - by injection E.
  - apply tail_inj in E. rewrite <- !(app_assoc (quote _)) in E. apply quote_inj in E as [-> E].
    rewrite <- !app_comm_cons in E. apply tail_inj in E.
    cbn [snd] in Hx. rewrite <- ?(assoc_L (++)) in E. destruct (Hx y _ _ (members_ends _ _ Hr) (members_ends _ _ Hr') E) as [-> E2].
    by destruct (IH l' Hr Hr' E2) as [-> ->].
Qed.

Lemma kind_agrees v v' r r' : json_text v ++ r = json_text v' ++ r' -> json_kind v = json_kind v'.
Proof.
  destruct (json_text_head v) as (c & l & -> & <-), (json_text_head v') as (c' & l' & -> & <-).
  by intros [= -> _].
Qed.

Lemma reads_back_all v : reads_back v.
Proof.
  induction v as [|b|n|s|l IH|l IH] using json_ind_deep; intros v' r r' Hr Hr' E.
  all: pose proof (kind_agrees _ _ _ _ E) as Hk.
  - destruct v' as [|[]|?|?|?|?]; try discriminate Hk. by injection E as ->.
  - destruct v' as [|[]|?|?|?|?], b; try discriminate Hk; by injection E as ->.
  - destruct v' as [|[]|?|?|?|?]; try discriminate Hk.
    simpl in E. by apply number_inj in E as [-> ->].
  - destruct v' as [|[]|?|?|?|?]; try discriminate Hk.
    simpl in E. by apply quote_inj in E as [-> ->].
  - destruct v' as [|[]|?|?|l'|?]; try discriminate Hk.
    destruct l as [|x l], l' as [|y l']; rewrite ?json_text_arr in E; simpl in E.
    + by injection E as ->.
    + exfalso. injection E as E. destruct (json_text_head y) as (c & q & Eq & Hq).
      rewrite Eq in E. injection E as <- E. by destruct y as [|[]| | | |].
    + exfalso. injection E as E. destruct (json_text_head x) as (c & q & Eq & Hq).
      rewrite Eq in E. injection E as -> E. by destruct x as [|[]| | | |].
    + apply tail_inj in E. rewrite <- !(assoc_L (++)) in E. inversion IH as [|?? Hx Hl]; subst.
      destruct (Hx y _ _ (items_ends _ _ Hr) (items_ends _ _ Hr') E) as [-> E2].
      by apply items_rest_inj in E2 as [-> ->].
  - destruct v' as [|[]|?|?|?|l']; try discriminate Hk.
    destruct l as [|[k x] l], l' as [|[k' y] l']; rewrite ?json_text_obj in E; simpl in E; try discriminate.
    + by injection E as ->.
    + apply tail_inj in E.
      destruct (members_rest_inj ((k, x) :: l) ((k', y) :: l') r r' IH Hr Hr') as [[= -> -> ->] ->]; [|done].
      simpl. f_equal. exact E.
Qed.

Lemma stringify_inj v v' : stringify v = stringify v' -> v = v'.
Proof.
  unfold stringify. intros E%unchars_inj.
  destruct (reads_back_all v v' [] [] I I) as [-> _]; [by rewrite E | done].
Qed.

(** ** What a fingerprint binds *)

(** No two texts have the same digest: what is relied on of SHA-256. *)
Definition collision_free (digest : list Z -> string) : Prop :=
  forall a b, is_bytes a -> is_bytes b -> digest a = digest b -> a = b.

Lemma sha256Text_inj `{Env} s1 s2 :
  collision_free env_sha256_hex -> sha256Text s1 = sha256Text s2 -> s1 = s2.
Proof. intros Hc E. apply encode_inj, Hc; auto using encode_bytes. Qed.

#[local] Instance command_json_inj : Inj (=) (=) command_json.
Proof. intros c1 c2. destruct c1, c2. by intros [= -> -> ->]. Qed.

#[local] Instance fact_json_inj : Inj (=) (=) fact_json.
Proof.
  intros f1 f2. destruct f1 as [????? s1 k1], f2 as [????? s2 k2]. intros [= -> -> -> -> -> Es Ek].
  assert (s1 = s2) as -> by (by destruct s1, s2). by destruct k1, k2; simplify_eq.
Qed.

(** The parts of the arguments that a fingerprint covers: of a stock receive
    the request, of another one the input pack. *)
Definition fingerprinted (a : FingerprintArgs) :=
  (fp_repositoryId a, fp_commands a, fp_acceptedWrites a,
   match fp_stockReceive a with
   | Some s => inl (si_inputRequestSha256 s, si_packOffset s, truthy (si_sideBand64k s))
   | None => inr (fp_inputPackKey a, fp_inputBytes a, fp_inputEtag a)
   end).

(** C22: a fingerprint binds the push.  Two requests with the same fingerprint -
    as far as SHA-256 has no collision - are for the same repository, the same
    ref commands and the same accepted-write facts, and have the same input: a
    stock receive the same request body, pack offset and side-band mode, another
    one the same input pack; a stock receive never shares one with another. *)
Theorem fingerprint_binds_push `{Env} (a b : FingerprintArgs) :
  collision_free env_sha256_hex ->
  fingerprintNativeReceive a = fingerprintNativeReceive b -> fingerprinted a = fingerprinted b.
Proof.
  intros Hc E%sha256Text_inj%stringify_inj; [|done].
  destruct a as [r1 c1 w1 k1 n1 t1 s1], b as [r2 c2 w2 k2 n2 t2 s2].
  unfold fingerprint_json, fingerprinted in *. simpl in *.
  destruct s1 as [[]|], s2 as [[]|]; simpl in *; simplify_eq; congruence.
Qed.

(** A platform whose digest writes the bytes out. *)
Definition hex_env : Env := {|
  do_id := "repo"; env_now n := 1000 * Z.of_nat n; env_uuid n := pretty n; env_fault _ := None;
  env_interleave _ s := s; env_r2_get _ _ := Some None; env_r2_delete _ _ := true;
  env_queue_send _ := true; env_sha256_hex := bytesToHex; env_idleMs := 1800000;
  env_snapshotEventProbe := false; env_qualificationMode := false |}.

Lemma hex_env_collision_free : collision_free (env_sha256_hex (Env := hex_env)).
Proof. exact bytesToHex_inj. Qed.

Definition demo_fingerprint (request pack : string) : FingerprintArgs :=
  mkFingerprintArgs "repo" [mkCommand "0000" "1111" "refs/heads/main"] [] pack 12 "etag"
    (Some (mkStockInput request 4 12 [] None)).

Lemma fingerprint_binds_push_witness :
  fingerprinted (demo_fingerprint "r" "p") = fingerprinted (demo_fingerprint "r" "q") /\
  fingerprintNativeReceive (H := hex_env) (demo_fingerprint "r" "p") <>
  fingerprintNativeReceive (H := hex_env) (demo_fingerprint "s" "p").
Proof.
  split; [|by vm_compute].
  apply (fingerprint_binds_push (H := hex_env) (demo_fingerprint "r" "p") (demo_fingerprint "r" "q")).
  - exact hex_env_collision_free.
  - vm_compute. reflexivity.
Defined.
