(* ===== verification/StockProof.v ===== *)
(** * The proof a stock receive is accepted on

    [git/nativeReceive/stockProof.ts], with the order and the identity of the
    physical nodes from [git/nativeReceive/physicalDependencyPlan.ts].  A
    processor reports which pack entries of the active catalog it read to rebuild
    the objects a push refers to: the nodes of a forest whose edges are delta
    bases.  The repository object accepts the result only after it has checked the
    report; [physical_plan_sound] says what a report that passes guarantees.

    [localeCompare] is applied to lower-case hexadecimal texts and to the two
    kinds of an edge only, where it is the lexicographic order.  A JavaScript
    [Map] that is only read by key is a finite map. *)
From S2P Require Import Prelude NativeTypes Storage Effects Text Keys Bytes Json.
From Stdlib Require Import Ascii.
From Stdlib Require String.

(** ** Definitions *)

Definition OID : string -> bool := sha_hex 40.
Definition SHA256 : string -> bool := sha_hex 64.
Definition MAX_LOGICAL_OBJECTS : Z := 100000.
Definition MAX_LOGICAL_EDGES : Z := 500000.
Definition MAX_PHYSICAL_NODES : Z := 256.
Definition MAX_DEPENDENCY_DEPTH : Z := 255.
Definition MAX_ACTIVE_PACK_READS : Z := 320.
Definition STOCK_METADATA_MAX_BYTES : Z := 16 * 1024 * 1024.

Definition js_length {A} (l : list A) : Z := Z.of_nat (length l).

(** Tests of an optional member: [x === v], [p(x ?? "")], truthiness. *)
Definition is_val (x : option Z) (v : Z) : bool := bool_decide (x = Some v).
Definition same_num (x y : option Z) : bool := bool_decide (x = y).
Definition test_opt (p : string -> bool) (x : option string) : bool := p (default "" x).
Definition truthy_num (x : option Z) : bool := match x with Some v => negb (v =? 0) | None => false end.

Fixpoint ascending (l : list string) : bool :=
  match l with
  | a :: (b :: _) as r => String.ltb a b && ascending r
  | _ => true
  end.

Definition sortedUnique (values : list string) (pattern : string -> bool) (maximum : Z) : bool :=
  (js_length values <=? maximum) && js_every pattern values && ascending values.

Definition equalStrings (left right : list string) : bool := bool_decide (left = right).

Definition is_in (x : string) (l : list string) : bool := js_some (str_eq x) l.

Definition rangeKey (packChecksum : string) (start end_ : Z) (requiredOid : string) : string :=
  (packChecksum ++ ":" ++ pretty start ++ ":" ++ pretty end_ ++ ":" ++ requiredOid)%string.

Definition range_key (r : NativeReceiveStockRange) : string :=
  rangeKey (rg_packChecksum r) (rg_start r) (rg_end r) (rg_requiredOid r).

(** The key of a required read. *)
Definition read_key (r : NativeReceiveStockActivePackRead) : option string :=
  match rd_kind r with
  | ReadRequired oid => Some (rangeKey (rd_packChecksum r) (rd_start r) (rd_end r) oid)
  | _ => None
  end.

Definition is_trailer (r : NativeReceiveStockActivePackRead) : bool :=
  match rd_kind r with ReadTrailer => true | _ => false end.
Definition is_required (r : NativeReceiveStockActivePackRead) : bool :=
  match rd_kind r with ReadRequired _ => true | _ => false end.
Definition is_whole (r : NativeReceiveStockActivePackRead) : bool :=
  match rd_kind r with ReadWhole => true | _ => false end.

Definition rangeValid (r : NativeReceiveStockRange) : bool :=
  test_opt SHA256 (rg_entryId r) && OID (rg_packChecksum r) && OID (rg_requiredOid r) &&
  is_safe (rg_start r) && is_safe (rg_end r) && (0 <=? rg_start r) && (rg_start r <? rg_end r) &&
  str_eq (rg_reason r) "required-object" &&
  sortedUnique (default [] (rg_semanticRootOids r)) OID MAX_PHYSICAL_NODES.

Definition readValid (r : NativeReceiveStockActivePackRead) : bool :=
  OID (rd_packChecksum r) && is_safe (rd_start r) && is_safe (rd_end r) &&
  is_safe (rd_returnedBytes r) && (0 <=? rd_start r) && (rd_start r <? rd_end r) &&
  (rd_returnedBytes r =? rd_end r - rd_start r) &&
  match rd_kind r with
  | ReadTrailer => rd_returnedBytes r =? 20
  | ReadWhole => rd_start r =? 0
  | ReadRequired oid => OID oid
  end.

Definition bindingValid (b : NativeReceiveActivePackBinding) : bool :=
  (0 <? str_length (bi_packKey b)) && (str_length (bi_packKey b) <=? 1024) &&
  is_safe (bi_packBytes b) && (20 <? bi_packBytes b) && is_safe (bi_idxBytes b) &&
  (0 <? bi_idxBytes b) && OID (bi_packChecksum b) && SHA256 (bi_idxSha256 b) &&
  SHA256 (bi_prefSha256 b).

Definition nodeShapeValid (node : StockPhysicalNode) (roots : list string) : bool :=
  SHA256 (pn_entryId node) && OID (pn_packChecksum node) && SHA256 (pn_idxSha256 node) &&
  SHA256 (pn_prefSha256 node) && is_safe (pn_offset node) && is_safe (pn_end node) &&
  (0 <=? pn_offset node) && (pn_offset node <? pn_end node) && OID (pn_oid node) &&
  is_in (pn_objectType node) ["commit"; "tree"; "blob"; "tag"] &&
  is_in (pn_encoding node) ["full"; "ofs-delta"; "ref-delta"] &&
  pn_oidVerified node && pn_integrityBound node &&
  sortedUnique (pn_semanticRootOids node) OID MAX_PHYSICAL_NODES &&
  js_every (fun oid => is_in oid roots) (pn_semanticRootOids node).

Definition dependencyShapeValid (edge : StockPhysicalDependencyEdge) : bool :=
  SHA256 (ed_dependentEntryId edge) && SHA256 (ed_baseEntryId edge) &&
  negb (str_eq (ed_dependentEntryId edge) (ed_baseEntryId edge)) &&
  (if str_eq (ed_kind edge) "ofs"
   then match ed_baseOffset edge with Some o => is_safe o && (0 <=? o) | None => false end &&
        bool_decide (ed_baseOid edge = None)
   else test_opt OID (ed_baseOid edge) && bool_decide (ed_baseOffset edge = None)).

(** [compareStockPhysicalNodes(left, right) < 0]. *)
Definition node_before (l r : StockPhysicalNode) : bool :=
  if negb (str_eq (pn_packChecksum l) (pn_packChecksum r))
  then String.ltb (pn_packChecksum l) (pn_packChecksum r)
  else if negb (pn_offset l =? pn_offset r) then pn_offset l <? pn_offset r
  else if negb (pn_end l =? pn_end r) then pn_end l <? pn_end r
  else String.ltb (pn_oid l) (pn_oid r).

Definition same_place (l r : StockPhysicalNode) : bool :=
  negb (node_before l r) && negb (node_before r l).

(** A loop that fills a [Map] and fails at an invalid value or a repeated key. *)
Fixpoint index_by {A} (key : A -> string) (ok : A -> bool) (m : gmap string A) (l : list A)
    : option (gmap string A) :=
  match l with
  | [] => Some m
  | x :: r =>
    if negb (ok x) || bool_decide (is_Some (m !! key x)) then None
    else index_by key ok (<[key x := x]> m) r
  end.

Section PhysicalPlan.
Context `{Env}.

(** *** The nodes and their packs *)

(** The first loop: the nodes by their entry id, which is a digest of the rest. *)
Definition node_valid (roots : list string) (node : StockPhysicalNode) : bool :=
  nodeShapeValid node roots &&
  str_eq (stockPhysicalEntryId (pn_packChecksum node) (pn_idxSha256 node) (pn_prefSha256 node)
            (pn_offset node) (pn_end node) (pn_oid node)) (pn_entryId node).

Definition index_nodes (roots : list string) (nodes : list StockPhysicalNode)
    : option (gmap string StockPhysicalNode) :=
  index_by pn_entryId (node_valid roots) ∅ nodes.

Definition binding_conflict (equivalent binding : NativeReceiveActivePackBinding) : bool :=
  negb (bi_packBytes equivalent =? bi_packBytes binding) ||
  negb (bi_idxBytes equivalent =? bi_idxBytes binding) ||
  negb (str_eq (bi_idxSha256 equivalent) (bi_idxSha256 binding)) ||
  negb (str_eq (bi_prefSha256 equivalent) (bi_prefSha256 binding)).

(** The loop over the bindings: their pack keys, and the first one of a checksum. *)
Fixpoint index_bindings (catalogByKey : gmap string PackCatalogRow)
    (keys : gset string) (byChecksum : gmap string NativeReceiveActivePackBinding)
    (bindings : list NativeReceiveActivePackBinding)
    : option (gset string * gmap string NativeReceiveActivePackBinding) :=
  match bindings with
  | [] => Some (keys, byChecksum)
  | b :: r =>
    let equivalent := byChecksum !! bi_packChecksum b in
    if negb (bindingValid b) || bool_decide (bi_packKey b ∈ keys) ||
       match catalogByKey !! bi_packKey b with
       | None => true
       | Some row => negb (packBytes row =? bi_packBytes b) || negb (idxBytes row =? bi_idxBytes b)
       end ||
       match equivalent with Some e => binding_conflict e b | None => false end
    then None
    else index_bindings catalogByKey ({[bi_packKey b]} ∪ keys)
           (<[bi_packChecksum b := default b equivalent]> byChecksum) r
  end.

Definition node_in_pack (byChecksum : gmap string NativeReceiveActivePackBinding)
    (node : StockPhysicalNode) : bool :=
  match byChecksum !! pn_packChecksum node with
  | None => false
  | Some b =>
    str_eq (bi_idxSha256 b) (pn_idxSha256 node) && str_eq (bi_prefSha256 b) (pn_prefSha256 node) &&
    (pn_end node <=? bi_packBytes b - 20)
  end.

Definition catalog_by_key (rows : list PackCatalogRow) : gmap string PackCatalogRow :=
  foldl (fun m row => <[packKey row := row]> m) ∅ rows.
End PhysicalPlan.

(** *** The edges *)

Section Edges.
Context (byId : gmap string StockPhysicalNode).

Definition edge_valid (e : StockPhysicalDependencyEdge) : bool :=
  dependencyShapeValid e && bool_decide (is_Some (byId !! ed_dependentEntryId e)) &&
  bool_decide (is_Some (byId !! ed_baseEntryId e)).

Definition index_edges (edges : list StockPhysicalDependencyEdge)
    : option (gmap string StockPhysicalDependencyEdge) :=
  index_by ed_dependentEntryId edge_valid ∅ edges.

(** Order by the nodes two entry ids name; the ids are keys of [byId]. *)
Definition id_before (l r : string) : bool :=
  match byId !! l, byId !! r with Some a, Some b => node_before a b | _, _ => false end.

Definition edge_before (l r : StockPhysicalDependencyEdge) : bool :=
  if id_before (ed_dependentEntryId l) (ed_dependentEntryId r) then true
  else if id_before (ed_dependentEntryId r) (ed_dependentEntryId l) then false
  else if id_before (ed_baseEntryId l) (ed_baseEntryId r) then true
  else if id_before (ed_baseEntryId r) (ed_baseEntryId l) then false
  else String.ltb (ed_kind l) (ed_kind r).

Definition edge_name (e : StockPhysicalDependencyEdge) : string * string * string :=
  (ed_dependentEntryId e, ed_baseEntryId e, ed_kind e).

Context (byDependent : gmap string StockPhysicalDependencyEdge).

(** The encoding of a node agrees with its edge. *)
Definition encoding_valid (node : StockPhysicalNode) : bool :=
  let edge := byDependent !! pn_entryId node in
  if str_eq (pn_encoding node) "full"
  then bool_decide (edge = None) && bool_decide (pn_baseEntryId node = None) &&
       bool_decide (pn_baseOid node = None)
  else match edge with
  | None => false
  | Some e =>
    ostr_eq (pn_baseEntryId node) (Some (ed_baseEntryId e)) &&
    match byId !! ed_baseEntryId e with
    | None => false
    | Some base =>
      if str_eq (pn_encoding node) "ofs-delta"
      then str_eq (ed_kind e) "ofs" && is_val (ed_baseOffset e) (pn_offset base) &&
           (pn_offset base <? pn_offset node) && str_eq (pn_packChecksum base) (pn_packChecksum node) &&
           ostr_eq (pn_baseOid node) (Some (pn_oid base))
      else str_eq (ed_kind e) "ref" && ostr_eq (ed_baseOid e) (Some (pn_oid base)) &&
           ostr_eq (pn_baseOid node) (Some (pn_oid base))
    end
  end.

(** *** The order of the entries *)

Definition index_topology (topology : list string) : option (gmap string (string * nat)) :=
  index_by fst (fun x => bool_decide (is_Some (byId !! x.1))) ∅ (imap (fun i id => (id, i)) topology).

(** [!(index.get(base) >= index.get(dependent))]. *)
Definition base_first (index : gmap string (string * nat)) (e : StockPhysicalDependencyEdge) : bool :=
  match index !! ed_baseEntryId e, index !! ed_dependentEntryId e with
  | Some i, Some j => (i.2 <? j.2)%nat
  | _, _ => true
  end.

(** [childrenByBase.get(base) ?? []], sorted. *)
Definition children (edges : list StockPhysicalDependencyEdge) (base : string) : list string :=
  js_sort id_before (ed_dependentEntryId <$> js_filter (fun e => str_eq (ed_baseEntryId e) base) edges).

(** The loop over [ready]: every turn emits one entry, and each of the nodes is
    emitted at most once, so the number of nodes bounds the turns. *)
Fixpoint topology_loop (fuel : nat) (edges : list StockPhysicalDependencyEdge) (ready : list string)
    : option (list string) :=
  match ready with
  | [] => Some []
  | id :: r =>
    match fuel with
    | O => None
    | S fuel => cons id <$> topology_loop fuel edges (js_sort id_before (r ++ children edges id))
    end
  end.

Definition ready_entries (nodes : list StockPhysicalNode) : list string :=
  js_sort id_before
    (pn_entryId <$> js_filter (fun n => bool_decide (byDependent !! pn_entryId n = None)) nodes).

Definition canonical_topology (nodes : list StockPhysicalNode)
    (edges : list StockPhysicalDependencyEdge) : option (list string) :=
  topology_loop (length nodes) edges (ready_entries nodes).

(** [depth]: the number of bases below an entry.  More turns than there are nodes
    mean a cycle, whose depth is out of bounds. *)
Fixpoint depth (fuel : nat) (id : string) : Z :=
  match fuel with
  | O => MAX_DEPENDENCY_DEPTH + 1
  | S fuel =>
    match byDependent !! id with
    | Some e => depth fuel (ed_baseEntryId e) + 1
    | None => 0
    end
  end.

(** The entries on the way from an entry to its full base; [None] is a cycle. *)
Fixpoint chain (fuel : nat) (id : string) : option (list string) :=
  match fuel with
  | O => None
  | S fuel =>
    match byDependent !! id with
    | Some e => cons id <$> chain fuel (ed_baseEntryId e)
    | None => Some [id]
    end
  end.

(** The chain of the one node of a root. *)
Definition root_chain (nodes : list StockPhysicalNode) (root : string) : option (list string) :=
  match js_filter (fun n => str_eq (pn_oid n) root) nodes with
  | [n] => chain (length nodes) (pn_entryId n)
  | _ => None
  end.

(** The roots whose chain goes through an entry, each with its chain. *)
Definition expected_roots (chains : list (string * list string)) (id : string) : list string :=
  sort_strings (js_unique (fst <$> js_filter (fun c => is_in id c.2) chains)).
End Edges.

(** *** The ranges *)

Definition index_ranges (ranges : list NativeReceiveStockRange)
    : option (gmap string NativeReceiveStockRange) :=
  index_by (fun r => default "" (rg_entryId r)) rangeValid ∅ ranges.

Definition range_of_node (byEntry : gmap string NativeReceiveStockRange) (node : StockPhysicalNode)
    : bool :=
  match byEntry !! pn_entryId node with
  | None => false
  | Some r =>
    str_eq (rg_packChecksum r) (pn_packChecksum node) && (rg_start r =? pn_offset node) &&
    (rg_end r =? pn_end node) && str_eq (rg_requiredOid r) (pn_oid node) &&
    equalStrings (default [] (rg_semanticRootOids r)) (pn_semanticRootOids node)
  end.

Definition reads_cover (topology : list string) (ranges : list NativeReceiveStockRange)
    (reads : list NativeReceiveStockActivePackRead) : bool :=
  let requiredReads := js_filter is_required reads in
  let wholeChecksums := rd_packChecksum <$> js_filter is_whole reads in
  bool_decide (Forall2 (fun r id => rg_entryId r = Some id) ranges topology) &&
  js_every (fun r => if is_in (rg_packChecksum r) wholeChecksums then true
                     else js_some (fun q => ostr_eq (read_key q) (Some (range_key r))) requiredReads) ranges &&
  js_every (fun q => js_some (fun r => ostr_eq (read_key q) (Some (range_key r))) ranges) requiredReads.

(** *** The physical plan *)

(** The parts of a result that [physicalPlanValid] requires. *)
Record PhysicalParts := mkParts {
  ph_nodes : list StockPhysicalNode;
  ph_edges : list StockPhysicalDependencyEdge;
  ph_topology : list string;
  ph_selected : list string;
  ph_bindings : list NativeReceiveActivePackBinding }.

Definition physical_parts (r : NativeReceiveProcessResult) : option PhysicalParts :=
  nodes ← pr_physicalNodes r;
  edges ← pr_physicalDependencies r;
  topology ← pr_topologicalEntryIds r;
  selected ← pr_selectedPackChecksums r;
  bindings ← pr_activePackBindings r;
  Some (mkParts nodes edges topology selected bindings).

Definition parts_bounded (p : PhysicalParts) (catalog : list PackCatalogRow) : bool :=
  (js_length (ph_nodes p) <=? MAX_PHYSICAL_NODES) &&
  (js_length (ph_edges p) <=? MAX_PHYSICAL_NODES - 1) &&
  (js_length (ph_topology p) =? js_length (ph_nodes p)) &&
  (js_length (ph_bindings p) =? js_length catalog) &&
  sortedUnique (ph_selected p) OID MAX_PHYSICAL_NODES.

Definition nodes_canonical (nodes : list StockPhysicalNode) : bool :=
  equalStrings (pn_entryId <$> nodes) (pn_entryId <$> js_sort node_before nodes).

Definition edges_canonical (byId : gmap string StockPhysicalNode)
    (edges : list StockPhysicalDependencyEdge) : bool :=
  bool_decide (edge_name <$> edges = edge_name <$> js_sort (edge_before byId) edges).

Definition selected_packs (nodes : list StockPhysicalNode) : list string :=
  sort_strings (js_unique (pn_packChecksum <$> nodes)).

(** The catalog part: every node lies in a pack that the report binds. *)
Definition packs_valid (p : PhysicalParts) (catalog : list PackCatalogRow) : bool :=
  let catalogByKey := catalog_by_key catalog in
  match index_bindings catalogByKey ∅ ∅ (ph_bindings p) with
  | None => false
  | Some (keys, byChecksum) =>
    (size keys =? size catalogByKey)%nat && js_every (node_in_pack byChecksum) (ph_nodes p) &&
    equalStrings (selected_packs (ph_nodes p)) (ph_selected p)
  end.

(** The order part: bases come first, in the one canonical order, not too deep. *)
Definition order_valid (p : PhysicalParts) (byId : gmap string StockPhysicalNode)
    (byDependent : gmap string StockPhysicalDependencyEdge) : bool :=
  match index_topology byId (ph_topology p) with
  | None => false
  | Some index =>
    js_every (base_first index) (ph_edges p) &&
    bool_decide (canonical_topology byId byDependent (ph_nodes p) (ph_edges p) = Some (ph_topology p)) &&
    js_every (fun n => depth byDependent (length (ph_nodes p)) (pn_entryId n) <=? MAX_DEPENDENCY_DEPTH)
      (ph_nodes p)
  end.

(** The root part: one node per root, and a node names the roots it serves. *)
Definition roots_valid (p : PhysicalParts) (roots : list string)
    (byDependent : gmap string StockPhysicalDependencyEdge) : bool :=
  match mapM (fun root => pair root <$> root_chain byDependent (ph_nodes p) root) roots with
  | None => false
  | Some chains =>
    js_every (fun n => equalStrings (expected_roots chains (pn_entryId n)) (pn_semanticRootOids n))
      (ph_nodes p)
  end.

Definition ranges_valid (p : PhysicalParts) (ranges : list NativeReceiveStockRange)
    (reads : list NativeReceiveStockActivePackRead) : bool :=
  (js_length ranges =? js_length (ph_nodes p)) &&
  match index_ranges ranges with
  | None => false
  | Some byEntry =>
    js_every (range_of_node byEntry) (ph_nodes p) && reads_cover (ph_topology p) ranges reads
  end.

Section Validation.
Context `{Env}.

Definition plan_valid (p : PhysicalParts) (catalog : list PackCatalogRow) (roots : list string)
    (ranges : list NativeReceiveStockRange) (reads : list NativeReceiveStockActivePackRead) : bool :=
  parts_bounded p catalog &&
  match index_nodes roots (ph_nodes p) with
  | None => false
  | Some byId =>
    nodes_canonical (ph_nodes p) && packs_valid p catalog &&
    match index_edges byId (ph_edges p) with
    | None => false
    | Some byDependent =>
      edges_canonical byId (ph_edges p) &&
      js_every (encoding_valid byId byDependent) (ph_nodes p) &&
      order_valid p byId byDependent && roots_valid p roots byDependent &&
      ranges_valid p ranges reads
    end
  end.

Definition physicalPlanValid (o : NativeReceiveOperation) (r : NativeReceiveProcessResult)
    (roots : list string) (ranges : list NativeReceiveStockRange)
    (reads : list NativeReceiveStockActivePackRead) : bool :=
  match physical_parts r with
  | Some p => plan_valid p (native_activeCatalog o) roots ranges reads
  | None => false
  end.

Definition activeMetadataBundleValid (o : NativeReceiveOperation) (r : NativeReceiveProcessResult)
    : res bool :=
  match pr_activeMetadataBundle r with
  | None => Ok true
  | Some bundle =>
    if js_length (native_activeCatalog o) =? 0 then Ok false else
    if negb (str_eq (bd_catalogFingerprint bundle) (catalogMetadataFingerprint (native_activeCatalog o)))
    then Ok false else
    match catalogMetadataBundleKey (native_activeCatalog o) with
    | Err e => Err e
    | Ok key => Ok (
        str_eq (bd_key bundle) key && (0 <? bd_bytes bundle) &&
        (bd_bytes bundle <=? STOCK_METADATA_MAX_BYTES) && SHA256 (bd_sha256 bundle) &&
        (0 <? str_length (bd_etag bundle)) && (str_length (bd_etag bundle) <=? 256) &&
        match pr_metadataRequests r with Some n => 1 <=? n | None => false end &&
        match pr_metadataBytes r with Some n => bd_bytes bundle <=? n | None => false end)
    end
  end.
End Validation.

(** *** The whole proof *)

Definition sum_bytes (reads : list NativeReceiveStockActivePackRead) : Z :=
  foldl (fun total r => total + rd_returnedBytes r) 0 reads.

Definition sum_ranges (ranges : list NativeReceiveStockRange) : Z :=
  foldl (fun total r => total + rg_end r - rg_start r) 0 ranges.

Definition type_total (c : ObjectTypeCounts) : Z := n_commit c + n_tree c + n_blob c + n_tag c.

(** [new Map(bindings.map((b) => [b.packChecksum, b])).get(checksum)]: the last one. *)
Definition binding_of (bindings : list NativeReceiveActivePackBinding) (checksum : string)
    : option NativeReceiveActivePackBinding :=
  js_find (fun b => str_eq (bi_packChecksum b) checksum) (rev bindings).

(** [stockTrace] is exactly [events], numbered from one. *)
Definition trace_is (trace : option (list NativeReceiveStockTraceEvent)) (events : list string) : bool :=
  match trace with
  | None => false
  | Some t =>
    bool_decide ((fun e => (trace_sequence e, trace_event e)) <$> t =
                 imap (fun i e => (Z.of_nat i + 1, e)) events)
  end.

(** The members both modes require. *)
Record ProofParts := mkProofParts {
  pf_input : NativeReceiveStockInput;
  pf_proof : NativeReceiveStockClosureProof;
  pf_semantic : list string;
  pf_thin : list string;
  pf_roots : list string;
  pf_ranges : list NativeReceiveStockRange;
  pf_reads : list NativeReceiveStockActivePackRead }.

Definition proof_parts (o : NativeReceiveOperation) (r : NativeReceiveProcessResult)
    : option ProofParts :=
  input ← native_stockReceive o;
  proof ← pr_closureProof r;
  semantic ← pr_semanticExternalOids r;
  thin ← pr_thinDeltaBaseOids r;
  roots ← pr_requiredRootOids r;
  ranges ← pr_ranges r;
  reads ← pr_activePackReads r;
  Some (mkProofParts input proof semantic thin roots ranges reads).

(** The conditions that the two modes share. *)
Definition identity_valid (o : NativeReceiveOperation) (r : NativeReceiveProcessResult)
    (p : ProofParts) : bool :=
  str_eq (pr_operationId r) (native_id o) &&
  ostr_eq (pr_inputRequestSha256 r) (Some (si_inputRequestSha256 (pf_input p))) &&
  truthy_string (pr_planSha256 r) && ostr_eq (pr_planSha256 r) (pr_closureManifestSha256 r) &&
  ostr_eq (Some (cp_planSha256 (pf_proof p))) (pr_planSha256 r) &&
  truthy_string (pr_closureManifestKey r) && truthy_num (pr_closureManifestBytes r) &&
  test_opt SHA256 (pr_closureManifestSha256 r) && truthy_string (pr_closureManifestEtag r) &&
  (str_length (default "" (pr_closureManifestEtag r)) <=? 256).

Definition counts_valid (o : NativeReceiveOperation) (r : NativeReceiveProcessResult)
    (p : ProofParts) : bool :=
  let proof := pf_proof p in
  equalStrings (cp_semanticExternalOids proof) (pf_semantic p) &&
  is_val (pr_visitedIncomingObjectCount r) (cp_visitedIncomingObjectCount proof) &&
  is_val (pr_visitedIncomingObjectCount r) (js_length (cp_incomingOids proof)) &&
  same_num (pr_inputPackObjectCount r) (pr_incomingObjectCount r) &&
  is_val (pr_logicalEdgeCount r) (cp_logicalEdgeCount proof) &&
  is_val (pr_internalEdgeCount r) (cp_internalEdgeCount proof) &&
  is_val (pr_externalEdgeCount r) (cp_externalEdgeCount proof) &&
  (cp_internalEdgeCount proof + cp_externalEdgeCount proof =? cp_logicalEdgeCount proof) &&
  (cp_missingObjectCount proof =? 0) && is_val (pr_missingObjectCount r) 0 &&
  bool_decide (pr_objectTypeCounts r = Some (cp_objectTypeCounts proof)) &&
  (type_total (cp_objectTypeCounts proof) =? cp_visitedIncomingObjectCount proof) &&
  is_val (pr_activePackCount r) (js_length (native_activeCatalog o)) &&
  (js_length (pf_ranges p) <=? MAX_PHYSICAL_NODES) &&
  (js_length (pf_reads p) <=? MAX_ACTIVE_PACK_READS).

Definition direct_identity (o : NativeReceiveOperation) (r : NativeReceiveProcessResult)
    (p : ProofParts) : bool :=
  identity_valid o r p && counts_valid o r p && ostr_eq (pr_resultKind r) (Some "artifacts") &&
  truthy_string (pr_packSha256 r) && truthy_string (pr_idxSha256 r) && truthy_string (pr_refsSha256 r) &&
  is_val (pr_prerequisitePackBytes r) 0 &&
  is_val (pr_outputBytesWritten r) (pr_packBytes r + pr_idxBytes r + pr_refsBytes r) &&
  is_val (pr_outputRequests r) 3 &&
  sortedUnique (cp_incomingOids (pf_proof p)) OID MAX_LOGICAL_OBJECTS &&
  sortedUnique (pf_semantic p) OID MAX_LOGICAL_OBJECTS &&
  sortedUnique (pf_thin p) OID MAX_PHYSICAL_NODES && sortedUnique (pf_roots p) OID MAX_PHYSICAL_NODES &&
  equalStrings (pf_roots p) (pf_thin p) && is_val (pr_incomingObjectCount r) (pr_objectCount r) &&
  same_num (pr_incomingObjectCount r) (pr_visitedIncomingObjectCount r).

(** The reads of the trailers, one per active pack. *)
Definition trailers_valid (o : NativeReceiveOperation)
    (bindings : list NativeReceiveActivePackBinding) (reads : list NativeReceiveStockActivePackRead)
    : bool :=
  let trailerReads := js_filter is_trailer reads in
  js_every readValid reads && (js_length trailerReads =? js_length (native_activeCatalog o)) &&
  equalStrings (sort_strings (rd_packChecksum <$> trailerReads))
    (sort_strings (bi_packChecksum <$> bindings)).

Definition whole_valid (bindings : list NativeReceiveActivePackBinding)
    (read : NativeReceiveStockActivePackRead) : bool :=
  match binding_of bindings (rd_packChecksum read) with
  | Some b => (rd_start read =? 0) && (rd_end read =? bi_packBytes b)
  | None => false
  end.

(** The ranges that were read one by one, not with their whole pack. *)
Definition range_backed (ranges : list NativeReceiveStockRange)
    (reads : list NativeReceiveStockActivePackRead) : list NativeReceiveStockRange :=
  js_filter (fun r => negb (is_in (rg_packChecksum r) (rd_packChecksum <$> js_filter is_whole reads)))
    ranges.

Definition range_reads_valid (ranges : list NativeReceiveStockRange)
    (reads : list NativeReceiveStockActivePackRead) : bool :=
  let rangeReads := js_filter is_required reads in
  (js_length rangeReads =? js_length (range_backed ranges reads)) &&
  js_every (fun q => js_some (fun r => ostr_eq (read_key q) (Some (range_key r)))
                       (range_backed ranges reads)) rangeReads.

Definition direct_accounting (o : NativeReceiveOperation) (r : NativeReceiveProcessResult)
    (bindings : list NativeReceiveActivePackBinding) (p : ProofParts) : bool :=
  let reads := pf_reads p in
  trailers_valid o bindings reads && js_every (whole_valid bindings) (js_filter is_whole reads) &&
  range_reads_valid (pf_ranges p) reads &&
  is_val (pr_activePackTrailerRequests r) (js_length (js_filter is_trailer reads)) &&
  is_val (pr_activePackRangeRequests r) (js_length (js_filter is_required reads)) &&
  is_val (pr_activePackRangeBytes r) (sum_bytes (js_filter is_required reads)) &&
  is_val (pr_activePackWholeRequests r) (js_length (js_filter is_whole reads)) &&
  is_val (pr_activePackWholeBytes r) (sum_bytes (js_filter is_whole reads)) &&
  is_val (pr_activePackUnattributedBytes r) 0 && is_val (pr_activePackUnattributedRequests r) 0.

(** No root of a thin delta is semantically external as well. *)
Definition overlap (p : ProofParts) : bool := js_some (fun oid => is_in oid (pf_semantic p)) (pf_thin p).

Section PreparedProof.
Context `{Env}.

(** The result is the reason of the failure, [None] for a valid proof. *)
Definition directPackPreparedProofFailure (o : NativeReceiveOperation)
    (r : NativeReceiveProcessResult) : res (option string) :=
  match proof_parts o r with
  | None => Ok (Some "direct-identity-or-counts")
  | Some p =>
    if negb (direct_identity o r p) then Ok (Some "direct-identity-or-counts") else
    match activeMetadataBundleValid o r with
    | Err e => Err e
    | Ok false => Ok (Some "direct-metadata-bundle")
    | Ok true => Ok (
        if negb (physicalPlanValid o r (pf_roots p) (pf_ranges p) (pf_reads p))
        then Some "direct-physical-plan"
        else if overlap p then Some "direct-root-overlap"
        else if negb (direct_accounting o r (default [] (pr_activePackBindings r)) p)
        then Some "direct-read-accounting"
        else if trace_is (pr_stockTrace r)
                  ["worker_direct_closure_validated"; "worker_direct_artifacts_published"]
        then None else Some "direct-trace")%string
    end
  end.

Definition ref_only (r : NativeReceiveProcessResult) : bool := ostr_eq (pr_resultKind r) (Some "ref-only").

(** [outputCountsValid]; it reads the length of [thinDeltaBaseOids] before the
    presence of that member has been tested, which throws. *)
Definition output_counts (r : NativeReceiveProcessResult) : res bool :=
  if ref_only r then Ok (
    (pr_objectCount r =? 0) && is_val (pr_visitedIncomingObjectCount r) 0 &&
    match pr_closureProof r with Some p => js_length (cp_incomingOids p) =? 0 | None => false end)
  else match pr_thinDeltaBaseOids r with
  | None => Err (Throw "TypeError")
  | Some thin => Ok (
      match pr_visitedIncomingObjectCount r with
      | Some n => pr_objectCount r =? n + js_length thin
      | None => false
      end)
  end.

Definition container_identity (o : NativeReceiveOperation) (r : NativeReceiveProcessResult)
    (prerequisiteOids : list string) (p : ProofParts) : bool :=
  identity_valid o r p && counts_valid o r p &&
  truthy_string (pr_prerequisitePackKey r) && truthy_num (pr_prerequisitePackBytes r) &&
  test_opt SHA256 (pr_prerequisitePackSha256 r) && truthy_string (pr_prerequisitePackEtag r) &&
  (str_length (default "" (pr_prerequisitePackEtag r)) <=? 256) &&
  bool_decide (pr_quarantinePathInsideOwnedWorkRoot r = Some true) &&
  bool_decide (pr_quarantineRemovedAfterReceive r = Some true) &&
  bool_decide (pr_quarantinePathNonEmpty r = Some true) &&
  bool_decide (pr_freshWorkDirectory r = Some true) &&
  is_val (pr_repositoryPackBytesBeforeHydration r) 0 &&
  bool_decide (pr_sharedObjectCacheDisabled r = Some true) &&
  bool_decide (pr_skipConnectivityCheck r = Some false) &&
  sortedUnique (cp_incomingOids (pf_proof p)) OID MAX_LOGICAL_OBJECTS &&
  sortedUnique (pf_semantic p) OID MAX_LOGICAL_OBJECTS &&
  sortedUnique (pf_thin p) OID MAX_PHYSICAL_NODES && sortedUnique (pf_roots p) OID MAX_LOGICAL_OBJECTS &&
  sortedUnique prerequisiteOids OID MAX_LOGICAL_OBJECTS && equalStrings prerequisiteOids (pf_roots p) &&
  match pr_incomingObjectCount r with
  | Some n => cp_visitedIncomingObjectCount (pf_proof p) <=? n
  | None => true
  end &&
  (cp_logicalEdgeCount (pf_proof p) <=? MAX_LOGICAL_EDGES).

Definition commandOldOids (o : NativeReceiveOperation) : list string :=
  js_filter (fun oid => negb (str_eq oid zeroOid)) ((fun c => toLowerCase (oldOid c)) <$> native_commands o).

Definition root_union (o : NativeReceiveOperation) (p : ProofParts) : list string :=
  sort_strings (js_unique (pf_semantic p ++ pf_thin p ++ commandOldOids o)).

Definition container_accounting (o : NativeReceiveOperation) (r : NativeReceiveProcessResult)
    (bindings : list NativeReceiveActivePackBinding) (selected : list string) (p : ProofParts) : bool :=
  let reads := pf_reads p in
  let trailerReads := js_filter is_trailer reads in
  let rangeReads := js_filter is_required reads in
  let wholeReads := js_filter is_whole reads in
  let backed := range_backed (pf_ranges p) reads in
  trailers_valid o bindings reads &&
  (length (js_unique (rd_packChecksum <$> wholeReads)) =? length wholeReads)%nat &&
  js_every (fun q => is_in (rd_packChecksum q) selected && whole_valid bindings q) wholeReads &&
  range_reads_valid (pf_ranges p) reads &&
  is_val (pr_rangeBytes r) (sum_ranges backed) && is_val (pr_rangeRequests r) (js_length backed) &&
  is_val (pr_packsTouched r) (js_length selected) &&
  is_val (pr_activePackTrailerRequests r) (js_length trailerReads) &&
  is_val (pr_activePackTrailerBytes r) (js_length trailerReads * 20) &&
  is_val (pr_activePackRangeRequests r) (js_length rangeReads) &&
  same_num (pr_activePackRangeRequests r) (pr_rangeRequests r) &&
  same_num (pr_activePackRangeBytes r) (pr_rangeBytes r) &&
  is_val (pr_activePackWholeBytes r) (sum_bytes wholeReads) &&
  is_val (pr_activePackWholeRequests r) (js_length wholeReads) &&
  is_val (pr_activePackUnattributedBytes r) 0 && is_val (pr_activePackUnattributedRequests r) 0.

Definition container_trace : list string :=
  ["receive_pack_invoked"; "pre_receive_started"; "pre_receive_quarantine_nonempty";
   "logical_closure_started_ref_still_old"; "incoming_oid_visible_in_quarantine";
   "logical_closure_completed"; "pre_receive_succeeded"; "disposable_ref_update_observed"].

Definition containerProofFailure (o : NativeReceiveOperation) (r : NativeReceiveProcessResult)
    : res (option string) :=
  match output_counts r with
  | Err e => Err e
  | Ok outputCountsValid =>
    match proof_parts o r, pr_prerequisiteObjectOids r with
    | Some p, Some prerequisiteOids =>
      if negb (outputCountsValid && container_identity o r prerequisiteOids p)
      then Ok (Some "identity-or-counts") else
      match activeMetadataBundleValid o r with
      | Err e => Err e
      | Ok false => Ok (Some "metadata-bundle")
      | Ok true => Ok (
          if overlap p then Some "root-overlap"
          else if negb (equalStrings (root_union o p) (pf_roots p)) then Some "root-union"
          else if negb (physicalPlanValid o r (pf_roots p) (pf_ranges p) (pf_reads p))
          then Some "physical-plan"
          else if negb (container_accounting o r (default [] (pr_activePackBindings r))
                          (default [] (pr_selectedPackChecksums r)) p)
          then Some "read-accounting"
          else if trace_is (pr_stockTrace r) container_trace then None else Some "trace")%string
      end
    | _, _ => Ok (Some "identity-or-counts")
    end
  end.

Definition stockReceivePreparedProofFailure (o : NativeReceiveOperation)
    (r : NativeReceiveProcessResult) : res (option string) :=
  if ostr_eq (pr_executionMode r) (Some "direct-pack") then directPackPreparedProofFailure o r
  else containerProofFailure o r.

Definition validateStockReceivePreparedProof (o : NativeReceiveOperation)
    (r : NativeReceiveProcessResult) : res bool :=
  match stockReceivePreparedProofFailure o r with
  | Ok failure => Ok (bool_decide (failure = None))
  | Err e => Err e
  end.
End PreparedProof.

(** *** What a valid plan guarantees *)

(** [base] holds the bytes [n] is a delta of. *)
Definition based (nodes : list StockPhysicalNode) (n base : StockPhysicalNode) : Prop :=
  base ∈ nodes /\ pn_baseEntryId n = Some (pn_entryId base).

(** [n] can be rebuilt from entries of the plan through [k] deltas. *)
Inductive rebuilt (nodes : list StockPhysicalNode) : nat -> StockPhysicalNode -> Prop :=
  | rebuilt_full n : n ∈ nodes -> pn_encoding n = "full"%string -> rebuilt nodes 0 n
  | rebuilt_delta n base k :
      n ∈ nodes -> based nodes n base -> pn_baseOid n = Some (pn_oid base) ->
      rebuilt nodes k base -> rebuilt nodes (S k) n.

(** A range asks for the bytes of a node. *)
Record range_names (r : NativeReceiveStockRange) (n : StockPhysicalNode) : Prop := {
  rn_entry : rg_entryId r = Some (pn_entryId n);
  rn_pack : rg_packChecksum r = pn_packChecksum n;
  rn_start : rg_start r = pn_offset n;
  rn_end : rg_end r = pn_end n;
  rn_oid : rg_requiredOid r = pn_oid n }.

Record plan_sound (p : PhysicalParts) (catalog : list PackCatalogRow) (roots : list string)
    (ranges : list NativeReceiveStockRange) : Prop := {
  so_topology : ph_topology p ≡ₚ pn_entryId <$> ph_nodes p /\ NoDup (ph_topology p);
  so_ranges : forall i r, ranges !! i = Some r ->
    exists n, n ∈ ph_nodes p /\ range_names r n /\ ph_topology p !! i = Some (pn_entryId n);
  so_place : forall n, n ∈ ph_nodes p -> exists row b,
    row ∈ catalog /\ b ∈ ph_bindings p /\ bi_packKey b = packKey row /\
    bi_packChecksum b = pn_packChecksum n /\ bi_idxSha256 b = pn_idxSha256 n /\
    0 <= pn_offset n < pn_end n /\ pn_end n <= packBytes row - 20;
  so_base : forall n, n ∈ ph_nodes p -> pn_encoding n <> "full"%string -> exists base,
    based (ph_nodes p) n base /\ pn_baseOid n = Some (pn_oid base) /\
    (pn_encoding n = "ofs-delta"%string ->
     pn_packChecksum base = pn_packChecksum n /\ pn_offset base < pn_offset n);
  so_first : forall n base i j, n ∈ ph_nodes p -> based (ph_nodes p) n base ->
    ph_topology p !! i = Some (pn_entryId base) -> ph_topology p !! j = Some (pn_entryId n) ->
    (i < j)%nat;
  so_roots : forall root, root ∈ roots -> exists n k,
    pn_oid n = root /\ (forall m, m ∈ ph_nodes p -> pn_oid m = root -> m = n) /\
    rebuilt (ph_nodes p) k n /\ Z.of_nat k <= MAX_DEPENDENCY_DEPTH;
  so_served : forall n root, n ∈ ph_nodes p ->
    root ∈ pn_semanticRootOids n <->
    root ∈ roots /\ exists m, m ∈ ph_nodes p /\ pn_oid m = root /\ rtc (based (ph_nodes p)) m n }.

(** ** Lemmas *)

Lemma index_by_spec {A} (key : A -> string) ok m l m' :
  index_by key ok m l = Some m' ->
  NoDup (key <$> l) /\ (forall x, x ∈ l -> ok x = true) /\ (forall x, x ∈ l -> m !! key x = None) /\
  (forall k x, m' !! k = Some x <-> m !! k = Some x \/ (x ∈ l /\ key x = k)).
Proof.
  revert m. induction l as [|x l IH]; intros m; simpl.
  - intros [= ->]. split_and!; try (by intros ? ?%elem_of_nil); [constructor|].
    intros k y. split; [auto|]. intros [?|[?%elem_of_nil _]]; done.
  - destruct (ok x) eqn:Hok; simpl; [|done]. case_bool_decide as Hm; [done|].
    rewrite <- eq_None_not_Some in Hm. intros (Hnd & Hall & Hnone & Hget)%IH. split_and!.
    + csimpl. constructor; [|done]. intros (y & Ey & Hy)%list_elem_of_fmap.
      pose proof (Hnone y Hy) as Hn. by rewrite <- Ey, lookup_insert_eq in Hn.
    + intros y [->|Hy]%elem_of_cons; auto.
    + intros y [->|Hy]%elem_of_cons; [done|]. pose proof (Hnone y Hy) as Hn.
      by apply lookup_insert_None in Hn as [? _].
    + intros k y. rewrite Hget, elem_of_cons. destruct (decide (key x = k)) as [<-|Hne].
      * rewrite lookup_insert_eq. split.
        -- intros [[= <-]|[Hy E]]; [auto|]. pose proof (Hnone y Hy) as Hn.
           by rewrite E, lookup_insert_eq in Hn.
        -- intros [E|[[->|Hy] E]]; [congruence | auto | auto].
      * rewrite lookup_insert_ne by done. split; [naive_solver|].
        intros [?|[[->|Hy] E]]; [auto | congruence | auto].
Qed.

(** From the empty map: the values by their keys. *)
Lemma index_by_empty {A} (key : A -> string) ok l m :
  index_by key ok ∅ l = Some m ->
  NoDup (key <$> l) /\ (forall x, x ∈ l -> ok x = true) /\
  (forall k x, m !! k = Some x <-> x ∈ l /\ key x = k).
Proof.
  intros (H1 & H2 & _ & H3)%index_by_spec. split_and!; [done | done |].
  intros k x. rewrite H3, lookup_empty. naive_solver.
Qed.

Lemma NoDup_fmap_eq {A B} (f : A -> B) (l : list A) x y :
  NoDup (f <$> l) -> x ∈ l -> y ∈ l -> f x = f y -> x = y.
Proof.
  intros Hnd Hx Hy E. apply list_elem_of_lookup in Hx as [i Hi], Hy as [j Hj].
  assert (i = j) as ->.
  { eapply NoDup_lookup; [exact Hnd | by rewrite list_lookup_fmap, Hi | by rewrite list_lookup_fmap, Hj, E]. }
  congruence.
Qed.

Lemma catalog_by_key_elem rows key row :
  catalog_by_key rows !! key = Some row -> row ∈ rows /\ packKey row = key.
Proof.
  unfold catalog_by_key. induction rows as [|x rows IH] using rev_ind; [done|].
  rewrite foldl_app. simpl. rewrite elem_of_app, list_elem_of_singleton.
  destruct (decide (packKey x = key)) as [<-|Hne].
  - rewrite lookup_insert_eq. intros [= ->]. auto.
  - rewrite lookup_insert_ne by done. intros [? ?]%IH. auto.
Qed.

Lemma index_bindings_elem (catalog : gmap string PackCatalogRow) keys (m : gmap string NativeReceiveActivePackBinding)
    l keys' m' (P : string -> NativeReceiveActivePackBinding -> Prop) :
  index_bindings catalog keys m l = Some (keys', m') ->
  (forall c b, m !! c = Some b -> P c b) ->
  (forall b row, b ∈ l -> catalog !! bi_packKey b = Some row -> packBytes row = bi_packBytes b ->
     P (bi_packChecksum b) b) ->
  forall c b, m' !! c = Some b -> P c b.
Proof.
  revert keys m. induction l as [|x l IH]; intros keys m; simpl; [by intros [= <- <-]|].
  case_match eqn:E; [done|]. to_prop. intros Hl Hm Hx.
  eapply IH; [exact Hl | | intros; eapply Hx; eauto; by apply elem_of_cons; right].
  intros c b. destruct (decide (bi_packChecksum x = c)) as [<-|Hne].
  - rewrite lookup_insert_eq. intros [= <-].
    destruct (m !! bi_packChecksum x) as [e|] eqn:Em; simpl; [by apply Hm|].
    destruct (catalog !! bi_packKey x) as [row|] eqn:Er; [|done]. to_prop.
    eapply Hx; [by apply elem_of_cons; left | done | done].
  - rewrite lookup_insert_ne by done. apply Hm.
Qed.

Section Forest.
Context (nodes : list StockPhysicalNode) (edges : list StockPhysicalDependencyEdge).
Context (byId : gmap string StockPhysicalNode) (byDependent : gmap string StockPhysicalDependencyEdge).
Hypothesis Hids : NoDup (pn_entryId <$> nodes).
Hypothesis HbyId : forall k n, byId !! k = Some n <-> n ∈ nodes /\ pn_entryId n = k.
Hypothesis Hdeps : NoDup (ed_dependentEntryId <$> edges).
Hypothesis HbyDep : forall k e, byDependent !! k = Some e <-> e ∈ edges /\ ed_dependentEntryId e = k.
Hypothesis Hedges : forall e, e ∈ edges -> edge_valid byId e = true.
Hypothesis Hencoded : forall n, n ∈ nodes -> encoding_valid byId byDependent n = true.

Lemma node_edge n : n ∈ nodes ->
  (pn_encoding n = "full"%string /\ byDependent !! pn_entryId n = None /\ pn_baseEntryId n = None) \/
  (pn_encoding n <> "full"%string /\ exists e base, byDependent !! pn_entryId n = Some e /\
     pn_entryId base = ed_baseEntryId e /\ based nodes n base /\ pn_baseOid n = Some (pn_oid base) /\
     (pn_encoding n = "ofs-delta"%string ->
      pn_packChecksum base = pn_packChecksum n /\ pn_offset base < pn_offset n)).
Proof.
  intros Hn. pose proof (Hencoded n Hn) as H. unfold encoding_valid in H.
  destruct (str_eq (pn_encoding n) "full") eqn:Ef; to_prop; [by left; crush_hyps|]. right. split; [done|].
  destruct (byDependent !! pn_entryId n) as [e|]; [|done]. to_prop.
  match goal with H : match _ with _ => _ end = true |- _ => rename H into H2 end.
  destruct (byId !! ed_baseEntryId e) as [base|] eqn:Eb; [|done].
  apply HbyId in Eb as [Hb Eb]. exists e, base.
  assert (based nodes n base) by (split; [done | congruence]).
  destruct (bool_decide (pn_encoding n = "ofs-delta"%string)) eqn:Eo; to_prop; crush_hyps; to_prop; split_and!; try assumption; try congruence;
    intros ?; first [congruence | split; [congruence | assumption]].
Qed.

Lemma based_edge n base : n ∈ nodes -> based nodes n base ->
  exists e, byDependent !! pn_entryId n = Some e /\ ed_baseEntryId e = pn_entryId base.
Proof.
  intros Hn [Hb E]. destruct (node_edge n Hn) as [(_ & _ & ?)|(_ & e & b & He & Eb & [Hb2 E2] & _)]; [congruence|].
  exists e. split; [done|]. congruence.
Qed.

Lemma edge_based n e : n ∈ nodes -> byDependent !! pn_entryId n = Some e ->
  exists base, based nodes n base /\ pn_entryId base = ed_baseEntryId e.
Proof.
  intros Hn He. destruct (node_edge n Hn) as [(_ & ? & _)|(_ & e' & b & He' & Eb & Hb & _)]; [congruence|].
  exists b. split; [done | congruence].
Qed.

Lemma based_unique n b1 b2 : based nodes n b1 -> based nodes n b2 -> b1 = b2.
Proof. intros [H1 E1] [H2 E2]. eapply NoDup_fmap_eq; [exact Hids | done | done | congruence]. Qed.

(** The chain of an entry lists what its node is based on. *)
Lemma chain_based fuel n l : n ∈ nodes -> chain byDependent fuel (pn_entryId n) = Some l ->
  forall m, m ∈ nodes -> pn_entryId m ∈ l <-> rtc (based nodes) n m.
Proof.
  revert n l. induction fuel as [|fuel IH]; intros n l Hn; simpl; [done|].
  destruct (byDependent !! pn_entryId n) as [e|] eqn:Ee; intros Hl m Hm.
  - destruct (edge_based n e Hn Ee) as (base & Hb & Eb). rewrite <- Eb in Hl.
    destruct (chain byDependent fuel (pn_entryId base)) as [l'|] eqn:El; [|done].
    injection Hl as <-. rewrite elem_of_cons, (IH base l' (proj1 Hb) El m Hm). split.
    + intros [E|?]; [|by eapply rtc_l].
      assert (m = n) as -> by (eapply NoDup_fmap_eq; eauto). apply rtc_refl.
    + intros [->|(b & Hb2 & Hr)]%rtc_inv; [auto|]. right. by rewrite (based_unique _ _ _ Hb Hb2).
  - injection Hl as <-. rewrite list_elem_of_singleton. split.
    + intros E. assert (m = n) as -> by (eapply NoDup_fmap_eq; eauto). apply rtc_refl.
    + intros [->|(b & Hb & Hr)]%rtc_inv; [done|]. destruct (based_edge n b Hn Hb) as (e & ? & _). congruence.
Qed.

(** *** The order *)

Context (topology : list string) (index : gmap string (string * nat)).
Hypothesis Htopo : index_topology byId topology = Some index.
Hypothesis Hlen : length topology = length nodes.
Hypothesis Hfirst : forall e, e ∈ edges -> base_first index e = true.

Lemma index_spec id i : topology !! i = Some id <-> index !! id = Some (id, i).
Proof.
  apply index_by_empty in Htopo as (_ & _ & Hget). rewrite (Hget id (id, i)). split.
  - intros Hi. split; [|done]. apply list_elem_of_lookup. exists i. by rewrite list_lookup_imap, Hi.
  - intros [[j Hj]%list_elem_of_lookup _]. rewrite list_lookup_imap in Hj.
    destruct (topology !! j) eqn:E; simpl in Hj; [|done]. by injection Hj as <- <-.
Qed.

Lemma topology_NoDup : NoDup topology.
Proof.
  apply NoDup_alt. intros i j id Hi%index_spec Hj%index_spec. congruence.
Qed.

Lemma topology_nodes : topology ≡ₚ pn_entryId <$> nodes.
Proof.
  apply submseteq_length_Permutation; [|rewrite length_fmap; lia].
  apply NoDup_submseteq; [exact topology_NoDup|]. intros id [i Hi]%list_elem_of_lookup.
  apply index_by_empty in Htopo as (_ & Hok & _).
  assert ((id, i) ∈ imap (fun i id => (id, i)) topology) as Hin
    by (apply list_elem_of_lookup; exists i; by rewrite list_lookup_imap, Hi).
  apply Hok, bool_decide_eq_true_1 in Hin as [n [Hn Ei]%HbyId]. simpl in Ei. subst id.
  by apply list_elem_of_fmap_2.
Qed.

Lemma node_position n : n ∈ nodes -> exists i, topology !! i = Some (pn_entryId n).
Proof.
  intros Hn. apply list_elem_of_lookup. rewrite topology_nodes. by apply list_elem_of_fmap_2.
Qed.

Lemma base_position n base i j :
  n ∈ nodes -> based nodes n base -> topology !! i = Some (pn_entryId base) ->
  topology !! j = Some (pn_entryId n) -> (i < j)%nat.
Proof.
  intros Hn Hb Hi%index_spec Hj%index_spec. destruct (based_edge n base Hn Hb) as (e & [He Ed]%HbyDep & Eb).
  pose proof (Hfirst e He) as H. unfold base_first in H. rewrite Eb, Ed, Hi, Hj in H.
  by apply Nat.ltb_lt in H.
Qed.

Lemma rebuilt_within n i : n ∈ nodes -> topology !! i = Some (pn_entryId n) ->
  exists k, rebuilt nodes k n /\ (k <= i)%nat.
Proof.
  revert n. induction i as [i IH] using lt_wf_ind. intros n Hn Hi.
  destruct (node_edge n Hn) as [(Hf & _)|(_ & e & base & _ & _ & Hb & Ho & _)].
  - exists 0%nat. split; [by constructor | lia].
  - destruct (node_position base (proj1 Hb)) as [j Hj]. pose proof (base_position n base j i Hn Hb Hj Hi).
    destruct (IH j ltac:(lia) base (proj1 Hb) Hj) as (k & Hk & ?).
    exists (S k). split; [by eapply rebuilt_delta | lia].
Qed.

(** *** The canonical order is always found: its loop does not run out of fuel *)

Definition edges_from (emitted : list string) : list StockPhysicalDependencyEdge :=
  js_filter (fun e => negb (is_in (ed_baseEntryId e) emitted)) edges.

Lemma edges_from_split id emitted : id ∉ emitted ->
  ed_dependentEntryId <$> edges_from emitted ≡ₚ
  children byId edges id ++ (ed_dependentEntryId <$> edges_from (id :: emitted)).
Proof.
  intros Hid. unfold children. rewrite js_sort_perm. unfold edges_from.
  clear - Hid. induction edges as [|e l IH]; simpl; [done|].
  destruct (str_eq (ed_baseEntryId e) id) eqn:E; simpl.
  - assert (is_in (ed_baseEntryId e) emitted = false) as ->.
    { to_prop. rewrite E. apply js_some_false. intros x Hx. unfold str_eq.
      apply bool_decide_eq_false_2. naive_solver. }
    csimpl. by f_equiv.
  - destruct (is_in (ed_baseEntryId e) emitted); csimpl; [done|].
    rewrite IH. apply Permutation_middle.
Qed.

Lemma topology_loop_total fuel emitted ready :
  NoDup (emitted ++ ready ++ (ed_dependentEntryId <$> edges_from emitted)) ->
  (length ready + length (edges_from emitted) <= fuel)%nat ->
  is_Some (topology_loop byId fuel edges ready).
Proof.
  revert emitted ready. induction fuel as [|fuel IH]; intros emitted [|id r] Hnd Hf; simpl in *; try done; [lia|].
  assert (id ∉ emitted) as Hid by (apply NoDup_app in Hnd as (_ & H & _); intros ?; by eapply H; [|left]).
  pose proof (edges_from_split id emitted Hid) as Hsplit.
  destruct (IH (id :: emitted) (js_sort (id_before byId) (r ++ children byId edges id))) as [l ->]; [| |by eexists].
  - rewrite Hsplit in Hnd. rewrite js_sort_perm, <- (assoc_L (++)).
    simpl. by rewrite Permutation_middle.
  - rewrite js_sort_length, length_app. apply Permutation_length in Hsplit.
    rewrite length_app, !length_fmap in Hsplit. lia.
Qed.
Lemma edges_from_nil : edges_from [] = edges.
Proof. unfold edges_from. clear. induction edges as [|e l IH]; simpl; [done|]. f_equal. exact IH. Qed.

Lemma canonical_total : is_Some (canonical_topology byId byDependent nodes edges).
Proof.
  assert (NoDup (ready_entries byId byDependent nodes ++ (ed_dependentEntryId <$> edges))) as Hnd.
  { unfold ready_entries. rewrite js_sort_perm. apply NoDup_app. split_and!; [|intros id H1 H2|done].
    - by apply NoDup_fmap_js_filter.
    - apply list_elem_of_fmap in H1 as (n & -> & [Hn Hf]%elem_of_js_filter), H2 as (e & Ee & He).
      apply bool_decide_eq_true_1 in Hf. assert (byDependent !! pn_entryId n = Some e) by (by apply HbyDep).
      congruence. }
  apply (topology_loop_total _ []); simpl; rewrite edges_from_nil; [done|].
  rewrite <- (length_fmap ed_dependentEntryId edges), <- length_app, <- (length_fmap pn_entryId nodes).
  apply submseteq_length, NoDup_submseteq; [done|]. intros id [H1|H1]%elem_of_app.
  - unfold ready_entries in H1. rewrite js_sort_perm in H1.
    apply list_elem_of_fmap in H1 as (n & -> & [Hn _]%elem_of_js_filter). by apply list_elem_of_fmap_2.
  - apply list_elem_of_fmap in H1 as (e & -> & He). apply Hedges in He. unfold edge_valid in He. to_prop.
    match goal with H : is_Some (byId !! ed_dependentEntryId e) |- _ => destruct H as [n [Hn <-]%HbyId] end.
    by apply list_elem_of_fmap_2.
Qed.
End Forest.

Lemma index_nodes_spec `{Env} roots nodes byId : index_nodes roots nodes = Some byId ->
  NoDup (pn_entryId <$> nodes) /\ (forall n, n ∈ nodes -> nodeShapeValid n roots = true) /\
  (forall k n, byId !! k = Some n <-> n ∈ nodes /\ pn_entryId n = k).
Proof.
  intros (H1 & H2 & H3)%index_by_empty. split_and!; [done | | done].
  intros n Hn%H2. unfold node_valid in Hn. by apply andb_true_iff in Hn as [? _].
Qed.

(** The one node of a root, and where the chain goes. *)
Lemma root_chain_node nodes byDependent root l :
  root_chain byDependent nodes root = Some l ->
  exists n, n ∈ nodes /\ pn_oid n = root /\ (forall m, m ∈ nodes -> pn_oid m = root -> m = n) /\
    chain byDependent (length nodes) (pn_entryId n) = Some l.
Proof.
  unfold root_chain. destruct (js_filter _ nodes) as [|n [|]] eqn:E; try done. intros Hl.
  assert (forall m, m ∈ nodes /\ pn_oid m = root <-> m = n) as Hm.
  { intros m. transitivity (m ∈ [n]); [|apply list_elem_of_singleton].
    rewrite <- E, elem_of_js_filter. unfold str_eq. by rewrite bool_decide_eq_true. }
  exists n. destruct (proj2 (Hm n) eq_refl). split_and!; [done | done | | done].
  intros m ? ?. by apply Hm.
Qed.

Lemma elem_of_js_unique l x : x ∈ js_unique l <-> x ∈ l.
Proof.
  unfold js_unique. induction l as [|y l IH] using rev_ind; [done|].
  rewrite foldl_app. simpl. rewrite elem_of_app, list_elem_of_singleton, <- IH.
  destruct (js_some _ _) eqn:E.
  - apply js_some_true in E as (z & Hz & Ez). to_prop. subst z. naive_solver.
  - unfold js_push. rewrite elem_of_app, list_elem_of_singleton. done.
Qed.

Lemma elem_of_expected chains id root :
  root ∈ expected_roots chains id <-> exists l, (root, l) ∈ chains /\ id ∈ l.
Proof.
  unfold expected_roots, sort_strings. rewrite elem_of_js_sort, elem_of_js_unique.
  unfold is_in. rewrite list_elem_of_fmap. split.
  - intros ([r l] & -> & [Hc Hl]%elem_of_js_filter). exists l. split; [done|].
    apply js_some_true in Hl as (x & Hx & E). to_prop. by subst.
  - intros (l & Hc & Hl). exists (root, l). split; [done|]. apply elem_of_js_filter.
    split; [done|]. apply js_some_true. exists id. split; [done|]. by apply bool_decide_eq_true_2.
Qed.

Lemma mapM_chains (f : string -> option (list string)) roots chains :
  mapM (fun root => pair root <$> f root) roots = Some chains ->
  (forall root l, (root, l) ∈ chains <-> root ∈ roots /\ f root = Some l) /\
  (forall root, root ∈ roots -> is_Some (f root)).
Proof.
  intros Hm%mapM_Some_1.
  assert (forall root, root ∈ roots -> exists l, f root = Some l /\ (root, l) ∈ chains) as Hto.
  { intros root [i Hi]%list_elem_of_lookup. eapply Forall2_lookup_l in Hm as ([r l] & Hl & E); [|exact Hi].
    destruct (f root) as [l'|]; [|done]. injection E as <- <-. eexists. split; [done|].
    by eapply list_elem_of_lookup_2. }
  split; [|intros root (l & ? & _)%Hto; eauto]. intros root l. split.
  - intros [i Hi]%list_elem_of_lookup. eapply Forall2_lookup_r in Hm as (root' & Hr & E); [|exact Hi].
    destruct (f root') as [l'|] eqn:Ef; [|done]. injection E as -> ->.
    split; [by eapply list_elem_of_lookup_2 | done].
  - intros [Hr E]. destruct (Hto root Hr) as (l' & E' & Hl). congruence.
Qed.

Lemma roots_served nodes byId byDependent p roots n root :
  NoDup (pn_entryId <$> nodes) -> (forall k n, byId !! k = Some n <-> n ∈ nodes /\ pn_entryId n = k) ->
  (forall n, n ∈ nodes -> encoding_valid byId byDependent n = true) ->
  ph_nodes p = nodes -> roots_valid p roots byDependent = true -> n ∈ nodes ->
  root ∈ pn_semanticRootOids n <->
  root ∈ roots /\ exists m, m ∈ nodes /\ pn_oid m = root /\ rtc (based nodes) m n.
Proof.
  intros Hids HbyId Henc <- Hr Hn. unfold roots_valid in Hr.
  destruct (mapM _ roots) as [chains|] eqn:Em; [|done].
  apply mapM_chains in Em as [Hin Hall].
  rewrite js_every_true in Hr. specialize (Hr n Hn). unfold equalStrings in Hr.
  apply bool_decide_eq_true_1 in Hr. rewrite <- Hr, elem_of_expected. split.
  - intros (l & [Hroot Hl]%Hin & Hnl). split; [done|].
    destruct (root_chain_node _ _ _ _ Hl) as (m & Hm & Em & _ & Hc). exists m. split_and!; [done | done |].
    by apply (chain_based _ _ _ Hids HbyId Henc _ _ _ Hm Hc).
  - intros (Hroot & m & Hm & Em & Hmn). destruct (Hall root Hroot) as [l Hl]. exists l.
    split; [by apply Hin|]. destruct (root_chain_node _ _ _ _ Hl) as (m' & Hm' & _ & Hu & Hc).
    rewrite <- (Hu m Hm Em) in Hc. by apply (chain_based _ _ _ Hids HbyId Henc _ _ _ Hm Hc).
Qed.

Lemma ranges_named p ranges reads i r :
  NoDup (pn_entryId <$> ph_nodes p) -> ph_topology p ≡ₚ pn_entryId <$> ph_nodes p ->
  ranges_valid p ranges reads = true -> ranges !! i = Some r ->
  exists n, n ∈ ph_nodes p /\ range_names r n /\ ph_topology p !! i = Some (pn_entryId n).
Proof.
  intros Hids Hperm Hr Hi. unfold ranges_valid in Hr. apply andb_true_iff in Hr as [_ Hr].
  destruct (index_ranges ranges) as [byEntry|] eqn:Er; [|done].
  apply index_by_empty in Er as (_ & _ & Hget). apply andb_true_iff in Hr as [Hnodes Hcover].
  unfold reads_cover in Hcover. apply andb_true_iff in Hcover as [[Hf _]%andb_true_iff _].
  apply bool_decide_eq_true_1 in Hf. eapply Forall2_lookup_l in Hf as (id & Hid & Eid); [|exact Hi].
  assert (id ∈ pn_entryId <$> ph_nodes p) as (n & -> & Hn)%list_elem_of_fmap
    by (rewrite <- Hperm; by eapply list_elem_of_lookup_2).
  exists n. split_and!; [done | | done]. rewrite js_every_true in Hnodes. specialize (Hnodes n Hn).
  unfold range_of_node in Hnodes.
  assert (byEntry !! pn_entryId n = Some r) as E by (apply Hget; rewrite Eid; split; [by eapply list_elem_of_lookup_2 | done]).
  rewrite E in Hnodes. to_prop. by split.
Qed.

Lemma node_placed p catalog roots n :
  packs_valid p catalog = true -> n ∈ ph_nodes p -> nodeShapeValid n roots = true ->
  exists row b, row ∈ catalog /\ b ∈ ph_bindings p /\ bi_packKey b = packKey row /\
    bi_packChecksum b = pn_packChecksum n /\ bi_idxSha256 b = pn_idxSha256 n /\
    0 <= pn_offset n < pn_end n /\ pn_end n <= packBytes row - 20.
Proof.
  intros Hp Hn Hs. unfold packs_valid in Hp.
  destruct (index_bindings _ _ _ _) as [[keys byChecksum]|] eqn:Eb; [|done]. to_prop. crush_hyps.
  assert (forall c b, byChecksum !! c = Some b -> bi_packChecksum b = c /\ b ∈ ph_bindings p /\
    exists row, row ∈ catalog /\ packKey row = bi_packKey b /\ packBytes row = bi_packBytes b) as Hb.
  { eapply index_bindings_elem; [exact Eb | by intros ? ?; rewrite lookup_empty |].
    intros b row Hb [Hrow Ek]%catalog_by_key_elem E. split_and!; [done | done |]. by exists row. }
  match goal with H : js_every (node_in_pack _) _ = true |- _ => rewrite js_every_true in H; specialize (H n Hn) end.
  unfold node_in_pack in *. destruct (byChecksum !! pn_packChecksum n) as [b|] eqn:Ec; [|done].
  destruct (Hb _ _ Ec) as (E1 & E2 & row & Hrow & E3 & E4). exists row, b. to_prop.
  unfold nodeShapeValid in Hs. to_prop. split_and!; try done; lia.
Qed.


(** A digest of 32 bytes for examples: a polynomial of the bytes. *)
Definition toy_digest (l : list Z) : string :=
  let h := foldl (fun h b => (257 * h + b + 1) mod 2 ^ 256) 7 l in
  bytesToHex ((fun i => h / 2 ^ (8 * Z.of_nat i) mod 256) <$> seq 0 32).

Definition toy_env : Env := {|
  do_id := "repo"; env_now n := 1000 * Z.of_nat n;
  env_uuid n := unchars (replicate (36 - String.length (pretty n)) "0"%char) +:+ pretty n;
  env_fault _ := None; env_interleave _ s := s; env_r2_get _ _ := Some None; env_r2_delete _ _ := true;
  env_queue_send _ := true; env_sha256_hex := toy_digest; env_idleMs := 1800000;
  env_snapshotEventProbe := false; env_qualificationMode := false |}.

Definition demo_oid (c : ascii) : string := unchars (replicate 40 c).
Definition demo_sha (c : ascii) : string := unchars (replicate 64 c).

(** An offset delta (object b) on a full entry (object a) of one pack. *)
Definition demo_id (offset end_ : Z) (oid : string) : string :=
  stockPhysicalEntryId (H := toy_env) (demo_oid "1"%char) (demo_sha "2"%char) (demo_sha "3"%char) offset end_ oid.

Definition demo_node (offset end_ : Z) (oid encoding : string) (base : option (string * string))
    : StockPhysicalNode :=
  mkNode (demo_id offset end_ oid) (demo_oid "1"%char) (demo_sha "2"%char) (demo_sha "3"%char) offset end_ oid "blob" encoding
    [demo_oid "b"%char] true true (fst <$> base) (snd <$> base).

Definition demo_base : StockPhysicalNode := demo_node 12 40 (demo_oid "a"%char) "full" None.
Definition demo_delta : StockPhysicalNode :=
  demo_node 40 60 (demo_oid "b"%char) "ofs-delta" (Some (pn_entryId demo_base, demo_oid "a"%char)).

Definition demo_range (n : StockPhysicalNode) : NativeReceiveStockRange :=
  mkRange (Some (pn_entryId n)) (pn_packChecksum n) (pn_offset n) (pn_end n) "required-object" (pn_oid n)
    (Some (pn_semanticRootOids n)).

Definition demo_read (n : StockPhysicalNode) : NativeReceiveStockActivePackRead :=
  mkRead (pn_packChecksum n) (pn_offset n) (pn_end n) (pn_end n - pn_offset n) (ReadRequired (pn_oid n)).

Definition demo_pack_key : string := "do/repo/objects/pack/p.pack".

Definition demo_catalog : list PackCatalogRow :=
  [mkRow demo_pack_key KindReceive PackActive 0 1 1 2 100 50 0 None].

Definition demo_parts : PhysicalParts := mkParts [demo_base; demo_delta]
  [mkEdge (pn_entryId demo_delta) (pn_entryId demo_base) "ofs" (Some 12) None]
  [pn_entryId demo_base; pn_entryId demo_delta] [demo_oid "1"%char]
  [mkBinding demo_pack_key 100 50 (demo_oid "1"%char) (demo_sha "2"%char) (demo_sha "3"%char)].

Definition demo_ranges : list NativeReceiveStockRange := demo_range <$> [demo_base; demo_delta].
Definition demo_reads : list NativeReceiveStockActivePackRead := demo_read <$> [demo_base; demo_delta].


(** A plan that reads one root object from two entries is refused, though the
    planner makes such plans: it takes a root from the pack with the least
    checksum, and an offset delta of another pack brings its own base. *)
Lemma duplicate_root_refused p roots byDependent n m :
  n ∈ ph_nodes p -> m ∈ ph_nodes p -> n <> m -> pn_oid n = pn_oid m -> pn_oid n ∈ roots ->
  roots_valid p roots byDependent = false.
Proof.
  intros Hn Hm Hne E Hroot. unfold roots_valid. destruct (mapM _ roots) as [chains|] eqn:Em; [|done].
  apply mapM_chains in Em as [_ Hall]. destruct (Hall _ Hroot) as [l Hl].
  destruct (root_chain_node _ _ _ _ Hl) as (k & _ & _ & Hu & _). destruct Hne.
  by rewrite (Hu n Hn eq_refl), (Hu m Hm (eq_sym E)).
Qed.

(** A container result without [thinDeltaBaseOids] is not refused but throws. *)
Lemma missing_thin_throws `{Env} (o : NativeReceiveOperation) (r : NativeReceiveProcessResult) :
  pr_executionMode r <> Some "direct-pack"%string -> pr_resultKind r <> Some "ref-only"%string ->
  pr_thinDeltaBaseOids r = None -> validateStockReceivePreparedProof o r = Err (Throw "TypeError").
Proof.
  intros H1 H2 H3. unfold validateStockReceivePreparedProof, stockReceivePreparedProofFailure, ostr_eq.
  rewrite bool_decide_eq_false_2 by done. unfold containerProofFailure, output_counts, ref_only, ostr_eq.
  rewrite bool_decide_eq_false_2 by done. by rewrite H3.
Qed.

(** A push that moves a branch from object b to object c, which the repository
    already holds: a container result without artifacts. *)
Definition demo_trailer : NativeReceiveStockActivePackRead :=
  mkRead (demo_oid "1"%char) 80 100 20 ReadTrailer.

Definition demo_closure : NativeReceiveStockClosureProof :=
  mkClosureProof (demo_sha "4"%char) [] [] 0 0 0 0 0 (mkCounts 0 0 0 0).

Definition demo_trace : list NativeReceiveStockTraceEvent :=
  imap (fun i e => mkTrace (Z.of_nat i + 1) e) container_trace.

Definition demo_result : NativeReceiveProcessResult := {|
  pr_jsonBytes := 4096; pr_operationId := "push"; pr_executionMode := Some "stock-container"%string;
  pr_resultKind := Some "ref-only"%string; pr_packBytes := 0; pr_idxBytes := 0; pr_refsBytes := 0;
  pr_objectCount := 0; pr_inputPackObjectCount := Some 0; pr_elapsedMs := 5; pr_processorStartedAt := Some 1;
  pr_scratchBytes := 0; pr_hydratedBytes := 0; pr_downloadedBytes := 0; pr_cacheHitBytes := 0;
  pr_receivePackResponse := Some "ok"%string; pr_inputRequestSha256 := Some (demo_sha "5"%char);
  pr_packSha256 := None; pr_idxSha256 := None; pr_refsSha256 := None; pr_stockTrace := Some demo_trace;
  pr_metadataBytes := Some 0; pr_metadataRequests := Some 0; pr_inputBytesRead := Some 0;
  pr_inputRequests := Some 0; pr_rangeBytes := Some 48; pr_rangeRequests := Some 2; pr_packsTouched := Some 1;
  pr_quarantinePathInsideOwnedWorkRoot := Some true; pr_quarantineRemovedAfterReceive := Some true;
  pr_quarantinePathNonEmpty := Some true; pr_freshWorkDirectory := Some true;
  pr_repositoryPackBytesBeforeHydration := Some 0; pr_sharedObjectCacheDisabled := Some true;
  pr_skipConnectivityCheck := Some false; pr_planSha256 := Some (demo_sha "4"%char);
  pr_closureProof := Some demo_closure; pr_semanticExternalOids := Some []; pr_thinDeltaBaseOids := Some [];
  pr_requiredRootOids := Some [demo_oid "b"%char]; pr_prerequisiteObjectOids := Some [demo_oid "b"%char];
  pr_physicalNodes := Some (ph_nodes demo_parts); pr_physicalDependencies := Some (ph_edges demo_parts);
  pr_topologicalEntryIds := Some (ph_topology demo_parts);
  pr_selectedPackChecksums := Some (ph_selected demo_parts);
  pr_activePackBindings := Some (ph_bindings demo_parts); pr_activeMetadataBundle := None;
  pr_ranges := Some demo_ranges; pr_activePackReads := Some (demo_trailer :: demo_reads);
  pr_activePackTrailerBytes := Some 20; pr_activePackTrailerRequests := Some 1;
  pr_activePackRangeBytes := Some 48; pr_activePackRangeRequests := Some 2;
  pr_activePackWholeBytes := Some 0; pr_activePackWholeRequests := Some 0;
  pr_activePackUnattributedBytes := Some 0; pr_activePackUnattributedRequests := Some 0;
  pr_closureManifestKey := Some "do/repo/closure"%string; pr_closureManifestBytes := Some 10;
  pr_closureManifestSha256 := Some (demo_sha "4"%char); pr_closureManifestEtag := Some "m"%string;
  pr_prerequisitePackKey := Some "do/repo/prerequisite"%string; pr_prerequisitePackBytes := Some 32;
  pr_prerequisitePackSha256 := Some (demo_sha "6"%char); pr_prerequisitePackEtag := Some "q"%string;
  pr_incomingObjectCount := Some 0; pr_visitedIncomingObjectCount := Some 0; pr_logicalEdgeCount := Some 0;
  pr_internalEdgeCount := Some 0; pr_externalEdgeCount := Some 0; pr_missingObjectCount := Some 0;
  pr_objectTypeCounts := Some (mkCounts 0 0 0 0); pr_selectedPackBytes := Some 100;
  pr_activePackCount := Some 1; pr_outputValidationBytes := Some 0; pr_outputValidationRequests := Some 0;
  pr_outputBytesWritten := Some 0; pr_outputRequests := Some 0; pr_outputPackEtag := None;
  pr_outputIdxEtag := None; pr_outputRefsEtag := None; pr_outputIntegrityRejectedRole := None;
  pr_outputIntegrityRejectedAt := None |}.

Definition demo_command : ReceiveCommand :=
  mkCommand (demo_oid "b"%char) (demo_oid "c"%char) "refs/heads/main".

Definition demo_fact : AcceptedWriteFact :=
  mkFact "repo" "refs/heads/main" (demo_oid "b"%char) (demo_oid "c"%char) "alice" GitPush None.

(** The lease of the worker, as the toy platform names it. *)
Definition demo_lease : string := env_uuid (Env := toy_env) 7.

(** The operation as the worker submits it. *)
Definition demo_operation : NativeReceiveOperation := {|
  native_id := "push"; native_fingerprint := "f"; native_leaseToken := demo_lease; native_repositoryId := "repo";
  native_state := NrStaged; native_inputPackKey := "do/repo/native-receive/input-push.request";
  native_inputBytes := 64; native_inputEtag := "e";
  native_stockReceive := Some (mkStockInput (demo_sha "5"%char) 32 32
                                 [mkRef "refs/heads/main" (demo_oid "b"%char)] None);
  native_outputPackKey := "do/repo/objects/pack/pack-native-push-f.pack"; native_outputIdxKey := "";
  native_outputRefsKey := ""; native_commands := [demo_command]; native_acceptedWrites := [demo_fact];
  native_activeCatalog := demo_catalog; native_catalogGeneration := 1; native_createdAt := 0;
  native_updatedAt := 0; native_attempts := 0; native_cleanupPending := false; native_events := None;
  native_clientAckReadyAt := None; native_finalizeAttempts := None; native_finalizeEscalated := None;
  native_claimId := None; native_claimExpiresAt := None; native_errorCode := None;
  native_processorResult := None; native_rejectionMetrics := None; native_publicationPlan := None;
  native_result := None |}.

Example demo_result_valid :
  validateStockReceivePreparedProof (H := toy_env) demo_operation demo_result = Ok true.
Proof. vm_compute. reflexivity. Qed.
