(* ===== verification/AuthorityPlan.v ===== *)
(** * The publication of a stock push

    [git/nativeReceive/authorityPlan.ts]: the R2 objects - the new value of the
    ref and a receipt - that make a committed push visible outside the repository
    object, planned when the push is committed and compared with what the worker
    observed after it wrote them.  The views and the cleanup descriptor of an
    operation ([git/nativeReceive/types.ts], [stockReceiveAuthority.ts]) are here
    too.  An exception is an [Err]. *)
From S2P Require Import Prelude NativeTypes Storage Effects Text Keys Bytes Json StockProof.
From Stdlib Require Import Ascii.
From Stdlib Require String.

(** ** Definitions *)

(** The operation as clients see it. *)
Record NativeReceiveOperationView := mkView {
  view_id : string;
  view_state : NativeReceiveOperationState;
  view_createdAt : Z;
  view_updatedAt : Z;
  view_attempts : Z;
  view_errorCode : option string;
  view_clientAckReadyAt : option Z;
  view_events : option (list NativeReceiveEvidenceEvent);
  view_result : option NativeReceiveTerminalResult;
  view_metrics : option NativeReceiveOperationMetrics }.

(** The members of a result that are metrics; the length of their JSON text is
    not used. *)
Definition result_metrics (r : NativeReceiveProcessResult) : NativeReceiveOperationMetrics :=
  mkMetrics (pr_jsonBytes r) (pr_executionMode r) (pr_elapsedMs r) (pr_processorStartedAt r)
    (pr_scratchBytes r) (pr_hydratedBytes r) (pr_downloadedBytes r) (pr_cacheHitBytes r)
    (pr_metadataBytes r) (pr_metadataRequests r) (pr_inputBytesRead r) (pr_inputRequests r)
    (pr_rangeBytes r) (pr_rangeRequests r) (pr_packsTouched r) (pr_ranges r) (pr_activePackReads r)
    (pr_activeMetadataBundle r) (pr_activePackTrailerBytes r) (pr_activePackTrailerRequests r)
    (pr_activePackRangeBytes r) (pr_activePackRangeRequests r) (pr_activePackWholeBytes r)
    (pr_activePackWholeRequests r) (pr_activePackUnattributedBytes r)
    (pr_activePackUnattributedRequests r) (pr_selectedPackBytes r) (pr_activePackCount r)
    (pr_outputValidationBytes r) (pr_outputValidationRequests r) (pr_outputBytesWritten r)
    (pr_outputRequests r).

Definition nativeReceiveOperationView (o : NativeReceiveOperation) : NativeReceiveOperationView :=
  mkView (native_id o) (native_state o) (native_createdAt o) (native_updatedAt o) (native_attempts o)
    (native_errorCode o) (native_clientAckReadyAt o) (native_events o) (native_result o)
    (match native_processorResult o with
     | Some r => Some (result_metrics r)
     | None => native_rejectionMetrics o
     end).

Record NativeReceiveCleanupDescriptor := mkCleanup {
  cl_operationId : string;
  cl_fingerprint : string;
  cl_inputPackKey : string;
  cl_inputRequestSha256 : string;
  cl_outputPackKey : string;
  cl_outputIdxKey : string;
  cl_outputRefsKey : string }.

Definition cleanupDescriptor (o : NativeReceiveOperation) : res NativeReceiveCleanupDescriptor :=
  match native_stockReceive o with
  | Some s =>
    if str_eq (si_inputRequestSha256 s) ""
    then Err (Throw "FUBAR: stock cleanup descriptor lacks stock input")
    else Ok (mkCleanup (native_id o) (native_fingerprint o) (native_inputPackKey o)
               (si_inputRequestSha256 s) (native_outputPackKey o) (native_outputIdxKey o)
               (native_outputRefsKey o))
  | None => Err (Throw "FUBAR: stock cleanup descriptor lacks stock input")
  end.

Section Plan.
Context `{Env}.

Definition jsonObjectPlan (key : string) (value : json) : NativeReceiveAuthorityPublicationObjectPlan :=
  let text := stringify value in
  mkObjectPlan key (str_length text) (sha256Text text) text.

Definition authoritative_ref (name oid : string) : json :=
  js_object [num_member "schemaVersion" 1; str_member "kind" "authoritative-ref";
             str_member "name" name; str_member "oid" oid].

Definition resultKind (r : NativeReceiveProcessResult) : string :=
  default "artifacts"%string (pr_resultKind r).

(** What the receipt digest covers. *)
Definition receipt_facts (o : NativeReceiveOperation) (c : ReceiveCommand)
    (r : NativeReceiveProcessResult) : json :=
  js_object [str_member "operationId" (native_id o); str_member "fingerprint" (native_fingerprint o);
    str_member "refName" (cmd_ref c); str_member "oldOid" (oldOid c); str_member "newOid" (newOid c);
    str_member "resultKind" (resultKind r); ("packSha256", JStr <$> pr_packSha256 r);
    ("idxSha256", JStr <$> pr_idxSha256 r); ("refsSha256", JStr <$> pr_refsSha256 r);
    ("planSha256", JStr <$> pr_planSha256 r);
    ("outputValidationBytes", JNum <$> pr_outputValidationBytes r);
    ("outputValidationRequests", JNum <$> pr_outputValidationRequests r);
    ("outputPackEtag", JStr <$> pr_outputPackEtag r); ("outputIdxEtag", JStr <$> pr_outputIdxEtag r);
    ("outputRefsEtag", JStr <$> pr_outputRefsEtag r)].

Definition operation_receipt (c : ReceiveCommand) (digest : string) : json :=
  js_object [num_member "schemaVersion" 1; str_member "kind" "operation-receipt";
             str_member "disposition" "committed"; str_member "refName" (cmd_ref c);
             str_member "newOid" (newOid c); str_member "digest" digest].

Definition artifactProof (r : NativeReceiveProcessResult) : bool :=
  str_eq (resultKind r) "artifacts" && truthy_string (pr_packSha256 r) &&
  truthy_string (pr_idxSha256 r) && truthy_string (pr_refsSha256 r) &&
  bool_decide (pr_outputValidationRequests r = Some 3) && truthy_string (pr_outputPackEtag r) &&
  truthy_string (pr_outputIdxEtag r) && truthy_string (pr_outputRefsEtag r).

Definition refOnlyProof (r : NativeReceiveProcessResult) : bool :=
  str_eq (resultKind r) "ref-only" && bool_decide (pr_outputValidationBytes r = Some 0) &&
  bool_decide (pr_outputValidationRequests r = Some 0) &&
  bool_decide (pr_outputBytesWritten r = Some 0) && bool_decide (pr_outputRequests r = Some 0).

Definition publication_token (id fingerprint refSha receiptSha : string) : string :=
  sha256Text (String.concat zero_byte
    ["stock-authority-publication-v1"; id; fingerprint; refSha; receiptSha]).

Definition buildNativeReceiveAuthorityPublicationPlan (o : NativeReceiveOperation)
    (r : NativeReceiveProcessResult) : res NativeReceiveAuthorityPublicationPlan :=
  match native_commands o with
  | [c] =>
    if str_eq (newOid c) zeroOid
    then Err (Throw "FUBAR: stock authority publication requires one non-delete transition") else
    if negb (truthy_string (pr_planSha256 r)) || (negb (artifactProof r) && negb (refOnlyProof r))
    then Err (Throw "FUBAR: stock publication lacks verified immutable output proof") else
    match nativeReceiveAuthorityRefKey (native_outputPackKey o) (native_id o) (native_fingerprint o) 0,
          nativeReceiveAuthorityReceiptKey (native_outputPackKey o) (native_id o) (native_fingerprint o) with
    | Some refKey, Some receiptKey =>
      let ref := jsonObjectPlan refKey (authoritative_ref (cmd_ref c) (newOid c)) in
      let receiptDigest := sha256Text (stringify (receipt_facts o c r)) in
      let receipt := jsonObjectPlan receiptKey (operation_receipt c receiptDigest) in
      Ok (mkPublicationPlan
            (publication_token (native_id o) (native_fingerprint o) (op_sha256 ref) (op_sha256 receipt))
            (native_id o) (native_fingerprint o) [mkPlannedRef ref (cmd_ref c) (newOid c)]
            (mkPlannedReceipt receipt "committed" (cmd_ref c) (newOid c) receiptDigest))
    | _, _ => Err (Throw "invalid native receive output pack key")
    end
  | _ => Err (Throw "FUBAR: stock authority publication requires one non-delete transition")
  end.
End Plan.

(** [length > 0 && length <= 256 && !/[\0\r\n]/.test(value)]. *)
Definition boundedEtag (value : string) : bool :=
  (0 <? str_length value) && (str_length value <=? 256) &&
  forallb (fun c => negb ((code c =? 0) || (code c =? 13) || (code c =? 10))) (chars value).

Definition object_published (plan : NativeReceiveAuthorityPublicationObjectPlan)
    (proof : NativeReceiveAuthorityR2Object) : bool :=
  str_eq (r2p_key proof) (op_key plan) && (r2p_bytes proof =? op_bytes plan) &&
  str_eq (r2p_sha256 proof) (op_sha256 plan) && boundedEtag (r2p_etag proof).

Definition ref_published (plan : PlannedRef) (proof : PublishedRef) : bool :=
  str_eq (pbr_name proof) (plr_name plan) && str_eq (pbr_oid proof) (plr_oid plan) &&
  object_published (plr_object plan) (pbr_object proof).

Definition authorityPublicationMatchesPlan (plan : NativeReceiveAuthorityPublicationPlan)
    (proof : NativeReceiveAuthorityPublication) : bool :=
  (length (pub_refs proof) =? length (pp_refs plan))%nat && (length (pub_refs proof) <=? 16)%nat &&
  forallb (fun x => ref_published x.1 x.2) (zip (pp_refs plan) (pub_refs proof)) &&
  str_eq (pbc_disposition (pub_receipt proof)) (plc_disposition (pp_receipt plan)) &&
  str_eq (pbc_refName (pub_receipt proof)) (plc_refName (pp_receipt plan)) &&
  str_eq (pbc_newOid (pub_receipt proof)) (plc_newOid (pp_receipt plan)) &&
  str_eq (pbc_digest (pub_receipt proof)) (plc_digest (pp_receipt plan)) &&
  object_published (plc_object (pp_receipt plan)) (pbc_object (pub_receipt proof)).

(** ** What a receipt binds *)

Lemma js_members_keys ks vs k v : (k, v) ∈ js_members (zip ks vs) -> k ∈ ks.
Proof.
  unfold js_members. intros ([k' o] & Hin & E)%list_elem_of_omap.
  destruct o as [x|]; simpl in E; [|done]. injection E as -> ->.
  by apply elem_of_zip_l in Hin.
Qed.

Lemma js_members_cons k o l :
  js_members ((k, o) :: l) = match o with Some x => (k, x) :: js_members l | None => js_members l end.
Proof. by destruct o. Qed.

(** Members of the same names: the text of an object determines every one. *)
Lemma js_members_inj ks vs vs' :
  NoDup ks -> length vs = length ks -> length vs' = length ks ->
  js_members (zip ks vs) = js_members (zip ks vs') -> vs = vs'.
Proof.
  intros Hnd. revert vs vs'. induction Hnd as [|k ks Hk Hnd IH]; intros [|v vs] [|v' vs'] H1 H2 E; try done.
  simpl in H1, H2.
  simpl zip in E. rewrite !js_members_cons in E. destruct v as [x|], v' as [x'|].
  - injection E as -> E. f_equal. apply IH; [lia | lia | done].
  - exfalso. apply Hk. eapply (js_members_keys ks vs' k x). rewrite <- E. apply list_elem_of_here.
  - exfalso. apply Hk. eapply (js_members_keys ks vs k x'). rewrite E. apply list_elem_of_here.
  - f_equal. apply IH; [lia | lia | done].
Qed.

Definition receipt_keys : list string :=
  ["operationId"; "fingerprint"; "refName"; "oldOid"; "newOid"; "resultKind"; "packSha256"; "idxSha256";
   "refsSha256"; "planSha256"; "outputValidationBytes"; "outputValidationRequests"; "outputPackEtag";
   "outputIdxEtag"; "outputRefsEtag"].

Definition receipt_values (o : NativeReceiveOperation) (c : ReceiveCommand)
    (r : NativeReceiveProcessResult) : list (option json) :=
  [Some (JStr (native_id o)); Some (JStr (native_fingerprint o)); Some (JStr (cmd_ref c));
   Some (JStr (oldOid c)); Some (JStr (newOid c)); Some (JStr (resultKind r)); JStr <$> pr_packSha256 r;
   JStr <$> pr_idxSha256 r; JStr <$> pr_refsSha256 r; JStr <$> pr_planSha256 r;
   JNum <$> pr_outputValidationBytes r; JNum <$> pr_outputValidationRequests r;
   JStr <$> pr_outputPackEtag r; JStr <$> pr_outputIdxEtag r; JStr <$> pr_outputRefsEtag r].

#[local] Instance JStr_inj : Inj (=) (=) JStr.
Proof. by intros ? ? [= ->]. Qed.

(** What a receipt says of a push. *)
Definition receipted (o : NativeReceiveOperation) (c : ReceiveCommand) (r : NativeReceiveProcessResult) :=
  (native_id o, native_fingerprint o, c, resultKind r,
   (pr_packSha256 r, pr_idxSha256 r, pr_refsSha256 r), pr_planSha256 r).

Lemma receipt_facts_inj o c r o' c' r' :
  receipt_facts o c r = receipt_facts o' c' r' -> receipted o c r = receipted o' c' r'.
Proof.
  intros E%(f_equal (fun v => match v with JObj ms => ms | _ => [] end)). apply (js_members_inj receipt_keys (receipt_values o c r) (receipt_values o' c' r')) in E;
    [| apply (bool_decide_unpack _); vm_compute; exact I | done | done].
  injection E as E1 E2 E3 E4 E5 E6 E7 E8 E9 E10 _ _ _ _ _.
  apply (inj (fmap JStr)) in E7, E8, E9, E10. unfold receipted.
  destruct c, c'; simpl in *. congruence.
Qed.

(** C21: a publication belongs to one push.  When what the worker published is
    accepted for the plan of one push and for the plan of another, the two are the
    same push - the same operation and fingerprint, the same ref with the same old
    and new object, the same artifacts with the same digests - as far as SHA-256
    has no collision. *)
Theorem publication_binds_push `{Env} (o o' : NativeReceiveOperation) (c c' : ReceiveCommand)
    (r r' : NativeReceiveProcessResult) (plan plan' : NativeReceiveAuthorityPublicationPlan)
    (proof : NativeReceiveAuthorityPublication) :
  collision_free env_sha256_hex ->
  native_commands o = [c] -> native_commands o' = [c'] ->
  buildNativeReceiveAuthorityPublicationPlan o r = Ok plan ->
  buildNativeReceiveAuthorityPublicationPlan o' r' = Ok plan' ->
  authorityPublicationMatchesPlan plan proof = true ->
  authorityPublicationMatchesPlan plan' proof = true ->
  receipted o c r = receipted o' c' r'.
Proof.
  intros Hc Ec Ec' Hp Hp' Hm Hm'.
  unfold buildNativeReceiveAuthorityPublicationPlan in Hp, Hp'. rewrite Ec in Hp. rewrite Ec' in Hp'.
  repeat case_match; try discriminate. injection Hp as <-. injection Hp' as <-.
  unfold authorityPublicationMatchesPlan in Hm, Hm'. cbn [pp_receipt plc_digest] in Hm, Hm'. to_prop.
  apply receipt_facts_inj, stringify_inj, (sha256Text_inj _ _ Hc). congruence.
Qed.

(** What a worker reports that wrote the planned objects. *)
Definition observed (p : NativeReceiveAuthorityPublicationObjectPlan) (etag : string)
    : NativeReceiveAuthorityR2Object := mkR2Proof (op_key p) (op_bytes p) (op_sha256 p) etag.

Definition published (p : NativeReceiveAuthorityPublicationPlan) : NativeReceiveAuthorityPublication :=
  let c := pp_receipt p in
  mkPublication
    ((fun r => mkPublishedRef (observed (plr_object r) "1") (plr_name r) (plr_oid r)) <$> pp_refs p)
    (mkPublishedReceipt (observed (plc_object c) "2") (plc_disposition c) (plc_refName c) (plc_newOid c)
       (plc_digest c)).

Definition plan_of `{Env} (o : NativeReceiveOperation) (r : NativeReceiveProcessResult)
    : NativeReceiveAuthorityPublicationPlan :=
  match buildNativeReceiveAuthorityPublicationPlan o r with
  | Ok p => p
  | Err _ => let none := mkObjectPlan "" 0 "" "" in
             mkPublicationPlan "" "" "" [] (mkPlannedReceipt none "" "" "" "")
  end.

Lemma publication_binds_push_witness :
  let o' := set_native_attempts 2 demo_operation in
  receipted demo_operation demo_command demo_result = receipted o' demo_command demo_result.
Proof.
  intros o'.
  apply (publication_binds_push (H := hex_env) demo_operation o' demo_command demo_command demo_result demo_result
           (plan_of (H := hex_env) demo_operation demo_result) (plan_of (H := hex_env) o' demo_result)
           (published (plan_of (H := hex_env) demo_operation demo_result)) hex_env_collision_free);
    vm_compute; reflexivity.
Defined.
