(* ===== verification/PackEntry.v ===== *)
(** * Pack entry headers

    [git/core/objects.ts] ([objTypeCode], [encodeObjHeader]) and
    [git/pack/packMeta.ts]: the header of a pack entry - its type, its size as a
    variable-length integer and, for a delta, the distance or the id of its base. *)
From S2P Require Import Prelude Bytes.

(** ** Definitions *)

Inductive GitObjectType := ObjBlob | ObjTree | ObjCommit | ObjTag.

Definition objTypeCode (t : GitObjectType) : Z :=
  match t with ObjCommit => 1 | ObjTree => 2 | ObjBlob => 3 | ObjTag => 4 end.

(** The loop of [encodeObjHeader]; its counter starts below 2^27, so four turns
    are enough ([size_groups_read]). *)
Fixpoint size_groups (fuel : nat) (size : Z) : list Z :=
  match fuel with
  | O => []
  | S fuel =>
    if 0 <? size then
      let b := Z.land size 127 in
      let size := Z.shiftr size 7 in
      (if 0 <? size then Z.lor b 128 else b) :: size_groups fuel size
    else []
  end.

Definition encodeObjHeader (type size : Z) : list Z :=
  let first := Z.lor (Z.shiftl type 4) (Z.land (toInt32 size) 15) in
  let size := Z.shiftr (toInt32 size) 4 in
  let first := if 0 <? size then Z.lor first 128 else first in
  toUint8 <$> first :: size_groups 5 size.

(** *** Reading a header *)

Record PackHeaderEx := mkPackHeader {
  hdr_type : Z;
  sizeVarBytes : list Z;
  headerLen : Z;
  baseOid : option string;
  baseRel : option Z }.

(** From the bytes after the first: those that continue the size, and the rest. *)
Fixpoint size_var (c : Z) (buf : list Z) : option (list Z * list Z) :=
  if Z.land c 128 =? 0 then Some ([], buf) else
  match buf with
  | [] => None
  | c :: buf => (fun '(more, rest) => (c :: more, rest)) <$> size_var c buf
  end.

(** The loop that reads the distance to the base, and the bytes it read. *)
Fixpoint read_distance (byte distance : Z) (buf : list Z) : option (Z * Z) :=
  if Z.land byte 128 =? 0 then Some (distance, 0) else
  match buf with
  | [] => None
  | byte :: buf =>
    let distance := (distance + 1) * 128 + Z.land byte 127 in
    if negb (is_safe distance) then None else
    (fun '(d, n) => (d, n + 1)) <$> read_distance byte distance buf
  end.

Definition readPackHeaderExFromBuf (buf : list Z) (offset : nat) : option PackHeaderEx :=
  match drop offset buf with
  | [] => None
  | c :: tail =>
    let type := Z.land (Z.shiftr c 4) 7 in
    match size_var c tail with
    | None => None
    | Some (more, rest) =>
      let size := c :: more in
      let n := Z.of_nat (length size) in
      if type =? 7 then
        if (length rest <? 20)%nat then None
        else Some (mkPackHeader type size (n + 20) (Some (bytesToHex (take 20 rest))) None)
      else if type =? 6 then
        match rest with
        | [] => None
        | byte :: rest =>
          (fun '(d, k) => mkPackHeader type size (n + (k + 1)) None (Some d))
            <$> read_distance byte (Z.land byte 127) rest
        end
      else Some (mkPackHeader type size n None None)
    end
  end.

(** The loop of [decodePackObjectSize].  From shift 1024 on the power is infinite,
    and neither an infinite sum nor a zero times infinity is a safe integer. *)
Fixpoint add_size (size shift : Z) (bytes : list Z) : option Z :=
  match bytes with
  | [] => Some size
  | b :: bytes =>
    let size := size + Z.land b 127 * 2 ^ shift in
    if (1024 <=? shift) || negb (is_safe size) then None else add_size size (shift + 7) bytes
  end.

Definition decodePackObjectSize (bytes : list Z) : option Z :=
  match bytes with
  | [] => None
  | b :: bytes => add_size (Z.land b 15) 4 bytes
  end.

(** *** The distance to the base of a delta *)

(** The groups of seven bits, the low one first.  The counter starts below 2^32
    and loses at least seven bits a turn: five turns are enough
    ([distance_groups_value]). *)
Fixpoint distance_groups (fuel : nat) (current : Z) : list Z :=
  match fuel with
  | O => []
  | S fuel =>
    let group := Z.land current 127 in
    let current := Z.shiftr (toUint32 (current - group)) 7 - 1 in
    group :: if current <? 0 then [] else distance_groups fuel current
  end.

(** Every group but the last written one is marked. *)
Definition mark_groups (groups : list Z) : list Z :=
  ((fun g => Z.lor g 128) <$> reverse (tail groups)) ++ take 1 groups.

Definition encodeOfsDeltaDistance (rel : Z) : list Z :=
  if rel <=? 0 then [0] else toUint8 <$> mark_groups (distance_groups 5 (toUint32 rel)).

Definition ofsDeltaDistanceLength (rel : Z) : Z :=
  if rel <=? 0 then 1 else Z.of_nat (length (distance_groups 5 (toUint32 rel))).

(** ** Lemmas *)

Example header_small : encodeObjHeader 3 300 = [188; 18].
Proof. reflexivity. Qed.

Example distance_example : encodeOfsDeltaDistance 1000 = [134; 104].
Proof. reflexivity. Qed.

Example distance_read : readPackHeaderExFromBuf ([9; 9; 229; 1; 134; 104; 7]) 2
  = Some (mkPackHeader 6 [229; 1] 4 None (Some 1000)).
Proof. reflexivity. Qed.

Lemma marked_group g : 0 <= g < 128 ->
  Z.lor g 128 = g + 128 /\ Z.land (g + 128) 128 = 128 /\ Z.land (g + 128) 127 = g /\ Z.land g 128 = 0.
Proof.
  intros Hg. pose proof (check_below 128 (fun g => (Z.lor g 128 =? g + 128) && (Z.land (g + 128) 128 =? 128)
    && (Z.land (g + 128) 127 =? g) && (Z.land g 128 =? 0)) eq_refl g Hg) as H. by to_prop.
Qed.

(** The first byte of an entry. *)
Lemma first_byte type low (more : bool) : 0 <= type < 8 -> 0 <= low < 16 ->
  let c := Z.lor (Z.lor (Z.shiftl type 4) low) (if more then 128 else 0) in
  c = type * 16 + low + (if more then 128 else 0) /\ Z.land (Z.shiftr c 4) 7 = type /\
  Z.land c 15 = low /\ Z.land c 128 = (if more then 128 else 0).
Proof.
  intros Ht Hl. pose proof (check_below 8 (fun type => forallb (fun low => forallb (fun m : Z =>
    let c := Z.lor (Z.lor (Z.shiftl type 4) low) m in
    (c =? type * 16 + low + m) && (Z.land (Z.shiftr c 4) 7 =? type) && (Z.land c 15 =? low) &&
    (Z.land c 128 =? m)) [128; 0]) (seqZ 0 16)) eq_refl type Ht) as H1.
  pose proof (check_below 16 _ H1 low Hl) as H2. rewrite forallb_forall in H2.
  specialize (H2 (if more then 128 else 0)). cbv zeta. cbv zeta in H2.
  assert (In (if more then 128 else 0) [128; 0]) as Hin by (destruct more; simpl; auto).
  specialize (H2 Hin). by to_prop.
Qed.

Lemma low_group size : 0 <= size mod 128 < 128.
Proof. by apply Z.mod_pos_bound. Qed.

Lemma size_var_eq c buf :
  size_var c buf = if Z.land c 128 =? 0 then Some ([], buf) else
    match buf with
    | [] => None
    | c :: buf => (fun '(more, rest) => (c :: more, rest)) <$> size_var c buf
    end.
Proof. by destruct buf. Qed.

(** The written groups of a size are bytes, are read back as the rest of the size,
    and add up to it. *)
Lemma size_groups_bytes fuel size : is_bytes (size_groups fuel size).
Proof.
  revert size. induction fuel as [|fuel IH]; intros size; simpl; [constructor|].
  destruct (0 <? size); [|constructor]. constructor; [|apply IH].
  rewrite land_127. destruct (marked_group _ (low_group size)) as (E & _). pose proof (low_group size).
  unfold is_byte. destruct (0 <? _); [rewrite E|]; lia.
Qed.

Lemma size_groups_read fuel size c rest :
  0 <= size < 128 ^ Z.of_nat fuel -> Z.land c 128 = (if 0 <? size then 128 else 0) ->
  size_var c (size_groups fuel size ++ rest) = Some (size_groups fuel size, rest).
Proof.
  revert size c. induction fuel as [|fuel IH]; intros size c Hs Hc; rewrite size_var_eq, Hc; simpl.
  - replace size with 0 by lia. done.
  - destruct (0 <? size) eqn:E; simpl; [|done]. apply Z.ltb_lt in E.
    rewrite land_127, shiftr_7, IH; [done | |].
    + rewrite Nat2Z.inj_succ, Z.pow_succ_r in Hs by lia.
      split; [apply Z.div_pos; lia | apply Z.div_lt_upper_bound; lia].
    + destruct (marked_group _ (low_group size)) as (E1 & E2 & _ & E4).
      destruct (0 <? size / 128); [by rewrite E1 | done].
Qed.

Lemma size_groups_value fuel size s0 shift :
  0 <= size < 128 ^ Z.of_nat fuel -> 0 <= s0 -> 0 <= shift -> shift + 7 * Z.of_nat fuel <= 1024 ->
  s0 + size * 2 ^ shift < 2 ^ 53 ->
  add_size s0 shift (size_groups fuel size) = Some (s0 + size * 2 ^ shift).
Proof.
  revert size s0 shift. induction fuel as [|fuel IH]; intros size s0 shift Hs H0 Hsh Hf Hb.
  - simpl in *. f_equal. replace size with 0 by lia. lia.
  - simpl. destruct (0 <? size) eqn:E; simpl; [|f_equal; replace size with 0 by (to_prop; lia); lia].
    apply Z.ltb_lt in E. rewrite !land_127, shiftr_7.
    rewrite Nat2Z.inj_succ, Z.pow_succ_r in Hs by lia.
    assert (0 < 2 ^ shift) by (apply Z.pow_pos_nonneg; lia).
    pose proof (Z_div_mod_eq_full size 128) as Hdm. pose proof (low_group size).
    assert ((if 0 <? size / 128 then Z.lor (size mod 128) 128 else size mod 128) mod 128 = size mod 128) as ->.
    { destruct (marked_group _ (low_group size)) as (E1 & _ & E3 & _).
      rewrite <- !land_127 in *. destruct (0 <? size / 128); [congruence|].
      rewrite !land_127. by apply Z.mod_mod. }
    assert (0 <= size / 128) by (apply Z.div_pos; lia).
    assert (s0 + size * 2 ^ shift = s0 + size mod 128 * 2 ^ shift + size / 128 * 2 ^ (shift + 7)) as Hsum.
    { rewrite Z.pow_add_r by lia. change (2 ^ 7) with 128. nia. }
    assert (0 < 2 ^ (shift + 7)) by (apply Z.pow_pos_nonneg; lia).
    assert (is_safe (s0 + size mod 128 * 2 ^ shift) = true) as ->.
    { unfold is_safe. apply andb_true_iff; split; apply Z.leb_le; nia. }
    replace (1024 <=? shift) with false by (symmetry; apply Z.leb_gt; lia). simpl.
    assert (size / 128 < 128 ^ Z.of_nat fuel) by (apply Z.div_lt_upper_bound; lia).
    rewrite IH; [by rewrite Hsum | lia | nia | lia | lia | lia].
Qed.

(** The header of an entry, as its parts. *)
Lemma encode_parts type size :
  0 <= type < 8 -> 0 <= size < 2 ^ 31 ->
  exists c, encodeObjHeader type size = c :: size_groups 5 (size / 16) /\
    Z.land (Z.shiftr c 4) 7 = type /\ Z.land c 15 = size mod 16 /\
    Z.land c 128 = (if 0 <? size / 16 then 128 else 0) /\ is_byte c.
Proof.
  intros Ht Hs. unfold encodeObjHeader.
  assert (toInt32 size = size) as ->.
  { unfold toInt32. rewrite Z.mod_small by lia. by rewrite (proj2 (Z.ltb_lt _ _)) by lia. }
  rewrite land_15, shiftr_4. assert (0 <= size mod 16 < 16) as Hlow by (by apply Z.mod_pos_bound).
  destruct (first_byte type (size mod 16) (0 <? size / 16) Ht Hlow) as (E1 & E2 & E3 & E4).
  assert ((if 0 <? size / 16 then Z.lor (Z.lor (Z.shiftl type 4) (size mod 16)) 128
           else Z.lor (Z.shiftl type 4) (size mod 16)) =
    Z.lor (Z.lor (Z.shiftl type 4) (size mod 16)) (if 0 <? size / 16 then 128 else 0)) as ->.
  { destruct (0 <? size / 16); [done | by rewrite Z.lor_0_r]. }
  set (c := Z.lor (Z.lor _ _) (if 0 <? size / 16 then 128 else 0)) in *.
  assert (is_byte c) as Hc by (rewrite E1; unfold is_byte; destruct (0 <? size / 16); lia).
  exists c. rewrite uint8_bytes by (constructor; [done | apply size_groups_bytes]).
  by split_and!.
Qed.

(** *** The distance *)

Definition dist_step (d g : Z) : Z := (d + 1) * 128 + g.
Abbreviation is_group := (fun g : Z => 0 <= g < 128).

Lemma distance_groups_S fuel current :
  distance_groups (S fuel) current =
    let group := Z.land current 127 in
    let current := Z.shiftr (toUint32 (current - group)) 7 - 1 in
    group :: if current <? 0 then [] else distance_groups fuel current.
Proof. done. Qed.

(** The groups, the high one first, spell the distance. *)
Lemma distance_groups_spec fuel current :
  0 <= current < 2 ^ 32 -> current < 128 ^ Z.of_nat (S fuel) ->
  foldl dist_step (-1) (reverse (distance_groups (S fuel) current)) = current /\
  Forall is_group (distance_groups (S fuel) current).
Proof.
  revert current. induction fuel as [|fuel IH]; intros current Hc Hf; rewrite distance_groups_S; cbv zeta;
    rewrite reverse_cons, foldl_snoc, land_127; pose proof (low_group current) as Hg;
    pose proof (Z_div_mod_eq_full current 128) as Hdm;
    assert (Z.shiftr (toUint32 (current - current mod 128)) 7 = current / 128) as ->
      by (unfold toUint32; rewrite Z.mod_small, shiftr_7 by lia;
          rewrite Hdm at 1; rewrite Z.add_simpl_r, Z.mul_comm; apply Z.div_mul; lia).
  - replace (_ <? 0) with true by (symmetry; apply Z.ltb_lt; change (128 ^ Z.of_nat 1) with 128 in Hf; lia).
    split; [unfold dist_step; simpl; change (128 ^ Z.of_nat 1) with 128 in Hf; lia | by constructor].
  - destruct (_ <? 0) eqn:E; to_prop.
    + split; [unfold dist_step; simpl; lia | by constructor].
    + rewrite Nat2Z.inj_succ, Z.pow_succ_r in Hf by lia.
      destruct (IH (current / 128 - 1)) as [-> ?]; [lia | nia |].
      split; [unfold dist_step; lia | by constructor].
Qed.

Lemma dist_step_grows l d : Forall is_group l -> 0 <= d -> d <= foldl dist_step d l.
Proof.
  intros Hl. revert d. induction Hl as [|g l Hg _ IH]; intros d Hd; simpl; [lia|].
  trans (dist_step d g); [unfold dist_step; lia | apply IH; unfold dist_step; lia].
Qed.

Lemma group_bits g : is_group g ->
  Z.lor g 128 = g + 128 /\ Z.land (g + 128) 128 = 128 /\ Z.land (g + 128) 127 = g /\
  Z.land g 128 = 0 /\ Z.land g 127 = g.
Proof.
  intros Hg. destruct (marked_group g Hg) as (? & ? & ? & ?). split_and!; try done.
  rewrite land_127. by apply Z.mod_small.
Qed.

Lemma group_bytes g : is_group g -> is_byte g /\ is_byte (Z.lor g 128).
Proof. intros Hg. destruct (group_bits g Hg) as [-> _]. simpl in Hg. unfold is_byte. lia. Qed.

Lemma read_distance_eq byte distance buf :
  read_distance byte distance buf = if Z.land byte 128 =? 0 then Some (distance, 0) else
    match buf with
    | [] => None
    | byte :: buf =>
      let distance := (distance + 1) * 128 + Z.land byte 127 in
      if negb (is_safe distance) then None else
      (fun '(d, n) => (d, n + 1)) <$> read_distance byte distance buf
    end.
Proof. by destruct buf. Qed.

(** Marked groups and then an unmarked one are read back as what they spell. *)
Lemma read_distance_groups l g d rest :
  Forall is_group (l ++ [g]) -> -1 <= d -> foldl dist_step d (l ++ [g]) < 2 ^ 53 ->
  exists byte buf, ((fun g => Z.lor g 128) <$> l) ++ g :: rest = byte :: buf /\
    0 <= dist_step d (Z.land byte 127) <= foldl dist_step d (l ++ [g]) /\
    read_distance byte (dist_step d (Z.land byte 127)) buf =
      Some (foldl dist_step d (l ++ [g]), Z.of_nat (length l)).
Proof.
  revert d. induction l as [|b l IH]; intros d Hl Hd Hv; csimpl; csimpl in Hl; csimpl in Hv.
  - destruct (group_bits g) as (_ & _ & _ & E & E'); [by inversion Hl|].
    eexists _, _. split; [done|]. rewrite E', read_distance_eq, E.
    apply Forall_cons_1 in Hl as [Hg _]. simpl. split; [unfold dist_step; lia | done].
  - apply Forall_cons_1 in Hl as [Hb Hl]. destruct (group_bits b Hb) as (E1 & E2 & E3 & _).
    assert (0 <= dist_step d b) by (unfold dist_step; lia).
    destruct (IH (dist_step d b)) as (byte & buf & Eb & Hr & Hread); [done | lia | done |].
    eexists _, _. split; [done|]. rewrite E1, E3. split.
    { split; [done | by apply dist_step_grows]. }
    rewrite read_distance_eq, E2, Eb. simpl. fold (dist_step (dist_step d b) (Z.land byte 127)).
    assert (is_safe (dist_step (dist_step d b) (Z.land byte 127)) = true) as ->
      by (unfold is_safe; apply andb_true_iff; split; apply Z.leb_le; lia).
    simpl. rewrite Hread. simpl. do 2 f_equal. lia.
Qed.

#[local] Arguments encodeObjHeader : simpl never.
#[local] Arguments encodeOfsDeltaDistance : simpl never.
#[local] Arguments ofsDeltaDistanceLength : simpl never.

(** A written distance, read back after the first byte, and its length. *)
Lemma distance_roundtrip rel rest :
  0 <= rel < 2 ^ 32 ->
  exists byte buf, encodeOfsDeltaDistance rel ++ rest = byte :: buf /\
    read_distance byte (Z.land byte 127) buf = Some (rel, ofsDeltaDistanceLength rel - 1) /\
    Z.of_nat (length (encodeOfsDeltaDistance rel)) = ofsDeltaDistanceLength rel.
Proof.
  intros Hrel. unfold encodeOfsDeltaDistance, ofsDeltaDistanceLength.
  destruct (rel <=? 0) eqn:E; to_prop; [by exists 0, rest; replace rel with 0 by lia; rewrite read_distance_eq|].
  replace (toUint32 rel) with rel by (symmetry; by apply Z.mod_small).
  destruct (distance_groups_spec 4 rel Hrel) as [Hv Hg]; [change (128 ^ Z.of_nat 5) with (2 ^ 35); lia|].
  revert Hv Hg. destruct (distance_groups 5 rel) as [|g gs] eqn:Egs; [done|]. intros Hv Hg.
  rewrite reverse_cons in Hv. unfold mark_groups. cbn [tail]. replace (take 1 (g :: gs)) with [g] by done.
  assert (Forall is_group (reverse gs ++ [g])) as Hr by (rewrite <- reverse_cons; by apply Forall_reverse).
  rewrite uint8_bytes.
  2: { rewrite Forall_app in Hr. destruct Hr as [Hr Hg1]. apply Forall_app. split.
       - rewrite Forall_fmap. eapply Forall_impl; [exact Hr|]. intros x Hx. apply group_bytes, Hx.
       - eapply Forall_impl; [exact Hg1|]. intros x Hx. apply group_bytes, Hx. }
  destruct (read_distance_groups (reverse gs) g (-1) rest) as (byte & buf & Eb & _ & Hread);
    [done | lia | lia |].
  exists byte, buf. rewrite <- app_assoc. split; [exact Eb|].
  replace (dist_step (-1) (Z.land byte 127)) with (Z.land byte 127) in Hread by (unfold dist_step; lia).
  rewrite Hv, length_reverse in Hread. rewrite length_app, length_fmap, length_reverse. simpl.
  split; [rewrite Hread; do 2 f_equal; lia | lia].
Qed.

(** The bytes of a written header are read as its type and its size bytes. *)
Lemma read_written_header type size pre rest :
  0 <= type < 8 -> 0 <= size < 2 ^ 31 ->
  readPackHeaderExFromBuf (pre ++ encodeObjHeader type size ++ rest) (length pre) =
    let size := encodeObjHeader type size in
    let n := Z.of_nat (length size) in
    if type =? 7 then
      if (length rest <? 20)%nat then None
      else Some (mkPackHeader type size (n + 20) (Some (bytesToHex (take 20 rest))) None)
    else if type =? 6 then
      match rest with
      | [] => None
      | byte :: rest =>
        (fun '(d, k) => mkPackHeader type size (n + (k + 1)) None (Some d))
          <$> read_distance byte (Z.land byte 127) rest
      end
    else Some (mkPackHeader type size n None None).
Proof.
  intros Ht Hs. destruct (encode_parts type size Ht Hs) as (c & E & Hty & _ & Hm & _).
  unfold readPackHeaderExFromBuf. rewrite drop_app_length, E. cbn [app]. rewrite Hty.
  rewrite size_groups_read; [done | | done].
  split; [apply Z.div_pos; lia|]. apply Z.div_lt_upper_bound; [lia|]. change (128 ^ Z.of_nat 5) with (2 ^ 35). lia.
Qed.

Lemma decode_written_size type size :
  0 <= type < 8 -> 0 <= size < 2 ^ 31 -> decodePackObjectSize (encodeObjHeader type size) = Some size.
Proof.
  intros Ht Hs. destruct (encode_parts type size Ht Hs) as (c & -> & _ & Hlow & _).
  unfold decodePackObjectSize. rewrite Hlow. pose proof (Z_div_mod_eq_full size 16) as Hdm.
  assert (0 <= size mod 16 < 16) by (by apply Z.mod_pos_bound).
  assert (0 <= size / 16) by (apply Z.div_pos; lia).
  rewrite size_groups_value; [f_equal; change (2 ^ 4) with 16; lia | | lia | lia | lia |].
  - split; [done|]. apply Z.div_lt_upper_bound; [lia|]. change (128 ^ Z.of_nat 5) with (2 ^ 35). lia.
  - change (2 ^ 4) with 16. lia.
Qed.

(** ** Properties *)

(** A pack entry header that the code writes is read back as what was
    written, wherever it stands in the buffer and whatever follows it: the type,
    the bytes of the size - which decode to the size -, the distance or the id of
    the base, and a header length that is the number of bytes written, as
    [ofsDeltaDistanceLength] announces for a distance. *)
Theorem pack_entry_roundtrip type size rel oid pre rest :
  0 <= type < 8 -> 0 <= size < 2 ^ 31 -> 0 <= rel < 2 ^ 32 -> length oid = 20%nat ->
  let size_bytes := encodeObjHeader type size in
  let base := if type =? 7 then oid else if type =? 6 then encodeOfsDeltaDistance rel else [] in
  decodePackObjectSize size_bytes = Some size /\
  Z.of_nat (length (encodeOfsDeltaDistance rel)) = ofsDeltaDistanceLength rel /\
  readPackHeaderExFromBuf (pre ++ (size_bytes ++ base) ++ rest) (length pre) =
    Some (mkPackHeader type size_bytes (Z.of_nat (length (size_bytes ++ base)))
      (if type =? 7 then Some (bytesToHex oid) else None)
      (if type =? 6 then Some rel else None)).
Proof.
  intros Ht Hs Hrel Hoid size_bytes base.
  destruct (distance_roundtrip rel rest Hrel) as (byte & buf & Eb & Hread & Hlen).
  split; [by apply decode_written_size|]. split; [done|].
  replace (Z.of_nat (length (size_bytes ++ base))) with (Z.of_nat (length size_bytes) + Z.of_nat (length base))
    by (rewrite length_app; lia).
  unfold size_bytes. rewrite <- app_assoc, read_written_header by done.
  cbv zeta. unfold base. destruct (type =? 7) eqn:E7; to_prop.
  - subst type. change (7 =? 6) with false. rewrite (proj2 (Nat.ltb_ge _ _)) by (rewrite length_app; lia).
    rewrite take_app_length' by done. by rewrite Hoid.
  - destruct (type =? 6); [|by rewrite Z.add_0_r].
    rewrite Eb, Hread, Hlen. cbn [fmap option_fmap option_map]. do 2 f_equal. lia.
Qed.

Lemma pack_entry_roundtrip_witness :
  readPackHeaderExFromBuf ([1; 2; 3] ++ (encodeObjHeader 6 300 ++ encodeOfsDeltaDistance 70000) ++ [9]) 3
  = Some (mkPackHeader 6 [236; 18] 5 None (Some 70000)).
Proof.
  refine (proj2 (proj2 (pack_entry_roundtrip 6 300 70000 (replicate 20 0) [1; 2; 3] [9] _ _ _ _)));
    [lia | lia | lia | reflexivity].
Defined.
