(* ===== verification/Delta.v ===== *)
(** * Applying a delta

    [git/object-store/delta.ts]: [applyGitDelta] rebuilds an object from its base
    and a stream of copy and insert instructions.  The output array is written
    from its start without gaps, so the model carries the part written so far.
    The second half of the file states the delta format by itself ([delta_code])
    and relates the two. *)
From S2P Require Import Prelude Bytes.

(** ** Definitions *)

(** The messages of the source, and the two [RangeError]s: of [new Uint8Array]
    on a negative length and of [set] past the end. *)
Inductive DeltaError :=
  | TruncatedVarint | BaseSizeMismatch | ResultSizeLimit | InvalidArrayLength
  | CopyOutOfBounds | InvalidOpcode | InsertOutOfBounds | OffsetOutOfBounds
  | ResultSizeMismatch | OutOfFuel.

(** The shift count of [<<] is taken modulo 32. *)
Fixpoint readVarint (out shift : Z) (delta : list Z) : option (Z * list Z) :=
  match delta with
  | [] => None
  | byte :: delta =>
    let out := Z.lor out (toInt32 (Z.shiftl (Z.land byte 127) (shift mod 32))) in
    if Z.land byte 128 =? 0 then Some (out, delta) else readVarint out (shift + 7) delta
  end.

(** One optional argument of a copy; past the end [delta[pos++]] is [undefined],
    which counts as zero. *)
Definition read_arg (opcode flag shift : Z) (delta : list Z) : Z * list Z :=
  if Z.land opcode flag =? 0 then (0, delta)
  else (toInt32 (Z.shiftl (default 0 (head delta)) shift), tail delta).

Definition copy_args (opcode : Z) (delta : list Z) : Z * Z * list Z :=
  let '(o0, delta) := read_arg opcode 1 0 delta in
  let '(o1, delta) := read_arg opcode 2 8 delta in
  let '(o2, delta) := read_arg opcode 4 16 delta in
  let '(o3, delta) := read_arg opcode 8 24 delta in
  let '(s0, delta) := read_arg opcode 16 0 delta in
  let '(s1, delta) := read_arg opcode 32 8 delta in
  let '(s2, delta) := read_arg opcode 64 16 delta in
  let copyOffset := Z.lor (Z.lor (Z.lor o0 o1) o2) o3 in
  let copySize := Z.lor (Z.lor s0 s1) s2 in
  (copyOffset, if copySize =? 0 then 65536 else copySize, delta).

Definition len {A} (l : list A) : Z := Z.of_nat (length l).

Definition subarray (l : list Z) (from size : Z) : list Z := take (Z.to_nat size) (drop (Z.to_nat from) l).

(** The instruction loop.  Every turn consumes a byte, so the length of the stream
    is enough fuel ([applyGitDelta_fuel]). *)
Fixpoint run_delta (fuel : nat) (base : list Z) (resultSize : Z) (out delta : list Z) :
    DeltaError + list Z :=
  match delta with
  | [] => if len out =? resultSize then inr out else inl ResultSizeMismatch
  | opcode :: delta =>
    match fuel with
    | O => inl OutOfFuel
    | S fuel =>
      if negb (Z.land opcode 128 =? 0) then
        let '(copyOffset, copySize, delta) := copy_args opcode delta in
        if (copyOffset <? 0) || (len base <? copyOffset + copySize) then inl CopyOutOfBounds
        else if resultSize <? len out + copySize then inl OffsetOutOfBounds
        else run_delta fuel base resultSize (out ++ subarray base copyOffset copySize) delta
      else if opcode =? 0 then inl InvalidOpcode
      else if len delta <? opcode then inl InsertOutOfBounds
      else if resultSize <? len out + opcode then inl OffsetOutOfBounds
      else run_delta fuel base resultSize (out ++ subarray delta 0 opcode) (drop (Z.to_nat opcode) delta)
    end
  end.

Definition applyGitDelta (base delta : list Z) (maxResultBytes : option Z) : DeltaError + list Z :=
  match readVarint 0 0 delta with
  | None => inl TruncatedVarint
  | Some (baseSize, delta) =>
    match readVarint 0 0 delta with
    | None => inl TruncatedVarint
    | Some (resultSize, delta) =>
      if negb (baseSize =? len base) then inl BaseSizeMismatch
      else if match maxResultBytes with Some limit => limit <? resultSize | None => false end
      then inl ResultSizeLimit
      else if resultSize <? 0 then inl InvalidArrayLength
      else run_delta (length delta) base resultSize [] delta
    end
  end.

(** ** The format *)

Inductive instr := Copy (offset size : Z) | Insert (data : list Z).

Definition produce (base : list Z) (i : instr) : list Z :=
  match i with Copy offset size => subarray base offset size | Insert data => data end.

Definition in_bounds (base : list Z) (i : instr) : Prop :=
  match i with Copy offset size => offset + size <= len base | Insert _ => True end.

(** The arguments of a copy are seven optional bytes, four for the offset and
    three for the size, the low one first; the opcode says which are present. *)
Definition present (args : list (option Z)) : Z :=
  foldr (fun a acc => (if decide (is_Some a) then 1 else 0) + 2 * acc) 0 args.

Definition value (args : list (option Z)) : Z := foldr (fun a acc => default 0 a + 256 * acc) 0 args.

Definition copy_size (n : Z) : Z := if n =? 0 then 65536 else n.

Inductive instr_code : list Z -> instr -> Prop :=
  | copy_code offs sizes :
      length offs = 4%nat -> length sizes = 3%nat -> is_bytes (omap id (offs ++ sizes)) ->
      instr_code (128 + present (offs ++ sizes) :: omap id (offs ++ sizes))
        (Copy (value offs) (copy_size (value sizes)))
  | insert_code data :
      1 <= len data <= 127 -> instr_code (len data :: data) (Insert data).

(** A stream of instructions; the last one may be a copy that is cut short, which
    reads as if the missing bytes were zero. *)
Inductive delta_code : list Z -> list instr -> Prop :=
  | delta_nil : delta_code [] []
  | delta_cons c i rest l : instr_code c i -> delta_code rest l -> delta_code (c ++ rest) (i :: l)
  | delta_cut c args k offset size :
      instr_code (c :: args ++ replicate (S k) 0) (Copy offset size) ->
      delta_code (c :: args) [Copy offset size].

(** A size: groups of seven bits, the low one first. *)
Inductive varint_code : Z -> list Z -> Prop :=
  | varint_last n : 0 <= n < 128 -> varint_code n [n]
  | varint_more g n bytes : 0 <= g < 128 -> varint_code n bytes -> varint_code (g + 128 * n) (g + 128 :: bytes).

(** ** Lemmas *)

Example delta_example :
  applyGitDelta [10; 20; 30; 40] [4; 5; 2; 7; 8; 145; 1; 3] None = inr [7; 8; 20; 30; 40].
Proof. reflexivity. Qed.

(** The size of this copy is announced in two bytes of which the second is missing. *)
Example delta_cut_example : applyGitDelta [10; 20; 30; 40] [4; 2; 176; 2] None = inr [10; 20].
Proof. reflexivity. Qed.

(** *** Bits *)

Lemma low_shift b n : is_byte b -> 0 <= n <= 16 -> toInt32 (Z.shiftl b n) = b * 2 ^ n.
Proof.
  intros [H1 H2] Hn. rewrite Z.shiftl_mul_pow2 by lia. apply toInt32_small.
  assert (2 ^ n <= 2 ^ 16) by (apply Z.pow_le_mono_r; lia). change (2 ^ 16) with 65536 in *.
  assert (0 < 2 ^ n) by (apply Z.pow_pos_nonneg; lia). nia.
Qed.

(** The top byte of a signed word. *)
Lemma top_shift b : is_byte b ->
  toInt32 (Z.shiftl b 24) = (if b <? 128 then b else b - 256) * 2 ^ 24.
Proof.
  intros Hb. apply Z.eqb_eq, (check_below 256
    (fun b => toInt32 (Z.shiftl b 24) =? (if b <? 128 then b else b - 256) * 2 ^ 24)); [|exact Hb].
  vm_compute. reflexivity.
Qed.

Lemma lor_bytes a b c d : is_byte a -> is_byte b -> is_byte c ->
  Z.lor (Z.lor (Z.lor a (b * 2 ^ 8)) (c * 2 ^ 16)) (d * 2 ^ 24)
  = a + b * 2 ^ 8 + c * 2 ^ 16 + d * 2 ^ 24.
Proof.
  intros [] [] []. rewrite (lor_shift a b 8), (lor_shift _ c 16), (lor_shift _ d 24); lia.
Qed.

(** *** Reading the arguments of a copy *)

(** The same reads, argument by argument. *)
Fixpoint read_flags (flags : list bool) (delta : list Z) : list (option Z) * list Z :=
  match flags with
  | [] => ([], delta)
  | false :: flags => let '(args, rest) := read_flags flags delta in (None :: args, rest)
  | true :: flags =>
    let '(args, rest) := read_flags flags (tail delta) in (Some (default 0 (head delta)) :: args, rest)
  end.

Definition flags_of (opcode : Z) : list bool :=
  (fun flag => negb (Z.land opcode flag =? 0)) <$> [1; 2; 4; 8; 16; 32; 64].

Lemma read_flags_sound flags delta args rest :
  is_bytes delta -> read_flags flags delta = (args, rest) ->
  (fun a => bool_decide (is_Some a)) <$> args = flags /\ is_bytes (omap id args) /\
  exists k, delta ++ replicate k 0 = omap id args ++ rest /\ (k <> 0%nat -> rest = []).
Proof.
  revert delta args. induction flags as [|f flags IH]; intros delta args Hb; simpl.
  - intros [= <- <-]. split_and!; [done | constructor | exists 0%nat; by rewrite app_nil_r].
  - destruct f.
    + destruct (read_flags flags (tail delta)) as [args' rest'] eqn:E. intros [= <- <-].
      assert (is_bytes (tail delta)) as Ht by (destruct Hb; [constructor | done]).
      destruct (IH _ _ Ht E) as (<- & Hargs & k & Hk & Hcut). split_and!; [done | |].
      * constructor; [|exact Hargs]. destruct Hb; [unfold is_byte; simpl; lia | done].
      * destruct delta as [|b delta]; simpl in *.
        -- exists (S k). simpl. rewrite Hk. split; [done|]. intros _.
           destruct k as [|k]; [|by apply Hcut]. by destruct (omap id args').
        -- exists k. by rewrite Hk.
    + destruct (read_flags flags delta) as [args' rest'] eqn:E. intros [= <- <-].
      destruct (IH _ _ Hb E) as (<- & Hargs & Hk). done.
Qed.

Lemma read_flags_complete args delta k rest :
  delta ++ replicate k 0 = omap id args ++ rest -> (k <> 0%nat -> rest = []) ->
  read_flags ((fun a => bool_decide (is_Some a)) <$> args) delta = (args, rest).
Proof.
  revert delta k. induction args as [|a args IH]; intros delta k E Hcut; csimpl.
  - destruct k as [|k]; [by rewrite app_nil_r in E; simpl in E; subst|].
    rewrite Hcut in E by done. simpl in E. destruct delta; [by rewrite Hcut | done].
  - destruct a as [b|]; csimpl in *.
    + destruct delta as [|b' delta]; csimpl in *.
      * destruct k as [|k]; [done|]. injection E as <- E.
        rewrite (IH [] k) by (simpl; auto). done.
      * injection E as -> E. by rewrite (IH delta k).
    + by rewrite (IH delta k).
Qed.

Lemma read_arg_eq opcode flag shift delta :
  is_bytes delta ->
  exists o rest, is_bytes rest /\ is_byte (default 0 o) /\
    read_arg opcode flag shift delta = (toInt32 (Z.shiftl (default 0 o) shift), rest) /\
    forall flags, read_flags (negb (Z.land opcode flag =? 0) :: flags) delta
      = let '(args, r) := read_flags flags rest in (o :: args, r).
Proof.
  intros Hb. unfold read_arg. destruct (Z.land opcode flag =? 0); simpl.
  - exists None, delta. split_and!; try done. simpl. by rewrite Z.shiftl_0_l.
  - exists (Some (default 0 (head delta))), (tail delta).
    split_and!; try done; destruct Hb; simpl; try done; constructor.
Qed.

(** The arguments in the terms of the code. *)
Lemma copy_args_read opcode delta :
  is_bytes delta ->
  exists o0 o1 o2 o3 s0 s1 s2 rest,
    read_flags (flags_of opcode) delta = ([o0; o1; o2; o3; s0; s1; s2], rest) /\
    copy_args opcode delta =
      (value [o0; o1; o2; o3] - (if default 0 o3 <? 128 then 0 else 2 ^ 32),
       copy_size (value [s0; s1; s2]), rest) /\ is_byte (default 0 o3).
Proof.
  intros Hb. unfold copy_args, flags_of. cbn [fmap list_fmap List.map].
  destruct (read_arg_eq opcode 1 0 delta Hb) as (o0 & d0 & H0 & B0 & -> & R0).
  destruct (read_arg_eq opcode 2 8 d0 H0) as (o1 & d1 & H1 & B1 & -> & R1).
  destruct (read_arg_eq opcode 4 16 d1 H1) as (o2 & d2 & H2 & B2 & -> & R2).
  destruct (read_arg_eq opcode 8 24 d2 H2) as (o3 & d3 & H3 & B3 & -> & R3).
  destruct (read_arg_eq opcode 16 0 d3 H3) as (s0 & d4 & H4 & B4 & -> & R4).
  destruct (read_arg_eq opcode 32 8 d4 H4) as (s1 & d5 & H5 & B5 & -> & R5).
  destruct (read_arg_eq opcode 64 16 d5 H5) as (s2 & d6 & H6 & B6 & -> & R6).
  exists o0, o1, o2, o3, s0, s1, s2, d6. rewrite R0, R1, R2, R3, R4, R5, R6. split_and!; [done | | done].
  rewrite top_shift, !low_shift by (done || lia). rewrite lor_bytes by (unfold is_byte in *; lia).
  unfold copy_size. unfold is_byte in *. simpl.
  rewrite (lor_shift _ _ 8), (lor_shift _ _ 16) by lia.
  apply (f_equal2 pair); [apply (f_equal2 pair) | done].
  - destruct (_ <? 128); lia.
  - change (copy_size (default 0 s0 * 1 + default 0 s1 * 2 ^ 8 + default 0 s2 * 2 ^ 16)
      = copy_size (value [s0; s1; s2])). f_equal. simpl. lia.
Qed.

(** *** Opcodes *)

Definition marks (flags : list bool) : Z := foldr (fun (f : bool) acc => (if f then 1 else 0) + 2 * acc) 0 flags.

Lemma present_marks args : present args = marks ((fun a => bool_decide (is_Some a)) <$> args).
Proof. induction args as [|[b|] args IH]; csimpl; [done | |]; by rewrite IH. Qed.

Lemma opcode_marks opcode :
  is_byte opcode -> Z.land opcode 128 <> 0 -> opcode = 128 + marks (flags_of opcode).
Proof.
  intros Hb H. pose proof (check_below 256
    (fun opcode => (Z.land opcode 128 =? 0) || (opcode =? 128 + marks (flags_of opcode)))
    ltac:(vm_compute; reflexivity) opcode Hb) as C. simpl in C.
  apply orb_true_iff in C as [C|C]; by apply Z.eqb_eq in C.
Qed.

Lemma marks_opcode flags : length flags = 7%nat ->
  flags_of (128 + marks flags) = flags /\ Z.land (128 + marks flags) 128 <> 0 /\ 0 <= marks flags < 128.
Proof.
  intros H. do 8 (destruct flags as [|[|] flags]; try discriminate H); by vm_compute.
Qed.

Lemma value_bounds args : is_bytes (omap id args) -> 0 <= value args < 256 ^ len args.
Proof.
  unfold len. induction args as [|a args IH]; csimpl; [lia|]. rewrite Nat2Z.inj_succ, Z.pow_succ_r by lia.
  destruct a as [b|]; simpl.
  - intros H. destruct (Forall_inv H). apply Forall_inv_tail, IH in H. unfold value in *. lia.
  - intros H%IH. unfold value in *. lia.
Qed.

Lemma copy_size_pos n : 0 <= n -> 0 < copy_size n.
Proof. unfold copy_size. destruct (n =? 0) eqn:E; to_prop; lia. Qed.

(** *** One turn of the loop *)

Lemma run_copy fuel base n out offs sizes delta k rest :
  is_bytes delta -> delta ++ replicate k 0 = omap id (offs ++ sizes) ++ rest -> (k <> 0%nat -> rest = []) ->
  length offs = 4%nat -> length sizes = 3%nat -> len base < 2 ^ 31 ->
  let size := copy_size (value sizes) in
  run_delta (S fuel) base n out (128 + present (offs ++ sizes) :: delta) =
    if len base <? value offs + size then inl CopyOutOfBounds
    else if n <? len out + size then inl OffsetOutOfBounds
    else run_delta fuel base n (out ++ subarray base (value offs) size) rest.
Proof.
  intros Hb E Hcut Ho Hs Hbase size.
  destruct (marks_opcode ((fun a => bool_decide (is_Some a)) <$> (offs ++ sizes))) as (Hf & H128 & Hm).
  { by rewrite length_fmap, length_app, Ho, Hs. }
  rewrite <- present_marks in *.
  cbn [run_delta]. rewrite (proj2 (Z.eqb_neq _ _) H128). cbn [negb].
  destruct (copy_args_read (128 + present (offs ++ sizes)) delta Hb)
    as (o0 & o1 & o2 & o3 & s0 & s1 & s2 & r & Hread & -> & Hb3).
  assert (read_flags (flags_of (128 + present (offs ++ sizes))) delta = (offs ++ sizes, rest)) as Hc.
  { rewrite Hf. by apply (read_flags_complete _ _ k). }
  rewrite Hc in Hread. destruct offs as [|a0 [|a1 [|a2 [|a3 [|]]]]]; try discriminate Ho.
  destruct sizes as [|b0 [|b1 [|b2 [|]]]]; try discriminate Hs.
  injection Hread as <- <- <- <- <- <- <- <-. fold size.
  assert (is_bytes (omap id ([a0; a1; a2] ++ [a3; b0; b1; b2]))) as Hargs.
  { change ([a0; a1; a2] ++ [a3; b0; b1; b2]) with ([a0; a1; a2; a3] ++ [b0; b1; b2]).
    assert (is_bytes (delta ++ replicate k 0)) as Hz.
    { apply Forall_app. split; [done|]. apply Forall_replicate. unfold is_byte. lia. }
    rewrite E, Forall_app in Hz. by destruct Hz. }
  rewrite omap_app, Forall_app in Hargs. destruct Hargs as [Hlow%value_bounds Hsizes].
  change [a3; b0; b1; b2] with ([a3] ++ [b0; b1; b2]) in Hsizes.
  rewrite omap_app, Forall_app in Hsizes. destruct Hsizes as [_ [Hsizes%copy_size_pos _]%value_bounds].
  fold size in Hsizes. change (256 ^ len [a0; a1; a2]) with (2 ^ 24) in Hlow.
  assert (value [a0; a1; a2; a3] = value [a0; a1; a2] + 2 ^ 24 * default 0 a3) as Hv by (simpl; lia).
  unfold is_byte in Hb3. destruct (default 0 a3 <? 128) eqn:E3; to_prop.
  - rewrite Z.sub_0_r. by rewrite (proj2 (Z.ltb_ge _ 0)) by lia.
  - rewrite (proj2 (Z.ltb_lt _ 0)) by lia. cbn [orb].
    by rewrite (proj2 (Z.ltb_lt (len base) (_ + size))) by lia.
Qed.

Lemma run_insert fuel base n out data rest :
  1 <= len data <= 127 ->
  run_delta (S fuel) base n out (len data :: data ++ rest) =
    if n <? len out + len data then inl OffsetOutOfBounds
    else run_delta fuel base n (out ++ data) rest.
Proof.
  intros Hd. cbn [run_delta].
  assert ((Z.land (len data) 128 =? 0) = true) as ->.
  { apply (check_below 128 (fun b => Z.land b 128 =? 0)); [by vm_compute | lia]. }
  cbn [negb]. rewrite (proj2 (Z.eqb_neq _ _)) by lia.
  rewrite (proj2 (Z.ltb_ge (len (data ++ rest)) _)) by (unfold len; rewrite length_app; lia).
  unfold subarray, len. rewrite drop_0, Nat2Z.id, take_app_length, drop_app_length. done.
Qed.

Lemma len_subarray l from size : 0 <= from -> 0 <= size -> from + size <= len l -> len (subarray l from size) = size.
Proof. unfold len, subarray. intros. rewrite length_take, length_drop. lia. Qed.

Lemma len_app {A} (l r : list A) : len (l ++ r) = len l + len r.
Proof. unfold len. rewrite length_app. lia. Qed.

(** A byte without the top bit is an insert. *)
Lemma insert_opcode opcode : is_byte opcode -> Z.land opcode 128 = 0 -> opcode < 128.
Proof.
  intros Hb E. pose proof (check_below 256 (fun b => negb (Z.land b 128 =? 0) || (b <? 128))
    ltac:(vm_compute; reflexivity) opcode Hb) as C. simpl in C. rewrite E in C. by apply Z.ltb_lt in C.
Qed.

(** An instruction of the format, complete or cut short, carried out. *)
Lemma run_instr fuel base n out c delta k i rest :
  instr_code (c :: delta) i -> forall stream, is_bytes stream ->
  stream ++ replicate k 0 = delta ++ rest -> (k <> 0%nat -> rest = [] /\ 128 <= c) ->
  len base < 2 ^ 31 -> in_bounds base i -> len out + len (produce base i) <= n ->
  run_delta (S fuel) base n out (c :: stream) = run_delta fuel base n (out ++ produce base i) rest.
Proof.
  intros Hi stream Hb E Hcut Hbase Hin Hn. inversion Hi as [offs sizes Ho Hs Hargs|data Hd]; subst.
  - assert (0 <= value offs /\ 0 < copy_size (value sizes)) as [Hv Hsize].
    { rewrite omap_app, Forall_app in Hargs. destruct Hargs as [[]%value_bounds [? _]%value_bounds].
      split; [done | by apply copy_size_pos]. }
    simpl in Hin, Hn. rewrite (run_copy _ _ _ _ offs sizes stream k rest); [| done | done | tauto | done..].
    rewrite len_subarray in Hn by lia.
    rewrite (proj2 (Z.ltb_ge (len base) _)) by lia. by rewrite (proj2 (Z.ltb_ge n _)) by lia.
  - destruct k as [|k]; [|unfold len in *; lia]. rewrite app_nil_r in E. subst stream.
    cbn [produce] in *. rewrite run_insert by done. by rewrite (proj2 (Z.ltb_ge n _)) by lia.
Qed.

(** *** Soundness *)

(** What the first byte of a stream begins. *)
Lemma run_first fuel base n out opcode stream res :
  is_bytes (opcode :: stream) -> len base < 2 ^ 31 ->
  run_delta (S fuel) base n out (opcode :: stream) = inr res ->
  exists delta i k rest,
    stream ++ replicate k 0 = delta ++ rest /\ instr_code (opcode :: delta) i /\
    (k <> 0%nat -> rest = [] /\ exists o s, i = Copy o s) /\
    in_bounds base i /\ run_delta fuel base n (out ++ produce base i) rest = inr res.
Proof.
  intros Hb Hbase. apply Forall_cons_1 in Hb as [Ho Hd].
  destruct (decide (Z.land opcode 128 = 0)) as [E|E].
  - cbn [run_delta]. rewrite E. cbn [negb Z.eqb]. destruct (opcode =? 0) eqn:E0; [done|].
    destruct (len stream <? opcode) eqn:E1; [done|]. destruct (n <? _); [done|]. intros Hr. to_prop.
    assert (len (take (Z.to_nat opcode) stream) = opcode) as Hl
      by (unfold len in *; rewrite length_take; unfold is_byte in *; lia).
    exists (take (Z.to_nat opcode) stream), (Insert (take (Z.to_nat opcode) stream)), 0%nat,
      (drop (Z.to_nat opcode) stream). split_and!; try done.
    + by rewrite app_nil_r, take_drop.
    + rewrite <- Hl at 1. constructor. rewrite Hl. pose proof (insert_opcode opcode Ho E). destruct Ho. lia.
  - destruct (copy_args_read opcode stream Hd) as (o0 & o1 & o2 & o3 & s0 & s1 & s2 & rest & Hread & _ & _).
    destruct (read_flags_sound _ _ _ _ Hd Hread) as (Hf & Hargs & k & Hk & Hcut).
    pose proof (opcode_marks opcode Ho E) as Hm. rewrite <- Hf, <- present_marks in Hm.
    change [o0; o1; o2; o3; s0; s1; s2] with ([o0; o1; o2; o3] ++ [s0; s1; s2]) in *.
    rewrite Hm at 1. rewrite (run_copy _ _ _ _ [o0; o1; o2; o3] [s0; s1; s2] stream k rest) by done.
    destruct (len base <? _) eqn:E1; [done|]. destruct (n <? _); [done|]. intros Hr. to_prop.
    exists (omap id ([o0; o1; o2; o3] ++ [s0; s1; s2])), (Copy (value [o0; o1; o2; o3]) (copy_size (value [s0; s1; s2]))), k, rest.
    split_and!; [exact Hk | | | | exact Hr].
    + rewrite Hm. by constructor.
    + eauto.
    + done.
Qed.

Lemma run_delta_sound fuel base n out stream res :
  is_bytes stream -> len base < 2 ^ 31 -> run_delta fuel base n out stream = inr res ->
  exists l, delta_code stream l /\ Forall (in_bounds base) l /\
    res = out ++ List.concat (produce base <$> l) /\ len res = n.
Proof.
  revert out stream. induction fuel as [|fuel IH]; intros out stream Hb Hbase.
  1: destruct stream; [|done].
  2: destruct stream as [|opcode stream].
  1,2: simpl; destruct (len out =? n) eqn:E; [|done]; intros [= <-]; to_prop; exists [];
    rewrite app_nil_r; split_and!; (done || constructor).
  intros (delta & i & k & rest & Hk & Hi & Hcut & Hin & Hr)%run_first; [|done..].
  destruct k as [|k].
  - rewrite app_nil_r in Hk. subst stream. destruct (IH (out ++ produce base i) rest) as (l & Hl & Hin' & -> & Hn);
      [|done|done|].
    { apply Forall_cons_1 in Hb as [_ Hb]. by apply Forall_app in Hb as [_ Hb]. }
    exists (i :: l). split_and!; [|by constructor|by csimpl; rewrite <- app_assoc|done].
    change (opcode :: delta ++ rest) with ((opcode :: delta) ++ rest). by constructor.
  - destruct Hcut as [-> (o & sz & ->)]; [done|]. rewrite app_nil_r in Hk. exists [Copy o sz].
    destruct fuel; simpl in Hr; (destruct (len _ =? n) eqn:E; [|done]); injection Hr as <-; to_prop;
      (split_and!; [by apply (delta_cut _ _ k); rewrite Hk | by repeat constructor | by csimpl; rewrite app_nil_r | done]).
Qed.

(** *** Completeness *)

Lemma run_delta_complete stream l :
  delta_code stream l -> forall fuel base n out, is_bytes stream -> len base < 2 ^ 31 ->
  Forall (in_bounds base) l -> len (out ++ List.concat (produce base <$> l)) = n ->
  (length stream <= fuel)%nat ->
  run_delta fuel base n out stream = inr (out ++ List.concat (produce base <$> l)).
Proof.
  induction 1 as [|c i rest l Hi Hl IH|c args k o s Hi]; intros fuel base n out Hb Hbase Hin Hn Hf.
  - destruct fuel; simpl in *; rewrite app_nil_r in *; by rewrite Hn, Z.eqb_refl.
  - apply Forall_cons_1 in Hin as [Hi1 Hin]. rewrite Forall_app in Hb. destruct Hb as [Hc Hrest].
    assert (exists b c', c = b :: c') as (b & c' & ->) by (inversion Hi; eauto).
    destruct fuel as [|fuel]; [simpl in Hf; lia|]. simpl in Hf. rewrite length_app in Hf. csimpl in Hn.
    rewrite app_assoc in Hn. cbn [app]. apply Forall_cons_1 in Hc as [_ Hc].
    rewrite (run_instr fuel base n out b c' 0 i rest); [| done | by apply Forall_app | by rewrite app_nil_r | done | done | done |].
    + rewrite IH; [csimpl; by rewrite <- app_assoc | done | done | done | done | lia].
    + rewrite len_app in Hn. rewrite len_app in Hn. unfold len in *. lia.
  - apply Forall_cons_1 in Hin as [Hi1 _]. apply Forall_cons_1 in Hb as [_ Hb].
    destruct fuel as [|fuel]; [simpl in Hf; lia|]. csimpl in Hn. rewrite app_nil_r in Hn.
    rewrite (run_instr fuel base n out c _ (S k) _ [] Hi args); [| done | by rewrite app_nil_r | | done | done |].
    + csimpl. rewrite app_nil_r. destruct fuel; cbn [run_delta]; by rewrite Hn, Z.eqb_refl.
    + intros _. split; [done|]. inversion Hi as [offs sizes Ho Hs|]; subst.
      destruct (marks_opcode ((fun a => bool_decide (is_Some a)) <$> (offs ++ sizes))) as (_ & _ & Hm).
      { by rewrite length_fmap, length_app, Ho, Hs. }
      rewrite <- present_marks in Hm. lia.
    + rewrite len_app in Hn. cbn [produce] in *. lia.
Qed.

(** *** The sizes in front *)

Lemma varint_nonneg n bytes : varint_code n bytes -> 0 <= n.
Proof. induction 1; lia. Qed.

Lemma varint_group g out shift :
  0 <= shift < 32 -> 0 <= g -> 0 <= out < 2 ^ shift -> out + g * 2 ^ shift < 2 ^ 31 ->
  Z.lor out (toInt32 (Z.shiftl g (shift mod 32))) = out + g * 2 ^ shift.
Proof.
  intros Hs Hg Ho Hv. rewrite Z.mod_small, Z.shiftl_mul_pow2 by lia.
  assert (0 <= g * 2 ^ shift) by (apply Z.mul_nonneg_nonneg; lia).
  rewrite toInt32_small by lia. apply lor_shift; lia.
Qed.

Lemma readVarint_code n bytes :
  varint_code n bytes -> forall out shift rest,
  0 <= shift -> shift + 7 * len bytes <= 35 -> 0 <= out < 2 ^ shift -> out + n * 2 ^ shift < 2 ^ 31 ->
  readVarint out shift (bytes ++ rest) = Some (out + n * 2 ^ shift, rest).
Proof.
  unfold len. induction 1 as [n Hn|g n bytes Hg Hc IH]; intros out shift rest Hs Hl Ho Hv;
    cbn [app readVarint]; simpl length in Hl.
  - assert (Z.land n 127 = n /\ Z.land n 128 = 0) as [-> ->].
    { rewrite land_127, Z.mod_small by done. split; [done|].
      by apply Z.eqb_eq, (check_below 128 (fun b => Z.land b 128 =? 0)); [vm_compute|]. }
    by rewrite (varint_group n) by (nia || lia).
  - assert (0 <= n /\ (1 <= length bytes)%nat) as [Hn Hb]
      by (split; [exact (varint_nonneg _ _ Hc) | inversion Hc; subst; simpl; lia]).
    assert (Z.land (g + 128) 127 = g /\ (Z.land (g + 128) 128 =? 0) = false) as [-> ->].
    { pose proof (check_below 128 (fun g => (Z.land (g + 128) 127 =? g) && negb (Z.land (g + 128) 128 =? 0))
        ltac:(vm_compute; reflexivity) g Hg) as C. simpl in C.
      apply andb_true_iff in C as [C1%Z.eqb_eq C2%negb_true_iff]. done. }
    assert (0 < 2 ^ shift) by (by apply Z.pow_pos_nonneg).
    rewrite (varint_group g) by (nia || lia).
    assert (2 ^ (shift + 7) = 128 * 2 ^ shift) as E by (rewrite Z.pow_add_r by lia; lia).
    rewrite IH; [do 2 f_equal; rewrite E; lia | lia | lia | rewrite E; nia | rewrite E; nia].
Qed.

(** *** The loop as a whole *)

Lemma run_delta_iff base n stream result :
  is_bytes stream -> len base < 2 ^ 31 ->
  run_delta (length stream) base n [] stream = inr result <->
    exists l, delta_code stream l /\ Forall (in_bounds base) l /\
      result = List.concat (produce base <$> l) /\ len result = n.
Proof.
  intros Hb Hbase. split; [by apply run_delta_sound|].
  intros (l & Hl & Hin & -> & Hn). by apply (run_delta_complete stream l Hl (length stream) base n []).
Qed.

Lemma copy_args_length opcode delta : is_bytes delta -> (length (copy_args opcode delta).2 <= length delta)%nat.
Proof.
  intros Hb. unfold copy_args.
  assert (forall d flag shift, (length (read_arg opcode flag shift d).2 <= length d)%nat) as H.
  { intros d flag shift. unfold read_arg. destruct (_ =? 0); [done|]. destruct d; simpl; lia. }
  repeat match goal with |- context [read_arg opcode ?f ?s ?d] =>
    pose proof (H d f s); destruct (read_arg opcode f s d) as [? ?]; simpl in * end. lia.
Qed.

Lemma run_delta_fuel fuel base n out stream :
  is_bytes stream -> (length stream <= fuel)%nat -> run_delta fuel base n out stream <> inl OutOfFuel.
Proof.
  revert out stream. induction fuel as [|fuel IH]; intros out stream Hb Hf.
  1: destruct stream; [|simpl in Hf; lia]. 2: destruct stream as [|opcode stream].
  1,2: simpl; by destruct (_ =? _).
  simpl in Hf. apply Forall_cons_1 in Hb as [_ Hb]. cbn [run_delta]. destruct (negb _).
  - pose proof (copy_args_length opcode stream Hb) as Hl.
    destruct (copy_args_read opcode stream Hb) as (o0 & o1 & o2 & o3 & s0 & s1 & s2 & r & Hread & E & _).
    destruct (copy_args opcode stream) as [[o s] rest]. simpl in Hl. injection E as _ _ ->.
    destruct (_ || _); [done|]. destruct (_ <? _); [done|]. apply IH; [|lia].
    destruct (read_flags_sound _ _ _ _ Hb Hread) as (_ & _ & k & Hk & Hcut).
    destruct k as [|k]; [|rewrite Hcut by done; constructor]. rewrite app_nil_r in Hk.
    rewrite Hk in Hb. by apply Forall_app in Hb as [_ Hb].
  - destruct (_ =? 0); [done|]. destruct (_ <? _); [done|]. destruct (_ <? _); [done|].
    apply IH; [by apply Forall_drop | rewrite length_drop; lia].
Qed.

(** ** Properties *)


