(* ===== verification/PackIndex.v ===== *)
(** * The pack index

    [git/pack/indexer/writeIdx.ts], the entry table of
    [git/pack/indexer/types.ts] and [git/object-store/idxView.ts]: the index file
    of a pack is written, parsed into a view and searched - for an object id by
    its name table, for a pack offset by the sorted offsets.  The cache of views is in
    [ByteCache].  SHA-1 is a parameter. *)
From S2P Require Import Prelude Text Bytes.
From Stdlib Require String.

(** ** Definitions *)

Record PackEntryTable := mkTable {
  tbl_count : nat;
  tbl_offsets : list Z;
  tbl_types : list Z;
  tbl_objectTypes : list Z;
  tbl_headerLens : list Z;
  tbl_spanEnds : list Z;
  tbl_crc32s : list Z;
  tbl_oids : list Z;
  tbl_decompressedSizes : list Z;
  tbl_ofsBaseOffsets : list Z;
  tbl_resolved : list Z }.

Definition slice (l : list Z) (from n : nat) : list Z := take n (drop from l).

(** The first difference of two names of the same length, or zero. *)
Fixpoint compare_bytes (l r : list Z) : Z :=
  match l, r with
  | a :: l, b :: r => let diff := a - b in if negb (diff =? 0) then diff else compare_bytes l r
  | _, _ => 0
  end.

(** The twenty bytes of a name at a position of a name table. *)
Definition name_at (names : list Z) (from : nat) : list Z := byte_at names <$> seq from 20.

Definition compareOids (oids : list Z) (a b : nat) : Z := compare_bytes (name_at oids a) (name_at oids b).

(** [f(x, y) || a - b < 0]. *)
Definition oid_before (oids : list Z) (a b : nat) : bool :=
  let c := compareOids oids (a * 20) (b * 20) in
  if c =? 0 then Z.of_nat a - Z.of_nat b <? 0 else c <? 0.

Definition buildOidSortedEntryIndices (table : PackEntryTable) (objectCount : nat) : list nat :=
  js_sort (oid_before (tbl_oids table)) (seq 0 objectCount).

(** *** Writing *)

Definition be32s (words : list Z) : list Z := List.concat (be32 <$> words).

(** How many names begin with each byte, then with each byte or a lower one. *)
Definition first_byte_buckets (firsts : list Z) : list Z :=
  foldl (fun buckets first => alter Z.succ (Z.to_nat first) buckets) (replicate 256 0) firsts.

Fixpoint cumulate (cumulative : Z) (buckets : list Z) : list Z :=
  match buckets with
  | [] => []
  | b :: buckets => cumulative + b :: cumulate (cumulative + b) buckets
  end.

(** The words of the 32-bit offset table and those of the 64-bit table. *)
Fixpoint offset_words (offsets : list Z) (largeIdx : Z) : list Z * list Z :=
  match offsets with
  | [] => ([], [])
  | off :: offsets =>
    if 2 ^ 31 <=? off then
      let '(small, large) := offset_words offsets (largeIdx + 1) in
      (Z.lor (toInt32 (2 ^ 31)) largeIdx :: small, 0 :: off :: large)
    else
      let '(small, large) := offset_words offsets largeIdx in
      (off :: small, large)
  end.

Definition IDX_MAGIC : list Z := [255; 116; 79; 99].

Section Write.
Context (sha1 : list Z -> list Z).

(** The buffer holds its sections one after another; its size, computed
    beforehand, is the sum of theirs. *)
Definition writeIdxV2 (table : PackEntryTable) (objectCount : nat) (packChecksum : list Z) : list Z :=
  let sortedIndices := buildOidSortedEntryIndices table objectCount in
  let buckets := first_byte_buckets ((fun idx => byte_at (tbl_oids table) (idx * 20)) <$> sortedIndices) in
  let '(small, large) := offset_words ((fun idx => byte_at (tbl_offsets table) idx) <$> sortedIndices) 0 in
  let buf :=
    IDX_MAGIC ++ be32 2 ++
    be32s (cumulate 0 buckets) ++
    List.concat ((fun idx => slice (tbl_oids table) (idx * 20) 20) <$> sortedIndices) ++
    be32s ((fun idx => byte_at (tbl_crc32s table) idx) <$> sortedIndices) ++
    be32s small ++ be32s large ++ packChecksum in
  buf ++ sha1 buf.
End Write.

(** *** Parsing *)

Record IdxView := mkIdxView {
  iv_packKey : string;
  iv_count : Z;
  iv_fanout : list Z;
  iv_rawNames : list Z;
  iv_offsets : list Z;
  iv_nextOffsetByIndex : list Z;
  iv_sortedOffsets : list Z;
  iv_sortedOffsetIndices : list nat;
  iv_packSize : Z;
  iv_packChecksum : list Z;
  iv_idxChecksum : list Z }.

(** The exceptions of the parser; [undefined] is [inr None]. *)
Inductive IdxError := UnsupportedPackSize | UnsafeOffset.

Definition IDX_TRAILER_BYTES : Z := 40.

Definition u32_at (buf : list Z) (pos : Z) : Z := getUint32 buf (Z.to_nat pos).

Definition readUint64AsNumber (buf : list Z) (pos : Z) : IdxError + Z :=
  let value := u32_at buf pos * 2 ^ 32 + u32_at buf (pos + 4) in
  if is_safe value then inr value else inl UnsafeOffset.

(** The loop over the offset table. *)
Fixpoint read_offsets (buf : list Z) (pos largeOffsetsStart largeOffsetsLimit : Z) (count : nat) :
    IdxError + option (list Z) :=
  match count with
  | O => inr (Some [])
  | S count =>
    let u32 := u32_at buf pos in
    let continue v :=
      match read_offsets buf (pos + 4) largeOffsetsStart largeOffsetsLimit count with
      | inr (Some vs) => inr (Some (v :: vs))
      | r => r
      end in
    if negb (Z.land u32 (2 ^ 31) =? 0) then
      let largeOffsetPos := largeOffsetsStart + Z.land u32 (2 ^ 31 - 1) * 8 in
      if largeOffsetsLimit <? largeOffsetPos + 8 then inr None
      else match readUint64AsNumber buf largeOffsetPos with
           | inl e => inl e
           | inr v => continue v
           end
    else continue u32
  end.

Definition sort_offsets (offsets : list Z) : list nat :=
  js_sort (fun a b => byte_at offsets a - byte_at offsets b <? 0) (seq 0 (length offsets)).

(** The start of the next entry, by entry. *)
Definition next_offsets (sortedOffsets : list Z) (sortedOffsetIndices : list nat) (packSize : Z) : list Z :=
  foldl (fun next i =>
      let nextOffset := match sortedOffsets !! S i with Some o => o | None => packSize - 20 end in
      match sortedOffsetIndices !! i with
      | Some index => <[index := nextOffset]> next
      | None => next
      end)
    (replicate (length sortedOffsets) 0) (seq 0 (length sortedOffsets)).

Definition parseIdxView (packKey : string) (idxBuf : list Z) (packSize : Z) : IdxError + option IdxView :=
  let byteLength := Z.of_nat (length idxBuf) in
  if negb (is_safe packSize) || (packSize <? 20) then inl UnsupportedPackSize
  else if byteLength <? 8 + 256 * 4 + IDX_TRAILER_BYTES then inr None
  else if negb (bool_decide (take 4 idxBuf = IDX_MAGIC)) then inr None
  else let version := u32_at idxBuf 4 in
  if negb (version =? 2) && negb (version =? 3) then inr None
  else
    let fanout := (fun i => u32_at idxBuf (8 + 4 * Z.of_nat i)) <$> seq 0 256 in
    let count := byte_at fanout 255 in
    let namesStart := 8 + 256 * 4 in
    let namesEnd := namesStart + count * 20 in
    let offsetsStart := namesEnd + count * 4 in
    let offsetsEnd := offsetsStart + count * 4 in
    let largeOffsetsLimit := byteLength - IDX_TRAILER_BYTES in
    if (byteLength <? namesEnd) || (largeOffsetsLimit <? offsetsEnd) then inr None
    else match read_offsets idxBuf offsetsStart offsetsEnd largeOffsetsLimit (Z.to_nat count) with
         | inl e => inl e
         | inr None => inr None
         | inr (Some offsets) =>
           let sortedOffsetIndices := sort_offsets offsets in
           let sortedOffsets := byte_at offsets <$> sortedOffsetIndices in
           let trailer := (length idxBuf - 40)%nat in
           inr (Some (mkIdxView packKey count fanout
             (slice idxBuf (Z.to_nat namesStart) (Z.to_nat (count * 20)))
             offsets (next_offsets sortedOffsets sortedOffsetIndices packSize)
             sortedOffsets sortedOffsetIndices packSize
             (slice idxBuf trailer 20) (slice idxBuf (trailer + 20) 20)))
         end.

(** *** Searching *)

(** The loop of the binary searches; [cmp i] compares the element at [i] with what
    is searched.  The interval shrinks every turn. *)
Fixpoint binary_search (fuel : nat) (cmp : Z -> Z) (lo hi : Z) : option Z :=
  match fuel with
  | O => None
  | S fuel =>
    if lo <=? hi then
      let mid := Z.shiftr (lo + hi) 1 in
      if cmp mid =? 0 then Some mid
      else if cmp mid <? 0 then binary_search fuel cmp (mid + 1) hi
      else binary_search fuel cmp lo (mid - 1)
    else None
  end.

Definition search (cmp : Z -> Z) (lo hi : Z) : option Z := binary_search (Z.to_nat (hi - lo + 1)) cmp lo hi.

Definition searchOffsetIndex (sortedOffsets : list Z) (target : Z) : Z :=
  default (-1) (search (fun i => byte_at sortedOffsets (Z.to_nat i) - target) 0 (Z.of_nat (length sortedOffsets) - 1)).

Definition findOffsetIndex (view : IdxView) (offset : Z) : option nat :=
  i ← search (fun i => byte_at (iv_sortedOffsets view) (Z.to_nat i) - offset) 0
        (Z.of_nat (length (iv_sortedOffsets view)) - 1);
  iv_sortedOffsetIndices view !! Z.to_nat i.

Definition getNextOffset (view : IdxView) (offset : Z) : option Z :=
  i ← findOffsetIndex view offset; iv_nextOffsetByIndex view !! i.

Definition getNextOffsetByIndex (view : IdxView) (index : Z) : option Z :=
  if (index <? 0) || (iv_count view <=? index) then None else iv_nextOffsetByIndex view !! Z.to_nat index.

Definition getOidHexAt (view : IdxView) (index : nat) : string := bytesToHex (slice (iv_rawNames view) (index * 20) 20).

Definition compareOidAt (view : IdxView) (index : Z) (needle : list Z) (needleStart : nat) : Z :=
  compare_bytes (name_at (iv_rawNames view) (Z.to_nat index * 20)) (name_at needle needleStart).

Definition findOidIndexFromBytes (view : IdxView) (needle : list Z) (needleStart : Z) : Z :=
  if (needleStart <? 0) || (Z.of_nat (length needle) <? needleStart + 20) then -1 else
  let start := Z.to_nat needleStart in
  let first := byte_at needle start in
  let lo := if first =? 0 then 0 else byte_at (iv_fanout view) (Z.to_nat (first - 1)) in
  let hi := byte_at (iv_fanout view) (Z.to_nat first) - 1 in
  if hi <? lo then -1 else
  default (-1) (search (fun i => compareOidAt view i needle start) lo hi).

(** [None]: the text has odd length and [hexToBytes] throws. *)
Definition findOidIndex (view : IdxView) (oid : string + list Z) : option Z :=
  needle ← match oid with inl text => hexToBytes (toLowerCase text) | inr bytes => Some bytes end;
  Some (if negb (length needle =? 20)%nat then -1 else findOidIndexFromBytes view needle 0).

(** ** Lemmas: searching *)

(** [cmp] is negative up to some point, then zero, then positive. *)
Definition ordered (cmp : Z -> Z) (lo hi : Z) : Prop :=
  forall i j, lo <= i < j -> j <= hi -> (cmp j < 0 -> cmp i < 0) /\ (0 < cmp i -> 0 < cmp j).

Lemma shiftr_1 z : Z.shiftr z 1 = z / 2.
Proof. by rewrite Z.shiftr_div_pow2 by lia. Qed.

Lemma search_spec cmp lo hi :
  ordered cmp lo hi ->
  match search cmp lo hi with
  | Some m => lo <= m <= hi /\ cmp m = 0
  | None => forall i, lo <= i <= hi -> cmp i <> 0
  end.
Proof.
  unfold search. intros Ho. assert (Z.to_nat (hi - lo + 1) <= Z.to_nat (hi - lo + 1))%nat as Hf by done.
  revert Hf. generalize (Z.to_nat (hi - lo + 1)) at 2 3 as fuel. intros fuel. revert lo hi Ho.
  induction fuel as [|fuel IH]; intros lo hi Ho Hf; cbn [binary_search]; [intros; lia|].
  destruct (Z.leb_spec lo hi) as [H|H]; [|intros; lia].
  rewrite shiftr_1. set (mid := (lo + hi) / 2).
  assert (lo <= mid <= hi) by (unfold mid; Z.div_mod_to_equations; lia).
  destruct (cmp mid =? 0) eqn:E0; to_prop; [done|]. destruct (cmp mid <? 0) eqn:E1; to_prop.
  - specialize (IH (mid + 1) hi). destruct (binary_search _ _ _ _) as [m|].
    + destruct IH; [intros i j ??; apply Ho; lia | lia |]. split; [lia | done].
    + intros i Hi. destruct (decide (mid < i)); [apply IH; [intros a b ??; apply Ho; lia | lia | lia]|].
      destruct (decide (i = mid)) as [->|]; [lia|]. destruct (Ho i mid) as [H' _]; lia.
  - specialize (IH lo (mid - 1)). destruct (binary_search _ _ _ _) as [m|].
    + destruct IH; [intros i j ??; apply Ho; lia | lia |]. split; [lia | done].
    + intros i Hi. destruct (decide (i < mid)); [apply IH; [intros a b ??; apply Ho; lia | lia | lia]|].
      destruct (decide (i = mid)) as [->|]; [lia|]. destruct (Ho mid i) as [_ H']; lia.
Qed.

(** ** Lemmas: the order of names *)

Lemma compare_refl l : compare_bytes l l = 0.
Proof. induction l as [|a l IH]; simpl; [done|]. by rewrite Z.sub_diag. Qed.

Lemma compare_zero l r : length l = length r -> compare_bytes l r = 0 -> l = r.
Proof.
  revert r. induction l as [|a l IH]; intros [|b r]; simpl; try done. intros [= Hl].
  destruct (a - b =? 0) eqn:E; simpl; to_prop; [|done]. intros H. f_equal; [lia | by apply IH].
Qed.

Lemma compare_opp l r : compare_bytes r l = - compare_bytes l r.
Proof.
  revert r. induction l as [|a l IH]; intros [|b r]; simpl; try done.
  destruct (a - b =? 0) eqn:E; to_prop.
  - replace (b - a =? 0) with true by (symmetry; apply Z.eqb_eq; lia). simpl. apply IH.
  - replace (b - a =? 0) with false by (symmetry; apply Z.eqb_neq; lia). simpl. lia.
Qed.

Lemma compare_trans x y z :
  length x = length y -> length y = length z ->
  compare_bytes x y <= 0 -> compare_bytes y z <= 0 ->
  compare_bytes x z <= 0 /\ (compare_bytes x z = 0 -> compare_bytes x y = 0 /\ compare_bytes y z = 0).
Proof.
  revert y z. induction x as [|a x IH]; intros [|b y] [|c z]; simpl; try done. intros [= H1] [= H2].
  destruct (a - b =? 0) eqn:E1; destruct (b - c =? 0) eqn:E2; simpl; to_prop.
  - replace (a - c =? 0) with true by (symmetry; apply Z.eqb_eq; lia). simpl. by apply IH.
  - replace (a - c =? 0) with false by (symmetry; apply Z.eqb_neq; lia). simpl. lia.
  - replace (a - c =? 0) with false by (symmetry; apply Z.eqb_neq; lia). simpl. lia.
  - destruct (a - c =? 0) eqn:E3; simpl; to_prop; lia.
Qed.

Lemma compare_head a l b r : a < b -> compare_bytes (a :: l) (b :: r) < 0.
Proof. intros H. simpl. replace (a - b =? 0) with false by (symmetry; apply Z.eqb_neq; lia). simpl. lia. Qed.

(** The names of a sorted table. *)
Definition name_le (l r : list Z) : Prop := compare_bytes l r <= 0.

Lemma length_name_at l i : length (name_at l i) = 20%nat.
Proof. unfold name_at. by rewrite length_fmap, length_seq. Qed.

Lemma oid_before_false oids a b :
  oid_before oids b a = false -> name_le (name_at oids (a * 20)) (name_at oids (b * 20)).
Proof.
  unfold oid_before, name_le, compareOids. rewrite (compare_opp (name_at oids (a * 20))).
  destruct (_ =? 0) eqn:E; intros H; to_prop; lia.
Qed.

Lemma oid_before_asym oids a b : oid_before oids a b = true -> oid_before oids b a = false.
Proof.
  unfold oid_before, compareOids. rewrite (compare_opp (name_at oids (a * 20))).
  destruct (_ =? 0) eqn:E; intros H; to_prop.
  - rewrite E. simpl. apply Z.ltb_ge. lia.
  - rewrite (proj2 (Z.eqb_neq (- _) 0)) by lia. apply Z.ltb_ge. lia.
Qed.

Lemma oid_before_trans oids a b c :
  oid_before oids b a = false -> oid_before oids c b = false -> oid_before oids c a = false.
Proof.
  intros H1 H2. pose proof (oid_before_false _ _ _ H1) as L1. pose proof (oid_before_false _ _ _ H2) as L2.
  destruct (compare_trans (name_at oids (a * 20)) (name_at oids (b * 20)) (name_at oids (c * 20))) as [L3 H3];
    [by rewrite !length_name_at | by rewrite !length_name_at | exact L1 | exact L2 |].
  revert H1 H2. unfold oid_before, compareOids.
  rewrite (compare_opp (name_at oids (a * 20)) (name_at oids (b * 20))),
    (compare_opp (name_at oids (b * 20)) (name_at oids (c * 20))),
    (compare_opp (name_at oids (a * 20)) (name_at oids (c * 20))).
  destruct (- compare_bytes (name_at oids (a * 20)) (name_at oids (c * 20)) =? 0) eqn:E; to_prop.
  - destruct H3 as [-> ->]; [lia|]. simpl. rewrite !Z.ltb_ge. lia.
  - intros _ _. apply Z.ltb_ge. unfold name_le in *. lia.
Qed.

Lemma oid_sorted oids n :
  StronglySorted name_le ((fun idx => name_at oids (idx * 20)) <$> js_sort (oid_before oids) (seq 0 n)).
Proof.
  pose proof (js_sort_sorted _ (oid_before_asym oids) (oid_before_trans oids) (seq 0 n)) as H.
  induction H as [|a l Hl IH Ha]; csimpl; constructor; [done|].
  rewrite Forall_fmap. eapply Forall_impl; [exact Ha|]. intros b. apply oid_before_false.
Qed.

(** ** Lemmas: the fanout table *)

Definition zsum (l : list Z) : Z := foldr Z.add 0 l.

(** How many of the elements are at most [b]. *)
Definition count_le (b : Z) (l : list Z) : Z := Z.of_nat (length (filter (fun f => f <= b) l)).

Lemma zsum_take_bump n f l : (f < length l)%nat ->
  zsum (take n (alter Z.succ f l)) = zsum (take n l) + (if decide (f < n)%nat then 1 else 0).
Proof.
  revert n f. induction l as [|a l IH]; intros n f Hf; simpl in Hf; [lia|].
  destruct n as [|n]; [done|]. destruct f as [|f]; csimpl.
  - change (zsum (Z.succ a :: take n l)) with (Z.succ a + zsum (take n l)).
    change (zsum (a :: take n l)) with (a + zsum (take n l)). lia.
  - change (zsum (a :: take n (alter Z.succ f l))) with (a + zsum (take n (alter Z.succ f l))).
    change (zsum (a :: take n l)) with (a + zsum (take n l)). rewrite IH by lia.
    repeat case_decide; lia.
Qed.

Lemma buckets_sum firsts b : is_bytes firsts -> (b < 256)%nat ->
  length (first_byte_buckets firsts) = 256%nat /\
  zsum (take (S b) (first_byte_buckets firsts)) = count_le (Z.of_nat b) firsts.
Proof.
  intros Hf Hb. unfold first_byte_buckets.
  assert (forall l, length l = 256%nat ->
    length (foldl (fun buckets first => alter Z.succ (Z.to_nat first) buckets) l firsts) = 256%nat /\
    zsum (take (S b) (foldl (fun buckets first => alter Z.succ (Z.to_nat first) buckets) l firsts))
      = zsum (take (S b) l) + count_le (Z.of_nat b) firsts) as H.
  { induction Hf as [|f firsts [Hf1 Hf2] _ IH]; intros l Hl; simpl; [unfold count_le; simpl; lia|].
    destruct (IH (alter Z.succ (Z.to_nat f) l)) as [-> ->]; [by rewrite length_alter|]. split; [done|].
    rewrite zsum_take_bump by lia. unfold count_le. rewrite filter_cons.
    repeat case_decide; simpl length; lia. }
  destruct (H (replicate 256 0)) as [-> ->]; [done|]. split; [done|].
  replace (zsum (take (S b) (replicate 256 0))) with 0; [lia|].
  rewrite take_replicate. generalize (S b `min` 256)%nat as k. by induction k.
Qed.

Lemma length_cumulate c l : length (cumulate c l) = length l.
Proof. revert c. induction l as [|a l IH]; intros c; simpl; [done|]. by rewrite IH. Qed.

Lemma cumulate_at c l b : (b < length l)%nat -> cumulate c l !! b = Some (c + zsum (take (S b) l)).
Proof.
  revert c b. induction l as [|a l IH]; intros c b Hb; simpl in Hb; [lia|].
  destruct b as [|b]; simpl; [by rewrite Z.add_0_r|].
  rewrite IH by lia. f_equal. rewrite <- Z.add_assoc. done.
Qed.

Lemma fanout_at firsts b : is_bytes firsts -> (b < 256)%nat ->
  cumulate 0 (first_byte_buckets firsts) !! b = Some (count_le (Z.of_nat b) firsts).
Proof.
  intros Hf Hb. destruct (buckets_sum firsts b Hf Hb) as [Hl <-].
  by rewrite cumulate_at by lia.
Qed.

Lemma filter_none {A} (P : A -> Prop) `{!forall x, Decision (P x)} l : Forall (fun x => ~ P x) l -> filter P l = [].
Proof. induction 1 as [|a l Ha _ IH]; [done|]. by rewrite filter_cons_False. Qed.

Lemma filter_all {A} (P : A -> Prop) `{!forall x, Decision (P x)} l : Forall P l -> filter P l = l.
Proof. induction 1 as [|a l Ha _ IH]; [done|]. by rewrite filter_cons_True, IH. Qed.

(** In ascending order the elements up to [b] come first. *)
Lemma count_le_index l i f b :
  StronglySorted Z.le l -> l !! i = Some f -> (f <= b <-> Z.of_nat i < count_le b l).
Proof.
  intros Hl. revert i. unfold count_le. induction Hl as [|a l Hl IH Ha]; intros i; [done|].
  rewrite filter_cons. destruct i as [|i]; simpl.
  - intros [= ->]. case_decide as Hfb; simpl; [split; [lia | done]|]. split; [done|].
    assert (filter (fun x => x <= b) l = []) as ->; [|simpl; lia].
    apply filter_none. eapply Forall_impl; [exact Ha|]. simpl. intros x Hx. lia.
  - intros Hi. specialize (IH i Hi). case_decide as Hab; simpl; [lia|].
    rewrite Forall_forall in Ha. specialize (Ha f ltac:(by eapply list_elem_of_lookup_2)). lia.
Qed.

(** ** Lemmas: looking up a name *)

Lemma lookup_concat_blocks (k : nat) (blocks : list (list Z)) i n :
  Forall (fun b => length b = k) blocks -> blocks !! i = Some n ->
  exists pre post, List.concat blocks = pre ++ n ++ post /\ length pre = (i * k)%nat.
Proof.
  revert i. induction blocks as [|b blocks IH]; intros i Hk; [done|].
  apply Forall_cons_1 in Hk as [Hb Hk]. destruct i as [|i]; simpl.
  - intros [= ->]. by exists [], (List.concat blocks).
  - intros (pre & post & -> & Hp)%IH; [|done]. exists (b ++ pre), post.
    split; [by rewrite <- app_assoc|]. rewrite length_app. lia.
Qed.

Lemma slice_mid pre n post : slice (pre ++ n ++ post) (length pre) (length n) = n.
Proof. unfold slice. by rewrite drop_app_length, take_app_length. Qed.

Lemma name_at_mid pre n post : length n = 20%nat -> name_at (pre ++ n ++ post) (length pre) = n.
Proof.
  intros Hn. apply list_eq. intros i. unfold name_at. rewrite list_lookup_fmap.
  destruct (decide (i < 20)%nat) as [Hi|Hi].
  - rewrite lookup_seq_lt by done. simpl. destruct (lookup_lt_is_Some_2 n i) as [b Hb]; [lia|].
    rewrite Hb. f_equal. unfold byte_at. rewrite lookup_app_r by lia.
    replace (length pre + i - length pre)%nat with i by lia. by rewrite lookup_app_l, Hb by lia.
  - rewrite lookup_seq_ge by lia. by rewrite lookup_ge_None_2 by lia.
Qed.

(** The name table and the fanout table of a view hold the ascending [names]. *)
Record names_ok (view : IdxView) (names : list (list Z)) : Prop := {
  no_raw : iv_rawNames view = List.concat names;
  no_names : Forall (fun n => length n = 20%nat /\ is_bytes n) names;
  no_sorted : StronglySorted name_le names;
  no_fanout : forall b, (b < 256)%nat ->
    byte_at (iv_fanout view) b = count_le (Z.of_nat b) (default 0 ∘ head <$> names) }.

Lemma heads_sorted names :
  Forall (fun n => length n = 20%nat /\ is_bytes n) names -> StronglySorted name_le names ->
  StronglySorted Z.le (default 0 ∘ head <$> names) .
Proof.
  intros Hn Hs. induction Hs as [|a l Hl IH Ha]; csimpl; constructor.
  - apply IH. by apply Forall_cons_1 in Hn as [_ Hn].
  - rewrite Forall_fmap. apply Forall_cons_1 in Hn as [[Hla _] Hn]. rewrite Forall_forall in *.
    intros b Hb. specialize (Ha b Hb). destruct (Hn b Hb) as [Hlb _]. simpl.
    destruct a as [|x a], b as [|y b]; try done. simpl. destruct (Z.le_gt_cases x y) as [|H]; [done|].
    pose proof (compare_head y b x a ltac:(lia)) as Hc. unfold name_le in Ha. rewrite compare_opp in Hc. lia.
Qed.

Section Lookup.
Context (view : IdxView) (names : list (list Z)) (Hok : names_ok view names).

Lemma name_at_view i n : names !! i = Some n -> name_at (iv_rawNames view) (i * 20) = n.
Proof.
  intros Hi. rewrite (no_raw _ _ Hok). pose proof (no_names _ _ Hok) as Hn.
  destruct (lookup_concat_blocks 20 names i n) as (pre & post & -> & <-); [|done|].
  - eapply Forall_impl; [exact Hn | by intros ? []].
  - apply name_at_mid. rewrite Forall_forall in Hn. by apply list_elem_of_lookup_2, Hn in Hi as [? _].
Qed.

Lemma oid_hex_view i n : names !! i = Some n -> getOidHexAt view i = bytesToHex n.
Proof.
  intros Hi. unfold getOidHexAt. rewrite (no_raw _ _ Hok). pose proof (no_names _ _ Hok) as Hn.
  destruct (lookup_concat_blocks 20 names i n) as (pre & post & -> & <-); [|done|].
  - eapply Forall_impl; [exact Hn | by intros ? []].
  - unfold slice. rewrite drop_app_length. f_equal. apply take_app_length'.
    rewrite Forall_forall in Hn. by apply list_elem_of_lookup_2, Hn in Hi as [? _].
Qed.

Lemma compare_at needle start n i :
  name_at needle start = n -> (0 <= i) -> forall m, names !! Z.to_nat i = Some m ->
  compareOidAt view i needle start = compare_bytes m n.
Proof. intros <- Hi m Hm. unfold compareOidAt. by rewrite (name_at_view _ _ Hm). Qed.

(** The first byte of a name and its place. *)
Lemma name_range i n b : names !! i = Some n -> head n = Some b ->
  (b = 0 \/ byte_at (iv_fanout view) (Z.to_nat (b - 1)) <= Z.of_nat i) /\
  Z.of_nat i < byte_at (iv_fanout view) (Z.to_nat b).
Proof.
  intros Hi Hb. pose proof (no_names _ _ Hok) as Hn.
  assert (is_byte b) as [Hb1 Hb2].
  { rewrite Forall_forall in Hn. apply list_elem_of_lookup_2 in Hi as Hin. apply Hn in Hin as [_ Hin].
    destruct n; [done|]. injection Hb as <-. by apply Forall_cons_1 in Hin as [? _]. }
  assert ((default 0 ∘ head <$> names) !! i = Some b) as Hf by (rewrite list_lookup_fmap, Hi; simpl; by rewrite Hb).
  pose proof (heads_sorted _ Hn (no_sorted _ _ Hok)) as Hs.
  rewrite !(no_fanout _ _ Hok) by lia. split.
  - destruct (decide (b = 0)); [by left|right].
    pose proof (count_le_index _ _ _ (b - 1) Hs Hf). rewrite Z2Nat.id by lia. lia.
  - pose proof (count_le_index _ _ _ b Hs Hf). rewrite Z2Nat.id by lia. lia.
Qed.

Lemma search_ordered needle start lo hi :
  0 <= lo -> hi < Z.of_nat (length names) ->
  ordered (fun i => compareOidAt view i needle start) lo hi.
Proof.
  intros Hlo Hhi i j Hij Hj. pose proof (no_names _ _ Hok) as Hn. pose proof (no_sorted _ _ Hok) as Hs.
  destruct (lookup_lt_is_Some_2 names (Z.to_nat i)) as [a Ha]; [lia|].
  destruct (lookup_lt_is_Some_2 names (Z.to_nat j)) as [b Hb]; [lia|].
  rewrite (compare_at needle start _ i eq_refl ltac:(lia) a Ha), (compare_at needle start _ j eq_refl ltac:(lia) b Hb).
  assert (name_le a b) as Hab.
  { apply (StronglySorted_take_drop name_le (S (Z.to_nat i)) names); [done | |].
    - rewrite (take_S_r _ _ _ Ha). apply elem_of_app; right. by apply list_elem_of_singleton.
    - apply (list_elem_of_lookup_2 _ (Z.to_nat j - S (Z.to_nat i))). rewrite lookup_drop.
      by replace (S (Z.to_nat i) + (Z.to_nat j - S (Z.to_nat i)))%nat with (Z.to_nat j) by lia. }
  rewrite Forall_forall in Hn. apply list_elem_of_lookup_2, Hn in Ha as [Ha _], Hb as [Hb _].
  pose proof (length_name_at needle start) as Hl. set (n := name_at needle start) in *.
  destruct (decide (compare_bytes b n <= 0)) as [Hbn|Hbn]; [|lia].
  destruct (compare_trans a b n) as [H1 H2]; [congruence.. | done | done |]. lia.
Qed.

(** The search finds a name exactly when the table has it. *)
Lemma findOidIndexFromBytes_spec needle start n :
  0 <= start -> start + 20 <= Z.of_nat (length needle) -> name_at needle (Z.to_nat start) = n -> is_bytes n ->
  let i := findOidIndexFromBytes view needle start in
  (i = -1 /\ n ∉ names) \/ (0 <= i /\ names !! Z.to_nat i = Some n).
Proof.
  intros Hs Hlen Hn Hb. unfold findOidIndexFromBytes.
  rewrite (proj2 (Z.ltb_ge start 0)), (proj2 (Z.ltb_ge (Z.of_nat _) _)) by lia. cbn [orb].
  set (first := byte_at needle (Z.to_nat start)).
  assert (head n = Some first) as Hh by (by rewrite <- Hn).
  assert (is_byte first) as [Hf1 Hf2].
  { rewrite <- Hn in Hb. unfold name_at in Hb. simpl in Hb. by apply Forall_cons_1 in Hb as [? _]. }
  set (lo := if first =? 0 then 0 else _). set (hi := byte_at (iv_fanout view) (Z.to_nat first) - 1).
  assert (0 <= lo) as Hlo.
  { unfold lo. destruct (first =? 0) eqn:E; to_prop; [done|].
    rewrite (no_fanout _ _ Hok) by lia. unfold count_le. lia. }
  assert (hi < Z.of_nat (length names)) as Hhi.
  { unfold hi. rewrite (no_fanout _ _ Hok) by lia. unfold count_le.
    pose proof (length_filter (fun f => f <= Z.of_nat (Z.to_nat first)) (default 0 ∘ head <$> names)) as Hle.
    rewrite length_fmap in Hle. lia. }
  assert (forall k, names !! k = Some n -> lo <= Z.of_nat k <= hi) as Hrange.
  { intros k Hk. destruct (name_range k n first Hk Hh) as [H1 H2]. unfold lo, hi. split; [|lia].
    destruct (first =? 0) eqn:E; to_prop; [lia|]. by destruct H1. }
  pose proof (search_spec _ _ _ (search_ordered needle (Z.to_nat start) lo hi Hlo Hhi)) as Hsearch.
  destruct (hi <? lo) eqn:E; to_prop.
  - left. split; [done|]. intros (k & Hk)%list_elem_of_lookup_1. specialize (Hrange k Hk). lia.
  - destruct (search _ lo hi) as [m|]; simpl.
    + destruct Hsearch as [Hm Hc]. right. split; [lia|].
      destruct (lookup_lt_is_Some_2 names (Z.to_nat m)) as [a Ha]; [lia|].
      rewrite (compare_at _ _ n m Hn ltac:(lia) a Ha) in Hc. rewrite Ha. f_equal.
      apply compare_zero; [|done]. rewrite <- Hn, length_name_at. pose proof (no_names _ _ Hok) as Hnames.
      rewrite Forall_forall in Hnames. by apply list_elem_of_lookup_2, Hnames in Ha as [? _].
    + left. split; [done|]. intros (k & Hk)%list_elem_of_lookup_1. specialize (Hrange k Hk).
      apply (Hsearch (Z.of_nat k) Hrange). rewrite (compare_at _ _ n (Z.of_nat k) Hn ltac:(lia) n); [apply compare_refl|].
      by rewrite Nat2Z.id.
Qed.
End Lookup.

(** ** Lemmas: offsets *)

Lemma StronglySorted_lookup {A} (R : A -> A -> Prop) l i j x y :
  StronglySorted R l -> l !! i = Some x -> l !! j = Some y -> (i < j)%nat -> R x y.
Proof.
  intros Hs Hi Hj Hij. apply (StronglySorted_take_drop R (S i) l); [done | |].
  - rewrite (take_S_r _ _ _ Hi). apply elem_of_app; right. by apply list_elem_of_singleton.
  - apply (list_elem_of_lookup_2 _ (j - S i)). rewrite lookup_drop. by replace (S i + (j - S i))%nat with j by lia.
Qed.

Section Offsets.
Context (offsets : list Z).
Let indices := sort_offsets offsets.
Let sorted := byte_at offsets <$> indices.

Lemma indices_perm : indices ≡ₚ seq 0 (length offsets).
Proof. apply js_sort_perm. Qed.

Lemma indices_elem k : k ∈ indices <-> (k < length offsets)%nat.
Proof. rewrite indices_perm, elem_of_seq. lia. Qed.

Lemma indices_NoDup : NoDup indices.
Proof. rewrite indices_perm. apply NoDup_seq. Qed.

Lemma length_indices : length indices = length offsets.
Proof. by rewrite indices_perm, length_seq. Qed.

Lemma sorted_ascending : StronglySorted Z.le sorted.
Proof.
  unfold sorted, indices, sort_offsets. set (before := fun a b => byte_at offsets a - byte_at offsets b <? 0).
  assert (StronglySorted (fun a b => before b a = false) (js_sort before (seq 0 (length offsets)))) as H.
  { apply js_sort_sorted; unfold before; intros; to_prop; apply Z.ltb_ge; lia. }
  induction H as [|a l Hl IH Ha]; csimpl; constructor; [done|].
  rewrite Forall_fmap. eapply Forall_impl; [exact Ha|]. intros b Hb. unfold before in Hb. simpl. to_prop. lia.
Qed.

Lemma sorted_lookup i k : indices !! i = Some k ->
  sorted !! i = Some (byte_at offsets k) /\ offsets !! k = Some (byte_at offsets k).
Proof.
  intros Hi. split; [unfold sorted; by rewrite list_lookup_fmap, Hi|].
  apply list_elem_of_lookup_2, indices_elem, lookup_lt_is_Some_2 in Hi as [o Ho].
  unfold byte_at. by rewrite Ho.
Qed.

(** The place of an entry in the sorted order. *)
Lemma sorted_place k o : offsets !! k = Some o ->
  exists i, indices !! i = Some k /\ sorted !! i = Some o.
Proof.
  intros Hk. assert (k ∈ indices) as (i & Hi)%list_elem_of_lookup_1 by (apply indices_elem; by eapply lookup_lt_Some).
  exists i. split; [done|]. destruct (sorted_lookup i k Hi) as [-> H]. congruence.
Qed.

Lemma sorted_compare i i' o o' : sorted !! i = Some o -> sorted !! i' = Some o' -> o < o' -> (i < i')%nat.
Proof.
  intros Hi Hi' Ho. destruct (decide (i < i')%nat); [done|]. destruct (decide (i = i')) as [->|]; [simplify_eq; lia|].
  pose proof (StronglySorted_lookup _ _ i' i o' o sorted_ascending Hi' Hi ltac:(lia)). lia.
Qed.

Lemma search_offset target :
  match search (fun i => byte_at sorted (Z.to_nat i) - target) 0 (Z.of_nat (length sorted) - 1) with
  | Some m => 0 <= m /\ sorted !! Z.to_nat m = Some target
  | None => target ∉ offsets
  end.
Proof.
  assert (forall i, 0 <= i <= Z.of_nat (length sorted) - 1 ->
    sorted !! Z.to_nat i = Some (byte_at sorted (Z.to_nat i))) as Hin.
  { intros i Hi. destruct (lookup_lt_is_Some_2 sorted (Z.to_nat i)) as [o Ho]; [lia|]. unfold byte_at. by rewrite Ho. }
  pose proof (search_spec (fun i => byte_at sorted (Z.to_nat i) - target) 0 (Z.of_nat (length sorted) - 1)) as H.
  destruct (search _ _ _) as [m|].
  - destruct H as [Hm Hc]; [|split; [lia|]; rewrite Hin by lia; f_equal; lia].
    intros i j Hij Hj. pose proof (StronglySorted_lookup _ _ (Z.to_nat i) (Z.to_nat j) _ _ sorted_ascending
      (Hin i ltac:(lia)) (Hin j ltac:(lia)) ltac:(lia)). lia.
  - intros (k & Hk)%list_elem_of_lookup_1. destruct (sorted_place k target Hk) as (i & Hi & Hs).
    apply lookup_lt_Some in Hs as Hlt. apply (H ltac:(
      intros a b Hij Hj; pose proof (StronglySorted_lookup _ _ (Z.to_nat a) (Z.to_nat b) _ _ sorted_ascending
      (Hin a ltac:(lia)) (Hin b ltac:(lia)) ltac:(lia)); lia) (Z.of_nat i)); [lia|].
    rewrite Nat2Z.id. unfold byte_at. rewrite Hs. simpl. lia.
Qed.

(** *** The next entry *)

Lemma foldl_writes (f : nat -> option nat) (v : nat -> Z) (l : list nat) (next : list Z) k :
  (forall i j, i ∈ l -> j ∈ l -> f i = f j -> is_Some (f i) -> i = j) -> NoDup l ->
  (forall i x, f i = Some x -> (x < length next)%nat) ->
  foldl (fun next i => match f i with Some x => <[x := v i]> next | None => next end) next l !! k
    = match js_find (fun i => bool_decide (f i = Some k)) l with Some i => Some (v i) | None => next !! k end.
Proof.
  revert next. induction l as [|a l IH]; intros next Hinj Hnd Hlt; simpl; [done|].
  apply NoDup_cons in Hnd as [Ha Hnd].
  rewrite IH; [| intros i j Hi Hj; apply Hinj; by apply list_elem_of_further | done |].
  2: { intros i x Hi. destruct (f a); [rewrite length_insert|]; by eapply Hlt. }
  change (js_find (fun i => bool_decide (f i = Some k)) (a :: l)) with
    (if bool_decide (f a = Some k) then Some a else js_find (fun i => bool_decide (f i = Some k)) l).
  destruct (bool_decide (f a = Some k)) eqn:E; to_prop.
  - assert (js_find (fun i => bool_decide (f i = Some k)) l = None) as ->.
    { destruct (js_find _ l) as [j|] eqn:Ej; [|done]. apply js_find_some in Ej as [Hj Hfj]. to_prop.
      destruct Ha. rewrite (Hinj a j); [done | apply list_elem_of_here | by apply list_elem_of_further |
        congruence | by rewrite E]. }
    rewrite E. apply list_lookup_insert_eq. by eapply Hlt.
  - destruct (js_find _ l); [done|]. destruct (f a) as [x|] eqn:Ex; [|done].
    apply list_lookup_insert_ne. congruence.
Qed.

Lemma next_offsets_lookup packSize i k :
  indices !! i = Some k ->
  next_offsets sorted indices packSize !! k = Some (default (packSize - 20) (sorted !! S i)).
Proof.
  intros Hi. unfold next_offsets. assert (length sorted = length offsets) as Hl.
  { unfold sorted. by rewrite length_fmap, length_indices. }
  rewrite (foldl_writes (fun i => indices !! i) (fun i => match sorted !! S i with Some o => o | None => packSize - 20 end)).
  - destruct (js_find _ _) as [j|] eqn:E.
    + apply js_find_some in E as [_ E]. to_prop.
      rewrite (NoDup_lookup _ _ _ _ indices_NoDup Hi E). done.
    + apply (js_find_none _ _ i) in E; [by to_prop|].
      apply elem_of_seq. apply lookup_lt_Some in Hi. rewrite length_indices in Hi. lia.
  - intros a b _ _ Hab [x Hx]. rewrite Hx in Hab. by eapply (NoDup_lookup _ _ _ _ indices_NoDup).
  - apply NoDup_seq.
  - intros a x Ha. rewrite length_replicate, Hl. by apply indices_elem, (list_elem_of_lookup_2 _ a).
Qed.

(** The next offset is the least greater one, or the start of the trailer. *)
Lemma next_offsets_spec packSize k o :
  NoDup offsets -> offsets !! k = Some o ->
  exists v, next_offsets sorted indices packSize !! k = Some v /\
    ((v ∈ offsets /\ o < v /\ forall o', o' ∈ offsets -> o < o' -> v <= o') \/
     (v = packSize - 20 /\ forall o', o' ∈ offsets -> o' <= o)).
Proof.
  intros Hnd Hk. destruct (sorted_place k o Hk) as (i & Hi & Hs).
  rewrite (next_offsets_lookup packSize i k Hi). eexists. split; [done|].
  assert (forall o', o' ∈ offsets -> o < o' -> exists i', (S i <= i')%nat /\ sorted !! i' = Some o') as Habove.
  { intros o' (k' & Hk')%list_elem_of_lookup_1 Ho. destruct (sorted_place k' o' Hk') as (i' & _ & Hs').
    exists i'. split; [by apply (sorted_compare i i' o o') | done]. }
  destruct (sorted !! S i) as [v|] eqn:Ev; simpl; [left|right].
  - assert (exists k', indices !! S i = Some k' /\ offsets !! k' = Some v) as (k' & Hi' & Hk').
    { unfold sorted in Ev. apply list_lookup_fmap_Some in Ev as (k' & -> & Hi'). exists k'. split; [done|].
      by destruct (sorted_lookup _ _ Hi'). }
    split_and!; [by eapply list_elem_of_lookup_2 | |].
    + pose proof (StronglySorted_lookup _ _ i (S i) o v sorted_ascending Hs Ev ltac:(lia)).
      assert (o <> v); [|lia]. intros ->. pose proof (NoDup_lookup _ _ _ _ Hnd Hk Hk') as ->.
      pose proof (NoDup_lookup _ _ _ _ indices_NoDup Hi Hi'). lia.
    + intros o' Ho' Hlt. destruct (Habove o' Ho' Hlt) as (i' & Hle & Hs').
      destruct (decide (S i = i')) as [<-|]; [simplify_eq; lia|].
      by apply (StronglySorted_lookup _ _ (S i) i' v o' sorted_ascending Ev Hs' ltac:(lia)).
  - split; [done|]. intros o' Ho'. destruct (Z.le_gt_cases o' o) as [|Hlt]; [done|].
    destruct (Habove o' Ho' ltac:(lia)) as (i' & Hle & Hs'). apply lookup_lt_Some in Hs'.
    apply lookup_ge_None in Ev. lia.
Qed.
End Offsets.

(** ** Lemmas: the file *)

Lemma length_be32s ws : length (be32s ws) = (4 * length ws)%nat.
Proof.
  induction ws as [|w ws IH]; [done|]. change (be32s (w :: ws)) with (be32 w ++ be32s ws).
  rewrite length_app, IH, length_be32. simpl. lia.
Qed.

Lemma be32_mod v : be32 v = be32 (v mod 2 ^ 32).
Proof.
  assert (forall k, 0 < k -> (k | 2 ^ 24) -> v / k mod 256 = (v mod 2 ^ 32) / k mod 256) as H.
  { intros k Hk [m Hm]. rewrite (Z_div_mod_eq_full v (2 ^ 32)) at 1.
    replace (2 ^ 32 * (v / 2 ^ 32) + v mod 2 ^ 32) with (v mod 2 ^ 32 + (v / 2 ^ 32 * m * 256) * k)
      by (change (2 ^ 32) with (2 ^ 24 * 256); rewrite Hm; lia).
    by rewrite Z.div_add, Z.mod_add by lia. }
  unfold be32. rewrite <- !H by (lia || (apply Z.mod_divide; [lia | reflexivity])).
  specialize (H 1). rewrite !Z.div_1_r in H. rewrite <- H; [done | lia | apply Z.divide_1_l].
Qed.

Lemma u32_at_words pre ws post i w :
  ws !! i = Some w -> u32_at (pre ++ be32s ws ++ post) (Z.of_nat (length pre) + 4 * Z.of_nat i) = w mod 2 ^ 32.
Proof.
  intros Hi. unfold u32_at. rewrite <- (take_drop_middle _ _ _ Hi). unfold be32s.
  rewrite fmap_app, concat_app. cbn [fmap list_fmap List.map List.concat]. rewrite be32_mod.
  apply lookup_lt_Some in Hi.
  assert (length (List.concat (be32 <$> take i ws)) = (4 * i)%nat) as Hl.
  { change (List.concat (be32 <$> take i ws)) with (be32s (take i ws)). rewrite length_be32s, length_take. lia. }
  replace (Z.to_nat (Z.of_nat (length pre) + 4 * Z.of_nat i))
    with (length (pre ++ List.concat (be32 <$> take i ws))) by (rewrite length_app, Hl; lia).
  rewrite <- !app_assoc, (app_assoc pre). apply getUint32_app. by apply Z.mod_pos_bound.
Qed.

Definition is_offset (o : Z) : Prop := 0 <= o < 2 ^ 32.

Lemma large_word idx : 0 <= idx < 2 ^ 31 ->
  Z.lor (toInt32 (2 ^ 31)) idx mod 2 ^ 32 = idx + 2 ^ 31 /\ Z.land (idx + 2 ^ 31) (2 ^ 31 - 1) = idx.
Proof.
  intros Hi. split.
  - change (toInt32 (2 ^ 31)) with (-1 * 2 ^ 31). rewrite Z.lor_comm, lor_shift by lia.
    symmetry. apply Z.mod_unique with (-1); lia.
  - replace (2 ^ 31 - 1) with (Z.ones 31) by done. rewrite Z.land_ones by lia.
    symmetry. apply Z.mod_unique with 1; lia.
Qed.

(** The offset tables are read back. *)
Lemma read_offset_words buf offsets idx pos largeStart limit :
  Forall is_offset offsets -> 0 <= idx -> idx + Z.of_nat (length offsets) <= 2 ^ 31 ->
  (forall i w, (offset_words offsets idx).1 !! i = Some w -> u32_at buf (pos + 4 * Z.of_nat i) = w mod 2 ^ 32) ->
  (forall i w, (offset_words offsets idx).2 !! i = Some w ->
    u32_at buf (largeStart + 8 * idx + 4 * Z.of_nat i) = w mod 2 ^ 32) ->
  largeStart + 8 * idx + 4 * Z.of_nat (length (offset_words offsets idx).2) <= limit ->
  read_offsets buf pos largeStart limit (length offsets) = inr (Some offsets).
Proof.
  intros Ho. revert idx pos. induction Ho as [|o offsets [Ho1 Ho2] Ho IH]; intros idx pos Hidx Hn Hs Hl Hlim; [done|].
  cbn [length read_offsets] in *. rewrite Nat2Z.inj_succ in Hn. cbn [offset_words] in *.
  destruct (2 ^ 31 <=? o) eqn:E; to_prop.
  - specialize (IH (idx + 1) (pos + 4)). destruct (offset_words offsets (idx + 1)) as [small large]. cbn [fst snd] in *.
    pose proof (Hs 0%nat _ eq_refl) as Hw. rewrite Z.mul_0_r, Z.add_0_r in Hw.
    destruct (large_word idx) as [E1 E2]; [lia|]. rewrite E1 in Hw. rewrite Hw, bit_31 by lia.
    rewrite (proj2 (Z.ltb_ge (idx + 2 ^ 31) _)) by lia. cbn [negb]. rewrite E2.
    simpl length in Hlim. rewrite (proj2 (Z.ltb_ge limit _)) by lia.
    pose proof (Hl 0%nat _ eq_refl) as H0. pose proof (Hl 1%nat _ eq_refl) as H1.
    rewrite Z.mul_0_r, Z.add_0_r in H0. unfold readUint64AsNumber.
    rewrite (Z.mul_comm idx 8), H0. change (4 * Z.of_nat 1) with 4 in H1. rewrite H1.
    rewrite (Z.mod_small o) by lia. replace (0 mod 2 ^ 32 * 2 ^ 32 + o) with o by (rewrite Z.mod_0_l by lia; lia).
    replace (is_safe o) with true by (symmetry; unfold is_safe; apply andb_true_iff; split; apply Z.leb_le; lia).
    rewrite IH; [done | lia | lia | | | lia].
    + intros i w Hi. specialize (Hs (S i) w Hi). rewrite <- Hs. f_equal. lia.
    + intros i w Hi. specialize (Hl (S (S i)) w Hi). rewrite <- Hl. f_equal. lia.
  - specialize (IH idx (pos + 4)). destruct (offset_words offsets idx) as [small large]. cbn [fst snd] in *.
    pose proof (Hs 0%nat _ eq_refl) as Hw. rewrite Z.mul_0_r, Z.add_0_r, Z.mod_small in Hw by lia.
    rewrite Hw, bit_31 by lia. rewrite (proj2 (Z.ltb_lt o _)) by lia. cbn [negb].
    rewrite IH; [done | lia | lia | | done | lia].
    intros i w Hi. specialize (Hs (S i) w Hi). rewrite <- Hs. f_equal. lia.
Qed.

Lemma length_offset_words offsets idx : length (offset_words offsets idx).1 = length offsets.
Proof.
  revert idx. induction offsets as [|o offsets IH]; intros idx; simpl; [done|].
  destruct (2 ^ 31 <=? o).
  - specialize (IH (idx + 1)). destruct (offset_words offsets (idx + 1)). simpl in *. by rewrite IH.
  - specialize (IH idx). destruct (offset_words offsets idx). simpl in *. by rewrite IH.
Qed.

(** A table with its columns, the names of its entries and their offsets. *)
Record table_ok (table : PackEntryTable) (n : nat) : Prop := {
  to_oids : length (tbl_oids table) = (n * 20)%nat;
  to_bytes : is_bytes (tbl_oids table);
  to_offsets : length (tbl_offsets table) = n;
  to_range : Forall is_offset (tbl_offsets table);
  to_count : Z.of_nat n < 2 ^ 31 }.

Definition entry_oid (table : PackEntryTable) (k : nat) : list Z := slice (tbl_oids table) (k * 20) 20.
Definition entry_offset (table : PackEntryTable) (k : nat) : Z := byte_at (tbl_offsets table) k.

Lemma slice_at l from n : (from + n <= length l)%nat ->
  exists pre post, l = pre ++ slice l from n ++ post /\ length pre = from /\ length (slice l from n) = n.
Proof.
  intros H. exists (take from l), (drop n (drop from l)). unfold slice.
  rewrite take_drop, take_drop, !length_take, length_drop. split_and!; [done | lia | lia].
Qed.

Section File.
Context (table : PackEntryTable) (n : nat) (Hok : table_ok table n).

Let indices := buildOidSortedEntryIndices table n.
Let names := entry_oid table <$> indices.
Let offsets := entry_offset table <$> indices.
Let fanout := cumulate 0 (first_byte_buckets ((fun idx => byte_at (tbl_oids table) (idx * 20)) <$> indices)).
Let words := offset_words offsets 0.
Let crcs := (fun idx => byte_at (tbl_crc32s table) idx) <$> indices.

Lemma entries_perm : indices ≡ₚ seq 0 n.
Proof. apply js_sort_perm. Qed.

Lemma entries_elem k : k ∈ indices <-> (k < n)%nat.
Proof. rewrite entries_perm, elem_of_seq. lia. Qed.

Lemma length_entries : length indices = n.
Proof. by rewrite entries_perm, length_seq. Qed.

Lemma entry_oid_at k : (k < n)%nat ->
  name_at (tbl_oids table) (k * 20) = entry_oid table k /\
  length (entry_oid table k) = 20%nat /\ is_bytes (entry_oid table k).
Proof.
  intros Hk. pose proof (to_oids _ _ Hok) as Hl. unfold entry_oid.
  destruct (slice_at (tbl_oids table) (k * 20) 20) as (pre & post & E & Hp & Hs); [lia|].
  split_and!; [|done|].
  - rewrite E at 1. rewrite <- Hp at 2. by apply name_at_mid.
  - pose proof (to_bytes _ _ Hok) as Hb. rewrite E, !Forall_app in Hb. tauto.
Qed.

Lemma file_names_ok : Forall (fun n => length n = 20%nat /\ is_bytes n) names /\ StronglySorted name_le names.
Proof.
  split.
  - unfold names. rewrite Forall_fmap, Forall_forall. intros k Hk%entries_elem. simpl.
    by destruct (entry_oid_at k Hk).
  - pose proof (oid_sorted (tbl_oids table) n) as H. change (js_sort _ _) with indices in H.
    unfold names. replace (entry_oid table <$> indices) with ((fun idx => name_at (tbl_oids table) (idx * 20)) <$> indices); [done|].
    apply list_fmap_ext. intros i k Hi%list_elem_of_lookup_2%entries_elem. by destruct (entry_oid_at k Hi).
Qed.

Lemma file_heads : (fun idx => byte_at (tbl_oids table) (idx * 20)) <$> indices = default 0 ∘ head <$> names.
Proof.
  unfold names. rewrite <- list_fmap_compose. apply list_fmap_ext.
  intros i k Hi%list_elem_of_lookup_2%entries_elem. simpl. destruct (entry_oid_at k Hi) as (<- & _). done.
Qed.

Lemma file_heads_bytes : is_bytes (default 0 ∘ head <$> names).
Proof.
  destruct file_names_ok as [Hn _]. rewrite Forall_fmap. eapply Forall_impl; [exact Hn|].
  intros [|b' l] [Hl Hbs]; [done|]. by apply Forall_cons_1 in Hbs as [? _].
Qed.

Lemma file_fanout b : (b < 256)%nat -> byte_at fanout b = count_le (Z.of_nat b) (default 0 ∘ head <$> names).
Proof.
  intros Hb. unfold fanout. rewrite file_heads. unfold byte_at. by rewrite fanout_at by (done || apply file_heads_bytes).
Qed.

Lemma file_fanout_length : length fanout = 256%nat.
Proof.
  unfold fanout. rewrite length_cumulate, file_heads. apply (buckets_sum _ 0); [apply file_heads_bytes | lia].
Qed.

Lemma file_count : byte_at fanout 255 = Z.of_nat n.
Proof.
  rewrite file_fanout by lia. unfold count_le. rewrite filter_all.
  - unfold names. by rewrite !length_fmap, length_entries.
  - eapply Forall_impl; [apply file_heads_bytes|]. intros b []. simpl. lia.
Qed.

Lemma file_offsets : Forall is_offset offsets.
Proof.
  unfold offsets. rewrite Forall_fmap, Forall_forall. intros k Hk%entries_elem. simpl. unfold entry_offset, byte_at.
  destruct (lookup_lt_is_Some_2 (tbl_offsets table) k) as [o Ho]; [by rewrite (to_offsets _ _ Hok)|].
  rewrite Ho. pose proof (to_range _ _ Hok) as H. rewrite Forall_forall in H. by eapply H, list_elem_of_lookup_2.
Qed.
Context (sha1 : list Z -> list Z) (Hsha : forall l, length (sha1 l) = 20%nat).
Context (packChecksum : list Z) (Hchk : length packChecksum = 20%nat).
Let file := writeIdxV2 sha1 table n packChecksum.

(** The sections of the file and their lengths. *)
Lemma file_sections : exists digest, length digest = 20%nat /\
  file = IDX_MAGIC ++ be32s [2] ++ be32s fanout ++ List.concat names ++ be32s crcs ++
    be32s words.1 ++ be32s words.2 ++ packChecksum ++ digest.
Proof.
  unfold file, writeIdxV2. fold indices.
  change ((fun idx => byte_at (tbl_offsets table) idx) <$> indices) with offsets. fold words.
  destruct words as [small large]. eexists. split; [apply Hsha|]. cbn [fst snd].
  change (be32s [2]) with (be32 2). rewrite <- !app_assoc. done.
Qed.

Lemma length_names : length (List.concat names) = (20 * n)%nat.
Proof.
  destruct file_names_ok as [Hn _]. replace n with (length names) by (unfold names; by rewrite length_fmap, length_entries).
  induction Hn as [|a l [Ha _] _ IH]; [done|]. cbn [List.concat]. rewrite length_app, IH. simpl. lia.
Qed.

Lemma length_small : length words.1 = n.
Proof. unfold words. rewrite length_offset_words. unfold offsets. by rewrite length_fmap, length_entries. Qed.

Lemma file_fanout_read digest :
  (fun i => u32_at (IDX_MAGIC ++ be32s [2] ++ be32s fanout ++ digest) (8 + 4 * Z.of_nat i)) <$> seq 0 256 = fanout.
Proof.
  apply list_eq. intros i. rewrite list_lookup_fmap. pose proof file_fanout_length as Hl.
  destruct (decide (i < 256)%nat) as [Hi|Hi].
  - rewrite lookup_seq_lt, Nat.add_0_l by done. cbn [fmap option_fmap option_map].
    destruct (lookup_lt_is_Some_2 fanout i) as [w Hw]; [lia|].
    pose proof (u32_at_words (IDX_MAGIC ++ be32s [2]) fanout digest i w Hw) as H.
    rewrite <- app_assoc in H. change (Z.of_nat (length (IDX_MAGIC ++ be32s [2]))) with 8 in H.
    rewrite Hw, H. f_equal. apply Z.mod_small.
    pose proof (file_fanout i Hi) as Hc. unfold byte_at in Hc. rewrite Hw in Hc. simpl in Hc. subst w.
    pose proof (length_filter (fun f => f <= Z.of_nat i) (default 0 ∘ head <$> names)) as Hle.
    rewrite length_fmap in Hle. unfold names in Hle. rewrite length_fmap, length_entries in Hle.
    pose proof (to_count _ _ Hok). unfold count_le. fold names in Hle. lia.
  - rewrite lookup_seq_ge by lia. by rewrite lookup_ge_None_2 by lia.
Qed.

Lemma file_offsets_read pre digest :
  read_offsets (pre ++ be32s words.1 ++ be32s words.2 ++ digest) (Z.of_nat (length pre))
    (Z.of_nat (length pre) + 4 * Z.of_nat n) (Z.of_nat (length pre) + 4 * Z.of_nat n + 4 * Z.of_nat (length words.2)) n
  = inr (Some offsets).
Proof.
  assert (length offsets = n) as Hl by (unfold offsets; by rewrite length_fmap, length_entries).
  rewrite <- Hl at 3. pose proof (to_count _ _ Hok).
  apply (read_offset_words _ _ 0); [apply file_offsets | done | lia | | |].
  - intros i w Hi. apply (u32_at_words pre _ _ _ _ Hi).
  - intros i w Hi. pose proof (u32_at_words (pre ++ be32s words.1) _ digest _ _ Hi) as H'.
    rewrite <- app_assoc in H'. rewrite <- H'. f_equal. rewrite length_app, length_be32s, length_small. lia.
  - fold words. lia.
Qed.

Lemma parse_file packKey packSize :
  20 <= packSize <= 2 ^ 53 - 1 -> exists digest, length digest = 20%nat /\
  parseIdxView packKey file packSize = inr (Some (mkIdxView packKey (Z.of_nat n) fanout (List.concat names) offsets
    (next_offsets (byte_at offsets <$> sort_offsets offsets) (sort_offsets offsets) packSize)
    (byte_at offsets <$> sort_offsets offsets) (sort_offsets offsets) packSize packChecksum digest)).
Proof.
  intros Hsize. destruct file_sections as (digest & Hd & E). exists digest. split; [done|].
  assert (Z.of_nat (length file) = 8 + 1024 + 28 * Z.of_nat n + 4 * Z.of_nat (length words.2) + 40) as Hlen.
  { rewrite E, !length_app, !length_be32s, length_names, length_small, file_fanout_length, Hchk, Hd.
    unfold crcs. rewrite length_fmap, length_entries. simpl. lia. }
  unfold parseIdxView.
  replace (negb (is_safe packSize) || (packSize <? 20)) with false
    by (symmetry; unfold is_safe; apply orb_false_iff; split;
        [apply negb_false_iff, andb_true_iff; split; apply Z.leb_le; lia | apply Z.ltb_ge; lia]).
  unfold IDX_TRAILER_BYTES. rewrite Hlen. rewrite (proj2 (Z.ltb_ge _ (8 + _ + _))) by lia.
  assert (take 4 file = IDX_MAGIC) as -> by (by rewrite E).
  rewrite bool_decide_eq_true_2 by done. cbn [negb].
  assert (u32_at file 4 = 2) as ->.
  { rewrite E. change 4 with (Z.of_nat (length IDX_MAGIC) + 4 * Z.of_nat 0). by apply (u32_at_words _ _ _ _ 2). }
  cbn [Z.eqb Pos.eqb negb andb].
  assert ((fun i => u32_at file (8 + 4 * Z.of_nat i)) <$> seq 0 256 = fanout) as ->
    by (rewrite E; apply file_fanout_read).
  rewrite file_count. cbv zeta.
  rewrite (proj2 (Z.ltb_ge _ (8 + 256 * 4 + Z.of_nat n * 20))) by lia. cbn [orb].
  rewrite (proj2 (Z.ltb_ge (_ + 40 - 40) _)) by lia.
  set (pre := IDX_MAGIC ++ be32s [2] ++ be32s fanout ++ List.concat names ++ be32s crcs).
  assert (length pre = (1032 + 24 * n)%nat) as Hpre.
  { unfold pre. rewrite !length_app, !length_be32s, length_names, file_fanout_length.
    unfold crcs. rewrite length_fmap, length_entries. simpl. lia. }
  assert (file = pre ++ be32s words.1 ++ be32s words.2 ++ packChecksum ++ digest) as E'
    by (unfold pre; rewrite <- !app_assoc; exact E).
  pose proof (file_offsets_read pre (packChecksum ++ digest)) as Hread. rewrite <- E' in Hread.
  replace (8 + 256 * 4 + Z.of_nat n * 20 + Z.of_nat n * 4) with (Z.of_nat (length pre)) by lia.
  replace (Z.of_nat n * 4) with (4 * Z.of_nat n) by lia.
  replace (8 + 1024 + 28 * Z.of_nat n + 4 * Z.of_nat (length words.2) + 40 - 40)
    with (Z.of_nat (length pre) + 4 * Z.of_nat n + 4 * Z.of_nat (length words.2)) by lia.
  rewrite Nat2Z.id, Hread. do 3 f_equal.
  - rewrite E. unfold slice.
    rewrite (app_assoc IDX_MAGIC), (app_assoc (IDX_MAGIC ++ be32s [2])).
    rewrite drop_app_length' by (rewrite !length_app, !length_be32s, file_fanout_length; simpl; lia).
    apply take_app_length'. rewrite length_names. lia.
  - rewrite E', (app_assoc pre), (app_assoc (pre ++ _)). unfold slice.
    rewrite drop_app_length' by (rewrite !length_app, Hchk, Hd; lia). by apply take_app_length'.
  - rewrite E', (app_assoc pre), (app_assoc (pre ++ _)), (app_assoc ((pre ++ _) ++ _)). unfold slice.
    rewrite drop_app_length' by (rewrite !length_app, Hchk, Hd; lia). apply take_ge. lia.
Qed.
End File.

(** ** Properties *)

(** The offset at which the entry after that at [o] starts, or the trailer. *)
Definition next_entry (offsets : list Z) (packSize o next : Z) : Prop :=
  (next ∈ offsets /\ o < next /\ forall o', o' ∈ offsets -> o < o' -> next <= o') \/
  (next = packSize - 20 /\ forall o', o' ∈ offsets -> o' <= o).

Lemma entries_offsets table n : length (tbl_offsets table) = n ->
  entry_offset table <$> buildOidSortedEntryIndices table n ≡ₚ tbl_offsets table.
Proof.
  intros Hl. unfold buildOidSortedEntryIndices. rewrite js_sort_perm.
  assert (entry_offset table <$> seq 0 n = tbl_offsets table) as ->; [|done].
  apply list_eq. intros i. rewrite list_lookup_fmap. destruct (decide (i < n)%nat).
  - rewrite lookup_seq_lt by done. simpl. unfold entry_offset, byte_at.
    destruct (lookup_lt_is_Some_2 (tbl_offsets table) i) as [o Ho]; [lia|]. by rewrite Ho.
  - rewrite lookup_seq_ge by lia. by rewrite lookup_ge_None_2 by lia.
Qed.

(** A view whose offset tables are those of [offsets]. *)
Record offsets_ok (view : IdxView) (offsets : list Z) : Prop := {
  oo_offsets : iv_offsets view = offsets;
  oo_indices : iv_sortedOffsetIndices view = sort_offsets offsets;
  oo_sorted : iv_sortedOffsets view = byte_at offsets <$> sort_offsets offsets;
  oo_next : iv_nextOffsetByIndex view =
    next_offsets (byte_at offsets <$> sort_offsets offsets) (sort_offsets offsets) (iv_packSize view) }.

Lemma findOffsetIndex_spec view offsets o : offsets_ok view offsets ->
  match findOffsetIndex view o with
  | Some k => offsets !! k = Some o
  | None => o ∉ offsets
  end.
Proof.
  intros [_ Hi Hs _]. unfold findOffsetIndex. rewrite Hi, Hs.
  pose proof (search_offset offsets o) as H. destruct (search _ _ _) as [m|]; simpl; [|done].
  destruct H as [Hm Ho]. apply list_lookup_fmap_Some in Ho as (k & -> & Hk). rewrite Hk.
  by destruct (sorted_lookup offsets _ _ Hk).
Qed.

Lemma findOffsetIndex_found view offsets k o : offsets_ok view offsets -> NoDup offsets ->
  offsets !! k = Some o -> findOffsetIndex view o = Some k.
Proof.
  intros Hok Hnd Hk. pose proof (findOffsetIndex_spec view offsets o Hok) as H.
  destruct (findOffsetIndex view o) as [k'|].
  - f_equal. by eapply NoDup_lookup.
  - destruct H. by eapply list_elem_of_lookup_2.
Qed.

Lemma next_found view offsets k o : offsets_ok view offsets -> NoDup offsets ->
  iv_count view = Z.of_nat (length offsets) -> offsets !! k = Some o ->
  exists next, getNextOffset view o = Some next /\ getNextOffsetByIndex view (Z.of_nat k) = Some next /\
    next_entry offsets (iv_packSize view) o next.
Proof.
  intros Hok Hnd Hc Hk. destruct (next_offsets_spec offsets (iv_packSize view) k o Hnd Hk) as (next & Hnext & Hspec).
  exists next. unfold getNextOffset, getNextOffsetByIndex.
  rewrite (findOffsetIndex_found view offsets k o Hok Hnd Hk), Hc. simpl. rewrite (oo_next _ _ Hok), Nat2Z.id.
  apply lookup_lt_Some in Hk. rewrite (proj2 (Z.ltb_ge _ 0)), (proj2 (Z.leb_gt _ (Z.of_nat k))) by lia. done.
Qed.

Lemma next_entry_perm offsets offsets' packSize o next :
  offsets ≡ₚ offsets' -> next_entry offsets packSize o next -> next_entry offsets' packSize o next.
Proof. unfold next_entry. intros E. setoid_rewrite E. done. Qed.

(** What the view of a written table answers about its [i]-th name. *)
Section Answers.
Context (table : PackEntryTable) (n : nat) (Hok : table_ok table n) (Hnd : NoDup (tbl_offsets table)).
Let indices := buildOidSortedEntryIndices table n.
Context (view : IdxView) (Hnames : names_ok view (entry_oid table <$> indices)).
Context (Hoffs : offsets_ok view (entry_offset table <$> indices)) (Hcount : iv_count view = Z.of_nat n).

Lemma offsets_perm : entry_offset table <$> indices ≡ₚ tbl_offsets table.
Proof. by apply entries_offsets, Hok. Qed.

Lemma answers_found i k : indices !! i = Some k ->
  exists next,
    getOidHexAt view i = bytesToHex (entry_oid table k) /\
    iv_offsets view !! i = Some (entry_offset table k) /\
    findOffsetIndex view (entry_offset table k) = Some i /\
    getNextOffset view (entry_offset table k) = Some next /\
    getNextOffsetByIndex view (Z.of_nat i) = Some next /\
    next_entry (tbl_offsets table) (iv_packSize view) (entry_offset table k) next.
Proof.
  intros Hk. pose proof offsets_perm as Hperm. set (offsets := entry_offset table <$> indices) in *.
  assert (length offsets = n) as Hlen by (unfold offsets; rewrite length_fmap; by apply length_entries).
  assert (NoDup offsets) as Hnd' by (by rewrite Hperm).
  assert (offsets !! i = Some (entry_offset table k)) as Ho by (unfold offsets; by rewrite list_lookup_fmap, Hk).
  rewrite <- Hlen in Hcount. destruct (next_found view offsets _ _ Hoffs Hnd' Hcount Ho) as (next & H1 & H2 & H3).
  exists next. split_and!; [| by rewrite (oo_offsets _ _ Hoffs) | by apply (findOffsetIndex_found view offsets) | done | done |
    by apply (next_entry_perm offsets)].
  unfold getOidHexAt. f_equal. rewrite (no_raw _ _ Hnames). pose proof (no_names _ _ Hnames) as Hn.
  destruct (lookup_concat_blocks 20 (entry_oid table <$> indices) i (entry_oid table k)) as (pre & post & -> & <-);
    [eapply Forall_impl; [exact Hn | by intros ? []] | by rewrite list_lookup_fmap, Hk |].
  destruct (entry_oid_at table n Hok k) as (_ & Hl & _); [by eapply entries_elem, list_elem_of_lookup_2|].
  rewrite <- Hl. apply slice_mid.
Qed.

Lemma answers_oid oid : length oid = 20%nat -> is_bytes oid ->
  let i := findOidIndexFromBytes view oid 0 in
  (i = -1 /\ forall k, (k < n)%nat -> entry_oid table k <> oid) \/
  exists k, (k < n)%nat /\ entry_oid table k = oid /\ 0 <= i < Z.of_nat n /\ indices !! Z.to_nat i = Some k.
Proof.
  intros Hl Hb. destruct (findOidIndexFromBytes_spec view _ Hnames oid 0 oid) as [[-> H]|[Hi H]]; try done; [lia | | |].
  - pose proof (name_at_mid [] oid [] Hl) as E. by rewrite app_nil_r in E.
  - left. split; [done|]. intros k Hk <-. apply H, list_elem_of_fmap. exists k. split; [done|]. by apply entries_elem.
  - right. apply list_lookup_fmap_Some in H as (k & -> & Hk). exists k.
    split_and!; [by eapply entries_elem, list_elem_of_lookup_2 | done | done | | done].
    apply lookup_lt_Some in Hk. unfold indices in Hk. rewrite length_entries in Hk. lia.
Qed.
End Answers.

(** C39: the index written for a table of entries is parsed into a view that
    answers as the table would.  An object id is found exactly when an entry has
    it, and the answer names that entry: its id, its offset in the pack, its place
    by offset, and the offset where the next entry - or the trailer - starts; an
    offset no entry has is not found. *)
Theorem pack_index_lookup sha1 table n packChecksum packKey packSize :
  (forall l, length (sha1 l) = 20%nat) -> table_ok table n -> length packChecksum = 20%nat ->
  20 <= packSize <= 2 ^ 53 - 1 -> NoDup (tbl_offsets table) ->
  exists view,
    parseIdxView packKey (writeIdxV2 sha1 table n packChecksum) packSize = inr (Some view) /\
    iv_count view = Z.of_nat n /\ iv_packChecksum view = packChecksum /\
    (forall oid, length oid = 20%nat -> is_bytes oid ->
      let i := findOidIndexFromBytes view oid 0 in
      (i = -1 /\ forall k, (k < n)%nat -> entry_oid table k <> oid) \/
      exists k next, (k < n)%nat /\ entry_oid table k = oid /\ 0 <= i < Z.of_nat n /\
        getOidHexAt view (Z.to_nat i) = bytesToHex oid /\
        iv_offsets view !! Z.to_nat i = Some (entry_offset table k) /\
        findOffsetIndex view (entry_offset table k) = Some (Z.to_nat i) /\
        getNextOffset view (entry_offset table k) = Some next /\
        getNextOffsetByIndex view i = Some next /\
        next_entry (tbl_offsets table) packSize (entry_offset table k) next) /\
    (forall o, o ∉ tbl_offsets table -> findOffsetIndex view o = None).
Proof.
  intros Hsha Hok Hchk Hsize Hnd.
  destruct (parse_file table n Hok sha1 Hsha packChecksum Hchk packKey packSize Hsize) as (digest & Hd & Hparse).
  destruct (file_names_ok table n Hok) as [Hn Hs].
  eexists. split; [exact Hparse|]. split; [done|]. split; [done|]. set (view := mkIdxView _ _ _ _ _ _ _ _ _ _ _).
  assert (names_ok view (entry_oid table <$> buildOidSortedEntryIndices table n)) as Hnames
    by (split; [done | done | done |]; intros b Hb; by apply file_fanout).
  assert (offsets_ok view (entry_offset table <$> buildOidSortedEntryIndices table n)) as Hoffs by done.
  split.
  - intros oid Hl Hb. destruct (answers_oid table n view Hnames oid Hl Hb) as [H|(k & Hkn & <- & Hi & Hk)]; [by left|].
    right. destruct (answers_found table n Hok Hnd view Hnames Hoffs eq_refl _ k Hk) as (next & H).
    rewrite Z2Nat.id in H by lia. exists k, next. tauto.
  - intros o Ho. pose proof (findOffsetIndex_spec view _ o Hoffs) as H.
    destruct (findOffsetIndex view o) as [k|]; [|done]. destruct Ho.
    rewrite <- (offsets_perm table n Hok). by eapply list_elem_of_lookup_2.
Qed.

Lemma pack_index_lookup_witness :
  exists view, parseIdxView "k" (writeIdxV2 (fun _ => replicate 20 0)
      (mkTable 2 [12; 3000000000] [3; 3] [3; 3] [1; 1] [40; 90] [5; 6] (replicate 20 9 ++ replicate 20 4) [1; 1] [0; 0] [1; 1])
      2 (replicate 20 7)) 4000000000 = inr (Some view) /\
    findOidIndexFromBytes view (replicate 20 9) 0 <> -1.
Proof.
  destruct (pack_index_lookup (fun _ => replicate 20 0)
    (mkTable 2 [12; 3000000000] [3; 3] [3; 3] [1; 1] [40; 90] [5; 6] (replicate 20 9 ++ replicate 20 4) [1; 1] [0; 0] [1; 1])
    2 (replicate 20 7) "k" 4000000000) as (view & H1 & _ & _ & H2 & _).
  - done.
  - split; [done | by apply is_bytes_check | done | repeat constructor; done | done].
  - done.
  - lia.
  - apply NoDup_cons. split; [|apply NoDup_singleton]. intros [=]%list_elem_of_singleton.
  - exists view. split; [exact H1|]. intros E.
    destruct (H2 (replicate 20 9) eq_refl (is_bytes_check (replicate 20 9) eq_refl)) as [[_ H]|(k & next & _ & _ & H & _)].
    + apply (H 0%nat); [lia | reflexivity].
    + rewrite E in H. lia.
Defined.
