(* ===== verification/ByteCache.v ===== *)
(** * Caches bounded by bytes

    The isolate-wide caches of parsed index files and reference sidecars:
    [touchIdxViewCache] of [git/object-store/idxView.ts] and
    [touchPackRefViewCache] of [git/pack/refIndex.ts].  Both keep a [Map] from a
    key to a view and its size, in the order of the last use, and a running total
    of bytes. *)
From S2P Require Import Prelude Text.

(** ** Definitions *)

Section Cache.
Context {V : Type} (MAX_BYTES : Z).

Record ByteCache := mkCache { entries : list (string * (V * Z)); cacheBytes : Z }.

Definition emptyCache : ByteCache := mkCache [] 0.

(** The eviction loop; every turn but the last deletes an entry, so the number of
    entries is enough fuel. *)
Fixpoint evict (fuel : nat) (c : ByteCache) : ByteCache :=
  match fuel with
  | O => c
  | S fuel =>
    if MAX_BYTES <? cacheBytes c then
      match entries c with
      | [] => c
      | (firstKey, first) :: rest =>
        if str_eq firstKey "" then c
        else evict fuel (mkCache (AMap.remove firstKey (entries c)) (cacheBytes c - first.2))
      end
    else c
  end.

Definition drop_existing (key : string) (c : ByteCache) : ByteCache :=
  match AMap.lookup key (entries c) with
  | Some existing => mkCache (AMap.remove key (entries c)) (cacheBytes c - existing.2)
  | None => c
  end.

Definition touch (key : string) (view : V) (bytes : Z) (c : ByteCache) : ByteCache :=
  let c := drop_existing key c in
  if MAX_BYTES <? bytes then c
  else
    let c := mkCache (AMap.set key (view, bytes) (entries c)) (cacheBytes c + bytes) in
    evict (length (entries c)) c.

(** ** Invariant *)

Definition total (l : list (string * (V * Z))) : Z := foldr (fun e acc => e.2.2 + acc) 0 l.

Record cache_ok (c : ByteCache) : Prop := {
  co_total : cacheBytes c = total (entries c);
  co_keys : NoDup (AMap.keys (entries c));
  co_named : forall k, k ∈ AMap.keys (entries c) -> k <> ""%string;
  co_sizes : Forall (fun e : string * (V * Z) => 0 <= e.2.2) (entries c);
  co_max : cacheBytes c <= MAX_BYTES }.

Lemma total_app l r : total (l ++ r) = total l + total r.
Proof. induction l as [|e l IH]; simpl; [done|]. rewrite IH. lia. Qed.

Lemma remove_head k v (l : list (string * (V * Z))) :
  NoDup (AMap.keys ((k, v) :: l)) -> AMap.remove k ((k, v) :: l) = l.
Proof.
  intros [Hk _]%NoDup_cons. unfold AMap.remove. simpl. unfold str_eq at 1. rewrite bool_decide_eq_true_2 by done. simpl.
  apply AMap.remove_absent, AMap.lookup_none_keys. exact Hk.
Qed.

(** Removing a key takes its size off the total. *)
Lemma total_remove k v (l : list (string * (V * Z))) :
  NoDup (AMap.keys l) -> AMap.lookup k l = Some v -> total (AMap.remove k l) = total l - v.2.
Proof.
  induction l as [|[k' v'] l IH]; [done|]. intros Hnd. cbn [AMap.lookup]. destruct (str_eq k' k) eqn:E.
  - intros [= ->]. to_prop. subst k'. rewrite (remove_head k v) by done. simpl. lia.
  - intros Hl. apply NoDup_cons in Hnd as [_ Hnd]. specialize (IH Hnd Hl). unfold AMap.remove in *.
    simpl. rewrite E. simpl. rewrite IH. lia.
Qed.

Lemma drop_existing_ok key c : cache_ok c ->
  cache_ok (drop_existing key c) /\ key ∉ AMap.keys (entries (drop_existing key c)).
Proof.
  intros [Ht Hk Hn Hs Hm]. unfold drop_existing. destruct (AMap.lookup key (entries c)) as [v|] eqn:E.
  - assert (0 <= v.2) as Hv.
    { rewrite Forall_forall in Hs. apply (Hs (key, v)). by apply (AMap.lookup_of_list_NoDup _ key v Hk). }
    split; [|apply AMap.lookup_none_keys; simpl; rewrite AMap.lookup_remove;
             unfold str_eq; by rewrite bool_decide_eq_true_2].
    split; simpl; [by rewrite (total_remove key v), Ht by done | by apply AMap.NoDup_remove | | | lia].
    + intros k Hin. apply Hn. unfold AMap.keys, AMap.remove in Hin.
      apply list_elem_of_fmap in Hin as (e & -> & [He _]%elem_of_js_filter).
      apply list_elem_of_fmap. eauto.
    + rewrite Forall_forall in *. intros e [He _]%elem_of_js_filter. by apply Hs.
  - split; [by split | by apply AMap.lookup_none_keys].
Qed.

(** Evicting stops within the bound, keeping a suffix of the entries. *)
Lemma evict_suffix fuel c :
  cacheBytes c = total (entries c) -> NoDup (AMap.keys (entries c)) ->
  (forall k, k ∈ AMap.keys (entries c) -> k <> ""%string) -> (length (entries c) <= fuel)%nat -> 0 <= MAX_BYTES ->
  exists gone, entries c = gone ++ entries (evict fuel c) /\
    cacheBytes (evict fuel c) = total (entries (evict fuel c)) /\ cacheBytes (evict fuel c) <= MAX_BYTES /\
    (forall g e, gone = g ++ [e] -> MAX_BYTES < total (e :: entries (evict fuel c))).
Proof.
  revert c. induction fuel as [|fuel IH]; intros c Ht Hk Hn Hf Hmax.
  - destruct (entries c) eqn:E; [|simpl in Hf; lia]. exists []. simpl in *. rewrite E in *.
    split_and!; [done | done | simpl in Ht; lia | intros g e H; by destruct g].
  - cbn [evict]. destruct (MAX_BYTES <? cacheBytes c) eqn:Em; to_prop.
    2: { exists []. split_and!; [done.. | intros g e H; by destruct g]. }
    destruct (entries c) as [|[k v] rest] eqn:E; [simpl in Ht; lia|].
    rewrite (bool_decide_eq_false_2 (k = ""%string)) by (apply Hn, list_elem_of_here).
    rewrite remove_head by done. apply NoDup_cons in Hk as [_ Hk].
    destruct (IH (mkCache rest (cacheBytes c - v.2))) as (gone & E1 & E2 & E3 & E4);
      [simpl in *; lia | done | intros k' Hk'; apply Hn; by apply list_elem_of_further | simpl in *; lia | done |].
    exists ((k, v) :: gone). simpl in E1. split_and!; [simpl; by f_equal | done | done |].
    intros g e Hg. destruct gone as [|e0 gone].
    + destruct g as [|? [|]]; [|done..]. injection Hg as <-. simpl in E1. rewrite <- E1. simpl in *. lia.
    + destruct g as [|e1 g]; [done|]. injection Hg as <- Hg. by apply (E4 g e).
Qed.

(** What is touched is kept as the last entry unless it alone is too large, the
    others stay while they fit, and the invariant holds. *)
Lemma touch_spec key view bytes c :
  cache_ok c -> key <> ""%string -> 0 <= bytes -> 0 <= MAX_BYTES ->
  cache_ok (touch key view bytes c) /\
  (bytes <= MAX_BYTES -> last (entries (touch key view bytes c)) = Some (key, (view, bytes))).
Proof.
  intros Hok Hkey Hb Hmax. destruct (drop_existing_ok key c Hok) as [[Ht Hk Hn Hs Hm] Hnot]. unfold touch.
  destruct (MAX_BYTES <? bytes) eqn:E; to_prop; [split; [by split | lia]|].
  rewrite AMap.keys_set_absent by done. set (c' := mkCache _ _).
  assert (AMap.keys (entries c') = AMap.keys (entries (drop_existing key c)) ++ [key]) as Ek
    by (unfold AMap.keys; simpl; by rewrite fmap_app).
  assert (NoDup (AMap.keys (entries c'))) as Hnd.
  { rewrite Ek. apply NoDup_app. split_and!; [done | | apply NoDup_singleton].
    intros x Hx ->%list_elem_of_singleton. done. }
  assert (forall k, k ∈ AMap.keys (entries c') -> k <> ""%string) as Hnamed.
  { intros k. rewrite Ek, elem_of_app, list_elem_of_singleton. intros [H| ->]; [by apply Hn | done]. }
  destruct (evict_suffix (length (entries c')) c') as (gone & E1 & E2 & E3 & E4); try done.
  { simpl. rewrite total_app, Ht. simpl. lia. }
  assert (exists kept, entries (evict (length (entries c')) c') = kept ++ [(key, (view, bytes))]) as [kept Hkept].
  { destruct (entries (evict (length (entries c')) c')) as [|e l] eqn:El using rev_ind; [|].
    - rewrite app_nil_r in E1. simpl in E1. specialize (E4 _ _ (eq_sym E1)). simpl in E4. lia.
    - exists l. rewrite app_assoc in E1. simpl in E1. by apply app_inj_tail in E1 as [_ <-]. }
  split; [|intros _; rewrite Hkept; apply last_snoc].
  unfold AMap.keys in *. rewrite E1, fmap_app in Hnd, Hnamed. split; [done | | | | done].
  - by apply NoDup_app in Hnd as (_ & _ & ?).
  - intros k Hin. apply Hnamed. apply elem_of_app. by right.
  - assert (Forall (fun e : string * (V * Z) => 0 <= e.2.2) (entries c')) as Hall.
    { simpl. apply Forall_app. split; [done | by repeat constructor]. }
    rewrite E1 in Hall. by apply Forall_app in Hall as [_ ?].
Qed.
End Cache.
