(* ===== verification/GitObjects.v ===== *)
(** * Git objects and what they refer to

    [git/core/objects.ts] (the raw form of an object), [git/core/commitParse.ts]
    and [git/core/object-parse.ts]: the readers of commits, trees and tags that
    the fetch closure and the connectivity check use.

    A text is the list of its UTF-8 bytes.  [TextDecoder] drops a leading byte
    order mark and turns ill-formed sequences into a replacement character, which
    no pattern here matches: [decode] keeps the bytes.  The regular expressions
    have the flag [m], so [^] matches after every line terminator. *)
From S2P Require Import Prelude Text Bytes PackEntry.
From Stdlib Require Import Ascii.
From Stdlib Require String.

(** ** Definitions *)

Definition typeName (t : GitObjectType) : string :=
  match t with ObjCommit => "commit" | ObjTree => "tree" | ObjBlob => "blob" | ObjTag => "tag" end.

#[export] Instance GitObjectType_eq : EqDecision GitObjectType.
Proof. solve_decision. Defined.

Definition typeCodeToObjectType (typeCode : Z) : option GitObjectType :=
  if typeCode =? 1 then Some ObjCommit else if typeCode =? 2 then Some ObjTree
  else if typeCode =? 3 then Some ObjBlob else if typeCode =? 4 then Some ObjTag else None.

(** Text as a string, and back ([encode]). *)
Definition text (l : list Z) : string := unchars (ascii_of_nat ∘ Z.to_nat <$> l).

Definition decode (payload : list Z) : list Z :=
  match payload with 239 :: 187 :: 191 :: r => r | _ => payload end.

(** *** The raw form *)

Definition encodeGitObjectHeader (type : GitObjectType) (payloadLength : nat) : list Z :=
  encode (typeName type ++ " " ++ pretty (Z.of_nat payloadLength)) ++ [0].

Definition buildRawGitObject (type : GitObjectType) (payload : list Z) : list Z :=
  encodeGitObjectHeader type (length payload) ++ payload.

(** The bytes before the first [c] and those after it. *)
Fixpoint split_at (c : Z) (l : list Z) : option (list Z * list Z) :=
  match l with
  | [] => None
  | x :: r => if x =? c then Some ([], r) else (fun '(a, b) => (x :: a, b)) <$> split_at c r
  end.

Definition before (c : Z) (l : list Z) : list Z :=
  match split_at c l with Some (a, _) => a | None => l end.

(** [None]: no null byte, or an unknown type; both throw. *)
Definition parseGitObject (raw : list Z) : option (GitObjectType * list Z) :=
  '(header, payload) ← split_at 0 raw;
  let typeStr := before 32 (decode header) in
  t ← js_find (fun t => bool_decide (typeStr = encode (typeName t))) [ObjCommit; ObjTree; ObjBlob; ObjTag];
  Some (t, payload).

(** *** Commits *)

(** The suffixes that begin after a line terminator. *)
Fixpoint after_terminators (l : list Z) : list (list Z) :=
  match l with
  | [] => []
  | c :: r =>
    let here :=
      if (c =? 10) || (c =? 13) then [r]
      else match r with
           | b :: d :: r' => if (c =? 226) && (b =? 128) && ((d =? 168) || (d =? 169)) then [r'] else []
           | _ => []
           end in
    here ++ after_terminators r
  end.

(** Where [^] matches. *)
Definition line_starts (l : list Z) : list (list Z) := l :: after_terminators l.

Fixpoint strip_prefix (p l : list Z) : option (list Z) :=
  match p, l with
  | [], _ => Some l
  | a :: p, b :: l => if a =? b then strip_prefix p l else None
  | _ :: _, [] => None
  end.

Definition lower_hex (c : Z) : bool := (48 <=? c) && (c <=? 57) || (97 <=? c) && (c <=? 102).

(** [([0-9a-f]{40})]. *)
Definition hex40 (l : list Z) : option (list Z) :=
  let digits := take 40 l in
  if (length digits =? 40)%nat && forallb lower_hex digits then Some digits else None.

(** [^prefix([0-9a-f]{40})] at a line start. *)
Definition oid_after (prefix : string) (l : list Z) : option (list Z) :=
  r ← strip_prefix (encode prefix) l; hex40 r.

(** [.+] up to the end of the line. *)
Fixpoint rest_of_line (l : list Z) : list Z :=
  match l with
  | [] => []
  | c :: r =>
    if (c =? 10) || (c =? 13) then []
    else match r with
         | b :: d :: _ =>
           if (c =? 226) && (b =? 128) && ((d =? 168) || (d =? 169)) then [] else c :: rest_of_line r
         | _ => c :: rest_of_line r
         end
  end.

Definition line_after (prefix : string) (l : list Z) : option (list Z) :=
  r ← strip_prefix (encode prefix) l;
  match rest_of_line r with [] => None | line => Some line end.

Fixpoint index_of (p l : list Z) : option (list Z) :=
  match strip_prefix p l with
  | Some r => Some r
  | None => match l with [] => None | _ :: l => index_of p l end
  end.

Record Signature := mkSignature { sig_name : list Z; sig_email : list Z; sig_when : Z; sig_tz : list Z }.

Definition digit (c : Z) : bool := (48 <=? c) && (c <=? 57).

Fixpoint span (p : Z -> bool) (l : list Z) : list Z * list Z :=
  match l with
  | c :: r => if p c then let '(a, b) := span p r in (c :: a, b) else ([], l)
  | [] => ([], [])
  end.

(** [\s+]. *)
Definition spaces (l : list Z) : option (list Z) :=
  r ← js_space l; Some (skip_space (length r) r).

(** After the name: an address up to [>], the seconds and the zone. *)
Definition signature_rest (name l : list Z) : option Signature :=
  let '(email, r) := span (fun c => negb (c =? 62)) l in
  match email, r with
  | _ :: _, _ :: r =>
    r ← spaces r;
    let '(digits, r) := span digit r in
    match digits with
    | [] => None
    | _ =>
      r ← spaces r;
      match r with
      | [s; a; b; c; d] =>
        if ((s =? 43) || (s =? 45)) && forallb digit [a; b; c; d]
        then Some (mkSignature name email (foldl (fun n c => n * 10 + (c - 48)) 0 digits) r)
        else None
      | _ => None
      end
    end
  | _, _ => None
  end.

(** The name is everything before a [ <], the last that works. *)
Fixpoint signature_from (name l : list Z) : option Signature :=
  match l with
  | [] => None
  | c :: r =>
    match signature_from (name ++ [c]) r with
    | Some s => Some s
    | None => r' ← strip_prefix (encode " <") l; signature_rest name r'
    end
  end.

Definition parseSignature (sig : list Z) : option Signature := signature_from [] sig.

Record CommitParsed := mkCommit {
  c_tree : list Z; c_parents : list (list Z);
  c_author : option Signature; c_committer : option Signature; c_message : list Z }.

Definition first_some {A B} (f : A -> option B) (l : list A) : option B := head (omap f l).

Definition parseCommitText (t : list Z) : CommitParsed :=
  let starts := line_starts t in
  mkCommit
    (default [] (first_some (oid_after "tree ") starts))
    (omap (oid_after "parent ") starts)
    (first_some (line_after "author ") starts ≫= parseSignature)
    (first_some (line_after "committer ") starts ≫= parseSignature)
    (default [] (index_of [10; 10] t)).

(** The tree - the empty text when there is none - and the parents. *)
Definition parseCommitRefs (payload : list Z) : string * list string :=
  let c := parseCommitText (decode payload) in (text (c_tree c), text <$> c_parents c).

(** *** Trees *)

(** Every turn consumes a byte. *)
Fixpoint tree_children (fuel : nat) (l : list Z) : list (list Z) :=
  match fuel with
  | O => []
  | S fuel =>
    match split_at 32 l with
    | None => []
    | Some (_, r) =>
      (* [nul] is at the null byte, or at the end when there is none *)
      let tail := match split_at 0 r with Some (_, r) => Some r | None => None end in
      match tail with
      | None => []
      | Some r =>
        if (length r + 1 <? 20)%nat then []
        else take 20 r :: tree_children fuel (drop 20 r)
      end
    end
  end.

Definition parseTreeChildOids (payload : list Z) : list string :=
  bytesToHex <$> tree_children (length payload) payload.

(** *** Tags *)

(** [^object\s+([0-9a-f]{40})] *)
Definition tag_object (l : list Z) : option (list Z) :=
  r ← strip_prefix (encode "object") l; r ← spaces r; hex40 r.

(** [^type\s+(commit|tree|blob|tag)] *)
Definition tag_type (l : list Z) : option GitObjectType :=
  r ← strip_prefix (encode "type") l; r ← spaces r;
  js_find (fun t => bool_decide (is_Some (strip_prefix (encode (typeName t)) r))) [ObjCommit; ObjTree; ObjBlob; ObjTag].

Definition parseTagTarget (payload : list Z) : option (string * GitObjectType) :=
  let starts := line_starts (decode payload) in
  oid ← first_some tag_object starts;
  t ← first_some tag_type starts;
  Some (toLowerCase (text oid), t).

(** ** Lemmas *)

Lemma split_at_line c l r : (c ∉ l) -> split_at c (l ++ c :: r) = Some (l, r).
Proof.
  induction l as [|x l IH]; intros H; cbn [app split_at]; [by rewrite Z.eqb_refl|].
  apply not_elem_of_cons in H as [Hx H]. rewrite (proj2 (Z.eqb_neq x c)) by congruence. by rewrite IH.
Qed.

Lemma split_at_none c l : (c ∉ l) -> split_at c l = None.
Proof.
  induction l as [|x l IH]; intros H; cbn [split_at]; [done|].
  apply not_elem_of_cons in H as [Hx H]. rewrite (proj2 (Z.eqb_neq x c)) by congruence. by rewrite IH.
Qed.

Lemma strip_prefix_spec p l r : strip_prefix p l = Some r <-> l = p ++ r.
Proof.
  revert l. induction p as [|a p IH]; intros l; cbn [strip_prefix app]; [naive_solver|].
  destruct l as [|b l]; [done|]. destruct (Z.eqb_spec a b) as [->|Hne]; [rewrite IH; naive_solver | naive_solver].
Qed.
