(* ===== verification/PackRefs.v ===== *)
(** * The reference sidecar of a pack

    [git/pack/refIndex.ts]: beside each pack lies a file that holds, for every
    object in the order of the index, its type and the ids it refers to.  The
    references are read from the raw bytes of commits, trees and tags, the file is
    built from the entry table and parsed against the view of the index. *)
From S2P Require Import Prelude Text Bytes PackEntry PackIndex GitObjects.

(** ** Definitions *)

(** *** References in raw objects *)

Definition TREE_LINE_PREFIX : list Z := [116; 114; 101; 101; 32].
Definition PARENT_LINE_PREFIX : list Z := [112; 97; 114; 101; 110; 116; 32].
Definition OBJECT_LINE_PREFIX : list Z := [111; 98; 106; 101; 99; 116; 32].
Definition TYPE_LINE_PREFIX : list Z := [116; 121; 112; 101; 32].

Definition hexNibble (value : Z) : Z :=
  if (48 <=? value) && (value <=? 57) then value - 48
  else if (97 <=? value) && (value <=? 102) then value - 97 + 10
  else if (65 <=? value) && (value <=? 70) then value - 65 + 10
  else -1.

(** A line is the list of its bytes, so a position in the payload and the end of
    the line become what is left of the line. *)
Definition hasHexOidAt (l : list Z) : bool :=
  (40 <=? length l)%nat && forallb (fun c => 0 <=? hexNibble c) (take 40 l).

Fixpoint hex_bytes (l : list Z) : list Z :=
  match l with
  | a :: b :: r => Z.lor (Z.shiftl (hexNibble a) 4) (hexNibble b) :: hex_bytes r
  | _ => []
  end.

(** [writeHexOidAt]. *)
Definition readHexOid (l : list Z) : list Z := hex_bytes (take 40 l).

(** The lines up to the first empty one, without a carriage return at the end. *)
Fixpoint take_line (l : list Z) : list Z * list Z :=
  match l with
  | [] => ([], [])
  | c :: r => if c =? 10 then ([], r) else let '(line, rest) := take_line r in (c :: line, rest)
  end.

Definition strip_cr (line : list Z) : list Z :=
  match last line with
  | Some c => if c =? 13 then take (length line - 1) line else line
  | None => line
  end.

Fixpoint header_lines (fuel : nat) (payload : list Z) : list (list Z) :=
  match fuel, payload with
  | S fuel, _ :: _ =>
    let '(line, rest) := take_line payload in
    match strip_cr line with
    | [] => []
    | line => line :: header_lines fuel rest
    end
  | _, _ => []
  end.

Definition forEachHeaderLine (payload : list Z) : list (list Z) := header_lines (length payload) payload.

(** The id after [prefix] on a line, when there is one. *)
Definition line_oid (prefix line : list Z) : option (list Z) :=
  match strip_prefix prefix line with
  | Some r => if hasHexOidAt r then Some (readHexOid r) else None
  | None => None
  end.

Definition parseCommitRefBytes (payload : list Z) : list Z :=
  let lines := forEachHeaderLine payload in
  default [] (first_some (line_oid TREE_LINE_PREFIX) lines)
    ++ List.concat (omap (line_oid PARENT_LINE_PREFIX) lines).

Definition isValidTagTypeLine (line : list Z) : bool :=
  match strip_prefix TYPE_LINE_PREFIX line with
  | Some r => existsb (fun t => bool_decide (is_Some (strip_prefix (encode (typeName t)) r))) [ObjCommit; ObjTree; ObjBlob; ObjTag]
  | None => false
  end.

Definition parseTagRefBytes (payload : list Z) : list Z :=
  let lines := forEachHeaderLine payload in
  match first_some (line_oid OBJECT_LINE_PREFIX) lines with
  | Some oid => if existsb isValidTagTypeLine lines then oid else []
  | None => []
  end.

Definition isGitlinkMode (mode : list Z) : bool := bool_decide (mode = encode "160000").

(** The entries of a tree that belong to its closure. *)
Fixpoint tree_closure (fuel : nat) (l : list Z) : list (list Z) :=
  match fuel with
  | O => []
  | S fuel =>
    match split_at 32 l with
    | None => []
    | Some (mode, r) =>
      match split_at 0 r with
      | None => []
      | Some (_, r) =>
        if (length r <? 20)%nat then []
        else (if isGitlinkMode mode then [] else [take 20 r]) ++ tree_closure fuel (drop 20 r)
      end
    end
  end.

Definition parseTreeClosureRefBytes (payload : list Z) : list Z := List.concat (tree_closure (length payload) payload).

Definition objectRefBytes (type : GitObjectType) (payload : list Z) : list Z :=
  match type with
  | ObjCommit => parseCommitRefBytes payload
  | ObjTree => parseTreeClosureRefBytes payload
  | ObjTag => parseTagRefBytes payload
  | ObjBlob => []
  end.

(** Slots of twenty bytes. *)
Definition oid_slots (raw : list Z) : list (list Z) :=
  (fun i => slice raw (i * 20) 20) <$> seq 0 (length raw / 20).

Definition parseTreeClosureRefs (payload : list Z) : list string :=
  bytesToHex <$> oid_slots (parseTreeClosureRefBytes payload).

(** *** Building the sidecar *)

Definition PACK_REF_MAGIC : Z := 1347568966.
Definition PACK_REF_VERSION : Z := 1.
Definition PACK_REF_HEADER_BYTES : nat := 60.

Inductive RefBuildError := UnresolvedType (entry : nat) | MissingRefs (entry : nat) | InvalidRefs (entry : nat)
  | UnsupportedPackBytes.

(** The recorded references, one slot per entry. *)
Definition PackRefsBuilder : Type := list (option (list Z)).

Definition newBuilder (objectCount : nat) : PackRefsBuilder := replicate objectCount None.

Definition recordObject (index : nat) (type : GitObjectType) (payload : list Z) (b : PackRefsBuilder) : PackRefsBuilder :=
  <[index := Some (objectRefBytes type payload)]> b.

Definition recordBlob (index : nat) (b : PackRefsBuilder) : PackRefsBuilder := <[index := Some []]> b.

(** The first loop: where the references of each object start, in slots. *)
Fixpoint ref_starts (table : PackEntryTable) (b : PackRefsBuilder) (indices : list nat) (refCount : Z) :
    RefBuildError + list Z :=
  match indices with
  | [] => inr [refCount]
  | entry :: indices =>
    match typeCodeToObjectType (byte_at (tbl_objectTypes table) entry) with
    | None => inl (UnresolvedType entry)
    | Some _ =>
      match mjoin (b !! entry) with
      | None => inl (MissingRefs entry)
      | Some refs =>
        if negb (length refs mod 20 =? 0)%nat then inl (InvalidRefs entry) else
        match ref_starts table b indices (refCount + Z.of_nat (length refs / 20)) with
        | inl e => inl e
        | inr starts => inr (refCount :: starts)
        end
      end
    end
  end.

Definition build (table : PackEntryTable) (objectCount : nat) (packBytes : Z) (packChecksum idxChecksum : list Z)
    (b : PackRefsBuilder) : RefBuildError + list Z :=
  let sortedIndices := buildOidSortedEntryIndices table objectCount in
  match ref_starts table b sortedIndices 0 with
  | inl e => inl e
  | inr refStarts =>
    if negb (is_safe packBytes) || (packBytes <? 0) then inl UnsupportedPackBytes else
    inr (be32s [PACK_REF_MAGIC; PACK_REF_VERSION; Z.of_nat objectCount; packBytes / 2 ^ 32; toUint32 packBytes]
      ++ packChecksum ++ idxChecksum
      ++ ((fun entry => byte_at (tbl_objectTypes table) entry) <$> sortedIndices)
      ++ be32s refStarts
      ++ List.concat ((fun entry => default [] (mjoin (b !! entry))) <$> sortedIndices))
  end.

(** *** Parsing it *)

Record PackRefView := mkRefView {
  rv_packKey : string;
  rv_objectCount : Z;
  rv_packBytes : Z;
  rv_packChecksum : list Z;
  rv_idxChecksum : list Z;
  rv_typeCodes : list Z;
  rv_refStarts : list Z;
  rv_rawRefs : list Z }.

Inductive PackRefValidationKind := RefCorrupt | RefStale.

Definition PackRefResult : Type := (PackRefValidationKind * string) + PackRefView.

Fixpoint monotone (previous : Z) (l : list Z) : bool :=
  match l with [] => true | v :: l => (previous <=? v) && monotone v l end.

Definition parsePackRefView (packKey : string) (bytes : list Z) (idx : IdxView) : PackRefResult :=
  let corrupt reason := inl (RefCorrupt, reason) in
  let stale reason := inl (RefStale, reason) in
  let byteLength := Z.of_nat (length bytes) in
  if byteLength <? Z.of_nat PACK_REF_HEADER_BYTES then corrupt "truncated-header"
  else if negb (u32_at bytes 0 =? PACK_REF_MAGIC) then corrupt "bad-magic"
  else if negb (u32_at bytes 4 =? PACK_REF_VERSION) then corrupt "bad-version"
  else let objectCount := u32_at bytes 8 in
  if negb (objectCount =? iv_count idx) then stale "object-count-mismatch"
  else match readUint64AsNumber bytes 12 with
  | inl _ => corrupt "pack-bytes-overflow"
  | inr packBytes =>
    if negb (packBytes =? iv_packSize idx) then stale "pack-bytes-mismatch" else
    let packChecksum := slice bytes 20 20 in
    if negb (bytesEqual packChecksum (iv_packChecksum idx)) then stale "pack-checksum-mismatch" else
    let idxChecksum := slice bytes 40 20 in
    if negb (bytesEqual idxChecksum (iv_idxChecksum idx)) then stale "idx-checksum-mismatch" else
    let typeCodesEnd := 60 + objectCount in
    if byteLength <? typeCodesEnd then corrupt "truncated-type-codes" else
    let typeCodes := slice bytes 60 (Z.to_nat objectCount) in
    if negb (forallb (fun c => bool_decide (is_Some (typeCodeToObjectType c))) typeCodes) then corrupt "invalid-type-code" else
    let startsBytes := (objectCount + 1) * 4 in
    if byteLength <? typeCodesEnd + startsBytes then corrupt "truncated-ref-starts" else
    let starts := (fun i => u32_at bytes (typeCodesEnd + 4 * Z.of_nat i)) <$> seq 0 (S (Z.to_nat objectCount)) in
    if negb (match starts with [] => true | v :: rest => monotone v rest end) then corrupt "non-monotonic-ref-starts" else
    let rawRefs := drop (Z.to_nat (typeCodesEnd + startsBytes)) bytes in
    if negb (byte_at starts (Z.to_nat objectCount) * 20 =? Z.of_nat (length rawRefs)) then corrupt "invalid-final-ref-offset"
    else inr (mkRefView packKey objectCount packBytes packChecksum idxChecksum typeCodes starts rawRefs)
  end.

Definition getPackRefTypeCode (view : PackRefView) (oidIndex : Z) : option Z :=
  if (oidIndex <? 0) || (rv_objectCount view <=? oidIndex) then None else rv_typeCodes view !! Z.to_nat oidIndex.

Definition getPackRefObjectType (view : PackRefView) (oidIndex : Z) : option GitObjectType :=
  c ← getPackRefTypeCode view oidIndex; typeCodeToObjectType c.

Definition getPackRefStart (view : PackRefView) (oidIndex : nat) : Z := byte_at (rv_refStarts view) oidIndex.

Definition getPackRefRawRefAt (view : PackRefView) (oidIndex refOffset : Z) : option (list Z) :=
  if (oidIndex <? 0) || (rv_objectCount view <=? oidIndex) || (refOffset <? 0) then None else
  let i := Z.to_nat oidIndex in
  let refIndex := getPackRefStart view i + refOffset in
  if getPackRefStart view (S i) <=? refIndex then None
  else Some (slice (rv_rawRefs view) (Z.to_nat refIndex * 20) 20).

Definition visitPackRefRawRefsAt (view : PackRefView) (oidIndex : Z) : list (list Z) :=
  if (oidIndex <? 0) || (rv_objectCount view <=? oidIndex) then [] else
  let i := Z.to_nat oidIndex in
  let from := getPackRefStart view i in
  (fun k => slice (rv_rawRefs view) (k * 20) 20) <$> seq (Z.to_nat from) (Z.to_nat (getPackRefStart view (S i) - from)).

Definition getPackRefRefsAt (view : PackRefView) (oidIndex : Z) : list string :=
  bytesToHex <$> visitPackRefRawRefsAt view oidIndex.

(** ** Lemmas *)

(** How many slots the first [i] blocks take. *)
Definition slots_before (blocks : list (list Z)) (i : nat) : nat :=
  foldr (fun b acc => (length b / 20 + acc)%nat) 0%nat (take i blocks).

Lemma slots_before_cons c blocks i : slots_before (c :: blocks) (S i) = (length c / 20 + slots_before blocks i)%nat.
Proof. done. Qed.

Lemma slots_before_S blocks i b : blocks !! i = Some b ->
  slots_before blocks (S i) = (slots_before blocks i + length b / 20)%nat.
Proof.
  revert i. induction blocks as [|c blocks IH]; intros i; [done|].
  destruct i as [|i]; simpl lookup; rewrite slots_before_cons.
  - intros [= ->]. unfold slots_before. rewrite take_0. simpl. lia.
  - intros Hb. rewrite (IH i Hb), slots_before_cons. lia.
Qed.

Definition whole_slots (b : list Z) : Prop := (length b mod 20 = 0)%nat.

Lemma whole_length b : whole_slots b -> length b = (length b / 20 * 20)%nat.
Proof. unfold whole_slots. intros H. pose proof (Nat.div_mod_eq (length b) 20). lia. Qed.

Lemma length_concat_slots blocks : Forall whole_slots blocks ->
  length (List.concat blocks) = (slots_before blocks (length blocks) * 20)%nat.
Proof.
  induction 1 as [|b blocks Hb _ IH]; [done|].
  cbn [List.concat length]. rewrite length_app, IH, slots_before_cons. pose proof (whole_length b Hb). lia.
Qed.

(** A slot of the flat references is a slot of its block. *)
Lemma slot_of_block blocks i b j :
  Forall whole_slots blocks -> blocks !! i = Some b -> (j < length b / 20)%nat ->
  slice (List.concat blocks) ((slots_before blocks i + j) * 20) 20 = slice b (j * 20) 20.
Proof.
  intros Hw. revert i. induction Hw as [|c blocks Hc Hw IH]; intros i; [done|].
  pose proof (whole_length c Hc). destruct i as [|i]; simpl lookup; cbn [List.concat].
  - intros [= ->] Hj. unfold slice, slots_before. rewrite take_0. simpl.
    rewrite drop_app_le by lia. rewrite take_app_le; [done|]. rewrite length_drop. lia.
  - intros Hi Hj. rewrite <- (IH i Hi Hj), slots_before_cons. unfold slice.
    rewrite drop_app_ge by lia. f_equal. f_equal. lia.
Qed.

(** What the builder needs of the entries. *)
Record recorded (table : PackEntryTable) (b : PackRefsBuilder) (indices : list nat) (blocks : list (list Z)) : Prop := {
  rc_types : forall k, k ∈ indices -> is_Some (typeCodeToObjectType (byte_at (tbl_objectTypes table) k));
  rc_refs : Forall2 (fun k refs => mjoin (b !! k) = Some refs) indices blocks;
  rc_whole : Forall whole_slots blocks }.

Lemma ref_starts_ok table b indices blocks c :
  recorded table b indices blocks ->
  ref_starts table b indices c =
    inr ((fun i => c + Z.of_nat (slots_before blocks i)) <$> seq 0 (S (length blocks))).
Proof.
  intros [Ht Hr Hw]. revert c. induction Hr as [|k refs indices blocks Hk Hr IH]; intros c.
  - simpl. by rewrite Z.add_0_r.
  - apply Forall_cons_1 in Hw as [Hrefs Hw]. cbn [ref_starts].
    destruct (Ht k) as [t ->]; [apply list_elem_of_here|]. rewrite Hk.
    unfold whole_slots in Hrefs. rewrite Hrefs. cbn [Nat.eqb negb].
    rewrite IH; [|intros k' Hk'; apply Ht; by apply list_elem_of_further | done].
    f_equal. cbn [length]. change (seq 0 (S (S (length blocks)))) with (0%nat :: seq 1 (S (length blocks))).
    rewrite <- fmap_S_seq, fmap_cons, <- list_fmap_compose. f_equal; [unfold slots_before; simpl; lia|].
    apply list_fmap_ext. intros i j _. cbn [compose]. rewrite slots_before_cons. lia.
Qed.

Lemma monotone_slots blocks c n : Forall whole_slots blocks -> forall i0,
  monotone (c + Z.of_nat (slots_before blocks i0))
    ((fun i => c + Z.of_nat (slots_before blocks i)) <$> seq (S i0) n) = true.
Proof.
  intros Hw. induction n as [|n IH]; intros i0; [done|]. csimpl. apply andb_true_iff. split; [|apply IH].
  apply Z.leb_le. destruct (blocks !! i0) as [b|] eqn:Hb.
  - rewrite (slots_before_S blocks i0 b Hb). lia.
  - unfold slots_before. rewrite !take_ge; [lia | |]; apply lookup_ge_None in Hb; lia.
Qed.

Lemma slice_app pre x post n : length x = n -> slice (pre ++ x ++ post) (length pre) n = x.
Proof. intros <-. apply slice_mid. Qed.

Lemma recorded_refs (b : PackRefsBuilder) l blocks :
  Forall2 (fun k refs => mjoin (b !! k) = Some refs) l blocks ->
  (fun entry => default [] (mjoin (b !! entry))) <$> l = blocks.
Proof. induction 1 as [|k refs l blocks Hk _ IH]; [done|]. rewrite fmap_cons, Hk, IH. done. Qed.

Section Sidecar.
Context (table : PackEntryTable) (n : nat) (b : PackRefsBuilder) (blocks : list (list Z)).
Let indices := buildOidSortedEntryIndices table n.
Context (Hrec : recorded table b indices blocks) (Hcount : Z.of_nat n < 2 ^ 31).
Context (Hrefs : Z.of_nat (slots_before blocks (length blocks)) < 2 ^ 32).
Context (packBytes : Z) (Hbytes : 0 <= packBytes <= 2 ^ 53 - 1).
Context (pc ic : list Z) (Hpc : length pc = 20%nat) (Hic : length ic = 20%nat).

Let types := (fun entry => byte_at (tbl_objectTypes table) entry) <$> indices.
Let starts := (fun i => Z.of_nat (slots_before blocks i)) <$> seq 0 (S (length blocks)).
Let words := [PACK_REF_MAGIC; PACK_REF_VERSION; Z.of_nat n; packBytes / 2 ^ 32; toUint32 packBytes].
Let file := be32s words ++ pc ++ ic ++ types ++ be32s starts ++ List.concat blocks.

Lemma length_blocks : length blocks = n.
Proof.
  rewrite <- (length_entries table n). symmetry. eapply Forall2_length, rc_refs, Hrec.
Qed.

Lemma build_file : build table n packBytes pc ic b = inr file.
Proof.
  unfold build. fold indices. rewrite (ref_starts_ok _ _ _ _ 0 Hrec).
  replace (negb (is_safe packBytes) || (packBytes <? 0)) with false
    by (symmetry; unfold is_safe; apply orb_false_iff; split;
        [apply negb_false_iff, andb_true_iff; split; apply Z.leb_le; lia | apply Z.ltb_ge; lia]).
  assert ((fun entry => default [] (mjoin (b !! entry))) <$> indices = blocks) as ->; [|reflexivity].
  apply recorded_refs, Hrec.
Qed.

Lemma length_types : length types = n.
Proof. unfold types. rewrite length_fmap. apply length_entries. Qed.

Lemma word_at i w : words !! i = Some w -> u32_at file (4 * Z.of_nat i) = w mod 2 ^ 32.
Proof. intros Hi. apply (u32_at_words [] words _ i w Hi). Qed.

Lemma start_at i : (i <= n)%nat ->
  u32_at file (60 + Z.of_nat n + 4 * Z.of_nat i) = Z.of_nat (slots_before blocks i).
Proof.
  intros Hi. assert (starts !! i = Some (Z.of_nat (slots_before blocks i))) as Hs.
  { unfold starts. rewrite list_lookup_fmap, lookup_seq_lt by (rewrite length_blocks; lia). done. }
  pose proof (u32_at_words (be32s words ++ pc ++ ic ++ types) starts (List.concat blocks) i _ Hs) as H.
  rewrite <- !app_assoc in H. fold file in H.
  replace (Z.of_nat (length (be32s words ++ pc ++ ic ++ types))) with (60 + Z.of_nat n) in H
    by (rewrite !length_app, length_be32s, Hpc, Hic, length_types; simpl; lia).
  rewrite H. apply Z.mod_small.
  assert (forall k l, (slots_before l k <= slots_before l (length l))%nat) as Hmono.
  { intros k l. revert k. induction l as [|c l IH]; intros [|k]; [done | done | unfold slots_before; simpl; lia|].
    cbn [length]. rewrite !slots_before_cons. specialize (IH k). lia. }
  specialize (Hmono i blocks). lia.
Qed.

Lemma starts_read : (fun i => u32_at file (60 + Z.of_nat n + 4 * Z.of_nat i)) <$> seq 0 (S n) = starts.
Proof.
  unfold starts. rewrite length_blocks. apply list_fmap_ext.
  intros i k Hk%list_elem_of_lookup_2%elem_of_seq. apply start_at. lia.
Qed.

Lemma length_file : Z.of_nat (length file) =
  60 + Z.of_nat n + (Z.of_nat n + 1) * 4 + 20 * Z.of_nat (slots_before blocks n).
Proof.
  unfold file. rewrite !length_app, !length_be32s, Hpc, Hic, length_types.
  rewrite (length_concat_slots _ (rc_whole _ _ _ _ Hrec)), length_blocks.
  unfold starts. rewrite length_fmap, length_seq, length_blocks. simpl length. lia.
Qed.

Lemma types_valid : forallb (fun c => bool_decide (is_Some (typeCodeToObjectType c))) types = true.
Proof.
  apply forallb_forall. intros c Hc. apply list_elem_of_In, list_elem_of_fmap in Hc as (k & -> & Hk).
  apply bool_decide_eq_true_2. by apply (rc_types _ _ _ _ Hrec).
Qed.
Context (idx : IdxView) (Hicount : iv_count idx = Z.of_nat n) (Hisize : iv_packSize idx = packBytes).
Context (Hipc : iv_packChecksum idx = pc) (Hiic : iv_idxChecksum idx = ic).

Lemma pack_bytes_read : readUint64AsNumber file 12 = inr packBytes.
Proof.
  unfold readUint64AsNumber. pose proof (word_at 3 _ eq_refl) as H3. pose proof (word_at 4 _ eq_refl) as H4.
  change (4 * Z.of_nat 3) with 12 in H3. change (4 * Z.of_nat 4) with 16 in H4. change (12 + 4) with 16. rewrite H3, H4. unfold toUint32. rewrite Z.mod_mod by lia.
  assert (0 <= packBytes / 2 ^ 32 < 2 ^ 32) as Hhi
    by (split; [apply Z.div_pos; lia | apply Z.div_lt_upper_bound; lia]).
  rewrite (Z.mod_small (packBytes / 2 ^ 32)) by done.
  replace (packBytes / 2 ^ 32 * 2 ^ 32 + packBytes mod 2 ^ 32) with packBytes
    by (pose proof (Z_div_mod_eq_full packBytes (2 ^ 32)); lia).
  replace (is_safe packBytes) with true; [done|].
  symmetry. unfold is_safe. apply andb_true_iff; split; apply Z.leb_le; lia.
Qed.

Lemma file_slices :
  slice file 20 20 = pc /\ slice file 40 20 = ic /\ slice file 60 n = types /\
  drop (Z.to_nat (60 + Z.of_nat n + (Z.of_nat n + 1) * 4)) file = List.concat blocks.
Proof.
  assert (length (be32s words) = 20%nat) as Hw by (by rewrite length_be32s). unfold file. split_and!.
  - rewrite <- Hw at 1. by apply slice_app.
  - rewrite app_assoc. replace 40%nat with (length (be32s words ++ pc)) by (rewrite length_app, Hw, Hpc; done).
    by apply slice_app.
  - rewrite app_assoc, (app_assoc (be32s words ++ pc)).
    replace 60%nat with (length ((be32s words ++ pc) ++ ic)) by (rewrite !length_app, Hw, Hpc, Hic; done).
    apply slice_app, length_types.
  - rewrite app_assoc, (app_assoc (be32s words ++ pc)), (app_assoc ((be32s words ++ pc) ++ ic)),
      (app_assoc (((be32s words ++ pc) ++ ic) ++ types)).
    apply drop_app_length'. rewrite !length_app, Hw, Hpc, Hic, length_types, length_be32s. unfold starts.
    rewrite length_fmap, length_seq, length_blocks. lia.
Qed.

Lemma starts_monotone : match starts with [] => true | v :: rest => monotone v rest end = true.
Proof.
  unfold starts. change (seq 0 (S (length blocks))) with (0%nat :: seq 1 (length blocks)). rewrite fmap_cons.
  exact (monotone_slots blocks 0 (length blocks) (rc_whole _ _ _ _ Hrec) 0).
Qed.

Lemma starts_at i : (i <= n)%nat -> byte_at starts i = Z.of_nat (slots_before blocks i).
Proof.
  intros Hi. unfold starts, byte_at. rewrite list_lookup_fmap, lookup_seq_lt by (rewrite length_blocks; lia). done.
Qed.

Lemma parse_sidecar packKey :
  parsePackRefView packKey file idx =
    inr (mkRefView packKey (Z.of_nat n) packBytes pc ic types starts (List.concat blocks)).
Proof.
  unfold parsePackRefView. pose proof length_file as Hlen. destruct file_slices as (S1 & S2 & S3 & S4).
  pose proof (word_at 0 _ eq_refl) as H0. pose proof (word_at 1 _ eq_refl) as H1. pose proof (word_at 2 _ eq_refl) as H2.
  change (4 * Z.of_nat 0) with 0 in H0. change (4 * Z.of_nat 1) with 4 in H1. change (4 * Z.of_nat 2) with 8 in H2.
  rewrite (proj2 (Z.ltb_ge _ _)) by (unfold PACK_REF_HEADER_BYTES; lia). rewrite H0, H1, H2.
  change (negb (PACK_REF_MAGIC mod 2 ^ 32 =? PACK_REF_MAGIC)) with false.
  change (negb (PACK_REF_VERSION mod 2 ^ 32 =? PACK_REF_VERSION)) with false.
  rewrite (Z.mod_small (Z.of_nat n)) by lia. rewrite Hicount, Z.eqb_refl, pack_bytes_read, Hisize, Z.eqb_refl.
  cbn [negb]. rewrite S1, S2, Hipc, Hiic. unfold bytesEqual. rewrite !bool_decide_eq_true_2 by done. cbn [negb].
  rewrite (proj2 (Z.ltb_ge _ (60 + _))) by lia. rewrite Nat2Z.id, S3, types_valid. cbn [negb].
  rewrite (proj2 (Z.ltb_ge _ _)) by lia. rewrite starts_read, starts_monotone. cbn [negb].
  rewrite S4, starts_at by done. rewrite (length_concat_slots _ (rc_whole _ _ _ _ Hrec)), length_blocks.
  by rewrite (proj2 (Z.eqb_eq _ _)) by lia.
Qed.

(** What the parsed sidecar says about the [i]-th object. *)
Lemma sidecar_answers packKey i k refs :
  indices !! i = Some k -> blocks !! i = Some refs ->
  let view := mkRefView packKey (Z.of_nat n) packBytes pc ic types starts (List.concat blocks) in
  getPackRefTypeCode view (Z.of_nat i) = Some (byte_at (tbl_objectTypes table) k) /\
  visitPackRefRawRefsAt view (Z.of_nat i) = oid_slots refs /\
  forall j, getPackRefRawRefAt view (Z.of_nat i) (Z.of_nat j) = oid_slots refs !! j.
Proof.
  intros Hk Hb view. assert (i < n)%nat as Hi by (rewrite <- length_blocks; by eapply lookup_lt_Some).
  assert ((Z.of_nat i <? 0) || (rv_objectCount view <=? Z.of_nat i) = false) as Hin.
  { apply orb_false_iff. split; [apply Z.ltb_ge; lia | apply Z.leb_gt; simpl; lia]. }
  unfold getPackRefTypeCode, visitPackRefRawRefsAt, getPackRefRawRefAt, getPackRefStart. rewrite Hin, !Nat2Z.id.
  subst view. cbn [rv_typeCodes rv_refStarts rv_rawRefs]. rewrite !starts_at by lia. rewrite (slots_before_S _ _ _ Hb).
  pose proof (rc_whole _ _ _ _ Hrec) as Hw. split_and!.
  - unfold types. by rewrite list_lookup_fmap, Hk.
  - unfold oid_slots. rewrite !Nat2Z.id. replace (Z.to_nat _) with (length refs / 20)%nat by lia.
    apply list_eq. intros j. rewrite !list_lookup_fmap. destruct (decide (j < length refs / 20)%nat).
    + rewrite !lookup_seq_lt by done. simpl. f_equal. by apply slot_of_block.
    + by rewrite !lookup_seq_ge by lia.
  - intros j. rewrite (proj2 (Z.ltb_ge (Z.of_nat j) 0)) by lia. cbn [orb]. unfold oid_slots.
    rewrite list_lookup_fmap. destruct (decide (j < length refs / 20)%nat).
    + rewrite lookup_seq_lt, (proj2 (Z.leb_gt _ _)) by lia. simpl. f_equal.
      replace (Z.to_nat _) with (slots_before blocks i + j)%nat by lia. by apply slot_of_block.
    + by rewrite lookup_seq_ge, (proj2 (Z.leb_le _ _)) by lia.
Qed.
End Sidecar.

(** *** What is recorded is whole *)

Lemma whole_app a b : whole_slots a -> whole_slots b -> whole_slots (a ++ b).
Proof.
  unfold whole_slots. rewrite length_app. intros Ha Hb.
  rewrite Nat.Div0.add_mod, Ha, Hb. done.
Qed.

Lemma whole_concat l : Forall (fun o : list Z => length o = 20%nat) l -> whole_slots (List.concat l).
Proof.
  induction 1 as [|o l Ho _ IH]; [done|]. cbn [List.concat]. apply whole_app; [|done].
  unfold whole_slots. by rewrite Ho.
Qed.

Lemma length_hex_bytes l : length (hex_bytes l) = (length l / 2)%nat.
Proof.
  assert (forall n l, (length l <= n)%nat -> length (hex_bytes l) = (length l / 2)%nat) as H; [|by eapply H].
  clear l. induction n as [|n IH]; intros l Hl.
  - by destruct l; [|simpl in Hl; lia].
  - destruct l as [|a [|b l]]; [done | done |]. cbn [hex_bytes length] in *. rewrite IH by lia.
    replace (S (S (length l))) with (length l + 1 * 2)%nat by lia. rewrite Nat.div_add by done. lia.
Qed.

Lemma line_oid_length prefix line oid : line_oid prefix line = Some oid -> length oid = 20%nat.
Proof.
  unfold line_oid. destruct (strip_prefix prefix line) as [r|]; [|done].
  destruct (hasHexOidAt r) eqn:E; [|done]. intros [= <-].
  apply andb_true_iff in E as [E _]. apply Nat.leb_le in E.
  unfold readHexOid. rewrite length_hex_bytes, length_take. by rewrite Nat.min_l by done.
Qed.

Lemma first_some_elem {A B} (f : A -> option B) l y : first_some f l = Some y -> exists x, x ∈ l /\ f x = Some y.
Proof.
  unfold first_some. intros H. assert (y ∈ omap f l) as Hy.
  { destruct (omap f l); [done|]. injection H as ->. apply list_elem_of_here. }
  by apply list_elem_of_omap in Hy.
Qed.

Lemma tree_closure_length fuel l : Forall (fun o : list Z => length o = 20%nat) (tree_closure fuel l).
Proof.
  revert l. induction fuel as [|fuel IH]; intros l; [constructor|]. cbn [tree_closure].
  destruct (split_at 32 l) as [[mode r]|]; [|constructor]. destruct (split_at 0 r) as [[name r']|]; [|constructor].
  destruct (length r' <? 20)%nat eqn:E; [constructor|]. apply Nat.ltb_ge in E.
  apply Forall_app. split; [|apply IH]. destruct (isGitlinkMode mode); [constructor|].
  repeat constructor. rewrite length_take. lia.
Qed.

Lemma objectRefBytes_whole t payload : whole_slots (objectRefBytes t payload).
Proof.
  destruct t; cbn [objectRefBytes]; [done | apply whole_concat, tree_closure_length | |].
  - unfold parseCommitRefBytes. apply whole_app.
    + destruct (first_some _ _) as [o|] eqn:E; [|done].
      apply first_some_elem in E as (x & _ & E%line_oid_length). unfold whole_slots. simpl. by rewrite E.
    + apply whole_concat, Forall_forall. intros o (x & _ & E)%list_elem_of_omap. by eapply line_oid_length.
  - unfold parseTagRefBytes. destruct (first_some _ _) as [o|] eqn:E; [|done].
    apply first_some_elem in E as (x & _ & E%line_oid_length). destruct (existsb _ _); [|done].
    unfold whole_slots. by rewrite E.
Qed.

Lemma objTypeCode_decode t : typeCodeToObjectType (objTypeCode t) = Some t.
Proof. by destruct t. Qed.

(** ** Properties *)

(** The entries of a pack as they were recorded while it was indexed. *)
Record entries_recorded (table : PackEntryTable) (objs : list (GitObjectType * list Z)) (b : PackRefsBuilder) : Prop := {
  er_types : forall k t p, objs !! k = Some (t, p) -> byte_at (tbl_objectTypes table) k = objTypeCode t;
  er_refs : forall k t p, objs !! k = Some (t, p) -> b !! k = Some (Some (objectRefBytes t p));
  er_count : Z.of_nat (length objs) < 2 ^ 31;
  er_total : Z.of_nat (sum_list_with (fun o => length (objectRefBytes o.1 o.2) / 20)%nat objs) < 2 ^ 32 }.

Definition refs_of (objs : list (GitObjectType * list Z)) (k : nat) : list Z :=
  match objs !! k with Some (t, p) => objectRefBytes t p | None => [] end.

Lemma slots_total blocks : slots_before blocks (length blocks) = sum_list_with (fun b => length b / 20)%nat blocks.
Proof. unfold slots_before. by rewrite take_ge, sum_list_with_foldr by done. Qed.

Lemma refs_of_seq objs : refs_of objs <$> seq 0 (length objs) = (fun o => objectRefBytes o.1 o.2) <$> objs.
Proof.
  apply list_eq. intros i. rewrite !list_lookup_fmap. destruct (decide (i < length objs)%nat) as [Hi|Hi].
  - rewrite lookup_seq_lt by done. simpl. unfold refs_of.
    destruct (lookup_lt_is_Some_2 objs i Hi) as [[t p] ->]. done.
  - rewrite lookup_seq_ge, lookup_ge_None_2 by lia. done.
Qed.

Lemma entries_recorded_blocks table objs b : entries_recorded table objs b ->
  let indices := buildOidSortedEntryIndices table (length objs) in
  recorded table b indices (refs_of objs <$> indices) /\
  Z.of_nat (slots_before (refs_of objs <$> indices) (length (refs_of objs <$> indices))) < 2 ^ 32.
Proof.
  intros [Ht Hr Hc Hs] indices.
  assert (forall k, k ∈ indices -> exists t p, objs !! k = Some (t, p)) as Hin.
  { intros k Hk%entries_elem. destruct (lookup_lt_is_Some_2 objs k Hk) as [[t p] H]. eauto. }
  split; [split|].
  - intros k Hk. destruct (Hin k Hk) as (t & p & H). rewrite (Ht _ _ _ H), objTypeCode_decode. done.
  - apply Forall2_fmap_r, Forall_Forall2_diag, Forall_forall. intros k Hk. destruct (Hin k Hk) as (t & p & H).
    cbn [compose]. rewrite (Hr _ _ _ H). unfold refs_of. rewrite H. done.
  - rewrite Forall_fmap, Forall_forall. intros k Hk. destruct (Hin k Hk) as (t & p & H).
    simpl. unfold refs_of. rewrite H. apply objectRefBytes_whole.
  - rewrite slots_total. assert (refs_of objs <$> indices ≡ₚ refs_of objs <$> seq 0 (length objs)) as ->
      by (apply fmap_Permutation, js_sort_perm).
    rewrite refs_of_seq. replace (sum_list_with _ _) with (sum_list_with (fun o => length (objectRefBytes o.1 o.2) / 20)%nat objs); [done|].
    clear. rewrite !sum_list_with_foldr. induction objs as [|o objs IH]; [done|]. cbn [fmap list_fmap List.map foldr]. by rewrite <- IH.
Qed.

(** C38: the reference sidecar built while a pack is indexed, parsed against the
    index of that pack, gives for every object of the index the type and the
    references that were recorded for it, one by one and as a whole. *)
Theorem pack_refs_roundtrip table objs b packBytes packChecksum idxChecksum packKey idx :
  entries_recorded table objs b -> 0 <= packBytes <= 2 ^ 53 - 1 ->
  length packChecksum = 20%nat -> length idxChecksum = 20%nat ->
  iv_count idx = Z.of_nat (length objs) -> iv_packSize idx = packBytes ->
  iv_packChecksum idx = packChecksum -> iv_idxChecksum idx = idxChecksum ->
  exists bytes view,
    build table (length objs) packBytes packChecksum idxChecksum b = inr bytes /\
    parsePackRefView packKey bytes idx = inr view /\
    forall i k t p,
      buildOidSortedEntryIndices table (length objs) !! i = Some k -> objs !! k = Some (t, p) ->
      getPackRefObjectType view (Z.of_nat i) = Some t /\
      getPackRefRefsAt view (Z.of_nat i) = bytesToHex <$> oid_slots (objectRefBytes t p) /\
      forall j, getPackRefRawRefAt view (Z.of_nat i) (Z.of_nat j) = oid_slots (objectRefBytes t p) !! j.
Proof.
  intros He Hb Hpc Hic H1 H2 H3 H4. destruct (entries_recorded_blocks table objs b He) as [Hrec Hrefs].
  do 2 eexists. split; [exact (build_file _ _ _ _ Hrec packBytes Hb packChecksum idxChecksum Hpc Hic)|].
  split; [by apply (parse_sidecar _ _ _ _ Hrec (er_count _ _ _ He) Hrefs)|].
  intros i k t p Hi Hk.
  destruct (sidecar_answers table (length objs) b _ Hrec packBytes packChecksum idxChecksum
    Hpc Hic packKey i k (refs_of objs k) Hi) as (A1 & A2 & A3); [by rewrite list_lookup_fmap, Hi|].
  assert (refs_of objs k = objectRefBytes t p) as E by (unfold refs_of; by rewrite Hk). rewrite E in A2, A3.
  unfold getPackRefObjectType, getPackRefRefsAt.
  rewrite A1, A2. split_and!; [|done|exact A3].
  simpl. rewrite (er_types _ _ _ He k t p Hk). apply objTypeCode_decode.
Qed.


Lemma pack_refs_roundtrip_witness :
  exists bytes view,
    build (mkTable 1 [12] [1] [1] [1] [40] [5] (replicate 20 9) [1] [0] [1]) 1 100 (replicate 20 7) (replicate 20 8)
      [Some (objectRefBytes ObjCommit (encode "tree 1234567890123456789012345678901234567890"))] = inr bytes /\
    parsePackRefView "k" bytes (mkIdxView "k" 1 [] [] [] [] [] [] 100 (replicate 20 7) (replicate 20 8)) = inr view /\
    getPackRefRefsAt view 0 = ["1234567890123456789012345678901234567890"%string].
Proof.
  destruct (pack_refs_roundtrip (mkTable 1 [12] [1] [1] [1] [40] [5] (replicate 20 9) [1] [0] [1])
    [(ObjCommit, encode "tree 1234567890123456789012345678901234567890")]
    [Some (objectRefBytes ObjCommit (encode "tree 1234567890123456789012345678901234567890"))]
    100 (replicate 20 7) (replicate 20 8) "k"
    (mkIdxView "k" 1 [] [] [] [] [] [] 100 (replicate 20 7) (replicate 20 8))) as (bytes & view & H1 & H2 & H3).
  - split; [by intros [|] ?? [= <- <-] | by intros [|] ?? [= <- <-] | reflexivity | vm_compute; reflexivity].
  - lia.
  - reflexivity.
  - reflexivity.
  - reflexivity.
  - reflexivity.
  - reflexivity.
  - reflexivity.
  - exists bytes, view. split; [exact H1|]. split; [exact H2|].
    destruct (H3 0%nat 0%nat _ _ eq_refl eq_refl) as (_ & E & _). change 0 with (Z.of_nat 0). rewrite E. vm_compute. reflexivity.
Defined.
