(* ===== verification/ObjectReaders.v ===== *)
(** * The two readers of references

    The program reads the references of an object in two ways: the sidecar reads
    raw bytes ([git/pack/refIndex.ts], [PackRefs]), the fetch closure and the
    connectivity check read decoded text ([git/core/object-parse.ts],
    [GitObjects]).  This file states what each of them finds in a well-formed
    commit or tree, and so where they agree and where they do not. *)
From S2P Require Import Prelude Text Bytes PackEntry PackIndex GitObjects PackRefs.
From Stdlib Require Import Ascii.

(** ** Well-formed objects *)

(** A header line: not empty, without any line terminator. *)
Definition header_line (l : list Z) : Prop := l <> [] /\ (10 ∉ l) /\ (13 ∉ l) /\ after_terminators l = [].

Definition commit_payload (headers : list (list Z)) (message : list Z) : list Z :=
  List.concat ((fun l => l ++ [10]) <$> headers) ++ 10 :: message.

(** The ids on a line are in lower case, as git writes them. *)
Definition lowercase_ids (l : list Z) : Prop :=
  forall p r, p ∈ [TREE_LINE_PREFIX; PARENT_LINE_PREFIX] ->
    strip_prefix p l = Some r -> hasHexOidAt r = true -> forallb lower_hex (take 40 r) = true.

(** The ids that lines spell after a prefix. *)
Definition spelled (prefix : string) (lines : list (list Z)) : list string := text <$> omap (oid_after prefix) lines.

Record tree_entry := mkTreeEntry { te_mode : list Z; te_name : list Z; te_oid : list Z }.

Definition entry_ok (e : tree_entry) : Prop := (32 ∉ te_mode e) /\ (0 ∉ te_name e) /\ length (te_oid e) = 20%nat.

Definition tree_payload (entries : list tree_entry) : list Z :=
  List.concat ((fun e => te_mode e ++ [32] ++ te_name e ++ [0] ++ te_oid e) <$> entries).

(** ** Lemmas: lines *)

(** For concrete texts. *)
Lemma not_elem_check c l : forallb (fun x => negb (x =? c)) l = true -> c ∉ l.
Proof.
  rewrite forallb_forall. intros H Hc. apply list_elem_of_In, H in Hc. by rewrite Z.eqb_refl in Hc.
Qed.

Lemma after_terminators_app l r :
  after_terminators (l ++ 10 :: r) = ((.++ 10 :: r) <$> after_terminators l) ++ r :: after_terminators r.
Proof.
  induction l as [|c l IH]; [reflexivity|]. cbn [app after_terminators]. rewrite IH, fmap_app, <- app_assoc. f_equal.
  destruct ((c =? 10) || (c =? 13)); [reflexivity|].
  destruct l as [|b [|d l]]; cbn [app].
  - destruct r; [done|]. by rewrite andb_false_r.
  - by rewrite andb_false_r.
  - by destruct (_ && _).
Qed.

Lemma line_starts_app l r : after_terminators l = [] ->
  line_starts (l ++ 10 :: r) = (l ++ 10 :: r) :: line_starts r.
Proof. intros H. unfold line_starts. rewrite after_terminators_app, H. done. Qed.

Lemma strip_prefix_line p l r : (10 ∉ p) -> strip_prefix p (l ++ 10 :: r) = (.++ 10 :: r) <$> strip_prefix p l.
Proof.
  revert l. induction p as [|a p IH]; intros l Hp; [by destruct l|].
  apply not_elem_of_cons in Hp as [Ha Hp]. destruct l as [|b l]; cbn [app strip_prefix].
  - by rewrite (proj2 (Z.eqb_neq a 10)) by congruence.
  - destruct (a =? b); [by apply IH | done].
Qed.

Lemma hex40_line l r : hex40 (l ++ 10 :: r) = hex40 l.
Proof.
  unfold hex40. destruct (decide (40 <= length l)%nat) as [H|H]; [by rewrite take_app_le|].
  rewrite (take_ge l) by lia. rewrite (proj2 (Nat.eqb_neq (length l) 40)) by lia. cbn [andb].
  rewrite take_app_ge by lia. destruct (40 - length l)%nat eqn:E; [lia|]. cbn [firstn take].
  rewrite forallb_app. cbn [forallb]. by rewrite !andb_false_r.
Qed.

Lemma oid_after_line prefix l r : (10 ∉ encode prefix) -> oid_after prefix (l ++ 10 :: r) = oid_after prefix l.
Proof.
  intros Hp. unfold oid_after. rewrite strip_prefix_line by done.
  destruct (strip_prefix _ l) as [x|]; simpl; [apply hex40_line | done].
Qed.

Lemma oid_after_empty prefix r : (10 ∉ encode prefix) -> prefix <> ""%string -> oid_after prefix (10 :: r) = None.
Proof.
  intros Hp Hne. pose proof (oid_after_line prefix [] r Hp) as H. cbn [app] in H. rewrite H.
  destruct prefix; [done|]. done.
Qed.

(** What the text reader sees of a commit. *)
Lemma commit_starts headers message :
  Forall header_line headers ->
  exists starts, line_starts (commit_payload headers message) = starts ++ (10 :: message) :: line_starts message /\
    forall prefix, (10 ∉ encode prefix) -> omap (oid_after prefix) starts = omap (oid_after prefix) headers.
Proof.
  intros H. unfold commit_payload. induction H as [|l headers (_ & _ & _ & Hl) _ (starts & E & IH)].
  - exists []. split; [|done]. apply (line_starts_app []). done.
  - cbn [fmap list_fmap List.map List.concat]. rewrite <- !app_assoc. cbn [app].
    rewrite line_starts_app by done. rewrite E. eexists (_ :: starts). split; [done|].
    intros prefix Hp. cbn [omap list_omap]. rewrite oid_after_line, IH by done. done.
Qed.

Lemma text_oids headers message prefix :
  Forall header_line headers -> (10 ∉ encode prefix) -> prefix <> ""%string ->
  omap (oid_after prefix) (line_starts (commit_payload headers message))
  = omap (oid_after prefix) headers ++ omap (oid_after prefix) (line_starts message).
Proof.
  intros H Hp Hne. destruct (commit_starts headers message H) as (starts & -> & Hs).
  rewrite omap_app, Hs by done. cbn [omap list_omap]. by rewrite oid_after_empty.
Qed.

(** What the sidecar sees of it. *)
Lemma take_line_line l r : (10 ∉ l) -> take_line (l ++ 10 :: r) = (l, r).
Proof.
  induction l as [|c l IH]; intros H; cbn [app take_line]; [done|].
  apply not_elem_of_cons in H as [Hc H]. rewrite (proj2 (Z.eqb_neq c 10)) by congruence. by rewrite IH.
Qed.

Lemma strip_cr_line l : (13 ∉ l) -> strip_cr l = l.
Proof.
  intros H. unfold strip_cr. destruct (last l) as [c|] eqn:E; [|done].
  apply last_Some_elem_of in E. destruct (c =? 13) eqn:Ec; [|done]. to_prop. by subst.
Qed.

Lemma sidecar_lines headers message :
  Forall header_line headers -> forEachHeaderLine (commit_payload headers message) = headers.
Proof.
  intros H. unfold forEachHeaderLine.
  assert (forall fuel, (length (commit_payload headers message) <= fuel)%nat ->
    header_lines fuel (commit_payload headers message) = headers) as E; [|by apply E].
  unfold commit_payload. induction H as [|l headers (Hne & H10 & H13 & _) _ IH]; intros fuel Hf.
  - by destruct fuel.
  - cbn [fmap list_fmap List.map List.concat] in *. rewrite <- !app_assoc in *. cbn [app] in *.
    destruct fuel as [|fuel]; [rewrite length_app in Hf; simpl in Hf; lia|].
    destruct l as [|c l]; [done|]. cbn [app header_lines].
    rewrite app_comm_cons, (take_line_line (c :: l)) by done. rewrite strip_cr_line by done.
    rewrite IH; [done|]. rewrite length_app in Hf. simpl in *. lia.
Qed.

(** ** Lemmas: hexadecimal ids *)

Lemma lower_pair a b : lower_hex a = true -> lower_hex b = true ->
  (0 <=? hexNibble a) && (0 <=? hexNibble b) = true /\
  byte_hex (Z.lor (Z.shiftl (hexNibble a) 4) (hexNibble b)) = [ascii_of_nat (Z.to_nat a); ascii_of_nat (Z.to_nat b)].
Proof.
  intros Ha Hb. assert (0 <= a < 103 /\ 0 <= b < 103) as [Ra Rb].
  { unfold lower_hex in *. apply orb_true_iff in Ha, Hb. rewrite !andb_true_iff, !Z.leb_le in *. lia. }
  pose proof (check_below 103 (fun a => forallb (fun b => negb (lower_hex a && lower_hex b) ||
    ((0 <=? hexNibble a) && (0 <=? hexNibble b) &&
     match byte_hex (Z.lor (Z.shiftl (hexNibble a) 4) (hexNibble b)) with
     | [x; y] => Ascii.eqb x (ascii_of_nat (Z.to_nat a)) && Ascii.eqb y (ascii_of_nat (Z.to_nat b))
     | _ => false
     end))
    (seqZ 0 103)) ltac:(vm_compute; reflexivity) a Ra) as H.
  pose proof (check_below 103 _ H b Rb) as C. cbv beta in C. rewrite Ha, Hb in C. cbn [andb negb orb] in C.
  apply andb_true_iff in C as [C1 C2]. split; [done|]. unfold byte_hex in *.
  apply andb_true_iff in C2 as [Cx%Ascii.eqb_eq Cy%Ascii.eqb_eq]. by rewrite Cx, Cy.
Qed.

Lemma hex_bytes_text n l : length l = (2 * n)%nat -> forallb lower_hex l = true ->
  bytesToHex (hex_bytes l) = text l /\ forallb (fun c => 0 <=? hexNibble c) l = true.
Proof.
  revert l. induction n as [|n IH]; intros l Hl Hx.
  - by destruct l.
  - destruct l as [|a [|b l]]; [done | simpl in Hl; lia |]. cbn [forallb] in *.
    rewrite !andb_true_iff in Hx. destruct Hx as (Ha & Hb & Hx).
    destruct (IH l) as [E F]; [simpl in Hl; lia | done |]. destruct (lower_pair a b Ha Hb) as [Hn Hp].
    apply andb_true_iff in Hn as [Hna Hnb]. rewrite Hna, Hnb, F. split; [|done].
    unfold bytesToHex, text in *. cbn [hex_bytes fmap list_fmap List.map List.concat].
    rewrite Hp. cbn [app unchars String.string_of_list_ascii compose].
    unfold unchars in *. cbn [String.string_of_list_ascii]. do 2 f_equal. exact E.
Qed.

(** On a line with lower-case ids the two readers find the same id. *)
Lemma line_oid_text prefix l :
  (forall r, strip_prefix (encode prefix) l = Some r -> hasHexOidAt r = true -> forallb lower_hex (take 40 r) = true) ->
  bytesToHex <$> line_oid (encode prefix) l = text <$> oid_after prefix l.
Proof.
  intros H. unfold line_oid, oid_after. destruct (strip_prefix (encode prefix) l) as [r|]; [|done].
  specialize (H r eq_refl). simpl. unfold hex40, hasHexOidAt in *. rewrite length_take.
  destruct (Nat.leb_spec 40 (length r)) as [Hl|Hl].
  - rewrite (proj2 (Nat.eqb_eq _ 40)) by lia. cbn [andb].
    destruct (forallb lower_hex (take 40 r)) eqn:E.
    + destruct (hex_bytes_text 20 (take 40 r)) as [Ht Hn]; [rewrite length_take; lia | done |].
      rewrite Hn. simpl. f_equal. exact Ht.
    + destruct (forallb (fun c => 0 <=? hexNibble c) (take 40 r)); [discriminate (H eq_refl) | reflexivity].
  - by rewrite (proj2 (Nat.eqb_neq _ 40)) by lia.
Qed.

Lemma omap_oids prefix lines :
  Forall (fun l => bytesToHex <$> line_oid (encode prefix) l = text <$> oid_after prefix l) lines ->
  bytesToHex <$> omap (line_oid (encode prefix)) lines = spelled prefix lines.
Proof.
  unfold spelled. induction 1 as [|l lines Hl _ IH]; [done|].
  cbn [omap list_omap]. destruct (line_oid _ l) as [o|], (oid_after prefix l) as [o'|]; cbn [fmap option_fmap option_map] in Hl;
    try done. injection Hl as Hl. by rewrite !fmap_cons, Hl, IH.
Qed.

Lemma oid_slots_concat l : Forall (fun o : list Z => length o = 20%nat) l -> oid_slots (List.concat l) = l.
Proof.
  intros Hl. unfold oid_slots. assert (length (List.concat l) = (length l * 20)%nat) as ->.
  { induction Hl as [|o l Ho _ IH]; [done|]. cbn [List.concat length]. rewrite length_app, IH, Ho. lia. }
  rewrite Nat.div_mul by done. apply list_eq. intros i. rewrite list_lookup_fmap.
  destruct (l !! i) as [o|] eqn:Ho.
  - rewrite lookup_seq_lt by (by eapply lookup_lt_Some). simpl.
    destruct (lookup_concat_blocks 20 l i o Hl Ho) as (pre & post & -> & <-). f_equal.
    rewrite Forall_forall in Hl. rewrite <- (Hl o) by (by eapply list_elem_of_lookup_2). apply slice_mid.
  - by rewrite lookup_seq_ge by (by apply lookup_ge_None).
Qed.

(** ** Lemmas: trees *)

(** An entry in front of the rest of a tree, as the two readers take it. *)
Definition tree_part (e : tree_entry) : list Z := te_mode e ++ [32] ++ te_name e ++ [0] ++ te_oid e.

Lemma tree_children_entry fuel e rest : entry_ok e ->
  tree_children (S fuel) (tree_part e ++ rest) = te_oid e :: tree_children fuel rest.
Proof.
  intros (Hm & Hn & Ho). unfold tree_part. rewrite <- !app_assoc. cbn [app tree_children].
  rewrite split_at_line by done. rewrite split_at_line by done.
  rewrite (proj2 (Nat.ltb_ge _ 20)) by (rewrite length_app; lia).
  by rewrite take_app_length', drop_app_length' by done.
Qed.

Lemma tree_closure_entry fuel e rest : entry_ok e ->
  tree_closure (S fuel) (tree_part e ++ rest)
  = (if isGitlinkMode (te_mode e) then [] else [te_oid e]) ++ tree_closure fuel rest.
Proof.
  intros (Hm & Hn & Ho). unfold tree_part. rewrite <- !app_assoc. cbn [app tree_closure].
  rewrite split_at_line by done. rewrite split_at_line by done.
  rewrite (proj2 (Nat.ltb_ge _ 20)) by (rewrite length_app; lia).
  by rewrite take_app_length', drop_app_length' by done.
Qed.

(** The end of a tree that was cut within an id. *)
Definition cut_part (mode name cut : list Z) : list Z := mode ++ [32] ++ name ++ [0] ++ cut.

Lemma tree_cut fuel mode name cut : (32 ∉ mode) -> (0 ∉ name) -> (length cut < 20)%nat ->
  tree_children (S fuel) (cut_part mode name cut) = (if (length cut =? 19)%nat then [cut] else []) /\
  tree_closure (S fuel) (cut_part mode name cut) = [].
Proof.
  intros Hm Hn Hc. unfold cut_part. cbn [app tree_children tree_closure].
  rewrite split_at_line by done. rewrite split_at_line by done.
  rewrite (proj2 (Nat.ltb_lt _ 20) Hc). split; [|done].
  destruct (Nat.eqb_spec (length cut) 19) as [H|H].
  - rewrite (proj2 (Nat.ltb_ge _ 20)) by lia. rewrite take_ge, drop_ge by lia. by destruct fuel.
  - by rewrite (proj2 (Nat.ltb_lt _ 20)) by lia.
Qed.

Lemma tree_payload_cons e entries : tree_payload (e :: entries) = tree_part e ++ tree_payload entries.
Proof. done. Qed.

Lemma length_tree_part e : (0 < length (tree_part e))%nat.
Proof. unfold tree_part. rewrite length_app. simpl. lia. Qed.

(** Whole entries, and then what the readers make of the rest. *)
Lemma tree_children_entries entries rest fuel :
  Forall entry_ok entries -> (length (tree_payload entries ++ rest) <= fuel)%nat ->
  exists fuel', (length rest <= fuel')%nat /\
    tree_children fuel (tree_payload entries ++ rest) = (te_oid <$> entries) ++ tree_children fuel' rest /\
    tree_closure fuel (tree_payload entries ++ rest)
      = (te_oid <$> filter (fun e => isGitlinkMode (te_mode e) = false) entries) ++ tree_closure fuel' rest.
Proof.
  intros He. revert fuel. induction He as [|e entries He _ IH]; intros fuel Hf; [by exists fuel|].
  rewrite tree_payload_cons in *. rewrite <- app_assoc in *. pose proof (length_tree_part e).
  rewrite length_app in Hf. destruct fuel as [|fuel]; [lia|].
  destruct (IH fuel) as (fuel' & Hf' & E1 & E2); [lia|]. exists fuel'. split; [done|].
  rewrite tree_children_entry, tree_closure_entry, E1, E2 by done. split; [done|].
  rewrite filter_cons. destruct (isGitlinkMode (te_mode e)); by case_decide.
Qed.

(** ** Properties *)

(** Of a well-formed commit the sidecar finds the tree and the parents that
    its header spells, and nothing else.  The text reader - which the fetch closure
    and the connectivity check of a push use - finds those and also every parent
    that a line of the message spells, and takes a tree from the message when the
    header has none; the two agree exactly as far as the message spells no id. *)
Theorem commit_readers headers message :
  Forall header_line headers -> Forall lowercase_ids headers ->
  let payload := commit_payload headers message in
  decode payload = payload ->
  (bytesToHex <$> oid_slots (parseCommitRefBytes payload))
    = take 1 (spelled "tree " headers) ++ spelled "parent " headers /\
  parseCommitRefs payload =
    (default ""%string (head (spelled "tree " headers ++ spelled "tree " (line_starts message))),
     spelled "parent " headers ++ spelled "parent " (line_starts message)).
Proof.
  intros Hh Hl payload Hd. split.
  - unfold parseCommitRefBytes, payload. rewrite sidecar_lines by done.
    change TREE_LINE_PREFIX with (encode "tree "). change PARENT_LINE_PREFIX with (encode "parent ").
    rewrite <- (omap_oids "tree "), <- (omap_oids "parent ").
    2,3: eapply Forall_impl; [exact Hl|]; intros l H; apply line_oid_text; intros r; apply H; by repeat constructor.
    set (trees := omap (line_oid (encode "tree ")) headers). set (parents := omap (line_oid (encode "parent ")) headers).
    assert (forall prefix, Forall (fun o : list Z => length o = 20%nat) (omap (line_oid prefix) headers)) as H20.
    { intros prefix. apply Forall_forall. intros o (x & _ & E)%list_elem_of_omap. by eapply line_oid_length. }
    replace (default [] (first_some (line_oid (encode "tree ")) headers)) with (List.concat (take 1 trees))
      by (unfold first_some; fold trees; destruct trees; [done | simpl; by rewrite app_nil_r]).
    rewrite <- concat_app, oid_slots_concat by (apply Forall_app; split; [apply Forall_take|]; apply H20).
    by rewrite fmap_app, fmap_take.
  - unfold parseCommitRefs, parseCommitText. rewrite Hd. cbn [c_tree c_parents]. unfold payload, first_some.
    rewrite !text_oids by (done || by apply not_elem_check). unfold spelled. rewrite <- !fmap_app. f_equal.
    by destruct (omap _ headers ++ _).
Qed.

Lemma commit_readers_witness :
  (parseCommitRefs (commit_payload [encode "tree 1234567890123456789012345678901234567890"]
     (encode "parent aaaaaaaaaaaaaaaaaaaaaaaaaaaaaaaaaaaaaaaa"))).2
  = ["aaaaaaaaaaaaaaaaaaaaaaaaaaaaaaaaaaaaaaaa"%string].
Proof.
  destruct (commit_readers [encode "tree 1234567890123456789012345678901234567890"]
     (encode "parent aaaaaaaaaaaaaaaaaaaaaaaaaaaaaaaaaaaaaaaa")) as [_ E].
  - repeat constructor; [discriminate | by apply not_elem_check | by apply not_elem_check].
  - repeat constructor. intros p r Hp Hr _. apply elem_of_cons in Hp as [->|Hp%list_elem_of_singleton].
    + injection Hr as <-. reflexivity.
    + subst p. discriminate Hr.
  - reflexivity.
  - etransitivity; [exact (f_equal snd E)|]. vm_compute. reflexivity.
Defined.

(** Of a tree the sidecar finds the ids of all entries that are not gitlinks,
    in order, and the text reader the ids of all entries.  When the tree was cut
    within the id of its last entry, the sidecar drops that entry; the text reader
    drops it too, except that an id which lacks only its last byte is kept as an
    id of nineteen bytes. *)
Theorem tree_readers entries mode name cut :
  Forall entry_ok entries ->
  parseTreeChildOids (tree_payload entries) = bytesToHex ∘ te_oid <$> entries /\
  parseTreeClosureRefs (tree_payload entries)
    = bytesToHex ∘ te_oid <$> filter (fun e => isGitlinkMode (te_mode e) = false) entries /\
  ((32 ∉ mode) -> (0 ∉ name) -> (length cut < 20)%nat ->
   parseTreeChildOids (tree_payload entries ++ cut_part mode name cut)
     = (bytesToHex ∘ te_oid <$> entries) ++ (if (length cut =? 19)%nat then [bytesToHex cut] else []) /\
   parseTreeClosureRefs (tree_payload entries ++ cut_part mode name cut)
     = parseTreeClosureRefs (tree_payload entries)).
Proof.
  intros He. unfold parseTreeChildOids, parseTreeClosureRefs, parseTreeClosureRefBytes.
  assert (forall rest, exists fuel', (length rest <= fuel')%nat /\
    bytesToHex <$> tree_children (length (tree_payload entries ++ rest)) (tree_payload entries ++ rest)
      = (bytesToHex ∘ te_oid <$> entries) ++ (bytesToHex <$> tree_children fuel' rest) /\
    bytesToHex <$> oid_slots (List.concat (tree_closure (length (tree_payload entries ++ rest)) (tree_payload entries ++ rest)))
      = (bytesToHex ∘ te_oid <$> filter (fun e => isGitlinkMode (te_mode e) = false) entries)
        ++ (bytesToHex <$> tree_closure fuel' rest)) as H.
  { intros rest. destruct (tree_children_entries entries rest (length (tree_payload entries ++ rest)) He)
      as (fuel' & Hf & E1 & E2); [done|]. exists fuel'. split; [done|].
    rewrite oid_slots_concat by apply tree_closure_length. rewrite E1, E2, !fmap_app, !list_fmap_compose. done. }
  destruct (H []) as (f0 & _ & E1 & E2). rewrite app_nil_r in E1, E2.
  assert (tree_children f0 [] = [] /\ tree_closure f0 [] = []) as [N1 N2] by (by destruct f0).
  rewrite N1, app_nil_r in E1. rewrite N2, app_nil_r in E2. split; [done|]. split; [done|].
  intros Hm Hn Hc. destruct (H (cut_part mode name cut)) as (fuel' & Hf & E3 & E4).
  destruct fuel' as [|fuel']; [unfold cut_part in Hf; rewrite length_app in Hf; simpl in Hf; lia|].
  destruct (tree_cut fuel' mode name cut Hm Hn Hc) as [C1 C2].
  rewrite E3, E4, C1, C2, E2, app_nil_r. by destruct (length cut =? 19)%nat.
Qed.

Lemma tree_readers_witness :
  parseTreeChildOids (tree_payload [] ++ cut_part (encode "40000") (encode "d") (replicate 19 1))
  = [bytesToHex (replicate 19 1)].
Proof.
  destruct (tree_readers [] (encode "40000") (encode "d") (replicate 19 1)) as (_ & _ & H); [constructor|].
  etransitivity; [apply H|]; [by apply not_elem_check | by apply not_elem_check | simpl; lia | reflexivity].
Defined.
