(* ===== verification/RefClosure.v ===== *)
(** * The objects a fetch needs

    [git/operations/fetch/refClosure.ts]: which objects are sent to a client that
    wants some ids and has others.  Both closures are walked over the reference
    sidecars of the active packs ([PackRefs]), breadth first, with queues and marks
    in typed arrays; an object is addressed by its pack and its place in the index
    of the pack ([PackIndex]).  The readings of the clock are a parameter, counted
    from the start of the call.

    A result of [None] stands for an exception or a walk that does not end; that
    there is none is part of [fetch_closure_exact]. *)
From S2P Require Import Prelude Text Bytes PackIndex PackRefs.

(** ** Definitions *)

Definition HAVE_CAP : nat := 128.
Definition CLOSURE_TIMEOUT_MS : Z := 49000.
Definition MISSING_REF_CAP : nat := 1024.

(** [PackRefSnapshotEntry] of [git/pack/refIndex.ts]. *)
Record PackRefSnapshotEntry := mkEntry {
  pe_packKey : string;
  pe_packBytes : Z;
  pe_idx : IdxView;
  pe_refs : PackRefView }.

Record RefClosureStats := mkStats {
  stat_indexedObjects : Z;
  stat_queued : nat;
  stat_seen : nat;
  stat_needed : nat;
  stat_missing : nat;
  stat_edgeVisits : nat;
  stat_duplicateQueueSkips : nat }.

Inductive BudgetReason := TimeoutReason | MissingRefBudget.

Inductive RefClosureResult :=
  | Ready (neededOids ackOids : list string) (stats : RefClosureStats)
  | BudgetExceeded (reason : BudgetReason) (neededOids ackOids : list string) (stats : RefClosureStats).

Record ClosureIndex := mkClosureIndex { packBaseOrdinals : list Z; ci_objectCount : Z }.

Record LocatedObject := mkLocated { loc_packSlot : nat; loc_oidIndex : Z; loc_ordinal : Z }.

Record CommonHave := mkCommon { common_oid : string; common_located : LocatedObject }.

Record LocatedObjectQueue := mkQueue {
  q_packSlots : list Z; q_oidIndices : list Z; q_cursor : nat; q_count : nat }.

(** A [Uint32Array] starts with zeros and keeps numbers modulo 2^32. *)
Fixpoint base_ordinals (packs : list PackRefSnapshotEntry) (objectCount : Z) : list Z * Z :=
  match packs with
  | [] => ([toUint32 objectCount], objectCount)
  | p :: rest =>
    let '(l, total) := base_ordinals rest (objectCount + iv_count (pe_idx p)) in
    (toUint32 objectCount :: l, total)
  end.

Definition buildClosureIndex (packs : list PackRefSnapshotEntry) : ClosureIndex :=
  let '(l, total) := base_ordinals packs 0 in mkClosureIndex l total.

Fixpoint locate_from (packSlot : nat) (packs : list PackRefSnapshotEntry) (index : ClosureIndex)
    (rawOid : list Z) : option LocatedObject :=
  match packs with
  | [] => None
  | p :: rest =>
    let oidIndex := findOidIndexFromBytes (pe_idx p) rawOid 0 in
    if oidIndex <? 0 then locate_from (S packSlot) rest index rawOid
    else Some (mkLocated packSlot oidIndex (byte_at (packBaseOrdinals index) packSlot + oidIndex))
  end.

Definition locateObject (packs : list PackRefSnapshotEntry) (index : ClosureIndex) (rawOid : list Z)
    : option LocatedObject := locate_from 0 packs index rawOid.

Definition createLocatedObjectQueue (initialEntries : nat) : LocatedObjectQueue :=
  let initialCapacity := Nat.max initialEntries 16 in
  mkQueue (replicate initialCapacity 0) (replicate initialCapacity 0) 0 0.

(** The doubling loop; [fuel] is the capacity wanted. *)
Fixpoint next_capacity (fuel capacity wanted : nat) : nat :=
  match fuel with
  | O => capacity
  | S fuel => if (capacity <? wanted)%nat then next_capacity fuel (capacity * 2) wanted else capacity
  end.

(** A longer array with the same beginning. *)
Definition enlarged (length' : nat) (old : list Z) : list Z := old ++ replicate (length' - length old) 0.

Definition ensureLocatedObjectQueueCapacity (q : LocatedObjectQueue) (nextCount : nat) : LocatedObjectQueue :=
  if (nextCount <=? length (q_packSlots q))%nat then q else
  let nextCapacity := next_capacity nextCount (length (q_packSlots q)) nextCount in
  mkQueue (enlarged nextCapacity (q_packSlots q)) (enlarged nextCapacity (q_oidIndices q)) (q_cursor q) (q_count q).

Definition pushLocatedObject (q : LocatedObjectQueue) (located : LocatedObject) : LocatedObjectQueue :=
  let q := ensureLocatedObjectQueueCapacity q (S (q_count q)) in
  mkQueue (<[q_count q := toUint32 (Z.of_nat (loc_packSlot located))]> (q_packSlots q))
    (<[q_count q := toUint32 (loc_oidIndex located)]> (q_oidIndices q)) (q_cursor q) (S (q_count q)).

Definition flagged (flags : list Z) (located : LocatedObject) : bool :=
  negb (byte_at flags (Z.to_nat (loc_ordinal located)) =? 0).

Definition mark (flags : list Z) (located : LocatedObject) : list Z :=
  <[Z.to_nat (loc_ordinal located) := 1]> flags.

Fixpoint common_haves (packs : list PackRefSnapshotEntry) (index : ClosureIndex) (haves : list string)
    (seenFlags : list Z) : option (list CommonHave) :=
  match haves with
  | [] => Some []
  | have :: rest =>
    let oid := toLowerCase have in
    if negb (isValidOid oid) then common_haves packs index rest seenFlags else
    rawOid ← hexToBytes oid;
    match locateObject packs index rawOid with
    | None => common_haves packs index rest seenFlags
    | Some located =>
      if flagged seenFlags located then common_haves packs index rest seenFlags
      else cons (mkCommon oid located) <$> common_haves packs index rest (mark seenFlags located)
    end
  end.

Definition findCommonHavesInSnapshot (packs : list PackRefSnapshotEntry) (index : ClosureIndex)
    (haves : list string) : option (list CommonHave) :=
  common_haves packs index (take HAVE_CAP haves) (replicate (Z.to_nat (ci_objectCount index)) 0).

Inductive Recording := Recorded | Duplicate | OverBudget.

(** A [Set] of texts is the list of its members in the order they were added. *)
Definition recordMissingOid (oid : string) (missingSeen missingNeeded : list string) (includeNeeded : bool)
    : Recording * list string * list string :=
  if bool_decide (oid ∈ missingSeen) then (Duplicate, missingSeen, missingNeeded)
  else if (MISSING_REF_CAP <=? length missingSeen)%nat then (OverBudget, missingSeen, missingNeeded)
  else (Recorded, missingSeen ++ [oid],
        if includeNeeded && negb (bool_decide (oid ∈ missingNeeded)) then missingNeeded ++ [oid] else missingNeeded).

(** What one of the two walks changes: its queue and marks, and the ids it met
    that no pack has. *)
Record Walk := mkWalk {
  wk_queue : LocatedObjectQueue;
  wk_flags : list Z;
  wk_skips : nat;
  wk_missingSeen : list string;
  wk_missing : list string;
  wk_edges : nat;
  wk_over : bool }.

Definition enqueueLocatedObject (located : LocatedObject) (w : Walk) : Walk :=
  let 'mkWalk q flags skips seen missing edges over := w in
  if flagged flags located then mkWalk q flags (S skips) seen missing edges over
  else mkWalk (pushLocatedObject q located) (mark flags located) skips seen missing edges over.

Definition record_missing (oid : string) (includeNeeded : bool) (w : Walk) : Walk :=
  let 'mkWalk q flags skips seen missing edges over := w in
  match recordMissingOid oid seen missing includeNeeded with
  | (OverBudget, _, _) => mkWalk q flags skips seen missing edges true
  | (_, seen', missing') => mkWalk q flags skips seen' missing' edges over
  end.

Section Visit.
Context (packs : list PackRefSnapshotEntry) (index : ClosureIndex) (includeNeeded : string -> bool).

(** The callback of either walk on one reference. *)
Definition visit_ref (w : Walk) (rawRef : list Z) : Walk :=
  let w := mkWalk (wk_queue w) (wk_flags w) (wk_skips w) (wk_missingSeen w) (wk_missing w) (S (wk_edges w)) (wk_over w) in
  if wk_over w then w else
  match locateObject packs index rawRef with
  | Some located => enqueueLocatedObject located w
  | None => let oid := bytesToHex rawRef in record_missing oid (includeNeeded oid) w
  end.

Definition visit_refs (packSlot : nat) (oidIndex : Z) (w : Walk) : option Walk :=
  p ← packs !! packSlot; Some (fold_left visit_ref (visitPackRefRawRefsAt (pe_refs p) oidIndex) w).
End Visit.

(** The entry at the cursor, and the queue behind it. *)
Definition next_entry_of (w : Walk) : nat * Z :=
  let q := wk_queue w in (Z.to_nat (byte_at (q_packSlots q) (q_cursor q)), byte_at (q_oidIndices q) (q_cursor q)).

Definition advance (w : Walk) : Walk :=
  let 'mkWalk (mkQueue slots indices cursor count) flags skips seen missing edges _ := w in
  mkWalk (mkQueue slots indices (S cursor) count) flags skips seen missing edges false.

Definition pending (w : Walk) : bool := (q_cursor (wk_queue w) <? q_count (wk_queue w))%nat.

(** How a walk ended: the clock readings used, the reason it was cut short, its state. *)
Record Ending (A : Type) := mkEnding { end_tick : nat; end_reason : option BudgetReason; end_state : A }.
Arguments mkEnding {A}.
Arguments end_tick {A}.
Arguments end_reason {A}.
Arguments end_state {A}.

Section Closure.
Context (now : nat -> Z) (packs : list PackRefSnapshotEntry) (index : ClosureIndex).

Definition out_of_time (tick : nat) : bool := CLOSURE_TIMEOUT_MS <? now tick - now 0%nat.

(** The walk over what the client has; [fuel] exceeds the number of objects. *)
Fixpoint have_loop (fuel tick : nat) (w : Walk) : option (Ending Walk) :=
  match fuel with
  | O => None
  | S fuel =>
    if negb (pending w) then Some (mkEnding tick None w) else
    if out_of_time tick then Some (mkEnding (S tick) (Some TimeoutReason) w) else
    let '(packSlot, oidIndex) := next_entry_of w in
    w ← visit_refs packs index (fun _ => true) packSlot oidIndex (advance w);
    if wk_over w then Some (mkEnding (S tick) (Some MissingRefBudget) w) else have_loop fuel (S tick) w
  end.

Fixpoint want_loop (wants : list string) (w : Walk) : option Walk :=
  match wants with
  | [] => Some w
  | want :: rest =>
    let normalized := toLowerCase want in
    w ← (if negb (isValidOid normalized) then Some (record_missing normalized true w) else
         rawOid ← hexToBytes normalized;
         Some (match locateObject packs index rawOid with
               | None => record_missing normalized true w
               | Some located => enqueueLocatedObject located w
               end));
    if wk_over w then Some w else want_loop rest w
  end.

(** The selection: the walk over what is wanted, and what it selects. *)
Record Selection := mkSelection {
  sl_walk : Walk;
  sl_seenFlags : list Z;
  sl_seenCount : nat;
  sl_neededFlags : list Z;
  sl_neededPackSlots : list Z;
  sl_neededOidIndices : list Z;
  sl_neededCount : nat }.

Definition addNeededObject (located : LocatedObject) (s : Selection) : Selection :=
  let 'mkSelection w seenFlags seenCount neededFlags slots indices count := s in
  if flagged neededFlags located then s else
  let full := (length slots <=? count)%nat in
  let nextLength := Nat.max (length slots * 2) 16 in
  let slots := if full then enlarged nextLength slots else slots in
  let indices := if full then enlarged nextLength indices else indices in
  mkSelection w seenFlags seenCount (mark neededFlags located)
    (<[count := toUint32 (Z.of_nat (loc_packSlot located))]> slots)
    (<[count := toUint32 (loc_oidIndex located)]> indices) (S count).

Definition set_walk (w : Walk) (s : Selection) : Selection :=
  mkSelection w (sl_seenFlags s) (sl_seenCount s) (sl_neededFlags s) (sl_neededPackSlots s)
    (sl_neededOidIndices s) (sl_neededCount s).

Definition see (located : LocatedObject) (s : Selection) : Selection :=
  mkSelection (sl_walk s) (mark (sl_seenFlags s) located) (S (sl_seenCount s)) (sl_neededFlags s)
    (sl_neededPackSlots s) (sl_neededOidIndices s) (sl_neededCount s).

(** The walk over what is wanted, which does not go behind what the client has. *)
Fixpoint need_loop (stopFlags : list Z) (missingStop : list string) (fuel tick : nat) (s : Selection)
    : option (Ending Selection) :=
  match fuel with
  | O => None
  | S fuel =>
    if negb (pending (sl_walk s)) then Some (mkEnding tick None s) else
    if out_of_time tick then Some (mkEnding (S tick) (Some TimeoutReason) s) else
    let '(packSlot, oidIndex) := next_entry_of (sl_walk s) in
    let s := set_walk (advance (sl_walk s)) s in
    let located := mkLocated packSlot oidIndex (byte_at (packBaseOrdinals index) packSlot + oidIndex) in
    if flagged (sl_seenFlags s) located then need_loop stopFlags missingStop fuel (S tick) s else
    let s := see located s in
    if flagged stopFlags located then need_loop stopFlags missingStop fuel (S tick) s else
    let s := addNeededObject located s in
    w ← visit_refs packs index (fun oid => negb (bool_decide (oid ∈ missingStop))) packSlot oidIndex (sl_walk s);
    let s := set_walk w s in
    if wk_over w then Some (mkEnding (S tick) (Some MissingRefBudget) s)
    else need_loop stopFlags missingStop fuel (S tick) s
  end.
End Closure.

Definition needed_oid (packs : list PackRefSnapshotEntry) (packSlot oidIndex : Z) : option string :=
  p ← packs !! Z.to_nat packSlot; Some (getOidHexAt (pe_idx p) (Z.to_nat oidIndex)).

Definition buildNeededOids (packs : list PackRefSnapshotEntry) (s : Selection) : option (list string) :=
  oids ← mapM (fun k => needed_oid packs (byte_at (sl_neededPackSlots s) k) (byte_at (sl_neededOidIndices s) k))
           (seq 0 (sl_neededCount s));
  Some (oids ++ wk_missing (sl_walk s)).

Definition buildRefClosureStats (index : ClosureIndex) (s : Selection) : RefClosureStats :=
  let w := sl_walk s in
  mkStats (ci_objectCount index) (q_count (wk_queue w)) (sl_seenCount s)
    (sl_neededCount s + length (wk_missing w)) (length (wk_missingSeen w)) (wk_edges w) (wk_skips w).

Definition empty_flags (index : ClosureIndex) : list Z := replicate (Z.to_nat (ci_objectCount index)) 0.

Definition empty_walk (index : ClosureIndex) (initialEntries : nat) (missingSeen : list string) : Walk :=
  mkWalk (createLocatedObjectQueue initialEntries) (empty_flags index) 0 missingSeen [] 0 false.

Definition empty_selection (index : ClosureIndex) (wants : nat) (w : Walk) : Selection :=
  mkSelection w (empty_flags index) 0 (empty_flags index) (replicate (Nat.max wants 16) 0)
    (replicate (Nat.max wants 16) 0) 0.

Definition computeNeededFromPackRefs (now : nat -> Z) (packs : list PackRefSnapshotEntry)
    (wants haves : list string) : option RefClosureResult :=
  let index := buildClosureIndex packs in
  let fuel := S (Z.to_nat (ci_objectCount index)) in
  let n := length wants in
  commonHaves ← findCommonHavesInSnapshot packs index haves;
  let ackOids := common_oid <$> commonHaves in
  let exceeded reason s :=
    neededOids ← buildNeededOids packs s;
    Some (BudgetExceeded reason neededOids ackOids (buildRefClosureStats index s)) in
  let haveQueue := fold_left (fun w h => enqueueLocatedObject (common_located h) w) commonHaves
                     (empty_walk index (length commonHaves) []) in
  had ← have_loop now packs index fuel 1 haveQueue;
  let stop := end_state had in
  let fresh := empty_walk index n (wk_missingSeen stop) in
  match end_reason had with
  | Some reason => exceeded reason (empty_selection index n fresh)
  | None =>
    w ← want_loop packs index wants fresh;
    let s := empty_selection index n w in
    if wk_over w then exceeded MissingRefBudget s else
    selected ← need_loop now packs index (wk_flags stop) (wk_missing stop) fuel (end_tick had) s;
    match end_reason selected with
    | Some reason => exceeded reason (end_state selected)
    | None =>
      neededOids ← buildNeededOids packs (end_state selected);
      Some (Ready neededOids ackOids (buildRefClosureStats index (end_state selected)))
    end
  end.

(** A snapshot whose indexes are search tables ([PackIndex]) and whose sidecars
    refer to whole ids, small enough for the typed arrays. *)
Record pack_ok (p : PackRefSnapshotEntry) (names : list (list Z)) : Prop := {
  po_names : names_ok (pe_idx p) names;
  po_count : iv_count (pe_idx p) = Z.of_nat (length names);
  po_refs : forall i r, r ∈ visitPackRefRawRefsAt (pe_refs p) i -> length r = 20%nat /\ is_bytes r }.

Definition counts (packs : list PackRefSnapshotEntry) : list Z := (fun p => iv_count (pe_idx p)) <$> packs.

Record snapshot_ok (packs : list PackRefSnapshotEntry) (names : list (list (list Z))) : Prop := {
  so_packs : Forall2 pack_ok packs names;
  so_total : zsum (counts packs) < 2 ^ 32;
  so_slots : Z.of_nat (length packs) < 2 ^ 32 }.

Definition is_oid (oid : list Z) : Prop := length oid = 20%nat /\ is_bytes oid.

(** The object an id names, and the ids it refers to, as the snapshot has them. *)
Definition find_object (packs : list PackRefSnapshotEntry) (oid : list Z) : option LocatedObject :=
  locateObject packs (buildClosureIndex packs) oid.

Definition indexed (packs : list PackRefSnapshotEntry) (oid : list Z) : Prop := is_Some (find_object packs oid).

Definition refs_at (packs : list PackRefSnapshotEntry) (l : LocatedObject) : list (list Z) :=
  match packs !! loc_packSlot l with
  | Some p => visitPackRefRawRefsAt (pe_refs p) (loc_oidIndex l)
  | None => []
  end.

Definition refers (packs : list PackRefSnapshotEntry) (a b : list Z) : Prop :=
  exists l, find_object packs a = Some l /\ b ∈ refs_at packs l.

(** Reachable from the ids of [from] along references. *)
Definition reachable (packs : list PackRefSnapshotEntry) (from : list Z -> Prop) (oid : list Z) : Prop :=
  exists a, from a /\ rtc (refers packs) a oid.

(** The id a text of a request names. *)
Definition names_oid (text : string) (oid : list Z) : Prop :=
  is_oid oid /\ toLowerCase text = bytesToHex oid.

(** An id that one of [texts] names. *)
Definition named (texts : list string) (oid : list Z) : Prop := exists t, t ∈ texts /\ names_oid t oid.

(** What the client has in common with the snapshot, and what it asks for. *)
Definition common (packs : list PackRefSnapshotEntry) (haves : list string) (oid : list Z) : Prop :=
  named (take HAVE_CAP haves) oid /\ indexed packs oid.

(** An object of the closure of the wants that the client does not have. *)
Definition owed (packs : list PackRefSnapshotEntry) (wants haves : list string) (oid : list Z) : Prop :=
  reachable packs (named wants) oid /\ ~ reachable packs (common packs haves) oid.

(** An id no pack has that an object of [from] refers to. *)
Definition dangling (packs : list PackRefSnapshotEntry) (from : list Z -> Prop) (s : string) : Prop :=
  exists a b, from a /\ refers packs a b /\ ~ indexed packs b /\ s = bytesToHex b.

(** A wanted text that no object of the snapshot answers. *)
Definition unanswered (packs : list PackRefSnapshotEntry) (wants : list string) (s : string) : Prop :=
  exists t, t ∈ wants /\ toLowerCase t = s /\ forall oid, names_oid t oid -> ~ indexed packs oid.

(** What an answer promises: the acknowledged ids; the objects that are owed, each once,
    and the ids among them that no pack has; or an honest reason to give up. *)
Definition answer_ok (now : nat -> Z) (packs : list PackRefSnapshotEntry) (wants haves : list string)
    (r : RefClosureResult) : Prop :=
  let acks_ok ack := NoDup ack /\ forall s, s ∈ ack <-> exists oid, common packs haves oid /\ s = bytesToHex oid in
  match r with
  | Ready needed ack _ => acks_ok ack /\ NoDup needed /\
      (forall oid, is_oid oid -> indexed packs oid -> bytesToHex oid ∈ needed <-> owed packs wants haves oid) /\
      (forall s, (forall oid, is_oid oid -> indexed packs oid -> s <> bytesToHex oid) ->
        s ∈ needed <-> (unanswered packs wants s \/ dangling packs (owed packs wants haves) s) /\
                       ~ dangling packs (reachable packs (common packs haves)) s)
  | BudgetExceeded TimeoutReason _ ack _ => acks_ok ack /\ exists k, CLOSURE_TIMEOUT_MS < now k - now 0%nat
  | BudgetExceeded MissingRefBudget _ ack stats => acks_ok ack /\ (MISSING_REF_CAP <= stat_missing stats)%nat
  end.

Definition demo_key : string := "do/x/objects/pack/p.pack".

(** A pack with a commit that refers to a tree and to an object nobody has, and a
    tree that refers to a blob. *)
Definition demo_entry : PackRefSnapshotEntry :=
  mkEntry demo_key 100
    (mkIdxView demo_key 3 ((fun b => Z.min 3 (Z.of_nat b)) <$> seq 0 256)
       (replicate 20 1 ++ replicate 20 2 ++ replicate 20 3) [] [] [] [] 100 [] [])
    (mkRefView demo_key 3 100 [] [] [3; 2; 1] [0; 0; 1; 3] (replicate 20 1 ++ replicate 20 2 ++ replicate 20 9)).

Definition demo_names : list (list (list Z)) := [[replicate 20 1; replicate 20 2; replicate 20 3]].

(** ** Lemmas *)

#[export] Instance located_eq_dec : EqDecision LocatedObject.
Proof. solve_decision. Defined.

Section Snapshot.
Context (packs : list PackRefSnapshotEntry) (names : list (list (list Z))) (Hok : snapshot_ok packs names).

Local Abbreviation index := (buildClosureIndex packs).
Local Abbreviation total := (zsum (counts packs)).
Definition base (k : nat) : Z := zsum (take k (counts packs)).

Lemma count_nonneg k n : counts packs !! k = Some n -> 0 <= n.
Proof.
  unfold counts. rewrite list_lookup_fmap. intros (p & Hp & ->)%fmap_Some_1.
  destruct (Forall2_lookup_l _ _ _ _ _ (so_packs _ _ Hok) Hp) as (ns & _ & Hns).
  rewrite (po_count _ _ Hns). lia.
Qed.

Lemma counts_nonneg : Forall (fun n => 0 <= n) (counts packs).
Proof. apply Forall_lookup. intros k n. apply count_nonneg. Qed.

Lemma zsum_nonneg l : Forall (fun n => 0 <= n) l -> 0 <= zsum l.
Proof. induction 1; simpl; lia. Qed.

Lemma zsum_app l1 l2 : zsum (l1 ++ l2) = zsum l1 + zsum l2.
Proof. induction l1; simpl; lia. Qed.

Lemma base_next k n : counts packs !! k = Some n -> base (S k) = base k + n.
Proof. intros Hk. unfold base. rewrite (take_S_r _ _ _ Hk), zsum_app. simpl. lia. Qed.

Lemma base_mono j k : (j <= k)%nat -> 0 <= base j <= base k.
Proof.
  intros Hjk. unfold base. replace k with (j + (k - j))%nat by lia. rewrite <- take_take_drop, zsum_app.
  pose proof counts_nonneg as Hc. split.
  - by apply zsum_nonneg, Forall_take.
  - pose proof (zsum_nonneg (take (k - j) (drop j (counts packs))) ltac:(by apply Forall_take, Forall_drop)). lia.
Qed.

Lemma base_total k : base k <= total.
Proof.
  unfold base. rewrite <- (take_drop k (counts packs)) at 2. rewrite zsum_app.
  pose proof (zsum_nonneg (drop k (counts packs)) ltac:(apply Forall_drop, counts_nonneg)). lia.
Qed.

Lemma base_ordinals_spec l c :
  (base_ordinals l c).2 = c + zsum (counts l) /\
  forall k, (k <= length l)%nat -> (base_ordinals l c).1 !! k = Some (toUint32 (c + zsum (take k (counts l)))).
Proof.
  revert c. induction l as [|p l IH]; intros c; csimpl.
  - split; [lia|]. intros k Hk. assert (k = O) as -> by lia. simpl. do 2 f_equal. lia.
  - destruct (IH (c + iv_count (pe_idx p))) as [H1 H2]. destruct (base_ordinals l _) as [bs t]. simpl in *.
    split; [lia|]. intros [|k] Hk; simpl; [do 2 f_equal; lia|]. rewrite H2 by lia. do 2 f_equal. lia.
Qed.

Lemma index_total : ci_objectCount index = total.
Proof.
  unfold buildClosureIndex. destruct (base_ordinals_spec packs 0) as [H _].
  destruct (base_ordinals packs 0) as [bs t]. simpl in *. lia.
Qed.

Lemma index_base k : (k < length packs)%nat -> byte_at (packBaseOrdinals index) k = base k.
Proof.
  intros Hk. unfold buildClosureIndex. destruct (base_ordinals_spec packs 0) as [_ H].
  destruct (base_ordinals packs 0) as [bs t]. simpl in *. unfold byte_at. rewrite H by lia. simpl.
  unfold toUint32. rewrite Z.mod_small; [done|]. pose proof (base_mono 0 k ltac:(lia)). pose proof (base_total k).
  pose proof (so_total _ _ Hok). unfold base in *. simpl in *. lia.
Qed.

(** A place of the snapshot. *)
Record stored (l : LocatedObject) (oid : list Z) : Prop := {
  sd_oid : exists ns, names !! loc_packSlot l = Some ns /\ ns !! Z.to_nat (loc_oidIndex l) = Some oid;
  sd_index : 0 <= loc_oidIndex l;
  sd_ordinal : loc_ordinal l = base (loc_packSlot l) + loc_oidIndex l }.

Lemma pack_at k ns : names !! k = Some ns -> exists p, packs !! k = Some p /\ pack_ok p ns.
Proof. intros Hn. destruct (Forall2_lookup_r _ _ _ _ _ (so_packs _ _ Hok) Hn) as (p & ? & ?). by exists p. Qed.

Lemma stored_range l oid : stored l oid ->
  (loc_packSlot l < length packs)%nat /\ base (loc_packSlot l) <= loc_ordinal l < base (S (loc_packSlot l)) /\
  0 <= loc_ordinal l < total /\ Z.of_nat (loc_packSlot l) < 2 ^ 32 /\ loc_oidIndex l < 2 ^ 32.
Proof.
  intros [(ns & Hns & Hi) H0 ->]. destruct (pack_at _ _ Hns) as (p & Hp & Hpok).
  apply lookup_lt_Some in Hp as Hlt. apply lookup_lt_Some in Hi.
  assert (counts packs !! loc_packSlot l = Some (Z.of_nat (length ns))) as Hc.
  { unfold counts. rewrite list_lookup_fmap, Hp. simpl. by rewrite (po_count _ _ Hpok). }
  rewrite (base_next _ _ Hc). pose proof (base_total (S (loc_packSlot l))) as Ht. rewrite (base_next _ _ Hc) in Ht.
  pose proof (base_mono 0 (loc_packSlot l) ltac:(lia)). pose proof (so_total _ _ Hok). pose proof (so_slots _ _ Hok). lia.
Qed.

Lemma ordinal_inj l l' o o' : stored l o -> stored l' o' -> loc_ordinal l = loc_ordinal l' -> l = l'.
Proof.
  intros Hl Hl' E. destruct (stored_range _ _ Hl) as (_ & H1 & _), (stored_range _ _ Hl') as (_ & H2 & _).
  assert (loc_packSlot l = loc_packSlot l') as Es.
  { destruct (Nat.lt_trichotomy (loc_packSlot l) (loc_packSlot l')) as [Hlt|[?|Hlt]]; [|done|].
    - pose proof (base_mono (S (loc_packSlot l)) (loc_packSlot l') Hlt). lia.
    - pose proof (base_mono (S (loc_packSlot l')) (loc_packSlot l) Hlt). lia. }
  destruct l as [s i o1], l' as [s' i' o1']; simpl in *. destruct Hl as [_ _ O1], Hl' as [_ _ O2]. simpl in *.
  subst. f_equal; lia.
Qed.

Lemma locate_from_spec k raw ps ns :
  is_oid raw -> drop k packs = ps -> drop k names = ns ->
  match locate_from k ps index raw with
  | Some l => stored l raw
  | None => forall n, n ∈ ns -> raw ∉ n
  end.
Proof.
  intros [Hlen Hb]. revert k ns. induction ps as [|p ps IH]; intros k ns Hps Hns; simpl.
  { intros n Hn. exfalso. assert (length names <= k)%nat.
    { pose proof (Forall2_length _ _ _ (so_packs _ _ Hok)). apply (f_equal length) in Hps. rewrite length_drop in Hps.
      simpl in Hps. lia. }
    rewrite drop_ge in Hns by lia. subst. by apply elem_of_nil in Hn. }
  assert (packs !! k = Some p) as Hp by (rewrite <- (Nat.add_0_r k), <- lookup_drop, Hps; done).
  destruct (Forall2_lookup_l _ _ _ _ _ (so_packs _ _ Hok) Hp) as (n & Hn & Hpok).
  rewrite (drop_S _ _ _ Hn) in Hns. subst ns. rewrite (drop_S _ _ _ Hp) in Hps. injection Hps as Hps.
  assert (name_at raw 0 = raw) as Hname.
  { unfold name_at. apply list_eq. intros i. rewrite list_lookup_fmap. destruct (decide (i < 20)%nat) as [Hi|Hi].
    - rewrite lookup_seq_lt by lia. unfold byte_at. simpl. destruct (lookup_lt_is_Some_2 raw i ltac:(lia)) as [b ->]. done.
    - rewrite lookup_seq_ge, (proj2 (lookup_ge_None raw i)) by lia. done. }
  destruct (findOidIndexFromBytes_spec _ _ (po_names _ _ Hpok) raw 0 raw) as [[-> Hnot]|[Hpos Hfound]];
    [lia | lia | exact Hname | done | |].
  - simpl. specialize (IH (S k) (drop (S k) names) Hps eq_refl).
    destruct (locate_from _ _ _ _) as [l|]; [done|]. intros m [->|Hm]%elem_of_cons; [done|]. by apply IH.
  - rewrite (proj2 (Z.ltb_ge _ 0)) by lia. split; simpl; [by exists n | done |].
    rewrite index_base; [done|]. by eapply lookup_lt_Some.
Qed.

Lemma find_spec oid : is_oid oid ->
  match find_object packs oid with
  | Some l => stored l oid
  | None => forall n, n ∈ names -> oid ∉ n
  end.
Proof. intros Ho. by apply (locate_from_spec 0 oid packs names). Qed.

Lemma stored_oid_unique l o o' : stored l o -> stored l o' -> o = o'.
Proof. intros [(n & ? & ?) _ _] [(n' & ? & ?) _ _]. congruence. Qed.

Lemma refs_oids l r : r ∈ refs_at packs l -> is_oid r.
Proof.
  unfold refs_at. destruct (packs !! _) as [p|] eqn:Hp; [|by intros ?%elem_of_nil].
  destruct (Forall2_lookup_l _ _ _ _ _ (so_packs _ _ Hok) Hp) as (n & _ & Hpok). apply (po_refs _ _ Hpok).
Qed.


(** *** Places in typed arrays *)

(** A place the lookup can give: the first pack that has the id. *)
Definition canonical (l : LocatedObject) : Prop := exists oid, is_oid oid /\ find_object packs oid = Some l.

Lemma canonical_stored l : canonical l -> exists oid, is_oid oid /\ find_object packs oid = Some l /\ stored l oid.
Proof. intros (oid & Ho & E). exists oid. pose proof (find_spec oid Ho) as Hs. by rewrite E in Hs. Qed.

Lemma canonical_inj l l' : canonical l -> canonical l' -> loc_ordinal l = loc_ordinal l' -> l = l'.
Proof.
  intros (? & _ & _ & H1)%canonical_stored (? & _ & _ & H2)%canonical_stored. by eapply ordinal_inj.
Qed.

Lemma canonical_range l : canonical l ->
  (loc_packSlot l < length packs)%nat /\ 0 <= loc_oidIndex l /\ 0 <= loc_ordinal l < total /\
  loc_ordinal l = byte_at (packBaseOrdinals index) (loc_packSlot l) + loc_oidIndex l /\
  toUint32 (Z.of_nat (loc_packSlot l)) = Z.of_nat (loc_packSlot l) /\ toUint32 (loc_oidIndex l) = loc_oidIndex l.
Proof.
  intros (oid & _ & _ & H)%canonical_stored. destruct (stored_range _ _ H) as (H1 & H2 & H3 & H4 & H5).
  pose proof (sd_index _ _ H). split_and!; try lia.
  - rewrite index_base by done. apply (sd_ordinal _ _ H).
  - unfold toUint32. by rewrite Z.mod_small by lia.
  - unfold toUint32. by rewrite Z.mod_small by lia.
Qed.

(** Two arrays that hold the places of [L] at their start. *)
Record holds (slots indices : list Z) (L : list LocatedObject) : Prop := {
  ho_length : length slots = length indices;
  ho_cap : (length L <= length slots)%nat;
  ho_places : forall j l, L !! j = Some l ->
    slots !! j = Some (Z.of_nat (loc_packSlot l)) /\ indices !! j = Some (loc_oidIndex l) }.

Lemma length_enlarged n old : length (enlarged n old) = Nat.max n (length old).
Proof. unfold enlarged. rewrite length_app, length_replicate. lia. Qed.

Lemma enlarged_lookup n old j x : old !! j = Some x -> enlarged n old !! j = Some x.
Proof. intros Hj. unfold enlarged. apply lookup_app_l_Some, Hj. Qed.

Lemma holds_enlarged n slots indices L : holds slots indices L -> holds (enlarged n slots) (enlarged n indices) L.
Proof.
  intros [H1 H2 H3]. split.
  - rewrite !length_enlarged. lia.
  - rewrite length_enlarged. lia.
  - intros j l Hj. destruct (H3 j l Hj). split; by apply enlarged_lookup.
Qed.

Lemma holds_push slots indices L l :
  holds slots indices L -> canonical l -> (length L < length slots)%nat ->
  holds (<[length L := toUint32 (Z.of_nat (loc_packSlot l))]> slots)
        (<[length L := toUint32 (loc_oidIndex l)]> indices) (L ++ [l]).
Proof.
  intros [H1 H2 H3] Hl Hlt. destruct (canonical_range _ Hl) as (_ & _ & _ & _ & -> & ->). split.
  - by rewrite !length_insert.
  - rewrite length_insert, length_app. simpl. lia.
  - intros j x Hj. destruct (decide (j = length L)) as [->|Hne].
    + rewrite lookup_app_r, Nat.sub_diag in Hj by lia. injection Hj as <-.
      rewrite !list_lookup_insert_eq by lia. done.
    + rewrite !list_lookup_insert_ne by done. apply H3. apply lookup_app_Some in Hj as [Hj|[Hj Hx]]; [done|].
      destruct (j - length L)%nat eqn:E; [lia | done].
Qed.

(** An array of marks on the places of [L]. *)
Definition marks (flags : list Z) (L : list LocatedObject) : Prop :=
  length flags = Z.to_nat total /\ forall l, canonical l -> (flagged flags l = true <-> l ∈ L).

Lemma marks_false flags L l : marks flags L -> canonical l -> flagged flags l = false -> l ∉ L.
Proof. intros [_ H] Hl Hf Hin. apply H in Hin; [congruence | done]. Qed.

Lemma marks_empty : marks (empty_flags index) [].
Proof.
  unfold marks, empty_flags. rewrite index_total. split; [apply length_replicate|]. intros l Hl. split; [|by intros ?%elem_of_nil].
  unfold flagged, byte_at. intros Hf. destruct (_ !! _) eqn:E in Hf; [|done].
  apply lookup_replicate in E as [-> _]. done.
Qed.

Lemma marks_mark flags L l : marks flags L -> canonical l -> marks (mark flags l) (L ++ [l]).
Proof.
  intros [H1 H2] Hl. split; [unfold mark; by rewrite length_insert|]. intros x Hx.
  rewrite elem_of_app, list_elem_of_singleton. unfold flagged, mark, byte_at.
  destruct (canonical_range _ Hl) as (_ & _ & Hr & _), (canonical_range _ Hx) as (_ & _ & Hr2 & _).
  destruct (decide (x = l)) as [->|Hne].
  - rewrite list_lookup_insert_eq by lia. split; [by right | done].
  - rewrite list_lookup_insert_ne.
    2: { intros E. apply Hne. symmetry. apply canonical_inj; [done | done | lia]. }
    rewrite <- (H2 x Hx). unfold flagged, byte_at. split; [by left | by intros [?|?]].
Qed.

(** As the marks are on distinct places, there are no more of them than objects. *)
Lemma canonical_length L : NoDup L -> Forall canonical L -> (length L <= Z.to_nat total)%nat.
Proof.
  intros Hnd Hc. rewrite <- (length_fmap (fun l => Z.to_nat (loc_ordinal l)) L).
  rewrite <- (length_seq (Z.to_nat total) 0). apply submseteq_length, NoDup_submseteq.
  - apply NoDup_alt. intros i j k Hi Hj. rewrite list_lookup_fmap in Hi, Hj.
    apply fmap_Some_1 in Hi as (x & Hi & ->), Hj as (y & Hj & E).
    assert (canonical x) as Hx by (by eapply Forall_lookup_1). assert (canonical y) as Hy by (by eapply Forall_lookup_1).
    destruct (canonical_range _ Hx) as (_ & _ & Hr & _), (canonical_range _ Hy) as (_ & _ & Hr2 & _).
    assert (x = y) as -> by (apply canonical_inj; [done | done | lia]). by eapply NoDup_lookup.
  - intros k Hk. apply list_elem_of_fmap in Hk as (x & -> & Hx). rewrite Forall_forall in Hc.
    destruct (canonical_range _ (Hc _ Hx)) as (_ & _ & Hr & _). apply elem_of_seq. lia.
Qed.

(** The state of a walk whose queue holds the places [L]. *)
Record walk_holds (w : Walk) (L : list LocatedObject) : Prop := {
  wh_count : q_count (wk_queue w) = length L;
  wh_cursor : (q_cursor (wk_queue w) <= length L)%nat;
  wh_places : holds (q_packSlots (wk_queue w)) (q_oidIndices (wk_queue w)) L;
  wh_some : (0 < length (q_packSlots (wk_queue w)))%nat;
  wh_marks : marks (wk_flags w) L;
  wh_canonical : Forall canonical L;
  wh_NoDup : NoDup L }.

Definition add (L : list LocatedObject) (l : LocatedObject) : list LocatedObject :=
  if decide (l ∈ L) then L else L ++ [l].

Lemma next_capacity_spec fuel cap wanted :
  (0 < cap)%nat -> (wanted <= cap + fuel)%nat -> (wanted <= next_capacity fuel cap wanted)%nat.
Proof.
  revert cap. induction fuel as [|fuel IH]; intros cap H0 Hf; simpl; [lia|].
  destruct (cap <? wanted)%nat eqn:E; [|apply Nat.ltb_ge in E; lia]. apply IH; lia.
Qed.

(** Pushing to a queue. *)
Lemma push_holds q l L :
  q_count q = length L -> holds (q_packSlots q) (q_oidIndices q) L -> (0 < length (q_packSlots q))%nat -> canonical l ->
  let q' := pushLocatedObject q l in
  q_count q' = S (length L) /\ q_cursor q' = q_cursor q /\ holds (q_packSlots q') (q_oidIndices q') (L ++ [l]) /\
  (0 < length (q_packSlots q'))%nat.
Proof.
  intros Hc Hh H0 Hl. unfold pushLocatedObject, ensureLocatedObjectQueueCapacity.
  destruct (_ <=? _)%nat eqn:E; cbn [q_count q_cursor q_packSlots q_oidIndices]; rewrite Hc, length_insert.
  - apply Nat.leb_le in E. split_and!; [done | done | | done]. apply holds_push; [done | done | lia].
  - rewrite length_enlarged.
    pose proof (next_capacity_spec (S (length L)) (length (q_packSlots q)) (S (length L)) H0 ltac:(lia)).
    split_and!; [done | done | | lia]. apply holds_push; [by apply holds_enlarged | done | rewrite length_enlarged; lia].
Qed.

Lemma enqueue_holds w L l : walk_holds w L -> canonical l ->
  let w' := enqueueLocatedObject l w in
  walk_holds w' (add L l) /\ q_cursor (wk_queue w') = q_cursor (wk_queue w) /\ wk_over w' = wk_over w /\
  wk_missingSeen w' = wk_missingSeen w /\ wk_missing w' = wk_missing w.
Proof.
  intros [H1 H2 H3 H4 H5 H6 H7] Hl. destruct w as [q flags skips seen missing edges over]. simpl in *.
  destruct (flagged flags l) eqn:Ef; simpl.
  - assert (l ∈ L) as Hin by (by apply H5). unfold add. rewrite decide_True by done. split_and!; done.
  - assert (l ∉ L) as Hin by (by eapply marks_false). unfold add. rewrite decide_False by done.
    destruct (push_holds q l L) as (Q1 & Q2 & Q3 & Q4); [done..|]. split_and!; [|done..]. split; cbn [wk_queue wk_flags].
    + rewrite Q1, length_app. simpl. lia.
    + rewrite Q2, length_app. simpl. lia.
    + done.
    + done.
    + by apply marks_mark.
    + apply Forall_app. by split; [|apply Forall_singleton].
    + apply NoDup_app. split_and!; [done | | apply NoDup_singleton]. by intros x Hx ->%list_elem_of_singleton.
Qed.

(** *** Visiting the references of an object *)

(** The ids of [raws] that no pack has. *)
Definition absent (raws : list (list Z)) (s : string) : Prop :=
  exists r, r ∈ raws /\ find_object packs r = None /\ s = bytesToHex r.

(** What a visit of [raws] adds to the ids that were not found. *)
Record noted (include : string -> bool) (raws : list (list Z)) (w w' : Walk) : Prop := {
  nt_seen_from : forall s, s ∈ wk_missingSeen w' -> s ∈ wk_missingSeen w \/ absent raws s;
  nt_seen : forall s, s ∈ wk_missingSeen w \/ absent raws s -> s ∈ wk_missingSeen w';
  nt_missing_from : forall s, s ∈ wk_missing w' -> s ∈ wk_missing w \/ absent raws s /\ include s = true;
  nt_missing_old : forall s, s ∈ wk_missing w -> s ∈ wk_missing w';
  nt_missing : forall s, absent raws s -> include s = true -> s ∈ wk_missing w' \/ s ∈ wk_missingSeen w;
  nt_NoDup : NoDup (wk_missing w) -> NoDup (wk_missing w') }.

Record visited (include : string -> bool) (raws : list (list Z)) (w w' : Walk) (L L' : list LocatedObject) : Prop := {
  vd_holds : walk_holds w' L';
  vd_cursor : q_cursor (wk_queue w') = q_cursor (wk_queue w);
  vd_prefix : L `prefix_of` L';
  vd_from : forall l, l ∈ L' -> l ∈ L \/ exists r, r ∈ raws /\ find_object packs r = Some l;
  vd_done : wk_over w' = false -> wk_over w = false /\ noted include raws w w' /\
    forall r l, r ∈ raws -> find_object packs r = Some l -> l ∈ L' }.

Lemma noted_none include raws w w' :
  (forall s, ~ absent raws s) -> wk_missingSeen w' = wk_missingSeen w -> wk_missing w' = wk_missing w ->
  noted include raws w w'.
Proof.
  intros Ha E1 E2. split; rewrite ?E1, ?E2; try done.
  - by left.
  - intros s [?|?%Ha]; done.
  - by left.
  - by intros s ?%Ha.
Qed.

Lemma absent_cons r raws s : absent (r :: raws) s <-> absent [r] s \/ absent raws s.
Proof.
  split.
  - intros (x & [->|Hx]%elem_of_cons & H); [left; exists r; split; [by apply list_elem_of_singleton | done] | right; by exists x].
  - intros [(x & ->%list_elem_of_singleton & H)|(x & Hx & H)]; [exists r | exists x]; (split; [apply elem_of_cons; auto | done]).
Qed.

Lemma noted_trans include r raws w1 w2 w3 :
  noted include [r] w1 w2 -> noted include raws w2 w3 -> noted include (r :: raws) w1 w3.
Proof.
  intros A B. split.
  - intros s Hs. rewrite absent_cons. apply (nt_seen_from _ _ _ _ B) in Hs as [Hs|]; [|auto].
    apply (nt_seen_from _ _ _ _ A) in Hs. tauto.
  - intros s. rewrite absent_cons. intros H. apply (nt_seen _ _ _ _ B). destruct H as [H|[H|H]]; [left|left|by right];
      apply (nt_seen _ _ _ _ A); tauto.
  - intros s Hs. rewrite absent_cons. apply (nt_missing_from _ _ _ _ B) in Hs as [Hs|]; [|tauto].
    apply (nt_missing_from _ _ _ _ A) in Hs. tauto.
  - intros s Hs. by apply (nt_missing_old _ _ _ _ B), (nt_missing_old _ _ _ _ A).
  - intros s. rewrite absent_cons. intros [H|H] Hi.
    + apply (nt_missing _ _ _ _ A) in H as [H|]; [|by right | done]. left. by apply (nt_missing_old _ _ _ _ B).
    + apply (nt_missing _ _ _ _ B) in H as [H|H]; [by left | | done]. apply (nt_seen_from _ _ _ _ A) in H as [|H]; [by right|].
      apply (nt_missing _ _ _ _ A) in H as [H|]; [|by right | done]. left. by apply (nt_missing_old _ _ _ _ B).
  - intros H. by apply (nt_NoDup _ _ _ _ B), (nt_NoDup _ _ _ _ A).
Qed.

Lemma record_missing_state oid include w : let w' := record_missing oid include w in
  wk_queue w' = wk_queue w /\ wk_flags w' = wk_flags w.
Proof. destruct w. simpl. unfold recordMissingOid. by repeat case_match; simplify_eq. Qed.

(** The texts that are recorded, when the budget lasts. *)
Lemma record_missing_spec oid include w : let w' := record_missing oid include w in
  wk_over w' = false -> wk_over w = false /\
  (forall s, s ∈ wk_missingSeen w' <-> s ∈ wk_missingSeen w \/ s = oid) /\
  (forall s, s ∈ wk_missing w' -> s ∈ wk_missing w \/ s = oid /\ include = true /\ s ∉ wk_missingSeen w) /\
  (forall s, s ∈ wk_missing w -> s ∈ wk_missing w') /\
  (include = true -> oid ∈ wk_missing w' \/ oid ∈ wk_missingSeen w) /\
  (NoDup (wk_missing w) -> NoDup (wk_missing w')).
Proof.
  destruct w as [q flags skips seen missing edges over]. simpl. unfold recordMissingOid.
  destruct (bool_decide (oid ∈ seen)) eqn:E1; to_prop.
  { simpl. intros ->. split_and!; try done; try tauto. intros s. split; [by left | intros [?| ->]; done]. }
  destruct (_ <=? _)%nat; [done|]. simpl. intros ->.
  assert (forall s, s ∈ seen ++ [oid] <-> s ∈ seen \/ s = oid) as Hseen.
  { intros s. by rewrite elem_of_app, list_elem_of_singleton. }
  assert (forall s, s ∈ missing -> s ∈ missing \/ s = oid /\ include = true /\ s ∉ seen) as Hold by (by left).
  destruct include; simpl; [|by split_and!].
  destruct (bool_decide (oid ∈ missing)) eqn:E2; to_prop; simpl; [split_and!; try done; by left|].
  split_and!; try done.
  - intros s. rewrite elem_of_app, list_elem_of_singleton. intros [?| ->]; [by left | by right].
  - intros s. rewrite elem_of_app. by left.
  - intros _. left. rewrite elem_of_app, list_elem_of_singleton. by right.
  - intros Hnd. apply NoDup_app. split_and!; [done | | apply NoDup_singleton]. by intros x Hx ->%list_elem_of_singleton.
Qed.

(** The budget is exceeded only by as many ids as it allows. *)
Definition over_fair (w : Walk) : Prop :=
  wk_over w = true -> (MISSING_REF_CAP <= length (wk_missingSeen w))%nat.

Lemma record_missing_fair oid include w : over_fair w -> over_fair (record_missing oid include w).
Proof.
  unfold over_fair. destruct w as [q flags skips seen missing edges over]. cbn [record_missing]. unfold recordMissingOid.
  destruct (bool_decide _); [done|]. destruct (_ <=? _)%nat eqn:E; [intros _ _; by apply Nat.leb_le|].
  cbn [wk_over wk_missingSeen]. intros H Ho. rewrite length_app. specialize (H Ho). lia.
Qed.

Lemma visit_fold_fair include raws w : over_fair w -> over_fair (fold_left (visit_ref packs index include) raws w).
Proof.
  revert w. induction raws as [|r raws IH]; intros w Hw; [done|]. simpl. apply IH. unfold visit_ref.
  destruct w as [q flags skips seen missing edges over]. cbv zeta. cbn [wk_over wk_queue wk_flags wk_skips wk_missingSeen wk_missing wk_edges].
  destruct over; [done|]. destruct (locateObject _ _ _); [|apply record_missing_fair; done].
  cbn [enqueueLocatedObject]. by destruct (flagged _ _).
Qed.

Lemma walk_holds_same w w' L : wk_queue w' = wk_queue w -> wk_flags w' = wk_flags w -> walk_holds w L -> walk_holds w' L.
Proof. intros E1 E2 []. split; by rewrite ?E1, ?E2. Qed.

Lemma visit_ref_spec include w L r : walk_holds w L -> is_oid r ->
  exists L', visited include [r] w (visit_ref packs index include w r) L L'.
Proof.
  intros Hw Hr. unfold visit_ref. set (w1 := mkWalk _ _ _ _ _ _ _).
  assert (walk_holds w1 L) as Hw1 by (by eapply walk_holds_same; [..|exact Hw]).
  destruct (wk_over w1) eqn:Eo.
  { exists L. split; [done | done | done | by left |]. rewrite Eo. done. }
  change (locateObject packs index r) with (find_object packs r).
  destruct (find_object packs r) as [l|] eqn:El.
  - assert (canonical l) as Hl by (by exists r). exists (add L l).
    destruct (enqueue_holds w1 L l Hw1 Hl) as (H1 & H2 & H3 & H4 & H5).
    assert (forall x, x ∈ [r] -> x = r) as Hone by (by intros x ?%list_elem_of_singleton).
    split; [done | done | | |].
    + unfold add. case_decide; [done | by eexists].
    + intros x. unfold add. case_decide; [by left|]. rewrite elem_of_app, list_elem_of_singleton.
      intros [| ->]; [by left | right; exists r; split; [by apply list_elem_of_singleton | done]].
    + intros _. split; [exact Eo|]. split.
      * apply noted_none; [|by rewrite H4|by rewrite H5]. intros s (x & ->%Hone & ? & _). congruence.
      * intros x y ->%Hone Hy. assert (y = l) as -> by congruence. unfold add. case_decide; [done|].
        rewrite elem_of_app, list_elem_of_singleton. by right.
  - exists L. cbv zeta. set (w' := record_missing _ _ w1).
    destruct (record_missing_state (bytesToHex r) (include (bytesToHex r)) w1) as [E1 E2].
    split; [by eapply walk_holds_same | by unfold w'; rewrite E1 | done | by left |].
    intros Hover. destruct (record_missing_spec _ _ _ Hover) as (H1 & H2 & H3 & H4 & H5 & H6).
    assert (forall s, absent [r] s <-> s = bytesToHex r) as Ha.
    { intros s. split; [by intros (x & ->%list_elem_of_singleton & _ & ->)|]. intros ->. exists r.
      split; [by apply list_elem_of_singleton | done]. }
    split; [done|]. split.
    + split; [intros s; rewrite ?Ha.. | apply H6].
      * intros Hs. apply H2 in Hs as [Hs|Hs]; [by left | by right].
      * intros Hs. apply H2. destruct Hs as [Hs|Hs]; [by left | by right].
      * intros [Hs|(-> & Hi & _)]%H3; [by left | by right].
      * apply H4.
      * intros ->. apply H5.
    + intros x y ->%list_elem_of_singleton ?. congruence.
Qed.

Lemma visit_fold_spec include raws w L : walk_holds w L -> Forall is_oid raws ->
  exists L', visited include raws w (fold_left (visit_ref packs index include) raws w) L L'.
Proof.
  revert w L. induction raws as [|r raws IH]; intros w L Hw Hr; simpl.
  { exists L. split; [done | done | done | by left |]. intros Ho. split; [done|].
    split; [apply noted_none; [by intros s (x & ?%elem_of_nil & _) | done | done] | by intros ? ? ?%elem_of_nil]. }
  apply Forall_cons_1 in Hr as [Hr Hrs]. destruct (visit_ref_spec include w L r Hw Hr) as [L1 A].
  destruct (IH _ _ (vd_holds _ _ _ _ _ _ A) Hrs) as [L2 B]. exists L2. split.
  - apply B.
  - rewrite (vd_cursor _ _ _ _ _ _ B). apply A.
  - etrans; [apply A | apply B].
  - intros l [Hl|(x & Hx & E)]%(vd_from _ _ _ _ _ _ B); [|right; exists x; split; [by apply elem_of_cons; right | done]].
    apply (vd_from _ _ _ _ _ _ A) in Hl as [|(x & ->%list_elem_of_singleton & E)]; [by left|].
    right. exists r. split; [by apply elem_of_cons; left | done].
  - intros Ho. destruct (vd_done _ _ _ _ _ _ B Ho) as (Ho1 & Nb & Cb). destruct (vd_done _ _ _ _ _ _ A Ho1) as (Ho0 & Na & Ca).
    split; [done|]. split; [by eapply noted_trans|]. intros x l [->|Hx]%elem_of_cons E; [|by eapply Cb].
    eapply elem_of_prefix; [|apply B]. eapply Ca; [by apply list_elem_of_singleton | done].
Qed.

(** *** Walking *)

Definition edge (l m : LocatedObject) : Prop := exists r, r ∈ refs_at packs l /\ find_object packs r = Some m.

Lemma refs_at_oids l : Forall is_oid (refs_at packs l).
Proof. apply Forall_forall. intros r. by apply refs_oids. Qed.

Section Walking.
Context (stop : LocatedObject -> Prop) (missingStop : list string) (include : string -> bool).
Context (Hinc : forall s, include s = true <-> s ∉ missingStop).
Context (roots : LocatedObject -> Prop) (lost : string -> Prop).

(** An edge the walk follows. *)
Definition follows (l m : LocatedObject) : Prop := ~ stop l /\ edge l m.

(** The walk has started from [roots] and looked behind everything before its
    cursor; it has met the ids [lost] that no pack has. *)
Record walk_inv (w : Walk) (L : list LocatedObject) : Prop := {
  wi_holds : walk_holds w L;
  wi_roots : forall a, roots a -> a ∈ L;
  wi_from : forall l, l ∈ L -> exists a, roots a /\ rtc follows a l;
  wi_edges : forall l m, l ∈ take (q_cursor (wk_queue w)) L -> follows l m -> m ∈ L;
  wi_absent : forall l s, l ∈ take (q_cursor (wk_queue w)) L -> ~ stop l -> absent (refs_at packs l) s ->
    s ∈ wk_missingSeen w;
  wi_lost : forall s, lost s -> s ∈ wk_missingSeen w;
  wi_seen : forall s, s ∈ wk_missingSeen w <-> s ∈ wk_missing w \/ s ∈ missingStop;
  wi_missing : forall s, s ∈ wk_missing w -> s ∉ missingStop /\
    (lost s \/ exists l, l ∈ L /\ ~ stop l /\ absent (refs_at packs l) s);
  wi_NoDup : NoDup (wk_missing w) }.

Lemma advance_holds w L : walk_holds w L -> pending w = true ->
  walk_holds (advance w) L /\ q_cursor (wk_queue (advance w)) = S (q_cursor (wk_queue w)) /\
  exists l, L !! q_cursor (wk_queue w) = Some l /\
    next_entry_of w = (loc_packSlot l, loc_oidIndex l).
Proof.
  intros [H1 H2 H3 H4 H5 H6 H7] Hp. unfold pending in Hp. apply Nat.ltb_lt in Hp.
  destruct w as [[slots indices cursor count] flags skips seen missing edges over].
  cbn [wk_queue wk_flags q_count q_cursor q_packSlots q_oidIndices advance] in *. split; [split; cbn; done || lia|].
  split; [done|]. destruct (lookup_lt_is_Some_2 L cursor) as [l Hl]; [lia|]. exists l. split; [done|].
  destruct (ho_places _ _ _ H3 _ _ Hl) as [E1 E2]. unfold next_entry_of, byte_at.
  cbn [wk_queue q_packSlots q_oidIndices q_cursor]. rewrite E1, E2. simpl. by rewrite Nat2Z.id.
Qed.

Lemma walk_length w L : walk_holds w L -> (length L <= Z.to_nat total)%nat.
Proof. intros Hw. apply canonical_length; apply Hw. Qed.

Lemma take_prefix {A} n (L L' : list A) x : L `prefix_of` L' -> x ∈ take n L -> x ∈ take n L'.
Proof. intros [k ->] Hx. rewrite take_app. apply elem_of_app. by left. Qed.

Lemma take_prefix_le {A} n (L L' : list A) : L `prefix_of` L' -> (n <= length L)%nat -> take n L' = take n L.
Proof. intros [k ->] Hn. by rewrite take_app_le by done. Qed.

Lemma visit_refs_eq include' l w : canonical l ->
  visit_refs packs index include' (loc_packSlot l) (loc_oidIndex l) w =
  Some (fold_left (visit_ref packs index include') (refs_at packs l) w).
Proof.
  intros Hl. destruct (canonical_range _ Hl) as (Hlt & _). unfold visit_refs, refs_at.
  destruct (lookup_lt_is_Some_2 packs (loc_packSlot l) Hlt) as [p ->]. done.
Qed.

(** The step of a walk that looks behind [l]. *)
Lemma walk_step w L l : walk_inv w L -> pending w = true -> L !! q_cursor (wk_queue w) = Some l -> ~ stop l ->
  let w' := fold_left (visit_ref packs index include) (refs_at packs l) (advance w) in
  exists L', walk_holds w' L' /\ q_cursor (wk_queue w') = S (q_cursor (wk_queue w)) /\ L `prefix_of` L' /\
    (wk_over w' = false -> walk_inv w' L').
Proof.
  intros Hi Hp Hl Hstop w'. destruct (advance_holds w L (wi_holds _ _ Hi) Hp) as (Ha & Hc & _).
  destruct (visit_fold_spec include (refs_at packs l) (advance w) L Ha (refs_at_oids l)) as [L' V].
  fold w' in V. exists L'. pose proof (vd_cursor _ _ _ _ _ _ V) as Hcur. rewrite Hc in Hcur.
  split; [apply V|]. split; [done|]. split; [apply V|]. intros Hover.
  destruct (vd_done _ _ _ _ _ _ V Hover) as (_ & N & D). pose proof (vd_prefix _ _ _ _ _ _ V) as Hpre.
  assert (wk_missingSeen (advance w) = wk_missingSeen w /\ wk_missing (advance w) = wk_missing w) as [Es Em].
  { by destruct w as [[] ? ? ? ? ? ?]. }
  apply lookup_lt_Some in Hl as Hlt.
  assert (forall x, x ∈ take (q_cursor (wk_queue w')) L' -> x ∈ take (q_cursor (wk_queue w)) L \/ x = l) as Htake.
  { intros x. rewrite Hcur, (take_prefix_le _ L L' Hpre) by lia. rewrite (take_S_r _ _ _ Hl), elem_of_app.
    rewrite list_elem_of_singleton. done. }
  split.
  - apply V.
  - intros a Ha2. eapply elem_of_prefix; [|exact Hpre]. by apply (wi_roots _ _ Hi).
  - intros x [Hx|(r & Hr & E)]%(vd_from _ _ _ _ _ _ V); [by apply (wi_from _ _ Hi)|].
    destruct (wi_from _ _ Hi l) as (a & Ha2 & Hrtc); [by eapply list_elem_of_lookup_2|]. exists a. split; [done|].
    eapply rtc_r; [exact Hrtc|]. split; [done|]. by exists r.
  - intros x m [Hx| ->]%Htake Hf.
    + eapply elem_of_prefix; [|exact Hpre]. by eapply (wi_edges _ _ Hi).
    + destruct Hf as (_ & r & Hr & E). by eapply D.
  - intros x s [Hx| ->]%Htake Hns Hs; apply (nt_seen _ _ _ _ N); rewrite Es; [left; by eapply (wi_absent _ _ Hi) | by right].
  - intros s Hs. apply (nt_seen _ _ _ _ N). rewrite Es. left. by apply (wi_lost _ _ Hi).
  - intros s. split.
    + intros [Hs|Hs]%(nt_seen_from _ _ _ _ N).
      * rewrite Es in Hs. apply (wi_seen _ _ Hi) in Hs as [Hs|Hs]; [|by right]. left. apply (nt_missing_old _ _ _ _ N). by rewrite Em.
      * destruct (include s) eqn:E.
        -- destruct (nt_missing _ _ _ _ N s Hs E) as [?|Hs2]; [by left|]. rewrite Es in Hs2.
           apply (wi_seen _ _ Hi) in Hs2 as [Hs2|Hs2]; [|by right]. left. apply (nt_missing_old _ _ _ _ N). by rewrite Em.
        -- right. destruct (decide (s ∈ missingStop)) as [|Hn]; [done|]. apply Hinc in Hn. congruence.
    + intros [Hs|Hs]; apply (nt_seen _ _ _ _ N); rewrite Es.
      * apply (nt_missing_from _ _ _ _ N) in Hs as [Hs|[Hs _]]; [|by right]. rewrite Em in Hs. left. apply (wi_seen _ _ Hi). by left.
      * left. apply (wi_seen _ _ Hi). by right.
  - intros s [Hs|[Hs E]]%(nt_missing_from _ _ _ _ N).
    + rewrite Em in Hs. destruct (wi_missing _ _ Hi s Hs) as [H1 [H2|(x & Hx & H2)]]; (split; [done|]); [by left | right].
      exists x. split; [|done]. by eapply elem_of_prefix.
    + split; [by apply Hinc|]. right. exists l. split; [|by split]. eapply elem_of_prefix; [|exact Hpre].
      by eapply list_elem_of_lookup_2.
  - apply (nt_NoDup _ _ _ _ N). rewrite Em. apply (wi_NoDup _ _ Hi).
Qed.

(** The step of a walk that leaves [l] alone. *)
Lemma walk_skip w L l : walk_inv w L -> pending w = true -> L !! q_cursor (wk_queue w) = Some l -> stop l ->
  walk_inv (advance w) L.
Proof.
  intros Hi Hp Hl Hstop. destruct (advance_holds w L (wi_holds _ _ Hi) Hp) as (Ha & Hc & _).
  assert (wk_missingSeen (advance w) = wk_missingSeen w /\ wk_missing (advance w) = wk_missing w) as [Es Em].
  { by destruct w as [[] ? ? ? ? ? ?]. }
  assert (forall x, x ∈ take (q_cursor (wk_queue (advance w))) L -> x ∈ take (q_cursor (wk_queue w)) L \/ x = l) as Htake.
  { intros x. rewrite Hc, (take_S_r _ _ _ Hl), elem_of_app, list_elem_of_singleton. done. }
  split; rewrite ?Es, ?Em; try apply Hi; [done | |].
  - intros x m [Hx| ->]%Htake Hf; [by eapply (wi_edges _ _ Hi)|]. by destruct Hf.
  - intros x s [Hx| ->]%Htake Hns Hs; [by eapply (wi_absent _ _ Hi) | done].
Qed.
End Walking.

(** *** What the client has *)

Lemma have_loop_spec now roots fuel : forall tick w L,
  walk_inv (fun _ => False) [] roots (fun _ => False) w L ->
  (Z.to_nat total < q_cursor (wk_queue w) + fuel)%nat ->
  exists e, have_loop now packs index fuel tick w = Some e /\
    match end_reason e with
    | None => exists L', walk_inv (fun _ => False) [] roots (fun _ => False) (end_state e) L' /\
                         q_cursor (wk_queue (end_state e)) = length L'
    | Some TimeoutReason => exists k, out_of_time now k = true
    | Some MissingRefBudget => (MISSING_REF_CAP <= length (wk_missingSeen (end_state e)))%nat
    end.
Proof.
  induction fuel as [|fuel IH]; intros tick w L Hi Hf.
  { pose proof (walk_length _ _ (wi_holds _ _ _ _ _ _ Hi)) as Hl. pose proof (wh_cursor _ _ (wi_holds _ _ _ _ _ _ Hi)). lia. }
  cbn [have_loop]. destruct (pending w) eqn:Hp; cbn [negb].
  2: { eexists. split; [done|]. simpl. exists L. split; [done|]. unfold pending in Hp. apply Nat.ltb_ge in Hp.
       pose proof (wh_cursor _ _ (wi_holds _ _ _ _ _ _ Hi)). pose proof (wh_count _ _ (wi_holds _ _ _ _ _ _ Hi)). lia. }
  destruct (out_of_time now tick) eqn:Ee; [eexists; split; [done|]; simpl; by exists tick|].
  destruct (advance_holds w L (wi_holds _ _ _ _ _ _ Hi) Hp) as (_ & Hc & l & Hl & ->).
  rewrite visit_refs_eq. 2: { eapply Forall_lookup_1; [|exact Hl]. apply (wh_canonical _ _ (wi_holds _ _ _ _ _ _ Hi)). }
  simpl. destruct (walk_step (fun _ => False) [] (fun _ => true) ltac:(intros s; split; [by intros _ ?%elem_of_nil | done])
    roots (fun _ => False) w L l Hi Hp Hl ltac:(tauto)) as (L' & Hw' & Hc' & Hpre & Hinv).
  destruct (wk_over _) eqn:Eo.
  { eexists. split; [done|]. apply visit_fold_fair; [by destruct w as [[] ? ? ? ? ? ?] | done]. }
  apply (IH _ _ L'); [by apply Hinv | lia].
Qed.

(** *** What is selected *)

(** The places selected so far. *)
Record needed_holds (s : Selection) (N : list LocatedObject) : Prop := {
  nh_count : sl_neededCount s = length N;
  nh_places : holds (sl_neededPackSlots s) (sl_neededOidIndices s) N;
  nh_marks : marks (sl_neededFlags s) N;
  nh_canonical : Forall canonical N }.

Lemma add_needed_holds s N l : needed_holds s N -> canonical l -> l ∉ N ->
  needed_holds (addNeededObject l s) (N ++ [l]) /\ sl_walk (addNeededObject l s) = sl_walk s /\
  sl_seenFlags (addNeededObject l s) = sl_seenFlags s.
Proof.
  intros [H1 H2 H3 H4] Hl Hn. destruct s as [w seenFlags seenCount flags slots indices count].
  cbn [sl_neededCount sl_neededPackSlots sl_neededOidIndices sl_neededFlags] in *. unfold addNeededObject.
  destruct (flagged flags l) eqn:Ef; [by apply H3 in Ef|]. split; [|done]. subst count.
  assert (forall m, (m = (if (length slots <=? length N)%nat then Nat.max (length slots * 2) 16 else length slots))%nat ->
    (length N < Nat.max m (length slots))%nat) as Hm.
  { intros m ->. pose proof (ho_cap _ _ _ H2). destruct (_ <=? _)%nat eqn:E; [apply Nat.leb_le in E | apply Nat.leb_gt in E]; lia. }
  split; cbn [sl_neededCount sl_neededPackSlots sl_neededOidIndices sl_neededFlags].
  - rewrite length_app. simpl. lia.
  - destruct (_ <=? _)%nat eqn:E; apply holds_push; try done.
    + by apply holds_enlarged.
    + rewrite length_enlarged. by apply Hm.
    + apply Nat.leb_gt in E. done.
  - by apply marks_mark.
  - apply Forall_app. by split; [|apply Forall_singleton].
Qed.

Section Selecting.
Context (now : nat -> Z) (stopFlags : list Z) (missingStop : list string) (S0 : list LocatedObject).
Context (Hstop : marks stopFlags S0) (roots : LocatedObject -> Prop) (lost : string -> Prop).

Local Abbreviation stop := (fun l => l ∈ S0).
Local Abbreviation inv := (walk_inv stop missingStop roots lost).

(** Everything before the cursor has been seen, and selected unless the client has it. *)
Record sel_inv (s : Selection) (L : list LocatedObject) : Prop := {
  sv_walk : inv (sl_walk s) L;
  sv_seen : marks (sl_seenFlags s) (take (q_cursor (wk_queue (sl_walk s))) L);
  sv_needed : needed_holds s (filter (fun l => l ∉ S0) (take (q_cursor (wk_queue (sl_walk s))) L)) }.

Lemma needed_set_walk s w N : needed_holds s N -> needed_holds (set_walk w s) N.
Proof. by intros []. Qed.

Lemma see_needed s l N : needed_holds s N -> needed_holds (see l s) N.
Proof. by intros []. Qed.

Lemma lookup_not_before (L : list LocatedObject) c l : NoDup L -> L !! c = Some l -> l ∉ take c L.
Proof.
  intros Hnd Hl (j & Hj)%list_elem_of_lookup_1. apply lookup_take_Some in Hj as [Hj Hlt].
  pose proof (NoDup_lookup _ _ _ _ Hnd Hj Hl). lia.
Qed.

Lemma need_loop_spec fuel : forall tick s L,
  sel_inv s L -> (Z.to_nat total < q_cursor (wk_queue (sl_walk s)) + fuel)%nat ->
  exists e, need_loop now packs index stopFlags missingStop fuel tick s = Some e /\
    (exists N, needed_holds (end_state e) N) /\
    match end_reason e with
    | None => exists L', sel_inv (end_state e) L' /\ q_cursor (wk_queue (sl_walk (end_state e))) = length L'
    | Some TimeoutReason => exists k, out_of_time now k = true
    | Some MissingRefBudget => (MISSING_REF_CAP <= length (wk_missingSeen (sl_walk (end_state e))))%nat
    end.
Proof.
  induction fuel as [|fuel IH]; intros tick s L [Hi Hs Hn] Hf.
  all: pose proof (wi_holds _ _ _ _ _ _ Hi) as Hw; pose proof (walk_length _ _ Hw) as Hlen;
    pose proof (wh_cursor _ _ Hw) as Hcur; pose proof (wh_count _ _ Hw) as Hcount.
  { lia. }
  cbn [need_loop]. destruct (pending (sl_walk s)) eqn:Hp; cbn [negb].
  2: { eexists. split; [done|]. simpl. split; [by eexists|]. exists L. split; [done|]. unfold pending in Hp.
       apply Nat.ltb_ge in Hp. lia. }
  destruct (out_of_time now tick) eqn:Ee; [eexists; split; [done|]; simpl; split; [by eexists | by exists tick]|].
  destruct (advance_holds _ L Hw Hp) as (Ha & Hc & l & Hl & ->).
  assert (canonical l) as Hcan by (eapply Forall_lookup_1; [apply (wh_canonical _ _ Hw) | exact Hl]).
  destruct (canonical_range _ Hcan) as (_ & _ & _ & Hord & _).
  replace (mkLocated _ _ _) with l by (destruct l; simpl in *; congruence).
  pose proof (lookup_not_before L _ l (wh_NoDup _ _ Hw) Hl) as Hfresh.
  change (sl_seenFlags (set_walk _ s)) with (sl_seenFlags s).
  destruct (flagged (sl_seenFlags s) l) eqn:Eseen; [by apply Hs in Eseen|].
  assert (take (S (q_cursor (wk_queue (sl_walk s)))) L = take (q_cursor (wk_queue (sl_walk s))) L ++ [l]) as Htake
    by (by apply take_S_r).
  destruct (flagged stopFlags l) eqn:Estop.
  - apply Hstop in Estop; [|done]. apply (IH _ _ L); [|simpl; lia]. split.
    + simpl. by eapply walk_skip.
    + simpl. rewrite Hc, Htake. by apply marks_mark.
    + simpl. rewrite Hc, Htake, filter_app, (filter_cons_False _ l []) by tauto. rewrite filter_nil, app_nil_r.
      by apply see_needed, needed_set_walk.
  - assert (l ∉ S0) as Hnot by (by eapply marks_false).
    set (N := filter _ _) in Hn.
    destruct (add_needed_holds (see l (set_walk (advance (sl_walk s)) s)) N l) as (Hn' & E1 & E2);
      [by apply see_needed, needed_set_walk | done | |].
    { unfold N. by intros [_ ?]%list_elem_of_filter. }
    rewrite E1. change (sl_walk (see l (set_walk (advance (sl_walk s)) s))) with (advance (sl_walk s)).
    rewrite visit_refs_eq by done. cbn [mbind option_bind].
    set (include := fun oid => negb (bool_decide (oid ∈ missingStop))).
    assert (forall t, include t = true <-> t ∉ missingStop) as Hinc.
    { intros t. unfold include. rewrite negb_true_iff. apply bool_decide_eq_false. }
    destruct (walk_step stop missingStop include Hinc roots lost _ L l Hi Hp Hl Hnot) as (L' & Hw' & Hc' & Hpre & Hinv).
    destruct (wk_over _) eqn:Eo.
    { eexists. split; [done|]. split; [exists (N ++ [l]); by apply needed_set_walk|].
      apply visit_fold_fair; [by destruct (sl_walk s) as [[] ? ? ? ? ? ?] | done]. }
    apply (IH _ _ L'); [|simpl; lia]. split.
    + simpl. by apply Hinv.
    + cbn [sl_walk set_walk]. rewrite Hc', (take_prefix_le _ L L' Hpre), Htake by (apply lookup_lt_Some in Hl; lia).
      cbn [sl_seenFlags set_walk]. rewrite E2. by apply marks_mark.
    + cbn [sl_walk set_walk]. rewrite Hc', (take_prefix_le _ L L' Hpre), Htake by (apply lookup_lt_Some in Hl; lia).
      rewrite filter_app, (filter_cons_True _ l []) by done. rewrite filter_nil. by apply needed_set_walk.
Qed.
End Selecting.

(** *** The texts of the request *)

Lemma names_valid t oid : names_oid t oid ->
  isValidOid (toLowerCase t) = true /\ hexToBytes (toLowerCase t) = Some oid.
Proof.
  intros [[Hl Hb] ->]. split; [by apply valid_oid_hex | by apply hexToBytes_bytesToHex].
Qed.

Lemma valid_names t : isValidOid (toLowerCase t) = true -> exists oid, names_oid t oid.
Proof.
  intros (oid & Ho & E)%valid_oid_names. rewrite toLowerCase_twice in E. by exists oid.
Qed.

Lemma named_unique t oid oid' : names_oid t oid -> names_oid t oid' -> oid = oid'.
Proof. intros [[_ H1] E1] [[_ H2] E2]. apply bytesToHex_inj; [done | done | congruence]. Qed.

(** What a text that names an id leads to. *)
Lemma text_cases t : (exists oid, names_oid t oid /\ isValidOid (toLowerCase t) = true /\
    hexToBytes (toLowerCase t) = Some oid) \/
  (isValidOid (toLowerCase t) = false /\ forall oid, ~ names_oid t oid).
Proof.
  destruct (isValidOid (toLowerCase t)) eqn:E.
  - left. destruct (valid_names t E) as [oid Ho]. exists oid. by destruct (names_valid _ _ Ho).
  - right. split; [done|]. intros oid [? _]%names_valid. congruence.
Qed.

Lemma canonical_unique oid oid' l : is_oid oid -> is_oid oid' ->
  find_object packs oid = Some l -> find_object packs oid' = Some l -> oid = oid'.
Proof.
  intros Ho Ho' E E'. pose proof (find_spec oid Ho) as H1. pose proof (find_spec oid' Ho') as H2.
  rewrite E in H1. rewrite E' in H2. by eapply stored_oid_unique.
Qed.

(** The haves that are found, each object once. *)
Record common_found (haves : list string) (F : list LocatedObject) (C : list CommonHave) : Prop := {
  cf_from : forall c, c ∈ C -> exists t oid, t ∈ haves /\ names_oid t oid /\ common_oid c = bytesToHex oid /\
    find_object packs oid = Some (common_located c);
  cf_all : forall t oid l, t ∈ haves -> names_oid t oid -> find_object packs oid = Some l ->
    l ∈ F \/ mkCommon (bytesToHex oid) l ∈ C;
  cf_NoDup : NoDup (common_located <$> C);
  cf_fresh : forall l, l ∈ common_located <$> C -> l ∉ F }.

Lemma common_haves_spec haves flags F : marks flags F ->
  exists C, common_haves packs index haves flags = Some C /\ common_found haves F C.
Proof.
  revert flags F. induction haves as [|t haves IH]; intros flags F HF.
  { exists []. split; [done|]. split; try (by intros ? ?%elem_of_nil); [|by apply NoDup_nil_2].
    by intros ? ? ? ?%elem_of_nil. }
  cbn [common_haves]. change (locateObject packs index) with (find_object packs).
  assert (forall flags' F', marks flags' F' -> F' = F ->
    (forall oid l, names_oid t oid -> find_object packs oid = Some l -> l ∈ F) ->
    exists C, common_haves packs index haves flags' = Some C /\ common_found (t :: haves) F C) as Hskip.
  { intros flags' F' HF' -> Hin. destruct (IH flags' F HF') as (C & E & [C1 C2 C3 C4]). exists C. split; [done|].
    split; [|intros t' oid l [->|Ht]%elem_of_cons Ho El|done..].
    - intros c (t' & oid & Ht & H)%C1. exists t', oid. split; [by apply elem_of_cons; right | done].
    - left. by eapply Hin.
    - by eapply C2. }
  destruct (text_cases t) as [(oid & Ho & Hv & Hb)|[Hv Hno]].
  2: { rewrite Hv. cbn [negb]. apply (Hskip flags F); [done | done |]. intros oid l Ho. by edestruct Hno. }
  rewrite Hv, Hb. cbn [negb mbind option_bind]. destruct (find_object packs oid) as [l|] eqn:El.
  2: { apply (Hskip flags F); [done | done |]. intros oid' l Ho' El'. rewrite (named_unique _ _ _ Ho' Ho) in El'. congruence. }
  assert (canonical l) as Hl by (exists oid; split; [apply Ho | done]).
  destruct (flagged flags l) eqn:Ef.
  { apply (Hskip flags F); [done | done |]. intros oid' l' Ho' El'. rewrite (named_unique _ _ _ Ho' Ho) in El'.
    assert (l' = l) as -> by congruence. by apply HF. }
  assert (l ∉ F) as Hnot by (by eapply marks_false).
  destruct (IH _ _ (marks_mark _ _ _ HF Hl)) as (C & E & [C1 C2 C3 C4]). rewrite E. eexists. split; [done|].
  assert (toLowerCase t = bytesToHex oid) as Et by apply Ho. split.
  - intros c [->|Hc]%elem_of_cons; [exists t, oid; split; [by apply elem_of_cons; left | done]|].
    apply C1 in Hc as (t' & oid' & Ht & H). exists t', oid'. split; [by apply elem_of_cons; right | done].
  - intros t' oid' l' [->|Ht]%elem_of_cons Ho' El'.
    + rewrite (named_unique _ _ _ Ho' Ho) in *. right. apply elem_of_cons. left. rewrite Et. f_equal. congruence.
    + destruct (C2 t' oid' l' Ht Ho' El') as [[?| ->%list_elem_of_singleton]%elem_of_app|?]; [by left | right | right].
      * apply elem_of_cons. left. rewrite Et. f_equal. f_equal. destruct Ho', Ho. by eapply canonical_unique.
      * by apply elem_of_cons; right.
  - apply NoDup_cons. split; [|done]. intros Hin%C4. apply Hin, elem_of_app. right. by apply list_elem_of_singleton.
  - intros x [->|Hx]%elem_of_cons; [done|]. apply C4 in Hx. intros Hin. apply Hx, elem_of_app. by left.
Qed.

(** *** The starts of the walks *)

Lemma elem_of_add L l x : x ∈ add L l <-> x ∈ L \/ x = l.
Proof.
  unfold add. case_decide.
  - split; [by left | by intros [?| ->]].
  - rewrite elem_of_app, list_elem_of_singleton. done.
Qed.

Lemma fresh_walk_holds n seen : walk_holds (empty_walk index n seen) [].
Proof.
  split; cbn [empty_walk createLocatedObjectQueue wk_queue wk_flags q_count q_cursor q_packSlots q_oidIndices].
  - done.
  - done.
  - split; [by rewrite !length_replicate | simpl; lia | done].
  - rewrite length_replicate. lia.
  - apply marks_empty.
  - done.
  - by apply NoDup_nil_2.
Qed.

Lemma enqueue_fold C w L : walk_holds w L -> Forall (fun c => canonical (common_located c)) C ->
  let w' := fold_left (fun w h => enqueueLocatedObject (common_located h) w) C w in
  exists L', walk_holds w' L' /\ q_cursor (wk_queue w') = q_cursor (wk_queue w) /\
    (forall x, x ∈ L' <-> x ∈ L \/ x ∈ common_located <$> C) /\
    wk_missingSeen w' = wk_missingSeen w /\ wk_missing w' = wk_missing w.
Proof.
  revert w L. induction C as [|c C IH]; intros w L Hw Hc w'.
  { exists L. split_and!; try done. intros x. split; [by left | intros [|?%elem_of_nil]; done]. }
  apply Forall_cons_1 in Hc as [Hc HC]. destruct (enqueue_holds w L _ Hw Hc) as (H1 & H2 & _ & H4 & H5).
  destruct (IH _ _ H1 HC) as (L' & G1 & G2 & G3 & G4 & G5). exists L'. unfold w'. cbn [fold_left].
  split_and!; [done | congruence | | congruence | congruence].
  intros x. rewrite G3, elem_of_add. cbn [fmap list_fmap]. rewrite elem_of_cons. tauto.
Qed.

(** A text of the request that leads to no object. *)
Definition lost_text (t s : string) : Prop :=
  toLowerCase t = s /\ forall oid, names_oid t oid -> find_object packs oid = None.

Definition lost_in (texts : list string) (s : string) : Prop := exists t, t ∈ texts /\ lost_text t s.

Lemma lost_in_cons t texts s : lost_in (t :: texts) s <-> lost_text t s \/ lost_in texts s.
Proof.
  split.
  - intros (x & [->|Hx]%elem_of_cons & H); [by left | right; by exists x].
  - intros [H|(x & Hx & H)]; [exists t | exists x]; (split; [apply elem_of_cons; auto | done]).
Qed.

Definition found_in (texts : list string) (l : LocatedObject) : Prop :=
  exists t oid, t ∈ texts /\ names_oid t oid /\ find_object packs oid = Some l.

Lemma found_in_cons t texts l : found_in (t :: texts) l <->
  (exists oid, names_oid t oid /\ find_object packs oid = Some l) \/ found_in texts l.
Proof.
  split.
  - intros (x & oid & [->|Hx]%elem_of_cons & H); [left; by exists oid | right; by exists x, oid].
  - intros [(oid & H)|(x & oid & Hx & H)]; [exists t, oid | exists x, oid]; (split; [apply elem_of_cons; auto | done]).
Qed.

Record wants_noted (wants : list string) (w w' : Walk) (L L' : list LocatedObject) : Prop := {
  wn_found : forall l, l ∈ L' <-> l ∈ L \/ found_in wants l;
  wn_seen : forall s, s ∈ wk_missingSeen w' <-> s ∈ wk_missingSeen w \/ lost_in wants s;
  wn_from : forall s, s ∈ wk_missing w' -> s ∈ wk_missing w \/ lost_in wants s /\ s ∉ wk_missingSeen w;
  wn_old : forall s, s ∈ wk_missing w -> s ∈ wk_missing w';
  wn_lost : forall s, lost_in wants s -> s ∈ wk_missing w' \/ s ∈ wk_missingSeen w;
  wn_NoDup : NoDup (wk_missing w) -> NoDup (wk_missing w') }.

Lemma wants_noted_cons t wants w1 w2 w3 L1 L2 L3 :
  (forall l, l ∈ L2 <-> l ∈ L1 \/ exists oid, names_oid t oid /\ find_object packs oid = Some l) ->
  (forall s, s ∈ wk_missingSeen w2 <-> s ∈ wk_missingSeen w1 \/ lost_text t s) ->
  (forall s, s ∈ wk_missing w2 -> s ∈ wk_missing w1 \/ lost_text t s /\ s ∉ wk_missingSeen w1) ->
  (forall s, s ∈ wk_missing w1 -> s ∈ wk_missing w2) ->
  (forall s, lost_text t s -> s ∈ wk_missing w2 \/ s ∈ wk_missingSeen w1) ->
  (NoDup (wk_missing w1) -> NoDup (wk_missing w2)) ->
  wants_noted wants w2 w3 L2 L3 -> wants_noted (t :: wants) w1 w3 L1 L3.
Proof.
  intros A1 A2 A3 A4 A5 A6 B. split.
  - intros l. rewrite (wn_found _ _ _ _ _ B), A1, found_in_cons. tauto.
  - intros s. rewrite (wn_seen _ _ _ _ _ B), A2, lost_in_cons. tauto.
  - intros s Hs. rewrite lost_in_cons. apply (wn_from _ _ _ _ _ B) in Hs as [Hs|[Hs Hn]].
    + apply A3 in Hs. tauto.
    + rewrite A2 in Hn. tauto.
  - intros s Hs. by apply (wn_old _ _ _ _ _ B), A4.
  - intros s [Hs|Hs]%lost_in_cons.
    + apply A5 in Hs as [Hs|]; [left; by apply (wn_old _ _ _ _ _ B) | by right].
    + apply (wn_lost _ _ _ _ _ B) in Hs as [|Hs]; [by left|]. apply A2 in Hs as [|Hs]; [by right|].
      apply A5 in Hs as [Hs|]; [left; by apply (wn_old _ _ _ _ _ B) | by right].
  - intros H. by apply (wn_NoDup _ _ _ _ _ B), A6.
Qed.

Lemma want_loop_spec wants : forall w L, walk_holds w L -> over_fair w -> wk_over w = false ->
  exists w', want_loop packs index wants w = Some w' /\ over_fair w' /\
    exists L', walk_holds w' L' /\ q_cursor (wk_queue w') = q_cursor (wk_queue w) /\
      (wk_over w' = false -> wants_noted wants w w' L L').
Proof.
  induction wants as [|t wants IH]; intros w L Hw Hfair Ho.
  { exists w. split; [done|]. split; [done|]. exists L. split_and!; [done..|]. intros _.
    assert (forall s, ~ lost_in [] s) as Hl by (intros s (x & ?%elem_of_nil & _); done).
    split; try done.
    - intros l. split; [by left|]. intros [|(x & oid & ?%elem_of_nil & _)]; done.
    - intros s. split; [by left|]. intros [|?%Hl]; done.
    - by left.
    - by intros s ?%Hl. }
  cbn [want_loop]. change (locateObject packs index) with (find_object packs).
  (* a text that leads to no object *)
  assert (forall s, lost_text t s <-> s = toLowerCase t /\ forall oid, names_oid t oid -> find_object packs oid = None) as Hlt.
  { intros s. unfold lost_text. split; intros [? ?]; split; auto. }
  assert (lost_text t (toLowerCase t) ->
    exists w', (let w2 := record_missing (toLowerCase t) true w in
                if wk_over w2 then Some w2 else want_loop packs index wants w2) = Some w' /\ over_fair w' /\
      exists L', walk_holds w' L' /\ q_cursor (wk_queue w') = q_cursor (wk_queue w) /\
        (wk_over w' = false -> wants_noted (t :: wants) w w' L L')) as Hlost.
  { intros Hlost. cbv zeta. destruct (record_missing_state (toLowerCase t) true w) as [E1 E2].
    pose proof (record_missing_spec (toLowerCase t) true w) as Hr.
    pose proof (record_missing_fair (toLowerCase t) true w Hfair) as Hf2.
    set (w2 := record_missing _ _ w) in *. assert (walk_holds w2 L) as Hw2 by (by eapply walk_holds_same).
    destruct (wk_over w2) eqn:Eo.
    { exists w2. split; [done|]. split; [done|]. exists L. split_and!; [done | by rewrite E1 | congruence]. }
    destruct (IH w2 L Hw2 Hf2 Eo) as (w' & E & Hf' & L' & Hw' & Hc & Hn). exists w'. split; [done|]. split; [done|].
    exists L'. split; [done|]. split; [by rewrite Hc, E1|]. intros Ho'. destruct (Hr Eo) as (_ & R2 & R3 & R4 & R5 & R6).
    assert (forall s, lost_text t s <-> s = toLowerCase t) as Hiff.
    { intros s. rewrite Hlt. split; [by intros [? _]|]. intros ->. split; [done | apply Hlost]. }
    eapply wants_noted_cons; [..|exact (Hn Ho')].
    - intros l. split; [by left|]. intros [|(oid & Hoid & El)]; [done|]. rewrite (proj2 Hlost oid Hoid) in El. done.
    - intros s. by rewrite R2, Hiff.
    - intros s [?|(-> & _ & ?)]%R3; [by left|]. right. by split; [apply Hiff|].
    - done.
    - intros s ->%Hiff. by apply R5.
    - done. }
  destruct (text_cases t) as [(oid & Hoid & Hv & Hb)|[Hv Hno]].
  2: { rewrite Hv. cbn [negb mbind option_bind]. apply Hlost. split; [done|]. intros oid Hoid. by edestruct Hno. }
  rewrite Hv, Hb. cbn [negb mbind option_bind]. destruct (find_object packs oid) as [l|] eqn:El.
  2: { apply Hlost. split; [done|]. intros oid' Ho'. by rewrite (named_unique _ _ _ Ho' Hoid). }
  assert (canonical l) as Hl by (exists oid; split; [apply Hoid | done]).
  destruct (enqueue_holds w L l Hw Hl) as (H1 & H2 & H3 & H4 & H5).
  set (w2 := enqueueLocatedObject l w) in *. rewrite H3, Ho.
  assert (over_fair w2) as Hf2 by (intros ?; congruence).
  destruct (IH w2 _ H1 Hf2 ltac:(congruence)) as (w' & E & Hf' & L' & Hw' & Hc & Hn).
  exists w'. split; [done|]. split; [done|]. exists L'. split; [done|]. split; [congruence|]. intros Ho'.
  assert (forall s, ~ lost_text t s) as Hnl by (intros s [_ Hs]; specialize (Hs oid Hoid); congruence).
  eapply wants_noted_cons; [..|exact (Hn Ho')].
  - intros x. rewrite elem_of_add. split.
    + intros [| ->]; [by left | right; by exists oid].
    + intros [|(oid' & Ho2 & E2)]; [by left | right]. rewrite (named_unique _ _ _ Ho2 Hoid) in E2. congruence.
  - intros s. rewrite H4. split; [by left | intros [|?%Hnl]; done].
  - intros s. rewrite H5. by left.
  - intros s. by rewrite H5.
  - by intros s ?%Hnl.
  - by rewrite H5.
Qed.

(** *** The selected ids *)

Definition id_of (l : LocatedObject) (s : string) : Prop :=
  exists oid, is_oid oid /\ find_object packs oid = Some l /\ s = bytesToHex oid.

Lemma needed_oid_spec l : canonical l ->
  exists s, needed_oid packs (Z.of_nat (loc_packSlot l)) (loc_oidIndex l) = Some s /\ id_of l s.
Proof.
  intros (oid & Ho & El & [(ns & Hns & Hi) _ _])%canonical_stored. destruct (pack_at _ _ Hns) as (p & Hp & Hpok).
  exists (bytesToHex oid). split; [|by exists oid]. unfold needed_oid. rewrite Nat2Z.id, Hp. cbn [mbind option_bind].
  f_equal. by apply (oid_hex_view _ _ (po_names _ _ Hpok)).
Qed.

Lemma buildNeededOids_spec s N : needed_holds s N ->
  exists oids, buildNeededOids packs s = Some (oids ++ wk_missing (sl_walk s)) /\ Forall2 id_of N oids.
Proof.
  intros [Hc Hp _ Hcan]. unfold buildNeededOids. rewrite Hc.
  assert (exists oids, mapM (fun k => needed_oid packs (byte_at (sl_neededPackSlots s) k) (byte_at (sl_neededOidIndices s) k))
    (seq 0 (length N)) = Some oids /\ Forall2 id_of N oids) as (oids & -> & H); [|by exists oids].
  pose proof (ho_places _ _ _ Hp) as Hpl. clear Hp Hc.
  assert (forall k, (k <= length N)%nat -> exists oids,
    mapM (fun k => needed_oid packs (byte_at (sl_neededPackSlots s) k) (byte_at (sl_neededOidIndices s) k))
      (seq k (length N - k)) = Some oids /\ Forall2 id_of (drop k N) oids) as Hk.
  { intros k Hk. remember (length N - k)%nat as n eqn:En. revert k Hk En. induction n as [|n IH]; intros k Hk En; cbn [seq mapM].
    - exists []. split; [done|]. rewrite drop_ge by lia. done.
    - destruct (lookup_lt_is_Some_2 N k) as [l Hl]; [lia|]. destruct (Hpl k l Hl) as [E1 E2].
      assert (canonical l) as Hl2 by (by eapply Forall_lookup_1).
      destruct (needed_oid_spec l Hl2) as (t & Et & Hid).
      assert (byte_at (sl_neededPackSlots s) k = Z.of_nat (loc_packSlot l)) as -> by (unfold byte_at; by rewrite E1).
      assert (byte_at (sl_neededOidIndices s) k = loc_oidIndex l) as -> by (unfold byte_at; by rewrite E2).
      rewrite Et. destruct (IH (S k)) as (oids & Em & H2); [lia | lia |]. exists (t :: oids).
      cbn [mbind option_bind]. rewrite Em. split; [done|]. rewrite (drop_S _ _ _ Hl). by constructor. }
  destruct (Hk 0%nat ltac:(lia)) as (oids & E & H). rewrite Nat.sub_0_r in E. by exists oids.
Qed.

(** *** Closures *)

Lemma rtc_refers_edge a oid l : rtc (refers packs) a oid -> is_oid a -> find_object packs oid = Some l ->
  exists la, find_object packs a = Some la /\ rtc edge la l.
Proof.
  induction 1 as [a|a x b (la & Ela & Hx) _ IH]; intros Ha El; [by exists l|].
  destruct IH as (lx & Elx & Hr); [by eapply refs_oids | done |]. exists la. split; [done|].
  eapply rtc_l; [|exact Hr]. by exists x.
Qed.

Lemma rtc_edge_refers la l : rtc edge la l -> forall a oid, is_oid a -> is_oid oid ->
  find_object packs a = Some la -> find_object packs oid = Some l -> rtc (refers packs) a oid.
Proof.
  induction 1 as [l|la m l (r & Hr & Em) _ IH]; intros a oid Ha Ho Ela El.
  - by rewrite (canonical_unique a oid l).
  - eapply rtc_l; [by exists la|]. apply IH; [by eapply refs_oids | done..].
Qed.

Lemma reachable_located from oid l : (forall a, from a -> is_oid a) -> is_oid oid -> find_object packs oid = Some l ->
  reachable packs from oid <-> exists a la, from a /\ find_object packs a = Some la /\ rtc edge la l.
Proof.
  intros Hf Ho El. split.
  - intros (a & Ha & Hr). destruct (rtc_refers_edge a oid l Hr) as (la & ? & ?); [by apply Hf | done | by exists a, la].
  - intros (a & la & Ha & Ela & Hr). exists a. split; [done|]. eapply rtc_edge_refers; [done | by apply Hf | done..].
Qed.

Lemma rtc_weaken {A} (R R' : A -> A -> Prop) x y : (forall a b, R a b -> R' a b) -> rtc R x y -> rtc R' x y.
Proof. intros H. induction 1; [apply rtc_refl | eapply rtc_l; eauto]. Qed.

(** A walk at its end has met what its roots reach. *)
Lemma walk_end_closed stop missingStop roots lost w L :
  walk_inv stop missingStop roots lost w L -> q_cursor (wk_queue w) = length L ->
  forall l, l ∈ L <-> exists a, roots a /\ rtc (follows stop) a l.
Proof.
  intros Hi Hc l. split; [apply (wi_from _ _ _ _ _ _ Hi)|]. intros (a & Ha & Hr).
  apply (wi_roots _ _ _ _ _ _ Hi) in Ha. induction Hr as [|x y z Hxy _ IH]; [done|]. apply IH.
  eapply (wi_edges _ _ _ _ _ _ Hi x); [|exact Hxy]. by rewrite Hc, firstn_all.
Qed.

Lemma walk_start stop missingStop roots lost w L :
  walk_holds w L -> q_cursor (wk_queue w) = 0%nat -> (forall l, l ∈ L <-> roots l) ->
  (forall s, lost s -> s ∈ wk_missingSeen w) ->
  (forall s, s ∈ wk_missingSeen w <-> s ∈ wk_missing w \/ s ∈ missingStop) ->
  (forall s, s ∈ wk_missing w -> s ∉ missingStop /\ lost s) -> NoDup (wk_missing w) ->
  walk_inv stop missingStop roots lost w L.
Proof.
  intros Hw Hc Hr Hl Hs Hm Hnd. split; try done.
  - intros a Ha. by apply Hr.
  - intros l Hin. exists l. split; [by apply Hr | apply rtc_refl].
  - rewrite Hc. by intros l m ?%elem_of_nil.
  - rewrite Hc. by intros l t ?%elem_of_nil.
  - intros t Ht. destruct (Hm t Ht). split; [done | by left].
Qed.

(** Paths that end outside a closed set avoid it. *)
Lemma path_avoids (S : LocatedObject -> Prop) a l :
  (forall x y, S x -> edge x y -> S y) -> ~ S l -> rtc edge a l -> rtc (follows S) a l.
Proof.
  intros HS Hl Hr. assert (rtc (follows S) a l /\ ~ S a) as [? _]; [|done].
  induction Hr as [|x y z Hxy _ IH]; [by split; [apply rtc_refl|]|]. destruct (IH Hl) as [IH1 IH2].
  assert (~ S x) as Hx by eauto. split; [|done]. by eapply rtc_l.
Qed.

Section Request.
Context (now : nat -> Z) (wants haves : list string).

(** How the walk over the haves ends. *)
Lemma have_walk : exists C had,
  findCommonHavesInSnapshot packs index haves = Some C /\ common_found (take HAVE_CAP haves) [] C /\
  have_loop now packs index (S (Z.to_nat (ci_objectCount index))) 1
    (fold_left (fun w h => enqueueLocatedObject (common_located h) w) C (empty_walk index (length C) [])) = Some had /\
  match end_reason had with
  | None => exists S0, marks (wk_flags (end_state had)) S0 /\
      (forall s, s ∈ wk_missingSeen (end_state had) <-> s ∈ wk_missing (end_state had)) /\
      (forall s, s ∈ wk_missing (end_state had) <-> exists l, l ∈ S0 /\ absent (refs_at packs l) s) /\
      (forall l, l ∈ S0 <-> exists a, a ∈ common_located <$> C /\ rtc edge a l)
  | Some TimeoutReason => exists k, out_of_time now k = true
  | Some MissingRefBudget => (MISSING_REF_CAP <= length (wk_missingSeen (end_state had)))%nat
  end.
Proof.
  destruct (common_haves_spec (take HAVE_CAP haves) (empty_flags index) [] marks_empty) as (C & EC & HC).
  exists C. pose proof (fresh_walk_holds (length C) []) as H0.
  destruct (enqueue_fold C _ _ H0) as (L0 & F1 & F2 & F3 & F4 & F5).
  { apply Forall_forall. intros c Hc. destruct (cf_from _ _ _ HC c Hc) as (t & oid & _ & [Ho _] & _ & E). by exists oid. }
  set (w0 := fold_left _ C _) in *.
  assert (walk_inv (fun _ => False) [] (fun a => a ∈ common_located <$> C) (fun _ => False) w0 L0) as Hi.
  { apply walk_start; [done | done | | done | | | rewrite F5; by apply NoDup_nil_2].
    - intros l. rewrite F3. split; [intros [?%elem_of_nil|]; done | by right].
    - intros s. rewrite F4, F5. split; [by intros ?%elem_of_nil | intros [?%elem_of_nil|?%elem_of_nil]; done].
    - intros s. rewrite F5. by intros ?%elem_of_nil. }
  destruct (have_loop_spec now _ (S (Z.to_nat (ci_objectCount index))) 1 w0 L0 Hi) as (had & Eh & Hend).
  { rewrite index_total. lia. }
  exists had. split_and!; [done | done | done |]. destruct (end_reason had) as [[]|]; [done | done |].
  destruct Hend as (S0 & HS & Hc). exists S0. pose proof (wi_holds _ _ _ _ _ _ HS) as Hw.
  assert (forall s, s ∈ wk_missingSeen (end_state had) <-> s ∈ wk_missing (end_state had)) as Hseen.
  { intros s. rewrite (wi_seen _ _ _ _ _ _ HS). split; [intros [|?%elem_of_nil]; done | by left]. }
  split_and!; [apply Hw | done | |].
  - intros s. split.
    + intros Hs. destruct (wi_missing _ _ _ _ _ _ HS s Hs) as [_ [[]|(l & Hl & _ & Ha)]]. by exists l.
    + intros (l & Hl & Ha). apply Hseen, (wi_absent _ _ _ _ _ _ HS l); [by rewrite Hc, firstn_all | tauto | done].
  - intros l. rewrite (walk_end_closed _ _ _ _ _ _ HS Hc). split; intros (a & Ha & Hr); exists a; (split; [done|]).
    + eapply rtc_weaken; [|exact Hr]. by intros x y [_ ?].
    + eapply rtc_weaken; [|exact Hr]. intros x y ?. split; [tauto | done].
Qed.

(** How the selection ends, given what the client has. *)
Lemma want_walk n tick stopFlags missingSeen missingStop S0 :
  marks stopFlags S0 -> (forall s, s ∈ missingSeen <-> s ∈ missingStop) ->
  exists w, want_loop packs index wants (empty_walk index n missingSeen) = Some w /\ over_fair w /\
    (wk_over w = false -> exists e,
      need_loop now packs index stopFlags missingStop (S (Z.to_nat (ci_objectCount index))) tick
        (empty_selection index n w) = Some e /\
      (exists N, needed_holds (end_state e) N) /\
      match end_reason e with
      | None => exists L,
          walk_inv (fun l => l ∈ S0) missingStop (found_in wants) (lost_in wants) (sl_walk (end_state e)) L /\
          q_cursor (wk_queue (sl_walk (end_state e))) = length L /\
          needed_holds (end_state e) (filter (fun l => l ∉ S0) L)
      | Some TimeoutReason => exists k, out_of_time now k = true
      | Some MissingRefBudget => (MISSING_REF_CAP <= length (wk_missingSeen (sl_walk (end_state e))))%nat
      end).
Proof.
  intros HS Hms. pose proof (fresh_walk_holds n missingSeen) as H0.
  destruct (want_loop_spec wants _ [] H0 ltac:(done) eq_refl) as (w & Ew & Hf & L & Hw & Hc & Hn).
  exists w. split; [done|]. split; [done|]. intros Ho. specialize (Hn Ho). cbn [wk_missingSeen wk_missing empty_walk] in Hn.
  assert (walk_inv (fun l => l ∈ S0) missingStop (found_in wants) (lost_in wants) w L) as Hi.
  { apply walk_start.
    - done.
    - done.
    - intros l. rewrite (wn_found _ _ _ _ _ Hn). split; [intros [?%elem_of_nil|]; done | by right].
    - intros s Hs. apply (wn_seen _ _ _ _ _ Hn). by right.
    - intros s. rewrite (wn_seen _ _ _ _ _ Hn). cbn [wk_missingSeen empty_walk]. split.
      + intros [Hs|Hs]; [right; by apply Hms|]. apply (wn_lost _ _ _ _ _ Hn) in Hs as [|Hs]; [by left | right; by apply Hms].
      + intros [Hs|Hs]; [right | left; by apply Hms]. apply (wn_from _ _ _ _ _ Hn) in Hs as [?%elem_of_nil|[? _]]; done.
    - intros s Hs. apply (wn_from _ _ _ _ _ Hn) in Hs as [?%elem_of_nil|[? Hns]]; [done|]. split; [|done]. by rewrite <- Hms.
    - apply (wn_NoDup _ _ _ _ _ Hn), NoDup_nil_2. }
  assert (sel_inv missingStop S0 (found_in wants) (lost_in wants) (empty_selection index n w) L) as Hsel.
  { split; cbn [empty_selection sl_walk sl_seenFlags]; rewrite ?Hc; [done | apply marks_empty |].
    split; cbn [sl_neededCount sl_neededPackSlots sl_neededOidIndices sl_neededFlags].
    - done.
    - split; [done | simpl; lia | done].
    - apply marks_empty.
    - done. }
  destruct (need_loop_spec now stopFlags missingStop S0 HS _ _ (S (Z.to_nat (ci_objectCount index))) tick _ L Hsel)
    as (e & Ee & HN & Hend).
  { rewrite index_total. lia. }
  exists e. split_and!; [done | done |]. destruct (end_reason e) as [[]|]; [done | done |].
  destruct Hend as (L' & [V1 V2 V3] & Hcur). exists L'. split_and!; [done | done |].
  by rewrite Hcur, firstn_all in V3.
Qed.

Lemma id_of_inj l l' s : id_of l s -> id_of l' s -> l = l'.
Proof.
  intros (o & [_ H1] & E & ->) (o' & [_ H2] & E' & Es). apply bytesToHex_inj in Es; [|done|done]. congruence.
Qed.

Lemma ids_elem N oids s : Forall2 id_of N oids -> s ∈ oids <-> exists l, l ∈ N /\ id_of l s.
Proof.
  intros HN. split.
  - intros (i & Hi)%list_elem_of_lookup_1. destruct (Forall2_lookup_r _ _ _ _ _ HN Hi) as (l & Hl & Hid).
    exists l. split; [by eapply list_elem_of_lookup_2 | done].
  - intros (l & (i & Hi)%list_elem_of_lookup_1 & (o & Ho & E & ->)).
    destruct (Forall2_lookup_l _ _ _ _ _ HN Hi) as (t & Ht & (o' & Ho' & E' & ->)).
    rewrite (canonical_unique o o' l) by done. by eapply list_elem_of_lookup_2.
Qed.

Lemma ids_NoDup N oids : Forall2 id_of N oids -> NoDup N -> NoDup oids.
Proof.
  intros HN Hnd. apply NoDup_alt. intros i j s Hi Hj.
  destruct (Forall2_lookup_r _ _ _ _ _ HN Hi) as (l & Hl & H1), (Forall2_lookup_r _ _ _ _ _ HN Hj) as (l' & Hl' & H2).
  pose proof (id_of_inj _ _ _ H1 H2). subst l'. by eapply NoDup_lookup.
Qed.

(** *** From places to ids *)

Lemma unanswered_lost s : unanswered packs wants s <-> lost_in wants s.
Proof.
  split; intros (t & Ht & Et & H); exists t; (split; [done|]); (split; [done|]); intros oid Ho.
  - specialize (H oid Ho). unfold indexed in H. destruct (find_object packs oid); [by destruct H | done].
  - unfold indexed. rewrite (H oid Ho). by intros [? ?].
Qed.

Section Ids.
Context (C : list CommonHave) (HC : common_found (take HAVE_CAP haves) [] C).

Lemma common_place oid l : is_oid oid -> find_object packs oid = Some l ->
  common packs haves oid <-> l ∈ common_located <$> C.
Proof.
  intros Ho El. split.
  - intros [(t & Ht & Hn) _]. destruct (cf_all _ _ _ HC t oid l Ht Hn El) as [?%elem_of_nil|H]; [done|].
    apply list_elem_of_fmap. by exists (mkCommon (bytesToHex oid) l).
  - intros (c & -> & Hc)%list_elem_of_fmap. destruct (cf_from _ _ _ HC c Hc) as (t & oid' & Ht & Hn & _ & E).
    assert (oid' = oid) as -> by (eapply canonical_unique; [apply Hn | done | done | done]).
    split; [by exists t | by eexists].
Qed.

Lemma acks_spec s : s ∈ common_oid <$> C <-> exists oid, common packs haves oid /\ s = bytesToHex oid.
Proof.
  rewrite list_elem_of_fmap. split.
  - intros (c & -> & Hc). destruct (cf_from _ _ _ HC c Hc) as (t & oid & Ht & Hn & -> & E). exists oid.
    split; [|done]. split; [by exists t | by eexists].
  - intros (oid & [(t & Ht & Hn) [l El]] & ->).
    destruct (cf_all _ _ _ HC t oid l Ht Hn El) as [?%elem_of_nil|H]; [done|].
    by exists (mkCommon (bytesToHex oid) l).
Qed.

Lemma acks_NoDup : NoDup (common_oid <$> C).
Proof.
  apply NoDup_alt. intros i j s Hi Hj. rewrite list_lookup_fmap in Hi, Hj.
  apply fmap_Some_1 in Hi as (c & Hi & ->), Hj as (d & Hj & E).
  destruct (cf_from _ _ _ HC c) as (t & oid & _ & [[_ Hb] _] & E1 & F1); [by eapply list_elem_of_lookup_2|].
  destruct (cf_from _ _ _ HC d) as (t' & oid' & _ & [[_ Hb'] _] & E2 & F2); [by eapply list_elem_of_lookup_2|].
  assert (oid = oid') as <- by (apply bytesToHex_inj; [done | done | congruence]).
  apply (NoDup_lookup (common_located <$> C) i j (common_located c)); [apply HC | |]; rewrite list_lookup_fmap.
  - by rewrite Hi.
  - rewrite Hj. simpl. f_equal. congruence.
Qed.

Context (S0 : list LocatedObject) (HS : forall l, l ∈ S0 <-> exists a, a ∈ common_located <$> C /\ rtc edge a l).

Lemma had_place oid l : is_oid oid -> find_object packs oid = Some l ->
  reachable packs (common packs haves) oid <-> l ∈ S0.
Proof.
  intros Ho El. rewrite (reachable_located _ oid l); [|by intros a [(t & _ & [? _]) _] | done | done]. rewrite HS. split.
  - intros (a & la & Ha & Ela & Hr). exists la. split; [|done]. apply (common_place a la); [|done|done].
    by destruct Ha as [(t & _ & [? _]) _].
  - intros (la & Hla & Hr). apply list_elem_of_fmap in Hla as (c & -> & Hc).
    destruct (cf_from _ _ _ HC c Hc) as (t & oid' & Ht & Hn & _ & E). exists oid', (common_located c).
    split_and!; [|done|done]. split; [by exists t | by eexists].
Qed.

Lemma had_closed x y : x ∈ S0 -> edge x y -> y ∈ S0.
Proof. rewrite !HS. intros (a & Ha & Hr) Hxy. exists a. split; [done|]. by eapply rtc_r. Qed.

Lemma wanted_place oid l : is_oid oid -> find_object packs oid = Some l ->
  reachable packs (named wants) oid <-> exists la, found_in wants la /\ rtc edge la l.
Proof.
  intros Ho El. rewrite (reachable_located _ oid l); [|by intros a (t & _ & ? & _) | done | done]. split.
  - intros (a & la & (t & Ht & Hn) & Ela & Hr). exists la. split; [by exists t, a | done].
  - intros (la & (t & a & Ht & Hn & Ela) & Hr). exists a, la. split; [by exists t | done].
Qed.

(** The selected places are what is owed. *)
Lemma owed_place (L : list LocatedObject) oid l : (forall l, l ∈ L <-> exists a, found_in wants a /\ rtc (follows (fun l => l ∈ S0)) a l) ->
  is_oid oid -> find_object packs oid = Some l ->
  owed packs wants haves oid <-> l ∈ L /\ l ∉ S0.
Proof.
  intros HL Ho El. unfold owed. rewrite (wanted_place oid l), (had_place oid l) by done. rewrite HL. split.
  - intros [(a & Ha & Hr) Hn]. split; [|done]. exists a. split; [done|].
    apply path_avoids; [apply had_closed | done | done].
  - intros [(a & Ha & Hr) Hn]. split; [|done]. exists a. split; [done|]. eapply rtc_weaken; [|exact Hr]. by intros x y [_ ?].
Qed.

(** Dangling references of the objects at some places. *)
Lemma dangling_place (from : list Z -> Prop) (at_ : LocatedObject -> Prop) s :
  (forall oid l, is_oid oid -> find_object packs oid = Some l -> from oid <-> at_ l) ->
  (forall l, at_ l -> canonical l) -> (forall oid, from oid -> indexed packs oid -> is_oid oid) ->
  dangling packs from s <-> exists l, at_ l /\ absent (refs_at packs l) s.
Proof.
  intros Hiff Hcan Hoid. split.
  - intros (a & b & Ha & (l & El & Hb) & Hn & ->). exists l. split.
    + apply (Hiff a l); [apply Hoid; [done | by exists l] | done | done].
    + exists b. split_and!; [done | | done]. unfold indexed in Hn. destruct (find_object packs b); [by destruct Hn | done].
  - intros (l & Hl & (b & Hb & En & ->)). destruct (Hcan l Hl) as (a & Ha & El). exists a, b. split_and!.
    + by apply (Hiff a l).
    + by exists l.
    + unfold indexed. rewrite En. by intros [? ?].
    + done.
Qed.
End Ids.

Lemma reachable_oid from oid : (forall a, from a -> is_oid a) -> reachable packs from oid -> is_oid oid.
Proof.
  intros Hf (a & Ha & Hr). apply Hf in Ha. induction Hr as [|x y z (l & _ & Hy) _ IH]; [done|].
  apply IH. by eapply refs_oids.
Qed.

Lemma named_oid texts oid : named texts oid -> is_oid oid.
Proof. by intros (t & _ & ? & _). Qed.

Lemma common_is_oid oid : common packs haves oid -> is_oid oid.
Proof. intros [? _]. by eapply named_oid. Qed.

Section Ready.
Context (C : list CommonHave) (HC : common_found (take HAVE_CAP haves) [] C).
Context (S0 : list LocatedObject) (HS : forall l, l ∈ S0 <-> exists a, a ∈ common_located <$> C /\ rtc edge a l).
Context (missingStop : list string).
Context (Hms : forall s, s ∈ missingStop <-> exists l, l ∈ S0 /\ absent (refs_at packs l) s).
Context (w : Walk) (L : list LocatedObject).
Context (Hi : walk_inv (fun l => l ∈ S0) missingStop (found_in wants) (lost_in wants) w L).
Context (Hc : q_cursor (wk_queue w) = length L).
Context (oids : list string) (Hids : Forall2 id_of (filter (fun l => l ∉ S0) L) oids).

Let HL := walk_end_closed _ _ _ _ _ _ Hi Hc.

Lemma S0_canonical l : l ∈ S0 -> canonical l.
Proof.
  rewrite HS. intros (a & Ha & Hr). assert (canonical a) as Hca.
  { apply list_elem_of_fmap in Ha as (c & -> & Hin). destruct (cf_from _ _ _ HC c Hin) as (t & oid & _ & [Ho _] & _ & E). by exists oid. }
  clear Ha. induction Hr as [|x y z (r & Hr & E) _ IH]; [done|]. apply IH. exists r. split; [by eapply refs_oids | done].
Qed.

Lemma L_canonical l : l ∈ L -> canonical l.
Proof. intros Hl. pose proof (wh_canonical _ _ (wi_holds _ _ _ _ _ _ Hi)) as H. rewrite Forall_forall in H. by apply H. Qed.

Lemma missing_not_indexed s oid : s ∈ wk_missing w -> is_oid oid -> indexed packs oid -> s <> bytesToHex oid.
Proof.
  intros Hs Ho [l El] ->. destruct (wi_missing _ _ _ _ _ _ Hi _ Hs) as [_ [(t & _ & Et & Hn)|(x & _ & _ & (r & Hr & En & E))]].
  - rewrite (Hn oid) in El; [done|]. by split.
  - destruct (refs_oids _ _ Hr) as [_ Hb]. destruct Ho as [_ Hb']. apply bytesToHex_inj in E; [congruence | done | done].
Qed.

Lemma ids_indexed s : s ∈ oids -> exists oid, is_oid oid /\ indexed packs oid /\ s = bytesToHex oid.
Proof. intros (l & _ & (oid & Ho & E & ->))%(ids_elem _ _ _ Hids). exists oid. split_and!; [done | by exists l | done]. Qed.

Lemma missing_spec s : s ∈ wk_missing w <->
  (unanswered packs wants s \/ dangling packs (owed packs wants haves) s) /\
  ~ dangling packs (reachable packs (common packs haves)) s.
Proof.
  assert (dangling packs (reachable packs (common packs haves)) s <-> s ∈ missingStop) as ->.
  { rewrite Hms. apply dangling_place.
    - intros oid l Ho El. by apply (had_place C HC S0 HS).
    - apply S0_canonical.
    - intros oid Hr _. by eapply reachable_oid; [apply common_is_oid|]. }
  assert (dangling packs (owed packs wants haves) s <-> exists l, (l ∈ L /\ l ∉ S0) /\ absent (refs_at packs l) s) as ->.
  { apply dangling_place.
    - intros oid l Ho El. by apply (owed_place C HC S0 HS).
    - intros l [Hl _]. by apply L_canonical.
    - intros oid [Hr _] _. by eapply reachable_oid; [apply named_oid|]. }
  rewrite unanswered_lost. split.
  - intros Hs. destruct (wi_missing _ _ _ _ _ _ Hi _ Hs) as [Hn [H|(l & Hl & Hnl & Ha)]]; (split; [|done]); [by left | right].
    by exists l.
  - intros [H Hn]. assert (s ∈ wk_missingSeen w) as Hs.
    { destruct H as [H|(l & [Hl Hnl] & Ha)]; [by apply (wi_lost _ _ _ _ _ _ Hi)|].
      eapply (wi_absent _ _ _ _ _ _ Hi l); [by rewrite Hc, firstn_all | done | done]. }
    by apply (wi_seen _ _ _ _ _ _ Hi) in Hs as [|?].
Qed.

Lemma ready_ok stats : answer_ok now packs wants haves (Ready (oids ++ wk_missing w) (common_oid <$> C) stats).
Proof.
  split; [split; [apply (acks_NoDup C HC) | apply (acks_spec C HC)]|]. split_and!.
  - apply NoDup_app. split_and!.
    + eapply ids_NoDup; [exact Hids|]. apply NoDup_filter, (wh_NoDup _ _ (wi_holds _ _ _ _ _ _ Hi)).
    + intros s (oid & Ho & Hx & ->)%ids_indexed Hm. by eapply missing_not_indexed.
    + apply (wi_NoDup _ _ _ _ _ _ Hi).
  - intros oid Ho Hx. pose proof Hx as [l El]. rewrite (owed_place C HC S0 HS L oid l HL Ho El), elem_of_app. split.
    + intros [(l' & Hl' & Hid)%(ids_elem _ _ _ Hids)|Hm]; [|by destruct (missing_not_indexed _ oid Hm Ho Hx)].
      assert (l' = l) as -> by (eapply id_of_inj; [exact Hid | by exists oid]).
      by apply list_elem_of_filter in Hl' as [? ?].
    + intros [Hl Hn]. left. apply (ids_elem _ _ _ Hids). exists l. split; [by apply list_elem_of_filter | by exists oid].
  - intros s Hs. rewrite elem_of_app, missing_spec. split; [|by right].
    intros [(oid & Ho & Hx & ->)%ids_indexed|?]; [|done]. by destruct (Hs oid Ho Hx).
Qed.
End Ready.

Lemma closure_answered : exists r,
  computeNeededFromPackRefs now packs wants haves = Some r /\ answer_ok now packs wants haves r.
Proof.
  destruct have_walk as (C & had & EC & HC & Eh & Hend). unfold computeNeededFromPackRefs.
  rewrite EC. cbn [mbind option_bind]. rewrite Eh. cbn [mbind option_bind].
  pose proof (acks_NoDup C HC) as Hnd. pose proof (acks_spec C HC) as Hack.
  assert (forall n w, exists N, needed_holds (empty_selection index n w) N) as Hempty.
  { intros n w. exists []. split; cbn; [done | split; [by rewrite !length_replicate | simpl; lia | done] | apply marks_empty | done]. }
  destruct (end_reason had) as [reason|] eqn:Er.
  { destruct (Hempty (length wants) (empty_walk index (length wants) (wk_missingSeen (end_state had)))) as [N HN].
    destruct (buildNeededOids_spec _ _ HN) as (oids & -> & _). eexists. split; [done|].
    destruct reason; (split; [done|]).
    - destruct Hend as [k Hk]. exists k. unfold out_of_time in Hk. by apply Z.ltb_lt in Hk.
    - exact Hend. }
  destruct Hend as (S0 & HM & Hseen & Hmiss & HS).
  destruct (want_walk (length wants) (end_tick had) _ (wk_missingSeen (end_state had)) (wk_missing (end_state had)) S0 HM Hseen)
    as (w & -> & Hfair & Hneed).
  cbn [mbind option_bind]. destruct (wk_over w) eqn:Eo.
  { destruct (Hempty (length wants) w) as [N HN]. destruct (buildNeededOids_spec _ _ HN) as (oids & -> & _).
    eexists. split; [done|]. split; [done|]. by apply Hfair. }
  destruct (Hneed eq_refl) as (e & -> & [N HN] & Hend). cbn [mbind option_bind].
  destruct (end_reason e) as [reason|].
  - destruct (buildNeededOids_spec _ _ HN) as (oids & -> & _). eexists. split; [done|].
    destruct reason; (split; [done|]).
    + destruct Hend as [k Hk]. exists k. unfold out_of_time in Hk. by apply Z.ltb_lt in Hk.
    + exact Hend.
  - destruct Hend as (L & Hi & Hc & HN'). destruct (buildNeededOids_spec _ _ HN') as (oids & -> & Hids).
    eexists. split; [done|]. by eapply ready_ok.
Qed.
End Request.
End Snapshot.

Lemma demo_snapshot : snapshot_ok [demo_entry] demo_names.
Proof.
  split; [|vm_compute; reflexivity..]. constructor; [|constructor]. split.
  - split.
    + reflexivity.
    + repeat constructor; unfold is_byte; lia.
    + repeat constructor; unfold name_le; vm_compute; discriminate.
    + intros b Hb. assert (forallb (fun b => byte_at (iv_fanout (pe_idx demo_entry)) b =?
        count_le (Z.of_nat b) (default 0 ∘ head <$> [replicate 20 1; replicate 20 2; replicate 20 3])) (seq 0 256) = true) as H
        by (vm_compute; reflexivity).
      rewrite forallb_forall in H. specialize (H b ltac:(apply in_seq; lia)). by apply Z.eqb_eq in H.
  - reflexivity.
  - intros i r Hr. assert (i < 0 \/ i = 0 \/ i = 1 \/ i = 2 \/ 3 <= i) as [Hi|[->|[->|[->|Hi]]]] by lia.
    + unfold visitPackRefRawRefsAt in Hr. rewrite (proj2 (Z.ltb_lt i 0)) in Hr by lia. by apply elem_of_nil in Hr.
    + by apply elem_of_nil in Hr.
    + apply list_elem_of_singleton in Hr as ->. split; [reflexivity | repeat constructor; unfold is_byte; lia].
    + apply elem_of_cons in Hr as [->|Hr]; [|apply list_elem_of_singleton in Hr as ->];
        (split; [reflexivity | repeat constructor; unfold is_byte; lia]).
    + unfold visitPackRefRawRefsAt in Hr. cbn [rv_objectCount pe_refs demo_entry] in Hr.
      rewrite (proj2 (Z.leb_le 3 i)), orb_true_r in Hr by lia. by apply elem_of_nil in Hr.
Qed.

(** ** Properties *)

(** C31: a fetch is answered with exactly the objects the client lacks.  The
    walk over the sidecars always ends, without an exception.  When it is not
    cut short, the ids listed are, each once, the objects reachable from the wants
    and not reachable from the haves that the snapshot knows - and, of the ids no
    pack has, those asked for or referred to by a listed object but not referred to
    by an object of the client.  The acknowledged ids are the known ones among the
    first 128 haves, each once.  It is cut short only when 49 seconds have passed
    or when 1024 ids no pack has were met. *)
Theorem fetch_closure_exact (now : nat -> Z) (packs : list PackRefSnapshotEntry)
    (names : list (list (list Z))) (wants haves : list string) :
  snapshot_ok packs names ->
  exists r, computeNeededFromPackRefs now packs wants haves = Some r /\ answer_ok now packs wants haves r.
Proof. intros Hok. exact (closure_answered packs names Hok now wants haves). Qed.

Lemma fetch_closure_exact_witness :
  let oid b := bytesToHex (replicate 20 b) in
  (exists stats, computeNeededFromPackRefs (fun _ => 0) [demo_entry] [oid 3] [oid 2] =
    Some (Ready [oid 3; oid 9] [oid 2] stats)) /\
  exists r, computeNeededFromPackRefs (fun _ => 0) [demo_entry] [oid 3] [oid 2] = Some r /\
    answer_ok (fun _ => 0) [demo_entry] [oid 3] [oid 2] r.
Proof.
  split; [eexists; vm_compute; reflexivity|].
  exact (fetch_closure_exact (fun _ => 0) [demo_entry] demo_names _ _ demo_snapshot).
Defined.
