(* ===== verification/ObjectStore.v ===== *)
(** * Reading objects from packs

    [git/object-store/candidates.ts] and [git/object-store/materialize.ts]: where
    an id is stored in a list of packs, and the object an entry denotes - its own
    payload, or a delta applied to the object of its base, which is found by its
    place or by its id.  The bucket and inflation are parameters.  [first_material]
    is the resolver of [git/pack/rewrite/selectionResolve.ts]. *)
From S2P Require Import Prelude Text Bytes PackEntry Delta PackIndex GitObjects.
From Stdlib Require Import Ascii.
From Stdlib Require String.
From Stdlib Require Import Classical_Prop.

(** ** Definitions *)

Record IndexedPackSource := mkSource { src_packKey : string; src_packBytes : Z; src_idx : IdxView }.

Record Candidate := mkCandidate {
  cand_source : IndexedPackSource;
  cand_packSlot : nat;
  cand_objectIndex : nat;
  cand_offset : Z;
  cand_nextOffset : Z;
  cand_oid : string }.

(** The bytes of an id; an id of another length is none. *)
Definition normalizeOid (oid : string + list Z) : option (string * list Z) :=
  match oid with
  | inl text =>
    let oidHex := toLowerCase text in
    if negb (String.length oidHex =? 40)%nat then None
    else bytes ← hexToBytes oidHex; Some (oidHex, bytes)
  | inr bytes => if negb (length bytes =? 20)%nat then None else Some (bytesToHex bytes, bytes)
  end.

Definition oidAtIndexMatches (rawNames : list Z) (index : nat) (oidBytes : list Z) : bool :=
  bool_decide (name_at rawNames (index * 20) = name_at oidBytes 0).

Definition candidateFromIndex (source : IndexedPackSource) (packSlot objectIndex : nat) (oidHex : string)
  : option Candidate :=
  nextOffset ← getNextOffsetByIndex (src_idx source) (Z.of_nat objectIndex);
  Some (mkCandidate source packSlot objectIndex (byte_at (iv_offsets (src_idx source)) objectIndex) nextOffset oidHex).

(** The ends of the run of equal names around a hit. *)
Fixpoint run_start (idx : IdxView) (oidBytes : list Z) (i : nat) : nat :=
  match i with
  | O => O
  | S k => if oidAtIndexMatches (iv_rawNames idx) k oidBytes then run_start idx oidBytes k else i
  end.

Fixpoint run_end (fuel : nat) (idx : IdxView) (oidBytes : list Z) (i : nat) : nat :=
  match fuel with
  | O => i
  | S fuel =>
    if (Z.of_nat i + 1 <? iv_count idx) && oidAtIndexMatches (iv_rawNames idx) (S i) oidBytes
    then run_end fuel idx oidBytes (S i) else i
  end.

Definition findOidRunInIdx (idx : IdxView) (oid : string + list Z) : option (nat * nat) :=
  '(_, oidBytes) ← normalizeOid oid;
  let hitIndex := findOidIndexFromBytes idx oidBytes 0 in
  if hitIndex <? 0 then None else
  let hit := Z.to_nat hitIndex in
  Some (run_start idx oidBytes hit, run_end (Z.to_nat (iv_count idx)) idx oidBytes hit).

(** The candidates of one pack. *)
Definition source_candidates (oidHex : string) (oidBytes : list Z) (packSlot : nat) (source : IndexedPackSource)
  : list Candidate :=
  match findOidRunInIdx (src_idx source) (inr oidBytes) with
  | None => []
  | Some (startIndex, endIndex) =>
    omap (fun i => candidateFromIndex source packSlot i oidHex) (seq startIndex (endIndex - startIndex + 1))
  end.

Definition collectPackedObjectCandidates (sources : list IndexedPackSource) (oid : string + list Z)
  (excludePackKey : option string) : list Candidate :=
  match normalizeOid oid with
  | None => []
  | Some (oidHex, oidBytes) =>
    List.concat (imap (fun packSlot source =>
      if bool_decide (Some (src_packKey source) = excludePackKey) then []
      else source_candidates oidHex oidBytes packSlot source) sources)
  end.

Fixpoint first_candidate (oidBytes : list Z) (packSlot : nat) (sources : list IndexedPackSource)
  (excludePackKey : option string) : option Candidate :=
  match sources with
  | [] => None
  | source :: r =>
    if bool_decide (Some (src_packKey source) = excludePackKey)
    then first_candidate oidBytes (S packSlot) r excludePackKey else
    let objectIndex := findOidIndexFromBytes (src_idx source) oidBytes 0 in
    if objectIndex <? 0 then first_candidate oidBytes (S packSlot) r excludePackKey
    else candidateFromIndex source packSlot (Z.to_nat objectIndex)
           (getOidHexAt (src_idx source) (Z.to_nat objectIndex))
  end.

Definition findFirstPackedObjectCandidate (sources : list IndexedPackSource) (oid : string + list Z)
  (excludePackKey : option string) : option Candidate :=
  '(_, oidBytes) ← normalizeOid oid; first_candidate oidBytes 0 sources excludePackKey.

(** *** Materialization *)

Record PackedObjectResult := mkResult {
  po_packKey : string;
  po_objectIndex : nat;
  po_offset : Z;
  po_nextOffset : Z;
  po_oid : string;
  po_type : GitObjectType;
  po_payload : list Z }.

Definition toPackedObjectResult (c : Candidate) (type : GitObjectType) (payload : list Z) : PackedObjectResult :=
  mkResult (src_packKey (cand_source c)) (cand_objectIndex c) (cand_offset c) (cand_nextOffset c) (cand_oid c)
    type payload.

(** The exceptions.  Two are none: [AwaitsItself] is a promise that waits for its own
    end, and [StillReading] a lack of fuel. *)
Inductive ReadError :=
| CatalogFailed | IndexFailed | AwaitsItself | RecursionCycle | EntrySizeLimit | ShortRange | InvalidInflatedSize | InflatedSizeLimit | InflateFailed
| InflatedSizeMismatch | DeltaFailed (e : DeltaError) | StillReading.

(** What a read gives: an exception, nothing, or an object. *)
Definition ReadResult : Type := ReadError + option PackedObjectResult.

Record Limits := mkLimits {
  maxEntryBytes : option Z; maxInflatedBytes : option Z; maxDeltaResultBytes : option Z }.

Definition no_limits : Limits := mkLimits None None None.

Definition above (n : Z) (limit : option Z) : bool := match limit with Some l => l <? n | None => false end.

Definition makeVisitKey (c : Candidate) : string :=
  (src_packKey (cand_source c) ++ "#" ++ pretty (cand_objectIndex c))%string.

Definition makeCandidateFromOffset (source : IndexedPackSource) (packSlot objectIndex : nat) (offset : Z)
  : option Candidate :=
  nextOffset ← getNextOffsetByIndex (src_idx source) (Z.of_nat objectIndex);
  Some (mkCandidate source packSlot objectIndex offset nextOffset (getOidHexAt (src_idx source) objectIndex)).

Section Materialize.
Context (bucket : string -> option (list Z)) (inflate : list Z -> option (list Z)).

(** A range read with [exactLength]: a range of another length throws when the
    last attempt has failed too. *)
Definition readPackRange (key : string) (offset length : Z) : ReadError + option (list Z) :=
  match bucket key with
  | None => inr None
  | Some content =>
    let bytes := slice content (Z.to_nat offset) (Z.to_nat length) in
    if Z.of_nat (List.length bytes) =? length then inr (Some bytes) else inl ShortRange
  end.

(** The header of an entry and its inflated payload. *)
Definition read_entry (limits : Limits) (c : Candidate) : ReadError + option (PackHeaderEx * list Z) :=
  let entryLength := cand_nextOffset c - cand_offset c in
  if entryLength <=? 0 then inr None
  else if above entryLength (maxEntryBytes limits) then inl EntrySizeLimit
  else match readPackRange (src_packKey (cand_source c)) (cand_offset c) entryLength with
  | inl e => inl e
  | inr None => inr None
  | inr (Some entry) =>
    match readPackHeaderExFromBuf entry 0 with
    | None => inr None
    | Some header =>
      match decodePackObjectSize (sizeVarBytes header) with
      | None => inl InvalidInflatedSize
      | Some inflatedSize =>
        if above inflatedSize (maxInflatedBytes limits) then inl InflatedSizeLimit else
        match inflate (drop (Z.to_nat (headerLen header)) entry) with
        | None => inl InflateFailed
        | Some payload =>
          if negb (Z.of_nat (length payload) =? inflatedSize) then inl InflatedSizeMismatch
          else inr (Some (header, payload))
        end
      end
    end
  end.

(** [header.baseRel || 0] bytes before the entry. *)
Definition ofs_base (c : Candidate) (header : PackHeaderEx) : option Candidate :=
  let baseOffset := cand_offset c - default 0 (baseRel header) in
  baseIndex ← findOffsetIndex (src_idx (cand_source c)) baseOffset;
  makeCandidateFromOffset (cand_source c) (cand_packSlot c) baseIndex baseOffset.

Definition apply_to_base (limits : Limits) (c : Candidate) (payload : list Z) (base : ReadResult) : ReadResult :=
  match base with
  | inl e => inl e
  | inr None => inr None
  | inr (Some base) =>
    match applyGitDelta (po_payload base) payload (maxDeltaResultBytes limits) with
    | inl e => inl (DeltaFailed e)
    | inr result => inr (Some (toPackedObjectResult c (po_type base) result))
    end
  end.

Section Resolver.
(** The reads that resolve the id of a base may keep a state.  The resolver gets
    the function that materializes a candidate, the entries on the way, and the id
    of the base. *)
Context {St : Type} (limits : Limits) (cycleThrows : bool)
  (resolveRefBase : (gset string -> Candidate -> St -> ReadResult * St) -> gset string -> string -> St -> ReadResult * St).

(** The set of visited entries is extended for the recursive calls and restored
    after them. *)
Fixpoint materializeWith (fuel : nat) (visited : gset string) (c : Candidate) (s : St) : ReadResult * St :=
  match fuel with
  | O => (inl StillReading, s)
  | S fuel =>
    if bool_decide (makeVisitKey c ∈ visited) then (if cycleThrows then inl RecursionCycle else inr None, s) else
    let visited := {[ makeVisitKey c ]} ∪ visited in
    match read_entry limits c with
    | inl e => (inl e, s)
    | inr None => (inr None, s)
    | inr (Some (header, payload)) =>
      match typeCodeToObjectType (hdr_type header) with
      | Some objectType => (inr (Some (toPackedObjectResult c objectType payload)), s)
      | None =>
        if hdr_type header =? 6 then
          match ofs_base c header with
          | None => (inr None, s)
          | Some base =>
            let '(r, s') := materializeWith fuel visited base s in (apply_to_base limits c payload r, s')
          end
        else
          match (if hdr_type header =? 7 then baseOid header else None) with
          | Some oid =>
            let '(r, s') := resolveRefBase (materializeWith fuel) visited oid s in (apply_to_base limits c payload r, s')
          | None => (inr None, s)
          end
      end
    end
  end.

End Resolver.

(** With a resolver that keeps no state. *)
Definition pure_resolver (resolve : (gset string -> Candidate -> ReadResult) -> gset string -> string -> ReadResult)
  (materialize : gset string -> Candidate -> unit -> ReadResult * unit) (visited : gset string) (oid : string) (s : unit)
  : ReadResult * unit :=
  (resolve (fun visited c => (materialize visited c s).1) visited oid, s).

Definition materializeCandidate (limits : Limits) (cycleThrows : bool)
  (resolveRefBase : (gset string -> Candidate -> ReadResult) -> gset string -> string -> ReadResult)
  (fuel : nat) (visited : gset string) (c : Candidate) : ReadResult :=
  (materializeWith limits cycleThrows (pure_resolver resolveRefBase) fuel visited c tt).1.

(** The first candidate that gives an object. *)
Fixpoint first_material (materialize : Candidate -> ReadResult) (l : list Candidate) : ReadResult :=
  match l with
  | [] => inr None
  | c :: r => match materialize c with inr None => first_material materialize r | result => result end
  end.

(** [materializeOidFromSnapshot]: every candidate of the id in turn, cycles are
    misses. *)
Definition snapshot_resolver (sources : list IndexedPackSource)
  (materialize : gset string -> Candidate -> ReadResult) (visited : gset string) (oid : string) : ReadResult :=
  first_material (materialize visited) (collectPackedObjectCandidates sources (inl oid) None).

Definition materializeOidFromSnapshot (fuel : nat) (sources : list IndexedPackSource) (visited : gset string)
  (oid : string) : ReadResult :=
  snapshot_resolver sources
    (materializeCandidate no_limits false (snapshot_resolver sources) fuel) visited oid.

End Materialize.

(** ** Candidates *)

(** An index of ascending names and distinct offsets. *)
Record source_ok (s : IndexedPackSource) (names : list (list Z)) : Prop := {
  sk_names : names_ok (src_idx s) names;
  sk_offsets : offsets_ok (src_idx s) (iv_offsets (src_idx s));
  sk_distinct : NoDup (iv_offsets (src_idx s));
  sk_count : iv_count (src_idx s) = Z.of_nat (length names);
  sk_offsets_len : length (iv_offsets (src_idx s)) = length names;
  sk_next_len : length (iv_nextOffsetByIndex (src_idx s)) = length names }.

(** The entry at a place of the snapshot. *)
Definition entry_candidate (s : IndexedPackSource) (packSlot i : nat) : option Candidate :=
  candidateFromIndex s packSlot i (getOidHexAt (src_idx s) i).

Definition is_entry (sources : list IndexedPackSource) (c : Candidate) : Prop :=
  exists s i, sources !! cand_packSlot c = Some s /\ Z.of_nat i < iv_count (src_idx s) /\
    entry_candidate s (cand_packSlot c) i = Some c.

Lemma normalize_hex b : is_bytes b -> length b = 20%nat -> normalizeOid (inl (bytesToHex b)) = Some (bytesToHex b, b).
Proof.
  intros Hb Hl. unfold normalizeOid. rewrite toLowerCase_hex, hexToBytes_bytesToHex by done.
  assert (String.length (bytesToHex b) = 40%nat) as ->; [|done].
  unfold bytesToHex. rewrite length_unchars.
  assert (length (List.concat (byte_hex <$> b)) = (2 * length b)%nat) as ->; [|lia].
  clear. induction b as [|x b IH]; [done|]. cbn [fmap list_fmap List.concat]. rewrite length_app, IH. cbn. lia.
Qed.

Section Run.
Context (idx : IdxView) (names : list (list Z)) (Hok : names_ok idx names).
Context (Hcount : iv_count idx = Z.of_nat (length names)).
Context (oid : list Z) (Hoid : length oid = 20%nat).

Lemma name_at_self : name_at oid 0 = oid.
Proof. rewrite <- (app_nil_r oid) at 1. by apply (name_at_mid []). Qed.

Lemma matches_name k n : names !! k = Some n -> oidAtIndexMatches (iv_rawNames idx) k oid = bool_decide (n = oid).
Proof. intros Hk. unfold oidAtIndexMatches. by rewrite (name_at_view idx names Hok k n Hk), name_at_self. Qed.

(** Equal names are neighbours. *)
Lemma run_interval i j k : (i <= j <= k)%nat -> names !! i = Some oid -> names !! k = Some oid -> names !! j = Some oid.
Proof.
  intros Hij Hi Hk. destruct (decide (i = j)) as [->|Hne]; [done|]. destruct (decide (j = k)) as [->|Hjk]; [done|].
  destruct (lookup_lt_is_Some_2 names j) as [n Hj]; [apply lookup_lt_Some in Hk; lia|]. rewrite Hj. f_equal.
  pose proof (StronglySorted_lookup _ _ i j _ _ (no_sorted _ _ Hok) Hi Hj ltac:(lia)) as H1.
  pose proof (StronglySorted_lookup _ _ j k _ _ (no_sorted _ _ Hok) Hj Hk ltac:(lia)) as H2.
  unfold name_le in *. rewrite compare_opp in H1. apply compare_zero; [|lia].
  pose proof (no_names _ _ Hok) as Hn. rewrite Forall_forall in Hn. rewrite Hoid.
  by apply list_elem_of_lookup_2, Hn in Hj as [? _].
Qed.

Lemma run_start_spec i : names !! i = Some oid ->
  (run_start idx oid i <= i)%nat /\ forall j, (j <= i)%nat -> (run_start idx oid i <= j)%nat <-> names !! j = Some oid.
Proof.
  induction i as [|i IH]; cbn [run_start]; intros Hi.
  { split; [done|]. intros j Hj. replace j with 0%nat by lia. split; [done|lia]. }
  destruct (lookup_lt_is_Some_2 names i) as [n Hn]; [apply lookup_lt_Some in Hi; lia|].
  rewrite (matches_name i n Hn). case_bool_decide as E.
  - subst n. destruct (IH Hn) as [Hle Hj]. split; [lia|]. intros j Hji.
    destruct (decide (j = S i)) as [->|]; [split; [done|lia]|]. apply Hj. lia.
  - split; [done|]. intros j Hj. split.
    + intros ?. by replace j with (S i) by lia.
    + intros Hnj. destruct (decide (j = S i)) as [->|]; [done|].
      assert (names !! i = Some oid) by (apply (run_interval j i (S i)); [lia|done|done]). congruence.
Qed.

Lemma run_end_spec fuel : forall i, names !! i = Some oid -> (length names <= i + fuel)%nat ->
  (i <= run_end fuel idx oid i)%nat /\ forall j, (i <= j)%nat -> (j <= run_end fuel idx oid i)%nat <-> names !! j = Some oid.
Proof.
  induction fuel as [|fuel IH]; cbn [run_end]; intros i Hi Hf; [apply lookup_lt_Some in Hi; lia|].
  rewrite Hcount. destruct (Z.ltb_spec (Z.of_nat i + 1) (Z.of_nat (length names))) as [Hlt|Hge]; cbn [andb].
  - destruct (lookup_lt_is_Some_2 names (S i)) as [n Hn]; [lia|]. rewrite (matches_name (S i) n Hn).
    case_bool_decide as E.
    + subst n. destruct (IH (S i) Hn ltac:(lia)) as [Hle Hj]. split; [lia|]. intros j Hji.
      destruct (decide (j = i)) as [->|]; [split; [done|lia]|]. apply Hj. lia.
    + split; [done|]. intros j Hj. split; [intros; by replace j with i by lia|].
      intros Hnj. destruct (decide (j = i)) as [->|]; [done|].
      assert (names !! S i = Some oid) by (apply (run_interval i (S i) j); [lia|done|done]). congruence.
  - split; [done|]. intros j Hj. split; [intros; by replace j with i by lia|].
    intros Hnj. apply lookup_lt_Some in Hnj. lia.
Qed.

End Run.

(** The run of an id in an index are the rows that have it. *)
Lemma findOidRun_spec s names b :
  source_ok s names -> is_bytes b -> length b = 20%nat ->
  match findOidRunInIdx (src_idx s) (inr b) with
  | Some (first, last) => (first <= last)%nat /\ forall j, (first <= j <= last)%nat <-> names !! j = Some b
  | None => b ∉ names
  end.
Proof.
  intros Hs Hb Hl. unfold findOidRunInIdx, normalizeOid. rewrite Hl, Nat.eqb_refl. cbn [negb mbind option_bind].
  pose proof (sk_names _ _ Hs) as Hn.
  destruct (findOidIndexFromBytes_spec _ _ Hn b 0 b) as [[-> H]|[Hi H]]; [lia|lia|by apply name_at_self|done|done|].
  destruct (Z.ltb_spec (findOidIndexFromBytes (src_idx s) b 0) 0); [lia|].
  destruct (run_start_spec _ _ Hn b Hl _ H) as [Hs1 Hs2].
  destruct (run_end_spec _ _ Hn (sk_count _ _ Hs) b Hl (Z.to_nat (iv_count (src_idx s))) _ H) as [He1 He2];
    [rewrite (sk_count _ _ Hs); lia|].
  split; [lia|]. intros j. destruct (decide (j <= Z.to_nat (findOidIndexFromBytes (src_idx s) b 0)%Z)%nat).
  - rewrite <- Hs2 by done. lia.
  - rewrite <- He2 by lia. lia.
Qed.

Lemma oid_at_name s names i n : source_ok s names -> names !! i = Some n -> getOidHexAt (src_idx s) i = bytesToHex n.
Proof. intros Hs. apply oid_hex_view, (sk_names _ _ Hs). Qed.

Lemma entry_candidate_some s names slot i : source_ok s names -> (i < length names)%nat ->
  exists next, iv_nextOffsetByIndex (src_idx s) !! i = Some next /\ forall oid,
    candidateFromIndex s slot i oid = Some (mkCandidate s slot i (byte_at (iv_offsets (src_idx s)) i) next oid).
Proof.
  intros Hs Hi. destruct (lookup_lt_is_Some_2 (iv_nextOffsetByIndex (src_idx s)) i) as [next Hn].
  { rewrite (sk_next_len _ _ Hs). done. }
  exists next. split; [done|]. intros oid. unfold candidateFromIndex, getNextOffsetByIndex.
  rewrite (sk_count _ _ Hs). rewrite (proj2 (Z.ltb_ge _ 0)), (proj2 (Z.leb_gt _ _)) by lia. cbn [orb].
  by rewrite Nat2Z.id, Hn.
Qed.

(** The candidates of an id are exactly the entries that have it. *)
Lemma elem_of_candidates sources b c :
  (forall s, s ∈ sources -> exists names, source_ok s names) -> is_bytes b -> length b = 20%nat ->
  c ∈ collectPackedObjectCandidates sources (inl (bytesToHex b)) None <->
  is_entry sources c /\ cand_oid c = bytesToHex b.
Proof.
  intros Hok Hb Hl. unfold collectPackedObjectCandidates. rewrite normalize_hex by done.
  rewrite list_elem_of_In, in_concat. setoid_rewrite <- list_elem_of_In. unfold is_entry. split.
  - intros (l & Hin & Hc). apply elem_of_lookup_imap in Hin as (slot & s & -> & Hs).
    cbn [bool_decide] in Hc. rewrite bool_decide_false in Hc by done.
    destruct (Hok s (list_elem_of_lookup_2 _ _ _ Hs)) as [names Hsok].
    unfold source_candidates in Hc. pose proof (findOidRun_spec s names b Hsok Hb Hl) as Hr.
    destruct (findOidRunInIdx (src_idx s) (inr b)) as [[first last]|]; [|by apply not_elem_of_nil in Hc].
    destruct Hr as [Hfl Hr]. apply list_elem_of_omap in Hc as (i & Hi & Hc). apply elem_of_seq in Hi.
    assert (names !! i = Some b) as Hni by (apply Hr; lia).
    pose proof (lookup_lt_Some _ _ _ Hni) as Hlt.
    destruct (entry_candidate_some s names slot i Hsok Hlt) as (next & _ & E). rewrite E in Hc. injection Hc as <-.
    cbn. split; [|done]. exists s, i. split_and!; [done|rewrite (sk_count _ _ Hsok); lia|].
    unfold entry_candidate. rewrite E. by rewrite (oid_at_name s names i b Hsok Hni).
  - intros ((s & i & Hs & Hi & Hc) & Hoid).
    destruct (Hok s (list_elem_of_lookup_2 _ _ _ Hs)) as [names Hsok].
    rewrite (sk_count _ _ Hsok) in Hi.
    destruct (lookup_lt_is_Some_2 names i) as [n Hn]; [lia|].
    destruct (entry_candidate_some s names (cand_packSlot c) i Hsok ltac:(lia)) as (next & _ & E).
    unfold entry_candidate in Hc. rewrite E, (oid_at_name s names i n Hsok Hn) in Hc.
    assert (n = b) as ->.
    { injection Hc as Hc. rewrite <- Hc in Hoid. cbn in Hoid. apply bytesToHex_inj; [|done|done].
      pose proof (no_names _ _ (sk_names _ _ Hsok)) as Hna. rewrite Forall_forall in Hna.
      by apply list_elem_of_lookup_2, Hna in Hn as [_ ?]. }
    eexists. split.
    + apply elem_of_lookup_imap. exists (cand_packSlot c), s. split; [reflexivity|done].
    + rewrite bool_decide_false by done. unfold source_candidates.
      pose proof (findOidRun_spec s names b Hsok Hb Hl) as Hr.
      destruct (findOidRunInIdx (src_idx s) (inr b)) as [[first last]|].
      * destruct Hr as [_ Hr]. apply list_elem_of_omap. exists i. split; [|by rewrite E].
        apply Hr in Hn. apply elem_of_seq. lia.
      * destruct Hr. by eapply list_elem_of_lookup_2.
Qed.

(** *** Visit keys *)

Lemma pretty_nat_Z (n : nat) : pretty n = pretty (Z.of_nat n).
Proof. by destruct n. Qed.

Lemma visit_key_inj c c' :
  makeVisitKey c = makeVisitKey c' ->
  src_packKey (cand_source c) = src_packKey (cand_source c') /\ cand_objectIndex c = cand_objectIndex c'.
Proof.
  unfold makeVisitKey. rewrite !pretty_nat_Z. intros E%(f_equal chars). rewrite !chars_append in E.
  apply (number_after "#"%char) in E as [E1 E2]; [|done]. split; [done | lia].
Qed.

(** ** What an entry denotes *)

Section Denotation.
Context (bucket : string -> option (list Z)) (inflate : list Z -> option (list Z)).
Context (sources : list IndexedPackSource).

(** The entries a delta may be applied to: the one at a distance before it, or any
    entry with the id it names. *)
Inductive base_choice (c : Candidate) (header : PackHeaderEx) : Candidate -> Prop :=
| base_by_offset base : hdr_type header = 6 -> ofs_base c header = Some base -> base_choice c header base
| base_by_id base : hdr_type header = 7 -> baseOid header = Some (cand_oid base) -> is_entry sources base ->
    base_choice c header base.

(** The object of an entry, by a chain of at most [n] deltas. *)
Inductive denotes : nat -> Candidate -> GitObjectType -> list Z -> Prop :=
| denotes_full n c header t payload :
    read_entry bucket inflate no_limits c = inr (Some (header, payload)) ->
    typeCodeToObjectType (hdr_type header) = Some t -> denotes n c t payload
| denotes_delta n c header delta base t payload result :
    read_entry bucket inflate no_limits c = inr (Some (header, delta)) ->
    base_choice c header base -> denotes n base t payload ->
    applyGitDelta payload delta None = inr result -> denotes (S n) c t result.

Definition object (c : Candidate) (t : GitObjectType) (payload : list Z) : Prop := exists n, denotes n c t payload.

(** Packs whose indexes are well formed, whose entries can be read, and where
    equal ids are equal objects. *)
Record snapshot_ok : Prop := {
  sn_sources : forall s, s ∈ sources -> exists names, source_ok s names;
  sn_keys : NoDup (src_packKey <$> sources);
  sn_bytes : forall key content, bucket key = Some content -> is_bytes content;
  sn_readable : forall c, is_entry sources c ->
    exists header payload, read_entry bucket inflate no_limits c = inr (Some (header, payload));
  sn_coherent : forall c c' t p t' p', is_entry sources c -> is_entry sources c' -> cand_oid c = cand_oid c' ->
    object c t p -> object c' t' p' -> t = t' /\ p = p';
  sn_deltas : forall c header delta base t p, is_entry sources c ->
    read_entry bucket inflate no_limits c = inr (Some (header, delta)) -> base_choice c header base ->
    object base t p -> exists result, applyGitDelta p delta None = inr result }.

Context (Hok : snapshot_ok).

Lemma is_entry_source c : is_entry sources c ->
  exists s names, sources !! cand_packSlot c = Some s /\ cand_source c = s /\ source_ok s names /\
    (cand_objectIndex c < length names)%nat /\
    cand_offset c = byte_at (iv_offsets (src_idx s)) (cand_objectIndex c) /\
    entry_candidate s (cand_packSlot c) (cand_objectIndex c) = Some c.
Proof.
  intros (s & i & Hs & Hi & E). destruct (sn_sources Hok s (list_elem_of_lookup_2 _ _ _ Hs)) as [names Hn].
  rewrite (sk_count _ _ Hn) in Hi.
  destruct (entry_candidate_some s names (cand_packSlot c) i Hn ltac:(lia)) as (next & _ & Ec).
  pose proof E as E'. unfold entry_candidate in E'. rewrite Ec in E'. injection E' as E'.
  assert (cand_objectIndex c = i) as Ei by (by rewrite <- E').
  exists s, names. rewrite Ei. split_and!; try done; [by rewrite <- E'|lia|by rewrite <- E'].
Qed.

Lemma entry_key_inj c c' : is_entry sources c -> is_entry sources c' -> makeVisitKey c = makeVisitKey c' -> c = c'.
Proof.
  intros Hc Hc' [Ek Ei]%visit_key_inj.
  destruct (is_entry_source c Hc) as (s & n & Hs & Es & _ & _ & _ & E).
  destruct (is_entry_source c' Hc') as (s' & n' & Hs' & Es' & _ & _ & _ & E'). subst s s'.
  assert (cand_packSlot c = cand_packSlot c') as Eslot.
  { apply (NoDup_lookup (src_packKey <$> sources) _ _ (src_packKey (cand_source c)) (sn_keys Hok)).
    - by rewrite list_lookup_fmap, Hs.
    - by rewrite list_lookup_fmap, Hs', Ek. }
  rewrite Eslot in Hs. rewrite Hs' in Hs. injection Hs as Hs. rewrite Eslot, Ei, <- Hs, E' in E. congruence.
Qed.

Lemma ofs_base_entry c header base : is_entry sources c -> ofs_base c header = Some base -> is_entry sources base.
Proof.
  intros Hc Hb. destruct (is_entry_source c Hc) as (s & names & Hs & Es & Hn & _ & _ & _). subst s.
  unfold ofs_base in Hb. pose proof (findOffsetIndex_spec _ _ (cand_offset c - default 0 (baseRel header)) (sk_offsets _ _ Hn)) as Hf.
  destruct (findOffsetIndex _ _) as [k|]; [|done]. cbn in Hb.
  pose proof (lookup_lt_Some _ _ _ Hf) as Hk. rewrite (sk_offsets_len _ _ Hn) in Hk.
  destruct (entry_candidate_some _ names (cand_packSlot c) k Hn Hk) as (next & Hnext & E).
  unfold makeCandidateFromOffset, getNextOffsetByIndex in Hb.
  rewrite (sk_count _ _ Hn) in Hb. rewrite (proj2 (Z.ltb_ge _ 0)), (proj2 (Z.leb_gt _ _)) in Hb by lia. cbn [orb] in Hb.
  rewrite Nat2Z.id, Hnext in Hb. cbn in Hb. injection Hb as <-. cbn.
  exists (cand_source c), k. split_and!; [done|rewrite (sk_count _ _ Hn); lia|].
  unfold entry_candidate. rewrite E. unfold byte_at. by rewrite Hf.
Qed.

Lemma base_choice_entry c header base : is_entry sources c -> base_choice c header base -> is_entry sources base.
Proof. intros Hc [b _ Hb|b _ _ Hb]; [by eapply ofs_base_entry|done]. Qed.

(** *** Chains that avoid the visited entries *)

Inductive avoids : gset string -> Candidate -> GitObjectType -> list Z -> Prop :=
| avoids_full V c header t payload :
    makeVisitKey c ∉ V -> read_entry bucket inflate no_limits c = inr (Some (header, payload)) ->
    typeCodeToObjectType (hdr_type header) = Some t -> avoids V c t payload
| avoids_delta V c header delta base t payload result :
    makeVisitKey c ∉ V -> read_entry bucket inflate no_limits c = inr (Some (header, delta)) ->
    base_choice c header base -> avoids ({[ makeVisitKey c ]} ∪ V) base t payload ->
    applyGitDelta payload delta None = inr result -> avoids V c t result.

Definition least_height (n : nat) (c : Candidate) : Prop :=
  (exists t p, denotes n c t p) /\ forall m t p, (m < n)%nat -> ~ denotes m c t p.

Lemma least_height_exists n c t p : denotes n c t p -> exists m, (m <= n)%nat /\ least_height m c.
Proof.
  revert t p. induction (lt_wf n) as [n _ IH]. intros t p H.
  destruct (classic (exists m t' p', (m < n)%nat /\ denotes m c t' p')) as [(m & t' & p' & Hm & Hd)|Hno].
  - destruct (IH m Hm t' p' Hd) as (k & Hk & Hl). exists k. split; [lia|done].
  - exists n. split; [done|]. split; [eauto|]. intros m t' p' Hm Hd. apply Hno. eauto.
Qed.

(** A shortest chain meets no entry twice. *)
Lemma least_avoids n : forall c t p V,
  is_entry sources c -> least_height n c -> denotes n c t p ->
  (forall v, is_entry sources v -> makeVisitKey v ∈ V -> forall m t' p', (m <= n)%nat -> ~ denotes m v t' p') ->
  avoids V c t p.
Proof.
  induction (lt_wf n) as [n _ IH]. intros c t p V Hc Hl Hd HV.
  assert (makeVisitKey c ∉ V) as Hnv by (intros Hin; by apply (HV c Hc Hin n t p)).
  destruct Hd as [n c header t payload Hr Ht|n c header delta base t payload result Hr Hb Hd Ha]; [by eapply avoids_full|].
  pose proof (base_choice_entry _ _ _ Hc Hb) as Hbe.
  destruct (least_height_exists _ _ _ _ Hd) as (m & Hm & Hlm).
  destruct Hlm as [(t' & p' & Hd') Hmin].
  destruct (sn_coherent Hok base base t payload t' p' Hbe Hbe eq_refl ltac:(by exists n) ltac:(by exists m)) as [<- <-].
  eapply avoids_delta; [done|exact Hr|exact Hb| |exact Ha].
  apply (IH m); [lia|done|split; [eauto|done]|done|].
  intros v Hv Hin k t' p' Hk Hdk. apply elem_of_union in Hin as [Hin%elem_of_singleton|Hin].
  - apply entry_key_inj in Hin as ->; [|done|done]. destruct Hl as [_ Hl]. apply (Hl k t' p'); [lia|done].
  - apply (HV v Hv Hin k t' p'); [lia|done].
Qed.

Lemma object_avoids c t p : is_entry sources c -> object c t p -> avoids ∅ c t p.
Proof.
  intros Hc [n Hd]. destruct (least_height_exists _ _ _ _ Hd) as (m & _ & Hl).
  pose proof Hl as [(t' & p' & Hd') _].
  destruct (sn_coherent Hok c c t p t' p' Hc Hc eq_refl ltac:(by exists n) ltac:(by exists m)) as [<- <-].
  apply (least_avoids m); [done..|]. set_solver.
Qed.

End Denotation.

(** ** Properties *)

(** Every entry of the packs. *)
Definition all_entries (sources : list IndexedPackSource) : list Candidate :=
  List.concat (imap (fun slot s => omap (entry_candidate s slot) (seq 0 (Z.to_nat (iv_count (src_idx s))))) sources).

Definition total_objects (sources : list IndexedPackSource) : nat :=
  sum_list ((fun s => Z.to_nat (iv_count (src_idx s))) <$> sources).

Lemma length_omap_le {A B} (f : A -> option B) l : (length (omap f l) <= length l)%nat.
Proof.
  induction l as [|x l IH]; [done|]. change (omap f (x :: l)) with (match f x with Some y => y :: omap f l | None => omap f l end).
  destruct (f x); cbn [length]; lia.
Qed.

Lemma length_entries_of (f : nat -> IndexedPackSource -> nat -> option Candidate) sources :
  (length (List.concat (imap (fun slot s => omap (f slot s) (seq 0 (Z.to_nat (iv_count (src_idx s))))) sources))
   <= total_objects sources)%nat.
Proof.
  unfold total_objects. revert f. induction sources as [|s r IH]; intros f; cbn; [done|]. rewrite length_app.
  specialize (IH (fun slot => f (S slot))). unfold compose in *. cbn in *.
  pose proof (length_omap_le (f 0%nat s) (seq 0 (Z.to_nat (iv_count (src_idx s))))) as H.
  rewrite length_seq in H. unfold id in *. lia.
Qed.

Lemma length_all_entries sources : (length (all_entries sources) <= total_objects sources)%nat.
Proof. apply (length_entries_of (fun slot s => entry_candidate s slot)). Qed.

Lemma elem_of_all_entries sources c : is_entry sources c -> c ∈ all_entries sources.
Proof.
  intros (s & i & Hs & Hi & E). unfold all_entries. rewrite list_elem_of_In, in_concat. setoid_rewrite <- list_elem_of_In.
  eexists. split; [apply elem_of_lookup_imap; exists (cand_packSlot c), s; split; [reflexivity|done]|].
  apply list_elem_of_omap. exists i. split; [apply elem_of_seq; lia|done].
Qed.

Lemma size_of_list (l : list string) : (size (list_to_set l : gset string) <= length l)%nat.
Proof.
  induction l as [|x l IH]; [done|]. cbn [list_to_set length].
  rewrite size_union_alt, size_singleton.
  assert (size ((list_to_set l : gset string) ∖ {[x]}) <= size (list_to_set l : gset string))%nat; [|lia].
  apply subseteq_size. set_solver.
Qed.

Definition entry_keys (sources : list IndexedPackSource) : gset string :=
  list_to_set (makeVisitKey <$> all_entries sources).

Lemma entry_keys_size sources V : (size (entry_keys sources ∖ V) <= total_objects sources)%nat.
Proof.
  trans (size (entry_keys sources)); [apply subseteq_size; set_solver|].
  unfold entry_keys. etrans; [apply size_of_list|]. rewrite length_fmap. apply length_all_entries.
Qed.

Section Correct.
Context (bucket : string -> option (list Z)) (inflate : list Z -> option (list Z)).
Context (sources : list IndexedPackSource) (Hok : snapshot_ok bucket inflate sources).

Abbreviation materialize := (materializeCandidate bucket inflate no_limits false (snapshot_resolver sources)).

(** A read of an entry is no exception; an object is what the entry denotes, and
    nothing means that no chain avoids the entries on the way. *)
Definition read_ok (V : gset string) (c : Candidate) (r : ReadResult) : Prop :=
  match r with
  | inl _ => False
  | inr (Some o) => o = toPackedObjectResult c (po_type o) (po_payload o) /\
      object bucket inflate sources c (po_type o) (po_payload o)
  | inr None => forall t p, ~ avoids bucket inflate sources V c t p
  end.

Lemma first_material_spec V l (materialize' : Candidate -> ReadResult) :
  (forall c, c ∈ l -> read_ok V c (materialize' c)) ->
  match first_material materialize' l with
  | inl _ => False
  | inr (Some o) => exists c, c ∈ l /\ o = toPackedObjectResult c (po_type o) (po_payload o) /\
      object bucket inflate sources c (po_type o) (po_payload o)
  | inr None => forall c t p, c ∈ l -> ~ avoids bucket inflate sources V c t p
  end.
Proof.
  induction l as [|c l IH]; intros H; cbn; [intros c t p []%not_elem_of_nil|].
  pose proof (H c ltac:(left)) as Hc. destruct (materialize' c) as [e|[o|]]; cbn in Hc; [done| |].
  - exists c. split; [left|done].
  - specialize (IH (fun x Hx => H x ltac:(by right))).
    destruct (first_material materialize' l) as [e|[o|]]; [done| |].
    + destruct IH as (x & Hx & ?). exists x. split; [by right|done].
    + intros x t p [->|Hx]%elem_of_cons; [apply Hc|by apply IH].
Qed.

Lemma read_entry_header c header payload :
  is_entry sources c -> read_entry bucket inflate no_limits c = inr (Some (header, payload)) ->
  forall b, baseOid header = Some b -> exists raw, b = bytesToHex raw /\ is_bytes raw /\ length raw = 20%nat.
Proof.
  intros Hc. unfold read_entry, readPackRange. destruct (_ <=? 0); [done|]. cbn [above maxEntryBytes no_limits].
  destruct (bucket _) as [content|] eqn:Eb; [|done].
  destruct (_ =? _); [|done].
  set (entry := slice _ _ _). destruct (readPackHeaderExFromBuf entry 0) as [h|] eqn:Eh; [|done].
  destruct (decodePackObjectSize _); [|done]. cbn [above maxInflatedBytes no_limits].
  destruct (inflate _); [|done]. destruct (negb _); [done|]. intros [= -> ->] b Hb.
  assert (is_bytes entry) as Hby.
  { apply (sn_bytes _ _ _ Hok) in Eb. unfold entry, slice. by apply Forall_take, Forall_drop. }
  clearbody entry. unfold readPackHeaderExFromBuf in Eh. rewrite drop_0 in Eh.
  destruct entry as [|c0 tail]; [done|].
  destruct (size_var c0 tail) as [[more rest]|] eqn:Es; [|done].
  assert (is_bytes rest) as Hrest.
  { apply Forall_cons_1 in Hby as [_ Hby]. clear -Es Hby. revert c0 more Es.
    induction tail as [|x tail IH]; intros c0 more; rewrite size_var_eq.
    - destruct (Z.land c0 128 =? 0); [by intros [= <- <-]|done].
    - destruct (Z.land c0 128 =? 0); [by intros [= <- <-]|].
      destruct (size_var x tail) as [[m r]|] eqn:E; cbn; [|done]. intros [= <- <-].
      apply Forall_cons_1 in Hby as [_ Hby]. by eapply IH. }
  destruct (Z.land (Z.shiftr c0 4) 7 =? 7).
  - destruct (Nat.ltb_spec (length rest) 20); [done|]. injection Eh as <-. cbn in Hb. injection Hb as <-.
    exists (take 20 rest). split_and!; [done|by apply Forall_take|rewrite length_take; lia].
  - destruct (Z.land (Z.shiftr c0 4) 7 =? 6).
    + destruct rest as [|y rest]; [done|]. destruct (read_distance _ _ _) as [[d k]|]; cbn in Eh; [|done].
      by injection Eh as <-.
    + by injection Eh as <-.
Qed.

Lemma type_of_full header t : typeCodeToObjectType (hdr_type header) = Some t -> hdr_type header <> 6 /\ hdr_type header <> 7.
Proof. unfold typeCodeToObjectType. intros H. repeat case_match; to_prop; try done; lia. Qed.

(** The result of applying a delta to what the read of its base gave. *)
Lemma apply_ok V c header delta r (bases : Candidate -> Prop) :
  is_entry sources c -> makeVisitKey c ∉ V -> read_entry bucket inflate no_limits c = inr (Some (header, delta)) ->
  typeCodeToObjectType (hdr_type header) = None ->
  (forall b, bases b <-> base_choice sources c header b) ->
  match r with
  | inl _ => False
  | inr (Some o) => exists b, bases b /\ object bucket inflate sources b (po_type o) (po_payload o)
  | inr None => forall b t p, bases b -> ~ avoids bucket inflate sources ({[ makeVisitKey c ]} ∪ V) b t p
  end ->
  read_ok V c (apply_to_base no_limits c delta r).
Proof.
  intros Hc HV Hr Ht Hb H. destruct r as [e|[o|]]; cbn; [done| |].
  - destruct H as (b & Hbb%Hb & Ho).
    destruct (sn_deltas _ _ _ Hok c header delta b _ _ Hc Hr Hbb Ho) as [result E].
    cbn [maxDeltaResultBytes no_limits]. rewrite E. cbn. split; [done|].
    destruct Ho as [n Hn]. exists (S n). by eapply denotes_delta.
  - intros t p Ha. inversion Ha as [? ? ? ? ? _ Hr' Ht'|? ? ? ? base ? ? ? _ Hr' Hb' Ha' _]; subst; rewrite Hr in Hr';
      injection Hr' as <- <-; [congruence|]. apply Hb in Hb'. by eapply H.
Qed.

Lemma resolver_spec fuel V c header delta b :
  is_entry sources c -> makeVisitKey c ∉ V -> read_entry bucket inflate no_limits c = inr (Some (header, delta)) ->
  hdr_type header = 7 -> baseOid header = Some b ->
  (forall base, is_entry sources base -> read_ok ({[ makeVisitKey c ]} ∪ V) base (materialize fuel ({[ makeVisitKey c ]} ∪ V) base)) ->
  read_ok V c (apply_to_base no_limits c delta
    (snapshot_resolver sources (materialize fuel) ({[ makeVisitKey c ]} ∪ V) b)).
Proof.
  intros Hc HV Hr H7 Hb IH.
  destruct (read_entry_header c header delta Hc Hr b Hb) as (raw & -> & Hraw & Hlen).
  pose proof (fun x => elem_of_candidates sources raw x (sn_sources _ _ _ Hok) Hraw Hlen) as Hel.
  apply (apply_ok V c header delta _ (fun x => x ∈ collectPackedObjectCandidates sources (inl (bytesToHex raw)) None));
    [done..|unfold typeCodeToObjectType; by rewrite H7| |].
  - intros x. rewrite Hel. split.
    + intros [Hx Hox]. apply base_by_id; [done|by rewrite Hox|done].
    + intros [y Hy _|y Hy Hoy He]; [lia|]. split; [done|]. congruence.
  - pose proof (first_material_spec ({[ makeVisitKey c ]} ∪ V)
      (collectPackedObjectCandidates sources (inl (bytesToHex raw)) None)
      (materialize fuel ({[ makeVisitKey c ]} ∪ V))) as H.
    unfold snapshot_resolver at 1.
    destruct (first_material _ _) as [e|[o|]].
    + apply H. intros x [Hx _]%Hel. by apply IH.
    + destruct H as (x & Hx & _ & Ho); [intros x [Hx _]%Hel; by apply IH|]. eauto.
    + apply H. intros x [Hx _]%Hel. by apply IH.
Qed.

(** The recursion of a resolver without state. *)
Lemma materialize_eq limits cycleThrows resolve fuel V c :
  materializeCandidate bucket inflate limits cycleThrows resolve (S fuel) V c =
  if bool_decide (makeVisitKey c ∈ V) then (if cycleThrows then inl RecursionCycle else inr None) else
  let V := {[ makeVisitKey c ]} ∪ V in
  match read_entry bucket inflate limits c with
  | inl e => inl e
  | inr None => inr None
  | inr (Some (header, payload)) =>
    match typeCodeToObjectType (hdr_type header) with
    | Some t => inr (Some (toPackedObjectResult c t payload))
    | None =>
      if hdr_type header =? 6 then
        match ofs_base c header with
        | None => inr None
        | Some base => apply_to_base limits c payload (materializeCandidate bucket inflate limits cycleThrows resolve fuel V base)
        end
      else
        match (if hdr_type header =? 7 then baseOid header else None) with
        | Some oid => apply_to_base limits c payload
            (resolve (materializeCandidate bucket inflate limits cycleThrows resolve fuel) V oid)
        | None => inr None
        end
    end
  end.
Proof.
  unfold materializeCandidate. cbn [materializeWith]. case_bool_decide; [done|].
  destruct (read_entry _ _ _ _) as [|[[header payload]|]]; [done | | done].
  destruct (typeCodeToObjectType _); [done|]. destruct (_ =? 6).
  - destruct (ofs_base _ _); [|done]. by destruct (materializeWith _ _ _ _ _ _ _ _ _).
  - by destruct (if _ =? 7 then _ else _).
Qed.

Lemma materialize_spec fuel : forall V c,
  is_entry sources c -> (size (entry_keys sources ∖ V) < fuel)%nat -> read_ok V c (materialize fuel V c).
Proof.
  induction fuel as [|fuel IH]; intros V c Hc Hf; [lia|]. rewrite materialize_eq.
  case_bool_decide as HV.
  { intros t p Ha. by inversion Ha. }
  assert (forall base, is_entry sources base ->
    read_ok ({[ makeVisitKey c ]} ∪ V) base (materialize fuel ({[ makeVisitKey c ]} ∪ V) base)) as IH'.
  { intros base Hb. apply IH; [done|].
    assert (makeVisitKey c ∈ entry_keys sources).
    { unfold entry_keys. apply elem_of_list_to_set, list_elem_of_fmap_2, elem_of_all_entries, Hc. }
    assert (size (entry_keys sources ∖ ({[makeVisitKey c]} ∪ V)) < size (entry_keys sources ∖ V))%nat; [|lia].
    apply subset_size. set_solver. }
  clear IH. destruct (sn_readable _ _ _ Hok c Hc) as (header & payload & Hr). rewrite Hr.
  destruct (typeCodeToObjectType (hdr_type header)) as [t|] eqn:Ht.
  { split; [done|]. exists 0%nat. by eapply denotes_full. }
  destruct (Z.eqb_spec (hdr_type header) 6) as [H6|H6].
  - destruct (ofs_base c header) as [base|] eqn:Eb.
    + apply (apply_ok V c header payload _ (fun x => x = base)); [done..| |].
      * intros x. split; [intros ->; by apply base_by_offset|]. intros [y _ Hy|y Hy _ _]; [congruence|lia].
      * pose proof (IH' base (ofs_base_entry _ _ _ Hok c header base Hc Eb)) as H.
        destruct (materialize fuel _ base) as [e|[o|]]; [done| |].
        -- exists base. split; [done|]. apply H.
        -- intros b t p ->. apply H.
    + intros t p Ha. inversion Ha as [? ? ? ? ? _ Hr' Ht'|? ? ? ? base ? ? ? _ Hr' Hb' _ _]; subst;
        rewrite Hr in Hr'; injection Hr' as <- <-; [congruence|]. destruct Hb' as [y _ Hy|y Hy _ _]; [congruence|lia].
  - destruct (Z.eqb_spec (hdr_type header) 7) as [H7|H7].
    + destruct (baseOid header) as [b|] eqn:Eb; [by eapply resolver_spec|].
      intros t p Ha. inversion Ha as [? ? ? ? ? _ Hr' Ht'|? ? ? ? base ? ? ? _ Hr' Hb' _ _]; subst;
        rewrite Hr in Hr'; injection Hr' as <- <-; [congruence|]. destruct Hb' as [y Hy _|y _ Hy _]; [lia|congruence].
    + intros t p Ha. inversion Ha as [? ? ? ? ? _ Hr' Ht'|? ? ? ? base ? ? ? _ Hr' Hb' _ _]; subst;
        rewrite Hr in Hr'; injection Hr' as <- <-; [congruence|]. destruct Hb' as [y Hy _|y Hy _ _]; lia.
Qed.

End Correct.


(** A pack of a blob and of a delta on it; inflation is the identity. *)
Definition demo_pack : list Z :=
  replicate 12 0 ++ [51; 97; 98; 99] ++ [102; 4; 3; 4; 144; 3; 1; 100] ++ replicate 20 0.

Definition demo_idx : IdxView :=
  mkIdxView "p.pack" 2 ((fun b => Z.min 2 (Z.of_nat b)) <$> seq 0 256) (replicate 20 1 ++ replicate 20 2) [12; 16] [16; 24]
    [12; 16] [0; 1]%nat 44 (replicate 20 7) (replicate 20 0).

Definition demo_idx_file : list Z :=
  writeIdxV2 (fun _ => replicate 20 0)
    (mkTable 2 [12; 16] [3; 6] [3; 3] [1; 2] [16; 24] [5; 6] (replicate 20 1 ++ replicate 20 2) [1; 1] [0; 0] [1; 1]) 2
    (replicate 20 7).

Definition demo_source : IndexedPackSource := mkSource "p.pack" 44 demo_idx.

Definition demo_bucket (key : string) : option (list Z) := 
  if bool_decide (key = "p.pack"%string) then Some demo_pack
  else if bool_decide (key = "p.idx"%string) then Some demo_idx_file else None.

Definition demo_blob : Candidate :=
  mkCandidate demo_source 0 0 12 16 (bytesToHex (replicate 20 1)).

Definition demo_delta : Candidate :=
  mkCandidate demo_source 0 1 16 24 (bytesToHex (replicate 20 2)).

Lemma demo_source_ok : source_ok demo_source [replicate 20 1; replicate 20 2].
Proof.
  split; [split| |..]; try reflexivity.
  - repeat constructor; unfold is_byte; lia.
  - repeat constructor; unfold name_le; vm_compute; discriminate.
  - intros b Hb.
    assert (forallb (fun b => byte_at (iv_fanout demo_idx) b =?
      count_le (Z.of_nat b) (default 0 ∘ head <$> [replicate 20 1; replicate 20 2])) (seq 0 256) = true) as H
      by (vm_compute; reflexivity).
    rewrite forallb_forall in H. specialize (H b ltac:(apply in_seq; lia)). by apply Z.eqb_eq in H.
  - by split.
  - cbn. repeat constructor; set_solver by lia.
Qed.

Lemma demo_entries c : is_entry [demo_source] c -> c = demo_blob \/ c = demo_delta.
Proof.
  intros Hc%elem_of_all_entries. assert (all_entries [demo_source] = [demo_blob; demo_delta]) as E by (vm_compute; reflexivity).
  rewrite E in Hc. set_solver.
Qed.

Lemma demo_read_blob :
  read_entry demo_bucket Some no_limits demo_blob = inr (Some (mkPackHeader 3 [51] 1 None None, [97; 98; 99])).
Proof. vm_compute. reflexivity. Qed.

Lemma demo_read_delta :
  read_entry demo_bucket Some no_limits demo_delta
  = inr (Some (mkPackHeader 6 [102] 2 None (Some 4), [3; 4; 144; 3; 1; 100])).
Proof. vm_compute. reflexivity. Qed.

Lemma demo_choice header c base :
  hdr_type header <> 7 -> hdr_type header = 6 -> ofs_base c header = Some demo_blob ->
  base_choice [demo_source] c header base -> base = demo_blob.
Proof. intros H7 H6 E [b _ Hb|b Hb _ _]; [congruence|done]. Qed.

Lemma demo_objects c t p :
  is_entry [demo_source] c -> object demo_bucket Some [demo_source] c t p ->
  t = ObjBlob /\ p = if (cand_objectIndex c =? 0)%nat then [97; 98; 99] else [97; 98; 99; 100].
Proof.
  assert (forall n t p, denotes demo_bucket Some [demo_source] n demo_blob t p -> t = ObjBlob /\ p = [97; 98; 99]) as Hb.
  { intros n t' p' H. inversion H as [? ? h ? ? Hr Ht|? ? h ? ? ? ? ? Hr Hc]; subst;
      rewrite demo_read_blob in Hr; injection Hr as <- <-; [by injection Ht|]. by destruct Hc. }
  intros [->| ->]%demo_entries [n H].
  - by apply (Hb n).
  - inversion H as [? ? h ? ? Hr Ht|m ? h ? base ? ? ? Hr Hc Hd Ha]; subst;
      rewrite demo_read_delta in Hr; injection Hr as <- <-; [done|].
    apply demo_choice in Hc as ->; [|done|done|vm_compute; reflexivity].
    apply Hb in Hd as [-> ->]. split; [done|]. vm_compute in Ha. by injection Ha.
Qed.

Lemma demo_snapshot_ok : snapshot_ok demo_bucket Some [demo_source].
Proof.
  split.
  - intros s ->%list_elem_of_singleton. eexists. apply demo_source_ok.
  - apply NoDup_singleton.
  - intros key content. unfold demo_bucket. case_bool_decide; [intros [= <-]; by apply is_bytes_check|].
    case_bool_decide; [|done]. intros [= <-]. by apply is_bytes_check.
  - intros c [->| ->]%demo_entries; eauto using demo_read_blob, demo_read_delta.
  - intros c c' t p t' p' Hc Hc' E Ho Ho'.
    assert (c = c') as ->.
    { apply demo_entries in Hc as [->| ->], Hc' as [->| ->]; try done; vm_compute in E; discriminate. }
    destruct (demo_objects _ _ _ Hc' Ho) as [-> ->], (demo_objects _ _ _ Hc' Ho') as [-> ->]. done.
  - intros c header delta base t p Hc Hr Hb Ho. destruct (demo_entries _ Hc) as [->| ->].
    + rewrite demo_read_blob in Hr. injection Hr as <- <-. by destruct Hb.
    + rewrite demo_read_delta in Hr. injection Hr as <- <-.
      apply demo_choice in Hb as ->; [|done|done|vm_compute; reflexivity].
      apply demo_objects in Ho as [-> ->].
      * eexists. vm_compute. reflexivity.
      * exists demo_source, 0%nat. split_and!; [done|vm_compute; reflexivity|vm_compute; reflexivity].
Qed.

