(* ===== verification/ObjectReads.v ===== *)
(** * Reading objects through the memo of a request

    [git/object-store/store.ts], [lookup.ts], [catalog.ts] and the loading of
    indexes in [idxView.ts]: how a worker reads the objects of a repository.  The
    memo of the request ([RequestMemo] of [cache/cache.ts]) keeps the catalog, the
    indexes and the objects it has met and the reads that are under way; the isolate
    keeps indexes from one request to the next ([ByteCache]).  A read takes the first
    pack that lists the id, and the base of a reference delta is a read of its own.

    The bucket is fixed during a request: packs and indexes are immutable.  Parts of
    a [Promise.all] run in order, so the only read that can be found under way is one
    that waits for the present one.  The soft budget of subrequests, which only
    decides about a warning, and the log flags are left out. *)
From S2P Require Import Prelude Storage Text Keys Bytes PackEntry Delta PackIndex ByteCache GitObjects ObjectStore.
From Stdlib Require Import Ascii.
From Stdlib Require String.

(** ** Definitions *)

Record RequestMemo := mkMemo {
  memo_repoId : option string;
  memo_packCatalog : option (list PackCatalogRow);
  memo_idxViews : gmap string IdxView;
  memo_packedObjects : gmap string (option PackedObjectResult);
  (** The ids of [packedObjectPromises]. *)
  memo_inflight : gset string;
  memo_flags : gset string }.

Definition fresh_memo (repoId : option string) : RequestMemo := mkMemo repoId None ∅ ∅ ∅ ∅.

(** The memo, the cache of the isolate, and how often the catalog was asked for. *)
Record Reader := mkReader { rd_memo : RequestMemo; rd_cache : ByteCache (V := IdxView); rd_calls : nat }.

Definition with_memo (f : RequestMemo -> RequestMemo) (s : Reader) : Reader :=
  mkReader (f (rd_memo s)) (rd_cache s) (rd_calls s).

Definition set_catalog (rows : list PackCatalogRow) (m : RequestMemo) : RequestMemo :=
  mkMemo (memo_repoId m) (Some rows) (memo_idxViews m) (memo_packedObjects m) (memo_inflight m) (memo_flags m).
Definition set_views (f : gmap string IdxView -> gmap string IdxView) (m : RequestMemo) : RequestMemo :=
  mkMemo (memo_repoId m) (memo_packCatalog m) (f (memo_idxViews m)) (memo_packedObjects m) (memo_inflight m) (memo_flags m).
Definition set_objects (f : gmap string (option PackedObjectResult) -> gmap string (option PackedObjectResult))
    (m : RequestMemo) : RequestMemo :=
  mkMemo (memo_repoId m) (memo_packCatalog m) (memo_idxViews m) (f (memo_packedObjects m)) (memo_inflight m) (memo_flags m).
Definition set_inflight (f : gset string -> gset string) (m : RequestMemo) : RequestMemo :=
  mkMemo (memo_repoId m) (memo_packCatalog m) (memo_idxViews m) (memo_packedObjects m) (f (memo_inflight m)) (memo_flags m).

Definition ensureMemo (repoId : string) (m : RequestMemo) : RequestMemo :=
  match memo_repoId m with
  | Some id =>
    if str_eq id "" then mkMemo (Some repoId) (memo_packCatalog m) (memo_idxViews m) (memo_packedObjects m) (memo_inflight m) (memo_flags m)
    else if str_eq id repoId then m else fresh_memo (Some repoId)
  | None => mkMemo (Some repoId) (memo_packCatalog m) (memo_idxViews m) (memo_packedObjects m) (memo_inflight m) (memo_flags m)
  end.

Definition IDX_VIEW_CACHE_MAX_BYTES : Z := 16 * 1024 * 1024.

Definition getIdxViewCacheKey (packKey : string) (packSize : Z) : string :=
  (packKey ++ String (ascii_of_nat 0) (pretty packSize))%string.

Definition estimateIdxViewBytes (view : IdxView) : Z :=
  Z.of_nat (4 * length (iv_fanout view) + length (iv_rawNames view) + 8 * length (iv_offsets view)
    + 8 * length (iv_nextOffsetByIndex view) + 8 * length (iv_sortedOffsets view)
    + 4 * length (iv_sortedOffsetIndices view) + length (iv_packChecksum view) + length (iv_idxChecksum view)).

Definition touchIdxViewCache (packKey : string) (packSize : Z) (value : IdxView) : ByteCache -> ByteCache :=
  touch IDX_VIEW_CACHE_MAX_BYTES (getIdxViewCacheKey packKey packSize) value (estimateIdxViewBytes value).

(** A computation that may throw and changes the reader. *)
Definition Reading (A : Type) : Type := Reader -> (ReadError + A) * Reader.

Section Reads.
Context (bucket : string -> option (list Z)) (inflate : list Z -> option (list Z)).
(** The answer of the repository object to the [n]-th call. *)
Context (getActivePackCatalog : nat -> option (list PackCatalogRow)) (repoId : string).

(** The index as it is in the bucket. *)
Definition fetch_idx (packKey : string) (packSizeHint : option Z) : ReadError + option IdxView :=
  match bucket (packIndexKey packKey) with
  | None => inr None
  | Some idxObj =>
    match (match packSizeHint with Some size => Some size | None => Z.of_nat ∘ length <$> bucket packKey end) with
    | None => inr None
    | Some packSize =>
      match parseIdxView packKey idxObj packSize with
      | inl _ => inl IndexFailed
      | inr view => inr view
      end
    end
  end.

(** A view is put before the others in the cache of the isolate, and in the memo. *)
Definition remember (packKey : string) (bypassIsolateCache : bool) (view : IdxView) (s : Reader) : Reader :=
  mkReader (set_views <[packKey := view]> (rd_memo s))
    (if bypassIsolateCache then rd_cache s else touchIdxViewCache packKey (iv_packSize view) view (rd_cache s)) (rd_calls s).

(** The rest of a load, when the memo has no view of the right size. *)
Definition load_cached (packKey : string) (packSizeHint : option Z) (cached : option IdxView) (bypassIsolateCache : bool)
    : Reading (option IdxView) := fun s =>
  match cached with
  | Some view => (inr (Some view), remember packKey false view s)
  | None =>
    let s := with_memo (set_views (delete packKey)) s in
    match fetch_idx packKey packSizeHint with
    | inl e => (inl e, s)
    | inr None => (inr None, s)
    | inr (Some view) => (inr (Some view), remember packKey bypassIsolateCache view s)
    end
  end.

Definition loadIdxView (packKey : string) (packSizeHint : option Z) : Reading (option IdxView) := fun s =>
  let bypassIsolateCache := bool_decide ("no-isolate-idx-cache"%string ∈ memo_flags (rd_memo s)) in
  let cached := match packSizeHint with
    | Some size => if bypassIsolateCache then None else fst <$> AMap.lookup (getIdxViewCacheKey packKey size) (entries (rd_cache s))
    | None => None
    end in
  match memo_idxViews (rd_memo s) !! packKey with
  | Some memoView =>
    if match packSizeHint with Some size => iv_packSize memoView =? size | None => true end
    then (inr (Some memoView), s) else load_cached packKey packSizeHint cached bypassIsolateCache s
  | None => load_cached packKey packSizeHint cached bypassIsolateCache s
  end.

Definition loadActivePackCatalog : Reading (list PackCatalogRow) := fun s =>
  let s := with_memo (ensureMemo repoId) s in
  match memo_packCatalog (rd_memo s) with
  | Some rows => (inr rows, s)
  | None =>
    let s' := mkReader (rd_memo s) (rd_cache s) (S (rd_calls s)) in
    match getActivePackCatalog (rd_calls s) with
    | None => (inl CatalogFailed, s')
    | Some rows => (inr rows, with_memo (set_catalog rows) s')
    end
  end.

(** The loop over the packs; the slot counts the packs before. *)
Definition at_slot (slot : nat) (c : Candidate) : Candidate :=
  mkCandidate (cand_source c) slot (cand_objectIndex c) (cand_offset c) (cand_nextOffset c) (cand_oid c).

Fixpoint find_in_packs (oid : string) (packsScanned : nat) (packs : list PackCatalogRow) : Reading (option Candidate) := fun s =>
  match packs with
  | [] => (inr None, s)
  | pack :: rest =>
    match loadIdxView (packKey pack) (Some (packBytes pack)) s with
    | (inl e, s) => (inl e, s)
    | (inr None, s) => find_in_packs oid (S packsScanned) rest s
    | (inr (Some idx), s) =>
      match findFirstPackedObjectCandidate [mkSource (packKey pack) (packBytes pack) idx] (inl oid) None with
      | None => find_in_packs oid (S packsScanned) rest s
      | Some candidate => (inr (Some (at_slot packsScanned candidate)), s)
      end
    end
  end.

Definition findObject (oid : string) : Reading (option Candidate) := fun s =>
  match loadActivePackCatalog s with
  | (inl e, s) => (inl e, s)
  | (inr packs, s) => find_in_packs oid 0 packs s
  end.

(** One read, given the function that materializes a candidate.  A read that waits
    for itself never reaches its [finally]. *)
Definition read_with (materialize : gset string -> Candidate -> Reader -> ReadResult * Reader) (visited : gset string)
    (oid : string) (s : Reader) : ReadResult * Reader :=
  let oidLc := toLowerCase oid in
  let s := with_memo (ensureMemo repoId) s in
  match memo_packedObjects (rd_memo s) !! oidLc with
  | Some cached => (inr cached, s)
  | None =>
    if bool_decide (oidLc ∈ memo_inflight (rd_memo s)) then (inl AwaitsItself, s) else
    let s := with_memo (set_inflight (fun p => {[oidLc]} ∪ p)) s in
    let '(result, s) := match findObject oidLc s with
      | (inl e, s) => (inl e, s)
      | (inr None, s) => (inr None, s)
      | (inr (Some location), s) => materialize visited location s
      end in
    match result with
    | inl AwaitsItself => (result, s)
    | inl _ => (result, with_memo (set_inflight (fun p => p ∖ {[oidLc]})) s)
    | inr found =>
      (result, with_memo (set_inflight (fun p => p ∖ {[oidLc]}) ∘ set_objects <[oidLc := found]>) s)
    end
  end.

Abbreviation materialize_from := (materializeWith bucket inflate no_limits true read_with).

Definition readObject (fuel : nat) (oid : string) (s : Reader) : ReadResult * Reader :=
  read_with (materialize_from fuel) ∅ oid s.

(** The batches of six run one after another, and their parts in order. *)
Fixpoint each_of {A B} (f : A -> Reading B) (l : list A) : Reading (list B) := fun s =>
  match l with
  | [] => (inr [], s)
  | x :: rest =>
    match f x s with
    | (inl e, s) => (inl e, s)
    | (inr y, s) => match each_of f rest s with (inl e, s) => (inl e, s) | (inr ys, s) => (inr (y :: ys), s) end
    end
  end.

Definition hasObjectsBatch (oids : list string) : Reading (list bool) :=
  each_of (fun oid s => match findObject oid s with (inl e, s) => (inl e, s) | (inr found, s) => (inr (bool_decide (is_Some found)), s) end) oids.

(** What an object refers to; empty texts are filtered out. *)
Definition refs_of (obj : PackedObjectResult) : list string :=
  match po_type obj with
  | ObjCommit => let '(tree, parents) := parseCommitRefs (po_payload obj) in js_filter (fun s => negb (str_eq s "")) (tree :: parents)
  | ObjTree => parseTreeChildOids (po_payload obj)
  | ObjTag => match parseTagTarget (po_payload obj) with Some (targetOid, _) => if str_eq targetOid "" then [] else [targetOid] | None => [] end
  | ObjBlob => []
  end.

Definition readObjectRefsBatch (fuel : nat) (oids : list string) : Reading (list (string * list string)) := fun s =>
  match each_of (fun oid => readObject fuel oid) oids s with
  | (inl e, s) => (inl e, s)
  | (inr objects, s) =>
    (inr (foldl (fun out p => match p.2 with Some obj => AMap.set p.1 (refs_of obj) out | None => out end) []
       (zip oids objects)), s)
  end.

Definition readBlob (fuel : nat) (oid : string) : Reading (option (list Z)) := fun s =>
  match readObject fuel oid s with
  | (inl e, s) => (inl e, s)
  | (inr (Some obj), s) => (inr (if bool_decide (po_type obj = ObjBlob) then Some (po_payload obj) else None), s)
  | (inr None, s) => (inr None, s)
  end.

(** ** What the packs say

    The same answers without a memo: an id is at its first pack, and an entry
    is read by a chain of bases of a given length. *)

Fixpoint first_pack (oid : string) (slot : nat) (packs : list PackCatalogRow) : ReadError + option Candidate :=
  match packs with
  | [] => inr None
  | pack :: rest =>
    match fetch_idx (packKey pack) (Some (packBytes pack)) with
    | inl e => inl e
    | inr None => first_pack oid (S slot) rest
    | inr (Some idx) =>
      match findFirstPackedObjectCandidate [mkSource (packKey pack) (packBytes pack) idx] (inl oid) None with
      | None => first_pack oid (S slot) rest
      | Some c => inr (Some (at_slot slot c))
      end
    end
  end.

Section Plain.
Context (packs : list PackCatalogRow).

Definition locate (oid : string) : ReadError + option Candidate := first_pack (toLowerCase oid) 0 packs.

Fixpoint chain_read (n : nat) (c : Candidate) : option ReadResult :=
  match n with
  | O => None
  | S n =>
    match read_entry bucket inflate no_limits c with
    | inl e => Some (inl e)
    | inr None => Some (inr None)
    | inr (Some (header, payload)) =>
      match typeCodeToObjectType (hdr_type header) with
      | Some t => Some (inr (Some (toPackedObjectResult c t payload)))
      | None =>
        if hdr_type header =? 6 then
          match ofs_base c header with
          | None => Some (inr None)
          | Some base => apply_to_base no_limits c payload <$> chain_read n base
          end
        else
          match (if hdr_type header =? 7 then baseOid header else None) with
          | None => Some (inr None)
          | Some oid =>
            match locate oid with
            | inl e => Some (inl e)
            | inr None => Some (inr None)
            | inr (Some base) => apply_to_base no_limits c payload <$> chain_read n base
            end
          end
      end
    end
  end.

(** What a read of the id gives. *)
Definition denoted (oid : string) (r : ReadResult) : Prop :=
  match locate oid with
  | inl e => r = inl e
  | inr None => r = inr None
  | inr (Some c) => exists n, chain_read n c = Some r
  end.
End Plain.
End Reads.

(** ** Lemmas *)

Lemma parse_view_ok key buf size v : parseIdxView key buf size = inr (Some v) ->
  iv_packSize v = size /\ offsets_ok v (iv_offsets v).
Proof.
  unfold parseIdxView. repeat case_match; intros [= <-]; split; [done | by split].
Qed.

Lemma fetch_view_ok bucket key size v : fetch_idx bucket key (Some size) = inr (Some v) ->
  iv_packSize v = size /\ offsets_ok v (iv_offsets v).
Proof.
  unfold fetch_idx. destruct (bucket _) as [buf|]; [|done]. destruct (parseIdxView key buf size) as [|[view|]] eqn:E; [done | | done].
  intros [= ->]. by apply parse_view_ok in E.
Qed.

(** *** The keys and the entries of the cache of the isolate *)

Lemma lookup_evict {V} MAX fuel k e : forall c : ByteCache (V := V),
  AMap.lookup k (entries (evict MAX fuel c)) = Some e -> AMap.lookup k (entries c) = Some e.
Proof.
  induction fuel as [|fuel IH]; intros c; [done|]. cbn [evict]. destruct (MAX <? cacheBytes c); [|done].
  destruct (entries c) as [|[key first] rest] eqn:Ee; [by rewrite Ee|]. destruct (str_eq key ""); [by rewrite Ee|].
  intros H%IH. cbn [entries] in H. rewrite AMap.lookup_remove in H. by destruct (str_eq key k).
Qed.

Lemma lookup_touch {V} MAX key (view : V) bytes c k e :
  AMap.lookup k (entries (touch MAX key view bytes c)) = Some e ->
  k = key /\ e = (view, bytes) \/ AMap.lookup k (entries c) = Some e.
Proof.
  assert (forall e', AMap.lookup k (entries (drop_existing key c)) = Some e' -> AMap.lookup k (entries c) = Some e') as Hd.
  { unfold drop_existing. intros e'. destruct (AMap.lookup key (entries c)); [|done]. cbn [entries].
    rewrite AMap.lookup_remove. by destruct (str_eq key k). }
  unfold touch. destruct (MAX <? bytes); [intros H; right; by apply Hd|]. intros H%lookup_evict. cbn [entries] in H.
  rewrite AMap.lookup_set in H. destruct (str_eq key k) eqn:E; [|right; by apply Hd]. to_prop. left. split; congruence.
Qed.

Lemma cache_key_inj k k' size size' : getIdxViewCacheKey k size = getIdxViewCacheKey k' size' -> k = k' /\ size = size'.
Proof.
  unfold getIdxViewCacheKey. intros E%(f_equal chars). rewrite !chars_append, !chars_String in E.
  by apply number_after in E.
Qed.

(** *** The memo tells the truth *)

Section Transparent.
Context (bucket : string -> option (list Z)) (inflate : list Z -> option (list Z)).
Context (getActivePackCatalog : nat -> option (list PackCatalogRow)) (repoId : string).
Context (packs : list PackCatalogRow) (Hkeys : NoDup (packKey <$> packs)).

Abbreviation chain := (chain_read bucket inflate packs).
Abbreviation found_at oid := (first_pack bucket oid 0 packs).

(** What a memo and a cache may hold, when the catalog of the request is [packs]. *)
Record reader_ok (s : Reader) : Prop := {
  ro_repo : forall id, memo_repoId (rd_memo s) = Some id -> id = repoId \/ id = ""%string;
  ro_catalog : match memo_packCatalog (rd_memo s) with
    | Some rows => rows = packs
    | None => getActivePackCatalog (rd_calls s) = Some packs
    end;
  ro_views : forall k v, memo_idxViews (rd_memo s) !! k = Some v -> fetch_idx bucket k (Some (iv_packSize v)) = inr (Some v);
  ro_cache : forall k size v bytes,
    AMap.lookup (getIdxViewCacheKey k size) (entries (rd_cache s)) = Some (v, bytes) -> fetch_idx bucket k (Some size) = inr (Some v);
  ro_objects : forall oid r, memo_packedObjects (rd_memo s) !! toLowerCase oid = Some r -> denoted bucket inflate packs oid (inr r) }.

(** What a load of an index or a lookup leaves alone. *)
Definition outside (s : Reader) :=
  (memo_packedObjects (rd_memo s), memo_inflight (rd_memo s), memo_flags (rd_memo s)).

Abbreviation inflight s := (memo_inflight (rd_memo s)).

Lemma ensure_ok s : reader_ok s -> reader_ok (with_memo (ensureMemo repoId) s) /\
  outside (with_memo (ensureMemo repoId) s) = outside s.
Proof.
  intros Hok. pose proof (ro_repo _ Hok) as Hr. unfold ensureMemo, with_memo.
  assert (forall s', rd_cache s' = rd_cache s -> rd_calls s' = rd_calls s ->
    rd_memo s' = mkMemo (Some repoId) (memo_packCatalog (rd_memo s)) (memo_idxViews (rd_memo s)) (memo_packedObjects (rd_memo s))
      (memo_inflight (rd_memo s)) (memo_flags (rd_memo s)) -> reader_ok s' /\ outside s' = outside s) as Hset.
  { intros s' E1 E2 E3. unfold outside. split; [|by rewrite E3]. split; rewrite ?E3, ?E1, ?E2; cbn; try by apply Hok.
    intros id [= <-]. by left. }
  destruct (memo_repoId (rd_memo s)) as [id|] eqn:Eid; [|by apply Hset].
  destruct (str_eq id "") eqn:E0; [by apply Hset|]. destruct (Hr id eq_refl) as [->| ->]; [|done].
  unfold str_eq. rewrite bool_decide_true by done. destruct s as [m c n]. done.
Qed.

Lemma remember_ok key bypass v s : reader_ok s -> fetch_idx bucket key (Some (iv_packSize v)) = inr (Some v) ->
  reader_ok (remember key bypass v s).
Proof.
  intros Hok Hv. split; cbn; try by apply Hok.
  - intros k w. destruct (decide (k = key)) as [->|Hne]; [rewrite lookup_insert_eq; by intros [= <-]|].
    rewrite lookup_insert_ne by done. apply (ro_views _ Hok).
  - intros k size w bytes. destruct bypass; [by apply (ro_cache _ Hok)|].
    intros [[[-> ->]%cache_key_inj [= -> _]]|H]%lookup_touch; [done|]. by eapply (ro_cache _ Hok).
Qed.

Lemma load_ok key size s r s' : reader_ok s -> loadIdxView bucket key (Some size) s = (r, s') ->
  r = fetch_idx bucket key (Some size) /\ reader_ok s' /\ outside s' = outside s /\
  memo_packCatalog (rd_memo s') = memo_packCatalog (rd_memo s).
Proof.
  intros Hok. unfold loadIdxView. set (bypass := bool_decide _). set (cached := if bypass then None else _).
  assert (forall v, cached = Some v -> fetch_idx bucket key (Some size) = inr (Some v)) as Hc.
  { unfold cached. intros v. destruct bypass; [done|]. destruct (AMap.lookup _ _) as [[w bytes]|] eqn:E; [|done].
    intros [= <-]. by eapply (ro_cache _ Hok). }
  assert (forall r s', load_cached bucket key (Some size) cached bypass s = (r, s') ->
    r = fetch_idx bucket key (Some size) /\ reader_ok s' /\ outside s' = outside s /\
    memo_packCatalog (rd_memo s') = memo_packCatalog (rd_memo s)) as Hload.
  { intros r0 s0. unfold load_cached. destruct cached as [v|].
    - specialize (Hc v eq_refl). intros [= <- <-]. split_and!; [done | | done | done].
      apply remember_ok; [done|]. by destruct (fetch_view_ok _ _ _ _ Hc) as [-> _].
    - set (s1 := with_memo _ s). assert (reader_ok s1) as Hok1.
      { split; cbn; try by apply Hok. intros k v [_ H]%lookup_delete_Some. by apply (ro_views _ Hok). }
      destruct (fetch_idx bucket key (Some size)) as [e|[v|]] eqn:Ef; intros [= <- <-]; split_and!; try done.
      apply remember_ok; [done|]. by destruct (fetch_view_ok _ _ _ _ Ef) as [-> _]. }
  destruct (memo_idxViews (rd_memo s) !! key) as [v|] eqn:Ev; [|by apply Hload].
  destruct (Z.eqb_spec (iv_packSize v) size) as [<-|_]; [|by apply Hload].
  intros [= <- <-]. split_and!; [|done..]. symmetry. by apply (ro_views _ Hok).
Qed.

Lemma find_in_packs_ok oid l : forall slot s r s', reader_ok s -> find_in_packs bucket oid slot l s = (r, s') ->
  r = first_pack bucket oid slot l /\ reader_ok s' /\ outside s' = outside s /\
  memo_packCatalog (rd_memo s') = memo_packCatalog (rd_memo s).
Proof.
  induction l as [|pack l IH]; intros slot s r s' Hok; cbn [find_in_packs first_pack]; [by intros [= <- <-]|].
  destruct (loadIdxView bucket (packKey pack) (Some (packBytes pack)) s) as [v s1] eqn:El.
  destruct (load_ok _ _ _ _ _ Hok El) as (-> & Hok1 & <- & <-).
  destruct (fetch_idx _ _ _) as [e|[idx|]]; [by intros [= <- <-] | | by apply IH].
  destruct (findFirstPackedObjectCandidate _ _ _); [by intros [= <- <-] | by apply IH].
Qed.

Lemma catalog_ok s r s' : reader_ok s -> loadActivePackCatalog getActivePackCatalog repoId s = (r, s') ->
  r = inr packs /\ reader_ok s' /\ outside s' = outside s /\ memo_packCatalog (rd_memo s') = Some packs.
Proof.
  intros [Hok Ho]%ensure_ok. unfold loadActivePackCatalog. set (s1 := with_memo _ s) in *.
  pose proof (ro_catalog _ Hok) as Hc. destruct (memo_packCatalog (rd_memo s1)) as [rows|] eqn:Em.
  - intros [= <- <-]. by subst rows.
  - rewrite Hc. intros [= <- <-]. split_and!; [done | | done | done]. split; cbn; by try apply Hok.
Qed.

Lemma find_ok oid s r s' : reader_ok s -> findObject bucket getActivePackCatalog repoId oid s = (r, s') ->
  r = found_at oid /\ reader_ok s' /\ outside s' = outside s /\ memo_packCatalog (rd_memo s') = Some packs.
Proof.
  intros Hok. unfold findObject. destruct (loadActivePackCatalog _ _ s) as [c s1] eqn:Ec.
  destruct (catalog_ok _ _ _ Hok Ec) as (-> & Hok1 & <- & <-). by apply find_in_packs_ok.
Qed.
(** *** The entries a read can meet *)

Definition known (c : Candidate) : Prop := exists row view, packs !! cand_packSlot c = Some row /\
  fetch_idx bucket (packKey row) (Some (packBytes row)) = inr (Some view) /\
  cand_source c = mkSource (packKey row) (packBytes row) view /\
  entry_candidate (cand_source c) (cand_packSlot c) (cand_objectIndex c) = Some c.

Lemma entry_index s slot i c : entry_candidate s slot i = Some c ->
  cand_source c = s /\ cand_packSlot c = slot /\ cand_objectIndex c = i /\ Z.of_nat i < iv_count (src_idx s).
Proof.
  unfold entry_candidate, candidateFromIndex, getNextOffsetByIndex.
  destruct ((_ <? 0) || (_ <=? _)) eqn:E; [done|]. destruct (_ !! _); [|done]. intros [= <-]. to_prop. by split_and!.
Qed.

Lemma known_inj c c' : known c -> known c' -> makeVisitKey c = makeVisitKey c' -> c = c'.
Proof.
  intros (row & v & Hr & Hv & Es & E) (row' & v' & Hr' & Hv' & Es' & E') [Hk Hi]%visit_key_inj.
  rewrite Es, Es' in Hk. cbn in Hk. assert (cand_packSlot c = cand_packSlot c') as Eslot.
  { apply (NoDup_lookup (packKey <$> packs) _ _ (packKey row)); [done | by rewrite list_lookup_fmap, Hr |].
    by rewrite list_lookup_fmap, Hr', Hk. }
  assert (row = row') as <- by congruence. assert (v = v') as <- by congruence.
  rewrite Es in E. rewrite Es', <- Eslot, <- Hi in E'. congruence.
Qed.

Lemma first_pack_known oid l : forall slot k c, (forall i row, l !! i = Some row -> packs !! (slot + i)%nat = Some row) ->
  first_pack bucket oid slot l = inr (Some c) -> k = slot -> known c.
Proof.
  induction l as [|pack l IH]; intros slot k c Hl; cbn [first_pack]; [done|].
  assert (forall i row, l !! i = Some row -> packs !! (S slot + i)%nat = Some row) as Hl'.
  { intros i row Hi. replace (S slot + i)%nat with (slot + S i)%nat by lia. by apply Hl. }
  destruct (fetch_idx _ _ _) as [e|[idx|]] eqn:Ef; [done | |]; [|intros H _; by eapply IH].
  destruct (findFirstPackedObjectCandidate _ _ _) as [d|] eqn:Ed; [|intros H _; by eapply IH].
  intros [= <-] _. unfold findFirstPackedObjectCandidate in Ed. destruct (normalizeOid _) as [[o b]|]; [|done].
  cbn -[candidateFromIndex] in Ed. rewrite bool_decide_false in Ed by done. destruct (_ <? 0); [done|].
  apply entry_index in Ed as Hd. destruct Hd as (E1 & _ & E3 & _). exists pack, idx. cbn.
  specialize (Hl 0%nat pack eq_refl). rewrite Nat.add_0_r in Hl. rewrite E1, E3. split_and!; try done.
  unfold entry_candidate, candidateFromIndex in Ed |- *. destruct (getNextOffsetByIndex _ _); [|done]. by injection Ed as <-.
Qed.

Lemma found_known oid c : found_at oid = inr (Some c) -> known c.
Proof. intros H. by eapply first_pack_known; [|exact H|]. Qed.

Lemma ofs_base_known c header base : known c -> ofs_base c header = Some base -> known base.
Proof.
  intros (row & v & Hr & Hv & Es & E). unfold ofs_base. set (o := _ - _).
  pose proof (findOffsetIndex_spec v _ o (proj2 (fetch_view_ok _ _ _ _ Hv))) as Hf. rewrite Es. cbn [src_idx].
  destruct (findOffsetIndex v o) as [k|]; [|done]. cbn [mbind option_bind]. unfold makeCandidateFromOffset.
  destruct (getNextOffsetByIndex _ _) as [next|] eqn:En; [|done]. intros [= <-]. exists row, v. cbn.
  split_and!; try done. unfold entry_candidate, candidateFromIndex. cbn [src_idx] in *. rewrite En. cbn. unfold byte_at. by rewrite Hf.
Qed.

(** The packs that can be opened, for counting entries. *)
Definition sources : list IndexedPackSource :=
  omap (fun row => match fetch_idx bucket (packKey row) (Some (packBytes row)) with
    | inr (Some view) => Some (mkSource (packKey row) (packBytes row) view) | _ => None end) packs.

Lemma known_key c : known c -> makeVisitKey c ∈ entry_keys sources.
Proof.
  intros (row & v & Hr & Hv & Es & E). apply elem_of_list_to_set.
  assert (cand_source c ∈ sources) as [j Hj]%list_elem_of_lookup_1.
  { apply list_elem_of_omap. exists row. split; [by eapply list_elem_of_lookup_2 | by rewrite Hv, Es]. }
  apply list_elem_of_fmap. exists (at_slot j c). split; [done|]. apply elem_of_all_entries.
  exists (cand_source c), (cand_objectIndex c). cbn. apply entry_index in E as Hi. destruct Hi as (_ & _ & _ & Hi).
  split_and!; [done | done|]. unfold entry_candidate, candidateFromIndex in *. destruct (getNextOffsetByIndex _ _); [|done].
  injection E as E. by rewrite <- E.
Qed.

(** *** Chains of bases *)

Lemma chain_mono n : forall m c r, (n <= m)%nat -> chain n c = Some r -> chain m c = Some r.
Proof.
  induction n as [|n IH]; intros [|m] c r Hle; cbn [chain_read]; [done | done | lia |].
  destruct (read_entry _ _ _ _) as [|[[header payload]|]]; [done | | done].
  destruct (typeCodeToObjectType _); [done|]. destruct (_ =? 6).
  - destruct (ofs_base _ _) as [b|]; [|done]. intros (rb & Hb & ->)%fmap_Some. rewrite (IH m b rb) by (done || lia). done.
  - destruct (if hdr_type header =? 7 then baseOid header else None); [|done]. destruct (locate _ _ _) as [|[b|]]; [done | | done].
    intros (rb & Hb & ->)%fmap_Some. rewrite (IH m b rb) by (done || lia). done.
Qed.

Lemma chain_none n m c : (n <= m)%nat -> chain m c = None -> chain n c = None.
Proof. intros Hle Hm. destruct (chain n c) as [r|] eqn:E; [|done]. apply (chain_mono _ m) in E; [congruence | done]. Qed.

Lemma chain_unique n m c r r' : chain n c = Some r -> chain m c = Some r' -> r = r'.
Proof.
  intros H H'. apply (chain_mono _ (max n m)) in H; [|lia]. apply (chain_mono _ (max n m)) in H'; [|lia]. congruence.
Qed.

(** The length of the chain of an entry. *)
Definition least (n : nat) (c : Candidate) (r : ReadResult) : Prop := chain (S n) c = Some r /\ chain n c = None.

Lemma least_exists n c r : chain n c = Some r -> exists m, (m < n)%nat /\ least m c r.
Proof.
  induction n as [|n IH]; [done|]. intros H. destruct (chain n c) as [r'|] eqn:E.
  - destruct IH as (m & Hm & Hl); [by rewrite (chain_unique _ _ _ _ _ E H)|]. exists m. split; [lia | done].
  - exists n. split; [lia | done].
Qed.

Lemma first_pack_error oid l : forall slot e, first_pack bucket oid slot l = inl e -> e = IndexFailed.
Proof.
  induction l as [|pack l IH]; intros slot e; cbn [first_pack]; [done|].
  destruct (fetch_idx _ _ _) as [e'|[idx|]] eqn:Ef; [|case_match; [done | apply IH] | apply IH].
  intros [= ->]. revert Ef. unfold fetch_idx. destruct (bucket _); [|done]. by destruct (parseIdxView _ _ _) as [|[]]; intros [=].
Qed.

Lemma locate_error oid e : locate bucket packs oid = inl e -> e = IndexFailed.
Proof. apply first_pack_error. Qed.

(** *** One read *)

Definition settled (r : ReadResult) : Prop := r <> inl AwaitsItself /\ r <> inl StillReading.

(** What is shown of a computation: it does not run out of fuel when [enough], keeps
    the reader truthful, gives only [answers], and gives what it is expected to. *)
Record outcome (enough : Prop) (answers expected : ReadResult -> Prop) (s : Reader) (r : ReadResult) (s' : Reader) : Prop := {
  oc_fuel : enough -> r <> inl StillReading;
  oc_state : settled r -> reader_ok s' /\ inflight s' = inflight s;
  oc_sound : settled r -> r <> inl RecursionCycle -> answers r;
  oc_complete : forall r0, expected r0 -> r <> inl StillReading -> r = r0 }.

(** The entries on the way, and those whose reads wait, have longer chains than [n]
    and [k]. *)
Definition beyond (n k : nat) (V : gset string) (s : Reader) : Prop :=
  (forall v, known v -> makeVisitKey v ∈ V -> chain n v = None) /\
  (forall o, o ∈ inflight s -> exists v, found_at o = inr (Some v) /\ chain k v = None).

Definition expected_entry (V : gset string) (s : Reader) (c : Candidate) (r : ReadResult) : Prop :=
  exists n, least n c r /\ beyond (S n) n V s.

Definition expected_read (V : gset string) (s : Reader) (oid : string) (r : ReadResult) : Prop :=
  exists k, beyond k k V s /\
    match locate bucket packs oid with
    | inl e => r = inl e
    | inr None => r = inr None
    | inr (Some b) => exists n, (n < k)%nat /\ least n b r
    end.

Definition entry_spec (enough : gset string -> Prop) (materialize : gset string -> Candidate -> Reader -> ReadResult * Reader) : Prop :=
  forall V c s r s', known c -> reader_ok s -> materialize V c s = (r, s') ->
    outcome (enough V) (fun r => exists n, chain n c = Some r) (expected_entry V s c) s r s'.

Lemma beyond_le n k n' k' V s : (n' <= n)%nat -> (k' <= k)%nat -> beyond n k V s -> beyond n' k' V s.
Proof.
  intros Hn Hk [H1 H2]. split.
  - intros v Hv Hin. eapply chain_none; [exact Hn | by apply H1].
  - intros o Ho. destruct (H2 o Ho) as (v & E & Hc). exists v. split; [done|]. by eapply chain_none.
Qed.

Lemma ok_inflight f s : reader_ok s -> reader_ok (with_memo (set_inflight f) s).
Proof. intros Hok. split; cbn; by try apply Hok. Qed.

Lemma ok_objects oid r f s : reader_ok s -> denoted bucket inflate packs oid (inr r) ->
  reader_ok (with_memo (set_inflight f ∘ set_objects <[toLowerCase oid := r]>) s).
Proof.
  intros Hok Hd. split; cbn; try by apply Hok. intros oid' r'.
  destruct (decide (toLowerCase oid' = toLowerCase oid)) as [E|Hne].
  - rewrite E, lookup_insert_eq. intros [= <-]. unfold denoted, locate in *. by rewrite E.
  - rewrite lookup_insert_ne by congruence. by apply (ro_objects _ Hok).
Qed.

Lemma denoted_unique oid r r' : denoted bucket inflate packs oid r -> denoted bucket inflate packs oid r' -> r = r'.
Proof.
  unfold denoted. destruct (locate _ _ _) as [|[c|]]; [by intros -> -> | | by intros -> ->].
  intros [n Hn] [m Hm]. by eapply chain_unique.
Qed.

Lemma expected_denoted V s oid r : expected_read V s oid r -> denoted bucket inflate packs oid r.
Proof.
  intros (k & _ & H). unfold denoted. destruct (locate _ _ _) as [|[c|]]; [done | | done].
  destruct H as (n & _ & Hl & _). eauto.
Qed.

Lemma expected_not_inflight V s oid r : expected_read V s oid r -> toLowerCase oid ∉ inflight s.
Proof.
  intros (k & [_ H] & He) Hin. destruct (H _ Hin) as (v & Ev & Hv). unfold locate in He. rewrite Ev in He.
  destruct He as (n & Hn & Hl & _). rewrite (chain_none (S n) k) in Hl by (done || lia). done.
Qed.

(** The bookkeeping at the end of a read. *)
Definition finish (oidLc : string) (result : ReadResult) (s : Reader) : ReadResult * Reader :=
  match result with
  | inl AwaitsItself => (result, s)
  | inl _ => (result, with_memo (set_inflight (fun p => p ∖ {[oidLc]})) s)
  | inr found => (result, with_memo (set_inflight (fun p => p ∖ {[oidLc]}) ∘ set_objects <[oidLc := found]>) s)
  end.

Lemma finish_ok oid s result s1 r s' : toLowerCase oid ∉ inflight s -> finish (toLowerCase oid) result s1 = (r, s') ->
  (settled result -> reader_ok s1 /\ inflight s1 = {[toLowerCase oid]} ∪ inflight s) ->
  (settled result -> result <> inl RecursionCycle -> denoted bucket inflate packs oid result) ->
  r = result /\ (settled r -> reader_ok s' /\ inflight s' = inflight s).
Proof.
  intros Hni Hf Hs Hd. assert (({[toLowerCase oid]} ∪ inflight s) ∖ {[toLowerCase oid]} = inflight s) as Heq by set_solver.
  assert (r = result) as -> by (destruct result as [[]|]; by injection Hf). split; [done|]. intros Hset.
  destruct (Hs Hset) as [Hok Ei]. destruct result as [e|found].
  - assert (s' = with_memo (set_inflight (fun p => p ∖ {[toLowerCase oid]})) s1) as ->
      by (destruct Hset as [H1 _]; destruct e; by injection Hf).
    split; [by apply ok_inflight|]. cbn. by rewrite Ei.
  - injection Hf as <-. split; [by apply ok_objects, Hd|]. cbn. by rewrite Ei.
Qed.

Lemma read_spec enough materialize V oid s r s' : entry_spec enough materialize -> reader_ok s ->
  read_with bucket getActivePackCatalog repoId materialize V oid s = (r, s') ->
  outcome (enough V) (denoted bucket inflate packs oid) (expected_read V s oid) s r s'.
Proof.
  intros Hmat [Hok Ho]%ensure_ok. unfold read_with. set (s0 := with_memo _ s) in *.
  assert (inflight s0 = inflight s) as Ei by (by injection Ho).
  destruct (memo_packedObjects (rd_memo s0) !! toLowerCase oid) as [cached|] eqn:Em.
  { intros [= <- <-]. apply (ro_objects _ Hok) in Em. split; [done | done | done |].
    intros r0 He%expected_denoted _. by eapply denoted_unique. }
  case_bool_decide as Hin.
  { intros [= <- <-]. split; [done | by intros [] | by intros [] |].
    intros r0 He%expected_not_inflight. by rewrite <- Ei in He. }
  set (s1 := with_memo _ s0). assert (reader_ok s1) as Hok1 by (by apply ok_inflight).
  destruct (findObject _ _ _ _ s1) as [loc s2] eqn:Ef. destruct (find_ok _ _ _ _ Hok1 Ef) as (-> & Hok2 & Eo & _).
  assert (inflight s2 = {[toLowerCase oid]} ∪ inflight s) as Ei2 by (injection Eo as _ -> _; rewrite <- Ei; reflexivity).
  rewrite Ei in Hin. change (found_at (toLowerCase oid)) with (locate bucket packs oid).
  destruct (locate bucket packs oid) as [e|[c|]] eqn:El.
  - intros Hf. change (finish (toLowerCase oid) (inl e) s2 = (r, s')) in Hf.
    apply finish_ok with (s := s) in Hf as [-> Hst]; [|done | by intros _ | by unfold denoted; rewrite El].
    apply locate_error in El as He. subst e.
    split; [done | done | by unfold denoted; rewrite El |].
    intros r0 Hr%expected_denoted _. unfold denoted in Hr. by rewrite El in Hr.
  - destruct (materialize V c s2) as [rc s3] eqn:Emat. intros Hf. change (finish (toLowerCase oid) rc s3 = (r, s')) in Hf.
    destruct (Hmat _ _ _ _ _ (found_known _ _ El) Hok2 Emat) as [O1 O2 O3 O4].
    assert (settled rc -> rc <> inl RecursionCycle -> denoted bucket inflate packs oid rc) as Hd
      by (unfold denoted; rewrite El; done).
    apply finish_ok with (s := s) in Hf as [-> Hst]; [|done | by rewrite <- Ei2 | done].
    split; [done | done | done |]. intros r0 (k & [B1 B2] & He). rewrite El in He. destruct He as (n & Hn & Hl).
    apply O4. exists n. split; [done|]. split.
    + intros v Hv Hkey. by apply (chain_none (S n) k); [lia | apply B1].
    + intros o. rewrite Ei2, elem_of_union, elem_of_singleton. intros [->|Hos].
      * exists c. split; [done | apply Hl].
      * destruct (B2 o Hos) as (v & Ev & Hv). exists v. split; [done|]. by apply (chain_none n k); [lia|].
  - intros Hf. change (finish (toLowerCase oid) (inr None) s2 = (r, s')) in Hf.
    apply finish_ok with (s := s) in Hf as [-> Hst]; [|done | by intros _ | by unfold denoted; rewrite El].
    split; [done | done | by unfold denoted; rewrite El |].
    intros r0 Hr%expected_denoted _. unfold denoted in Hr. by rewrite El in Hr.
Qed.

Lemma apply_inl c payload r e : (forall d, e <> DeltaFailed d) -> apply_to_base no_limits c payload r = inl e <-> r = inl e.
Proof.
  intros He. destruct r as [e'|[o|]]; cbn; [done | | done]. destruct (applyGitDelta _ _ _) as [d|]; [|done].
  split; [intros [= <-]; by destruct (He d) | done].
Qed.

(** A delta on what the read of its base gave. *)
Lemma outcome_apply enough' enough A A' E E' s r s' c payload :
  outcome enough A E s r s' -> (enough' -> enough) ->
  (forall r0, A r0 -> A' (apply_to_base no_limits c payload r0)) ->
  (forall r0', E' r0' -> exists r0, E r0 /\ r0' = apply_to_base no_limits c payload r0) ->
  outcome enough' A' E' s (apply_to_base no_limits c payload r) s'.
Proof.
  intros [O1 O2 O3 O4] Hen HA HE. split.
  - intros H%Hen%O1. by rewrite apply_inl.
  - intros [H1 H2]. rewrite apply_inl in H1, H2 by done. by apply O2.
  - intros [H1 H2] H3. rewrite apply_inl in H1, H2, H3 by done. by apply HA, O3.
  - intros r0' (r0 & H0 & ->)%HE. rewrite apply_inl by done. intros Hs. by rewrite (O4 r0).
Qed.

Abbreviation from fuel :=
  (materializeWith bucket inflate no_limits true (read_with bucket getActivePackCatalog repoId) fuel).

(** One step of a chain. *)
Lemma chain_ofs n c header payload : read_entry bucket inflate no_limits c = inr (Some (header, payload)) ->
  typeCodeToObjectType (hdr_type header) = None -> hdr_type header = 6 ->
  chain (S n) c = match ofs_base c header with
    | None => Some (inr None) | Some base => apply_to_base no_limits c payload <$> chain n base end.
Proof. intros Hr Ht E. cbn [chain_read]. by rewrite Hr, Ht, E. Qed.

Lemma chain_ref n c header payload oid : read_entry bucket inflate no_limits c = inr (Some (header, payload)) ->
  typeCodeToObjectType (hdr_type header) = None -> hdr_type header = 7 -> baseOid header = Some oid ->
  chain (S n) c = match locate bucket packs oid with
    | inl e => Some (inl e) | inr None => Some (inr None)
    | inr (Some base) => apply_to_base no_limits c payload <$> chain n base end.
Proof. intros Hr Ht E Eo. cbn [chain_read]. rewrite Hr, Ht, E, Eo. done. Qed.

(** A chain that is one longer goes on with the base. *)
Lemma least_step c header payload r :
  read_entry bucket inflate no_limits c = inr (Some (header, payload)) -> typeCodeToObjectType (hdr_type header) = None ->
  forall base n, (hdr_type header = 6 /\ ofs_base c header = Some base \/
    hdr_type header = 7 /\ exists oid, baseOid header = Some oid /\ locate bucket packs oid = inr (Some base)) ->
  least n c r -> exists m r0, (m < n)%nat /\ least m base r0 /\ r = apply_to_base no_limits c payload r0.
Proof.
  intros Hr Ht base n Hb [H _].
  assert (apply_to_base no_limits c payload <$> chain n base = Some r) as (r0 & Hc & ->)%fmap_Some.
  { destruct Hb as [[E6 Eb]|[E7 (oid & Eo & El)]].
    - by rewrite (chain_ofs _ _ _ _ Hr Ht E6), Eb in H.
    - by rewrite (chain_ref _ _ _ _ _ Hr Ht E7 Eo), El in H. }
  apply least_exists in Hc as (m & Hm & Hl). eauto.
Qed.

Lemma beyond_step n V s c r : known c -> least n c r -> beyond (S n) n V s -> beyond n n ({[makeVisitKey c]} ∪ V) s.
Proof.
  intros Hc [_ Hl] [B1 B2]. split; [|done]. intros v Hv [E%elem_of_singleton|Hin]%elem_of_union.
  - by rewrite (known_inj _ _ Hv Hc E).
  - apply (chain_none n (S n)); [lia | by apply B1].
Qed.

(** What the packs say is never a cycle, nor a wait. *)
Lemma read_entry_error c e : read_entry bucket inflate no_limits c = inl e -> e <> StillReading /\ e <> AwaitsItself /\ e <> RecursionCycle.
Proof. unfold read_entry, readPackRange. repeat (case_match; try done); intros [= <-]; split_and!; congruence. Qed.

Lemma chain_error n : forall c e, chain n c = Some (inl e) -> e <> AwaitsItself /\ e <> RecursionCycle.
Proof.
  induction n as [|n IH]; intros c e; [done|]. cbn [chain_read].
  destruct (read_entry _ _ _ _) as [e'|[[header payload]|]] eqn:Er; [intros [= <-]; apply read_entry_error in Er; tauto | | done].
  destruct (typeCodeToObjectType _); [done|].
  assert (forall base, apply_to_base no_limits c payload <$> chain n base = Some (inl e) -> e <> AwaitsItself /\ e <> RecursionCycle) as Hstep.
  { intros base (r & Hr & Ha)%fmap_Some. split; intros ->; symmetry in Ha; apply apply_inl in Ha as ->; (done || by destruct (IH _ _ Hr)). }
  destruct (_ =? 6); [destruct (ofs_base _ _); [apply Hstep | done]|].
  destruct (if hdr_type header =? 7 then baseOid header else None) as [oid|]; [|done].
  destruct (locate _ _ _) as [e'|[base|]] eqn:El; [intros [= <-]; by apply locate_error in El as -> | apply Hstep | done].
Qed.

Lemma denoted_error oid e : denoted bucket inflate packs oid (inl e) -> e <> AwaitsItself /\ e <> RecursionCycle.
Proof.
  unfold denoted. destruct (locate _ _ _) as [e'|[c|]] eqn:El; [intros [= ->]; by apply locate_error in El as -> | | done].
  intros [n Hn]. by eapply chain_error.
Qed.

(** An entry that is read without a base. *)
Lemma outcome_plain enough V s c r : reader_ok s -> chain 1 c = Some r -> r <> inl StillReading ->
  outcome enough (fun r => exists n, chain n c = Some r) (expected_entry V s c) s r s.
Proof.
  intros Hok Hc Hr. split; [done | done | by eauto |]. intros r0 (n & [Hl _] & _) _. by eapply chain_unique.
Qed.

Lemma materialize_entry fuel : entry_spec (fun V => (size (entry_keys sources ∖ V) < fuel)%nat) (from fuel).
Proof.
  induction fuel as [|fuel IH]; intros V c s r s' Hc Hok; cbn [materializeWith].
  { intros [= <- <-]. split; [lia | by intros [] | by intros [] | done]. }
  case_bool_decide as HV.
  { intros [= <- <-]. split; [done | done | done |]. intros r0 (n & [Hl _] & [B _]) _. rewrite (B c Hc HV) in Hl. done. }
  assert ((size (entry_keys sources ∖ V) < S fuel)%nat -> (size (entry_keys sources ∖ ({[makeVisitKey c]} ∪ V)) < fuel)%nat) as Hsz.
  { intros Hf. pose proof (known_key c Hc).
    assert (size (entry_keys sources ∖ ({[makeVisitKey c]} ∪ V)) < size (entry_keys sources ∖ V))%nat; [|lia].
    apply subset_size. set_solver. }
  destruct (read_entry bucket inflate no_limits c) as [e|[[header payload]|]] eqn:Er.
  - intros [= <- <-]. apply outcome_plain; [done | cbn; by rewrite Er | apply read_entry_error in Er; naive_solver].
  - destruct (typeCodeToObjectType (hdr_type header)) as [t|] eqn:Et.
    { intros [= <- <-]. apply outcome_plain; [done | cbn; by rewrite Er, Et | done]. }
    destruct (Z.eqb_spec (hdr_type header) 6) as [E6|E6]; [|destruct (Z.eqb_spec (hdr_type header) 7) as [E7|E7]].
    + destruct (ofs_base c header) as [base|] eqn:Eb.
      2: { intros [= <- <-]. apply outcome_plain; [done | by rewrite (chain_ofs _ _ _ _ Er Et E6), Eb | done]. }
      destruct (from fuel _ base s) as [rb sb] eqn:Em. intros [= <- <-].
      eapply outcome_apply; [by eapply IH; [eapply ofs_base_known | |] | done | |].
      * intros r0 [n Hn]. exists (S n). by rewrite (chain_ofs _ _ _ _ Er Et E6), Eb, Hn.
      * intros r0' (n & Hl & Hb). destruct (least_step _ _ _ _ Er Et base n ltac:(by left) Hl) as (m & r0 & Hm & Hlm & ->).
        exists r0. split; [|done]. exists m. split; [done|]. eapply beyond_le; [..|by eapply beyond_step]; lia.
    + destruct (baseOid header) as [oid|] eqn:Eo.
      2: { intros [= <- <-]. apply outcome_plain; [done | cbn; by rewrite Er, Et, E7, Eo | done]. }
      destruct (read_with _ _ _ _ _ oid s) as [rb sb] eqn:Em. intros [= <- <-].
      eapply outcome_apply; [by eapply read_spec | done | |].
      * intros r0. unfold denoted. pose proof (fun n => chain_ref n _ _ _ _ Er Et E7 Eo) as Hstep. destruct (locate bucket packs oid) as [e|[b|]] eqn:El.
        -- intros ->. exists 1%nat. apply (Hstep 0%nat).
        -- intros [n Hn]. exists (S n). by rewrite Hstep, Hn.
        -- intros ->. exists 1%nat. apply (Hstep 0%nat).
      * intros r0' (n & Hl & Hb). pose proof (beyond_step _ _ _ _ _ Hc Hl Hb) as Hb'.
        destruct (locate bucket packs oid) as [e|[b|]] eqn:El.
        -- destruct Hl as [Hl _]. rewrite (chain_ref _ _ _ _ _ Er Et E7 Eo), El in Hl. injection Hl as <-.
           exists (inl e). split; [|done]. exists n. by rewrite El.
        -- destruct (least_step _ _ _ _ Er Et b n ltac:(by eauto) Hl) as (m & r0 & Hm & Hlm & ->).
           exists r0. split; [|done]. exists n. rewrite El. eauto.
        -- destruct Hl as [Hl _]. rewrite (chain_ref _ _ _ _ _ Er Et E7 Eo), El in Hl. injection Hl as <-.
           exists (inr None). split; [|done]. exists n. by rewrite El.
    + intros [= <- <-]. apply outcome_plain; [done | | done]. cbn. rewrite Er, Et.
      by rewrite (proj2 (Z.eqb_neq _ _) E6), (proj2 (Z.eqb_neq _ _) E7).
  - intros [= <- <-]. apply outcome_plain; [done | cbn; by rewrite Er | done].
Qed.

(** A read from outside: nothing is under way. *)
Lemma read_outcome fuel oid s r s' : reader_ok s -> inflight s = ∅ -> (total_objects sources < fuel)%nat ->
  readObject bucket inflate getActivePackCatalog repoId fuel oid s = (r, s') ->
  r <> inl StillReading /\
  (r <> inl AwaitsItself -> reader_ok s' /\ inflight s' = ∅) /\
  (forall r0, denoted bucket inflate packs oid r0 -> r = r0) /\
  (r <> inl AwaitsItself -> r <> inl RecursionCycle -> denoted bucket inflate packs oid r).
Proof.
  intros Hok Hi Hf Hr. destruct (read_spec _ _ ∅ oid s r s' (materialize_entry fuel) Hok Hr) as [O1 O2 O3 O4].
  pose proof (entry_keys_size sources ∅) as Hsz. assert (r <> inl StillReading) as Hs by (apply O1; lia).
  split_and!; [done | | |].
  - intros Ha. rewrite <- Hi. by apply O2.
  - intros r0 Hd. apply O4; [|done]. unfold denoted in Hd. unfold expected_read.
    assert (forall k, beyond k k ∅ s) as Hb by (split; [by intros v _ ?%elem_of_empty | rewrite Hi; by intros o ?%elem_of_empty]).
    destruct (locate _ _ _) as [e|[c|]]; [by exists 0%nat | | by exists 0%nat].
    destruct Hd as [n Hn]. exists n. split; [done|]. apply least_exists in Hn as (m & Hm & Hl). eauto.
  - intros Ha Hc. by apply O3.
Qed.

(** *** Agreement with the object store *)

Section Agreement.
Context (Hopen : forall row, row ∈ packs -> exists view, fetch_idx bucket (packKey row) (Some (packBytes row)) = inr (Some view)).
Context (Hok : snapshot_ok bucket inflate sources).

Lemma source_at i row view : packs !! i = Some row -> fetch_idx bucket (packKey row) (Some (packBytes row)) = inr (Some view) ->
  sources !! i = Some (mkSource (packKey row) (packBytes row) view).
Proof.
  unfold sources. clear Hok Hkeys. revert i. induction packs as [|p l IH]; [done|]. intros i Hi Hv.
  destruct (Hopen p ltac:(left)) as [vp Hp]. cbn [omap list_omap]. rewrite Hp.
  destruct i as [|i]; [injection Hi as ->; cbn; congruence|]. cbn. apply IH; [intros; apply Hopen; by right | done | done].
Qed.

Lemma known_entry c : known c -> is_entry sources c.
Proof.
  intros (row & v & Hr & Hv & Es & E). apply entry_index in E as Hi. destruct Hi as (_ & _ & _ & Hi).
  exists (cand_source c), (cand_objectIndex c). split_and!; [|done..]. rewrite Es. by apply source_at.
Qed.

Lemma entry_known c : is_entry sources c -> known c.
Proof.
  intros (s & i & Hs & Hi & E). apply entry_index in E as Hc. destruct Hc as (Es & _ & Ei & _).
  destruct (lookup_lt_is_Some_2 packs (cand_packSlot c)) as [row Hrow].
  { apply lookup_lt_Some in Hs. unfold sources in Hs. eapply Nat.lt_le_trans; [exact Hs|]. apply length_omap_le. }
  destruct (Hopen row (list_elem_of_lookup_2 _ _ _ Hrow)) as [v Hv].
  pose proof (source_at _ _ _ Hrow Hv) as Hs'. rewrite Hs in Hs'. injection Hs' as Hs'. exists row, v.
  rewrite Es, Ei. split_and!; [done | done | done | done].
Qed.

(** The first pack that lists an id, for an id of twenty bytes. *)
Lemma found_spec raw : is_bytes raw -> length raw = 20%nat ->
  match locate bucket packs (bytesToHex raw) with
  | inl _ => False
  | inr None => forall c, is_entry sources c -> cand_oid c <> bytesToHex raw
  | inr (Some c) => is_entry sources c /\ cand_oid c = bytesToHex raw
  end.
Proof.
  intros Hb Hl. unfold locate. rewrite toLowerCase_hex by done.
  assert (forall row view, row ∈ packs -> fetch_idx bucket (packKey row) (Some (packBytes row)) = inr (Some view) ->
    let s := mkSource (packKey row) (packBytes row) view in exists names, source_ok s names /\
    match findFirstPackedObjectCandidate [s] (inl (bytesToHex raw)) None with
    | None => raw ∉ names
    | Some c => cand_oid c = bytesToHex raw
    end) as Hone.
  { intros row view [i Hi]%list_elem_of_lookup_1 Hv. pose proof (source_at _ _ _ Hi Hv) as Hs. cbn zeta.
    destruct (sn_sources _ _ _ Hok _ (list_elem_of_lookup_2 _ _ _ Hs)) as [names Hn]. exists names. split; [done|].
    unfold findFirstPackedObjectCandidate. rewrite normalize_hex by done. cbn -[candidateFromIndex].
    rewrite bool_decide_false by done.
    pose proof (findOidIndexFromBytes_spec view names (sk_names _ _ Hn) raw 0 raw) as Hf.
    destruct Hf as [[E Hno]|[Hge Hlk]]; [lia | lia | by apply (name_at_mid [] raw []) || (rewrite <- (app_nil_r raw) at 1; by apply (name_at_mid [] raw [])) | done | |].
    - rewrite E. done.
    - rewrite (proj2 (Z.ltb_ge _ 0)) by lia.
      destruct (entry_candidate_some _ names 0 _ Hn (lookup_lt_Some _ _ _ Hlk)) as (next & _ & ->). cbn.
      apply (oid_at_name _ _ _ _ Hn Hlk). }
  assert (forall l slot, (forall row, row ∈ l -> row ∈ packs) ->
    match first_pack bucket (bytesToHex raw) slot l with
    | inl _ => False
    | inr (Some c) => cand_oid c = bytesToHex raw
    | inr None => forall row view, row ∈ l -> fetch_idx bucket (packKey row) (Some (packBytes row)) = inr (Some view) ->
        findFirstPackedObjectCandidate [mkSource (packKey row) (packBytes row) view] (inl (bytesToHex raw)) None = None
    end) as Hall.
  { induction l as [|p l IH]; intros slot Hin; cbn [first_pack]; [by intros ? ? ?%elem_of_nil|].
    destruct (Hopen p (Hin p ltac:(left))) as [v Hv]. rewrite Hv.
    destruct (Hone p v (Hin p ltac:(left)) Hv) as (names & _ & H1).
    destruct (findFirstPackedObjectCandidate _ _ _) as [c|] eqn:Ec; [done|].
    specialize (IH (S slot) ltac:(intros row Hrow; apply Hin; by right)).
    destruct (first_pack _ _ _ _) as [|[c|]]; [done | done|].
    intros row view [->|Hrow]%elem_of_cons Hview; [congruence | by apply IH]. }
  specialize (Hall packs 0%nat ltac:(done)). destruct (first_pack _ _ _ _) as [e|[c|]] eqn:Ef; [done | |].
  - split; [|done]. by eapply known_entry, found_known.
  - intros c Hc%entry_known Eoid. destruct Hc as (row & v & Hrow & Hv & Es & E).
    destruct (Hone row v (list_elem_of_lookup_2 _ _ _ Hrow) Hv) as (names & Hn & H1).
    rewrite (Hall row v (list_elem_of_lookup_2 _ _ _ Hrow) Hv) in H1. rewrite Es in E.
    pose proof (entry_index _ _ _ _ E) as (_ & _ & _ & Hi). rewrite (sk_count _ _ Hn) in Hi.
    destruct (lookup_lt_is_Some_2 names (cand_objectIndex c)) as [n Hnm]; [lia|].
    apply H1. destruct (entry_candidate_some _ names (cand_packSlot c) _ Hn (lookup_lt_Some _ _ _ Hnm)) as (next & _ & Ec).
    unfold entry_candidate in E. rewrite Ec, (oid_at_name _ _ _ _ Hn Hnm) in E. injection E as E. rewrite <- E in Eoid. cbn in Eoid.
    apply bytesToHex_inj in Eoid as ->; [by eapply list_elem_of_lookup_2 | | done].
    pose proof (no_names _ _ (sk_names _ _ Hn)) as Hna. rewrite Forall_forall in Hna.
    by apply list_elem_of_lookup_2, Hna in Hnm as [_ ?].
Qed.

(** A chain that ends gives what its entry denotes, and no exception. *)
Lemma chain_object n : forall c r, is_entry sources c -> chain n c = Some r ->
  exists x, r = inr x /\ forall o, x = Some o ->
    o = toPackedObjectResult c (po_type o) (po_payload o) /\ object bucket inflate sources c (po_type o) (po_payload o).
Proof.
  induction n as [|n IH]; intros c r Hc; [done|].
  destruct (sn_readable _ _ _ Hok c Hc) as (header & payload & Hr).
  destruct (typeCodeToObjectType (hdr_type header)) as [t|] eqn:Ht.
  { cbn [chain_read]. rewrite Hr, Ht. intros [= <-]. eexists. split; [done|]. intros o [= <-]. cbn. split; [done|].
    exists 0%nat. by eapply denotes_full. }
  assert (forall base rb, is_entry sources base -> base_choice sources c header base -> chain n base = Some rb ->
    exists x, apply_to_base no_limits c payload rb = inr x /\ forall o, x = Some o ->
      o = toPackedObjectResult c (po_type o) (po_payload o) /\ object bucket inflate sources c (po_type o) (po_payload o)) as Hstep.
  { intros base rb Hb Hch (x & -> & Ho)%IH; [|done]. destruct x as [o|]; [|by exists None].
    destruct (Ho o eq_refl) as [_ Hob]. destruct (sn_deltas _ _ _ Hok _ _ _ _ _ _ Hc Hr Hch Hob) as [result E].
    cbn [apply_to_base maxDeltaResultBytes no_limits]. rewrite E. eexists. split; [done|]. intros ? [= <-]. cbn. split; [done|].
    destruct Hob as [k Hk]. exists (S k). by eapply denotes_delta. }
  destruct (Z.eqb_spec (hdr_type header) 6) as [E6|E6]; [|destruct (Z.eqb_spec (hdr_type header) 7) as [E7|E7]].
  - rewrite (chain_ofs _ _ _ _ Hr Ht E6). destruct (ofs_base c header) as [base|] eqn:Eb; [|intros [= <-]; by exists None].
    intros (rb & Hrb & ->)%fmap_Some. eapply Hstep; [by eapply ofs_base_entry | by apply base_by_offset | done].
  - destruct (baseOid header) as [oid|] eqn:Eo.
    2: { cbn [chain_read]. rewrite Hr, Ht, E7, Eo. intros [= <-]. by exists None. }
    rewrite (chain_ref _ _ _ _ _ Hr Ht E7 Eo).
    destruct (read_entry_header _ _ _ Hok c header payload Hc Hr oid Eo) as (raw & -> & Hb & Hl).
    pose proof (found_spec raw Hb Hl) as Hf. destruct (locate _ _ _) as [|[base|]]; [done | | intros [= <-]; by exists None].
    destruct Hf as [He Eoid]. intros (rb & Hrb & ->)%fmap_Some. eapply Hstep; [done | | done]. apply base_by_id; [done | by rewrite Eoid | done].
  - cbn [chain_read]. rewrite Hr, Ht. rewrite (proj2 (Z.eqb_neq _ _) E6), (proj2 (Z.eqb_neq _ _) E7).
    intros [= <-]. by exists None.
Qed.
End Agreement.

End Transparent.

(** ** Properties *)

(** The memo of a new request: nothing is known yet. *)
Definition new_reader (cache : ByteCache) : Reader := mkReader (fresh_memo None) cache 0.

Definition toy_row : PackCatalogRow := mkRow "p.pack" KindReceive PackActive 0 1 1 2 44 1200 0 None.

Definition toy_catalog (n : nat) : option (list PackCatalogRow) := match n with O => Some [toy_row] | S _ => None end.

(** A pack and an index of two others, each a delta of a reference to the other. *)
Definition loop_row (key : string) : PackCatalogRow := mkRow key KindReceive PackActive 0 1 1 1 59 1100 0 None.

Definition loop_idx_file (name : Z) : list Z :=
  writeIdxV2 (fun _ => replicate 20 0) (mkTable 1 [12] [7] [3] [22] [41] [5] (replicate 20 name) [1] [0] [1]) 1 (replicate 20 7).

Definition loop_pack (base : Z) : list Z := replicate 12 0 ++ [118] ++ replicate 20 base ++ [3; 4; 144; 3; 1; 100] ++ replicate 20 0.

Definition loop_bucket (key : string) : option (list Z) :=
  AMap.lookup key [("a.pack"%string, loop_pack 2); ("a.idx"%string, loop_idx_file 1);
    ("b.pack"%string, loop_pack 1); ("b.idx"%string, loop_idx_file 2)].

(** Two reference deltas on each other.  The check for a cycle of the read is not
    reached: the second read of the first object waits for the first one, which waits
    for it. *)
Example reference_cycle_waits :
  (readObject loop_bucket Some (fun _ => Some [loop_row "a.pack"; loop_row "b.pack"]) "r" 3 (bytesToHex (replicate 20 1))
    (new_reader emptyCache)).1 = inl AwaitsItself.
Proof. vm_compute. reflexivity. Qed.


Lemma new_reader_ok bucket inflate getActivePackCatalog repoId packs : getActivePackCatalog 0%nat = Some packs ->
  reader_ok bucket inflate getActivePackCatalog repoId packs (new_reader emptyCache).
Proof. intros H. split; cbn; [done | done | by intros ? ? ?%lookup_empty_Some | done | by intros ? ? ?%lookup_empty_Some]. Qed.

Lemma toy_sources : sources demo_bucket [toy_row] = [demo_source].
Proof. vm_compute. reflexivity. Qed.

