(* ===== verification/PayloadCache.v ===== *)
(** * The payload cache of delta resolution

    [git/pack/indexer/resolve/payloadCache.ts]: decoded bases are kept in a
    byte-bounded cache whose recency list is doubly linked through two integer
    arrays indexed by the pack entry.  [Module Spec] is the same cache as a list of
    entries, oldest first; [payload_cache_refines] is the refinement. *)
From S2P Require Import Prelude PackEntry GitObjects.

(** ** Definitions *)

Definition LIST_END : Z := -1.

Record CacheEntry := mkEntry { ce_type : GitObjectType; ce_payload : list Z }.

Definition encodeType (type : GitObjectType) : Z :=
  match type with ObjCommit => 1 | ObjTree => 2 | ObjBlob => 3 | ObjTag => 4 end.

(** [None]: the code throws. *)
Definition decodeType (typeCode : Z) : option GitObjectType :=
  if typeCode =? 1 then Some ObjCommit
  else if typeCode =? 2 then Some ObjTree
  else if typeCode =? 3 then Some ObjBlob
  else if typeCode =? 4 then Some ObjTag
  else None.

(** The JavaScript array of payloads is a map: writing extends it, [undefined] is
    absence.  The typed arrays are lists: a write outside them has no effect. *)
Record PayloadLRU := mkLRU {
  payloads : gmap nat (list Z);
  typeCodes : list Z;
  present : list Z;
  prev : list Z;
  next : list Z;
  totalBytes : Z;
  budget : Z;
  cachedEntries : Z;
  lru_head : Z;
  lru_tail : Z;
  deadlinesArr : option (list Z);
  currentOffset : Z }.

Definition new_lru (budget : Z) (capacity : nat) : PayloadLRU :=
  mkLRU ∅ (replicate capacity 0) (replicate capacity 0) (replicate capacity LIST_END)
    (replicate capacity LIST_END) 0 budget 0 LIST_END LIST_END None 0.

Definition setDeadlines (deadlines : list Z) (c : PayloadLRU) : PayloadLRU :=
  mkLRU (payloads c) (typeCodes c) (present c) (prev c) (next c) (totalBytes c) (budget c)
    (cachedEntries c) (lru_head c) (lru_tail c) (Some deadlines) (currentOffset c).

Definition setCurrentOffset (offset : Z) (c : PayloadLRU) : PayloadLRU :=
  mkLRU (payloads c) (typeCodes c) (present c) (prev c) (next c) (totalBytes c) (budget c)
    (cachedEntries c) (lru_head c) (lru_tail c) (deadlinesArr c) offset.

Definition with_links (prev' next' : list Z) (head' tail' : Z) (c : PayloadLRU) : PayloadLRU :=
  mkLRU (payloads c) (typeCodes c) (present c) prev' next' (totalBytes c) (budget c)
    (cachedEntries c) head' tail' (deadlinesArr c) (currentOffset c).

(** A link read at an entry of the cache. *)
Definition link (l : list Z) (i : nat) : Z := default LIST_END (l !! i).

Definition set_link (i v : Z) (l : list Z) : list Z :=
  if i =? LIST_END then l else <[Z.to_nat i := v]> l.

Definition appendTail (index : nat) (c : PayloadLRU) : PayloadLRU :=
  let prev' := <[index := lru_tail c]> (prev c) in
  let next' := <[index := LIST_END]> (next c) in
  if negb (lru_tail c =? LIST_END)
  then with_links prev' (<[Z.to_nat (lru_tail c) := Z.of_nat index]> next') (lru_head c) (Z.of_nat index) c
  else with_links prev' next' (Z.of_nat index) (Z.of_nat index) c.

Definition detach (index : nat) (c : PayloadLRU) : PayloadLRU :=
  let prevIndex := link (prev c) index in
  let nextIndex := link (next c) index in
  let next' := set_link prevIndex nextIndex (next c) in
  let head' := if prevIndex =? LIST_END then nextIndex else lru_head c in
  let prev' := set_link nextIndex prevIndex (prev c) in
  let tail' := if nextIndex =? LIST_END then prevIndex else lru_tail c in
  with_links (<[index := LIST_END]> prev') (<[index := LIST_END]> next') head' tail' c.

Definition lru_touch (index : nat) (c : PayloadLRU) : PayloadLRU :=
  if lru_tail c =? Z.of_nat index then c else appendTail index (detach index c).

Definition is_present (index : nat) (c : PayloadLRU) : bool := negb (default 0 (present c !! index) =? 0).

Definition remove (index : nat) (c : PayloadLRU) : PayloadLRU :=
  if negb (is_present index c) then c else
  let d := detach index c in
  mkLRU (delete index (payloads d)) (<[index := 0]> (typeCodes d)) (<[index := 0]> (present d))
    (prev d) (next d)
    (match payloads c !! index with Some p => totalBytes d - Z.of_nat (length p) | None => totalBytes d end)
    (budget d) (cachedEntries d - 1) (lru_head d) (lru_tail d) (deadlinesArr d) (currentOffset d).

Definition expired (deadlines : option (list Z)) (offset : Z) (index : nat) : bool :=
  match deadlines with
  | None => 0 <=? offset
  | Some l => match l !! index with Some d => d <=? offset | None => false end
  end.

(** The walk along the list; out of fuel is told from a candidate by [None]. *)
Fixpoint walk (fuel : nat) (c : PayloadLRU) (candidate : Z) : option Z :=
  match fuel with
  | O => None
  | S fuel =>
    if candidate =? LIST_END then Some (lru_head c)
    else if expired (deadlinesArr c) (currentOffset c) (Z.to_nat candidate) then Some candidate
    else walk fuel c (link (next c) (Z.to_nat candidate))
  end.

Definition findEvictionCandidate (c : PayloadLRU) : Z :=
  default LIST_END (walk (S (length (next c))) c (lru_head c)).

Fixpoint evict_loop (fuel : nat) (c : PayloadLRU) : PayloadLRU :=
  match fuel with
  | O => c
  | S fuel =>
    if (budget c <? totalBytes c) && (1 <? cachedEntries c) then
      let candidate := findEvictionCandidate c in
      if candidate =? LIST_END then c else evict_loop fuel (remove (Z.to_nat candidate) c)
    else c
  end.

(** Every turn removes an entry. *)
Definition evict_lru (c : PayloadLRU) : PayloadLRU := evict_loop (Z.to_nat (cachedEntries c)) c.

(** [None]: the stored type code is none of the four and [decodeType] throws. *)
Definition lru_get (index : nat) (c : PayloadLRU) : option (option CacheEntry * PayloadLRU) :=
  if negb (is_present index c) then Some (None, c) else
  match payloads c !! index with
  | None => Some (None, c)
  | Some payload =>
    let c' := lru_touch index c in
    t ← decodeType (default 0 (typeCodes c' !! index));
    Some (Some (mkEntry t payload), c')
  end.

Definition lru_set (index : nat) (entry : CacheEntry) (c : PayloadLRU) : PayloadLRU :=
  let c := if is_present index c then remove index c else c in
  if budget c <? Z.of_nat (length (ce_payload entry)) then c else
  evict_lru (appendTail index
    (mkLRU (<[index := ce_payload entry]> (payloads c)) (<[index := encodeType (ce_type entry)]> (typeCodes c))
       (<[index := 1]> (present c)) (prev c) (next c)
       (totalBytes c + Z.of_nat (length (ce_payload entry))) (budget c) (cachedEntries c + 1)
       (lru_head c) (lru_tail c) (deadlinesArr c) (currentOffset c))).

(** The calls a resolver makes, with the answers of [get]. *)
Inductive LruOp :=
| OpGet (index : nat)
| OpSet (index : nat) (entry : CacheEntry)
| OpDeadlines (deadlines : list Z)
| OpOffset (offset : Z).

Definition lru_step (op : LruOp) (c : PayloadLRU) : option (option CacheEntry * PayloadLRU) :=
  match op with
  | OpGet i => lru_get i c
  | OpSet i e => Some (None, lru_set i e c)
  | OpDeadlines l => Some (None, setDeadlines l c)
  | OpOffset o => Some (None, setCurrentOffset o c)
  end.

Fixpoint lru_run (ops : list LruOp) (c : PayloadLRU) : option (list (option CacheEntry) * PayloadLRU) :=
  match ops with
  | [] => Some ([], c)
  | op :: r => '(a, c1) ← lru_step op c; '(l, c2) ← lru_run r c1; Some (a :: l, c2)
  end.

(** ** The specification *)

Module Spec.

(** The entries from the oldest to the newest. *)
Record Cache := mkCache {
  entries : list (nat * CacheEntry);
  limit : Z;
  deadlines : option (list Z);
  offset : Z }.

Definition size (x : nat * CacheEntry) : Z := Z.of_nat (length (ce_payload x.2)).

Fixpoint total (l : list (nat * CacheEntry)) : Z :=
  match l with [] => 0 | x :: r => size x + total r end.

Definition find (index : nat) (l : list (nat * CacheEntry)) : option CacheEntry :=
  snd <$> js_find (fun x => (x.1 =? index)%nat) l.

Definition without (index : nat) (l : list (nat * CacheEntry)) : list (nat * CacheEntry) :=
  js_filter (fun x => negb (x.1 =? index)%nat) l.

(** The oldest entry past its deadline, else the oldest entry. *)
Definition victim (d : option (list Z)) (o : Z) (l : list (nat * CacheEntry)) : option nat :=
  fst <$> from_option Some (head l) (js_find (fun x => expired d o x.1) l).

Fixpoint evict (n : nat) (lim : Z) (d : option (list Z)) (o : Z) (l : list (nat * CacheEntry))
  : list (nat * CacheEntry) :=
  match n with
  | O => l
  | S n =>
    if (lim <? total l) && (1 <? length l)%nat then
      match victim d o l with Some i => evict n lim d o (without i l) | None => l end
    else l
  end.

Definition get (index : nat) (s : Cache) : option CacheEntry * Cache :=
  match find index (entries s) with
  | Some e => (Some e, mkCache (without index (entries s) ++ [(index, e)]) (limit s) (deadlines s) (offset s))
  | None => (None, s)
  end.

Definition set (index : nat) (e : CacheEntry) (s : Cache) : Cache :=
  let rest := without index (entries s) in
  mkCache
    (if limit s <? size (index, e) then rest
     else evict (S (length rest)) (limit s) (deadlines s) (offset s) (rest ++ [(index, e)]))
    (limit s) (deadlines s) (offset s).

Definition step (op : LruOp) (s : Cache) : option CacheEntry * Cache :=
  match op with
  | OpGet i => get i s
  | OpSet i e => (None, set i e s)
  | OpDeadlines l => (None, mkCache (entries s) (limit s) (Some l) (offset s))
  | OpOffset o => (None, mkCache (entries s) (limit s) (deadlines s) o)
  end.

Fixpoint run (ops : list LruOp) (s : Cache) : list (option CacheEntry) * Cache :=
  match ops with
  | [] => ([], s)
  | op :: r => let '(a, s1) := step op s in let '(l, s2) := run r s1 in (a :: l, s2)
  end.

Definition empty (lim : Z) : Cache := mkCache [] lim None 0.

(** The payload an index was last given. *)
Fixpoint last_set (index : nat) (ops : list LruOp) : option CacheEntry :=
  match ops with
  | [] => None
  | op :: r =>
    match last_set index r with
    | Some e => Some e
    | None => match op with OpSet i e => if (i =? index)%nat then Some e else None | _ => None end
    end
  end.

End Spec.

Definition op_within (capacity : nat) (op : LruOp) : Prop :=
  match op with OpGet i | OpSet i _ => (i < capacity)%nat | _ => True end.

Definition op_within_b (capacity : nat) (op : LruOp) : bool :=
  match op with OpGet i | OpSet i _ => (i <? capacity)%nat | _ => true end.

(** ** The linked list *)

Definition first_of (l : list nat) (e : Z) : Z := match l with [] => e | x :: _ => Z.of_nat x end.

Definition last_of (b : Z) (l : list nat) : Z := match list.last l with Some x => Z.of_nat x | None => b end.

(** The links between [b] and [e] spell the indices [l]. *)
Fixpoint chain (prev next : list Z) (b : Z) (l : list nat) (e : Z) : Prop :=
  match l with
  | [] => True
  | x :: r => prev !! x = Some b /\ next !! x = Some (first_of r e) /\ chain prev next (Z.of_nat x) r e
  end.

Lemma last_of_app b l r : last_of b (l ++ r) = last_of (last_of b l) r.
Proof. unfold last_of; rewrite last_app; by destruct (list.last r). Qed.

Lemma last_of_cons b x r : last_of b (x :: r) = last_of (Z.of_nat x) r.
Proof. apply (last_of_app b [x] r). Qed.

Lemma last_of_cons_nat b x r : exists n, last_of b (x :: r) = Z.of_nat n.
Proof. rewrite last_of_cons. unfold last_of. case_match; eauto. Qed.

Lemma chain_app prev next b l r e :
  chain prev next b (l ++ r) e <->
  chain prev next b l (first_of r e) /\ chain prev next (last_of b l) r e.
Proof.
  revert b; induction l as [|x l IH]; intros b; cbn; [tauto|].
  rewrite IH, last_of_cons. destruct l; cbn; tauto.
Qed.

(** A chain depends only on the links of its indices. *)
Lemma chain_ext prev next prev' next' b l e :
  (forall i, i ∈ l -> prev' !! i = prev !! i /\ next' !! i = next !! i) ->
  chain prev next b l e -> chain prev' next' b l e.
Proof.
  revert b; induction l as [|x l IH]; intros b H; [done|]; cbn; intros (Hp & Hn & Hc).
  destruct (H x ltac:(set_solver)) as [-> ->]. split_and!; [done..|].
  apply IH; [set_solver|done].
Qed.

Lemma first_of_elem l e : first_of l e = e \/ exists x, x ∈ l /\ first_of l e = Z.of_nat x.
Proof. destruct l as [|x l]; [by left|right; exists x; cbn; split; [left|done]]. Qed.

Lemma last_of_elem b l : last_of b l = b \/ exists x, x ∈ l /\ last_of b l = Z.of_nat x.
Proof.
  unfold last_of; destruct (list.last l) as [x|] eqn:E; [|by left].
  right; exists x; split; [by apply last_Some_elem_of|done].
Qed.

(** The ends of a list of indices, as positions of the arrays. *)
Lemma first_of_ge l : LIST_END <= first_of l LIST_END.
Proof. destruct l; cbn; unfold LIST_END; lia. Qed.

Lemma last_of_ge l : LIST_END <= last_of LIST_END l.
Proof. unfold last_of, LIST_END; case_match; lia. Qed.

Lemma set_link_ne k v l i : LIST_END <= k -> k <> Z.of_nat i -> set_link k v l !! i = l !! i.
Proof.
  unfold set_link, LIST_END; intros; case_match; [done|].
  rewrite list_lookup_insert_ne by lia. done.
Qed.

Lemma set_link_eq i v l : (i < length l)%nat -> set_link (Z.of_nat i) v l !! i = Some v.
Proof.
  unfold set_link, LIST_END; intros; case_match; [lia|].
  rewrite Nat2Z.id. by apply list_lookup_insert_eq.
Qed.

Lemma length_set_link k v l : length (set_link k v l) = length l.
Proof. unfold set_link; case_match; [done|apply length_insert]. Qed.

Lemma first_of_not_in l i : i ∉ l -> first_of l LIST_END <> Z.of_nat i.
Proof. intros; destruct l; cbn; [unfold LIST_END; lia|set_solver by lia]. Qed.

Lemma last_of_not_in l i : i ∉ l -> last_of LIST_END l <> Z.of_nat i.
Proof.
  intros H; destruct (last_of_elem LIST_END l) as [->|(x & Hx & ->)]; [unfold LIST_END; lia|].
  intros E; apply Nat2Z.inj in E as ->; done.
Qed.

Lemma chain_set_first prev next b b' l e :
  chain prev next b l e -> NoDup l -> (forall x, x ∈ l -> (x < length prev)%nat) ->
  chain (set_link (first_of l LIST_END) b' prev) next b' l e.
Proof.
  destruct l as [|x l]; [done|]; cbn; intros (Hp & Hn & Hc) [Hx Hd]%NoDup_cons Hl.
  split_and!; [apply set_link_eq, Hl; left|done|].
  refine (chain_ext _ _ _ _ _ _ _ _ Hc). intros i Hi; split; [|done].
  apply set_link_ne; [unfold LIST_END; lia|]. intros ?; assert (x = i) by lia; by subst.
Qed.

Lemma chain_set_last prev next b l e e' :
  chain prev next b l e -> NoDup l -> (forall x, x ∈ l -> (x < length next)%nat) ->
  chain prev (set_link (last_of LIST_END l) e' next) b l e'.
Proof.
  destruct l as [|x l _] using rev_ind; [done|].
  rewrite last_of_app. change (last_of _ [x]) with (Z.of_nat x).
  rewrite !chain_app; cbn. intros (Hc & Hp & Hn & _) (Hd & Hx & _)%NoDup_app Hl.
  split_and!; [|done|apply set_link_eq, Hl; set_solver|done].
  refine (chain_ext _ _ _ _ _ _ _ _ Hc). intros i Hi; split; [done|].
  apply set_link_ne; [unfold LIST_END; lia|]. intros ?; assert (x = i) by lia; set_solver.
Qed.

Record linked (capacity : nat) (c : PayloadLRU) (l : list nat) : Prop := {
  lk_nodup : NoDup l;
  lk_within : forall x, x ∈ l -> (x < capacity)%nat;
  lk_prev : length (prev c) = capacity;
  lk_next : length (next c) = capacity;
  lk_chain : chain (prev c) (next c) LIST_END l LIST_END;
  lk_head : lru_head c = first_of l LIST_END;
  lk_tail : lru_tail c = last_of LIST_END l }.

Lemma appendTail_linked capacity c l i :
  linked capacity c l -> i ∉ l -> (i < capacity)%nat -> linked capacity (appendTail i c) (l ++ [i]).
Proof.
  intros [Hd Hw Hp Hn Hc Hh Ht] Hi Hlt.
  assert (appendTail i c = with_links (<[i := lru_tail c]> (prev c))
      (set_link (lru_tail c) (Z.of_nat i) (<[i := LIST_END]> (next c)))
      (if lru_tail c =? LIST_END then Z.of_nat i else lru_head c) (Z.of_nat i) c) as ->.
  { unfold appendTail, set_link. by destruct (lru_tail c =? LIST_END). }
  split; cbn [prev next lru_head lru_tail with_links].
  - apply NoDup_app; split_and!; [done|set_solver|apply NoDup_singleton].
  - intros x [?| ->%list_elem_of_singleton]%elem_of_app; eauto.
  - by rewrite length_insert.
  - by rewrite length_set_link, length_insert.
  - rewrite Ht. apply chain_app; split.
    + apply chain_set_last with (e := LIST_END); [|done|rewrite length_insert; intros; rewrite Hn; eauto].
      refine (chain_ext _ _ _ _ _ _ _ _ Hc). intros x Hx.
      rewrite !list_lookup_insert_ne by set_solver. done.
    + cbn. rewrite set_link_ne, !list_lookup_insert_eq by (try apply last_of_ge; try apply last_of_not_in; auto; lia).
      done.
  - rewrite Hh, Ht. destruct l as [|x l]; [done|].
    destruct (last_of_cons_nat LIST_END x l) as [n ->].
    destruct (Z.eqb_spec (Z.of_nat n) LIST_END); unfold LIST_END in *; [lia|done].
  - by rewrite last_of_app.
Qed.

Lemma detach_linked capacity c l1 i l2 :
  linked capacity c (l1 ++ i :: l2) -> linked capacity (detach i c) (l1 ++ l2).
Proof.
  intros [Hd Hw Hp Hn Hc Hh Ht].
  apply chain_app in Hc as (Hc1 & Hpi & Hni & Hc2).
  apply NoDup_app in Hd as (Hd1 & Hx & [Hi Hd2]%NoDup_cons).
  assert (i ∉ l1) as Hi1 by set_solver.
  unfold detach, link; rewrite Hpi, Hni; cbn [from_option]; unfold id.
  split; cbn [prev next lru_head lru_tail with_links].
  - apply NoDup_app; set_solver.
  - intros x; rewrite elem_of_app; intros; apply Hw; set_solver.
  - by rewrite length_insert, length_set_link.
  - by rewrite length_insert, length_set_link.
  - apply chain_app; split.
    + pose proof (chain_set_last _ _ _ _ _ (first_of l2 LIST_END) Hc1 Hd1) as H.
      refine (chain_ext _ _ _ _ _ _ _ _ (H _)); [|intros; rewrite Hn; apply Hw; set_solver].
      intros x Hx1. rewrite !list_lookup_insert_ne by set_solver. split; [|done].
      apply set_link_ne; [apply first_of_ge|apply first_of_not_in; set_solver].
    + pose proof (chain_set_first _ _ _ (last_of LIST_END l1) _ _ Hc2 Hd2) as H.
      refine (chain_ext _ _ _ _ _ _ _ _ (H _)); [|intros; rewrite Hp; apply Hw; set_solver].
      intros x Hx2. rewrite !list_lookup_insert_ne by set_solver. split; [done|].
      apply set_link_ne; [apply last_of_ge|apply last_of_not_in; set_solver].
  - rewrite Hh. destruct l1 as [|y l1]; [done|].
    destruct (last_of_cons_nat LIST_END y l1) as [n ->].
    destruct (Z.eqb_spec (Z.of_nat n) LIST_END); unfold LIST_END in *; [lia|done].
  - rewrite Ht, !last_of_app, last_of_cons. destruct l2 as [|y l2]; [done|].
    cbn [first_of]. rewrite !last_of_cons.
    destruct (Z.eqb_spec (Z.of_nat y) LIST_END); unfold LIST_END in *; [lia|done].
Qed.

(** ** Association lists of the specification *)

Lemma find_None index l : Spec.find index l = None <-> index ∉ l.*1.
Proof.
  unfold Spec.find; induction l as [|[i e] l IH]; cbn; [set_solver|].
  destruct (Nat.eqb_spec i index) as [->|Hne]; cbn; [set_solver|].
  rewrite IH. set_solver.
Qed.

Lemma find_app index l r :
  Spec.find index (l ++ r) = match Spec.find index l with Some e => Some e | None => Spec.find index r end.
Proof.
  unfold Spec.find; induction l as [|[i e] l IH]; cbn; [done|]. by destruct (i =? index)%nat.
Qed.

Lemma find_one index e : Spec.find index [(index, e)] = Some e.
Proof. unfold Spec.find; cbn. by rewrite Nat.eqb_refl. Qed.

Lemma find_one_ne index i e : i <> index -> Spec.find index [(i, e)] = None.
Proof. intros; apply find_None. set_solver. Qed.

Lemma find_split index e l :
  Spec.find index l = Some e -> exists l1 l2, l = l1 ++ (index, e) :: l2 /\ index ∉ l1.*1.
Proof.
  unfold Spec.find; induction l as [|[i e'] l IH]; cbn; [done|].
  destruct (Nat.eqb_spec i index) as [->|Hne]; cbn.
  - intros [= ->]. exists [], l; set_solver.
  - intros (l1 & l2 & -> & Hl)%IH. exists ((i, e') :: l1), l2; set_solver.
Qed.

Lemma find_cons index i e l :
  Spec.find index ((i, e) :: l) = if (i =? index)%nat then Some e else Spec.find index l.
Proof. unfold Spec.find, js_find; cbn. by destruct (i =? index)%nat. Qed.

Lemma without_cons index i e l :
  Spec.without index ((i, e) :: l)
  = if (i =? index)%nat then Spec.without index l else (i, e) :: Spec.without index l.
Proof. unfold Spec.without, js_filter; cbn. by destruct (i =? index)%nat. Qed.

Lemma without_notin index l : index ∉ l.*1 -> Spec.without index l = l.
Proof.
  induction l as [|[i e] l IH]; [done|]. rewrite without_cons; cbn; intros H.
  destruct (Nat.eqb_spec i index) as [->|]; [set_solver|]. rewrite IH; [done|set_solver].
Qed.

Lemma without_app index l r : Spec.without index (l ++ r) = Spec.without index l ++ Spec.without index r.
Proof. apply List.filter_app. Qed.

Lemma without_split index e l1 l2 :
  index ∉ l1.*1 -> index ∉ l2.*1 -> Spec.without index (l1 ++ (index, e) :: l2) = l1 ++ l2.
Proof.
  intros. rewrite without_app, (without_notin _ l1) by done. f_equal.
  rewrite without_cons, Nat.eqb_refl. by apply without_notin.
Qed.

Lemma find_without index i l :
  Spec.find index (Spec.without i l) = if (i =? index)%nat then None else Spec.find index l.
Proof.
  induction l as [|[j e] l IH]; [by destruct (i =? index)%nat|].
  rewrite without_cons, find_cons.
  destruct (Nat.eqb_spec j i) as [E|]; [|rewrite find_cons]; rewrite IH;
    destruct (Nat.eqb_spec i index), (Nat.eqb_spec j index); congruence || lia.
Qed.

Lemma entries_total_app l r : Spec.total (l ++ r) = Spec.total l + Spec.total r.
Proof. induction l; cbn; lia. Qed.

(** The entry an index names, taken out of a list that names each index once. *)
Lemma find_take_out index e l :
  NoDup l.*1 -> Spec.find index l = Some e ->
  exists l1 l2, l = l1 ++ (index, e) :: l2 /\ Spec.without index l = l1 ++ l2 /\
    l.*1 = l1.*1 ++ index :: l2.*1 /\ index ∉ l1.*1 ++ l2.*1.
Proof.
  intros Hd (l1 & l2 & -> & H1)%find_split. rewrite fmap_app in *; cbn in *.
  apply NoDup_app in Hd as (_ & _ & [H2 _]%NoDup_cons).
  exists l1, l2; split_and!; [done|by apply without_split|done|]. rewrite elem_of_app; tauto.
Qed.

Lemma length_without index e l :
  NoDup l.*1 -> Spec.find index l = Some e -> S (length (Spec.without index l)) = length l.
Proof.
  intros Hd (l1 & l2 & -> & -> & _)%find_take_out; [|done]. rewrite !length_app; cbn; lia.
Qed.

Lemma without_NoDup index l : NoDup l.*1 -> NoDup (Spec.without index l).*1.
Proof.
  intros Hd; destruct (Spec.find index l) as [e|] eqn:E.
  - destruct (find_take_out _ _ _ Hd E) as (l1 & l2 & -> & -> & Hk & Hn).
    rewrite Hk in Hd. rewrite fmap_app.
    apply NoDup_app in Hd as (? & ? & [? ?]%NoDup_cons). apply NoDup_app; set_solver.
  - apply find_None in E. by rewrite without_notin.
Qed.

(** ** The contents *)

Record rep (capacity : nat) (c : PayloadLRU) (l : list (nat * CacheEntry)) : Prop := {
  rp_linked : linked capacity c l.*1;
  rp_types : length (typeCodes c) = capacity;
  rp_flags : length (present c) = capacity;
  rp_present : forall i, (i < capacity)%nat -> is_present i c = bool_decide (is_Some (Spec.find i l));
  rp_content : forall i e, Spec.find i l = Some e ->
    payloads c !! i = Some (ce_payload e) /\ typeCodes c !! i = Some (encodeType (ce_type e));
  rp_count : cachedEntries c = Z.of_nat (length l);
  rp_total : totalBytes c = Spec.total l }.

Record represents (capacity : nat) (c : PayloadLRU) (s : Spec.Cache) : Prop := {
  rs_rep : rep capacity c (Spec.entries s);
  rs_budget : budget c = Spec.limit s;
  rs_deadlines : deadlinesArr c = Spec.deadlines s;
  rs_offset : currentOffset c = Spec.offset s }.

(** What [detach], [appendTail] and [remove] leave alone. *)
Definition params (c : PayloadLRU) := (budget c, deadlinesArr c, currentOffset c).

Lemma appendTail_fields i c :
  payloads (appendTail i c) = payloads c /\ typeCodes (appendTail i c) = typeCodes c /\
  present (appendTail i c) = present c /\ totalBytes (appendTail i c) = totalBytes c /\
  cachedEntries (appendTail i c) = cachedEntries c /\ params (appendTail i c) = params c.
Proof. unfold appendTail. by destruct (negb _). Qed.

Lemma rep_key_within capacity c l i e : rep capacity c l -> Spec.find i l = Some e -> (i < capacity)%nat.
Proof.
  intros H E. apply (lk_within _ _ _ (rp_linked _ _ _ H)).
  destruct (decide (i ∈ l.*1)) as [|N]; [done|]. apply find_None in N; congruence.
Qed.

Lemma detach_rep capacity c l i e :
  rep capacity c l -> Spec.find i l = Some e -> linked capacity (detach i c) (Spec.without i l).*1.
Proof.
  intros [Hk _ _ _ _ _ _] E.
  destruct (find_take_out _ _ _ (lk_nodup _ _ _ Hk) E) as (l1 & l2 & _ & -> & Hs & _).
  rewrite Hs in Hk. rewrite fmap_app. by apply detach_linked.
Qed.

Lemma remove_rep capacity c l i e :
  rep capacity c l -> Spec.find i l = Some e ->
  rep capacity (remove i c) (Spec.without i l) /\ params (remove i c) = params c.
Proof.
  intros H E. pose proof (detach_rep _ _ _ _ _ H E) as [Dd Dw Dp Dn Dc Dh Dt].
  pose proof (rep_key_within _ _ _ _ _ H E) as Hi.
  destruct H as [Hk Ht Hf Hp Hc Hn Hb]. unfold remove.
  rewrite Hp, bool_decide_true by eauto; cbn [negb]. destruct (Hc _ _ E) as [Pi _]. rewrite Pi.
  split; [|done]. split; cbn.
  - by split.
  - by rewrite length_insert.
  - by rewrite length_insert.
  - intros j Hj. rewrite find_without. unfold is_present; cbn.
    destruct (Nat.eqb_spec i j) as [->|].
    + by rewrite list_lookup_insert_eq by lia.
    + rewrite list_lookup_insert_ne by done. by apply Hp.
  - intros j e'. rewrite find_without. destruct (Nat.eqb_spec i j) as [->|]; [done|].
    intros Ej. rewrite lookup_delete_ne, list_lookup_insert_ne by done. by apply Hc.
  - rewrite Hn, <- (length_without i e l) by (done || apply Hk). lia.
  - destruct (find_take_out _ _ _ (lk_nodup _ _ _ Hk) E) as (l1 & l2 & -> & -> & _).
    rewrite Hb, !entries_total_app; cbn; unfold Spec.size; cbn; lia.
Qed.

(** ** Eviction *)

Lemma params_eq c c' :
  params c' = params c ->
  budget c' = budget c /\ deadlinesArr c' = deadlinesArr c /\ currentOffset c' = currentOffset c.
Proof. unfold params; naive_solver. Qed.

Lemma keys_bounded capacity c l : linked capacity c l -> (length l <= capacity)%nat.
Proof.
  intros [Hd Hw _ _ _ _ _]. rewrite <- (length_seq capacity 0).
  apply submseteq_length, NoDup_submseteq; [done|]. intros x Hx. apply elem_of_seq. specialize (Hw _ Hx). lia.
Qed.

(** From any place of the list the walk finds the first expired entry, or wraps to
    the head. *)
Lemma walk_spec capacity c (l1 l2 : list (nat * CacheEntry)) fuel :
  linked capacity c (l1 ++ l2).*1 -> (length l2 < fuel)%nat ->
  walk fuel c (first_of l2.*1 LIST_END)
  = Some (from_option (fun x => Z.of_nat x.1) (lru_head c)
            (js_find (fun x => expired (deadlinesArr c) (currentOffset c) x.1) l2)).
Proof.
  revert l1 fuel; induction l2 as [|[i e] l2 IH]; intros l1 [|fuel] H Hf; cbn in Hf; try lia; [done|].
  cbn [walk fmap list_fmap fst first_of]. destruct (Z.eqb_spec (Z.of_nat i) LIST_END) as [E|_].
  { unfold LIST_END in E; lia. }
  rewrite Nat2Z.id. unfold js_find; cbn. destruct (expired _ _ _); [done|].
  assert (link (next c) i = first_of l2.*1 LIST_END) as ->.
  { destruct H as [_ _ _ _ Hc _ _]. rewrite fmap_app, chain_app in Hc. cbn in Hc.
    unfold link. by destruct Hc as (_ & _ & -> & _). }
  apply (IH (l1 ++ [(i, e)])); [by rewrite <- app_assoc|lia].
Qed.

Lemma js_find_elem {A} (p : A -> bool) l x : js_find p l = Some x -> x ∈ l /\ p x = true.
Proof. intros H; apply List.find_some in H as [H ?]. split; [by apply list_elem_of_In|done]. Qed.

Lemma candidate_spec capacity c l :
  rep capacity c l -> l <> [] ->
  exists i e, Spec.victim (deadlinesArr c) (currentOffset c) l = Some i /\ Spec.find i l = Some e /\
    findEvictionCandidate c = Z.of_nat i.
Proof.
  intros [Hk _ _ _ _ _ _] Hl. pose proof (keys_bounded _ _ _ Hk) as Hb. rewrite length_fmap in Hb.
  pose proof Hk as [Hd _ _ Hn _ Hh _].
  unfold findEvictionCandidate. rewrite Hn, Hh, (walk_spec capacity c [] l), Hh by (done || lia).
  assert (forall x, x ∈ l -> exists e, Spec.find x.1 l = Some e) as Hin.
  { intros x Hx. destruct (Spec.find x.1 l) eqn:E; [eauto|]. apply find_None in E.
    by apply (list_elem_of_fmap_2 fst) in Hx. }
  unfold Spec.victim. destruct (js_find _ l) as [x|] eqn:E; cbn.
  - apply js_find_elem in E as [E _]. destruct (Hin _ E) as [e He]. eauto.
  - destruct l as [|x l]; [done|]. cbn. destruct (Hin x ltac:(left)) as [e He]. eauto.
Qed.

Lemma evict_loop_spec capacity n c l :
  rep capacity c l ->
  rep capacity (evict_loop n c) (Spec.evict n (budget c) (deadlinesArr c) (currentOffset c) l) /\
  params (evict_loop n c) = params c.
Proof.
  revert c l; induction n as [|n IH]; intros c l H; [done|]; cbn [evict_loop Spec.evict].
  rewrite (rp_count _ _ _ H), (rp_total _ _ _ H).
  replace (1 <? Z.of_nat (length l)) with (1 <? length l)%nat
    by (apply Bool.eq_iff_eq_true; rewrite Nat.ltb_lt, Z.ltb_lt; lia).
  destruct ((budget c <? Spec.total l) && (1 <? length l)%nat) eqn:E; [|done].
  assert (l <> []) as Hl by (intros ->; by rewrite andb_false_r in E).
  destruct (candidate_spec _ _ _ H Hl) as (i & e & -> & He & ->).
  destruct (Z.eqb_spec (Z.of_nat i) LIST_END) as [?|_]; [unfold LIST_END in *; lia|].
  rewrite Nat2Z.id. destruct (remove_rep _ _ _ _ _ H He) as [Hr Hp].
  destruct (IH _ _ Hr) as [IHr IHp]. rewrite Hp in IHp.
  apply params_eq in Hp as (E1 & E2 & E3). rewrite E1, E2, E3 in IHr. done.
Qed.

(** ** The operations *)

Lemma append_rep capacity c l i e :
  linked capacity c l.*1 -> i ∉ l.*1 -> (i < capacity)%nat ->
  length (typeCodes c) = capacity -> length (present c) = capacity ->
  (forall j, (j < capacity)%nat -> is_present j c = bool_decide (is_Some (Spec.find j (l ++ [(i, e)])))) ->
  (forall j e', Spec.find j (l ++ [(i, e)]) = Some e' ->
    payloads c !! j = Some (ce_payload e') /\ typeCodes c !! j = Some (encodeType (ce_type e'))) ->
  cachedEntries c = Z.of_nat (length (l ++ [(i, e)])) -> totalBytes c = Spec.total (l ++ [(i, e)]) ->
  rep capacity (appendTail i c) (l ++ [(i, e)]).
Proof.
  intros Hk Hi Hlt Ht Hf Hp Hc Hn Hb.
  destruct (appendTail_fields i c) as (Ep & Et & Ef & Eb & En & _).
  split; unfold is_present; rewrite ?Ep, ?Et, ?Ef, ?Eb, ?En; try done.
  rewrite fmap_app. by apply appendTail_linked.
Qed.

Lemma decode_encode t : decodeType (encodeType t) = Some t.
Proof. by destruct t. Qed.

Lemma find_without_app capacity c l i e :
  rep capacity c l -> Spec.find i l = Some e ->
  forall j, Spec.find j (Spec.without i l ++ [(i, e)]) = Spec.find j l.
Proof.
  intros H E j. rewrite find_app, find_without, find_cons.
  destruct (Nat.eqb_spec i j) as [->|]; [done|]. by destruct (Spec.find j l).
Qed.

Lemma last_of_keys (l : list (nat * CacheEntry)) i e :
  Spec.find i l = Some e -> NoDup l.*1 -> last_of LIST_END l.*1 = Z.of_nat i ->
  l = Spec.without i l ++ [(i, e)].
Proof.
  intros E Hd Hl. destruct (find_take_out _ _ _ Hd E) as (l1 & l2 & El & -> & Hk & Hn).
  destruct l2 as [|x l2 _] using rev_ind; [by rewrite app_nil_r|].
  rewrite El, fmap_app, last_of_app in Hl. cbn in Hl. rewrite last_of_cons, fmap_app, last_of_app in Hl.
  cbn in Hl. apply Nat2Z.inj in Hl. rewrite <- Hl, fmap_app in Hn. set_solver.
Qed.

Lemma touch_rep capacity c l i e :
  rep capacity c l -> Spec.find i l = Some e ->
  rep capacity (lru_touch i c) (Spec.without i l ++ [(i, e)]) /\ params (lru_touch i c) = params c.
Proof.
  intros H E. pose proof (rp_linked _ _ _ H) as Hk. unfold lru_touch.
  destruct (Z.eqb_spec (lru_tail c) (Z.of_nat i)) as [Et|Et].
  - rewrite (lk_tail _ _ _ Hk) in Et. rewrite <- (last_of_keys l i e) by (done || apply Hk). done.
  - pose proof (find_without_app _ _ _ _ _ H E) as Hf.
    pose proof (detach_rep _ _ _ _ _ H E) as Hd.
    destruct (find_take_out _ _ _ (lk_nodup _ _ _ Hk) E) as (l1 & l2 & El & Ew & _ & Hn).
    split; [|destruct (appendTail_fields i (detach i c)) as (_ & _ & _ & _ & _ & ->); done].
    destruct H as [_ Ht Hfl Hp Hc Hct Hb].
    apply append_rep; try done.
    + apply find_None. rewrite find_without, Nat.eqb_refl. done.
    + apply (lk_within _ _ _ Hk). rewrite El. set_solver.
    + intros j Hj. rewrite Hf. by apply Hp.
    + intros j e'. rewrite Hf. apply Hc.
    + change (cachedEntries (detach i c)) with (cachedEntries c).
      rewrite Hct, Ew, El, !length_app. cbn. lia.
    + change (totalBytes (detach i c)) with (totalBytes c).
      rewrite Hb, Ew, El, !entries_total_app. cbn. lia.
Qed.

Lemma get_represents capacity c s i :
  represents capacity c s -> (i < capacity)%nat ->
  exists c', lru_get i c = Some ((Spec.get i s).1, c') /\ represents capacity c' (Spec.get i s).2.
Proof.
  intros [H Hb Hd Ho] Hi. unfold lru_get, Spec.get. rewrite (rp_present _ _ _ H) by done.
  destruct (Spec.find i (Spec.entries s)) as [e|] eqn:E; cbn; [|eauto using Build_represents].
  destruct (touch_rep _ _ _ _ _ H E) as [Ht (E1 & E2 & E3)%params_eq].
  destruct (rp_content _ _ _ H _ _ E) as [-> _].
  assert (typeCodes (lru_touch i c) !! i = Some (encodeType (ce_type e))) as ->.
  { eapply rp_content; [done|]. by erewrite find_without_app. }
  cbn. unfold id; rewrite decode_encode; cbn. destruct e; cbn. eexists; split; [done|].
  split; cbn; congruence.
Qed.

Lemma set_represents capacity c s i e :
  represents capacity c s -> (i < capacity)%nat -> represents capacity (lru_set i e c) (Spec.set i e s).
Proof.
  intros [H Hb Hd Ho] Hi. unfold lru_set.
  set (c1 := if is_present i c then remove i c else c).
  assert (rep capacity c1 (Spec.without i (Spec.entries s)) /\ params c1 = params c) as [H1 Hp].
  { subst c1. rewrite (rp_present _ _ _ H) by done.
    destruct (Spec.find i (Spec.entries s)) eqn:E; [by eapply remove_rep|].
    rewrite without_notin by (by apply find_None). done. }
  clearbody c1. apply params_eq in Hp as (E1 & E2 & E3).
  unfold Spec.set, Spec.size; rewrite <- Hb, <- E1; cbn [snd].
  destruct (_ <? _); [split; cbn; congruence|].
  assert (Hn : i ∉ (Spec.without i (Spec.entries s)).*1).
  { apply find_None. by rewrite find_without, Nat.eqb_refl. }
  set (rest := Spec.without i (Spec.entries s)) in *.
  set (c2 := mkLRU _ _ _ _ _ _ _ _ _ _ _ _).
  assert (rep capacity (appendTail i c2) (rest ++ [(i, e)]) /\ params (appendTail i c2) = params c1) as [H2 Hp2].
  { destruct (appendTail_fields i c2) as (_ & _ & _ & _ & _ & Ep). split; [|done].
    destruct H1 as [Hk Ht Hf Hpr Hc Hct Hto].
    apply append_rep; subst c2; cbn; rewrite ?length_insert; try done.
    - by destruct Hk; split.
    - intros j Hj. rewrite find_app, find_cons. unfold is_present; cbn. destruct (Nat.eqb_spec i j) as [->|].
      + rewrite list_lookup_insert_eq by lia. by destruct (Spec.find j rest).
      + rewrite list_lookup_insert_ne by done. specialize (Hpr j Hj). unfold is_present in Hpr. rewrite Hpr.
        by destruct (Spec.find j rest).
    - intros j e'. rewrite find_app, find_cons. destruct (Nat.eqb_spec i j) as [<-|].
      + apply find_None in Hn; rewrite Hn. intros [= ->].
        rewrite lookup_insert_eq, list_lookup_insert_eq by lia. done.
      + destruct (Spec.find j rest) eqn:Ej; [|done]. intros [= <-].
        rewrite lookup_insert_ne, list_lookup_insert_ne by done. eauto.
    - rewrite Hct, length_app; cbn. lia.
    - rewrite Hto, entries_total_app; cbn. unfold Spec.size; cbn. lia. }
  apply params_eq in Hp2 as (F1 & F2 & F3).
  destruct (evict_loop_spec _ (S (length rest)) _ _ H2) as [H3 (G1 & G2 & G3)%params_eq].
  unfold evict_lru. rewrite (rp_count _ _ _ H2), Nat2Z.id, length_app, Nat.add_1_r.
  split; cbn [Spec.entries Spec.limit Spec.deadlines Spec.offset]; congruence.
Qed.

Lemma run_represents capacity ops : forall c s,
  Forall (op_within capacity) ops -> represents capacity c s ->
  exists c', lru_run ops c = Some ((Spec.run ops s).1, c') /\ represents capacity c' (Spec.run ops s).2.
Proof.
  induction ops as [|op ops IH]; intros c s Ho H; [cbn; eauto|].
  apply Forall_cons in Ho as [Hop Ho].
  assert (exists c1, lru_step op c = Some ((Spec.step op s).1, c1) /\ represents capacity c1 (Spec.step op s).2)
    as (c1 & E1 & H1).
  { destruct op as [i|i e|l|o]; cbn in *.
    - by apply get_represents.
    - eexists; split; [done|]. by apply set_represents.
    - eexists; split; [done|]. destruct H as [Hr ? ? ?]. split; [|done..]. by destruct Hr as [[] ? ? ? ? ? ?].
    - eexists; split; [done|]. destruct H as [Hr ? ? ?]. split; [|done..]. by destruct Hr as [[] ? ? ? ? ? ?]. }
  destruct (IH _ _ Ho H1) as (c2 & E2 & H2). cbn. rewrite E1; cbn. rewrite E2; cbn.
  destruct (Spec.step op s) as [a s1]; cbn in *. destruct (Spec.run ops s1) as [l s2]. eauto.
Qed.

Lemma new_represents lim capacity : represents capacity (new_lru lim capacity) (Spec.empty lim).
Proof.
  split; [|done..]. split; cbn; rewrite ?length_replicate; try done.
  - split; cbn; rewrite ?length_replicate; try done; [apply NoDup_nil_2|set_solver].
  - intros i Hi. unfold is_present; cbn. rewrite lookup_replicate_2 by done. done.
Qed.

(** ** What the specification promises *)

Lemma total_single lim l :
  Forall (fun x => Spec.size x <= lim) l -> 0 <= lim -> (length l <= 1)%nat -> Spec.total l <= lim.
Proof. destruct l as [|x [|y l]]; cbn; intros ? ? ?; try lia. decompose_Forall_hyps. lia. Qed.

Lemma victim_found d o l :
  l <> [] -> exists i e, Spec.victim d o l = Some i /\ Spec.find i l = Some e.
Proof.
  intros Hl. assert (forall x, x ∈ l -> exists e, Spec.find x.1 l = Some e) as Hin.
  { intros x Hx. destruct (Spec.find x.1 l) eqn:E; [eauto|]. apply find_None in E.
    by apply (list_elem_of_fmap_2 fst) in Hx. }
  unfold Spec.victim. destruct (js_find _ l) as [x|] eqn:E; cbn.
  - apply js_find_elem in E as [E _]. destruct (Hin _ E) as [e He]. eauto.
  - destruct l as [|x l]; [done|]. cbn. destruct (Hin x ltac:(left)) as [e He]. eauto.
Qed.

Lemma evict_spec lim d o n : forall l,
  (length l <= n)%nat -> NoDup l.*1 -> Forall (fun x => Spec.size x <= lim) l -> 0 <= lim ->
  let l' := Spec.evict n lim d o l in
  Spec.total l' <= lim /\ NoDup l'.*1 /\ Forall (fun x => Spec.size x <= lim) l' /\
  forall i e, Spec.find i l' = Some e -> Spec.find i l = Some e.
Proof.
  induction n as [|n IH]; intros l Hl Hd Hs Hlim; cbn [Spec.evict].
  { split_and!; try done. apply total_single; [done..|lia]. }
  destruct ((lim <? Spec.total l) && (1 <? length l)%nat) eqn:E.
  - destruct (victim_found d o l) as (i & e & -> & He).
    { intros ->. by rewrite andb_false_r in E. }
    pose proof (length_without _ _ _ Hd He).
    destruct (IH (Spec.without i l)) as (? & ? & ? & Hf); [lia|by apply without_NoDup| |done|].
    { apply Forall_forall. intros x Hx. rewrite Forall_forall in Hs. apply Hs.
      apply list_elem_of_In in Hx. apply List.filter_In in Hx as [Hx _]. by apply list_elem_of_In. }
    split_and!; try done. intros j e' Hj%Hf. rewrite find_without in Hj. by destruct (i =? j)%nat.
  - split_and!; try done. apply andb_false_iff in E as [E|E].
    + apply Z.ltb_ge in E. done.
    + apply Nat.ltb_ge in E. by apply total_single.
Qed.

#[local] Arguments Spec.find : simpl never.
#[local] Arguments Spec.size : simpl never.
#[local] Arguments Spec.without : simpl never.

Record spec_ok (s : Spec.Cache) : Prop := {
  so_limit : 0 <= Spec.limit s;
  so_nodup : NoDup (Spec.entries s).*1;
  so_sizes : Forall (fun x => Spec.size x <= Spec.limit s) (Spec.entries s);
  so_total : Spec.total (Spec.entries s) <= Spec.limit s }.

Lemma without_Forall P i l : Forall P l -> Forall P (Spec.without i l).
Proof.
  rewrite !Forall_forall. intros H x Hx. apply H.
  apply list_elem_of_In in Hx. apply List.filter_In in Hx as [Hx _]. by apply list_elem_of_In.
Qed.

Lemma appended_ok lim i e l :
  NoDup l.*1 -> Forall (fun x => Spec.size x <= lim) l -> Spec.size (i, e) <= lim ->
  NoDup (Spec.without i l ++ [(i, e)]).*1 /\ Forall (fun x => Spec.size x <= lim) (Spec.without i l ++ [(i, e)]).
Proof.
  intros Hd Hs He. split.
  - rewrite fmap_app. apply NoDup_app; split_and!; [by apply without_NoDup| |apply NoDup_singleton].
    assert (i ∉ (Spec.without i l).*1) by (apply find_None; by rewrite find_without, Nat.eqb_refl).
    set_solver.
  - apply Forall_app; split; [by apply without_Forall|by constructor].
Qed.

Lemma total_without i l : Spec.total (Spec.without i l) <= Spec.total l.
Proof.
  induction l as [|[j e] l IH]; [reflexivity|]. rewrite without_cons; cbn [Spec.total].
  assert (0 <= Spec.size (j, e)) by (unfold Spec.size; lia).
  destruct (j =? i)%nat; cbn [Spec.total]; lia.
Qed.

(** A step keeps the bounds, and what it answers or holds was there or is what it
    was given. *)
Lemma step_ok op s :
  spec_ok s ->
  spec_ok (Spec.step op s).2 /\ Spec.limit (Spec.step op s).2 = Spec.limit s /\
  forall i e, Spec.find i (Spec.entries (Spec.step op s).2) = Some e ->
    op = OpSet i e \/ ((forall e', op <> OpSet i e') /\ Spec.find i (Spec.entries s) = Some e).
Proof.
  intros [Hl Hd Hs Ht]. destruct op as [i|i e|l|o]; cbn [Spec.step snd].
  - unfold Spec.get. destruct (Spec.find i (Spec.entries s)) as [e|] eqn:E; cbn.
    + destruct (find_take_out _ _ _ Hd E) as (l1 & l2 & El & Ew & _).
      destruct (appended_ok (Spec.limit s) i e (Spec.entries s) Hd Hs) as [? ?].
      { rewrite Forall_forall in Hs. apply Hs. rewrite El. set_solver. }
      split_and!; [|done|].
      * split; cbn; try done. rewrite El, entries_total_app in Ht. rewrite Ew, !entries_total_app; cbn in *. lia.
      * intros j e'. rewrite find_app, find_without, find_cons. right; split; [done|].
        destruct (Nat.eqb_spec i j) as [<-|]; [congruence|]. by destruct (Spec.find j _).
    + split_and!; [by split|done|]. right; split; done.
  - unfold Spec.set; cbn. destruct (Z.ltb_spec (Spec.limit s) (Spec.size (i, e))) as [Hb|Hb].
    + split_and!; [split; cbn|done|]; try done.
      * by apply without_NoDup.
      * by apply without_Forall.
      * pose proof (total_without i (Spec.entries s)). lia.
      * intros j e'. rewrite find_without. destruct (Nat.eqb_spec i j); [done|]. right; split; congruence.
    + destruct (appended_ok _ _ _ _ Hd Hs Hb) as [Hd' Hs'].
      destruct (evict_spec (Spec.limit s) (Spec.deadlines s) (Spec.offset s)
        (S (length (Spec.without i (Spec.entries s)))) (Spec.without i (Spec.entries s) ++ [(i, e)])
        ltac:(rewrite length_app; cbn; lia) Hd' Hs' Hl)
        as (? & ? & ? & Hf).
      split_and!; [by split|done|]. intros j e' Hj%Hf.
      rewrite find_app, find_without, find_cons in Hj.
      destruct (Nat.eqb_spec i j) as [<-|]; [left; congruence|]. right.
      destruct (Spec.find j _); [split; congruence|done].
  - split_and!; [by split|done|]. right; split; done.
  - split_and!; [by split|done|]. right; split; done.
Qed.

Lemma run_ok ops : forall s,
  spec_ok s ->
  spec_ok (Spec.run ops s).2 /\ Spec.limit (Spec.run ops s).2 = Spec.limit s /\
  forall i e, Spec.find i (Spec.entries (Spec.run ops s).2) = Some e ->
    Spec.last_set i ops = Some e \/ (Spec.last_set i ops = None /\ Spec.find i (Spec.entries s) = Some e).
Proof.
  induction ops as [|op ops IH]; intros s H; [cbn; eauto|]. cbn.
  destruct (step_ok op _ H) as (H1 & E1 & F1). destruct (Spec.step op s) as [a s1]; cbn in *.
  destruct (IH _ H1) as (H2 & E2 & F2). destruct (Spec.run ops s1) as [l s2]; cbn in *.
  split_and!; [done|congruence|]. intros i e Hi%F2. destruct Hi as [->|[-> Hi%F1]]; [by left|].
  destruct Hi as [->|[Hne Hi]]; [rewrite Nat.eqb_refl; by left|]. right; split; [|done].
  destruct op as [|j e'| |]; try done. destruct (Nat.eqb_spec j i) as [->|]; [by destruct (Hne e')|done].
Qed.

(** C37: whatever a resolver asks of the cache, with indices it was made for, the
    linked arrays answer as the list of the specification does, never throw, and
    never hold more bytes than the budget; what a lookup finds is what its index
    was last given. *)
Theorem payload_cache_refines lim capacity ops :
  0 <= lim -> Forall (op_within capacity) ops ->
  let '(answers, s) := Spec.run ops (Spec.empty lim) in
  exists c, lru_run ops (new_lru lim capacity) = Some (answers, c) /\
    represents capacity c s /\ totalBytes c <= lim /\
    forall i e c', lru_get i c = Some (Some e, c') -> Spec.last_set i ops = Some e.
Proof.
  intros Hl Ho. destruct (run_represents capacity ops _ _ Ho (new_represents lim capacity)) as (c & E & H).
  destruct (run_ok ops (Spec.empty lim)) as (Hs & Hlim & Hf).
  { split; cbn; try done; [apply NoDup_nil_2]. }
  destruct (Spec.run ops (Spec.empty lim)) as [answers s]; cbn in *. exists c.
  pose proof (so_total _ Hs) as Ht. destruct H as [Hr Hb Hd Hoff].
  split_and!; [done|done|rewrite (rp_total _ _ _ Hr); lia|].
  intros i e c'. unfold lru_get. destruct (decide (i < capacity)%nat) as [Hi|Hi].
  - rewrite (rp_present _ _ _ Hr i Hi). destruct (Spec.find i (Spec.entries s)) as [e1|] eqn:Ei; [|done].
    destruct (Hf _ _ Ei) as [->|[_ [=]]]. destruct (rp_content _ _ _ Hr _ _ Ei) as [-> _]. cbn.
    destruct (touch_rep _ _ _ _ _ Hr Ei) as [Ht' _].
    destruct (rp_content _ _ _ Ht' i e1) as [_ ->]; [by erewrite find_without_app|].
    cbn. unfold id; rewrite decode_encode. destruct e1; cbn. congruence.
  - unfold is_present. rewrite lookup_ge_None_2 by (rewrite (rp_flags _ _ _ Hr); lia). done.
Qed.

Definition witness_ops : list LruOp :=
  let e n := mkEntry ObjTree (replicate n 7) in
  [OpDeadlines [9; 2; 9]; OpSet 0 (e 4%nat); OpSet 1 (e 3%nat); OpGet 0; OpOffset 5; OpSet 2 (e 3%nat);
   OpGet 1; OpGet 0; OpSet 1 (e 9%nat); OpGet 2].

Lemma payload_cache_refines_witness :
  (Spec.run witness_ops (Spec.empty 8)).1 =
    [None; None; None; Some (mkEntry ObjTree (replicate 4 7)); None; None; None;
     Some (mkEntry ObjTree (replicate 4 7)); None; Some (mkEntry ObjTree (replicate 3 7))] /\
  exists c, lru_run witness_ops (new_lru 8 3) = Some ((Spec.run witness_ops (Spec.empty 8)).1, c).
Proof.
  split; [reflexivity|].
  pose proof (payload_cache_refines 8 3 witness_ops) as H. destruct H as (c & H & _); [lia| |eauto].
  repeat constructor.
Defined.
