(* ===== verification/Heap.v ===== *)
(** * The binary heap

    [common/heap.ts]: a heap in an array, ordered by a comparator.  What its
    clients rely on is that it holds what was put in and gives out a least element;
    the comparator owes it the laws of [Comparator]. *)
From S2P Require Import Prelude.

(** ** Definitions *)

(** What a comparator promises: negative, zero and positive answers of a total
    preorder. *)
Class Comparator {A} (cmp : A -> A -> Z) : Prop := {
  cmp_neg : forall a b, cmp a b < 0 <-> 0 < cmp b a;
  cmp_trans : forall a b c, cmp a b <= 0 -> cmp b c <= 0 -> cmp a c <= 0 }.

Section Heap.
Context {A : Type} (cmp : A -> A -> Z).

Definition swap (i j : nat) (a : list A) : list A :=
  match a !! i, a !! j with
  | Some x, Some y => <[i := y]> (<[j := x]> a)
  | _, _ => a
  end.

Definition before_at (a : list A) (i j : nat) : bool :=
  match a !! i, a !! j with Some x, Some y => cmp x y <? 0 | _, _ => false end.

(** Every turn moves [i] down the array. *)
Fixpoint siftDown (fuel i : nat) (a : list A) : list A :=
  match fuel with
  | O => a
  | S fuel =>
    let n := length a in
    let l := (i * 2 + 1)%nat in
    let r := S l in
    let best := if (l <? n)%nat && before_at a l i then l else i in
    let best := if (r <? n)%nat && before_at a r best then r else best in
    if (best =? i)%nat then a else siftDown fuel best (swap i best a)
  end.

Fixpoint siftUp (fuel i : nat) (a : list A) : list A :=
  match fuel with
  | O => a
  | S fuel =>
    if (0 <? i)%nat then
      let p := ((i - 1) / 2)%nat in
      if before_at a i p then siftUp fuel p (swap i p a) else a
    else a
  end.

(** The turns of [heapify] for the positions below [i], from the last. *)
Fixpoint heapify_from (i : nat) (a : list A) : list A :=
  match i with O => a | S i => heapify_from i (siftDown (length a) i a) end.

Definition heapify (a : list A) : list A := heapify_from (length a / 2) a.

Definition heap_of (items : list A) : list A := if (1 <? length items)%nat then heapify items else items.

Definition isEmpty (a : list A) : bool := (length a =? 0)%nat.

Definition peek (a : list A) : option A := a !! 0%nat.

Definition push (v : A) (a : list A) : list A := siftUp (length a) (length a) (a ++ [v]).

Definition pop (a : list A) : option A * list A :=
  match a with
  | [] => (None, [])
  | top :: _ =>
    let rest := take (length a - 1) a in
    (Some top,
     match list.last a with
     | Some x => if negb (length rest =? 0)%nat then siftDown (length rest) 0 (<[0%nat := x]> rest) else rest
     | None => rest
     end)
  end.

(** ** Lemmas *)

Definition child (p j : nat) : Prop := j = (2 * p + 1)%nat \/ j = (2 * p + 2)%nat.

(** The heap order holds at the positions from [lo] on, except below [hole]. *)
Definition heap_but (lo : nat) (hole : nat -> nat -> Prop) (a : list A) : Prop :=
  forall p j x y, (lo <= p)%nat -> child p j -> ~ hole p j -> a !! p = Some x -> a !! j = Some y -> cmp x y <= 0.

Definition heap (a : list A) : Prop := heap_but 0 (fun _ _ => False) a.

Lemma swap_perm i j a : swap i j a ≡ₚ a.
Proof.
  unfold swap. destruct (a !! i) as [x|] eqn:Ei; [|done]. destruct (a !! j) as [y|] eqn:Ej; [|done].
  by apply Permutation_insert_swap.
Qed.

Lemma swap_lookup i j a x y k :
  a !! i = Some x -> a !! j = Some y ->
  swap i j a !! k = if decide (k = i) then Some y else if decide (k = j) then Some x else a !! k.
Proof.
  intros Ei Ej. unfold swap. rewrite Ei, Ej.
  apply lookup_lt_Some in Ei, Ej.
  repeat case_decide; subst; rewrite ?list_lookup_insert_eq by (rewrite ?length_insert; done);
    rewrite ?list_lookup_insert_ne by done; rewrite ?list_lookup_insert_eq by done; done.
Qed.

Lemma length_swap i j a : length (swap i j a) = length a.
Proof. apply Permutation_length, swap_perm. Qed.

Lemma siftDown_perm fuel : forall i a, siftDown fuel i a ≡ₚ a.
Proof.
  induction fuel as [|fuel IH]; intros i a; [done|]. cbn [siftDown].
  set (best := if _ : bool then S _ else _). destruct (best =? i)%nat; [done|].
  by rewrite IH, swap_perm.
Qed.

Lemma siftUp_perm fuel : forall i a, siftUp fuel i a ≡ₚ a.
Proof.
  induction fuel as [|fuel IH]; intros i a; [done|]. cbn [siftUp].
  destruct (0 <? i)%nat; [|done]. destruct (before_at a i _); [|done]. by rewrite IH, swap_perm.
Qed.

Lemma heapify_from_perm i : forall a, heapify_from i a ≡ₚ a.
Proof. induction i as [|i IH]; intros a; cbn; [done|]. by rewrite IH, siftDown_perm. Qed.

Lemma heap_of_perm items : heap_of items ≡ₚ items.
Proof. unfold heap_of. case_match; [apply heapify_from_perm|done]. Qed.

Lemma push_perm v a : push v a ≡ₚ v :: a.
Proof. unfold push. rewrite siftUp_perm. by rewrite Permutation_app_comm. Qed.

Lemma pop_perm a x a' : pop a = (Some x, a') -> a ≡ₚ x :: a'.
Proof.
  destruct a as [|top t _] using rev_ind; [done|]. unfold pop.
  rewrite last_snoc, length_app, Nat.add_sub, take_app_length.
  destruct t as [|y t]; cbn [app length Nat.eqb negb]; intros E; injection E as <- <-; [done|].
  apply perm_skip. rewrite Permutation_app_comm. symmetry.
  exact (siftDown_perm (S (length t)) 0 (top :: t)).
Qed.

Lemma pop_None a a' : pop a = (None, a') -> a = [].
Proof. by destruct a. Qed.

Section Order.
Context `{!Comparator cmp}.

Lemma cmp_refl x : cmp x x <= 0.
Proof. pose proof (cmp_neg x x). lia. Qed.

Lemma before_at_true a i j :
  before_at a i j = true <-> exists x y, a !! i = Some x /\ a !! j = Some y /\ cmp x y < 0.
Proof.
  unfold before_at. destruct (a !! i), (a !! j); rewrite ?Z.ltb_lt; naive_solver.
Qed.

Lemma before_at_false a i j x y :
  before_at a i j = false -> a !! i = Some x -> a !! j = Some y -> cmp y x <= 0.
Proof.
  unfold before_at. intros H Ei Ej. rewrite Ei, Ej in H. apply Z.ltb_ge in H.
  pose proof (cmp_neg x y). pose proof (cmp_neg y x). lia.
Qed.

(** The choice of [siftDown]: the position itself, or its least child. *)
Lemma best_child a i x :
  a !! i = Some x ->
  let l := (i * 2 + 1)%nat in
  let best := if (l <? length a)%nat && before_at a l i then l else i in
  let best := if (S l <? length a)%nat && before_at a (S l) best then S l else best in
  (best = i /\ forall j z, child i j -> a !! j = Some z -> cmp x z <= 0) \/
  (child i best /\ exists y, a !! best = Some y /\ cmp y x <= 0 /\
    forall j z, child i j -> a !! j = Some z -> cmp y z <= 0).
Proof.
  intros Ei l. cbn zeta.
  set (b1 := if _ : bool then l else i).
  assert (exists y1, a !! b1 = Some y1 /\ cmp y1 x <= 0 /\ (b1 = i \/ b1 = l) /\
    forall z, a !! l = Some z -> cmp y1 z <= 0) as (y1 & E1 & H1 & Hb & H1l).
  { subst b1. destruct ((l <? length a)%nat && before_at a l i) eqn:E.
    - apply andb_true_iff in E as [_ (z & x' & El & Ex & Hlt)%before_at_true].
      replace x' with x in * by congruence. exists z; split_and!; [done|lia|by right|].
      intros z' Ez; replace z' with z by congruence. apply cmp_refl.
    - exists x; split_and!; [done|apply cmp_refl|by left|]. intros z Ez.
      apply andb_false_iff in E as [E%Nat.ltb_ge|E]; [apply lookup_lt_Some in Ez; lia|].
      by eapply before_at_false. }
  clearbody b1. destruct ((S l <? length a)%nat && before_at a (S l) b1) eqn:E.
  - apply andb_true_iff in E as [_ (z & y' & Er & Ey & Hlt)%before_at_true].
    replace y' with y1 in * by congruence. right. split; [right; lia|].
    assert (cmp z y1 <= 0) by lia.
    exists z; split_and!; [done|by eapply cmp_trans|]. intros j w [->| ->] Ew.
    + eapply cmp_trans; [done|]. apply H1l. by replace l with (2 * i + 1)%nat by lia.
    + replace (2 * i + 2)%nat with (S l) in Ew by lia. replace w with z by congruence. apply cmp_refl.
  - assert (forall j z, child i j -> a !! j = Some z -> cmp y1 z <= 0) as Hall.
    { intros j z [->| ->] Ez; [apply H1l; by replace l with (2 * i + 1)%nat by lia|].
      replace (2 * i + 2)%nat with (S l) in Ez by lia.
      apply andb_false_iff in E as [E%Nat.ltb_ge|E]; [apply lookup_lt_Some in Ez; lia|].
      by eapply before_at_false. }
    destruct Hb as [->| ->]; [left|right].
    + split; [done|]. replace x with y1 by congruence. done.
    + split; [left; lia|]. exists y1. done.
Qed.

Lemma siftDown_heap lo fuel : forall i a,
  (lo <= i)%nat -> (length a <= fuel + i)%nat ->
  heap_but lo (fun p _ => p = i) a ->
  (forall p j x y, (lo <= p)%nat -> child p i -> child i j -> a !! p = Some x -> a !! j = Some y -> cmp x y <= 0) ->
  heap_but lo (fun _ _ => False) (siftDown fuel i a).
Proof.
  induction fuel as [|fuel IH]; intros i a Hlo Hf Ha Hg; cbn [siftDown].
  { intros p j x y Hp Hc _ Ex Ey. assert (p <> i) by (intros ->; apply lookup_lt_Some in Ex; lia).
    by apply (Ha p j). }
  destruct (a !! i) as [x|] eqn:Ei.
  2:{ apply lookup_ge_None in Ei.
      replace ((i * 2 + 1 <? length a)%nat) with false by (symmetry; apply Nat.ltb_ge; lia).
      replace ((S (i * 2 + 1) <? length a)%nat) with false by (symmetry; apply Nat.ltb_ge; lia).
      cbn [andb]. rewrite Nat.eqb_refl. intros p j x y Hp Hc _ Ex Ey.
      assert (p <> i) by (intros ->; apply lookup_lt_Some in Ex; lia). by apply (Ha p j). }
  destruct (best_child a i x Ei) as [[-> Hall]|[Hc (y & Eb & Hyx & Hall)]].
  - rewrite Nat.eqb_refl. intros p j x' y' Hp Hc _ Ex Ey.
    destruct (decide (p = i)) as [->|]; [|by apply (Ha p j)].
    replace x' with x by congruence. by apply (Hall j).
  - set (best := if _ : bool then S _ else _) in *. clearbody best.
    destruct (Nat.eqb_spec best i) as [->|Hne]; [destruct Hc; lia|].
    pose proof (swap_lookup i best a x y) as Hsw. specialize (Hsw) with (1 := Ei) (2 := Eb) as Hs.
    apply IH; [destruct Hc; lia|rewrite length_swap; destruct Hc; lia|..].
    + intros p j x' y' Hp Hpj Hpb. rewrite !Hs. destruct (decide (p = i)) as [->|Hpi].
      * intros [= <-]. destruct (decide (j = i)) as [->|]; [destruct Hpj; lia|].
        destruct (decide (j = best)) as [->|]; [intros [= <-]; done|]. by apply Hall.
      * destruct (decide (p = best)) as [->|]; [done|].
        destruct (decide (j = i)) as [->|].
        { intros Ex [= <-]. by apply (Hg p best). }
        destruct (decide (j = best)) as [->|]; [unfold child in *; lia|].
        intros. by apply (Ha p j).
    + intros p j x' y' Hp Hpb Hbj. rewrite !Hs.
      assert (p = i) as -> by (unfold child in *; lia). rewrite decide_True by done. intros [= <-].
      rewrite !decide_False by (unfold child in *; lia). intros Ey. apply (Ha best j); try done.
      unfold child in *; lia.
Qed.

Lemma siftUp_heap fuel : forall i a,
  (i <= fuel)%nat -> heap_but 0 (fun _ j => j = i) a ->
  (forall p j x y, child p i -> child i j -> a !! p = Some x -> a !! j = Some y -> cmp x y <= 0) ->
  heap (siftUp fuel i a).
Proof.
  induction fuel as [|fuel IH]; intros i a Hf Ha Hg; cbn [siftUp].
  { intros p j x y Hp Hc _ Ex Ey. apply (Ha p j); try done. destruct Hc; lia. }
  destruct (Nat.ltb_spec 0 i) as [Hi|Hi].
  2:{ intros p j x y Hp Hc _ Ex Ey. apply (Ha p j); try done. destruct Hc; lia. }
  set (q := ((i - 1) / 2)%nat).
  assert (child q i) as Hq.
  { subst q. unfold child. pose proof (Nat.div_mod_eq (i - 1) 2).
    pose proof (Nat.mod_upper_bound (i - 1) 2 ltac:(lia)). lia. }
  clearbody q. destruct (before_at a i q) eqn:E.
  - apply before_at_true in E as (y & x & Ei & Eq & Hlt).
    pose proof (fun k => swap_lookup i q a y x k Ei Eq) as Hs.
    assert (i <> q) by (unfold child in Hq; lia).
    apply IH; [unfold child in Hq; lia|..].
    + intros p j x' y' _ Hpj Hjq. rewrite !Hs, (decide_False (P := j = q)) by done.
      destruct (decide (p = i)) as [->|Hpi].
      * rewrite decide_False by (unfold child in *; lia). intros [= <-] Ey. by apply (Hg q j).
      * destruct (decide (p = q)) as [->|Hpq].
        -- intros [= <-]. destruct (decide (j = i)) as [->|Hji]; [intros [= <-]; lia|].
           intros Ey. apply cmp_trans with x; [lia|]. apply (Ha q j); try done. lia.
        -- rewrite decide_False by (unfold child in *; lia). intros. apply (Ha p j); try done; [lia|].
           unfold child in *; lia.
    + intros p j x' y' Hpq Hqj. rewrite !Hs.
      rewrite (decide_False (P := p = i)), (decide_False (P := p = q)), (decide_False (P := j = q))
        by (unfold child in *; lia).
      intros Ep. assert (cmp x' x <= 0) by (apply (Ha p q); try done; lia).
      destruct (decide (j = i)) as [->|Hji]; [by intros [= <-]|].
      intros Ej. apply cmp_trans with x; [done|]. apply (Ha q j); try done. lia.
  - intros p j x y Hp Hc _ Ex Ey. destruct (decide (j = i)) as [->|Hji].
    + replace p with q in * by (unfold child in *; lia). by eapply before_at_false.
    + by apply (Ha p j).
Qed.

Lemma heapify_from_heap i : forall a,
  (i <= length a)%nat -> heap_but i (fun _ _ => False) a -> heap (heapify_from i a).
Proof.
  induction i as [|i IH]; intros a Hl Ha; cbn [heapify_from]; [done|].
  apply IH; [rewrite (Permutation_length (siftDown_perm _ _ _)); lia|].
  apply siftDown_heap; [done|lia| |].
  - intros p j x y Hp Hc Hn Ex Ey. apply (Ha p j x y); [lia|done|tauto|done|done].
  - intros p j x y Hp Hc. unfold child in Hc. lia.
Qed.

Lemma heap_of_heap items : heap (heap_of items).
Proof.
  unfold heap_of, heapify. destruct (Nat.ltb_spec 1 (length items)) as [H|H].
  - pose proof (Nat.div_mod_eq (length items) 2).
    pose proof (Nat.mod_upper_bound (length items) 2 ltac:(lia)).
    apply heapify_from_heap; [lia|]. intros p j x y Hp Hc _ _ Ey.
    apply lookup_lt_Some in Ey. unfold child in Hc. lia.
  - intros p j x y _ Hc _ _ Ey. apply lookup_lt_Some in Ey. unfold child in Hc. lia.
Qed.

Lemma push_heap v a : heap a -> heap (push v a).
Proof.
  intros Ha. apply siftUp_heap; [done|..].
  - intros p j x y _ Hc Hj Ex Ey. pose proof (lookup_lt_Some _ _ _ Ey) as Hl.
    rewrite length_app in Hl; cbn in Hl.
    rewrite lookup_app_l in Ey by lia. rewrite lookup_app_l in Ex by (unfold child in Hc; lia).
    apply (Ha p j x y); [lia|done|tauto|done|done].
  - intros p j x y _ Hc _ Ey. apply lookup_lt_Some in Ey. rewrite length_app in Ey.
    unfold child in Hc; cbn in Ey; lia.
Qed.

(** The first element of a heap is a least one. *)
Lemma heap_root a t : heap a -> a !! 0%nat = Some t -> Forall (fun y => cmp t y <= 0) a.
Proof.
  intros Ha Ht. apply Forall_lookup. intros j. induction (lt_wf j) as [j _ IH]; intros y Ey.
  destruct (decide (j = 0)%nat) as [->|Hj]; [replace y with t by congruence; apply cmp_refl|].
  set (p := ((j - 1) / 2)%nat).
  assert (child p j) as Hp.
  { subst p. unfold child. pose proof (Nat.div_mod_eq (j - 1) 2).
    pose proof (Nat.mod_upper_bound (j - 1) 2 ltac:(lia)). lia. }
  assert (p < j)%nat by (unfold child in Hp; lia).
  destruct (lookup_lt_is_Some_2 a p) as [x Ex]; [apply lookup_lt_Some in Ey; lia|].
  apply cmp_trans with x; [by apply (IH p)|]. apply (Ha p j x y); [lia|done|tauto|done|done].
Qed.

Lemma pop_heap a x a' : heap a -> pop a = (Some x, a') -> heap a' /\ Forall (fun y => cmp x y <= 0) a.
Proof.
  intros Ha Hpop. split.
  2:{ apply heap_root; [done|]. destruct a; [done|]. by injection Hpop as -> _. }
  destruct a as [|z t _] using rev_ind; [done|]. revert Hpop. unfold pop.
  rewrite last_snoc, length_app, Nat.add_sub, take_app_length.
  destruct t as [|y t]; cbn [app length Nat.eqb negb]; intros E; injection E as <- <-.
  { intros p j x y Hp Hc _ Ex Ey. by rewrite lookup_nil in Ex. }
  apply (siftDown_heap 0 (S (length t)) 0 (z :: t)); [done|cbn; lia|..].
  - intros p j u w Hp Hc Hn Ex Ey. destruct p as [|p]; [done|].
    destruct j as [|j]; [unfold child in Hc; lia|].
    apply (Ha (S p) (S j) u w); [lia|done|tauto|..]; by apply (lookup_app_l_Some (y :: t) [z]).
  - intros p j u w _ Hc. unfold child in Hc. lia.
Qed.
End Order.
End Heap.
