(* ===== verification/Rewrite.v ===== *)
(** * The selection table of a pack rewrite

    [git/pack/rewrite/shared.ts] and [addEntry] of
    [git/pack/rewrite/selectionResolve.ts]: the rows a rewrite has selected, one
    typed array per column, and the operations on rows.  The order of the output
    is in [RewriteLayout], the removal of duplicate rows in [RewriteCompact]. *)
From S2P Require Import Prelude Bytes PackEntry PackIndex.

(** ** Definitions *)

Record SelectionTable := mkSelection {
  st_count : nat;
  st_capacity : nat;
  st_packSlots : list Z;
  st_entryIndices : list Z;
  st_offsets : list Z;
  st_nextOffsets : list Z;
  st_oidsRaw : list Z;
  st_typeCodes : list Z;
  st_headerLens : list Z;
  st_payloadLens : list Z;
  st_sizeVarBuf : list Z;
  st_sizeVarLens : list Z;
  st_baseSlots : list Z;
  st_baseOidRaw : option (list Z);
  st_queuedForHeader : list Z;
  st_ofsPinned : list Z;
  st_syntheticPayloads : list (option (list Z));
  st_outputOffsets : list Z;
  st_outputHeaderLens : list Z;
  st_outputOrder : list nat }.

Definition allocateSelectionTable (capacity : nat) : SelectionTable :=
  let zeros := replicate capacity 0 in
  mkSelection 0 capacity zeros zeros zeros zeros (replicate (capacity * 20) 0) zeros zeros zeros
    (replicate (capacity * 5) 0) zeros (replicate capacity (-1)) None zeros zeros
    (replicate capacity None) zeros zeros (replicate capacity 0%nat).

(** A larger array that starts with the old one. *)
Definition grow {A} (fill : A) (len : nat) (old : list A) : list A := old ++ replicate (len - length old) fill.

Definition growSelectionTable (t : SelectionTable) : SelectionTable :=
  let next := Nat.max (st_capacity t * 2) 64 in
  mkSelection (st_count t) next
    (grow 0 next (st_packSlots t)) (grow 0 next (st_entryIndices t)) (grow 0 next (st_offsets t))
    (grow 0 next (st_nextOffsets t)) (grow 0 (next * 20) (st_oidsRaw t)) (grow 0 next (st_typeCodes t))
    (grow 0 next (st_headerLens t)) (grow 0 next (st_payloadLens t)) (grow 0 (next * 5) (st_sizeVarBuf t))
    (grow 0 next (st_sizeVarLens t)) (grow (-1) next (st_baseSlots t)) (grow 0 (next * 20) <$> st_baseOidRaw t)
    (grow 0 next (st_queuedForHeader t)) (grow 0 next (st_ofsPinned t))
    (grow None next (st_syntheticPayloads t)) (grow 0 next (st_outputOffsets t))
    (grow 0 next (st_outputHeaderLens t)) (grow 0%nat next (st_outputOrder t)).

Definition selectionKey (packSlot entryIndex : Z) : Z := packSlot * 4294967296 + entryIndex.

(** [None]: the index has no next offset and the code throws. *)
Definition setSelectionEntryIdentity (t : SelectionTable) (sel : nat) (packSlot : Z) (entryIndex : nat)
  (idx : IdxView) : option SelectionTable :=
  nextOffset ← getNextOffsetByIndex idx (Z.of_nat entryIndex);
  Some (mkSelection (st_count t) (st_capacity t)
    (<[sel := packSlot]> (st_packSlots t)) (<[sel := Z.of_nat entryIndex]> (st_entryIndices t))
    (<[sel := byte_at (iv_offsets idx) entryIndex]> (st_offsets t)) (<[sel := nextOffset]> (st_nextOffsets t))
    (list_inserts (sel * 20) (slice (iv_rawNames idx) (entryIndex * 20) 20) (st_oidsRaw t))
    (st_typeCodes t) (st_headerLens t) (st_payloadLens t) (st_sizeVarBuf t) (st_sizeVarLens t) (st_baseSlots t)
    (st_baseOidRaw t) (st_queuedForHeader t) (st_ofsPinned t) (<[sel := None]> (st_syntheticPayloads t))
    (st_outputOffsets t) (st_outputHeaderLens t) (st_outputOrder t)).

Definition toUint16 (z : Z) : Z := z mod 65536.

(** The table after the call, and whether the payload has a length. *)
Definition storeSelectionHeader (t : SelectionTable) (sel : nat) (offset nextOffset : Z) (header : PackHeaderEx)
  : bool * SelectionTable :=
  let typeCodes := <[sel := toUint8 (hdr_type header)]> (st_typeCodes t) in
  let headerLens := <[sel := toUint16 (headerLen header)]> (st_headerLens t) in
  let payloadLength := nextOffset - offset - headerLen header in
  let stored payloadLens sizeVarBuf sizeVarLens :=
    mkSelection (st_count t) (st_capacity t) (st_packSlots t) (st_entryIndices t) (st_offsets t)
      (st_nextOffsets t) (st_oidsRaw t) typeCodes headerLens payloadLens sizeVarBuf sizeVarLens (st_baseSlots t)
      (st_baseOidRaw t) (st_queuedForHeader t) (st_ofsPinned t) (st_syntheticPayloads t)
      (st_outputOffsets t) (st_outputHeaderLens t) (st_outputOrder t) in
  if payloadLength <? 0 then (false, stored (st_payloadLens t) (st_sizeVarBuf t) (st_sizeVarLens t)) else
  (true, stored (<[sel := payloadLength]> (st_payloadLens t))
           (list_inserts (sel * 5) (sizeVarBytes header) (st_sizeVarBuf t))
           (<[sel := toUint8 (Z.of_nat (length (sizeVarBytes header)))]> (st_sizeVarLens t))).

(** The row of the base of [sel]; [None]: not a delta, or not resolved yet. *)
Definition base_of (t : SelectionTable) (sel : nat) : option nat :=
  match st_baseSlots t !! sel with
  | Some b => if b <? 0 then None else Some (Z.to_nat b)
  | None => None
  end.

Definition compareSelectionSlots (t : SelectionTable) (leftSel rightSel : nat) : Z :=
  let packDiff := byte_at (st_packSlots t) leftSel - byte_at (st_packSlots t) rightSel in
  if negb (packDiff =? 0) then packDiff else byte_at (st_offsets t) leftSel - byte_at (st_offsets t) rightSel.

Definition sortSelectionSlots (t : SelectionTable) (slots : list nat) : list nat :=
  js_sort (fun l r => compareSelectionSlots t l r <? 0) slots.

(** The walk along the bases, at most as long as the table. *)
Fixpoint depends_on (depth : nat) (t : SelectionTable) (cur targetSel : nat) : bool :=
  match depth with
  | O => false
  | S depth =>
    match base_of t cur with
    | None => false
    | Some baseSel => if (baseSel =? targetSel)%nat then true else depends_on depth t baseSel targetSel
    end
  end.

Definition selectionDependsOn (t : SelectionTable) (startSel targetSel : nat) : bool :=
  depends_on (st_count t) t startSel targetSel.

Definition copy_cell {A} (target source : nat) (l : list A) : list A :=
  match l !! source with Some x => <[target := x]> l | None => l end.

Definition copy_cells (width target source : nat) (l : list Z) : list Z :=
  list_inserts (target * width) (slice l (source * width) width) l.

Definition copySelectionRow (t : SelectionTable) (targetSel sourceSel : nat) (preserveTargetOfsPinned : bool)
  : SelectionTable :=
  let copy {A} (l : list A) := copy_cell targetSel sourceSel l in
  mkSelection (st_count t) (st_capacity t)
    (copy (st_packSlots t)) (copy (st_entryIndices t)) (copy (st_offsets t)) (copy (st_nextOffsets t))
    (copy_cells 20 targetSel sourceSel (st_oidsRaw t)) (copy (st_typeCodes t)) (copy (st_headerLens t))
    (copy (st_payloadLens t)) (copy_cells 5 targetSel sourceSel (st_sizeVarBuf t)) (copy (st_sizeVarLens t))
    (copy (st_baseSlots t)) (copy_cells 20 targetSel sourceSel <$> st_baseOidRaw t)
    (copy (st_queuedForHeader t))
    (if preserveTargetOfsPinned then st_ofsPinned t else copy (st_ofsPinned t))
    (copy (st_syntheticPayloads t)) (st_outputOffsets t) (st_outputHeaderLens t) (st_outputOrder t).

Definition buildPackHeader (objectCount : Z) : list Z := [80; 65; 67; 75] ++ be32 2 ++ be32 objectCount.

Definition with_baseSlots (l : list Z) (t : SelectionTable) : SelectionTable :=
  mkSelection (st_count t) (st_capacity t) (st_packSlots t) (st_entryIndices t) (st_offsets t)
    (st_nextOffsets t) (st_oidsRaw t) (st_typeCodes t) (st_headerLens t) (st_payloadLens t) (st_sizeVarBuf t)
    (st_sizeVarLens t) l (st_baseOidRaw t) (st_queuedForHeader t) (st_ofsPinned t) (st_syntheticPayloads t)
    (st_outputOffsets t) (st_outputHeaderLens t) (st_outputOrder t).

Definition with_count (n : nat) (t : SelectionTable) : SelectionTable :=
  mkSelection n (st_capacity t) (st_packSlots t) (st_entryIndices t) (st_offsets t)
    (st_nextOffsets t) (st_oidsRaw t) (st_typeCodes t) (st_headerLens t) (st_payloadLens t) (st_sizeVarBuf t)
    (st_sizeVarLens t) (st_baseSlots t) (st_baseOidRaw t) (st_queuedForHeader t) (st_ofsPinned t)
    (st_syntheticPayloads t) (st_outputOffsets t) (st_outputHeaderLens t) (st_outputOrder t).

Definition with_layout (offsets lens : list Z) (order : list nat) (t : SelectionTable) : SelectionTable :=
  mkSelection (st_count t) (st_capacity t) (st_packSlots t) (st_entryIndices t) (st_offsets t)
    (st_nextOffsets t) (st_oidsRaw t) (st_typeCodes t) (st_headerLens t) (st_payloadLens t) (st_sizeVarBuf t)
    (st_sizeVarLens t) (st_baseSlots t) (st_baseOidRaw t) (st_queuedForHeader t) (st_ofsPinned t)
    (st_syntheticPayloads t) offsets lens order.

(** The row of a pack position, new or known; [None]: the identity has no next
    offset and the code throws. *)
Definition addEntry (t : SelectionTable) (dedupMap : gmap Z nat) (packSlot : Z) (entryIndex : nat) (idx : IdxView)
  : option (nat * SelectionTable * gmap Z nat) :=
  let key := selectionKey packSlot (Z.of_nat entryIndex) in
  match dedupMap !! key with
  | Some existing => Some (existing, t, dedupMap)
  | None =>
    let t := if (st_capacity t <=? st_count t)%nat then growSelectionTable t else t in
    let sel := st_count t in
    t ← setSelectionEntryIdentity (with_count (S sel) t) sel packSlot entryIndex idx;
    Some (sel, with_baseSlots (<[sel := -1]> (st_baseSlots t)) t, <[key := sel]> dedupMap)
  end.
