(* ===== verification/RewriteLayout.v ===== *)
(** * The layout of a rewritten pack

    [git/pack/rewrite/layout.ts], the byte stream of
    [git/pack/rewrite/stream.ts] and the size of [git/pack/rewrite.ts]: the order
    in which the selected rows are written, their header lengths and offsets, and
    the bytes that result.  What the source packs hold is a parameter; SHA-1 is
    another. *)
From S2P Require Import Prelude Bytes PackEntry PackIndex Heap Rewrite.

(** ** Definitions *)

(** [snapshot.packs] by the number of objects in the index of each. *)
Definition canPassthroughSinglePack (packCounts : list Z) (t : SelectionTable) : bool :=
  match packCounts with
  | [count] =>
    if negb (Z.of_nat (st_count t) =? count) then false
    else js_every (fun sel => negb (bool_decide (is_Some (mjoin (st_syntheticPayloads t !! sel)))))
           (seq 0 (st_count t))
  | _ => false
  end.

(** *** The order *)

(** The children of every row as linked lists in two arrays, and how many bases
    every row waits for. *)
Record Graph := mkGraph { g_indegree : list Z; g_childHead : list Z; g_childNext : list Z }.

Definition cell (l : list Z) (i : nat) : Z := default (-1) (l !! i).

Definition add_edge (t : SelectionTable) (g : Graph) (sel : nat) : Graph :=
  match base_of t sel with
  | None => g
  | Some base =>
    mkGraph (<[sel := toUint8 (byte_at (g_indegree g) sel + 1)]> (g_indegree g))
      (<[base := Z.of_nat sel]> (g_childHead g))
      (<[sel := cell (g_childHead g) base]> (g_childNext g))
  end.

Definition dependency_graph (t : SelectionTable) : Graph :=
  let n := st_count t in
  foldl (add_edge t) (mkGraph (replicate n 0) (replicate n (-1)) (replicate n (-1))) (seq 0 n).

(** The loop over the children of an emitted row; a row is among the children of
    one row only, so there are at most as many turns as rows. *)
Fixpoint release (fuel : nat) (t : SelectionTable) (childNext : list Z) (child : Z) (indegree : list Z)
  (heap : list nat) : option (list Z * list nat) :=
  if child <? 0 then Some (indegree, heap) else
  match fuel with
  | O => None
  | S fuel =>
    let c := Z.to_nat child in
    let d := toUint8 (byte_at indegree c - 1) in
    let heap := if d =? 0 then push (compareSelectionSlots t) c heap else heap in
    release fuel t childNext (cell childNext c) (<[c := d]> indegree) heap
  end.

Fixpoint order_loop (fuel : nat) (t : SelectionTable) (g : Graph) (indegree : list Z) (heap : list nat)
  (outputOrder : list nat) (cursor : nat) : option (list nat * nat) :=
  match pop (compareSelectionSlots t) heap with
  | (None, _) => Some (outputOrder, cursor)
  | (Some sel, heap) =>
    match fuel with
    | O => None
    | S fuel =>
      '(indegree, heap) ← release (st_count t) t (g_childNext g) (cell (g_childHead g) sel) indegree heap;
      order_loop fuel t g indegree heap (<[cursor := sel]> outputOrder) (S cursor)
    end
  end.

(** [None]: out of fuel; a row is emitted once, so it does not happen. *)
Definition buildOutputOrder (t : SelectionTable) : option (bool * SelectionTable) :=
  let n := st_count t in
  let g := dependency_graph t in
  let roots := js_filter (fun sel => byte_at (g_indegree g) sel =? 0) (seq 0 n) in
  '(order, cursor) ← order_loop n t g (g_indegree g) (heap_of (compareSelectionSlots t) roots) (st_outputOrder t) 0;
  Some ((cursor =? n)%nat, with_layout (st_outputOffsets t) (st_outputHeaderLens t) order t).

(** *** Header lengths *)

(** The bytes of the base in the header of a row, by the distance [distance]. *)
Definition header_len (t : SelectionTable) (sel : nat) (distance : Z) : Z :=
  let svLen := byte_at (st_sizeVarLens t) sel in
  let type := byte_at (st_typeCodes t) sel in
  if type =? 6 then svLen + ofsDeltaDistanceLength distance
  else if type =? 7 then svLen + 20
  else svLen.

(** The distance in the source pack; without a base it is not a number, which has
    the length of zero. *)
Definition source_distance (t : SelectionTable) (sel : nat) : Z :=
  match base_of t sel with
  | Some base => byte_at (st_offsets t) sel - byte_at (st_offsets t) base
  | None => 0
  end.

Definition seed_lens (t : SelectionTable) (order : list nat) (lens : list Z) : list Z :=
  foldl (fun lens sel => <[sel := toUint16 (header_len t sel (source_distance t sel))]> lens) lens order.

(** The offsets of the rows, and the end of the last. *)
Fixpoint place (t : SelectionTable) (lens : list Z) (order : list nat) (cursor : Z) (offsets : list Z)
  : list Z * Z :=
  match order with
  | [] => (offsets, cursor)
  | sel :: r =>
    place t lens r (cursor + byte_at lens sel + byte_at (st_payloadLens t) sel) (<[sel := cursor]> offsets)
  end.

Fixpoint adjust (t : SelectionTable) (offsets : list Z) (order : list nat) (lens : list Z) (changed : bool)
  : list Z * bool :=
  match order with
  | [] => (lens, changed)
  | sel :: r =>
    match (if byte_at (st_typeCodes t) sel =? 6 then base_of t sel else None) with
    | None => adjust t offsets r lens changed
    | Some base =>
      let nextLen := byte_at (st_sizeVarLens t) sel
                     + ofsDeltaDistanceLength (byte_at offsets sel - byte_at offsets base) in
      if negb (nextLen =? byte_at lens sel)
      then adjust t offsets r (<[sel := toUint16 nextLen]> lens) true
      else adjust t offsets r lens changed
    end
  end.

Definition HEADER_STABILITY_CAP : nat := 16.

Fixpoint stabilize (iterations : nat) (t : SelectionTable) (order : list nat) (lens offsets : list Z)
  : bool * list Z * list Z :=
  match iterations with
  | O => (false, lens, offsets)
  | S iterations =>
    let '(offsets, cursor) := place t lens order 12 offsets in
    let '(lens, changed) := adjust t offsets order lens false in
    if negb changed then (negb (4294967295 <? cursor), lens, offsets)
    else stabilize iterations t order lens offsets
  end.

Definition computeHeaderLengths (t : SelectionTable) : bool * SelectionTable :=
  let order := take (st_count t) (st_outputOrder t) in
  let lens := seed_lens t order (st_outputHeaderLens t) in
  let '(ok, lens, offsets) := stabilize HEADER_STABILITY_CAP t order lens (st_outputOffsets t) in
  (ok, with_layout offsets lens (st_outputOrder t) t).

(** *** The stream *)

Definition buildEntryHeaderBytes (t : SelectionTable) (sel : nat) : option (list Z) :=
  let type := byte_at (st_typeCodes t) sel in
  let svLen := byte_at (st_sizeVarLens t) sel in
  let sizeVar := slice (st_sizeVarBuf t) (sel * 5) (Z.to_nat svLen) in
  if svLen =? 0 then None
  else if type =? 6 then
    base ← base_of t sel;
    Some (sizeVar ++ encodeOfsDeltaDistance (byte_at (st_outputOffsets t) sel - byte_at (st_outputOffsets t) base))
  else if type =? 7 then
    raw ← st_baseOidRaw t;
    Some (sizeVar ++ slice raw (sel * 20) 20)
  else Some sizeVar.

(** The payload: the synthetic one, or the bytes [packs] holds at its place. *)
Definition packPayload (packs : Z -> list Z) (t : SelectionTable) (sel : nat) : list Z :=
  match mjoin (st_syntheticPayloads t !! sel) with
  | Some payload => payload
  | None =>
    slice (packs (byte_at (st_packSlots t) sel))
      (Z.to_nat (byte_at (st_offsets t) sel + byte_at (st_headerLens t) sel))
      (Z.to_nat (byte_at (st_payloadLens t) sel))
  end.

(** The entries in the order given; [None]: a row has no header and the stream
    fails. *)
Fixpoint rewrite_entries (packs : Z -> list Z) (t : SelectionTable) (order : list nat) : option (list Z) :=
  match order with
  | [] => Some []
  | sel :: r =>
    header ← buildEntryHeaderBytes t sel;
    rest ← rewrite_entries packs t r;
    Some (header ++ packPayload packs t sel ++ rest)
  end.

Definition rewriteStream (sha1 : list Z -> list Z) (packs : Z -> list Z) (t : SelectionTable) : option (list Z) :=
  entries ← rewrite_entries packs t (take (st_count t) (st_outputOrder t));
  let body := buildPackHeader (Z.of_nat (st_count t)) ++ entries in
  Some (body ++ sha1 body).

Definition packBytes (t : SelectionTable) : Z :=
  foldl (fun n index => n + (byte_at (st_outputHeaderLens t) index + byte_at (st_payloadLens t) index)) (12 + 20)
    (seq 0 (st_count t)).

Inductive RewriteFailure := TopologyIncomplete | HeaderLengthsDidNotConverge.

(** The multi-pack branch of [rewritePackResult]: the size announced and the
    stream, or why there is none. *)
Definition rewritePackResult (sha1 : list Z -> list Z) (packs : Z -> list Z) (t : SelectionTable)
  : option (RewriteFailure + Z * option (list Z)) :=
  '(ordered, t) ← buildOutputOrder t;
  if negb ordered then Some (inl TopologyIncomplete) else
  let '(sized, t) := computeHeaderLengths t in
  if negb sized then Some (inl HeaderLengthsDidNotConverge) else
  Some (inr (packBytes t, rewriteStream sha1 packs t)).

(** ** The order *)

(** A row whose chain of bases ends. *)
Inductive grounded (t : SelectionTable) : nat -> Prop :=
| grounded_intro sel : (forall b, base_of t sel = Some b -> grounded t b) -> grounded t sel.

(** The bases of rows are rows. *)
Definition bases_within (t : SelectionTable) : Prop :=
  forall sel b, (sel < st_count t)%nat -> base_of t sel = Some b -> (b < st_count t)%nat.

(** A row that can be written after the rows [out]. *)
Definition ready (t : SelectionTable) (out : list nat) (sel : nat) : Prop :=
  forall b, base_of t sel = Some b -> b ∈ out.

#[export] Instance compareSelectionSlots_ok t : Comparator (compareSelectionSlots t).
Proof.
  split; unfold compareSelectionSlots; intros;
    repeat match goal with
    | |- context [negb (?x =? 0)] => destruct (Z.eqb_spec x 0); cbn [negb]
    | H : context [negb (?x =? 0)] |- _ => destruct (Z.eqb_spec x 0); cbn [negb] in *
    end; lia.
Qed.

Fixpoint children (t : SelectionTable) (k b : nat) : list nat :=
  match k with
  | O => []
  | S k => if decide (base_of t k = Some b) then k :: children t k b else children t k b
  end.

Lemma elem_of_children t k b c : c ∈ children t k b <-> (c < k)%nat /\ base_of t c = Some b.
Proof.
  induction k as [|k IH]; cbn; [split; [set_solver|lia]|].
  case_decide; rewrite ?elem_of_cons, IH; split.
  - intros [->|[? ?]]; split; auto; lia.
  - intros [? ?]. destruct (decide (c = k)); [by left|right; split; [lia|done]].
  - intros [? ?]; split; [lia|done].
  - intros [? ?]; split; [|done]. assert (c <> k) by congruence. lia.
Qed.

Lemma children_NoDup t k b : NoDup (children t k b).
Proof.
  induction k as [|k IH]; cbn; [apply NoDup_nil_2|]. case_decide; [|done].
  constructor; [|done]. rewrite elem_of_children. lia.
Qed.

Lemma children_length t k b : (length (children t k b) <= k)%nat.
Proof. induction k as [|k IH]; cbn; [done|]. case_decide; cbn; lia. Qed.

(** The linked list from [h] spells the rows [l]. *)
Fixpoint spells (next : list Z) (h : Z) (l : list nat) : Prop :=
  match l with [] => h = -1 | c :: r => h = Z.of_nat c /\ spells next (cell next c) r end.

Lemma spells_insert next h l k v : k ∉ l -> spells next h l -> spells (<[k := v]> next) h l.
Proof.
  revert h; induction l as [|c l IH]; cbn; [done|]. intros h Hk [-> H]. split; [done|].
  unfold cell. rewrite list_lookup_insert_ne by set_solver. apply IH; [set_solver|done].
Qed.

Record graph_of (t : SelectionTable) (k : nat) (g : Graph) : Prop := {
  gr_degree_len : length (g_indegree g) = st_count t;
  gr_head_len : length (g_childHead g) = st_count t;
  gr_next_len : length (g_childNext g) = st_count t;
  gr_degree : forall c, byte_at (g_indegree g) c = if decide (c < k /\ is_Some (base_of t c))%nat then 1 else 0;
  gr_spells : forall b, (b < st_count t)%nat -> spells (g_childNext g) (cell (g_childHead g) b) (children t k b) }.

Lemma cell_insert l i v j :
  (i < length l)%nat -> cell (<[i := v]> l) j = if decide (j = i) then v else cell l j.
Proof.
  intros. unfold cell. case_decide; [subst; by rewrite list_lookup_insert_eq|].
  by rewrite list_lookup_insert_ne.
Qed.

Lemma add_edge_graph t g k :
  bases_within t -> (k < st_count t)%nat -> graph_of t k g -> graph_of t (S k) (add_edge t g k).
Proof.
  intros Hb Hk [Hd Hh Hn Hdeg Hsp]. unfold add_edge.
  destruct (base_of t k) as [b|] eqn:E.
  - pose proof (Hb _ _ Hk E) as Hbn. split; cbn; rewrite ?length_insert; try done.
    + intros c. rewrite byte_at_insert by lia. rewrite !Hdeg.
      destruct (decide (c = k)) as [->|Hne].
      * rewrite decide_False by lia. rewrite decide_True by (rewrite E; split; [lia|eauto]). done.
      * apply decide_ext. split; intros [? ?]; split; auto; lia.
    + intros b' Hb'. rewrite cell_insert by lia.
      destruct (decide (b' = b)) as [->|Hne].
      * rewrite decide_True by done. split; [done|].
        rewrite cell_insert, decide_True by lia. apply spells_insert; [rewrite elem_of_children; lia|auto].
      * rewrite decide_False by congruence. apply spells_insert; [rewrite elem_of_children; lia|auto].
  - split; try done; cbn.
    + intros c. rewrite Hdeg. apply decide_ext. split; intros [? Hs]; split; auto; try lia.
      assert (c <> k); [|lia]. intros ->. rewrite E in Hs. by destruct Hs.
    + intros b' Hb'. rewrite decide_False by congruence. auto.
Qed.

Lemma dependency_graph_ok t : bases_within t -> graph_of t (st_count t) (dependency_graph t).
Proof.
  intros Hb. unfold dependency_graph. set (g0 := mkGraph _ _ _).
  assert (forall k, (k <= st_count t)%nat -> graph_of t k (foldl (add_edge t) g0 (seq 0 k))) as H; [|by apply H].
  induction k as [|k IH]; intros Hk.
  - split; cbn; rewrite ?length_replicate; try done.
    + intros c. rewrite decide_False by lia. unfold byte_at.
      destruct (decide (c < st_count t)%nat); [by rewrite lookup_replicate_2|].
      by rewrite lookup_ge_None_2 by (rewrite length_replicate; lia).
    + intros b Hlt. unfold cell. by rewrite lookup_replicate_2.
  - rewrite seq_S, foldl_app. apply add_edge_graph; [done|lia|]. apply IH. lia.
Qed.

Lemma release_spec t next fuel : forall l child indegree heap,
  (length l <= fuel)%nat -> spells next child l -> NoDup l ->
  (forall c, c ∈ l -> (c < length indegree)%nat /\ byte_at indegree c = 1) ->
  exists indegree' heap', release fuel t next child indegree heap = Some (indegree', heap') /\
    length indegree' = length indegree /\
    (forall c, byte_at indegree' c = if decide (c ∈ l) then 0 else byte_at indegree c) /\
    heap' ≡ₚ l ++ heap /\
    (Heap.heap (compareSelectionSlots t) heap -> Heap.heap (compareSelectionSlots t) heap').
Proof.
  induction fuel as [|fuel IH]; intros [|c l] child indegree heap Hl Hs Hd Hone; cbn in Hl, Hs; try lia.
  - subst child. exists indegree, heap; cbn. split_and!; done.
  - subst child. exists indegree, heap; cbn. split_and!; done.
  - destruct Hs as [-> Hs]. apply NoDup_cons in Hd as [Hc Hd].
    destruct (Hone c) as [Hlt H1]; [left|].
    cbn [release]. replace (Z.of_nat c <? 0) with false by (symmetry; apply Z.ltb_ge; lia).
    rewrite Nat2Z.id, H1. change (toUint8 (1 - 1)) with 0. cbn [Z.eqb].
    destruct (IH l (cell next c) (<[c := 0]> indegree) (push (compareSelectionSlots t) c heap))
      as (indegree' & heap' & -> & Hlen & Hdeg & Hp & Hh); [lia|done|done|..].
    { intros c' Hc'. rewrite length_insert. destruct (Hone c') as [? ?]; [by right|]. split; [done|].
      rewrite byte_at_insert, decide_False by (done || set_solver). done. }
    exists indegree', heap'. split_and!; [done|by rewrite Hlen, length_insert|..].
    + intros c'. rewrite Hdeg, byte_at_insert by done.
      destruct (decide (c' = c)) as [->|].
      * rewrite (decide_True (P := c ∈ c :: l)) by left. by case_decide.
      * apply decide_ext. set_solver.
    + rewrite Hp, push_perm. symmetry; apply Permutation_middle.
    + intros. by apply Hh, push_heap; [apply _|].
Qed.

Record ordering (t : SelectionTable) (out heap : list nat) (indegree : list Z) : Prop := {
  od_nodup : NoDup (out ++ heap);
  od_ready : forall x, x ∈ out ++ heap <-> (x < st_count t)%nat /\ ready t out x;
  od_len : length indegree = st_count t;
  od_degree : forall x b, (x < st_count t)%nat -> base_of t x = Some b -> b ∉ out -> byte_at indegree x = 1;
  od_order : forall i x, out !! i = Some x -> ready t (take i out) x;
  od_least : forall i x j, out !! i = Some x -> (j < st_count t)%nat -> j ∉ take i out ->
    ready t (take i out) j -> compareSelectionSlots t x j <= 0;
  od_heap : Heap.heap (compareSelectionSlots t) heap }.

(** Emitting the least row of the heap and releasing its children. *)
Lemma ordering_step t out heap indegree sel heap1 indegree' heap' :
  ordering t out heap indegree -> pop (compareSelectionSlots t) heap = (Some sel, heap1) ->
  length indegree' = length indegree ->
  (forall c, byte_at indegree' c = if decide (c ∈ children t (st_count t) sel) then 0 else byte_at indegree c) ->
  heap' ≡ₚ children t (st_count t) sel ++ heap1 ->
  (Heap.heap (compareSelectionSlots t) heap1 -> Heap.heap (compareSelectionSlots t) heap') ->
  ordering t (out ++ [sel]) heap' indegree'.
Proof.
  intros [Hd Hr Hl Hdeg Ho Hm Hh] Hpop Hl' Hdeg' Hp' Hh'.
  pose proof (pop_perm _ _ _ _ Hpop) as Hp.
  destruct (pop_heap _ _ _ _ Hh Hpop) as [Hh1 Hmin].
  assert (forall x, x ∈ heap <-> x = sel \/ x ∈ heap1) as Hin by (intros; by rewrite Hp, elem_of_cons).
  rewrite Hp in Hd. apply NoDup_app in Hd as (Hd1 & Hdis & [Hsel Hd2]%NoDup_cons).
  assert (forall c, c ∈ children t (st_count t) sel -> c ∉ out /\ c ∉ sel :: heap1) as Hch.
  { intros c [Hc E]%elem_of_children.
    assert (~ (c ∈ out ++ heap)) as N; [|rewrite elem_of_app, Hp in N; tauto].
    rewrite Hr. intros [_ Hb]. specialize (Hb _ E). apply (Hdis sel); [done|left]. }
  split.
  - rewrite <- app_assoc, Hp'. cbn. apply NoDup_app; split_and!; [done|..].
    + intros x Hx. specialize (Hdis x Hx).
      rewrite !not_elem_of_cons in *. rewrite not_elem_of_app. split; [tauto|]. split; [|tauto].
      intros Hc. by apply Hch in Hc as [? _].
    + constructor.
      * rewrite not_elem_of_app. split; [|done]. intros Hc. apply Hch in Hc as [_ Hc]. set_solver.
      * apply NoDup_app; split_and!; [apply children_NoDup| |done].
        intros x Hc. apply Hch in Hc as [_ Hc]. set_solver.
  - intros x. rewrite <- app_assoc, !elem_of_app, Hp', elem_of_app, elem_of_children, list_elem_of_singleton.
    specialize (Hr x). rewrite elem_of_app, Hin in Hr. unfold ready in *. split.
    + intros [Hx|[Hx|[[Hx E]|Hx]]].
      1,2,4: destruct (proj1 Hr ltac:(tauto)) as [? Hb]; split; [done|]; intros b Eb; apply elem_of_app; auto.
      split; [done|]. intros b Eb. assert (b = sel) as -> by congruence. set_solver.
    + intros [Hx Hb]. destruct (base_of t x) as [b|] eqn:E.
      * destruct (decide (b = sel)) as [->|Hne]; [tauto|].
        assert (b ∈ out) by (specialize (Hb b eq_refl); set_solver).
        assert (forall b', Some b = Some b' -> b' ∈ out) by (intros; congruence). tauto.
      * assert (forall b', None = Some b' -> b' ∈ out) by done. tauto.
  - congruence.
  - intros x b Hx E Hb. rewrite Hdeg'. rewrite decide_False; [apply (Hdeg x b); try done; set_solver|].
    rewrite elem_of_children. intros [_ E']. assert (b = sel) as -> by congruence. set_solver.
  - intros i x [Hx|[Hi Hx]]%lookup_app_Some.
    + rewrite take_app_le by (apply lookup_lt_Some in Hx; lia). eauto.
    + destruct (i - length out)%nat eqn:Ei; [|done]. injection Hx as <-.
      rewrite take_app_length' by lia. apply (proj1 (Hr sel)). rewrite elem_of_app, Hin. tauto.
  - intros i x j [Hx|[Hi Hx]]%lookup_app_Some.
    + rewrite take_app_le by (apply lookup_lt_Some in Hx; lia). eauto.
    + destruct (i - length out)%nat eqn:Ei; [|done]. injection Hx as <-.
      rewrite take_app_length' by lia. intros Hj Hn Hrj.
      rewrite Forall_forall in Hmin. apply Hmin.
      assert (j ∈ out ++ heap) as Hjj by (by apply Hr). rewrite elem_of_app in Hjj. tauto.
  - auto.
Qed.

Lemma ordering_length t out heap indegree : ordering t out heap indegree -> (length (out ++ heap) <= st_count t)%nat.
Proof.
  intros [Hd Hr _ _ _ _ _]. rewrite <- (length_seq (st_count t) 0).
  apply submseteq_length, NoDup_submseteq; [done|]. intros x [Hx _]%Hr. apply elem_of_seq. lia.
Qed.

Lemma order_loop_spec t g fuel : forall out heap indegree arr,
  bases_within t -> graph_of t (st_count t) g ->
  ordering t out heap indegree -> (st_count t <= length out + fuel)%nat ->
  (st_count t <= length arr)%nat -> take (length out) arr = out ->
  exists arr' out' indegree', order_loop fuel t g indegree heap arr (length out) = Some (arr', length out') /\
    take (length out') arr' = out' /\ length arr' = length arr /\ ordering t out' [] indegree'.
Proof.
  induction fuel as [|fuel IH]; intros out heap indegree arr Hb Hg H Hf Ha Ht;
    cbn [order_loop]; destruct (pop (compareSelectionSlots t) heap) as [[sel|] heap1] eqn:Hpop;
    try (apply pop_None in Hpop as ->; by exists arr, out, indegree);
    pose proof (pop_perm _ _ _ _ Hpop) as Hp; pose proof (ordering_length _ _ _ _ H) as Hlen;
    rewrite Hp, length_app in Hlen; cbn in Hlen; [lia|].
  assert (sel < st_count t)%nat as Hsel.
  { apply (od_ready _ _ _ _ H). rewrite Hp. set_solver. }
  assert (sel ∉ out) as Hso.
  { pose proof (od_nodup _ _ _ _ H) as Hd. rewrite Hp in Hd. apply NoDup_app in Hd as (_ & Hd & _).
    intros Hs. apply (Hd sel Hs). left. }
  destruct (release_spec t (g_childNext g) (st_count t) (children t (st_count t) sel)
    (cell (g_childHead g) sel) indegree heap1) as (indegree' & heap' & -> & Hl' & Hdeg' & Hp' & Hh').
  { apply children_length. }
  { by apply (gr_spells _ _ _ Hg). }
  { apply children_NoDup. }
  { intros c [Hc E]%elem_of_children. rewrite (od_len _ _ _ _ H). split; [done|].
    by apply (od_degree _ _ _ _ H c sel). }
  cbn. destruct (IH (out ++ [sel]) heap' indegree' (<[length out := sel]> arr))
    as (arr' & out' & indegree'' & E & Et & El & Ho); try done.
  - by eapply ordering_step.
  - rewrite length_app; cbn; lia.
  - rewrite length_insert. lia.
  - rewrite length_app; cbn. rewrite Nat.add_1_r, (take_S_r _ _ sel).
    + rewrite take_insert_ge by lia. by rewrite Ht.
    + apply list_lookup_insert_eq. lia.
  - rewrite length_app, Nat.add_1_r in E. rewrite length_insert in El. eauto 10.
Qed.

Lemma ordering_grounded t out heap indegree : ordering t out heap indegree -> Forall (grounded t) out.
Proof.
  intros H. apply Forall_lookup. intros i. induction (lt_wf i) as [i _ IH]. intros x Hx.
  constructor. intros b Hb%(od_order _ _ _ _ H i x Hx).
  apply list_elem_of_lookup in Hb as [j Hj]. apply lookup_take_Some in Hj as [Hj Hlt]. eauto.
Qed.

Lemma ordering_complete t out indegree :
  bases_within t -> ordering t out [] indegree ->
  forall sel, grounded t sel -> (sel < st_count t)%nat -> sel ∈ out.
Proof.
  intros Hb H. induction 1 as [sel _ IH]. intros Hs.
  rewrite <- (app_nil_r out). apply (od_ready _ _ _ _ H). split; [done|]. intros b E. eauto.
Qed.

(** What [buildOutputOrder] promises of the table it returns. *)
Record ordered (t : SelectionTable) (order : list nat) : Prop := {
  or_perm : order ≡ₚ seq 0 (st_count t);
  or_before : forall i sel, order !! i = Some sel -> ready t (take i order) sel;
  or_least : forall i sel j, order !! i = Some sel -> (j < st_count t)%nat -> j ∉ take i order ->
    ready t (take i order) j -> compareSelectionSlots t sel j <= 0 }.

Lemma roots_ordering t :
  bases_within t ->
  ordering t [] (heap_of (compareSelectionSlots t)
    (js_filter (fun sel => byte_at (g_indegree (dependency_graph t)) sel =? 0) (seq 0 (st_count t))))
    (g_indegree (dependency_graph t)).
Proof.
  intros Hb. pose proof (dependency_graph_ok t Hb) as Hg.
  set (l := js_filter _ _).
  assert (forall x, x ∈ l <-> (x < st_count t)%nat /\ ready t [] x) as Hl.
  { intros x. subst l. rewrite list_elem_of_In. unfold js_filter. rewrite List.filter_In, <- list_elem_of_In, elem_of_seq.
    rewrite (gr_degree _ _ _ Hg), Z.eqb_eq. unfold ready. split.
    - intros [? E]; split; [lia|]. intros b Eb. rewrite decide_True in E by (rewrite Eb; split; [lia|eauto]). done.
    - intros [? Hr]; split; [lia|]. rewrite decide_False; [done|]. intros [_ [b Eb]].
      specialize (Hr b Eb). set_solver. }
  split; cbn [app].
  - rewrite heap_of_perm. subst l. apply NoDup_ListNoDup, List.NoDup_filter, NoDup_ListNoDup, NoDup_seq.
  - intros x. rewrite heap_of_perm. apply Hl.
  - apply Hg.
  - intros x b Hx E _. rewrite (gr_degree _ _ _ Hg), decide_True by (rewrite E; eauto). done.
  - intros i x Hx. by rewrite lookup_nil in Hx.
  - intros i x j Hx. by rewrite lookup_nil in Hx.
  - apply heap_of_heap, _.
Qed.

Lemma buildOutputOrder_spec t :
  bases_within t -> (st_count t <= length (st_outputOrder t))%nat ->
  exists ok order, buildOutputOrder t = Some (ok, with_layout (st_outputOffsets t) (st_outputHeaderLens t) order t) /\
    length order = length (st_outputOrder t) /\
    (ok = true <-> forall sel, (sel < st_count t)%nat -> grounded t sel) /\
    (ok = true -> ordered t (take (st_count t) order)).
Proof.
  intros Hb Ho. pose proof (dependency_graph_ok t Hb) as Hg.
  pose proof (roots_ordering t Hb) as H0.
  destruct (order_loop_spec t (dependency_graph t) (st_count t) [] _ _ (st_outputOrder t) Hb Hg H0)
    as (order & out & indegree & E & Et & El & H); [cbn; lia|done|done|].
  pose proof (ordering_length _ _ _ _ H) as Hlen. rewrite app_nil_r in Hlen.
  assert (length out = st_count t -> out ≡ₚ seq 0 (st_count t)) as Hperm.
  { intros Hn. pose proof (od_nodup _ _ _ _ H) as Hd. rewrite app_nil_r in Hd.
    apply submseteq_length_Permutation; [|by rewrite length_seq, Hn].
    apply NoDup_submseteq; [done|]. intros x Hx. apply elem_of_seq.
    assert (x ∈ out ++ []) as [? _]%(od_ready _ _ _ _ H) by (by rewrite app_nil_r). lia. }
  exists (length out =? st_count t)%nat, order. unfold buildOutputOrder. cbn [length] in E. rewrite E; cbn.
  split_and!; [done|done|..].
  - rewrite Nat.eqb_eq. split.
    + intros Hn sel Hs. pose proof (ordering_grounded _ _ _ _ H) as Hgr. rewrite Forall_forall in Hgr.
      apply Hgr. rewrite (Hperm Hn). apply elem_of_seq. lia.
    + intros Hgr. apply Nat.le_antisymm; [done|]. rewrite <- (length_seq (st_count t) 0) at 1.
      apply submseteq_length, NoDup_submseteq; [apply NoDup_seq|]. intros x Hx%elem_of_seq.
      eapply ordering_complete; [done|done|apply Hgr; lia|lia].
  - rewrite Nat.eqb_eq. intros Hn. rewrite <- Hn, Et. split; [by apply Hperm|apply H|apply H].
Qed.

(** ** Offsets and lengths *)

Fixpoint extent (t : SelectionTable) (lens : list Z) (order : list nat) : Z :=
  match order with
  | [] => 0
  | sel :: r => byte_at lens sel + byte_at (st_payloadLens t) sel + extent t lens r
  end.

Lemma extent_app t lens l r : extent t lens (l ++ r) = extent t lens l + extent t lens r.
Proof. induction l; cbn; lia. Qed.

Lemma extent_perm t lens l r : l ≡ₚ r -> extent t lens l = extent t lens r.
Proof. induction 1; cbn; lia. Qed.

Lemma place_spec t lens : forall order cursor offsets,
  NoDup order -> (forall sel, sel ∈ order -> (sel < length offsets)%nat) ->
  (place t lens order cursor offsets).2 = cursor + extent t lens order /\
  length (place t lens order cursor offsets).1 = length offsets /\
  (forall x, x ∉ order -> byte_at (place t lens order cursor offsets).1 x = byte_at offsets x) /\
  forall pre sel post, order = pre ++ sel :: post ->
    byte_at (place t lens order cursor offsets).1 sel = cursor + extent t lens pre.
Proof.
  induction order as [|s order IH]; intros cursor offsets Hd Hl.
  { cbn. split_and!; [lia|done|done|]. intros [|? ?] ? ? [=]. }
  apply NoDup_cons in Hd as [Hs Hd]. cbn [place].
  destruct (IH (cursor + byte_at lens s + byte_at (st_payloadLens t) s) (<[s := cursor]> offsets) Hd)
    as (E & L & U & P). { intros x Hx. rewrite length_insert. apply Hl. by right. }
  rewrite length_insert in L. split_and!; [cbn; lia|done|..].
  - intros x Hx. rewrite U, byte_at_insert, decide_False by set_solver. done.
  - intros [|y pre] sel post; cbn; intros [= -> ->].
    + rewrite U, byte_at_insert, decide_True by (done || (apply Hl; left)). lia.
    + rewrite (P pre sel post eq_refl). lia.
Qed.

(** The rows whose header holds a distance. *)
Definition distance_row (t : SelectionTable) (sel : nat) : bool :=
  (byte_at (st_typeCodes t) sel =? 6) && bool_decide (is_Some (base_of t sel)).

Definition output_distance (t : SelectionTable) (offsets : list Z) (sel : nat) : Z :=
  match base_of t sel with Some base => byte_at offsets sel - byte_at offsets base | None => 0 end.

(** Size varints of one to five bytes; then no length reaches 2^16. *)
Definition sizes_bounded (t : SelectionTable) : Prop :=
  forall sel, (sel < st_count t)%nat -> 1 <= byte_at (st_sizeVarLens t) sel <= 5.

Lemma distance_length_bound d : 1 <= ofsDeltaDistanceLength d <= 5.
Proof.
  unfold ofsDeltaDistanceLength. case_match; [lia|].
  assert (forall fuel c, (length (distance_groups fuel c) <= fuel)%nat) as Hlen.
  { induction fuel as [|fuel IH]; intros c; cbn [distance_groups]; [done|].
    cbn [length]. case_match; cbn [length]; [lia|]. specialize (IH (Z.shiftr (toUint32 (c - Z.land c 127)) 7 - 1)). lia. }
  specialize (Hlen 5%nat (toUint32 d)).
  assert (length (distance_groups 5 (toUint32 d)) <> 0)%nat by done. lia.
Qed.

Lemma header_len_bound t sel d :
  sizes_bounded t -> (sel < st_count t)%nat -> 1 <= header_len t sel d <= 25.
Proof.
  intros Hs Hlt. specialize (Hs sel Hlt). pose proof (distance_length_bound d). unfold header_len.
  repeat case_match; lia.
Qed.

Lemma header_len_16 t sel d :
  sizes_bounded t -> (sel < st_count t)%nat -> toUint16 (header_len t sel d) = header_len t sel d.
Proof. intros Hs Hl. pose proof (header_len_bound t sel d Hs Hl). unfold toUint16. by rewrite Z.mod_small by lia. Qed.

Lemma header_len_fixed t sel d d' : distance_row t sel = false -> base_of t sel <> None \/ byte_at (st_typeCodes t) sel <> 6 ->
  header_len t sel d = header_len t sel d'.
Proof.
  unfold distance_row, header_len. intros H Hb. destruct (Z.eqb_spec (byte_at (st_typeCodes t) sel) 6) as [E|]; [|done].
  cbn in H. apply bool_decide_eq_false in H. destruct Hb as [Hb|]; [|done].
  destruct (base_of t sel); [|done]. destruct H. eauto.
Qed.

Section Lengths.
Context (t : SelectionTable) (order : list nat).
Context (Hsizes : sizes_bounded t).
Context (Hbases : forall sel, (sel < st_count t)%nat -> byte_at (st_typeCodes t) sel = 6 -> base_of t sel <> None).
Context (Hnodup : NoDup order) (Hwithin : forall sel, sel ∈ order -> (sel < st_count t)%nat).

(** Lengths that are final except where a distance is written. *)
Definition settled (lens : list Z) : Prop :=
  (st_count t <= length lens)%nat /\
  forall sel, sel ∈ order -> distance_row t sel = false -> byte_at lens sel = header_len t sel 0.

Lemma fixed_len sel d : (sel < st_count t)%nat -> distance_row t sel = false -> header_len t sel d = header_len t sel 0.
Proof.
  intros Hs Hd. apply header_len_fixed; [done|]. destruct (decide (byte_at (st_typeCodes t) sel = 6)); [left; auto|by right].
Qed.

Lemma seed_other s l : forall lens,
  s ∉ l -> (forall x, x ∈ l -> (x < st_count t)%nat) -> (st_count t <= length lens)%nat ->
  byte_at (seed_lens t l lens) s = byte_at lens s.
Proof.
  induction l as [|x l IH]; intros lens Hx Hw Hl; [done|].
  apply not_elem_of_cons in Hx as [Hx Hs]. assert (x < st_count t)%nat by (apply Hw; left).
  unfold seed_lens; cbn [foldl]. fold (seed_lens t l (<[x := toUint16 (header_len t x (source_distance t x))]> lens)).
  rewrite IH; [|done|intros y Hy; apply Hw; by right|rewrite length_insert; lia].
  by rewrite byte_at_insert, decide_False by (done || lia).
Qed.

Lemma seed_spec l : forall lens,
  NoDup l -> (forall x, x ∈ l -> (x < st_count t)%nat) -> (st_count t <= length lens)%nat ->
  (st_count t <= length (seed_lens t l lens))%nat /\
  forall sel, sel ∈ l -> byte_at (seed_lens t l lens) sel = header_len t sel (source_distance t sel).
Proof.
  induction l as [|s l IH]; intros lens Hd Hw Hl; [split; [done|intros ? []%not_elem_of_nil]|].
  apply NoDup_cons in Hd as [Hs Hd]. assert (s < st_count t)%nat as Hsn by (apply Hw; left).
  unfold seed_lens; cbn [foldl]. fold (seed_lens t l (<[s := toUint16 (header_len t s (source_distance t s))]> lens)).
  assert (forall x, x ∈ l -> (x < st_count t)%nat) as Hw' by (intros x Hx; apply Hw; by right).
  destruct (IH (<[s := toUint16 (header_len t s (source_distance t s))]> lens) Hd Hw') as [L H].
  { rewrite length_insert; lia. }
  split; [done|]. intros sel [->|Hsel]%elem_of_cons; [|auto].
  rewrite seed_other; [|done|done|rewrite length_insert; lia].
  rewrite byte_at_insert, decide_True by (done || lia). by apply header_len_16.
Qed.

Lemma seed_settled lens : (st_count t <= length lens)%nat -> settled (seed_lens t order lens).
Proof.
  intros Hl. destruct (seed_spec order lens Hnodup Hwithin Hl) as [L H]. split; [done|].
  intros sel Hs Hd. rewrite H by done. apply fixed_len; auto.
Qed.

Lemma adjust_spec offsets l : forall lens changed,
  (forall sel, sel ∈ l -> (sel < st_count t)%nat) -> (st_count t <= length lens)%nat ->
  let '(lens', changed') := adjust t offsets l lens changed in
  length lens' = length lens /\
  (forall x, distance_row t x = false -> byte_at lens' x = byte_at lens x) /\
  (changed' = false -> changed = false /\ lens' = lens /\
    forall sel, sel ∈ l -> distance_row t sel = true ->
      byte_at lens sel = header_len t sel (output_distance t offsets sel)).
Proof.
  induction l as [|s l IH]; intros lens changed Hw Hl; cbn [adjust]; [split_and!; try done; intros; set_solver|].
  assert (s < st_count t)%nat as Hs by (apply Hw; left).
  destruct (distance_row t s) eqn:Hd.
  - pose proof Hd as Hd'. unfold distance_row in Hd'. apply andb_true_iff in Hd' as [E6 [base Eb]%bool_decide_eq_true].
    rewrite E6, Eb.
    set (nextLen := byte_at (st_sizeVarLens t) s + _).
    assert (nextLen = header_len t s (output_distance t offsets s)) as En.
    { unfold header_len, output_distance. by rewrite E6, Eb. }
    destruct (Z.eqb_spec nextLen (byte_at lens s)) as [Heq|Hne]; cbn [negb].
    + specialize (IH lens changed ltac:(set_solver) Hl). destruct (adjust t offsets l lens changed) as [lens' ch].
      destruct IH as (? & ? & H). split_and!; try done. intros Hch. destruct (H Hch) as (? & ? & Hall).
      split_and!; try done. intros sel [->|Hsel]%elem_of_cons; [congruence|auto].
    + specialize (IH (<[s := toUint16 nextLen]> lens) true ltac:(set_solver) ltac:(rewrite length_insert; lia)).
      destruct (adjust t offsets l _ true) as [lens' ch]. destruct IH as (L & U & H).
      rewrite length_insert in L. split_and!; [done|..].
      * intros x Hx. rewrite U, byte_at_insert, decide_False by (try lia; congruence). done.
      * intros Hch. by destruct (H Hch) as [? _].
  - assert ((if byte_at (st_typeCodes t) s =? 6 then base_of t s else None) = None) as ->.
    { unfold distance_row in Hd. destruct (_ =? 6); [|done]. destruct (base_of t s); [|done].
      rewrite bool_decide_true in Hd by eauto. done. }
    specialize (IH lens changed ltac:(set_solver) Hl). destruct (adjust t offsets l lens changed) as [lens' ch].
    destruct IH as (? & ? & H). split_and!; try done. intros Hch. destruct (H Hch) as (? & ? & Hall).
    split_and!; try done. intros sel [->|Hsel]%elem_of_cons; [congruence|auto].
Qed.

(** The layout a table announces: every header is as long as its distance needs,
    every row starts where the rows before it end, and the whole fits 32 bits. *)
Record laid_out (lens offsets : list Z) : Prop := {
  lo_len : forall sel, sel ∈ order -> byte_at lens sel = header_len t sel (output_distance t offsets sel);
  lo_offset : forall pre sel post, order = pre ++ sel :: post -> byte_at offsets sel = 12 + extent t lens pre;
  lo_total : 12 + extent t lens order <= 4294967295 }.

Lemma stabilize_spec n : forall lens offsets,
  settled lens -> (st_count t <= length offsets)%nat ->
  let '(ok, lens', offsets') := stabilize n t order lens offsets in ok = true -> laid_out lens' offsets'.
Proof.
  induction n as [|n IH]; intros lens offsets [Hl Hse] Ho; cbn [stabilize]; [done|].
  destruct (place_spec t lens order 12 offsets Hnodup) as (E & L & _ & P).
  { intros sel Hs%Hwithin. lia. }
  destruct (place t lens order 12 offsets) as [offsets1 cursor]; cbn in E, L, P.
  pose proof (adjust_spec offsets1 order lens false Hwithin Hl) as Ha.
  destruct (adjust t offsets1 order lens false) as [lens1 changed]. destruct Ha as (L1 & U & H).
  destruct changed; cbn [negb].
  - apply IH; [|lia]. split; [lia|]. intros sel Hs Hd. rewrite U by done. auto.
  - destruct (H eq_refl) as (_ & -> & Hall). intros Hok. apply negb_true_iff, Z.ltb_ge in Hok.
    split; [|done|lia]. intros sel Hs. destruct (distance_row t sel) eqn:Hd; [auto|].
    rewrite Hse by done. symmetry. apply fixed_len; auto.
Qed.

End Lengths.

(** ** The stream *)

(** A row whose columns were filled from a pack entry: its size bytes are a varint
    whose first byte has the type, a delta has its base, and the payload is as
    long as announced. *)
Record row_ok (packs : Z -> list Z) (t : SelectionTable) (sel : nat) : Prop := {
  ro_size : 1 <= byte_at (st_sizeVarLens t) sel <= 5;
  ro_bytes : exists c more,
    slice (st_sizeVarBuf t) (sel * 5) (Z.to_nat (byte_at (st_sizeVarLens t) sel)) = c :: more /\
    length (c :: more) = Z.to_nat (byte_at (st_sizeVarLens t) sel) /\
    size_var c more = Some (more, []) /\ Z.land (Z.shiftr c 4) 7 = byte_at (st_typeCodes t) sel;
  ro_base : byte_at (st_typeCodes t) sel = 6 -> base_of t sel <> None;
  ro_oid : byte_at (st_typeCodes t) sel = 7 -> exists raw, st_baseOidRaw t = Some raw /\ length (slice raw (sel * 20) 20) = 20%nat;
  ro_payload : Z.of_nat (length (packPayload packs t sel)) = byte_at (st_payloadLens t) sel }.

Lemma size_var_more c more rest tail :
  size_var c more = Some (more, rest) -> rest = [] -> size_var c (more ++ tail) = Some (more, tail).
Proof.
  revert c; induction more as [|m more IH]; intros c; rewrite size_var_eq.
  - destruct (Z.land c 128 =? 0) eqn:E; [|done]. intros _ _. cbn [app]. rewrite size_var_eq, E. done.
  - destruct (Z.land c 128 =? 0) eqn:E; [done|]. intros H ->.
    destruct (size_var m more) as [[a b]|] eqn:Em; cbn in H; [|done]. injection H as -> ->.
    cbn [app]. rewrite size_var_eq, E, (IH m) by done. done.
Qed.

Definition row_size (t : SelectionTable) (sel : nat) : list Z :=
  slice (st_sizeVarBuf t) (sel * 5) (Z.to_nat (byte_at (st_sizeVarLens t) sel)).

(** The header of a row is written, has the length announced, and is read back
    with the type, the size bytes and the base it was written from. *)
Lemma row_header packs t sel :
  row_ok packs t sel ->
  (byte_at (st_typeCodes t) sel = 6 -> 0 <= output_distance t (st_outputOffsets t) sel < 2 ^ 32) ->
  exists bytes, buildEntryHeaderBytes t sel = Some bytes /\
    Z.of_nat (length bytes) = header_len t sel (output_distance t (st_outputOffsets t) sel) /\
    forall pre rest, exists hdr,
      readPackHeaderExFromBuf (pre ++ bytes ++ rest) (length pre) = Some hdr /\
      hdr_type hdr = byte_at (st_typeCodes t) sel /\ sizeVarBytes hdr = row_size t sel /\
      headerLen hdr = Z.of_nat (length bytes) /\
      (hdr_type hdr = 6 -> baseRel hdr = Some (output_distance t (st_outputOffsets t) sel)) /\
      (hdr_type hdr = 7 -> exists raw, st_baseOidRaw t = Some raw /\
        baseOid hdr = Some (bytesToHex (slice raw (sel * 20) 20))).
Proof.
  intros [Hsz (c & more & Ebytes & Hlen & Hvar & Htype) Hbase Hoid _] Hd.
  unfold buildEntryHeaderBytes, header_len. fold (row_size t sel) in *.
  destruct (Z.eqb_spec (byte_at (st_sizeVarLens t) sel) 0) as [E|_]; [lia|].
  destruct (Z.eqb_spec (byte_at (st_typeCodes t) sel) 6) as [E6|N6].
  - specialize (Hd E6). specialize (Hbase E6). unfold output_distance in *.
    destruct (base_of t sel) as [base|]; [|done]; cbn.
    set (d := _ - _) in *. eexists; split; [done|]. rewrite Ebytes.
    destruct (distance_roundtrip d [] Hd) as (_ & _ & _ & _ & Hdl).
    split; [rewrite length_app, Nat2Z.inj_add, Hlen, Hdl; lia|].
    intros pre rest. destruct (distance_roundtrip d rest Hd) as (byte & buf & Eb & Hread & _).
    unfold readPackHeaderExFromBuf. rewrite drop_app_length. rewrite <- app_assoc, <- app_comm_cons.
    rewrite (size_var_more c more [] _ Hvar eq_refl), Htype, E6. cbn [Z.eqb Pos.eqb].
    rewrite Eb, Hread. cbn [fmap option_fmap option_map]. eexists; split; [done|]. cbn.
    split_and!; try done. rewrite length_app. lia.
  - destruct (Z.eqb_spec (byte_at (st_typeCodes t) sel) 7) as [E7|N7].
    + destruct (Hoid E7) as (raw & -> & H20); cbn. eexists; split; [done|]. rewrite Ebytes.
      split; [rewrite length_app, Hlen, H20; lia|].
      intros pre rest. unfold readPackHeaderExFromBuf. rewrite drop_app_length. rewrite <- app_assoc, <- app_comm_cons.
      rewrite (size_var_more c more [] _ Hvar eq_refl), Htype, E7. cbn [Z.eqb Pos.eqb].
      rewrite (proj2 (Nat.ltb_ge _ _)) by (rewrite length_app; lia).
      rewrite take_app_length' by done. eexists; split; [done|]. cbn. split_and!; try done; eauto.
      rewrite length_app, H20. lia.
    + eexists; split; [done|]. rewrite Ebytes. split; [rewrite Hlen; lia|].
      intros pre rest. unfold readPackHeaderExFromBuf. rewrite drop_app_length, <- app_comm_cons.
      rewrite (size_var_more c more [] _ Hvar eq_refl), Htype.
      destruct (Z.eqb_spec (byte_at (st_typeCodes t) sel) 7); [done|].
      destruct (Z.eqb_spec (byte_at (st_typeCodes t) sel) 6); [done|].
      eexists; split; [done|]. cbn. by split_and!.
Qed.

Section Stream.
Context (packs : Z -> list Z) (t : SelectionTable) (lens : list Z).

(** The entries of rows that have headers of the lengths [lens]. *)
Lemma rewrite_entries_spec order :
  (forall sel, sel ∈ order -> row_ok packs t sel /\
    exists bytes, buildEntryHeaderBytes t sel = Some bytes /\ Z.of_nat (length bytes) = byte_at lens sel) ->
  exists entries, rewrite_entries packs t order = Some entries /\
    Z.of_nat (length entries) = extent t lens order /\
    forall pre sel post, order = pre ++ sel :: post ->
      exists before bytes after, buildEntryHeaderBytes t sel = Some bytes /\
        entries = before ++ bytes ++ packPayload packs t sel ++ after /\
        Z.of_nat (length before) = extent t lens pre.
Proof.
  induction order as [|s order IH]; intros H.
  { exists []; cbn. split_and!; [done|done|]. intros [|? ?] ? ? [=]. }
  destruct (H s) as [Hr (bytes & Eb & Lb)]; [left|].
  destruct IH as (entries & E & L & P). { intros sel Hs. apply H. by right. }
  cbn [rewrite_entries]. rewrite Eb; cbn [mbind option_bind]. rewrite E; cbn [mbind option_bind].
  eexists; split; [done|]. split.
  - cbn [extent]. rewrite !length_app, <- L, <- Lb, <- (ro_payload _ _ _ Hr). lia.
  - intros [|y pre] sel post; cbn [app]; intros [= -> ->].
    + exists [], bytes, entries. done.
    + destruct (P pre sel post eq_refl) as (b & by' & a & Eb' & -> & Lp).
      exists (bytes ++ packPayload packs t y ++ b), by', a. split_and!; [done|by rewrite <- !app_assoc|].
      cbn [extent]. rewrite !length_app, <- Lp, <- Lb, <- (ro_payload _ _ _ Hr). lia.
Qed.

End Stream.

Lemma extent_nonneg t lens order :
  (forall sel, sel ∈ order -> 0 <= byte_at lens sel /\ 0 <= byte_at (st_payloadLens t) sel) -> 0 <= extent t lens order.
Proof.
  induction order as [|s order IH]; intros H; cbn; [lia|].
  destruct (H s) as [? ?]; [left|]. assert (0 <= extent t lens order); [|lia].
  apply IH. intros sel Hs. apply H. by right.
Qed.

(** In a laid out order that puts bases first, distances are encodable. *)
Lemma distance_bound t order lens offsets sel base :
  laid_out t order lens offsets ->
  (forall sel, sel ∈ order -> 0 <= byte_at lens sel /\ 0 <= byte_at (st_payloadLens t) sel) ->
  (forall i sel, order !! i = Some sel -> ready t (take i order) sel) ->
  sel ∈ order -> base_of t sel = Some base ->
  0 <= byte_at offsets sel - byte_at offsets base < 2 ^ 32.
Proof.
  intros [_ Ho Ht] Hn Hr Hs Hb. apply list_elem_of_lookup in Hs as [i Hi].
  specialize (Hr i sel Hi base Hb). apply take_drop_middle in Hi.
  apply list_elem_of_split in Hr as (l1 & l2 & E). rewrite E in Hi.
  rewrite (Ho _ _ _ (eq_sym Hi)).
  assert (order = l1 ++ base :: l2 ++ sel :: drop (S i) order) as Hb'
    by (rewrite <- Hi at 1; by rewrite <- app_assoc).
  rewrite (Ho _ _ _ Hb'), extent_app. rewrite Hb', extent_app in Ht. cbn [extent] in *. rewrite extent_app in Ht.
  assert (forall l, (forall x, x ∈ l -> x ∈ order) -> 0 <= extent t lens l) as Hpos.
  { intros l Hl. apply extent_nonneg. auto. }
  pose proof (Hpos l1 ltac:(rewrite Hb'; set_solver)). pose proof (Hpos l2 ltac:(rewrite Hb'; set_solver)).
  pose proof (Hpos (sel :: drop (S i) order) ltac:(intros x Hx; rewrite Hb'; set_solver)).
  destruct (Hn base) as [? ?]; [rewrite Hb'; set_solver|]. lia.
Qed.

(** A table whose arrays have room for its rows and whose bases are rows. *)
Record table_wf (t : SelectionTable) : Prop := {
  tw_bases : bases_within t;
  tw_order : (st_count t <= length (st_outputOrder t))%nat;
  tw_offsets : (st_count t <= length (st_outputOffsets t))%nat;
  tw_lens : (st_count t <= length (st_outputHeaderLens t))%nat }.

Lemma computeHeaderLengths_spec packs t t' :
  table_wf t -> (forall sel, (sel < st_count t)%nat -> row_ok packs t sel) ->
  ordered t (take (st_count t) (st_outputOrder t)) -> computeHeaderLengths t = (true, t') ->
  exists lens offsets, t' = with_layout offsets lens (st_outputOrder t) t /\
    laid_out t (take (st_count t) (st_outputOrder t)) lens offsets.
Proof.
  intros [_ _ Hof Hle] Hrow [Hperm _ _]. unfold computeHeaderLengths.
  set (order := take _ _) in *.
  assert (sizes_bounded t) as Hs by (intros sel Hsel; apply (ro_size _ _ _ (Hrow sel Hsel))).
  assert (NoDup order) as Hd by (rewrite Hperm; apply NoDup_seq).
  assert (forall sel, sel ∈ order -> (sel < st_count t)%nat) as Hw.
  { intros sel. rewrite Hperm. intros ?%elem_of_seq. lia. }
  assert (forall sel, (sel < st_count t)%nat -> byte_at (st_typeCodes t) sel = 6 -> base_of t sel <> None) as Hba.
  { intros sel Hsel. apply (ro_base _ _ _ (Hrow sel Hsel)). }
  pose proof (stabilize_spec t order Hs Hba Hd Hw HEADER_STABILITY_CAP _ (st_outputOffsets t)
    (seed_settled t order Hs Hba Hd Hw _ Hle) Hof) as H.
  destruct (stabilize _ t order _ _) as [[ok lens] offsets]. intros [= -> <-]. eauto.
Qed.

Lemma packBytes_extent t order :
  order ≡ₚ seq 0 (st_count t) -> packBytes t = 32 + extent t (st_outputHeaderLens t) order.
Proof.
  intros H. rewrite (extent_perm _ _ _ _ H). unfold packBytes.
  assert (forall l n, foldl (fun n index => n + (byte_at (st_outputHeaderLens t) index + byte_at (st_payloadLens t) index)) n l
    = n + extent t (st_outputHeaderLens t) l) as E; [|apply (E _ 32)].
  induction l as [|x l IH]; intros n; cbn; [lia|]. rewrite IH. lia.
Qed.

(** The stream of a laid out table. *)
Lemma laid_out_stream sha1 packs t :
  (forall l, length (sha1 l) = 20%nat) -> (forall sel, (sel < st_count t)%nat -> row_ok packs t sel) ->
  let order := take (st_count t) (st_outputOrder t) in
  ordered t order -> laid_out t order (st_outputHeaderLens t) (st_outputOffsets t) ->
  exists out, rewriteStream sha1 packs t = Some out /\ Z.of_nat (length out) = packBytes t /\
    take 12 out = buildPackHeader (Z.of_nat (st_count t)) /\
    forall sel, (sel < st_count t)%nat ->
      exists before bytes after, buildEntryHeaderBytes t sel = Some bytes /\
        out = before ++ bytes ++ packPayload packs t sel ++ after /\
        Z.of_nat (length before) = byte_at (st_outputOffsets t) sel /\
        (byte_at (st_typeCodes t) sel = 6 -> 0 <= output_distance t (st_outputOffsets t) sel < 2 ^ 32).
Proof.
  intros Hsha Hrow order Hord Hlay. pose proof (or_perm _ _ Hord) as Hperm.
  assert (forall sel, sel ∈ order <-> (sel < st_count t)%nat) as Hin.
  { intros sel. rewrite Hperm, elem_of_seq. lia. }
  assert (forall sel, sel ∈ order -> 0 <= byte_at (st_outputHeaderLens t) sel /\ 0 <= byte_at (st_payloadLens t) sel) as Hpos.
  { intros sel Hs. rewrite (lo_len _ _ _ _ Hlay) by done. apply Hin in Hs. split.
    - pose proof (header_len_bound t sel (output_distance t (st_outputOffsets t) sel)
        (fun x Hx => ro_size _ _ _ (Hrow x Hx)) Hs). lia.
    - rewrite <- (ro_payload _ _ _ (Hrow sel Hs)). lia. }
  assert (forall sel, sel ∈ order -> byte_at (st_typeCodes t) sel = 6 ->
    0 <= output_distance t (st_outputOffsets t) sel < 2 ^ 32) as Hdist.
  { intros sel Hs H6. unfold output_distance. pose proof (ro_base _ _ _ (Hrow sel (proj1 (Hin sel) Hs)) H6).
    destruct (base_of t sel) as [base|] eqn:Ebase; [|done].
    eapply distance_bound; [done..|apply (or_before _ _ Hord)|done|done]. }
  destruct (rewrite_entries_spec packs t (st_outputHeaderLens t) order) as (entries & E & L & P).
  { intros sel Hs. pose proof (Hrow sel (proj1 (Hin sel) Hs)) as Hr. split; [done|].
    destruct (row_header packs t sel Hr (Hdist sel Hs)) as (bytes & Eb & Lb & _).
    exists bytes. rewrite Lb, (lo_len _ _ _ _ Hlay) by done. done. }
  unfold rewriteStream. fold order. rewrite E. cbn [mbind option_bind].
  eexists; split; [done|]. split_and!.
  - rewrite !length_app, Hsha, (packBytes_extent t order Hperm), <- L.
    change (length (buildPackHeader _)) with 12%nat. lia.
  - rewrite <- app_assoc. by rewrite take_app_length' by done.
  - intros sel Hs%Hin. pose proof Hs as Hs'. apply list_elem_of_split in Hs' as (l1 & l2 & Eo).
    destruct (P _ _ _ Eo) as (b & bytes & a & Eb & -> & Lb).
    exists (buildPackHeader (Z.of_nat (st_count t)) ++ b), bytes. eexists. split_and!; [done|by rewrite <- !app_assoc| |auto].
    rewrite length_app, (lo_offset _ _ _ _ Hlay _ _ _ Eo), Nat2Z.inj_add, Lb.
    change (length (buildPackHeader _)) with 12%nat. lia.
Qed.

(** None of this depends on the layout columns. *)
Lemma row_ok_layout packs o l r t sel : row_ok packs t sel -> row_ok packs (with_layout o l r t) sel.
Proof. intros []. by split. Qed.

Lemma ordered_layout o l r t order : ordered t order -> ordered (with_layout o l r t) order.
Proof. intros []. by split. Qed.

Lemma laid_out_layout o l r t order lens offsets :
  laid_out t order lens offsets -> laid_out (with_layout o l r t) order lens offsets.
Proof.
  intros [H1 H2 H3]. assert (forall x, extent (with_layout o l r t) lens x = extent t lens x) as E.
  { induction x as [|y x IH]; cbn; [done|]. by rewrite IH. }
  split; [done|intros; rewrite E; by apply H2 with post|by rewrite E].
Qed.

(** ** Properties *)

(** The output order is found exactly when every chain of bases ends, and
    then it is the order that names each row once, puts every base before its
    deltas and, among the rows that could come next, always takes one that is
    first in the source packs. *)
Theorem output_order_correct t :
  table_wf t ->
  exists ok t', buildOutputOrder t = Some (ok, t') /\
    (ok = true <-> forall sel, (sel < st_count t)%nat -> grounded t sel) /\
    (ok = true -> ordered t (take (st_count t) (st_outputOrder t'))).
Proof.
  intros [Hb Ho _ _]. destruct (buildOutputOrder_spec t Hb Ho) as (ok & order & E & _ & Hiff & Hord).
  eauto 10.
Qed.

(** Three rows of one pack: a delta by distance and a delta by id on a blob. *)
Definition witness_table : SelectionTable :=
  mkSelection 3 3 [0; 0; 0] [1; 2; 0] [40; 60; 12] [45; 83; 17] (replicate 60 1) [6; 7; 3] [2; 21; 1] [3; 2; 4]
    [101; 0; 0; 0; 0; 117; 0; 0; 0; 0; 53; 0; 0; 0; 0] [1; 1; 1] [2; 2; -1] (Some (replicate 60 9)) [0; 0; 0] [0; 0; 1]
    [None; None; None] [0; 0; 0] [0; 0; 0] [0; 0; 0]%nat.

Definition witness_packs (slot : Z) : list Z := seqZ 0 100.

Lemma witness_table_wf : table_wf witness_table.
Proof. split; [|cbn; lia..]. intros [|[|[|sel]]] b Hs [= <-]; cbn in *; lia. Qed.

Lemma witness_rows sel : (sel < st_count witness_table)%nat -> row_ok witness_packs witness_table sel.
Proof.
  destruct sel as [|[|[|sel]]]; intros Hs; [..|cbn in Hs; lia];
    (split; [cbn; lia|eexists _, []; by split_and!|done| |done]); try done.
  intros _. by exists (replicate 60 9).
Qed.

Lemma output_order_correct_witness :
  exists t', buildOutputOrder witness_table = Some (true, t') /\
    take 3 (st_outputOrder t') = [2; 0; 1]%nat /\ ordered witness_table [2; 0; 1]%nat.
Proof.
  destruct (output_order_correct witness_table witness_table_wf) as (ok & t' & E & _ & H).
  assert (Some (ok, t') = Some (true, with_layout [0; 0; 0] [0; 0; 0] [2; 0; 1]%nat witness_table)) as E'
    by (rewrite <- E; reflexivity).
  injection E' as -> ->. eexists; split; [exact E|]. split; [reflexivity|]. exact (H eq_refl).
Defined.

(** C34: a rewrite always ends, and when it announces a size the stream succeeds
    and has that size.  It starts with the pack header for the number of rows and
    every row can be read at its place: the type and the size bytes of the row,
    then its payload; the distance of a delta leads to the place of its base, and
    a delta by id names the stored id. *)
Theorem rewritten_pack_readable sha1 packs t :
  (forall l, length (sha1 l) = 20%nat) -> table_wf t ->
  (forall sel, (sel < st_count t)%nat -> row_ok packs t sel) ->
  rewritePackResult sha1 packs t <> None /\
  forall size stream, rewritePackResult sha1 packs t = Some (inr (size, stream)) ->
  exists out (place : nat -> nat), stream = Some out /\ Z.of_nat (length out) = size /\
    take 12 out = buildPackHeader (Z.of_nat (st_count t)) /\
    forall sel, (sel < st_count t)%nat ->
      exists hdr, readPackHeaderExFromBuf out (place sel) = Some hdr /\
        hdr_type hdr = byte_at (st_typeCodes t) sel /\ sizeVarBytes hdr = row_size t sel /\
        slice out (place sel + Z.to_nat (headerLen hdr)) (length (packPayload packs t sel)) = packPayload packs t sel /\
        (hdr_type hdr = 6 -> exists base, base_of t sel = Some base /\
          baseRel hdr = Some (Z.of_nat (place sel) - Z.of_nat (place base))) /\
        (hdr_type hdr = 7 -> exists raw, st_baseOidRaw t = Some raw /\
          baseOid hdr = Some (bytesToHex (slice raw (sel * 20) 20))).
Proof.
  intros Hsha Hwf Hrow. pose proof Hwf as [Hb Ho Hof Hle].
  destruct (buildOutputOrder_spec t Hb Ho) as (ok & order & E & Hlo & _ & Hord).
  unfold rewritePackResult. rewrite E. cbn [mbind option_bind].
  set (t1 := with_layout _ _ order t). destruct ok; cbn [negb]; [|split; [done|intros ? ? [=]]].
  destruct (computeHeaderLengths t1) as [sized t2] eqn:Ec. destruct sized; cbn [negb]; [|split; [done|intros ? ? [=]]].
  split; [done|]. intros size stream [= <- <-].
  assert (forall sel, (sel < st_count t)%nat -> row_ok packs t1 sel) as Hrow1.
  { intros sel Hs. by apply row_ok_layout, Hrow. }
  pose proof (ordered_layout (st_outputOffsets t) (st_outputHeaderLens t) order _ _ (Hord eq_refl)) as Hord1.
  destruct (computeHeaderLengths_spec packs t1 t2) as (lens & offsets & -> & Hlay);
    [split; cbn; auto; lia|done..|].
  assert (forall sel, (sel < st_count t)%nat -> row_ok packs (with_layout offsets lens (st_outputOrder t1) t1) sel) as Hrow2.
  { intros sel Hs. by apply row_ok_layout, Hrow1. }
  destruct (laid_out_stream sha1 packs (with_layout offsets lens (st_outputOrder t1) t1) Hsha Hrow2
    (ordered_layout offsets lens order _ _ Hord1) (laid_out_layout offsets lens order _ _ _ _ Hlay))
    as (out & Eo & Lo & Hh & Hs).
  set (t2 := with_layout offsets lens (st_outputOrder t1) t1) in *.
  exists out, (fun sel => Z.to_nat (byte_at (st_outputOffsets t2) sel)).
  split_and!; [done|done|done|]. intros sel Hsel.
  destruct (Hs sel Hsel) as (before & bytes & after & Eb & Eout & Lb & Hd).
  assert (Z.to_nat (byte_at (st_outputOffsets t2) sel) = length before) as Ep by lia.
  destruct (row_header packs t2 sel (Hrow2 sel Hsel) Hd) as (bytes' & Eb' & _ & Hread).
  rewrite Eb in Eb'; injection Eb' as <-.
  destruct (Hread before (packPayload packs t2 sel ++ after)) as (hdr & Er & Ht & Hz & Hl & H6 & H7).
  exists hdr. rewrite Ep, Eout. split_and!; [done|done|done|..|exact H7].
  - rewrite Hl, Nat2Z.id. unfold slice. rewrite app_assoc, drop_app_length' by (by rewrite length_app).
    by rewrite take_app_length' by done.
  - intros Hh6. specialize (H6 Hh6). rewrite Ht in Hh6. specialize (Hd Hh6).
    pose proof (ro_base _ _ _ (Hrow sel Hsel) Hh6) as Hbase. unfold output_distance in *.
    destruct (base_of t sel) as [base|] eqn:Ebase; [|done]. exists base. split; [done|].
    change (base_of t2 sel) with (base_of t sel) in *. rewrite Ebase in *.
    destruct (Hs base (Hb sel base Hsel Ebase)) as (bb & _ & _ & _ & _ & Lbb & _). rewrite H6. f_equal. lia.
Qed.

Lemma rewritten_pack_readable_witness :
  exists out hdr, rewritePackResult (fun _ => replicate 20 0) witness_packs witness_table = Some (inr (65, Some out)) /\
    readPackHeaderExFromBuf out 17 = Some hdr /\ baseRel hdr = Some 5.
Proof.
  destruct (rewritten_pack_readable (fun _ => replicate 20 0) witness_packs witness_table
    (fun _ => eq_refl) witness_table_wf witness_rows) as [_ H].
  destruct (rewritePackResult (fun _ => replicate 20 0) witness_packs witness_table) as [[f|[size stream]]|] eqn:E;
    [discriminate E..| |discriminate E].
  destruct (H size stream eq_refl) as (out & place & -> & Hlen & _ & Hrow).
  vm_compute in E. injection E as <- <-.
  eexists _, _. split; [reflexivity|]. split; [vm_compute; reflexivity|reflexivity].
Defined.
