(* ===== verification/RewriteCompact.v ===== *)
(** * The removal of duplicate rows from a selection

    [git/pack/rewrite/selectionCompact.ts].  A row whose object another row
    already gives is dead: it is redirected to that row, its owner, and compacted
    out of the table.  What is proved: which rows remain and what their bases
    become, when the chains of bases still end, and that the test the code makes
    for it - one redirect at a time - is not enough for two. *)
From S2P Require Import Prelude Bytes PackEntry PackIndex Heap Rewrite RewriteLayout.

(** ** Definitions *)

(** *** [deadSlots], a map in insertion order *)

Definition dead_get (dead : list (nat * nat)) (sel : nat) : option nat :=
  snd <$> js_find (fun p => (p.1 =? sel)%nat) dead.

Definition dead_has (dead : list (nat * nat)) (sel : nat) : bool := bool_decide (is_Some (dead_get dead sel)).

Definition dead_delete (sel : nat) (dead : list (nat * nat)) : list (nat * nat) :=
  js_filter (fun p => negb (p.1 =? sel)%nat) dead.

Definition dead_set (sel target : nat) (dead : list (nat * nat)) : list (nat * nat) :=
  if dead_has dead sel then (fun p => if (p.1 =? sel)%nat then (sel, target) else p) <$> dead
  else dead ++ [(sel, target)].

Fixpoint redirect (depth : nat) (dead : list (nat * nat)) (cur : nat) : nat :=
  match depth with
  | O => cur
  | S depth => match dead_get dead cur with None => cur | Some next => redirect depth dead next end
  end.

Definition resolveDeadSlotRedirect (sel : nat) (dead : list (nat * nat)) : nat :=
  redirect (length dead + 1) dead sel.

(** *** The redirects that are safe one by one *)

(** One turn over the map; deleting the current key does not disturb it. *)
Fixpoint prune_pass (t : SelectionTable) (keys : list nat) (safe : list (nat * nat)) (changed : bool)
  : list (nat * nat) * bool :=
  match keys with
  | [] => (safe, changed)
  | deadSel :: keys =>
    let targetSel := resolveDeadSlotRedirect deadSel safe in
    if (targetSel =? deadSel)%nat || selectionDependsOn t targetSel deadSel
    then prune_pass t keys (dead_delete deadSel safe) true
    else prune_pass t keys safe changed
  end.

(** A turn that changes the map makes it smaller. *)
Fixpoint prune_loop (fuel : nat) (t : SelectionTable) (safe : list (nat * nat)) : list (nat * nat) :=
  match fuel with
  | O => safe
  | S fuel =>
    let '(safe', changed) := prune_pass t safe.*1 safe false in
    if changed then prune_loop fuel t safe' else safe'
  end.

Definition pruneUnsafeDeadSlotRedirects (t : SelectionTable) (dead : list (nat * nat)) : list (nat * nat) :=
  prune_loop (S (length dead)) t dead.

(** *** Owners that depend on their duplicate *)

Fixpoint nearest_dependency (depth : nat) (t : SelectionTable) (targetSel : nat) (dead : list (nat * nat)) (cur : nat)
  : option nat :=
  match depth with
  | O => None
  | S depth =>
    match base_of t cur with
    | None => None
    | Some baseSel =>
      if (resolveDeadSlotRedirect baseSel dead =? targetSel)%nat then Some baseSel
      else nearest_dependency depth t targetSel dead baseSel
    end
  end.

Definition findNearestRedirectDependency (t : SelectionTable) (targetSel : nat) (dead : list (nat * nat)) : option nat :=
  nearest_dependency (st_count t) t targetSel dead targetSel.

(** Pairs of a target and its source, each target once. *)
Fixpoint collect_rewrites (t : SelectionTable) (dead : list (nat * nat)) (keys : list nat) (rewrites : list (nat * nat))
  : list (nat * nat) :=
  match keys with
  | [] => rewrites
  | deadSel :: keys =>
    let targetSel := resolveDeadSlotRedirect deadSel dead in
    if (targetSel =? deadSel)%nat || negb (selectionDependsOn t targetSel deadSel)
    then collect_rewrites t dead keys rewrites
    else if js_some (fun p => (p.1 =? targetSel)%nat) rewrites then collect_rewrites t dead keys rewrites
    else match findNearestRedirectDependency t targetSel dead with
         | None => collect_rewrites t dead keys rewrites
         | Some sourceSel => collect_rewrites t dead keys (js_push rewrites (targetSel, sourceSel))
         end
  end.

Definition collectUnsafeRedirectOwnerRewrites (t : SelectionTable) (dead : list (nat * nat)) : list (nat * nat) :=
  collect_rewrites t dead dead.*1 [].

Definition with_flags (queued pinned : list Z) (t : SelectionTable) : SelectionTable :=
  mkSelection (st_count t) (st_capacity t) (st_packSlots t) (st_entryIndices t) (st_offsets t)
    (st_nextOffsets t) (st_oidsRaw t) (st_typeCodes t) (st_headerLens t) (st_payloadLens t) (st_sizeVarBuf t)
    (st_sizeVarLens t) (st_baseSlots t) (st_baseOidRaw t) queued pinned
    (st_syntheticPayloads t) (st_outputOffsets t) (st_outputHeaderLens t) (st_outputOrder t).

Definition rewriteSelectionRowFromSource (t : SelectionTable) (targetSel sourceSel : nat) : SelectionTable :=
  let t := copySelectionRow t targetSel sourceSel true in
  let pinned := if negb (byte_at (st_ofsPinned t) targetSel =? 0) || negb (byte_at (st_ofsPinned t) sourceSel =? 0)
                then 1 else 0 in
  with_flags (<[targetSel := 0]> (st_queuedForHeader t)) (<[targetSel := pinned]> (st_ofsPinned t)) t.

(** [None]: out of fuel. *)
Fixpoint collapse_loop (fuel : nat) (t : SelectionTable) (dead : list (nat * nat)) (collapsed : nat)
  : option (nat * SelectionTable) :=
  match fuel with
  | O => None
  | S fuel =>
    match collectUnsafeRedirectOwnerRewrites t dead with
    | [] => Some (collapsed, t)
    | rewrites =>
      let sorted := js_sort (fun a b => compareSelectionSlots t a.1 b.1 <? 0) rewrites in
      collapse_loop fuel (foldl (fun t r => rewriteSelectionRowFromSource t r.1 r.2) t sorted) dead
        (collapsed + length sorted)
    end
  end.

(** Every turn moves an owner down the chains of bases
    ([collapseUnsafeRedirectOwners_ends]). *)
Definition collapseUnsafeRedirectOwners (t : SelectionTable) (dead : list (nat * nat)) : option (nat * SelectionTable) :=
  collapse_loop (S (st_count t * st_count t)) t dead 0.

(** *** Compaction *)

(** The loops over the first [n] cells of [baseSlots]. *)
Fixpoint map_bases (f : nat -> Z) (n : nat) (l : list Z) : list Z :=
  match n, l with
  | S n, b :: l => (if b <? 0 then b else f (Z.to_nat b)) :: map_bases f n l
  | _, _ => l
  end.

Fixpoint compact_rows (t : SelectionTable) (safe : list (nat * nat)) (reads : list nat) (remap : list Z) (write : nat)
  : SelectionTable * list Z * nat :=
  match reads with
  | [] => (t, remap, write)
  | read :: reads =>
    if dead_has safe read then compact_rows t safe reads remap write
    else compact_rows (if (write =? read)%nat then t else copySelectionRow t write read false) safe reads
           (<[read := Z.of_nat write]> remap) (S write)
  end.

Definition compactDeadSlots (t : SelectionTable) (dead : list (nat * nat)) : SelectionTable :=
  let safe := pruneUnsafeDeadSlotRedirects t dead in
  let n := st_count t in
  let t := with_baseSlots (map_bases (fun b => Z.of_nat (resolveDeadSlotRedirect b safe)) n (st_baseSlots t)) t in
  let '(t, remap, write) := compact_rows t safe (seq 0 n) (replicate n (-1)) 0 in
  with_count write (with_baseSlots (map_bases (fun b => default 0 (remap !! b)) write (st_baseSlots t)) t).

(** ** Specification *)

(** What a row says of its object; its base and the flags of the planner apart. *)
Record Row := mkRow {
  rw_place : option Z * option Z * option Z * option Z;
  rw_oid : list Z;
  rw_header : option Z * option Z * option Z;
  rw_size : list Z * option Z;
  rw_baseOid : option (list Z);
  rw_synthetic : option (option (list Z)) }.

Definition row_of (t : SelectionTable) (sel : nat) : Row :=
  mkRow (st_packSlots t !! sel, st_entryIndices t !! sel, st_offsets t !! sel, st_nextOffsets t !! sel)
    (slice (st_oidsRaw t) (sel * 20) 20)
    (st_typeCodes t !! sel, st_headerLens t !! sel, st_payloadLens t !! sel)
    (slice (st_sizeVarBuf t) (sel * 5) 5, st_sizeVarLens t !! sel)
    ((fun raw => slice raw (sel * 20) 20) <$> st_baseOidRaw t)
    (st_syntheticPayloads t !! sel).

(** Every column has a cell for every row up to the capacity. *)
Record sized (t : SelectionTable) : Prop := {
  sz_count : (st_count t <= st_capacity t)%nat;
  sz_packSlots : length (st_packSlots t) = st_capacity t;
  sz_entryIndices : length (st_entryIndices t) = st_capacity t;
  sz_offsets : length (st_offsets t) = st_capacity t;
  sz_nextOffsets : length (st_nextOffsets t) = st_capacity t;
  sz_oidsRaw : length (st_oidsRaw t) = (st_capacity t * 20)%nat;
  sz_typeCodes : length (st_typeCodes t) = st_capacity t;
  sz_headerLens : length (st_headerLens t) = st_capacity t;
  sz_payloadLens : length (st_payloadLens t) = st_capacity t;
  sz_sizeVarBuf : length (st_sizeVarBuf t) = (st_capacity t * 5)%nat;
  sz_sizeVarLens : length (st_sizeVarLens t) = st_capacity t;
  sz_baseSlots : length (st_baseSlots t) = st_capacity t;
  sz_baseOidRaw : forall raw, st_baseOidRaw t = Some raw -> length raw = (st_capacity t * 20)%nat;
  sz_queued : length (st_queuedForHeader t) = st_capacity t;
  sz_pinned : length (st_ofsPinned t) = st_capacity t;
  sz_synthetic : length (st_syntheticPayloads t) = st_capacity t;
  sz_outputOrder : length (st_outputOrder t) = st_capacity t }.

(** Redirects between rows, each row redirected once, without a circle. *)
Record redirects_ok (t : SelectionTable) (dead : list (nat * nat)) : Prop := {
  rd_keys : NoDup dead.*1;
  rd_rows : forall d o, (d, o) ∈ dead -> (d < st_count t)%nat /\ (o < st_count t)%nat;
  rd_ends : exists rank : nat -> nat, forall d o, (d, o) ∈ dead -> (rank o < rank d)%nat }.

(** The rows that remain, in order. *)
Definition live_rows (t : SelectionTable) (safe : list (nat * nat)) : list nat :=
  js_filter (fun sel => negb (dead_has safe sel)) (seq 0 (st_count t)).

(** ** Lemmas *)

(** *** Chains of bases *)

Fixpoint chain (t : SelectionTable) (x : nat) (l : list nat) : Prop :=
  match l with [] => True | y :: l => base_of t x = Some y /\ chain t y l end.

Lemma base_chain_app t l1 : forall x l2 y, chain t x (l1 ++ y :: l2) -> chain t x (l1 ++ [y]) /\ chain t y l2.
Proof.
  induction l1 as [|z l1 IH]; cbn; intros x l2 y [E H]; [done|].
  destruct (IH _ _ _ H). done.
Qed.

Lemma chain_snoc t l : forall x y z, chain t x (l ++ [y]) -> base_of t y = Some z -> chain t x ((l ++ [y]) ++ [z]).
Proof. induction l as [|a l IH]; cbn; [naive_solver|]. intros x y z [E H] Ez. split; [done|]. by apply IH. Qed.

Lemma grounded_irreflexive t x : grounded t x -> forall l, chain t x l -> x ∉ l.
Proof.
  induction 1 as [x _ IH]. intros l Hl Hx. apply list_elem_of_split in Hx as (l1 & l2 & ->).
  apply base_chain_app in Hl as [Hl _]. destruct l1 as [|y l1]; cbn in Hl.
  - destruct Hl as [E _]. apply (IH x E [x]); [done|]. by constructor.
  - destruct Hl as [E Hl]. apply (IH y E ((l1 ++ [x]) ++ [y])); [by apply chain_snoc|].
    apply elem_of_app; right. by constructor.
Qed.

Lemma grounded_base t x b : grounded t x -> base_of t x = Some b -> grounded t b.
Proof. inversion 1; auto. Qed.

Lemma chain_NoDup t l : forall x, grounded t x -> chain t x l -> NoDup (x :: l).
Proof.
  induction l as [|y l IH]; intros x Hg Hl; (constructor; [by eapply grounded_irreflexive|]).
  - apply NoDup_nil_2.
  - destruct Hl as [E Hl]. apply IH; [by eapply grounded_base|done].
Qed.

Lemma chain_length t l : forall x, bases_within t -> (x < st_count t)%nat -> grounded t x -> chain t x l ->
  (length l < st_count t)%nat.
Proof.
  intros x Hb Hx Hg Hl. pose proof (chain_NoDup _ _ _ Hg Hl) as Hd.
  assert (forall l x, (x < st_count t)%nat -> chain t x l -> Forall (fun y => y < st_count t)%nat l) as Hin.
  { clear -Hb. induction l as [|y l IH]; intros x Hx Hl; constructor; destruct Hl as [E Hl]; eauto. }
  assert (x :: l ⊆+ seq 0 (st_count t)) as H%submseteq_length.
  { apply NoDup_submseteq; [done|]. intros y [->|Hy]%elem_of_cons; apply elem_of_seq; [lia|].
    pose proof (Hin _ _ Hx Hl) as HF. rewrite Forall_forall in HF. specialize (HF y Hy). lia. }
  rewrite length_seq in H. cbn in H. lia.
Qed.

(** A row under another one. *)
Inductive stands_on (t : SelectionTable) : nat -> nat -> Prop :=
| stands_direct x y : base_of t x = Some y -> stands_on t x y
| stands_over x y z : base_of t x = Some y -> stands_on t y z -> stands_on t x z.

Lemma depends_on_sound t depth : forall x y, depends_on depth t x y = true -> stands_on t x y.
Proof.
  induction depth as [|depth IH]; cbn; [done|]. intros x y.
  destruct (base_of t x) as [b|] eqn:E; [|done]. destruct (Nat.eqb_spec b y) as [->|]; [by constructor|].
  intros H%IH. by eapply stands_over.
Qed.

Lemma stands_on_chain t x y : stands_on t x y ->
  exists l, chain t x (l ++ [y]) /\ forall depth, (length l < depth)%nat -> depends_on depth t x y = true.
Proof.
  induction 1 as [x y E|x y z E H (l & Hl & Hd)].
  - exists []. split; [done|]. intros [|depth] ?; [cbn in *; lia|]. cbn. by rewrite E, Nat.eqb_refl.
  - exists (y :: l). split; [done|]. intros [|depth] Hlt; cbn in *; [lia|]. rewrite E.
    destruct (y =? z)%nat; [done|]. apply Hd. lia.
Qed.

Lemma selectionDependsOn_iff t x y :
  bases_within t -> (x < st_count t)%nat -> grounded t x ->
  selectionDependsOn t x y = true <-> stands_on t x y.
Proof.
  intros Hb Hx Hg. split; [apply depends_on_sound|]. intros H.
  destruct (stands_on_chain _ _ _ H) as (l & Hl & Hd). apply Hd.
  pose proof (chain_length _ _ _ Hb Hx Hg Hl) as Hlen. rewrite length_app in Hlen. cbn in Hlen. lia.
Qed.

(** *** The map of redirects *)

Lemma dead_get_elem dead d o : dead_get dead d = Some o -> (d, o) ∈ dead.
Proof.
  unfold dead_get. destruct (js_find _ dead) as [[k v]|] eqn:E; [|done]. cbn. intros [= <-].
  apply js_find_some in E as [H E]. cbn in E. apply Nat.eqb_eq in E as <-. done.
Qed.

Lemma dead_get_none dead d : dead_get dead d = None <-> d ∉ dead.*1.
Proof.
  unfold dead_get. destruct (js_find _ dead) as [[k v]|] eqn:E; cbn.
  - apply js_find_some in E as [H E]. cbn in E. apply Nat.eqb_eq in E as <-. split; [done|].
    intros []. by apply list_elem_of_fmap_2 with (f := fst) in H.
  - split; [|done]. intros _ ([k v] & -> & H)%list_elem_of_fmap.
    eapply js_find_none in E; [|done]. cbn in E. by rewrite Nat.eqb_refl in E.
Qed.

Lemma dead_has_iff dead d : dead_has dead d = true <-> d ∈ dead.*1.
Proof.
  unfold dead_has. rewrite bool_decide_eq_true, <- not_eq_None_Some. rewrite dead_get_none.
  destruct (decide (d ∈ dead.*1)); tauto.
Qed.

Lemma dead_get_delete dead c d : d <> c -> dead_get (dead_delete c dead) d = dead_get dead d.
Proof.
  intros Hne. unfold dead_get, js_find, dead_delete, js_filter. f_equal.
  induction dead as [|[k v] dead IH]; [done|]. cbn [List.find List.filter fst].
  destruct (Nat.eqb_spec k c) as [->|Hk]; cbn [negb List.find fst].
  - destruct (Nat.eqb_spec c d); [congruence|done].
  - destruct (k =? d)%nat; [done|]. exact IH.
Qed.

Lemma dead_get_deleted dead c : dead_get (dead_delete c dead) c = None.
Proof.
  apply dead_get_none. intros ([k v] & -> & [_ H]%elem_of_js_filter)%list_elem_of_fmap.
  cbn in H. by rewrite Nat.eqb_refl in H.
Qed.

Lemma dead_delete_length dead c : c ∈ dead.*1 -> (length (dead_delete c dead) < length dead)%nat.
Proof.
  unfold dead_delete. induction dead as [|[k v] dead IH]; [by intros ?%elem_of_nil|].
  change (js_filter _ ((k, v) :: dead)) with
    (let r := js_filter (fun p : nat * nat => negb (p.1 =? c)%nat) dead in
     if negb (k =? c)%nat then (k, v) :: r else r).
  pose proof (js_filter_length_le (fun p : nat * nat => negb (p.1 =? c)%nat) dead) as Hl.
  cbv zeta. rewrite fmap_cons. cbn [fst]. intros [->|H]%elem_of_cons.
  - rewrite Nat.eqb_refl. cbn [negb length]. lia.
  - specialize (IH H). destruct (k =? c)%nat; cbn [negb length]; lia.
Qed.

Section Redirects.
Context (rank : nat -> nat).

Definition descends (dead : list (nat * nat)) : Prop := forall d o, dead_get dead d = Some o -> (rank o < rank d)%nat.

Lemma descends_delete dead c : descends dead -> descends (dead_delete c dead).
Proof.
  intros H d o E. destruct (decide (d = c)) as [->|Hne]; [by rewrite dead_get_deleted in E|].
  rewrite dead_get_delete in E by done. auto.
Qed.

(** A redirect already followed is not needed below. *)
Lemma redirect_delete c dead depth : descends dead ->
  forall x, (rank x < rank c)%nat -> redirect depth (dead_delete c dead) x = redirect depth dead x.
Proof.
  intros Hr. induction depth as [|depth IH]; intros x Hx; [done|]. cbn.
  rewrite dead_get_delete by (intros ->; lia). destruct (dead_get dead x) as [o|] eqn:E; [|done].
  apply IH. apply Hr in E. lia.
Qed.

(** The redirects end at a row that is not redirected. *)
Lemma redirect_live n : forall dead x depth, (length dead <= n)%nat -> (n < depth)%nat -> descends dead ->
  dead_get dead (redirect depth dead x) = None.
Proof.
  induction n as [|n IH]; intros dead x [|depth] Hl Hd Hr; try lia; cbn; destruct (dead_get dead x) as [o|] eqn:E; try done.
  - destruct dead; [done|cbn in Hl; lia].
  - assert (x ∈ dead.*1) as Hx by (apply dead_has_iff; unfold dead_has; by rewrite E).
    pose proof (Hr _ _ E) as Hlt. rewrite <- (redirect_delete x dead depth Hr o Hlt).
    assert (dead_get (dead_delete x dead) (redirect depth (dead_delete x dead) o) = None) as H.
    { apply IH; [pose proof (dead_delete_length _ _ Hx); lia|lia|by apply descends_delete]. }
    rewrite dead_get_delete in H; [done|]. intros E'.
    assert (forall k y, (rank y < rank x)%nat -> redirect k (dead_delete x dead) y <> x) as Hne; [|by eapply Hne].
    clear -Hr. induction k as [|k IH]; cbn; intros y Hy; [intros ->; lia|].
    destruct (dead_get _ y) as [z|] eqn:Ez; [|intros ->; lia]. apply IH.
    apply (descends_delete _ x Hr) in Ez. lia.
Qed.

Lemma resolve_live dead x : descends dead -> dead_has dead (resolveDeadSlotRedirect x dead) = false.
Proof.
  intros H. unfold dead_has, resolveDeadSlotRedirect.
  rewrite (redirect_live (length dead)) by (done || lia). done.
Qed.
End Redirects.

Lemma resolve_other dead x : dead_has dead x = false -> resolveDeadSlotRedirect x dead = x.
Proof.
  unfold dead_has, resolveDeadSlotRedirect. rewrite Nat.add_1_r. cbn. by destruct (dead_get dead x).
Qed.

Lemma resolve_within dead (P : nat -> Prop) x :
  (forall d o, (d, o) ∈ dead -> P o) -> P x -> P (resolveDeadSlotRedirect x dead).
Proof.
  intros H. unfold resolveDeadSlotRedirect. generalize (length dead + 1)%nat as depth.
  intros depth. revert x. induction depth as [|depth IH]; cbn; [done|]. intros x Hx.
  destruct (dead_get dead x) as [o|] eqn:E; [|done]. apply IH. by eapply H, dead_get_elem.
Qed.

(** *** Pruning *)

Lemma js_filter_sublist {A} (p : A -> bool) l : js_filter p l `sublist_of` l.
Proof. induction l as [|x l IH]; cbn; [constructor|]. destruct (p x); by constructor. Qed.

(** The test of the code for one redirect. *)
Definition redirect_safe (t : SelectionTable) (safe : list (nat * nat)) (d : nat) : bool :=
  negb ((resolveDeadSlotRedirect d safe =? d)%nat || selectionDependsOn t (resolveDeadSlotRedirect d safe) d).

Lemma prune_pass_spec t keys : forall safe changed safe' changed',
  NoDup keys -> (forall k, k ∈ keys -> k ∈ safe.*1) -> prune_pass t keys safe changed = (safe', changed') ->
  safe' `sublist_of` safe /\
  (changed' = false -> changed = false /\ safe' = safe /\ forall k, k ∈ keys -> redirect_safe t safe k = true) /\
  (changed' = true -> changed = true \/ (length safe' < length safe)%nat).
Proof.
  induction keys as [|k keys IH]; intros safe changed safe' changed' Hd Hin; cbn [prune_pass].
  - intros [= <- <-]. split; [done|]. split; [|auto]. intros ->. split_and!; try done. by intros ? ?%elem_of_nil.
  - inversion_clear Hd as [|? ? Hk Hd']. destruct (_ || _) eqn:E.
    + intros H. apply IH in H as (Hs & H1 & H2); [|done|].
      * split; [etrans; [exact Hs|apply js_filter_sublist]|]. split; [by intros [? _]%H1|]. intros _. right.
        apply sublist_length in Hs. pose proof (dead_delete_length safe k (Hin k (list_elem_of_here _ _))). lia.
      * intros j Hj. assert (j <> k) as Hne by (intros ->; done).
        pose proof (Hin j (list_elem_of_further _ _ _ Hj)) as Hj'.
        rewrite <- dead_has_iff in Hj' |- *. unfold dead_has in *. by rewrite dead_get_delete.
    + intros H. apply IH in H as (Hs & H1 & H2); [|done|intros; apply Hin; by constructor].
      split; [done|]. split; [|done]. intros Hc. destruct (H1 Hc) as (-> & -> & Hok). split_and!; try done.
      intros j [->|Hj]%elem_of_cons; [|auto]. unfold redirect_safe. by rewrite E.
Qed.

Lemma prune_loop_spec t fuel : forall safe, (length safe < fuel)%nat -> NoDup safe.*1 ->
  prune_loop fuel t safe `sublist_of` safe /\
  forall k, k ∈ (prune_loop fuel t safe).*1 -> redirect_safe t (prune_loop fuel t safe) k = true.
Proof.
  induction fuel as [|fuel IH]; intros safe Hl Hd; [lia|]. cbn [prune_loop].
  destruct (prune_pass t safe.*1 safe false) as [safe' changed] eqn:E.
  apply prune_pass_spec in E as (Hs & H1 & H2); [|done..]. destruct changed.
  - destruct (H2 eq_refl) as [|Hlt]; [done|]. destruct (IH safe') as [Hs' Hok]; [lia| |].
    + eapply sublist_NoDup; [exact Hd|]. by apply fmap_sublist.
    + split; [by etrans|done].
  - destruct (H1 eq_refl) as (_ & -> & Hok). done.
Qed.

(** What pruning keeps is a part of the map; every redirect in it passes the
    test. *)
Lemma prune_spec t dead : NoDup dead.*1 ->
  pruneUnsafeDeadSlotRedirects t dead `sublist_of` dead /\
  forall k, k ∈ (pruneUnsafeDeadSlotRedirects t dead).*1 ->
    redirect_safe t (pruneUnsafeDeadSlotRedirects t dead) k = true.
Proof. intros Hd. apply prune_loop_spec; [lia|done]. Qed.

(** *** Copying rows *)

Lemma copy_cell_lookup {A} (l : list A) target source k :
  (target < length l)%nat -> (source < length l)%nat ->
  copy_cell target source l !! k = if decide (k = target) then l !! source else l !! k.
Proof.
  intros Ht Hs. unfold copy_cell. destruct (lookup_lt_is_Some_2 l source Hs) as [x E]. rewrite E.
  case_decide; [subst; by rewrite list_lookup_insert_eq|by rewrite list_lookup_insert_ne].
Qed.

Lemma copy_cell_length {A} (l : list A) target source : length (copy_cell target source l) = length l.
Proof. unfold copy_cell. destruct (l !! source); [apply length_insert|done]. Qed.

Lemma slice_lookup (l : list Z) from n i :
  slice l from n !! i = if decide (i < n)%nat then l !! (from + i)%nat else None.
Proof.
  unfold slice. case_decide; [rewrite lookup_take_lt by lia; by rewrite lookup_drop|].
  apply lookup_take_ge. lia.
Qed.

Lemma slice_length (l : list Z) from n : (from + n <= length l)%nat -> length (slice l from n) = n.
Proof. intros. unfold slice. rewrite length_take, length_drop. lia. Qed.

Lemma copy_cells_slice width (l : list Z) target source k :
  ((S target) * width <= length l)%nat -> ((S source) * width <= length l)%nat ->
  slice (copy_cells width target source l) (k * width) width =
  if decide (k = target) then slice l (source * width) width else slice l (k * width) width.
Proof.
  intros Ht Hs. apply list_eq. intros i.
  assert (length (slice l (source * width) width) = width) as Hw by (apply slice_length; lia).
  rewrite slice_lookup. unfold copy_cells. case_decide as Hi.
  - case_decide as Hk.
    + subst. rewrite list_lookup_inserts by lia. replace (_ + i - _)%nat with i by lia.
      by rewrite slice_lookup, decide_True.
    + rewrite slice_lookup, decide_True by done. destruct (decide (k < target)%nat).
      * apply list_lookup_inserts_lt. pose proof (Nat.mul_le_mono_r (S k) target width). lia.
      * apply list_lookup_inserts_ge. rewrite Hw. pose proof (Nat.mul_le_mono_r (S target) k width). lia.
  - case_decide; rewrite slice_lookup, decide_False by done; done.
Qed.

Lemma copy_row_sized t target source pin : sized t -> sized (copySelectionRow t target source pin).
Proof.
  intros []. split; cbn; unfold copy_cells; rewrite ?copy_cell_length, ?length_inserts; try done.
  - intros raw H. destruct (st_baseOidRaw t) as [r|] eqn:E; [|done]. injection H as <-.
    unfold copy_cells. rewrite length_inserts. auto.
  - destruct pin; rewrite ?copy_cell_length; done.
Qed.

Lemma copy_row_spec t target source pin k : sized t ->
  (target < st_capacity t)%nat -> (source < st_capacity t)%nat ->
  row_of (copySelectionRow t target source pin) k = (if decide (k = target) then row_of t source else row_of t k) /\
  st_baseSlots (copySelectionRow t target source pin) !! k =
    (if decide (k = target) then st_baseSlots t !! source else st_baseSlots t !! k).
Proof.
  intros [] Ht Hs. split; [|cbn; apply copy_cell_lookup; lia].
  unfold row_of. cbn -[slice]. rewrite !copy_cell_lookup, !copy_cells_slice by lia.
  assert ((fun raw => slice raw (k * 20) 20) <$> (copy_cells 20 target source <$> st_baseOidRaw t) =
    if decide (k = target) then (fun raw => slice raw (source * 20) 20) <$> st_baseOidRaw t
    else (fun raw => slice raw (k * 20) 20) <$> st_baseOidRaw t) as E.
  { destruct (st_baseOidRaw t) as [raw|]; cbn -[slice]; [|by case_decide].
    pose proof (sz_baseOidRaw0 raw eq_refl). rewrite copy_cells_slice by lia. by case_decide. }
  rewrite E. by case_decide.
Qed.

Lemma map_bases_lookup f n : forall l k b, l !! k = Some b ->
  map_bases f n l !! k = Some (if decide (k < n)%nat then (if b <? 0 then b else f (Z.to_nat b)) else b).
Proof.
  induction n as [|n IH]; intros l k b E; [by rewrite decide_False by lia|].
  destruct l as [|a l]; [done|]. destruct k as [|k]; cbn in E |- *.
  - by injection E as ->.
  - etrans; [exact (IH _ _ _ E)|]. f_equal. apply decide_ext. lia.
Qed.

Lemma map_bases_length f n : forall l, length (map_bases f n l) = length l.
Proof. induction n as [|n IH]; intros [|a l]; cbn; auto. Qed.

(** *** The loop over the rows *)

(** The cells that the loop has written, and those it has still to read. *)
Record compacted (t0 t : SelectionTable) (done_rows : list nat) (remap : list Z) (from : nat) : Prop := {
  cp_sized : sized t;
  cp_capacity : st_capacity t = st_capacity t0;
  cp_write : (length done_rows <= from)%nat;
  cp_rows : forall i sel, done_rows !! i = Some sel ->
    row_of t i = row_of t0 sel /\ st_baseSlots t !! i = st_baseSlots t0 !! sel /\ remap !! sel = Some (Z.of_nat i);
  cp_rest : forall k, (from <= k)%nat -> row_of t k = row_of t0 k /\ st_baseSlots t !! k = st_baseSlots t0 !! k }.

Lemma compact_rows_spec t0 safe n : forall t done_rows remap from,
  compacted t0 t done_rows remap from -> (from + n <= st_count t0)%nat -> (st_count t0 <= st_capacity t0)%nat ->
  length remap = st_count t0 -> (forall sel, sel ∈ done_rows -> sel < from)%nat ->
  exists t' remap', compact_rows t safe (seq from n) remap (length done_rows) =
      (t', remap', length (done_rows ++ js_filter (fun sel => negb (dead_has safe sel)) (seq from n))) /\
    compacted t0 t' (done_rows ++ js_filter (fun sel => negb (dead_has safe sel)) (seq from n)) remap' (from + n).
Proof.
  induction n as [|n IH]; intros t dr remap from H Hn Hc Hr Hlt; cbn [seq compact_rows].
  { cbn [js_filter List.filter]. rewrite app_nil_r, Nat.add_0_r. eauto. }
  pose proof H as [Hz Hcap Hw Hrows Hrest].
  change (js_filter ?p (?x :: ?l)) with (if p x then x :: js_filter p l else js_filter p l). cbv beta.
  replace (from + S n)%nat with (S from + n)%nat by lia.
  destruct (dead_has safe from); cbn [negb].
  { apply IH; [|lia|done|done|intros sel Hs; specialize (Hlt sel Hs); lia].
    split; [done|done|lia|done|]. intros k Hk. apply Hrest. lia. }
  rewrite (cons_middle from), app_assoc.
  replace (S (length dr)) with (length (dr ++ [from])) by (rewrite length_app; cbn; lia).
  apply IH; [|lia|done|by rewrite length_insert|].
  2:{ intros sel [Hs%Hlt| ->%list_elem_of_singleton]%elem_of_app; lia. }
  set (t1 := if (length dr =? from)%nat then t else copySelectionRow t (length dr) from false).
  assert (sized t1 /\ st_capacity t1 = st_capacity t0 /\ forall k,
    row_of t1 k = (if decide (k = length dr) then row_of t from else row_of t k) /\
    st_baseSlots t1 !! k = (if decide (k = length dr) then st_baseSlots t !! from else st_baseSlots t !! k))
    as (Hz1 & Hcap1 & Hk1).
  { unfold t1. destruct (Nat.eqb_spec (length dr) from) as [->|].
    - split_and!; try done. intros k. case_decide; subst; done.
    - split_and!; [by apply copy_row_sized|done|]. intros k. apply copy_row_spec; [done|lia|lia]. }
  split; [done|done|rewrite length_app; cbn; lia| |].
  - intros i sel [Hi|[Hi E]]%lookup_app_Some.
    + pose proof (lookup_lt_Some _ _ _ Hi) as Hil. destruct (Hrows _ _ Hi) as (E1 & E2 & E3).
      destruct (Hk1 i) as [-> ->]. rewrite !decide_False by lia. split_and!; [done|done|].
      rewrite list_lookup_insert_ne; [done|]. apply list_elem_of_lookup_2, Hlt in Hi. lia.
    + apply list_lookup_singleton_Some in E as [Ei <-]. assert (i = length dr) as -> by lia.
      destruct (Hk1 (length dr)) as [-> ->]. rewrite !decide_True by done.
      destruct (Hrest from) as [-> ->]; [lia|]. split_and!; [done|done|]. apply list_lookup_insert_eq. lia.
  - intros k Hk. destruct (Hk1 k) as [-> ->]. rewrite !decide_False by lia. apply Hrest. lia.
Qed.

(** *** The whole compaction *)

Lemma live_rows_elem t safe sel :
  sel ∈ live_rows t safe <-> (sel < st_count t)%nat /\ dead_has safe sel = false.
Proof.
  unfold live_rows. rewrite elem_of_js_filter, elem_of_seq, negb_true_iff.
  split; intros [? ?]; split; auto; lia.
Qed.

Lemma live_rows_NoDup t safe : NoDup (live_rows t safe).
Proof. apply NoDup_js_filter, NoDup_seq. Qed.

Lemma base_of_lookup t sel : base_of t sel = (st_baseSlots t !! sel) ≫= (fun b => if b <? 0 then None else Some (Z.to_nat b)).
Proof. unfold base_of. by destruct (st_baseSlots t !! sel). Qed.

Section Compaction.
Context (t : SelectionTable) (dead : list (nat * nat)).
Context (Hz : sized t) (Hb : bases_within t) (Hd : redirects_ok t dead).

Let safe := pruneUnsafeDeadSlotRedirects t dead.
Let resolve (b : nat) := resolveDeadSlotRedirect b safe.

Lemma safe_descends : exists rank, descends rank safe.
Proof using Hd.
  destruct Hd as [Hk _ [rank Hr]]. exists rank. intros d o E%dead_get_elem. apply Hr.
  eapply elem_of_sublist; [exact E|]. by apply prune_spec.
Qed.

Lemma resolve_lives b : (b < st_count t)%nat -> resolve b ∈ live_rows t safe.
Proof using Hd.
  intros Hlt. apply live_rows_elem. destruct safe_descends as [rank Hr].
  split; [|by eapply resolve_live]. apply resolve_within; [|done]. intros d o E.
  apply (rd_rows _ _ Hd d o). eapply elem_of_sublist; [exact E|]. by apply prune_spec, Hd.
Qed.

Lemma safe_owner d : d ∈ safe.*1 -> selectionDependsOn t (resolve d) d = false.
Proof using Hd.
  intros H. destruct (prune_spec t dead (rd_keys _ _ Hd)) as [_ Hs]. specialize (Hs d H).
  unfold redirect_safe in Hs. rewrite negb_true_iff, orb_false_iff in Hs. apply Hs.
Qed.

Lemma compactDeadSlots_rows :
  st_count (compactDeadSlots t dead) = length (live_rows t safe) /\
  length (st_outputOrder (compactDeadSlots t dead)) = st_capacity t /\
  forall i sel, live_rows t safe !! i = Some sel ->
    row_of (compactDeadSlots t dead) i = row_of t sel /\
    match base_of t sel with
    | None => base_of (compactDeadSlots t dead) i = None
    | Some b => exists j, base_of (compactDeadSlots t dead) i = Some j /\ live_rows t safe !! j = Some (resolve b)
    end.
Proof using Hz Hb Hd.
  unfold compactDeadSlots. fold safe.
  set (t0 := with_baseSlots _ t).
  assert (sized t0) as Hz0 by (destruct Hz; split; cbn; rewrite ?map_bases_length; done).
  destruct (compact_rows_spec t0 safe (st_count t) t0 [] (replicate (st_count t) (-1)) 0)
    as (t1 & remap & E & Hc); [|cbn; lia|apply Hz0|by rewrite length_replicate|by intros ? ?%elem_of_nil|].
  { by split. }
  cbn [length app] in E, Hc. rewrite E. fold (live_rows t safe) in E, Hc |- *.
  destruct Hc as [Hz1 Hcap _ Hrows _].
  split; [done|]. split; [cbn; by rewrite (sz_outputOrder _ Hz1), Hcap|]. intros i sel Hi.
  destruct (Hrows i sel Hi) as (E1 & E2 & _).
  pose proof (lookup_lt_Some _ _ _ Hi) as Hil. pose proof (list_elem_of_lookup_2 _ _ _ Hi) as [Hsel _]%live_rows_elem.
  split; [done|]. rewrite !base_of_lookup. cbn [st_baseSlots with_count with_baseSlots].
  assert (sel < length (st_baseSlots t))%nat as Hlt by (rewrite (sz_baseSlots _ Hz); pose proof (sz_count _ Hz); lia).
  destruct (lookup_lt_is_Some_2 _ _ Hlt) as [b Eb]. rewrite Eb. cbn [mbind option_bind].
  unfold t0 in E2. cbn [st_baseSlots with_baseSlots] in E2.
  rewrite (map_bases_lookup _ _ _ _ _ Eb), decide_True in E2 by done.
  rewrite (map_bases_lookup _ _ _ _ _ E2), decide_True by done.
  destruct (Z.ltb_spec b 0) as [Hneg|Hpos].
  { rewrite (proj2 (Z.ltb_lt b 0)) by done. cbn. by rewrite (proj2 (Z.ltb_lt b 0)). }
  rewrite (proj2 (Z.ltb_ge _ _)) by lia. rewrite Nat2Z.id.
  assert (Z.to_nat b < st_count t)%nat as Hbn.
  { apply (Hb sel); [done|]. rewrite base_of_lookup, Eb. cbn. by rewrite (proj2 (Z.ltb_ge b 0)). }
  pose proof (resolve_lives _ Hbn) as [j Hj]%list_elem_of_lookup. destruct (Hrows j _ Hj) as (_ & _ & Er).
  unfold resolve in *. rewrite Er. cbn [default]. exists j. split; [|done].
  cbn. rewrite (proj2 (Z.ltb_ge (Z.of_nat j) 0)) by lia. by rewrite Nat2Z.id.
Qed.

(** A chain that meets no removed row is not changed. *)
Lemma compacted_owner_grounded i sel :
  grounded t sel -> (sel < st_count t)%nat -> (forall d, d ∈ safe.*1 -> ~ stands_on t sel d) ->
  live_rows t safe !! i = Some sel -> grounded (compactDeadSlots t dead) i.
Proof using Hz Hb Hd.
  intros Hg. revert i. induction Hg as [sel _ IH]. intros i Hs Hno Hi. constructor. intros b Eb.
  destruct compactDeadSlots_rows as (_ & _ & H). destruct (H i sel Hi) as [_ Hbase].
  destruct (base_of t sel) as [b0|] eqn:E0; [|congruence]. destruct Hbase as (j & Ej & Hj).
  assert (b = j) as -> by congruence.
  unfold resolve in Hj. rewrite resolve_other in Hj.
  - apply (IH b0 eq_refl j); [by eapply Hb| |done]. intros d Hd' Hst. apply (Hno d Hd'). by eapply stands_over.
  - destruct (dead_has safe b0) eqn:Eh; [|done]. apply dead_has_iff in Eh. destruct (Hno b0 Eh). by constructor.
Qed.

Lemma compacted_grounded i sel :
  (forall sel, (sel < st_count t)%nat -> grounded t sel) ->
  (forall d d', d ∈ safe.*1 -> d' ∈ safe.*1 -> selectionDependsOn t (resolve d) d' = false) ->
  live_rows t safe !! i = Some sel -> grounded (compactDeadSlots t dead) i.
Proof using Hz Hb Hd.
  intros Hall Hno Hi. pose proof (list_elem_of_lookup_2 _ _ _ Hi) as [Hsel _]%live_rows_elem.
  pose proof (Hall sel Hsel) as Hg. revert i Hi. induction Hg as [sel _ IH]. intros i Hi. constructor. intros b Eb.
  destruct compactDeadSlots_rows as (_ & _ & H). destruct (H i sel Hi) as [_ Hbase].
  destruct (base_of t sel) as [b0|] eqn:E0; [|congruence]. destruct Hbase as (j & Ej & Hj).
  assert (b = j) as -> by congruence. pose proof (Hb _ _ Hsel E0) as Hb0.
  destruct (dead_has safe b0) eqn:Eh.
  - apply dead_has_iff in Eh. pose proof (list_elem_of_lookup_2 _ _ _ Hj) as [Hr _]%live_rows_elem.
    apply (compacted_owner_grounded j (resolve b0)); [auto|done| |done].
    intros d Hdd Hst. apply selectionDependsOn_iff in Hst; [|done|done|auto]. by rewrite Hno in Hst.
  - unfold resolve in Hj. rewrite resolve_other in Hj by done. eauto.
Qed.

Lemma compacted_bases : bases_within (compactDeadSlots t dead).
Proof using Hz Hb Hd.
  destruct compactDeadSlots_rows as (Hc & _ & H). intros i b Hi Eb. rewrite Hc in Hi |- *.
  destruct (lookup_lt_is_Some_2 _ _ Hi) as [sel Hs]. destruct (H i sel Hs) as [_ Hbase].
  destruct (base_of t sel) as [b0|]; [|congruence]. destruct Hbase as (j & Ej & Hj).
  assert (b = j) as -> by congruence. by eapply lookup_lt_Some.
Qed.
End Compaction.

(** *** The end of the collapse *)

Lemma rewrite_row_spec t target source k : sized t ->
  (target < st_capacity t)%nat -> (source < st_capacity t)%nat ->
  row_of (rewriteSelectionRowFromSource t target source) k =
    (if decide (k = target) then row_of t source else row_of t k) /\
  base_of (rewriteSelectionRowFromSource t target source) k =
    (if decide (k = target) then base_of t source else base_of t k).
Proof.
  intros Hz Ht Hs. destruct (copy_row_spec t target source true k Hz Ht Hs) as [E1 E2].
  split; [exact E1|]. rewrite !base_of_lookup. unfold rewriteSelectionRowFromSource.
  change (st_baseSlots (with_flags ?q ?p ?x)) with (st_baseSlots x). rewrite E2. by case_decide.
Qed.

Lemma rewrite_row_sized t target source : sized t -> sized (rewriteSelectionRowFromSource t target source).
Proof.
  intros H. destruct (copy_row_sized t target source true H).
  split; try done; unfold rewriteSelectionRowFromSource; cbn in *; rewrite length_insert; done.
Qed.

Section Collapse.
Context (rank : nat -> nat) (dead : list (nat * nat)).

Let owner (x : nat) : nat := resolveDeadSlotRedirect x dead.
Context (Howner : forall x, owner (owner x) = owner x).

(** Ranks that fall along the bases. *)
Definition ranked (t : SelectionTable) : Prop :=
  forall x b, (x < st_count t)%nat -> base_of t x = Some b -> (b < st_count t)%nat /\ (rank b < rank x)%nat.

Definition weight (t : SelectionTable) (x : nat) : nat :=
  match base_of t x with None => 0 | Some b => S (rank b) end.

Definition weights (t : SelectionTable) : nat := sum_list (weight t <$> seq 0 (st_count t)).

Lemma sum_list_le {A} (f g : A -> nat) l : (forall x, x ∈ l -> (f x <= g x)%nat) -> (sum_list (f <$> l) <= sum_list (g <$> l))%nat.
Proof.
  induction l as [|x l IH]; cbn; [done|]. intros H.
  pose proof (H x (list_elem_of_here _ _)). specialize (IH (fun y Hy => H y (list_elem_of_further _ _ _ Hy))). lia.
Qed.

Lemma sum_list_lt {A} (f g : A -> nat) l x : x ∈ l -> (forall y, y ∈ l -> (f y <= g y)%nat) -> (f x < g x)%nat ->
  (sum_list (f <$> l) < sum_list (g <$> l))%nat.
Proof.
  induction 1 as [x l|x y l Hx IH]; cbn; intros H Hlt.
  - pose proof (sum_list_le f g l (fun y Hy => H y (list_elem_of_further _ _ _ Hy))). lia.
  - pose proof (H y (list_elem_of_here _ _)). specialize (IH (fun z Hz => H z (list_elem_of_further _ _ _ Hz)) Hlt). lia.
Qed.

Lemma sum_list_bound {A} (f : A -> nat) n l : (forall x, x ∈ l -> (f x <= n)%nat) -> (sum_list (f <$> l) <= length l * n)%nat.
Proof.
  induction l as [|x l IH]; cbn; [done|]. intros H.
  pose proof (H x (list_elem_of_here _ _)). specialize (IH (fun y Hy => H y (list_elem_of_further _ _ _ Hy))). lia.
Qed.

(** A target and a source of the same object: the target has a base, and the
    source is not above it. *)
Definition lowers (t : SelectionTable) (r : nat * nat) : Prop :=
  (r.1 < st_count t)%nat /\ (r.2 < st_count t)%nat /\ owner r.2 = owner r.1 /\ exists b, base_of t r.1 = Some b /\ (rank r.2 <= rank b)%nat.

(** Every row of [t] is a row of [t0] with the same owner. *)
Definition rewritten (t0 t : SelectionTable) : Prop :=
  forall x, (x < st_count t)%nat -> exists src, (src < st_count t)%nat /\ row_of t x = row_of t0 src /\
    base_of t x = base_of t0 src /\ owner src = owner x.

Lemma lower_step t0 t r : rewritten t0 t -> sized t -> ranked t -> lowers t r ->
  let t' := rewriteSelectionRowFromSource t r.1 r.2 in
  sized t' /\ st_count t' = st_count t /\ ranked t' /\ (weights t' < weights t)%nat /\ rewritten t0 t' /\
  forall r', r'.1 <> r.1 -> lowers t r' -> lowers t' r'.
Proof.
  intros Hw Hz Hr (H1 & H2 & Ho & b & Eb & Hle) t'. pose proof (sz_count _ Hz) as Hc.
  assert (forall k, row_of t' k = (if decide (k = r.1) then row_of t r.2 else row_of t k) /\
    base_of t' k = if decide (k = r.1) then base_of t r.2 else base_of t k) as Hk.
  { intros k. apply rewrite_row_spec; [done|lia|lia]. }
  assert (forall k, base_of t' k = if decide (k = r.1) then base_of t r.2 else base_of t k) as Hbase by apply Hk.
  split; [by apply rewrite_row_sized|]. split; [done|]. split_and!.
  - intros x c Hx. rewrite Hbase. case_decide; [subst; intros Ec|by apply Hr].
    destruct (Hr _ _ H2 Ec). destruct (Hr _ _ H1 Eb). split; [done|lia].
  - unfold weights. change (st_count t') with (st_count t). eapply (sum_list_lt _ _ _ r.1).
    + apply elem_of_seq. lia.
    + intros y _. unfold weight. rewrite Hbase. case_decide; [subst|done]. rewrite Eb.
      destruct (base_of t r.2) as [c|] eqn:Ec; [|lia]. destruct (Hr _ _ H2 Ec). lia.
    + unfold weight. rewrite Hbase, decide_True, Eb by done.
      destruct (base_of t r.2) as [c|] eqn:Ec; [|lia]. destruct (Hr _ _ H2 Ec). lia.
  - intros x Hx. destruct (Hk x) as [-> ->]. case_decide as Ex; [|by apply Hw]. subst x.
    destruct (Hw r.2 H2) as (src & ? & ? & ? & Es). exists src. split_and!; try done. by rewrite Es.
  - intros r' Hne (? & ? & ? & b' & Eb' & ?). split_and!; try done. exists b'. by rewrite Hbase, decide_False.
Qed.

Lemma lower_all t0 rewrites : forall t, rewritten t0 t -> sized t -> ranked t -> NoDup rewrites.*1 -> Forall (lowers t) rewrites ->
  let t' := foldl (fun t r => rewriteSelectionRowFromSource t r.1 r.2) t rewrites in
  sized t' /\ st_count t' = st_count t /\ ranked t' /\ (weights t' + length rewrites <= weights t)%nat /\
  rewritten t0 t'.
Proof.
  induction rewrites as [|r rewrites IH]; intros t Hs0 Hz Hr Hd Hl; cbn; [split_and!; try done; lia|].
  inversion_clear Hd as [|? ? Hn Hd']. inversion_clear Hl as [|? ? H Hl'].
  destruct (lower_step t0 t r Hs0 Hz Hr H) as (Hz' & Hc & Hr' & Hw & Hs' & Hrest).
  destruct (IH _ Hs' Hz' Hr' Hd') as (? & Ec & ? & Hw' & ?).
  - rewrite Forall_forall in Hl' |- *. intros r' Hin. apply Hrest; [|auto]. intros E. apply Hn. rewrite <- E.
    by apply list_elem_of_fmap_2.
  - split_and!; [done|by rewrite Ec|done|lia|done].
Qed.

(** The walk that finds the source. *)
Lemma nearest_found t target d depth : ranked t -> forall cur, (cur < st_count t)%nat ->
  depends_on depth t cur d = true -> owner d = target ->
  exists source b, nearest_dependency depth t target dead cur = Some source /\ base_of t cur = Some b /\
    (source < st_count t)%nat /\ owner source = target /\ (rank source <= rank b)%nat.
Proof.
  intros Hr. induction depth as [|depth IH]; [done|]. intros cur Hc. cbn.
  destruct (base_of t cur) as [b|] eqn:E; [|done]. destruct (Hr _ _ Hc E) as [Hb _].
  destruct (Nat.eqb_spec (resolveDeadSlotRedirect b dead) target) as [|Hne]; [intros; by exists b, b|].
  destruct (Nat.eqb_spec b d) as [->|]; [intros _ ?; done|]. intros H Ed.
  destruct (IH b Hb H Ed) as (source & b' & -> & Eb' & Hs & Ho & Hle). exists source, b.
  destruct (Hr _ _ Hb Eb') as [_ Hlt]. split_and!; [done|done|done|done|lia].
Qed.

(** A redirect whose owner depends on its row. *)
Definition unsafe (t : SelectionTable) (d : nat) : bool :=
  negb (owner d =? d)%nat && selectionDependsOn t (owner d) d.

Lemma collect_rewrites_spec t keys : ranked t ->
  (forall d, d ∈ keys -> (owner d < st_count t)%nat) ->
  forall rewrites, NoDup rewrites.*1 -> Forall (lowers t) rewrites ->
  NoDup (collect_rewrites t dead keys rewrites).*1 /\ Forall (lowers t) (collect_rewrites t dead keys rewrites) /\
  (collect_rewrites t dead keys rewrites = [] -> rewrites = [] /\ forall d, d ∈ keys -> unsafe t d = false).
Proof.
  intros Hr. induction keys as [|d keys IH]; intros Hin rewrites Hd Hl; cbn [collect_rewrites].
  { split_and!; [done|done|]. intros ->. split; [done|]. by intros ? ?%elem_of_nil. }
  assert (forall d, d ∈ keys -> (owner d < st_count t)%nat) as Hin' by (intros; apply Hin; by constructor).
  destruct (_ || _) eqn:E.
  { destruct (IH Hin' rewrites Hd Hl) as (Hn1 & Hl1 & He). split_and!; [done|done|]. intros [-> H]%He.
    split; [done|]. intros d' [->|Hd']%elem_of_cons; [|auto]. unfold unsafe.
    by destruct (_ =? _)%nat, (selectionDependsOn _ _ _). }
  apply orb_false_iff in E as [E1 E2]. apply negb_false_iff in E2.
  pose proof (Hin d (list_elem_of_here _ _)) as Ht. fold (owner d). set (target := owner d) in *.
  destruct (nearest_found t target d (st_count t) Hr target Ht E2 eq_refl) as (source & b & En & Eb & Hs & Ho & Hle).
  unfold findNearestRedirectDependency. rewrite En. destruct (js_some _ rewrites) eqn:Ej.
  - destruct (IH Hin' rewrites Hd Hl) as (Hn1 & Hl1 & He). split_and!; [done|done|]. by intros [-> _]%He.
  - destruct (IH Hin' (js_push rewrites (target, source))) as (Hn1 & Hl1 & He); unfold js_push.
    + rewrite fmap_app. cbn. apply NoDup_app. split_and!; [done| |apply NoDup_singleton].
      intros x Hx Hx'. apply list_elem_of_singleton in Hx' as ->.
      apply list_elem_of_fmap in Hx as ([a c] & Ea & Hac). cbn in Ea. subst a.
      assert (js_some (fun p : nat * nat => (p.1 =? target)%nat) rewrites = true) as Hj; [|congruence].
      apply js_some_true. eexists; split; [exact Hac|]. apply Nat.eqb_refl.
    + apply Forall_app. split; [done|]. constructor; [|done]. split_and!; [done|done| |by exists b]. cbn. rewrite Ho. symmetry. apply Howner.
    + split_and!; [done|done|]. by intros [[_ H]%app_nil _]%He.
Qed.

Lemma collapse_loop_spec t0 fuel : forall t collapsed, rewritten t0 t -> sized t -> ranked t -> (weights t < fuel)%nat ->
  (forall d, d ∈ dead.*1 -> (owner d < st_count t)%nat) ->
  exists n t', collapse_loop fuel t dead collapsed = Some (n, t') /\ sized t' /\ ranked t' /\
    st_count t' = st_count t /\ rewritten t0 t' /\ forall d, d ∈ dead.*1 -> unsafe t' d = false.
Proof.
  induction fuel as [|fuel IH]; intros t collapsed Hs Hz Hr Hw Hin; [lia|]. cbn [collapse_loop].
  destruct (collect_rewrites_spec t dead.*1 Hr Hin [] (NoDup_nil_2) (Forall_nil_2 _)) as (Hd & Hl & He).
  unfold collectUnsafeRedirectOwnerRewrites.
  destruct (collect_rewrites t dead dead.*1 []) as [|r rewrites] eqn:E.
  { destruct (He eq_refl) as [_ H]. eexists _, _. split_and!; done. }
  set (sorted := js_sort _ _). assert (sorted ≡ₚ r :: rewrites) as Hp by apply js_sort_perm.
  destruct (lower_all t0 sorted t Hs Hz Hr) as (Hz' & Hc' & Hr' & Hw' & Hs').
  { by rewrite Hp. } { by rewrite Hp. }
  assert (length sorted = S (length rewrites)) as Hlen by (by rewrite Hp).
  destruct (IH _ (collapsed + length sorted)%nat Hs' Hz' Hr') as (n & t' & Et & ? & ? & Hc & ? & ?).
  - lia.
  - intros d Hdd. rewrite Hc'. auto.
  - exists n, t'. split_and!; try done. by rewrite Hc.
Qed.
End Collapse.

(** *** Ranks *)

Fixpoint height (n : nat) (t : SelectionTable) (x : nat) : nat :=
  match n with
  | O => 0
  | S n => match base_of t x with None => 0 | Some b => S (height n t b) end
  end.

Lemma height_chain t n : forall x, exists l, chain t x l /\ length l = height n t x.
Proof.
  induction n as [|n IH]; intros x; cbn; [by exists []|].
  destruct (base_of t x) as [b|] eqn:E; [|by exists []]. destruct (IH b) as (l & Hl & Hlen).
  exists (b :: l). cbn. auto.
Qed.

Lemma height_stable t n : forall x, (forall l, chain t x l -> (length l <= n)%nat) -> height (S n) t x = height n t x.
Proof.
  induction n as [|n IH]; intros x Hx; cbn [height]; destruct (base_of t x) as [b|] eqn:E; try done.
  - pose proof (Hx [b] (conj E I)) as H. cbn in H. lia.
  - f_equal. apply IH. intros l Hl. pose proof (Hx (b :: l) (conj E Hl)) as H. cbn in H. lia.
Qed.

Lemma grounded_ranked t : bases_within t -> (forall x, (x < st_count t)%nat -> grounded t x) ->
  exists rank, ranked rank t /\ forall x, (x < st_count t)%nat -> (rank x < st_count t)%nat.
Proof.
  intros Hb Hg. exists (height (st_count t) t). split.
  - intros x b Hx E. split; [by eapply Hb|]. rewrite <- (height_stable t (st_count t) x).
    + cbn. rewrite E. lia.
    + intros l Hl. pose proof (chain_length _ _ _ Hb Hx (Hg x Hx) Hl). lia.
  - intros x Hx. destruct (height_chain t (st_count t) x) as (l & Hl & <-).
    eapply chain_length; eauto.
Qed.

Lemma ranked_grounded rank t x : ranked rank t -> (x < st_count t)%nat -> grounded t x.
Proof.
  intros Hr. induction x as [x IH] using (induction_ltof1 _ rank). intros Hx. constructor. intros b E.
  destruct (Hr _ _ Hx E). by apply IH.
Qed.

Lemma owner_idempotent t dead : redirects_ok t dead ->
  forall x, resolveDeadSlotRedirect (resolveDeadSlotRedirect x dead) dead = resolveDeadSlotRedirect x dead.
Proof.
  intros [_ _ [rank Hr]] x. apply resolve_other, (resolve_live rank). intros d o E%dead_get_elem. auto.
Qed.

Lemma owner_not_dead t dead d : redirects_ok t dead -> d ∈ dead.*1 -> resolveDeadSlotRedirect d dead <> d.
Proof.
  intros [_ _ [rank Hr]] Hd E. assert (dead_has dead d = false) as H.
  { rewrite <- E. apply (resolve_live rank). intros ? o Ho%dead_get_elem. auto. }
  apply dead_has_iff in Hd. congruence.
Qed.

(** The collapse ends, keeps the chains finite and leaves no owner above its own
    duplicate; every row is one of the rows of its object. *)
Lemma collapseUnsafeRedirectOwners_ends t dead :
  sized t -> bases_within t -> redirects_ok t dead -> (forall x, (x < st_count t)%nat -> grounded t x) ->
  exists n t', collapseUnsafeRedirectOwners t dead = Some (n, t') /\ sized t' /\ bases_within t' /\
    st_count t' = st_count t /\ (forall x, (x < st_count t)%nat -> grounded t' x) /\
    (forall x, (x < st_count t)%nat -> exists src, (src < st_count t)%nat /\ row_of t' x = row_of t src /\
      base_of t' x = base_of t src /\ resolveDeadSlotRedirect src dead = resolveDeadSlotRedirect x dead) /\
    forall d, d ∈ dead.*1 -> selectionDependsOn t' (resolveDeadSlotRedirect d dead) d = false.
Proof.
  intros Hz Hb Hd Hg. destruct (grounded_ranked t Hb Hg) as (rank & Hr & Hlt).
  destruct (collapse_loop_spec rank dead (owner_idempotent t dead Hd) t (S (st_count t * st_count t)) t 0)
    as (n & t' & E & Hz' & Hr' & Hc & Hw & Hu); [by intros x Hx; exists x|done|done| | |].
  - unfold weights. apply Nat.lt_succ_r. rewrite <- (length_seq (st_count t) 0) at 2. apply sum_list_bound.
    intros x Hx%elem_of_seq. unfold weight. destruct (base_of t x) as [b|] eqn:Eb; [|lia].
    assert (x < st_count t)%nat as Hx' by lia. destruct (Hr _ _ Hx' Eb) as [H _]. specialize (Hlt b H). lia.
  - intros d ([k o] & -> & H)%list_elem_of_fmap. cbn. destruct (rd_rows _ _ Hd _ _ H).
    apply resolve_within; [|done]. intros ? ? Hin. by apply (rd_rows _ _ Hd _ _ Hin).
  - exists n, t'. unfold rewritten in Hw. rewrite Hc in Hw.
    split; [exact E|]. split; [exact Hz'|]. split_and!; [|exact Hc| |exact Hw|].
    + intros x b Hx Eb. by apply (Hr' x).
    + rewrite <- Hc. intros x. by apply (ranked_grounded rank).
    + intros d Hdd. specialize (Hu d Hdd). unfold unsafe in Hu. apply andb_false_iff in Hu as [Hu|Hu]; [|done].
      apply negb_false_iff, Nat.eqb_eq in Hu. by destruct (owner_not_dead t dead d Hd Hdd).
Qed.

(** A map whose redirects all pass the test is not pruned. *)
Lemma prune_pass_keeps t keys safe : (forall d, d ∈ keys -> redirect_safe t safe d = true) ->
  prune_pass t keys safe false = (safe, false).
Proof.
  induction keys as [|d keys IH]; cbn; [done|]. intros H.
  pose proof (H d (list_elem_of_here _ _)) as E. unfold redirect_safe in E. apply negb_true_iff in E. rewrite E.
  apply IH. intros. apply H. by constructor.
Qed.

Lemma prune_keeps t dead : (forall d, d ∈ dead.*1 -> redirect_safe t dead d = true) ->
  pruneUnsafeDeadSlotRedirects t dead = dead.
Proof. intros H. unfold pruneUnsafeDeadSlotRedirects. cbn. by rewrite prune_pass_keeps. Qed.

(** The end of [buildSelection]: the collapse, then the compaction. *)
Definition removeDuplicates (t : SelectionTable) (dead : list (nat * nat)) : option SelectionTable :=
  match dead with
  | [] => Some t
  | _ => '(_, t) ← collapseUnsafeRedirectOwners t dead; Some (compactDeadSlots t dead)
  end.

(** ** Properties *)

(** Without redirects nothing is removed. *)
Lemma live_rows_none t : live_rows t [] = seq 0 (st_count t).
Proof. unfold live_rows. induction (seq 0 (st_count t)) as [|x l IH]; [done|]. cbn. f_equal. exact IH. Qed.

Lemma removeDuplicates_some t dead n t1 : dead <> [] -> collapseUnsafeRedirectOwners t dead = Some (n, t1) ->
  removeDuplicates t dead = Some (compactDeadSlots t1 dead).
Proof. intros Hne E. unfold removeDuplicates. destruct dead; [done|]. by rewrite E. Qed.

Lemma order_found t : bases_within t -> (st_count t <= length (st_outputOrder t))%nat ->
  (forall x, (x < st_count t)%nat -> grounded t x) -> exists t', buildOutputOrder t = Some (true, t').
Proof.
  intros Hb Ho Hg. destruct (buildOutputOrder_spec t Hb Ho) as (ok & order & E & _ & Hok & _).
  assert (ok = true) as -> by by apply Hok. eauto.
Qed.

(** C35: the removal of duplicates ends and leaves exactly the rows that are not
    redirected, in order: each holds what some row of the same owner held, and
    its base is the owner of that row's base.  If moreover no owner stands on a
    removed row after the collapse - the code tests every owner against its own
    duplicates only - the result can be ordered for output. *)
Theorem duplicates_removed t dead :
  sized t -> bases_within t -> redirects_ok t dead -> (forall x, (x < st_count t)%nat -> grounded t x) ->
  let owner x := resolveDeadSlotRedirect x dead in
  let live := live_rows t dead in
  exists t', removeDuplicates t dead = Some t' /\ st_count t' = length live /\
  (forall i sel, live !! i = Some sel -> exists src, (src < st_count t)%nat /\ owner src = sel /\
    row_of t' i = row_of t src /\
    match base_of t src with
    | None => base_of t' i = None
    | Some b => exists j, base_of t' i = Some j /\ live !! j = Some (owner b)
    end) /\
  (forall n collapsed, collapseUnsafeRedirectOwners t dead = Some (n, collapsed) ->
    (forall d d', d ∈ dead.*1 -> d' ∈ dead.*1 -> selectionDependsOn collapsed (owner d) d' = false) ->
    exists ordered_table, buildOutputOrder t' = Some (true, ordered_table)).
Proof.
  intros Hz Hb Hd Hg owner live.
  destruct (collapseUnsafeRedirectOwners_ends t dead Hz Hb Hd Hg)
    as (n & t1 & E & Hz1 & Hb1 & Hc1 & Hg1 & Hw & Hsafe).
  assert (redirects_ok t1 dead) as Hd1 by (destruct Hd; split; rewrite ?Hc1; done).
  assert (pruneUnsafeDeadSlotRedirects t1 dead = dead) as Ep.
  { apply prune_keeps. intros d Hdd. unfold redirect_safe. rewrite (Hsafe d Hdd), orb_false_r, negb_true_iff.
    apply Nat.eqb_neq. by eapply owner_not_dead. }
  destruct (compactDeadSlots_rows t1 dead Hz1 Hb1 Hd1) as (Hc & Ho & Hrows). rewrite Ep in Hc, Hrows.
  assert (live_rows t1 dead = live) as El by (unfold live, live_rows; by rewrite Hc1). rewrite El in Hc, Hrows.
  destruct (decide (dead = [])) as [->|Hne].
  { exists t. unfold live. rewrite live_rows_none, length_seq. split_and!; [done|done| |].
    - intros i sel [-> Hi]%lookup_seq. exists i. split_and!; [done|done|done|].
      destruct (base_of t i) as [b|] eqn:Eb; [|done]. exists b. split; [done|].
      apply lookup_seq. split; [done|]. by apply (Hb i).
    - intros _ _ _ _. apply order_found; [done| |done].
      rewrite (sz_outputOrder _ Hz). apply (sz_count _ Hz). }
  exists (compactDeadSlots t1 dead). split; [by eapply removeDuplicates_some|]. split; [done|]. split.
  - intros i sel Hi. destruct (Hrows i sel Hi) as [Er Eb].
    assert (sel ∈ live_rows t1 dead) as [Hs Hl]%live_rows_elem by (rewrite El; by eapply list_elem_of_lookup_2).
    rewrite Hc1 in Hs. destruct (Hw sel Hs) as (src & Hsrc & Ew & Ewb & Eo).
    exists src. rewrite <- Ewb, <- Ew. split_and!; [done| |done|done].
    unfold owner. rewrite Eo. by apply resolve_other.
  - intros n' collapsed E' Hno. rewrite E in E'. injection E' as <- <-. apply order_found.
    + by apply (compacted_bases t1 dead).
    + rewrite Ho, Hc. etrans; [|apply (sz_count _ Hz1)]. unfold live, live_rows. rewrite Hc1.
      etrans; [apply js_filter_length_le|]. by rewrite length_seq.
    + rewrite Hc. intros i Hi. destruct (lookup_lt_is_Some_2 _ _ Hi) as [sel Hs].
      eapply (compacted_grounded t1 dead Hz1 Hb1 Hd1 i sel); [by rewrite Hc1|by rewrite Ep|by rewrite Ep, El].
Qed.

(** Four rows: an object stored as a delta on a delta on its own duplicate, and a
    delta on that duplicate. *)
Definition demo_table (bases types : list Z) : SelectionTable :=
  let n := length bases in
  let ids := Z.of_nat <$> seq 0 n in
  mkSelection n n (replicate n 0) ids ((fun i => 12 + 20 * i) <$> ids) ((fun i => 32 + 20 * i) <$> ids)
    (replicate (n * 20) 0) types (replicate n 2) (replicate n 18) (replicate (n * 5) 0) (replicate n 1) bases
    None (replicate n 0) (replicate n 0) (replicate n None) (replicate n 0) (replicate n 0) (replicate n 0%nat).

Definition owner_above : SelectionTable := demo_table [1; 2; -1; 2] [6; 6; 1; 6].

Lemma demo_sized bases types : length types = length bases -> sized (demo_table bases types).
Proof. intros H. split; cbn; rewrite ?length_fmap, ?length_replicate, ?length_seq; done. Qed.

Lemma duplicates_removed_witness :
  exists t', removeDuplicates owner_above [(2, 0)]%nat = Some t' /\
    st_count t' = 3%nat /\ take 3 (st_baseSlots t') = [-1; 0; 0] /\ row_of t' 0 = row_of owner_above 2.
Proof.
  assert (bases_within owner_above /\ ranked (fun x => nth x [2; 1; 0; 1] 0)%nat owner_above) as [Hb Hr].
  { split; intros [|[|[|[|x]]]] b Hx [= <-]; (cbn in Hx; lia) || (vm_compute; lia). }
  destruct (duplicates_removed owner_above [(2, 0)]%nat) as (t' & E & Hc & Hrows & _).
  - by apply demo_sized.
  - exact Hb.
  - split; [apply NoDup_singleton|intros d o [[= -> ->]|[]%elem_of_nil]%elem_of_cons; cbn; lia|].
    exists (fun x => x). intros d o [[= -> ->]|[]%elem_of_nil]%elem_of_cons; lia.
  - intros x. by apply (ranked_grounded _ _ _ Hr).
  - exists t'. split; [exact E|]. assert (Some t' = removeDuplicates owner_above [(2, 0)]%nat) as E' by done.
    vm_compute in E'. injection E' as ->. split; [exact Hc|]. split; [reflexivity|].
    destruct (Hrows 0 0 eq_refl)%nat as (src & Hs & Eo & Er & Eb).
    destruct src as [|[|[|[|src]]]]; try (cbn in Hs; lia); vm_compute in Eo; try discriminate Eo; [|exact Er].
    destruct Eb as (j & Ej & _). vm_compute in Ej. discriminate Ej.
Defined.

(** Two objects, each stored in one pack in full and in the other as a delta on
    the other object, with a delta on each delta: every owner passes the test
    against its own duplicate, and their removal closes a circle. *)
Definition crossing : SelectionTable := demo_table [2; 3; 4; 5; -1; -1] [6; 6; 6; 6; 1; 1].

Lemma crossing_redirects_close_a_circle :
  sized crossing /\ bases_within crossing /\ redirects_ok crossing [(4, 3); (5, 2)]%nat /\
  (forall x, (x < st_count crossing)%nat -> grounded crossing x) /\
  collapseUnsafeRedirectOwners crossing [(4, 3); (5, 2)]%nat = Some (0%nat, crossing) /\
  pruneUnsafeDeadSlotRedirects crossing [(4, 3); (5, 2)]%nat = [(4, 3); (5, 2)]%nat /\
  exists t', removeDuplicates crossing [(4, 3); (5, 2)]%nat = Some t' /\
    take 4 (st_baseSlots t') = [2; 3; 3; 2] /\ exists order, buildOutputOrder t' = Some (false, order).
Proof.
  assert (bases_within crossing /\ ranked (fun x => nth x [2; 2; 1; 1; 0; 0] 0)%nat crossing) as [Hb Hr].
  { split; intros [|[|[|[|[|[|x]]]]]] b Hx [= <-]; (cbn in Hx; lia) || (vm_compute; lia). }
  split; [by apply demo_sized|]. split; [exact Hb|]. split.
  { split; [by apply NoDup_cons; split; [intros ?%list_elem_of_singleton|apply NoDup_singleton]| |exists (fun x => x)];
      intros d o [[= -> ->]|[[= -> ->]|[]%elem_of_nil]%elem_of_cons]%elem_of_cons; cbn; lia. }
  split; [intros x; by apply (ranked_grounded _ _ _ Hr)|].
  split; [by vm_compute|]. split; [by vm_compute|].
  eexists. split; [vm_compute; reflexivity|]. split; [reflexivity|]. eexists. vm_compute. reflexivity.
Qed.
