(* ===== verification/OidLookup.v ===== *)
(** * The owner table of the planner

    [SelectedOidLookup] of [git/pack/rewrite/ownership.ts]: an open-addressed
    table from object ids to rows, in typed arrays, with the FNV-1a hash and
    doubling.  It refines a finite map. *)
From S2P Require Import Prelude Bytes PackIndex.

(** ** Definitions *)

Record SelectedOidLookup := mkLookup {
  ol_count : Z;
  ol_mask : Z;
  ol_used : list Z;
  ol_keys : list Z;
  ol_owners : list Z }.

(** The shift is on 32-bit integers.  [None]: the loop does not end. *)
Fixpoint next_power (fuel : nat) (out value : Z) : option Z :=
  if out <? value then
    match fuel with O => None | S fuel => next_power fuel (toInt32 (Z.shiftl out 1)) value end
  else Some out.

Definition nextPowerOfTwo (value : Z) : option Z := next_power 32 1 value.

(** [hash ^= byte] and [Math.imul] work on 32-bit integers, [>>> 0] makes the
    result unsigned. *)
Definition hash_byte (hash byte : Z) : Z := toInt32 (Z.lxor (toInt32 hash) byte * 16777619).

Definition hash_name (name : list Z) : Z := toUint32 (foldl hash_byte 2166136261 name).

Definition hashOidAt (rawBytes : list Z) (start : nat) : Z := hash_name (name_at rawBytes start).

Definition slotKeyEquals (keys : list Z) (slot : nat) (rawBytes : list Z) (start : nat) : bool :=
  bool_decide (name_at keys (slot * 20) = name_at rawBytes start).

Definition empty_lookup (slotCount : Z) : SelectedOidLookup :=
  mkLookup 0 (slotCount - 1) (replicate (Z.to_nat slotCount) 0) (replicate (Z.to_nat slotCount * 20) 0)
    (replicate (Z.to_nat slotCount) (-1)).

Definition createSelectedOidLookup (minimumEntries : Z) : option SelectedOidLookup :=
  empty_lookup <$> nextPowerOfTwo (Z.max 16 (minimumEntries * 2)).

Definition slot_used (lookup : SelectedOidLookup) (slot : nat) : bool := negb (byte_at (ol_used lookup) slot =? 0).

(** The slot where the probe stops, and whether it holds the id.  A probe visits
    a slot once; [None]: it does not end. *)
Fixpoint probe (fuel : nat) (lookup : SelectedOidLookup) (rawBytes : list Z) (start slot : nat) : option (nat * bool) :=
  if slot_used lookup slot then
    if slotKeyEquals (ol_keys lookup) slot rawBytes start then Some (slot, true)
    else match fuel with
         | O => None
         | S fuel => probe fuel lookup rawBytes start (Z.to_nat (Z.land (Z.of_nat slot + 1) (ol_mask lookup)))
         end
  else Some (slot, false).

Definition first_slot (lookup : SelectedOidLookup) (rawBytes : list Z) (start : nat) : nat :=
  Z.to_nat (Z.land (hashOidAt rawBytes start) (ol_mask lookup)).

Definition findSelectedOidOwner (lookup : SelectedOidLookup) (rawBytes : list Z) (start : nat) : option Z :=
  '(slot, found) ← probe (length (ol_used lookup)) lookup rawBytes start (first_slot lookup rawBytes start);
  Some (if found : bool then byte_at (ol_owners lookup) slot else -1).

(** The second part of [setSelectedOidOwner]. *)
Definition store_owner (lookup : SelectedOidLookup) (rawBytes : list Z) (start : nat) (ownerSel : Z)
  : option SelectedOidLookup :=
  '(slot, found) ← probe (length (ol_used lookup)) lookup rawBytes start (first_slot lookup rawBytes start);
  Some (if found : bool
        then mkLookup (ol_count lookup) (ol_mask lookup) (ol_used lookup) (ol_keys lookup)
               (<[slot := ownerSel]> (ol_owners lookup))
        else mkLookup (ol_count lookup + 1) (ol_mask lookup) (<[slot := 1]> (ol_used lookup))
               (list_inserts (slot * 20) (slice rawBytes start 20) (ol_keys lookup))
               (<[slot := ownerSel]> (ol_owners lookup))).

(** The loop of [rehashSelectedOidLookup] over the previous slots. *)
Fixpoint reinsert (set : SelectedOidLookup -> list Z -> nat -> Z -> option SelectedOidLookup)
  (previous : SelectedOidLookup) (slots : list nat) (lookup : SelectedOidLookup) : option SelectedOidLookup :=
  match slots with
  | [] => Some lookup
  | slot :: slots =>
    if slot_used previous slot then
      lookup ← set lookup (ol_keys previous) (slot * 20)%nat (byte_at (ol_owners previous) slot);
      reinsert set previous slots lookup
    else reinsert set previous slots lookup
  end.

Definition rehashSelectedOidLookup (set : SelectedOidLookup -> list Z -> nat -> Z -> option SelectedOidLookup)
  (lookup : SelectedOidLookup) (nextSlotCount : Z) : option SelectedOidLookup :=
  reinsert set lookup (seq 0 (length (ol_used lookup))) (empty_lookup nextSlotCount).

Definition has_room (lookup : SelectedOidLookup) : bool :=
  (ol_count lookup + 1) * 10 <=? Z.of_nat (length (ol_used lookup)) * 7.

(** [setSelectedOidOwner] grows the table by calling itself; the calls within do
    not grow it again, so a depth of one is enough ([set_holds]). *)
Fixpoint set_owner (depth : nat) (lookup : SelectedOidLookup) (rawBytes : list Z) (start : nat) (ownerSel : Z)
  : option SelectedOidLookup :=
  lookup ←
    (if has_room lookup then Some lookup
     else match depth with
          | O => None
          | S depth => rehashSelectedOidLookup (set_owner depth) lookup (Z.of_nat (length (ol_used lookup)) * 2)
          end);
  store_owner lookup rawBytes start ownerSel.

Definition setSelectedOidOwner : SelectedOidLookup -> list Z -> nat -> Z -> option SelectedOidLookup := set_owner 1.

(** ** The map that the table stands for *)

Definition key_at (lookup : SelectedOidLookup) (slot : nat) : list Z := name_at (ol_keys lookup) (slot * 20).

(** The slots a probe for [key] visits. *)
Definition probed (lookup : SelectedOidLookup) (key : list Z) (d : nat) : nat :=
  Z.to_nat ((hash_name key + Z.of_nat d) mod Z.of_nat (length (ol_used lookup))).

Record holds (lookup : SelectedOidLookup) (m : gmap (list Z) Z) : Prop := {
  ho_size : exists p, 0 <= p /\ Z.of_nat (length (ol_used lookup)) = 2 ^ p;
  ho_mask : ol_mask lookup = Z.of_nat (length (ol_used lookup)) - 1;
  ho_keys : length (ol_keys lookup) = (length (ol_used lookup) * 20)%nat;
  ho_owners : length (ol_owners lookup) = length (ol_used lookup);
  ho_slot : forall s, slot_used lookup s = true -> m !! key_at lookup s = Some (byte_at (ol_owners lookup) s);
  ho_reach : forall key o, m !! key = Some o -> exists d, (d < length (ol_used lookup))%nat /\
    slot_used lookup (probed lookup key d) = true /\ key_at lookup (probed lookup key d) = key /\
    forall j, (j < d)%nat -> slot_used lookup (probed lookup key j) = true;
  ho_once : forall s s', slot_used lookup s = true -> slot_used lookup s' = true ->
    key_at lookup s = key_at lookup s' -> s = s';
  ho_count : ol_count lookup = Z.of_nat (size m);
  ho_load : Z.of_nat (size m) * 10 <= Z.of_nat (length (ol_used lookup)) * 7 }.

(** ** Lemmas *)

Lemma length_name_at_20 l i : length (name_at l i) = 20%nat.
Proof. unfold name_at. by rewrite length_fmap, length_seq. Qed.

Lemma name_at_lookup l from i : (i < 20)%nat -> name_at l from !! i = Some (byte_at l (from + i)).
Proof. intros Hi. unfold name_at. by rewrite list_lookup_fmap, (lookup_seq_lt _ _ _ Hi). Qed.

Lemma name_at_eq l l' from from' :
  (forall i, (i < 20)%nat -> byte_at l (from + i) = byte_at l' (from' + i)) -> name_at l from = name_at l' from'.
Proof.
  intros H. apply (list_eq_same_length _ _ 20); [by rewrite length_name_at_20..|].
  intros i x y Hi. rewrite !name_at_lookup, H by done. congruence.
Qed.

(** Names are stored one after another. *)
Lemma name_at_stored keys raw start slot s :
  (start + 20 <= length raw)%nat -> ((S slot) * 20 <= length keys)%nat ->
  name_at (list_inserts (slot * 20) (slice raw start 20) keys) (s * 20) =
  if decide (s = slot) then name_at raw start else name_at keys (s * 20).
Proof.
  intros Hr Hk. assert (length (slice raw start 20) = 20%nat) as Hl.
  { unfold slice. rewrite length_take, length_drop. lia. }
  case_decide as Es; apply name_at_eq; intros i Hi; unfold byte_at; f_equal.
  - subst. rewrite list_lookup_inserts by lia. unfold slice. rewrite lookup_take_lt, lookup_drop by lia. f_equal. lia.
  - destruct (decide (s < slot)%nat); [apply list_lookup_inserts_lt; lia|apply list_lookup_inserts_ge; lia].
Qed.

Lemma slot_used_lt lk s : slot_used lk s = true -> (s < length (ol_used lk))%nat.
Proof.
  unfold slot_used, byte_at. destruct (ol_used lk !! s) eqn:E; [|done]. intros _. by eapply lookup_lt_Some.
Qed.

Section Holds.
Context (lk : SelectedOidLookup) (m : gmap (list Z) Z) (H : holds lk m).

Let n := length (ol_used lk).

Lemma slots_positive : (0 < n)%nat.
Proof using H. destruct (ho_size _ _ H) as (p & Hp & E). pose proof (Z.pow_pos_nonneg 2 p). unfold n. lia. Qed.

Lemma land_mask z : Z.land z (ol_mask lk) = z mod Z.of_nat n.
Proof using H.
  destruct (ho_size _ _ H) as (p & Hp & E). rewrite (ho_mask _ _ H). unfold n. rewrite E, Z.sub_1_r, <- Z.ones_equiv.
  by apply Z.land_ones.
Qed.

Lemma first_probed raw start : first_slot lk raw start = probed lk (name_at raw start) 0.
Proof using H. unfold first_slot, probed, hashOidAt. rewrite land_mask. by rewrite Z.add_0_r. Qed.

Lemma next_probed key d : Z.to_nat (Z.land (Z.of_nat (probed lk key d) + 1) (ol_mask lk)) = probed lk key (S d).
Proof using H.
  pose proof slots_positive. rewrite land_mask. unfold probed. fold n. f_equal.
  rewrite Z2Nat.id by (apply Z.mod_pos_bound; lia). rewrite Zplus_mod_idemp_l. f_equal. lia.
Qed.

Lemma probed_lt key d : (probed lk key d < n)%nat.
Proof using H.
  pose proof slots_positive. unfold probed. fold n.
  pose proof (Z.mod_pos_bound (hash_name key + Z.of_nat d) (Z.of_nat n)). lia.
Qed.

(** A probe reaches every slot. *)
Lemma probed_all key s : (s < n)%nat -> exists d, (d < n)%nat /\ probed lk key d = s.
Proof using H.
  intros Hs. pose proof slots_positive. exists (Z.to_nat ((Z.of_nat s - hash_name key) mod Z.of_nat n)).
  pose proof (Z.mod_pos_bound (Z.of_nat s - hash_name key) (Z.of_nat n)). split; [lia|].
  unfold probed. fold n. rewrite Z2Nat.id by lia. rewrite Zplus_mod_idemp_r.
  replace (hash_name key + (Z.of_nat s - hash_name key)) with (Z.of_nat s) by lia.
  rewrite Z.mod_small by lia. lia.
Qed.

Lemma free_slot : exists s, (s < n)%nat /\ slot_used lk s = false.
Proof using H.
  destruct (decide (Forall (fun s => slot_used lk s = true) (seq 0 n))) as [Hall|Hno].
  - exfalso. rewrite Forall_forall in Hall.
    assert (NoDup (key_at lk <$> seq 0 n)) as Hd.
    { apply NoDup_fmap_2_strong; [|apply NoDup_seq]. intros x y Hx Hy. apply (ho_once _ _ H); by apply Hall. }
    assert (list_to_set (key_at lk <$> seq 0 n) ⊆ dom m) as Hsub.
    { intros k Hk%elem_of_list_to_set. apply list_elem_of_fmap in Hk as (s & -> & Hs).
      apply elem_of_dom. eexists. apply (ho_slot _ _ H), Hall, Hs. }
    apply subseteq_size in Hsub. rewrite size_list_to_set, length_fmap, length_seq, size_dom in Hsub by done.
    pose proof (ho_load _ _ H) as Hload. pose proof slots_positive. fold n in Hload. lia.
  - apply not_Forall_Exists in Hno; [|apply _]. apply Exists_exists in Hno as (s & Hs%elem_of_seq & E).
    exists s. split; [lia|]. by apply not_true_is_false.
Qed.

Lemma probe_from raw start fuel : forall d e, (d <= e)%nat -> (e <= d + fuel)%nat ->
  slot_used lk (probed lk (name_at raw start) e) = false ->
  (forall j, (j < d)%nat -> slot_used lk (probed lk (name_at raw start) j) = true /\
    key_at lk (probed lk (name_at raw start) j) <> name_at raw start) ->
  exists d' found, probe fuel lk raw start (probed lk (name_at raw start) d) =
      Some (probed lk (name_at raw start) d', found) /\ (d' <= e)%nat /\
    (forall j, (j < d')%nat -> slot_used lk (probed lk (name_at raw start) j) = true /\
      key_at lk (probed lk (name_at raw start) j) <> name_at raw start) /\
    slot_used lk (probed lk (name_at raw start) d') = found /\
    (found = true -> key_at lk (probed lk (name_at raw start) d') = name_at raw start).
Proof using H.
  set (key := name_at raw start). induction fuel as [|fuel IH]; intros d e Hde Hef Hfree Hbefore; cbn [probe].
  - assert (e = d) as -> by lia. rewrite Hfree. exists d, false. split_and!; done.
  - destruct (slot_used lk (probed lk key d)) eqn:Eu; [|exists d, false; split_and!; done].
    unfold slotKeyEquals. fold key. fold (key_at lk (probed lk key d)). case_bool_decide as Ek.
    + exists d, true. split_and!; done.
    + rewrite next_probed. apply (IH (S d) e); [|lia|done|].
      * enough (d <> e) by lia. congruence.
      * intros j Hj. destruct (decide (j = d)) as [->|]; [done|]. apply Hbefore. lia.
Qed.

(** Where a probe stops: at the id, or, when the map has no such id, at the first
    free slot. *)
Lemma probe_spec raw start :
  exists d found, probe n lk raw start (first_slot lk raw start) = Some (probed lk (name_at raw start) d, found) /\
    (d < n)%nat /\ (forall j, (j < d)%nat -> slot_used lk (probed lk (name_at raw start) j) = true) /\
    slot_used lk (probed lk (name_at raw start) d) = found /\
    if found then key_at lk (probed lk (name_at raw start) d) = name_at raw start
    else m !! name_at raw start = None.
Proof using H.
  set (key := name_at raw start). destruct free_slot as (s & Hs & Ef).
  destruct (probed_all key s Hs) as (e & He & <-).
  rewrite first_probed. destruct (probe_from raw start n 0 e) as (d & found & E & Hd & Hb & Hu & Hk);
    [lia|lia|done|lia|]. fold key in E, Hb, Hu, Hk.
  exists d, found. split_and!; [done|lia|by intros j Hj; apply Hb|done|]. destruct found; [by apply Hk|].
  destruct (m !! key) as [o|] eqn:Em; [|done]. destruct (ho_reach _ _ H _ _ Em) as (d0 & Hd0 & Hu0 & Hk0 & Hj0).
  destruct (decide (d0 < d)%nat) as [Hlt|]; [by destruct (Hb d0 Hlt)|].
  destruct (decide (d0 = d)) as [->|]; [congruence|]. rewrite Hj0 in Hu by lia. done.
Qed.

Lemma find_holds raw start : findSelectedOidOwner lk raw start = Some (default (-1) (m !! name_at raw start)).
Proof using H.
  unfold findSelectedOidOwner. destruct (probe_spec raw start) as (d & found & E & _ & _ & Hu & Hk).
  fold n. rewrite E. cbn [mbind option_bind]. destruct found.
  - pose proof (ho_slot _ _ H _ Hu) as Hs. rewrite Hk in Hs. by rewrite Hs.
  - by rewrite Hk.
Qed.
End Holds.

(** *** Storing *)

(** The table with [key] in the free slot [slot]. *)
Lemma stored_slot lk m raw start o slot s :
  holds lk m -> (start + 20 <= length raw)%nat -> (slot < length (ol_used lk))%nat ->
  let lk' := mkLookup (ol_count lk + 1) (ol_mask lk) (<[slot := 1]> (ol_used lk))
               (list_inserts (slot * 20) (slice raw start 20) (ol_keys lk)) (<[slot := o]> (ol_owners lk)) in
  slot_used lk' s = (if decide (s = slot) then true else slot_used lk s) /\
  key_at lk' s = (if decide (s = slot) then name_at raw start else key_at lk s) /\
  byte_at (ol_owners lk') s = (if decide (s = slot) then o else byte_at (ol_owners lk) s) /\
  forall key d, probed lk' key d = probed lk key d.
Proof.
  intros H Hr Hs. unfold slot_used, key_at, probed. cbn -[Z.mul].
  rewrite !byte_at_insert by (rewrite ?(ho_owners _ _ H); done). split_and!.
  - by case_decide.
  - apply name_at_stored; [done|]. rewrite (ho_keys _ _ H). lia.
  - done.
  - intros. by rewrite length_insert.
Qed.

Lemma same_probes lk lk' : ol_used lk' = ol_used lk -> ol_keys lk' = ol_keys lk ->
  (forall s, slot_used lk' s = slot_used lk s) /\ (forall s, key_at lk' s = key_at lk s) /\
  forall key d, probed lk' key d = probed lk key d.
Proof. intros Eu Ek. unfold slot_used, key_at, probed. by rewrite Eu, Ek. Qed.

Lemma replace_holds lk m raw start o d : holds lk m ->
  let key := name_at raw start in
  slot_used lk (probed lk key d) = true -> key_at lk (probed lk key d) = key ->
  holds (mkLookup (ol_count lk) (ol_mask lk) (ol_used lk) (ol_keys lk) (<[probed lk key d := o]> (ol_owners lk)))
    (<[key := o]> m).
Proof.
  intros H key Hu Hk. pose proof (ho_slot _ _ H _ Hu) as Hm. rewrite Hk in Hm.
  assert (size (<[key := o]> m) = size m) as Esz by (rewrite map_size_insert, Hm; done).
  set (lk' := mkLookup _ _ _ _ _). destruct (same_probes lk lk' eq_refl eq_refl) as (Su & Sk & Sp).
  assert (length (ol_used lk') = length (ol_used lk)) as En by done.
  split; [exact (ho_size _ _ H)|exact (ho_mask _ _ H)|exact (ho_keys _ _ H)| | | |..].
  - cbn. rewrite length_insert. exact (ho_owners _ _ H).
  - intros s. rewrite Su, Sk. intros Hs. cbn [ol_owners lk'].
    rewrite byte_at_insert by (rewrite (ho_owners _ _ H); by apply slot_used_lt).
    destruct (decide (key_at lk s = key)) as [Ek|Hne].
    + rewrite Ek, lookup_insert_eq, decide_True; [done|]. apply (ho_once _ _ H); congruence.
    + rewrite lookup_insert_ne by done. rewrite decide_False by congruence. by apply (ho_slot _ _ H).
  - intros k v Hkv. assert (is_Some (m !! k)) as [v' Hv].
    { destruct (decide (k = key)) as [->|Hne]; [by rewrite Hm|]. rewrite lookup_insert_ne in Hkv by done. by rewrite Hkv. }
    destruct (ho_reach _ _ H _ _ Hv) as (e & He & Hue & Hke & Hje). exists e. rewrite Sp, Su, Sk.
    split_and!; [by rewrite En|done|done|]. intros j. rewrite Sp, Su. apply Hje.
  - intros s s'. rewrite !Su, !Sk. apply (ho_once _ _ H).
  - rewrite Esz. exact (ho_count _ _ H).
  - rewrite Esz, En. exact (ho_load _ _ H).
Qed.

Lemma add_holds lk m raw start o d : holds lk m -> (start + 20 <= length raw)%nat -> has_room lk = true ->
  let key := name_at raw start in
  (d < length (ol_used lk))%nat -> (forall j, (j < d)%nat -> slot_used lk (probed lk key j) = true) ->
  slot_used lk (probed lk key d) = false -> m !! key = None ->
  holds (mkLookup (ol_count lk + 1) (ol_mask lk) (<[probed lk key d := 1]> (ol_used lk))
      (list_inserts (probed lk key d * 20) (slice raw start 20) (ol_keys lk)) (<[probed lk key d := o]> (ol_owners lk)))
    (<[key := o]> m).
Proof.
  intros H Hr Hroom key Hd Hb Hu Hm. pose proof (probed_lt lk m H key d) as Hlt.
  assert (size (<[key := o]> m) = S (size m)) as Esz by (rewrite map_size_insert, Hm; done).
  pose proof (fun s => stored_slot lk m raw start o (probed lk key d) s H Hr Hlt) as Hs. cbv zeta in Hs.
  set (lk' := mkLookup _ _ _ _ _) in *. fold key in Hs.
  assert (length (ol_used lk') = length (ol_used lk)) as En by apply length_insert.
  split; rewrite ?En;
    [exact (ho_size _ _ H)|exact (ho_mask _ _ H)|cbn; rewrite length_inserts; exact (ho_keys _ _ H)
    |cbn; rewrite length_insert; exact (ho_owners _ _ H)|..].
  - intros s. destruct (Hs s) as (-> & -> & -> & _). case_decide; [intros _; apply lookup_insert_eq|].
    intros Hsu. pose proof (ho_slot _ _ H _ Hsu) as E. rewrite lookup_insert_ne; [done|]. congruence.
  - intros k v Hkv. assert (exists e, (e < length (ol_used lk))%nat /\ (probed lk k e = probed lk key d /\ k = key \/
      slot_used lk (probed lk k e) = true /\ key_at lk (probed lk k e) = k /\ probed lk k e <> probed lk key d) /\
      forall j, (j < e)%nat -> slot_used lk (probed lk k j) = true) as (e & He & Hor & Hje).
    { destruct (decide (k = key)) as [->|Hne]; [exists d; auto|].
      rewrite lookup_insert_ne in Hkv by done. destruct (ho_reach _ _ H _ _ Hkv) as (e & He & Hue & Hke & Hje).
      exists e. split_and!; [done| |done]. right. split_and!; [done|done|]. congruence. }
    exists e. destruct (Hs (probed lk k e)) as (E1 & E2 & _ & E4). rewrite E4, E1, E2. split_and!; [done|..].
    + destruct Hor as [[-> ->]|(? & ? & ?)]; [by rewrite decide_True|by rewrite decide_False].
    + destruct Hor as [[-> ->]|(? & ? & ?)]; [by rewrite decide_True|by rewrite decide_False].
    + intros j Hj. rewrite E4. destruct (Hs (probed lk k j)) as (-> & _). specialize (Hje j Hj). by destruct (decide (probed lk k j = probed lk key d)).
  - intros s s'. destruct (Hs s) as (-> & -> & _), (Hs s') as (-> & -> & _).
    repeat case_decide; intros; subst; try done.
    + pose proof (ho_slot _ _ H s' ltac:(done)). congruence.
    + pose proof (ho_slot _ _ H s ltac:(done)). congruence.
    + by apply (ho_once _ _ H).
  - cbn [ol_count lk']. rewrite Esz, (ho_count _ _ H). lia.
  - rewrite Esz. unfold has_room in Hroom. apply Z.leb_le in Hroom. rewrite (ho_count _ _ H) in Hroom. lia.
Qed.

Lemma store_holds lk m raw start o : holds lk m -> (start + 20 <= length raw)%nat -> has_room lk = true ->
  exists lk', store_owner lk raw start o = Some lk' /\ holds lk' (<[name_at raw start := o]> m) /\
    length (ol_used lk') = length (ol_used lk).
Proof.
  intros H Hr Hroom. unfold store_owner.
  destruct (probe_spec lk m H raw start) as (d & found & E & Hd & Hb & Hu & Hk). rewrite E.
  cbn [mbind option_bind]. destruct found; eexists; (split; [reflexivity|split]).
  - by eapply replace_holds.
  - done.
  - by apply add_holds.
  - apply length_insert.
Qed.

(** *** Growing and creating *)

Lemma empty_holds p : 0 <= p -> holds (empty_lookup (2 ^ p)) ∅.
Proof.
  intros Hp. pose proof (Z.pow_pos_nonneg 2 p) as Hpos.
  assert (forall s, slot_used (empty_lookup (2 ^ p)) s = false) as Hu.
  { intros s. unfold slot_used, empty_lookup, byte_at. cbn [ol_used].
    destruct (replicate _ 0 !! s) as [v|] eqn:E; [|done]. apply lookup_replicate in E as [-> _]. done. }
  assert (Z.of_nat (length (ol_used (empty_lookup (2 ^ p)))) = 2 ^ p) as El by (cbn; rewrite length_replicate; lia).
  split; rewrite ?El.
  - by exists p.
  - done.
  - cbn. by rewrite !length_replicate.
  - cbn. by rewrite !length_replicate.
  - intros s Hs. by rewrite Hu in Hs.
  - intros k o Hk. by rewrite lookup_empty in Hk.
  - intros s s' Hs. by rewrite Hu in Hs.
  - done.
  - rewrite map_size_empty. lia.
Qed.

(** The calls within a growth do not grow. *)
Lemma set_owner_room depth lk m raw start o : holds lk m -> (start + 20 <= length raw)%nat -> has_room lk = true ->
  exists lk', set_owner depth lk raw start o = Some lk' /\ holds lk' (<[name_at raw start := o]> m) /\
    length (ol_used lk') = length (ol_used lk).
Proof.
  intros H Hr Hroom. destruct depth; cbn [set_owner]; rewrite Hroom; cbn [mbind option_bind]; by apply store_holds.
Qed.

(** What the slots from [from] on add to a map. *)
Fixpoint slots_map (lk : SelectedOidLookup) (slots : list nat) (m : gmap (list Z) Z) : gmap (list Z) Z :=
  match slots with
  | [] => m
  | s :: slots =>
    slots_map lk slots (if slot_used lk s then <[key_at lk s := byte_at (ol_owners lk) s]> m else m)
  end.

Lemma reinsert_holds lk m l : forall lk' m',
  holds lk m -> holds lk' m' -> m' ⊆ m -> (length (ol_used lk) * 2 = length (ol_used lk'))%nat ->
  (forall s, s ∈ l -> slot_used lk s = true -> m' !! key_at lk s = None) -> NoDup l ->
  exists lk'', reinsert (set_owner 0) lk l lk' = Some lk'' /\ holds lk'' (slots_map lk l m') /\
    slots_map lk l m' ⊆ m /\ (length (ol_used lk) * 2 = length (ol_used lk''))%nat.
Proof.
  induction l as [|s l IH]; intros lk' m' H H' Hsub Hlen Hnew Hd; cbn [reinsert slots_map]; [eauto|].
  inversion_clear Hd as [|? ? Hs Hd']. destruct (slot_used lk s) eqn:Eu.
  - pose proof (ho_slot _ _ H _ Eu) as Em. pose proof (slot_used_lt _ _ Eu) as Hlt.
    assert (m' !! key_at lk s = None) as En by (apply Hnew; [by constructor|done]).
    assert (<[key_at lk s := byte_at (ol_owners lk) s]> m' ⊆ m) as Hsub'.
    { apply insert_subseteq_l; [done|done]. }
    assert (has_room lk' = true) as Hroom.
    { apply Z.leb_le. pose proof (ho_load _ _ H). rewrite (ho_count _ _ H').
      pose proof (map_subseteq_size _ _ Hsub') as Hsz. rewrite map_size_insert, En in Hsz. cbn in Hsz. lia. }
    destruct (set_owner_room 0 lk' m' (ol_keys lk) (s * 20) (byte_at (ol_owners lk) s) H') as (lk1 & E1 & H1 & L1).
    { rewrite (ho_keys _ _ H). lia. } { done. }
    rewrite E1. cbn [mbind option_bind]. apply IH; [done|exact H1|done|lia| |done].
    intros s' Hs' Eu'. rewrite lookup_insert_ne; [apply Hnew; [by constructor|done]|].
    intros Ek. apply (ho_once _ _ H _ _ Eu Eu') in Ek. congruence.
  - apply IH; try done. intros s' Hs'. apply Hnew. by constructor.
Qed.

Lemma slots_map_keeps lk l : forall m k o, m !! k = Some o -> is_Some (slots_map lk l m !! k).
Proof.
  induction l as [|s l IH]; cbn; [eauto|]. intros m k o Hk. destruct (slot_used lk s); [|eauto].
  destruct (decide (k = key_at lk s)) as [->|Hne]; [eapply IH, lookup_insert_eq|].
  eapply IH. by rewrite lookup_insert_ne.
Qed.

Lemma slots_map_all lk l : forall m s, s ∈ l -> slot_used lk s = true -> is_Some (slots_map lk l m !! key_at lk s).
Proof.
  induction l as [|s' l IH]; intros m s Hs Eu; [by apply elem_of_nil in Hs|]. cbn.
  apply elem_of_cons in Hs as [->|Hs]; [|by apply IH]. rewrite Eu. eapply slots_map_keeps, lookup_insert_eq.
Qed.

Lemma rehash_holds lk m : holds lk m ->
  exists lk', rehashSelectedOidLookup (set_owner 0) lk (Z.of_nat (length (ol_used lk)) * 2) = Some lk' /\
    holds lk' m /\ (length (ol_used lk) * 2 = length (ol_used lk'))%nat.
Proof.
  intros H. unfold rehashSelectedOidLookup. destruct (ho_size _ _ H) as (p & Hp & Ep).
  assert (Z.of_nat (length (ol_used lk)) * 2 = 2 ^ (p + 1)) as E2 by (rewrite Z.pow_add_r by lia; lia).
  rewrite E2.
  destruct (reinsert_holds lk m (seq 0 (length (ol_used lk))) (empty_lookup (2 ^ (p + 1))) ∅ H)
    as (lk' & E & H' & Hsub & Hlen).
  - apply empty_holds. lia.
  - apply map_empty_subseteq.
  - cbn. rewrite length_replicate. lia.
  - intros. apply lookup_empty.
  - apply NoDup_seq.
  - exists lk'. split_and!; [done| |done].
    enough (slots_map lk (seq 0 (length (ol_used lk))) ∅ = m) as <- by done.
    apply map_eq. intros k. destruct (m !! k) as [o|] eqn:Ek.
    + destruct (ho_reach _ _ H _ _ Ek) as (d & _ & Hu & Hk & _).
      destruct (slots_map_all lk (seq 0 (length (ol_used lk))) ∅ _
        (proj2 (elem_of_seq _ _ _) (conj (Nat.le_0_l _) (slot_used_lt _ _ Hu))) Hu) as [o' Ho'].
      rewrite Hk in Ho'. rewrite Ho'. pose proof (lookup_weaken _ _ _ _ Ho' Hsub). congruence.
    + destruct (slots_map _ _ _ !! k) as [o'|] eqn:Ho'; [|done].
      pose proof (lookup_weaken _ _ _ _ Ho' Hsub). congruence.
Qed.

Lemma set_holds lk m raw start o : holds lk m -> (start + 20 <= length raw)%nat ->
  exists lk', setSelectedOidOwner lk raw start o = Some lk' /\ holds lk' (<[name_at raw start := o]> m).
Proof.
  intros H Hr. unfold setSelectedOidOwner.
  change (set_owner 1 lk raw start o) with
    (lookup ← (if has_room lk then Some lk
               else rehashSelectedOidLookup (set_owner 0) lk (Z.of_nat (length (ol_used lk)) * 2));
     store_owner lookup raw start o).
  destruct (has_room lk) eqn:Hroom.
  - cbn [mbind option_bind]. destruct (store_holds lk m raw start o H Hr Hroom) as (lk' & E & H' & _). eauto.
  - destruct (rehash_holds lk m H) as (lk1 & -> & H1 & Hl). cbn [mbind option_bind].
    destruct (store_holds lk1 m raw start o H1 Hr) as (lk' & E & H' & _); [|eauto].
    apply Z.leb_le. rewrite (ho_count _ _ H1). pose proof (ho_load _ _ H).
    pose proof (slots_positive lk m H). lia.
Qed.

Lemma next_power_spec fuel : forall k value, 0 <= k -> value <= 2 ^ (k + Z.of_nat fuel) -> k + Z.of_nat fuel <= 30 ->
  exists p, 0 <= p /\ next_power fuel (2 ^ k) value = Some (2 ^ p).
Proof.
  induction fuel as [|fuel IH]; intros k value Hk Hv Hb; cbn [next_power].
  - rewrite Z.add_0_r in Hv. rewrite (proj2 (Z.ltb_ge _ _)) by done. eauto.
  - destruct (2 ^ k <? value); [|eauto]. rewrite Z.shiftl_mul_pow2 by lia.
    replace (2 ^ k * 2 ^ 1) with (2 ^ (k + 1)) by (rewrite Z.pow_add_r; lia).
    rewrite toInt32_small.
    + apply IH; [lia| |lia]. etrans; [exact Hv|]. apply Z.pow_le_mono_r; lia.
    + pose proof (Z.pow_pos_nonneg 2 (k + 1)). pose proof (Z.pow_le_mono_r 2 (k + 1) 30). lia.
Qed.

Lemma next_power_more fuel : forall n out value r, next_power fuel out value = Some r ->
  next_power (fuel + n) out value = Some r.
Proof.
  induction fuel as [|fuel IH]; intros n out value r; cbn [next_power Nat.add].
  - destruct (out <? value) eqn:E; [done|]. destruct n; cbn [next_power]; rewrite E; done.
  - destruct (out <? value); [apply IH|done].
Qed.

(** ** Properties *)


