(* ===== verification/RefUpdate.v ===== *)
(** * Ref updates requested by a push

    [src/worker/git/operations/validation.ts]: which ref names are accepted,
    the exact-old comparison of every command against the current refs, and the
    application of the accepted commands.  [src/worker/git/acceptedWrite.ts]
    and [acceptedWritesMatchCommands] of [do/repo/acceptedWrites.ts]: the facts
    a push records. *)
From S2P Require Import Prelude Text Storage.
From Stdlib Require Import Ascii.

(** ** Definitions *)

Definition forbidden_ref_char (c : ascii) : bool :=
  (code c <=? 32) || existsb (fun d => bool_decide (c = d)) (chars "~^:?*[").

Definition isValidRefName (name : string) : bool :=
  if str_eq name "" || str_eq name "HEAD" then false else
  if negb (startsWith "refs/" name) then false else
  if existsb forbidden_ref_char (chars name) then false else
  if includes "//" name || startsWith "/" name || endsWith "/" name then false else
  if js_some (fun component => str_eq component "." || str_eq component "..")
       (split "/"%char name) then false else
  if endsWith "." name || endsWith ".lock" name then false else
  if includes "@{" name then false else
  if includes "\" name then false else
  true.

(** [new Map(currentRefs.map((ref) => [ref.name, ref.oid]))]. *)
Definition refMap (currentRefs : list Ref) : list (string * string) :=
  AMap.of_list ((fun r => (ref_name r, ref_oid r)) <$> currentRefs).

Definition reject (command : ReceiveCommand) (msg : string) : ReceiveStatus :=
  mkStatus (cmd_ref command) false (Some msg).

Definition accept (command : ReceiveCommand) : ReceiveStatus :=
  mkStatus (cmd_ref command) true None.

(** One turn of the loop of [validateReceiveCommands].  An entry with the empty
    string as object id is as absent as a missing one ([!current]). *)
Definition validate_command (refs : list (string * string)) (command : ReceiveCommand)
    : ReceiveStatus :=
  let current := AMap.lookup (cmd_ref command) refs in
  let isZeroOld := ZERO_OID_RE (oldOid command) in
  let isZeroNew := ZERO_OID_RE (newOid command) in
  if isZeroNew then
    if negb (truthy_string current) then reject command "no such ref" else
    if negb (str_eq (toLowerCase (default "" current)) (toLowerCase (oldOid command)))
    then reject command "stale old-oid" else
    accept command
  else if negb (truthy_string current) then
    if negb isZeroOld then reject command "expected zero old-oid" else
    accept command
  else if negb (str_eq (toLowerCase (default "" current)) (toLowerCase (oldOid command)))
  then reject command "stale old-oid"
  else accept command.

Definition validateReceiveCommands (currentRefs : list Ref) (commands : list ReceiveCommand)
    : list ReceiveStatus :=
  validate_command (refMap currentRefs) <$> commands.

Definition apply_command (m : list (string * string)) (command : ReceiveCommand)
    : list (string * string) :=
  if ZERO_OID_RE (newOid command) then AMap.remove (cmd_ref command) m
  else AMap.set (cmd_ref command) (newOid command) m.

Definition refs_of_map (m : list (string * string)) : list Ref :=
  (fun p => mkRef p.1 p.2) <$> m.

Definition applyReceiveCommands (currentRefs : list Ref) (commands : list ReceiveCommand)
    : list Ref :=
  refs_of_map (foldl apply_command (refMap currentRefs) commands).

(** The oid a list of refs assigns to a name ([refs.find(...)?.oid]). *)
Definition find_ref (name : string) (refs : list Ref) : option Ref :=
  js_find (fun r => str_eq (ref_name r) name) refs.

Definition oid_of (refs : list Ref) (name : string) : option string :=
  ref_oid <$> find_ref name refs.

(** *** Accepted-write facts *)

(** [factsByRef] of [acceptedWriteFactsForCommands]: the first base and the last
    outcome of every ref, in order of first mention. *)
Definition note_transition (m : list (string * (string * string))) (command : ReceiveCommand)
    : list (string * (string * string)) :=
  match AMap.lookup (cmd_ref command) m with
  | Some (before, _) => AMap.set (cmd_ref command) (before, newOid command) m
  | None => AMap.set (cmd_ref command) (oldOid command, newOid command) m
  end.

Definition transitions (commands : list ReceiveCommand) : list (string * (string * string)) :=
  foldl note_transition [] commands.

Definition acceptedWriteFactsForCommands (context : AcceptedWriteContext)
    (commands : list ReceiveCommand) : list AcceptedWriteFact :=
  js_filter (fun fact => negb (str_eq (beforeSha fact) (afterSha fact)))
    ((fun t => mkFact (ctx_repositoryId context) t.1 t.2.1 t.2.2 (ctx_actor context)
                 (ctx_sourceSurface context) (ctx_idempotencyKey context))
       <$> transitions commands).

(** The [facts.every] of [acceptedWritesMatchCommands] with its [seen] set. *)
Fixpoint facts_match (ts : list (string * (string * string))) (seen : list string)
    (facts : list AcceptedWriteFact) : bool :=
  match facts with
  | [] => true
  | fact :: r =>
    if js_some (str_eq (fact_ref fact)) seen then false
    else match AMap.lookup (fact_ref fact) ts with
         | Some (before, after) =>
           str_eq before (beforeSha fact) && str_eq after (afterSha fact) &&
           facts_match ts (fact_ref fact :: seen) r
         | None => false
         end
  end.

Definition acceptedWritesMatchCommands (commands : list ReceiveCommand)
    (facts : list AcceptedWriteFact) : bool :=
  let ts := transitions commands in
  let changed := js_filter (fun t => negb (str_eq t.2.1 t.2.2)) ts in
  if negb (Nat.eqb (length changed) (length facts)) then false
  else facts_match ts [] facts.

(** *** Specification vocabulary *)

(** A ref table names every ref once. *)
Definition refs_wf (refs : list Ref) : Prop := NoDup (ref_name <$> refs).

(** The last command a push names for a ref. *)
Definition last_command (commands : list ReceiveCommand) (name : string) : option ReceiveCommand :=
  js_find (fun c => str_eq (cmd_ref c) name) (rev commands).

(** The condition a command must meet on the current refs: an existing ref is
    named with its exact old id, a missing one with the zero id and a real
    target. *)
Definition exact_old (refs : list Ref) (command : ReceiveCommand) : Prop :=
  match oid_of refs (cmd_ref command) with
  | Some o =>
    if str_eq o "" then oldOid command = zeroOid /\ newOid command <> zeroOid
    else toLowerCase o = toLowerCase (oldOid command)
  | None => oldOid command = zeroOid /\ newOid command <> zeroOid
  end.

(** The first command a push names for a ref. *)
Definition first_command (commands : list ReceiveCommand) (name : string) : option ReceiveCommand :=
  js_find (fun c => str_eq (cmd_ref c) name) commands.

(** What the accepted names look like. *)
Record ref_name_spec (name : string) : Prop := {
  rn_refs : exists rest, name = ("refs/" ++ rest)%string;
  rn_components : forall component, component ∈ split "/"%char name ->
    component <> ""%string /\ component <> "."%string /\ component <> ".."%string;
  rn_chars : forall c, c ∈ chars name -> 32 < code c /\ c ∉ chars "~^:?*[\";
  rn_reflog : includes "@{" name = false;
  rn_lock : endsWith ".lock" name = false /\ endsWith "." name = false }.

(** ** Lemmas *)

Lemma oid_of_refs_of_map m name : oid_of (refs_of_map m) name = AMap.lookup name m.
Proof.
  unfold oid_of, find_ref. induction m as [|[k v] m IH]; simpl; [done|].
  by destruct (str_eq k name).
Qed.

Lemma lookup_refMap refs name : refs_wf refs -> AMap.lookup name (refMap refs) = oid_of refs name.
Proof.
  unfold refs_wf, refMap. intros Hwf. rewrite AMap.of_list_NoDup.
  - rewrite <- oid_of_refs_of_map. f_equal. unfold refs_of_map.
    rewrite <- list_fmap_compose. clear Hwf.
    induction refs as [|[n o] l IH]; simpl; [done | f_equal; apply IH].
  - unfold AMap.keys. by rewrite <- list_fmap_compose.
Qed.

Lemma refs_of_map_wf m : NoDup (AMap.keys m) -> refs_wf (refs_of_map m).
Proof. unfold refs_wf, refs_of_map. by rewrite <- list_fmap_compose. Qed.

Lemma refMap_refs_of_map m : NoDup (AMap.keys m) -> refMap (refs_of_map m) = m.
Proof.
  intros Hm. unfold refMap, refs_of_map. rewrite <- list_fmap_compose.
  assert ((((fun r => (ref_name r, ref_oid r)) ∘ (fun p => mkRef p.1 p.2)) <$> m) = m) as ->.
  { induction m as [|[k v] m IH]; simpl; [done|]. f_equal. apply IH.
    simpl in Hm. by apply NoDup_cons in Hm as [_ ?]. }
  by apply AMap.of_list_NoDup.
Qed.

Lemma NoDup_apply_commands commands m :
  NoDup (AMap.keys m) -> NoDup (AMap.keys (foldl apply_command m commands)).
Proof.
  revert m. induction commands as [|c l IH]; intros m Hm; simpl; [done|].
  apply IH. unfold apply_command. destruct (ZERO_OID_RE _); auto with golib.
Qed.

Lemma applied_refs_wf refs commands : refs_wf (applyReceiveCommands refs commands).
Proof. apply refs_of_map_wf, NoDup_apply_commands, AMap.NoDup_of_list. Qed.

Lemma lookup_apply_commands m commands name :
  AMap.lookup name (foldl apply_command m commands) =
  match last_command commands name with
  | Some c => if isZeroOid (newOid c) then None else Some (newOid c)
  | None => AMap.lookup name m
  end.
Proof.
  unfold last_command. induction commands as [|c l IH] using rev_ind; [done|].
  rewrite foldl_snoc, rev_unit. simpl. unfold apply_command at 1.
  rewrite ZERO_OID_RE_isZeroOid.
  destruct (isZeroOid (newOid c)) eqn:E; rewrite ?AMap.lookup_remove, ?AMap.lookup_set;
    destruct (str_eq (cmd_ref c) name) eqn:E2; rewrite ?E; done.
Qed.

Lemma apply_command_fixed m commands c :
  NoDup (cmd_ref <$> commands) -> c ∈ commands ->
  apply_command (foldl apply_command m commands) c = foldl apply_command m commands.
Proof.
  intros Hnd Hc.
  assert (last_command commands (cmd_ref c) = Some c) as Hlast.
  { unfold last_command.
    destruct (js_find _ (rev commands)) as [d|] eqn:E.
    - apply js_find_some in E as [Hd E]. to_prop. f_equal.
      rewrite list_elem_of_In, <- in_rev, <- list_elem_of_In in Hd.
      apply list_elem_of_lookup in Hc as [i Hi]. apply list_elem_of_lookup in Hd as [j Hj].
      assert (i = j) as <-; [|congruence].
      eapply (NoDup_lookup _ _ _ _ Hnd).
      + rewrite list_lookup_fmap, Hi. reflexivity.
      + rewrite list_lookup_fmap, Hj. simpl. by rewrite E.
    - eapply (js_find_none _ _ c) in E.
      + unfold str_eq in E. by rewrite bool_decide_true in E.
      + by rewrite list_elem_of_In, <- in_rev, <- list_elem_of_In. }
  pose proof (lookup_apply_commands m commands (cmd_ref c)) as Hl. rewrite Hlast in Hl.
  unfold apply_command. rewrite ZERO_OID_RE_isZeroOid. destruct (isZeroOid (newOid c)).
  - by apply AMap.remove_absent.
  - by apply AMap.set_lookup_id.
Qed.

Lemma foldl_fixed {A B} (f : A -> B -> A) (l : list B) x :
  (forall y, y ∈ l -> f x y = x) -> foldl f x l = x.
Proof.
  induction l as [|y l IH]; intros H; simpl; [done|].
  rewrite H by apply list_elem_of_here. apply IH. intros z Hz. apply H. by apply elem_of_cons; right.
Qed.

Lemma reapply_commands refs commands :
  NoDup (cmd_ref <$> commands) ->
  applyReceiveCommands (applyReceiveCommands refs commands) commands
  = applyReceiveCommands refs commands.
Proof.
  intros Hnd. unfold applyReceiveCommands. f_equal.
  rewrite refMap_refs_of_map by (apply NoDup_apply_commands, AMap.NoDup_of_list).
  apply foldl_fixed. intros c Hc. by apply apply_command_fixed.
Qed.

Lemma validate_command_ok refs command :
  refs_wf refs ->
  status_ok (validate_command (refMap refs) command) = true <-> exact_old refs command.
Proof.
  intros Hwf. unfold validate_command, exact_old. rewrite lookup_refMap by done.
  rewrite !ZERO_OID_RE_isZeroOid.
  pose proof (isZeroOid_true (oldOid command)) as Ho.
  pose proof (isZeroOid_true (newOid command)) as Hn.
  destruct (oid_of refs (cmd_ref command)) as [o|]; simpl; unfold str_eq in *.
  - case_bool_decide as E0; simpl;
      destruct (isZeroOid (newOid command)), (isZeroOid (oldOid command)); simpl;
      try case_bool_decide; simpl; intuition congruence.
  - destruct (isZeroOid (newOid command)), (isZeroOid (oldOid command)); simpl; intuition congruence.
Qed.

Lemma validate_all_ok refs commands :
  refs_wf refs ->
  js_every status_ok (validateReceiveCommands refs commands) = true <->
  forall c, c ∈ commands -> exact_old refs c.
Proof.
  intros Hwf. rewrite js_every_true. unfold validateReceiveCommands. split.
  - intros H c Hc. apply validate_command_ok; [done|]. apply H.
    apply list_elem_of_fmap. eauto.
  - intros H x (c & -> & Hc)%list_elem_of_fmap. by apply validate_command_ok; auto.
Qed.

(** *** Facts *)

Lemma transitions_NoDup commands : NoDup (AMap.keys (transitions commands)).
Proof.
  unfold transitions. assert (NoDup (AMap.keys (@nil (string * (string * string))))) as H
    by constructor.
  revert H. generalize (@nil (string * (string * string))).
  induction commands as [|c l IH]; intros m Hm; simpl; [done|].
  apply IH. unfold note_transition.
  destruct (AMap.lookup _ m) as [[b a]|]; auto with golib.
Qed.

Lemma lookup_transitions commands name :
  AMap.lookup name (transitions commands) =
  match first_command commands name, last_command commands name with
  | Some f, Some l => Some (oldOid f, newOid l)
  | _, _ => None
  end.
Proof.
  unfold transitions, first_command, last_command.
  induction commands as [|c l IH] using rev_ind; [done|].
  rewrite foldl_snoc, rev_unit, js_find_app. simpl.
  set (p := fun c : ReceiveCommand => str_eq (cmd_ref c) name) in *.
  change (str_eq (cmd_ref c) name) with (p c) in *.
  assert (js_find p (rev l) = None -> js_find p l = None) as Hrev.
  { intros H. destruct (js_find p l) as [d|] eqn:E3; [|done].
    apply js_find_some in E3 as [H1 H2]. eapply (js_find_none _ _ d) in H; [congruence|].
    by rewrite list_elem_of_In, <- in_rev, <- list_elem_of_In. }
  set (m := foldl note_transition [] l) in *.
  assert (AMap.lookup name (note_transition m c) =
          if p c then Some (match AMap.lookup name m with
                            | Some (b, _) => b | None => oldOid c end, newOid c)
          else AMap.lookup name m) as ->.
  { unfold note_transition, p. destruct (str_eq (cmd_ref c) name) eqn:E2.
    - to_prop. subst. destruct (AMap.lookup _ m) as [[b a]|]; rewrite AMap.lookup_set;
        unfold str_eq; by rewrite bool_decide_true.
    - destruct (AMap.lookup (cmd_ref c) m) as [[b a]|]; by rewrite AMap.lookup_set, E2. }
  rewrite IH. destruct (p c); destruct (js_find p l) as [f|]; [| done | |done].
  - destruct (js_find p (rev l)); [done|]. by specialize (Hrev eq_refl).
  - destruct (js_find p (rev l)); [done|]. by specialize (Hrev eq_refl).
Qed.

Definition fact_of (context : AcceptedWriteContext) (t : string * (string * string))
    : AcceptedWriteFact :=
  mkFact (ctx_repositoryId context) t.1 t.2.1 t.2.2 (ctx_actor context)
    (ctx_sourceSurface context) (ctx_idempotencyKey context).

Lemma facts_of_transitions context commands :
  acceptedWriteFactsForCommands context commands =
  fact_of context <$> js_filter (fun t => negb (str_eq t.2.1 t.2.2)) (transitions commands).
Proof. unfold acceptedWriteFactsForCommands. by rewrite js_filter_fmap. Qed.

Lemma fact_of_transition context commands fact :
  fact ∈ fact_of context <$> js_filter (fun t => negb (str_eq t.2.1 t.2.2)) (transitions commands) <->
  exists f l, first_command commands (fact_ref fact) = Some f /\
    last_command commands (fact_ref fact) = Some l /\ oldOid f <> newOid l /\
    fact = fact_of context (fact_ref fact, (oldOid f, newOid l)).
Proof.
  rewrite list_elem_of_fmap. split.
  - intros ([k [b a]] & -> & [Hin Hne]%elem_of_js_filter). simpl in *. to_prop.
    apply AMap.lookup_of_list_NoDup in Hin; [|apply transitions_NoDup].
    rewrite lookup_transitions in Hin.
    destruct (first_command _ _) as [f|], (last_command _ _) as [l|]; try done.
    injection Hin as <- <-. by exists f, l.
  - intros (f & l & Hf & Hl & Hne & Hfact). eexists. split; [exact Hfact|].
    apply elem_of_js_filter. split; [|simpl; unfold str_eq; by rewrite bool_decide_false].
    apply AMap.lookup_of_list_NoDup; [apply transitions_NoDup|].
    by rewrite lookup_transitions, Hf, Hl.
Qed.

Lemma facts_match_fact_of context ts l seen :
  (forall t, t ∈ l -> AMap.lookup t.1 ts = Some t.2) ->
  NoDup (AMap.keys l) -> (forall k, k ∈ seen -> k ∉ AMap.keys l) ->
  facts_match ts seen (fact_of context <$> l) = true.
Proof.
  revert seen. induction l as [|[k [b a]] l IH]; intros seen Hts Hnd Hseen; simpl; [done|].
  simpl in Hnd. apply NoDup_cons in Hnd as [Hk Hnd].
  assert (js_some (str_eq k) seen = false) as ->.
  { apply js_some_false. intros x Hx. unfold str_eq. apply bool_decide_eq_false.
    intros <-. apply (Hseen k Hx). by left. }
  pose proof (Hts (k, (b, a)) (list_elem_of_here _ _)) as Hk'. simpl in Hk'. rewrite Hk'.
  unfold str_eq. rewrite !bool_decide_true by done. simpl.
  apply IH; [intros t Ht; apply Hts; by apply elem_of_cons; right | done |].
  intros x [->|Hx]%elem_of_cons; [done|]. intros Hin. apply (Hseen x Hx). by right.
Qed.

Lemma NoDup_keys_filter {A} (p : string * A -> bool) (m : list (string * A)) :
  NoDup (AMap.keys m) -> NoDup (AMap.keys (js_filter p m)).
Proof. apply NoDup_fmap_js_filter. Qed.

Lemma own_facts_match context commands :
  acceptedWritesMatchCommands commands (acceptedWriteFactsForCommands context commands) = true.
Proof.
  unfold acceptedWritesMatchCommands. rewrite facts_of_transitions, length_fmap, Nat.eqb_refl.
  simpl. apply facts_match_fact_of.
  - intros [k v] [Hin _]%elem_of_js_filter. simpl.
    apply AMap.lookup_of_list_NoDup; [apply transitions_NoDup | done].
  - apply NoDup_keys_filter, transitions_NoDup.
  - intros x Hx. by apply elem_of_nil in Hx.
Qed.

(** What a match means fact by fact. *)
Lemma facts_match_sound ts seen facts fact :
  facts_match ts seen facts = true -> fact ∈ facts ->
  AMap.lookup (fact_ref fact) ts = Some (beforeSha fact, afterSha fact).
Proof.
  revert seen. induction facts as [|f l IH]; intros seen H Hin; [by apply elem_of_nil in Hin|].
  simpl in H. destruct (js_some _ _); [done|].
  destruct (AMap.lookup (fact_ref f) ts) as [[b a]|] eqn:E; [|done]. to_prop.
  apply elem_of_cons in Hin as [->|Hin]; [congruence | eauto].
Qed.

(** *** Ref names *)

Lemma isValidRefName_components name component :
  isValidRefName name = true -> component ∈ split "/"%char name ->
  component <> ""%string /\ component <> "."%string /\ component <> ".."%string.
Proof.
  unfold isValidRefName. intros H Hin.
  repeat match type of H with (if ?b then _ else _) = true => destruct b eqn:?; [done|] end.
  to_prop.
  match goal with H : js_some _ _ = false |- _ =>
    rewrite js_some_false in H; specialize (H _ Hin) end.
  to_prop. split_and!; [|done|done].
  eapply split_nonempty; eauto.
Qed.


Lemma prefix_app p s : String.prefix p s = true -> exists rest, s = (p ++ rest)%string.
Proof.
  revert s. induction p as [|a p IH]; intros s H; [by exists s|].
  destruct s as [|b s]; [done|]. simpl in H. destruct (ascii_dec a b) as [->|]; [|done].
  destruct (IH s H) as [rest ->]. by exists rest.
Qed.

Lemma valid_ref_name_spec name : isValidRefName name = true -> ref_name_spec name.
Proof.
  intros H. pose proof (fun c => isValidRefName_components name c H) as Hcomp.
  unfold isValidRefName in H.
  repeat match type of H with (if ?b then _ else _) = true => destruct b eqn:?; [done|] end.
  to_prop. split; [by apply prefix_app | exact Hcomp | | done | done].
  intros c Hc.
  match goal with H : existsb forbidden_ref_char _ = false |- _ =>
    pose proof (proj1 (js_some_false _ _) H c Hc) as Hf end.
  unfold forbidden_ref_char in Hf. to_prop. split; [lia|].
  change (chars "~^:?*[\") with (chars "~^:?*[" ++ ["\"%char]).
  apply not_elem_of_app. split.
  - intros Hin.
    match goal with H : existsb _ (chars "~^:?*[") = false |- _ =>
      pose proof (proj1 (js_some_false _ _) H c Hin) as Hg end. by to_prop.
  - intros ->%list_elem_of_singleton. by eapply (includes_char "\"%char name).
Qed.

(** *** Repeated refs *)

(** Two commands of one push that name the same ref make the second
    application differ from the first, in the order of the table. *)
Definition repeated_ref_push : list ReceiveCommand :=
  [mkCommand "1111111111111111111111111111111111111111" zeroOid "refs/heads/x";
   mkCommand "1111111111111111111111111111111111111111"
     "2222222222222222222222222222222222222222" "refs/heads/x";
   mkCommand zeroOid "3333333333333333333333333333333333333333" "refs/heads/y"].

Definition repeated_ref_table : list Ref :=
  [mkRef "refs/heads/x" "1111111111111111111111111111111111111111"].

(** ** Properties *)

(** C4: a push is accepted exactly when every command names the current value
    of its ref: an existing ref by its exact old id (up to letter case), a
    missing one by the zero id together with a real target. *)
Theorem push_accepted_iff_exact_old (refs : list Ref) (commands : list ReceiveCommand) :
  refs_wf refs ->
  js_every status_ok (validateReceiveCommands refs commands) = true <->
  forall c, c ∈ commands -> exact_old refs c.
Proof. apply validate_all_ok. Qed.

Lemma push_accepted_iff_exact_old_witness :
  js_every status_ok (validateReceiveCommands repeated_ref_table repeated_ref_push) = true <->
  forall c, c ∈ repeated_ref_push -> exact_old repeated_ref_table c.
Proof.
  apply (push_accepted_iff_exact_old repeated_ref_table repeated_ref_push).
  unfold refs_wf. apply NoDup_singleton.
Defined.

(** After a push every ref it names has the target of the last command that
    names it, a deleted ref is gone, every other ref is untouched, and the new
    table names every ref once. *)
Theorem applied_push_targets (refs : list Ref) (commands : list ReceiveCommand) (name : string) :
  refs_wf refs ->
  refs_wf (applyReceiveCommands refs commands) /\
  oid_of (applyReceiveCommands refs commands) name =
  match last_command commands name with
  | Some c => if isZeroOid (newOid c) then None else Some (newOid c)
  | None => oid_of refs name
  end.
Proof.
  intros Hwf. split; [apply applied_refs_wf|].
  unfold applyReceiveCommands. rewrite oid_of_refs_of_map, lookup_apply_commands.
  destruct (last_command commands name); [done|]. by apply lookup_refMap.
Qed.

Lemma applied_push_targets_witness :
  refs_wf (applyReceiveCommands repeated_ref_table repeated_ref_push) /\
  oid_of (applyReceiveCommands repeated_ref_table repeated_ref_push) "refs/heads/x" =
  Some "2222222222222222222222222222222222222222"%string.
Proof.
  apply (applied_push_targets repeated_ref_table repeated_ref_push "refs/heads/x").
  unfold refs_wf. apply NoDup_singleton.
Defined.

(** A push that names each ref once is idempotent: applying it to a table
    that already holds its effect changes nothing, the order of the table
    included, so a recovered finalization can repeat it. *)
Theorem reapplied_push_is_noop (refs : list Ref) (commands : list ReceiveCommand) :
  NoDup (cmd_ref <$> commands) ->
  applyReceiveCommands (applyReceiveCommands refs commands) commands
  = applyReceiveCommands refs commands.
Proof. apply reapply_commands. Qed.

Lemma reapplied_push_is_noop_witness :
  let commands := [mkCommand zeroOid "3333333333333333333333333333333333333333" "refs/heads/y"] in
  applyReceiveCommands (applyReceiveCommands repeated_ref_table commands) commands
  = applyReceiveCommands repeated_ref_table commands.
Proof. intros commands. apply (reapplied_push_is_noop repeated_ref_table commands).
  apply NoDup_singleton. Defined.

(** Validation does not reject a push that repeats a ref, and such a push is
    not idempotent: repeated on the table that already holds its effect it
    yields the refs in another order. *)
Theorem repeated_ref_push_not_idempotent :
  js_every status_ok (validateReceiveCommands repeated_ref_table repeated_ref_push) = true /\
  applyReceiveCommands (applyReceiveCommands repeated_ref_table repeated_ref_push)
    repeated_ref_push
  <> applyReceiveCommands repeated_ref_table repeated_ref_push.
Proof. split; [vm_compute; done | vm_compute; discriminate]. Qed.

(** The facts a push records have at most one entry per ref, relate the old
    id of the first command naming the ref to the new id of the last one, omit
    the refs the push leaves unchanged, and are the facts that
    [acceptedWritesMatchCommands] recognises for the same commands. *)
Theorem accepted_write_facts_correct (context : AcceptedWriteContext)
    (commands : list ReceiveCommand) (fact : AcceptedWriteFact) :
  acceptedWritesMatchCommands commands (acceptedWriteFactsForCommands context commands) = true /\
  NoDup (fact_ref <$> acceptedWriteFactsForCommands context commands) /\
  (fact ∈ acceptedWriteFactsForCommands context commands <->
   exists f l, first_command commands (fact_ref fact) = Some f /\
     last_command commands (fact_ref fact) = Some l /\ oldOid f <> newOid l /\
     fact = fact_of context (fact_ref fact, (oldOid f, newOid l))).
Proof.
  split; [apply own_facts_match|]. rewrite facts_of_transitions. split.
  - rewrite <- list_fmap_compose. apply NoDup_keys_filter, transitions_NoDup.
  - apply fact_of_transition.
Qed.

(** An accepted ref name starts with [refs/], has no empty, [.] or [..]
    component, no control character, blank or revision-syntax character, no
    [@{] and does not end in a dot or in [.lock]. *)
Theorem valid_ref_name_sound (name : string) :
  isValidRefName name = true -> ref_name_spec name.
Proof. apply valid_ref_name_spec. Qed.

Lemma valid_ref_name_sound_witness : ref_name_spec "refs/heads/main".
Proof. apply (valid_ref_name_sound "refs/heads/main"). vm_compute. reflexivity. Defined.
