(* ===== verification/Connectivity.v ===== *)
(** * The connectivity check of a push

    [git/pack/indexer/connectivity.ts]: before a push is published the worker checks
    that every ref it moves will point to an object the repository has, and a commit
    to one with its tree and parents.  The new pack is searched first: the check runs
    with a memo of its own, in which the catalog starts with the new pack and its
    index is already there.  The subrequest budget and logging are left out. *)
From S2P Require Import Prelude Storage Text Keys Bytes PackEntry PackIndex ByteCache GitObjects ObjectStore ObjectReads RefUpdate.

(** ** Definitions *)

Definition MAX_TAG_DEPTH : nat := 8.

Inductive FinalKind :=
  | KindCommit (oid tree : string) (parents : list string)
  | KindTree (oid : string)
  | KindBlob (oid : string)
  | KindTag (oid targetOid : string) (targetType : GitObjectType)
  | KindUnknown (oid : string).

(** What [readKind] makes of the answer of the object store. *)
Definition kind_of_object (lc : string) (obj : option PackedObjectResult) : FinalKind :=
  match obj with
  | None => KindUnknown lc
  | Some obj =>
    match po_type obj with
    | ObjCommit => let '(tree, parents) := parseCommitRefs (po_payload obj) in KindCommit lc tree parents
    | ObjTree => KindTree lc
    | ObjBlob => KindBlob lc
    | ObjTag =>
      match parseTagTarget (po_payload obj) with
      | Some (targetOid, targetType) => KindTag lc targetOid targetType
      | None => KindUnknown lc
      end
    end
  end.

(** The reader of the check and the caches of one run. *)
Record Checker := mkChecker { ck_reader : Reader; hasCache : gmap string bool; kindCache : gmap string FinalKind }.

Definition Checking (A : Type) : Type := Checker -> (ReadError + A) * Checker.

Record ConnectivityCheckOptions := mkOptions {
  opt_newPackKey : string;
  opt_newIdxView : IdxView;
  opt_newPackSize : Z;
  opt_activeCatalog : list PackCatalogRow;
  opt_commands : list ReceiveCommand;
  opt_statuses : list ReceiveStatus }.

(** The row of the new pack; its time is [Date.now()]. *)
Definition newRow (opts : ConnectivityCheckOptions) (createdAt : Z) : PackCatalogRow :=
  mkRow (opt_newPackKey opts) KindReceive PackActive 0 0 0 (iv_count (opt_newIdxView opts)) (opt_newPackSize opts) 0 createdAt None.

Definition createScopedConnectivityCacheContext (parentMemo : RequestMemo) (repoId : string) (packCatalog : list PackCatalogRow)
    (newPackKey : string) (newIdxView : IdxView) : RequestMemo :=
  let sameRepo := match memo_repoId parentMemo with Some id => str_eq id "" || str_eq id repoId | None => true end in
  mkMemo (Some repoId) (Some packCatalog)
    (<[newPackKey := newIdxView]> (if sameRepo then memo_idxViews parentMemo else ∅)) ∅ ∅ (memo_flags parentMemo).

Section Check.
Context (bucket : string -> option (list Z)) (inflate : list Z -> option (list Z)).
Context (getActivePackCatalog : nat -> option (list PackCatalogRow)) (repoId : string) (fuel : nat).

Definition hasObject (oid : string) : Checking bool := fun s =>
  let lc := toLowerCase oid in
  match hasCache s !! lc with
  | Some cached => (inr cached, s)
  | None =>
    match findObject bucket getActivePackCatalog repoId lc (ck_reader s) with
    | (inl e, r) => (inl e, mkChecker r (hasCache s) (kindCache s))
    | (inr location, r) =>
      let found := bool_decide (is_Some location) in
      (inr found, mkChecker r (<[lc := found]> (hasCache s)) (kindCache s))
    end
  end.

Definition readKind (oid : string) : Checking FinalKind := fun s =>
  let lc := toLowerCase oid in
  match kindCache s !! lc with
  | Some cached => (inr cached, s)
  | None =>
    match readObject bucket inflate getActivePackCatalog repoId fuel lc (ck_reader s) with
    | (inl e, r) => (inl e, mkChecker r (hasCache s) (kindCache s))
    | (inr obj, r) =>
      let k := kind_of_object lc obj in
      (inr k, mkChecker r (hasCache s) (<[lc := k]> (kindCache s)))
    end
  end.

(** The loop that follows a chain of tags; [hops] counts down the reads left. *)
Fixpoint unwrapTag (hops : nat) (currentOid targetOid : string) : Checking FinalKind := fun s =>
  match hops with
  | O => (inr (KindUnknown currentOid), s)
  | S hops =>
    match readKind targetOid s with
    | (inl e, s) => (inl e, s)
    | (inr (KindTag oid target _), s) => unwrapTag hops oid target s
    | (inr next, s) => (inr next, s)
    end
  end.

(** The loop over the parents stops at the first that is missing. *)
Fixpoint has_all (oids : list string) : Checking bool := fun s =>
  match oids with
  | [] => (inr true, s)
  | p :: rest =>
    match hasObject p s with
    | (inl e, s) => (inl e, s)
    | (inr false, s) => (inr false, s)
    | (inr true, s) => has_all rest s
    end
  end.

(** What the [switch] accepts. *)
Definition kind_connected (kind : FinalKind) : Checking bool := fun s =>
  match kind with
  | KindCommit _ tree parents =>
    if str_eq tree "" then (inr false, s) else
    match hasObject tree s with
    | (inl e, s) => (inl e, s)
    | (inr false, s) => (inr false, s)
    | (inr true, s) => has_all parents s
    end
  | KindTree _ | KindBlob _ => (inr true, s)
  | KindTag _ _ _ => (inr true, s)
  | KindUnknown _ => (inr false, s)
  end.

Definition check_target (newOid : string) : Checking bool := fun s =>
  match readKind (toLowerCase newOid) s with
  | (inl e, s) => (inl e, s)
  | (inr (KindTag oid target _), s) =>
    match unwrapTag MAX_TAG_DEPTH oid target s with
    | (inl e, s) => (inl e, s)
    | (inr kind, s) => kind_connected kind s
    end
  | (inr kind, s) => kind_connected kind s
  end.

(** One turn of the loop.  An exception is caught and counts as missing; [None] is a
    read that waits for itself, which ends nothing. *)
Definition check_command (cmd : ReceiveCommand) (st : ReceiveStatus) (s : Checker) : option ReceiveStatus * Checker :=
  if negb (status_ok st) then (Some st, s)
  else if ZERO_OID_RE (newOid cmd) then (Some st, s)
  else match check_target (newOid cmd) s with
  | (inr true, s) => (Some st, s)
  | (inr false, s) => (Some (reject cmd "missing-objects"), s)
  | (inl (AwaitsItself | StillReading), s) => (None, s)
  | (inl _, s) => (Some (reject cmd "missing-objects"), s)
  end.

(** A status that is not there is skipped. *)
Fixpoint check_commands (commands : list ReceiveCommand) (statuses : list ReceiveStatus) (s : Checker)
    : option (list ReceiveStatus) * Checker :=
  match commands, statuses with
  | cmd :: commands, st :: statuses =>
    match check_command cmd st s with
    | (None, s) => (None, s)
    | (Some st, s) =>
      match check_commands commands statuses s with
      | (None, s) => (None, s)
      | (Some rest, s) => (Some (st :: rest), s)
      end
    end
  | _, _ => (Some statuses, s)
  end.

(** The whole check: the statuses after it, and the reader of the caller, whose memo
    it does not touch. *)
Definition runPackConnectivityCheck (opts : ConnectivityCheckOptions) (createdAt : Z) (s : Reader)
    : option (list ReceiveStatus) * Reader :=
  let catalog := newRow opts createdAt :: opt_activeCatalog opts in
  let memo := createScopedConnectivityCacheContext (rd_memo s) repoId catalog (opt_newPackKey opts) (opt_newIdxView opts) in
  let '(statuses, c) := check_commands (opt_commands opts) (opt_statuses opts)
    (mkChecker (mkReader memo (rd_cache s) (rd_calls s)) ∅ ∅) in
  (statuses, mkReader (rd_memo s) (rd_cache (ck_reader c)) (rd_calls (ck_reader c))).
End Check.

(** ** What the check is for *)

Section Connected.
Context (bucket : string -> option (list Z)) (inflate : list Z -> option (list Z)) (packs : list PackCatalogRow).

Definition listed (oid : string) : Prop := exists c, locate bucket packs oid = inr (Some c).

Definition is_object (oid : string) (t : GitObjectType) (payload : list Z) : Prop :=
  exists o, denoted bucket inflate packs oid (inr (Some o)) /\ po_type o = t /\ po_payload o = payload.

(** A target of a ref: an object, through at most [n] tags, and with a commit its
    tree and parents. *)
Inductive connected : nat -> string -> Prop :=
  | connected_tree n oid payload : is_object oid ObjTree payload -> connected n oid
  | connected_blob n oid payload : is_object oid ObjBlob payload -> connected n oid
  | connected_commit n oid payload tree parents :
      is_object oid ObjCommit payload -> parseCommitRefs payload = (tree, parents) -> tree <> ""%string -> listed tree ->
      Forall listed parents -> connected n oid
  | connected_tag n oid payload target t :
      is_object oid ObjTag payload -> parseTagTarget payload = Some (target, t) -> connected n target -> connected (S n) oid.
End Connected.

(** ** Lemmas *)

Section Exact.
Context (bucket : string -> option (list Z)) (inflate : list Z -> option (list Z)).
Context (getActivePackCatalog : nat -> option (list PackCatalogRow)) (repoId : string) (fuel : nat).
Context (packs : list PackCatalogRow) (Hkeys : NoDup (packKey <$> packs)) (Hfuel : (total_objects (sources bucket packs) < fuel)%nat).

Abbreviation holds := (reader_ok bucket inflate getActivePackCatalog repoId packs).
Abbreviation says := (denoted bucket inflate packs).

(** The caches of the run repeat what the packs say. *)
Record checker_ok (s : Checker) : Prop := {
  ck_holds : holds (ck_reader s);
  ck_idle : memo_inflight (rd_memo (ck_reader s)) = ∅;
  ck_has : forall oid b, hasCache s !! toLowerCase oid = Some b -> b = true <-> listed bucket packs oid;
  ck_kind : forall oid k, kindCache s !! toLowerCase oid = Some k ->
    exists x, says oid (inr x) /\ k = kind_of_object (toLowerCase oid) x }.

(** A read that can wait for itself. *)
Definition endless : Prop := exists oid, forall r, ~ says oid r.

(** How a computation of a boolean decides [P]: an exception is no. *)
Definition decides (P : Prop) (r : ReadError + bool) (s : Checker) : Prop :=
  match r with
  | inl AwaitsItself => endless
  | inl StillReading => False
  | inr true => checker_ok s /\ P
  | _ => checker_ok s /\ ~ P
  end.

Lemma decides_iff P Q r s : P <-> Q -> decides P r s -> decides Q r s.
Proof. intros H. unfold decides. destruct r as [[]|[]]; tauto. Qed.

Lemma decides_raises P s e : checker_ok s -> e <> AwaitsItself -> e <> StillReading -> ~ P -> decides P (inl e) s.
Proof. intros. by destruct e. Qed.

Lemma locate_lower oid : locate bucket packs (toLowerCase oid) = locate bucket packs oid.
Proof. unfold locate. by rewrite toLowerCase_twice. Qed.

Lemma says_lower oid r : says (toLowerCase oid) r <-> says oid r.
Proof. unfold denoted. by rewrite locate_lower. Qed.

Lemma with_reader_ok r s : holds r -> memo_inflight (rd_memo r) = ∅ -> checker_ok s ->
  checker_ok (mkChecker r (hasCache s) (kindCache s)).
Proof. intros H1 H2 Hok. split; cbn; by try apply Hok. Qed.

(** Extending a cache whose keys are ids in lower case. *)
Lemma lookup_lower_insert {A} (m : gmap string A) oid oid' (a b : A) (P : string -> A -> Prop) :
  (forall x, m !! toLowerCase oid' = Some x -> P (toLowerCase oid') x) -> P (toLowerCase oid) a ->
  <[toLowerCase oid := a]> m !! toLowerCase oid' = Some b -> P (toLowerCase oid') b.
Proof.
  intros Hm Ha. destruct (decide (toLowerCase oid' = toLowerCase oid)) as [E|Hne].
  - rewrite E, lookup_insert_eq. by intros [= <-].
  - rewrite lookup_insert_ne by congruence. apply Hm.
Qed.

Lemma hasObject_spec oid s r s' : checker_ok s -> hasObject bucket getActivePackCatalog repoId oid s = (r, s') ->
  decides (listed bucket packs oid) r s'.
Proof.
  intros Hok. unfold hasObject. destruct (hasCache s !! toLowerCase oid) as [b|] eqn:Ec.
  { intros [= <- <-]. apply (ck_has _ Hok) in Ec. destruct b; (split; [done|]); [by apply Ec|]. by intros ?%Ec. }
  destruct (findObject _ _ _ _ _) as [loc rd] eqn:Ef.
  destruct (find_ok _ _ _ _ _ _ _ _ _ (ck_holds _ Hok) Ef) as (-> & Hrd & Eo & _).
  assert (memo_inflight (rd_memo rd) = ∅) as Hi by (injection Eo as _ -> _; apply (ck_idle _ Hok)).
  change (first_pack bucket (toLowerCase oid) 0 packs) with (locate bucket packs oid).
  destruct (locate bucket packs oid) as [e|x] eqn:El; intros [= <- <-].
  - apply locate_error in El as He. subst e. split; [by apply with_reader_ok|]. intros [c Hc]. congruence.
  - assert (bool_decide (is_Some x) = true <-> listed bucket packs oid) as Hx.
    { rewrite bool_decide_eq_true. unfold listed. rewrite El. split; [intros [c ->]; by exists c | intros [c [= ->]]; by eexists]. }
    assert (checker_ok (mkChecker rd (<[toLowerCase oid:=bool_decide (is_Some x)]> (hasCache s)) (kindCache s))) as Hok'.
    { split; cbn; try done; try apply Hok. intros oid' b Hb.
      assert (b = true <-> exists c, first_pack bucket (toLowerCase oid') 0 packs = inr (Some c)) as Hgoal; [|exact Hgoal].
      revert Hb. apply (lookup_lower_insert (hasCache s) oid oid' _ b (fun o b => b = true <-> exists c, first_pack bucket o 0 packs = inr (Some c)));
        [apply (ck_has _ Hok) | exact Hx]. }
    destruct (bool_decide (is_Some x)); (split; [done|]); [by apply Hx|]. by intros ?%Hx.
Qed.

Lemma readKind_spec oid s r s' : checker_ok s -> readKind bucket inflate getActivePackCatalog repoId fuel oid s = (r, s') ->
  match r with
  | inl AwaitsItself => endless
  | inl StillReading => False
  | inl _ => checker_ok s' /\ forall x, ~ says oid (inr x)
  | inr k => checker_ok s' /\ exists x, says oid (inr x) /\ k = kind_of_object (toLowerCase oid) x
  end.
Proof.
  intros Hok. unfold readKind. destruct (kindCache s !! toLowerCase oid) as [k|] eqn:Ec.
  { intros [= <- <-]. split; [done | by apply (ck_kind _ Hok)]. }
  destruct (readObject _ _ _ _ _ _ _) as [res rd] eqn:Er.
  destruct (read_outcome _ _ _ _ _ Hkeys _ _ _ _ _ (ck_holds _ Hok) (ck_idle _ Hok) Hfuel Er) as (H1 & H2 & H3 & H4).
  destruct res as [e|x]; intros [= <- <-].
  - assert (forall x, ~ says oid (inr x)) as Hno by (intros x Hx%says_lower%H3; done).
    assert (e = AwaitsItself \/ e <> AwaitsItself) as [->|Hne] by (destruct e; first [by left | by right]).
    { exists oid. intros r Hr. pose proof Hr as Hr'%says_lower%H3. subst r. by apply denoted_error in Hr as [? _]. }
    assert (checker_ok (mkChecker rd (hasCache s) (kindCache s))) as Hok'
      by (apply with_reader_ok; [by apply H2; congruence | by apply H2; congruence | done]).
    destruct e; first [done | by split].
  - specialize (H4 ltac:(done) ltac:(done)). rewrite says_lower in H4. destruct (H2 ltac:(done)) as [Hrd Hi].
    split; [|by exists x]. split; cbn; try done; try apply Hok. intros oid' k Hk.
    assert (exists x, says (toLowerCase oid') (inr x) /\ k = kind_of_object (toLowerCase oid') x) as (y & Hy & Ek); [|rewrite says_lower in Hy; by exists y].
    revert Hk. apply (lookup_lower_insert (kindCache s) oid oid' _ k (fun o k => exists x, says o (inr x) /\ k = kind_of_object o x)).
    + intros k' (y & Hy & Ek)%(ck_kind _ Hok). exists y. by rewrite says_lower.
    + exists x. by rewrite says_lower.
Qed.

Lemma has_all_spec l : forall s r s', checker_ok s -> has_all bucket getActivePackCatalog repoId l s = (r, s') ->
  decides (Forall (listed bucket packs) l) r s'.
Proof.
  induction l as [|p l IH]; intros s r s' Hok; cbn [has_all]; [intros [= <- <-]; by split|].
  destruct (hasObject _ _ _ _ _) as [b s1] eqn:Eh. apply hasObject_spec in Eh; [|done].
  destruct b as [e|[|]].
  - intros [= <- <-]. destruct e; cbn in *; try done; (destruct Eh as [H1 H2]; split; [done|]; by intros [? _]%Forall_cons_1).
  - destruct Eh as [Hok1 Hp]. intros Hr%IH; [|done]. eapply decides_iff; [|exact Hr]. split; [by constructor | by intros [_ ?]%Forall_cons_1].
  - intros [= <- <-]. destruct Eh as [H1 H2]. split; [done|]. by intros [? _]%Forall_cons_1.
Qed.

(** An object of an id is unique. *)
Lemma is_object_kind oid x t payload : says oid (inr x) -> is_object bucket inflate packs oid t payload ->
  exists o, x = Some o /\ po_type o = t /\ po_payload o = payload.
Proof. intros Hx (o & Ho & E1 & E2). exists o. pose proof (denoted_unique _ _ _ _ _ _ Hx Ho) as [= ->]. done. Qed.

Lemma connected_inv n oid : connected bucket inflate packs n oid -> exists t payload,
  is_object bucket inflate packs oid t payload /\
  match t with
  | ObjTree | ObjBlob => True
  | ObjCommit => let '(tree, parents) := parseCommitRefs payload in
      (tree <> ""%string /\ listed bucket packs tree) /\ Forall (listed bucket packs) parents
  | ObjTag => exists m target ty, n = S m /\ parseTagTarget payload = Some (target, ty) /\ connected bucket inflate packs m target
  end.
Proof.
  intros H. destruct H as [n oid p H|n oid p H|n oid p tree parents H Ep H1 H2 H3|n oid p target ty H Ep H1].
  - by exists ObjTree, p.
  - by exists ObjBlob, p.
  - exists ObjCommit, p. rewrite Ep. tauto.
  - exists ObjTag, p. split; [done|]. by exists n, target, ty.
Qed.

(** The accepted kinds, apart from tags. *)
Lemma kind_connected_spec n oid x s r s' : checker_ok s -> says oid (inr x) ->
  (forall o t ty, kind_of_object (toLowerCase oid) x <> KindTag o t ty) ->
  kind_connected bucket getActivePackCatalog repoId (kind_of_object (toLowerCase oid) x) s = (r, s') ->
  decides (connected bucket inflate packs n oid) r s'.
Proof.
  intros Hok Hx Hnt.
  assert (forall P : Prop, P <-> connected bucket inflate packs n oid -> forall r s', decides P r s' -> decides (connected bucket inflate packs n oid) r s')
    as Hiff by (intros P HP r0 s0; by apply decides_iff).
  destruct x as [o|].
  2: { intros [= <- <-]. split; [done|]. intros (t & p & Ho & _)%connected_inv. by destruct (is_object_kind _ _ _ _ Hx Ho) as (? & [=] & _). }
  assert (is_object bucket inflate packs oid (po_type o) (po_payload o)) as Ho by (by exists o).
  assert (connected bucket inflate packs n oid -> match po_type o with
    | ObjCommit => let '(tree, parents) := parseCommitRefs (po_payload o) in
        (tree <> ""%string /\ listed bucket packs tree) /\ Forall (listed bucket packs) parents
    | ObjTag => is_Some (parseTagTarget (po_payload o))
    | _ => True end) as Hinv.
  { intros (t & p & Ho' & H)%connected_inv. destruct (is_object_kind _ _ _ _ Hx Ho') as (o' & [= <-] & E1 & E2). rewrite E1, E2.
    destruct t; try done. destruct H as (m & target & ty & _ & -> & _). by eexists. }
  cbn [kind_of_object] in *. destruct (po_type o) eqn:Et.
  - intros [= <- <-]. split; [done|]. by eapply connected_blob.
  - intros [= <- <-]. split; [done|]. by eapply connected_tree.
  - destruct (parseCommitRefs (po_payload o)) as [tree parents] eqn:Ep. cbn [kind_connected].
    assert ((tree <> ""%string /\ listed bucket packs tree) /\ Forall (listed bucket packs) parents <-> connected bucket inflate packs n oid) as Hc
      by (split; [intros [[H1 H2] H3]; exact (connected_commit _ _ _ n oid _ tree parents Ho Ep H1 H2 H3) | done]).
    destruct (str_eq tree "") eqn:Ee.
    { intros [= <- <-]. to_prop. subst tree. split; [done|]. rewrite <- Hc. tauto. }
    assert (tree <> ""%string) as Hne by (unfold str_eq in Ee; by apply bool_decide_eq_false in Ee).
    destruct (hasObject _ _ _ _ _) as [b s1] eqn:Eh. apply hasObject_spec in Eh; [|done].
    destruct b as [e|[|]].
    + intros [= <- <-]. destruct e; cbn in *; try done; (destruct Eh as [H1 H2]; split; [done|]; rewrite <- Hc; tauto).
    + destruct Eh as [Hok1 Ht]. intros Hr%has_all_spec; [|done]. eapply Hiff; [|exact Hr]. rewrite <- Hc. tauto.
    + intros [= <- <-]. destruct Eh as [H1 H2]. split; [done|]. rewrite <- Hc. tauto.
  - destruct (parseTagTarget (po_payload o)) as [[target ty]|] eqn:Ep; [by destruct (Hnt (toLowerCase oid) target ty)|].
    intros [= <- <-]. split; [done|]. intros [? H]%Hinv. done.
Qed.

(** What is read for a tag. *)
Lemma tag_step n oid x o target ty : says oid (inr x) -> kind_of_object (toLowerCase oid) x = KindTag o target ty ->
  connected bucket inflate packs n oid <-> exists m, n = S m /\ connected bucket inflate packs m target.
Proof.
  intros Hx. destruct x as [ob|]; [|done]. cbn [kind_of_object]. destruct (po_type ob) eqn:Et; try done.
  destruct (parseTagTarget _) as [[tgt t]|] eqn:Ep; [|done]. intros [= _ -> ->]. split.
  - intros (t' & p & Ho & H)%connected_inv. destruct (is_object_kind _ _ _ _ Hx Ho) as (ob' & [= <-] & E1 & E2).
    rewrite Et in E1. subst t' p. destruct H as (m & target' & ty' & -> & Ep' & Hc). rewrite Ep in Ep'. injection Ep' as <- <-. eauto.
  - intros (m & -> & Hc). by eapply connected_tag; [exists ob | exact Ep |].
Qed.

(** A chain of tags, of which [hops] more may be read. *)
Definition judge (hops : nat) (currentOid targetOid : string) (s : Checker) : (ReadError + bool) * Checker :=
  match unwrapTag bucket inflate getActivePackCatalog repoId fuel hops currentOid targetOid s with
  | (inl e, s) => (inl e, s)
  | (inr kind, s) => kind_connected bucket getActivePackCatalog repoId kind s
  end.

Lemma judge_spec hops : forall current target s r s', checker_ok s -> judge hops current target s = (r, s') ->
  decides (exists m, hops = S m /\ connected bucket inflate packs m target) r s'.
Proof.
  induction hops as [|hops IH]; intros current target s r s' Hok; unfold judge; cbn [unwrapTag].
  { intros [= <- <-]. split; [done|]. by intros (m & [=] & _). }
  destruct (readKind _ _ _ _ _ target s) as [k s1] eqn:Ek. apply readKind_spec in Ek; [|done].
  assert (forall m, connected bucket inflate packs m target -> exists x, says target (inr x)) as Hsaid.
  { intros m (t & p & (o & Ho & _) & _)%connected_inv. by exists (Some o). }
  destruct k as [e|k].
  - intros [= <- <-]. destruct e; try done; (destruct Ek as [H1 H2]; split; [done|]; intros (m & _ & [x Hx]%Hsaid); by apply (H2 x)).
  - destruct Ek as (Hok1 & x & Hx & ->). destruct (kind_of_object (toLowerCase target) x) as [| | |o t' ty|] eqn:Ekind.
    4: { intros Hr. change (judge hops o t' s1 = (r, s')) in Hr. apply IH in Hr; [|done].
         eapply decides_iff; [|exact Hr]. split.
         - intros (m & -> & Hc). exists (S m). split; [done|]. apply (tag_step _ _ _ _ _ _ Hx Ekind). eauto.
         - intros (m & [= ->] & Hc). by apply (tag_step _ _ _ _ _ _ Hx Ekind) in Hc. }
    all: rewrite <- Ekind; intros Hr; apply (kind_connected_spec hops target x) in Hr; [|done | done | by intros; rewrite Ekind];
      eapply decides_iff; [|exact Hr]; split; [by exists hops | by intros (m & [= ->] & Hc)].
Qed.

Lemma check_target_spec oid s r s' : checker_ok s ->
  check_target bucket inflate getActivePackCatalog repoId fuel oid s = (r, s') ->
  decides (connected bucket inflate packs MAX_TAG_DEPTH oid) r s'.
Proof.
  intros Hok. unfold check_target.
  destruct (readKind _ _ _ _ _ (toLowerCase oid) s) as [k s1] eqn:Ek. apply readKind_spec in Ek; [|done].
  destruct k as [e|k].
  - intros [= <- <-]. destruct e; try done; (destruct Ek as [H1 H2]; split; [done|];
      intros (t & p & (o & Ho & _) & _)%connected_inv; apply (H2 (Some o)); by rewrite says_lower).
  - destruct Ek as (Hok1 & x & Hx & ->). rewrite says_lower in Hx. rewrite toLowerCase_twice.
    destruct (kind_of_object (toLowerCase oid) x) as [| | |o t ty|] eqn:Ekind.
    4: { intros Hr. change (judge MAX_TAG_DEPTH o t s1 = (r, s')) in Hr. apply judge_spec in Hr; [|done].
         eapply decides_iff; [|exact Hr]. symmetry. apply (tag_step _ _ _ _ _ _ Hx Ekind). }
    all: rewrite <- Ekind; intros Hr; apply (kind_connected_spec MAX_TAG_DEPTH oid x) in Hr; try done; by intros; rewrite Ekind.
Qed.

(** What the check makes of the status of a command. *)
Definition verdict (cmd : ReceiveCommand) (st st' : ReceiveStatus) : Prop :=
  (st' = st /\ (status_ok st = false \/ ZERO_OID_RE (newOid cmd) = true \/ connected bucket inflate packs MAX_TAG_DEPTH (newOid cmd))) \/
  (st' = reject cmd "missing-objects" /\ status_ok st = true /\ ZERO_OID_RE (newOid cmd) = false /\
   ~ connected bucket inflate packs MAX_TAG_DEPTH (newOid cmd)).

Lemma check_command_spec cmd st s r s' : checker_ok s ->
  check_command bucket inflate getActivePackCatalog repoId fuel cmd st s = (r, s') ->
  match r with Some st' => checker_ok s' /\ verdict cmd st st' | None => endless end.
Proof.
  intros Hok. unfold check_command, verdict. destruct (status_ok st) eqn:Es; cbn [negb].
  2: { intros [= <- <-]. split; [done|]. left. auto. }
  destruct (ZERO_OID_RE (newOid cmd)) eqn:Ez.
  { intros [= <- <-]. split; [done|]. left. auto. }
  destruct (check_target _ _ _ _ _ _ s) as [t s1] eqn:Et. apply check_target_spec in Et; [|done].
  destruct t as [e|[|]]; [destruct e| |]; intros [= <- <-]; try done; destruct Et as [Hok1 Ht]; (split; [done|]); tauto.
Qed.

(** The statuses one by one; those without a command stay. *)
Definition verdicts (commands : list ReceiveCommand) (statuses final : list ReceiveStatus) : Prop :=
  length final = length statuses /\
  forall i st st', statuses !! i = Some st -> final !! i = Some st' ->
    match commands !! i with Some cmd => verdict cmd st st' | None => st' = st end.

Lemma check_commands_spec commands : forall statuses s r s', checker_ok s ->
  check_commands bucket inflate getActivePackCatalog repoId fuel commands statuses s = (r, s') ->
  match r with Some final => checker_ok s' /\ verdicts commands statuses final | None => endless end.
Proof.
  induction commands as [|cmd commands IH]; intros statuses s r s' Hok; cbn [check_commands].
  { intros [= <- <-]. split; [done|]. split; [done|]. intros i st st' E1 E2. rewrite lookup_nil. congruence. }
  destruct statuses as [|st statuses].
  { intros [= <- <-]. split; [done|]. split; [done|]. intros i st' st'' E. by rewrite lookup_nil in E. }
  destruct (check_command _ _ _ _ _ cmd st s) as [st1 s1] eqn:Ec. apply check_command_spec in Ec; [|done].
  destruct st1 as [st1|]; [|by intros [= <- <-]]. destruct Ec as [Hok1 Hv].
  destruct (check_commands _ _ _ _ _ commands statuses s1) as [rest s2] eqn:Er. apply IH in Er; [|done].
  destruct rest as [rest|]; intros [= <- <-]; [|done]. destruct Er as [Hok2 [Hl Hr]]. split; [done|].
  split; [cbn; by f_equal|]. intros [|i] x x'; cbn; [by intros [= <-] [= <-] | apply Hr].
Qed.
End Exact.

(** The memo of the check is truthful when that of the caller is. *)
Lemma scoped_ok bucket inflate getActivePackCatalog repoId packs0 opts createdAt s :
  reader_ok bucket inflate getActivePackCatalog repoId packs0 s ->
  fetch_idx bucket (opt_newPackKey opts) (Some (opt_newPackSize opts)) = inr (Some (opt_newIdxView opts)) ->
  let packs := newRow opts createdAt :: opt_activeCatalog opts in
  checker_ok bucket inflate getActivePackCatalog repoId packs
    (mkChecker (mkReader (createScopedConnectivityCacheContext (rd_memo s) repoId packs (opt_newPackKey opts) (opt_newIdxView opts))
       (rd_cache s) (rd_calls s)) ∅ ∅).
Proof.
  intros Hok Hnew packs. split; cbn; [|done | by intros ? ? ?%lookup_empty_Some | by intros ? ? ?%lookup_empty_Some].
  split; cbn; [intros id [= <-]; by left | done | | apply (ro_cache _ _ _ _ _ _ Hok) | by intros ? ? ?%lookup_empty_Some].
  intros k v [[<- <-]|[_ H]]%lookup_insert_Some.
  - by destruct (fetch_view_ok _ _ _ _ Hnew) as [-> _].
  - destruct (match memo_repoId (rd_memo s) with Some id => _ | None => true end).
    + by apply (ro_views _ _ _ _ _ _ Hok).
    + by apply lookup_empty_Some in H.
Qed.

(** ** Properties *)


Definition toy_options : ConnectivityCheckOptions :=
  let commands := [mkCommand zeroOid (bytesToHex (replicate 20 2)) "refs/heads/a"; mkCommand zeroOid (bytesToHex (replicate 20 9)) "refs/heads/b"] in
  mkOptions "p.pack" demo_idx 44 [] commands (accept <$> commands).

