(* ===== verification/PktLine.v ===== *)
(** * Packet lines

    [git/core/pktline.ts] and [git/receive/pktSectionStream.ts], with the helpers of
    [git/receive/bytes.ts]: the framing of the git protocol - four hexadecimal
    digits, the length with them, then the payload - its encoder and its decoders,
    and the reader that finds the end of the command section in a stream whose
    chunks fall anywhere.

    A text is the list of its UTF-8 bytes; [TextDecoder] is written out, with the
    replacement of ill-formed sequences.  A stream is the list of its chunks. *)
From S2P Require Import Prelude Text Bytes PackIndex.
From Stdlib Require Import Ascii.
From Stdlib Require String.

(** ** Definitions *)

(** *** [TextDecoder.decode] *)

Definition REPLACEMENT : list Z := [239; 191; 189].

Definition within (lo hi b : Z) : bool := (lo <=? b) && (b <=? hi).

(** A lead byte: the continuation bytes it announces, and the range of the first. *)
Definition lead (b : Z) : option (nat * Z * Z) :=
  if within 194 223 b then Some (1%nat, 128, 191)
  else if b =? 224 then Some (2%nat, 160, 191)
  else if b =? 237 then Some (2%nat, 128, 159)
  else if within 225 239 b then Some (2%nat, 128, 191)
  else if b =? 240 then Some (3%nat, 144, 191)
  else if within 241 243 b then Some (3%nat, 128, 191)
  else if b =? 244 then Some (3%nat, 128, 143)
  else None.

(** The decoder: the bytes of a sequence that is not complete, how many are missing,
    and the range of the next. *)
Fixpoint utf8 (pending : list Z) (needed : nat) (lo hi : Z) (l : list Z) : list Z :=
  match l with
  | [] => match needed with O => [] | S _ => REPLACEMENT end
  | b :: r =>
    let start :=
      if b <? 128 then b :: utf8 [] 0 128 191 r
      else match lead b with
      | Some (n, lo, hi) => utf8 [b] n lo hi r
      | None => REPLACEMENT ++ utf8 [] 0 128 191 r
      end in
    match needed with
    | O => start
    | S n =>
      if within lo hi b then
        match n with
        | O => pending ++ [b] ++ utf8 [] 0 128 191 r
        | S _ => utf8 (pending ++ [b]) n 128 191 r
        end
      else REPLACEMENT ++ start
    end
  end.

(** A leading byte order mark is dropped. *)
Definition decode_text (l : list Z) : list Z :=
  match utf8 [] 0 128 191 l with 239 :: 187 :: 191 :: r => r | t => t end.

(** *** The encoder *)

Definition FLUSH : list Z := encode "0000".
Definition DELIM : list Z := encode "0001".
Definition RESPONSE_END : list Z := encode "0002".

(** [n.toString(16)] of a non-negative integer below 2^64. *)
Fixpoint hex_string (fuel : nat) (n : Z) (acc : list ascii) : list ascii :=
  match fuel with
  | O => acc
  | S fuel =>
    let acc := hex_digit_lower (n mod 16) :: acc in
    if n <? 16 then acc else hex_string fuel (n / 16) acc
  end.

Definition toHex4 (n : Z) : list Z := encode (padStart0 4 (unchars (hex_string 16 n []))).

Definition pktLine (payload : list Z) : list Z := toHex4 (Z.of_nat (length payload) + 4) ++ payload.

Definition flushPkt : list Z := FLUSH.
Definition delimPkt : list Z := DELIM.
Definition responseEndPkt : list Z := RESPONSE_END.
Definition concatChunks (chunks : list (list Z)) : list Z := List.concat chunks.

(** *** The decoders *)

(** What the four bytes at the front announce. *)
Inductive Packet :=
  | NoHeader | Flush (rest : list Z) | Delim (rest : list Z) | ResponseEnd (rest : list Z)
  | Malformed | Truncated | Line (payload rest : list Z).

Definition read_packet (buf : list Z) : Packet :=
  if (length buf <? 4)%nat then NoHeader else
  let hdr := decode_text (take 4 buf) in
  let rest := drop 4 buf in
  if bool_decide (hdr = FLUSH) then Flush rest
  else if bool_decide (hdr = DELIM) then Delim rest
  else if bool_decide (hdr = RESPONSE_END) then ResponseEnd rest
  else match parseInt16 hdr with
  | None => Malformed
  | Some len =>
    if len <? 4 then Malformed
    else if Z.of_nat (length rest) <? len - 4 then Truncated
    else Line (take (Z.to_nat (len - 4)) rest) (drop (Z.to_nat (len - 4)) rest)
  end.

(** [text.replace(/\r?\n$/, "")]. *)
Definition chomp (t : list Z) : list Z :=
  match last t with
  | Some 10 => let t := removelast t in match last t with Some 13 => removelast t | _ => t end
  | _ => t
  end.

Inductive PktItem := ItemLine (text raw : list Z) | ItemFlush | ItemDelim | ItemResponseEnd.

(** Every turn of the loops consumes the four bytes of a header. *)
Fixpoint decode_items (fuel : nat) (buf : list Z) : list PktItem :=
  match fuel with
  | O => []
  | S fuel =>
    match read_packet buf with
    | Flush rest => ItemFlush :: decode_items fuel rest
    | Delim rest => ItemDelim :: decode_items fuel rest
    | ResponseEnd rest => ItemResponseEnd :: decode_items fuel rest
    | Line payload rest => ItemLine (decode_text payload) payload :: decode_items fuel rest
    | NoHeader | Malformed | Truncated => []
    end
  end.

Definition decodePktLines (buf : list Z) : list PktItem := decode_items (S (length buf)) buf.

Inductive ParsedPktSection :=
  | SectionOk (lines : list (list Z)) (offset : nat)
  | SectionIncomplete
  | SectionInvalid (message : string).

Definition unexpected_delimiter : string := "Unexpected protocol delimiter in receive-pack command section.".
Definition malformed_header : string := "Malformed pkt-line header in receive-pack command section.".

Fixpoint section_from (fuel : nat) (lines : list (list Z)) (offset : nat) (buf : list Z) : ParsedPktSection :=
  match fuel with
  | O => SectionIncomplete
  | S fuel =>
    match read_packet buf with
    | Flush _ => SectionOk lines (offset + 4)
    | Delim _ | ResponseEnd _ => SectionInvalid unexpected_delimiter
    | Malformed => SectionInvalid malformed_header
    | NoHeader | Truncated => SectionIncomplete
    | Line payload rest => section_from fuel (lines ++ [chomp (decode_text payload)]) (offset + 4 + length payload) rest
    end
  end.

Definition parsePktSectionPrefix (bytes : list Z) : ParsedPktSection := section_from (S (length bytes)) [] 0 bytes.

(** The variant of [core/pktline.ts] gives no reason. *)
Definition parsePktSection (buf : list Z) : option (list (list Z) * nat) :=
  match parsePktSectionPrefix buf with SectionOk lines offset => Some (lines, offset) | _ => None end.

(** *** The stream of a push *)

Definition MAX_COMMAND_SECTION_BYTES : Z := 256 * 1024.

Record PktSection := mkSection {
  sec_lines : list (list Z);
  sec_bytesConsumed : nat;
  sec_rawPrefix : list Z;
  sec_packStream : list (list Z) }.

Definition ended_early : string := "Receive-pack command section ended before the flush packet.".
Definition too_large : string := "Receive-pack command section exceeded the supported size.".

(** [inl] is the message of the exception. *)
Fixpoint read_section (buffered : list Z) (body : list (list Z)) : string + PktSection :=
  match parsePktSectionPrefix buffered with
  | SectionOk lines offset =>
    let prefixRemainder := drop offset buffered in
    inr (mkSection lines offset (take offset buffered)
      ((if (0 <? length prefixRemainder)%nat then [prefixRemainder] else []) ++ body))
  | SectionInvalid message => inl message
  | SectionIncomplete =>
    match body with
    | [] => inl ended_early
    | chunk :: body =>
      let buffered := buffered ++ chunk in
      if MAX_COMMAND_SECTION_BYTES <? Z.of_nat (length buffered) then inl too_large else read_section buffered body
    end
  end.

Definition readPktSectionStream (body : list (list Z)) : string + PktSection := read_section [] body.

(** ** Lemmas *)

Definition ascii_text (l : list Z) : Prop := Forall (fun b => 0 <= b < 128) l.

Lemma utf8_ascii l r : ascii_text l -> utf8 [] 0 128 191 (l ++ r) = l ++ utf8 [] 0 128 191 r.
Proof.
  induction 1 as [|b l Hb _ IH]; [done|]. cbn [utf8 app]. rewrite (proj2 (Z.ltb_lt b 128)) by lia. by rewrite IH.
Qed.

Lemma decode_ascii l : ascii_text l -> decode_text l = l.
Proof.
  intros Hl. unfold decode_text. pose proof (utf8_ascii l [] Hl) as E. rewrite !app_nil_r in E. rewrite E.
  destruct Hl as [|b l Hb _]; [done|]. destruct b as [|b|b]; [done | | lia].
  repeat (destruct b as [b|b|]; try done); lia.
Qed.

(** Hexadecimal digits as bytes. *)
Definition hex_byte (d : Z) : Z := code (hex_digit_lower d).

Definition hex_byte_ok (d : Z) : bool :=
  match hex_value (hex_byte d) with Some v => v =? d | None => false end && within 48 102 (hex_byte d).

Lemma digit_facts d : 0 <= d < 16 -> hex_value (hex_byte d) = Some d /\ 48 <= hex_byte d < 103.
Proof.
  intros Hd. assert (hex_byte_ok d = true) as H by (apply (check_below 16); [vm_compute; reflexivity | done]).
  unfold hex_byte_ok, within in H. destruct (hex_value _); to_prop; [|done]. split; [by f_equal | lia].
Qed.

(** [parseInt] of four digits. *)
Lemma parse_hex4 d b c e vb vc ve : 0 <= d < 16 -> hex_value b = Some vb -> hex_value c = Some vc -> hex_value e = Some ve ->
  48 <= b < 103 -> parseInt16 [hex_byte d; b; c; e] = Some (((d * 16 + vb) * 16 + vc) * 16 + ve).
Proof.
  intros Hd Hb Hc He Hb'.
  assert (hex_digits 0 [hex_byte d; b; c; e] = ((d * 16 + vb) * 16 + vc) * 16 + ve) as Hv.
  { cbn [hex_digits]. destruct (digit_facts d Hd) as [-> _]. by rewrite Hb, Hc, He. }
  assert (hex_number [hex_byte d; b; c; e] = Some (((d * 16 + vb) * 16 + vc) * 16 + ve)) as Hn.
  { unfold hex_number. destruct (digit_facts d Hd) as [-> _]. by rewrite Hv. }
  assert (b <> 88) as Hx by (intros ->; discriminate Hb).
  rewrite <- Hn. assert (d = 0 \/ 1 <= d) as [->|Hd1] by lia.
  { change (hex_byte 0) with 48.
    change (parseInt16 [48; b; c; e]) with (hex_number (if (b =? 120) || (b =? 88) then [c; e] else [48; b; c; e])).
    by rewrite (proj2 (Z.eqb_neq b 120)), (proj2 (Z.eqb_neq b 88)) by lia. }
  assert (d = 1 \/ d = 2 \/ d = 3 \/ d = 4 \/ d = 5 \/ d = 6 \/ d = 7 \/ d = 8 \/ d = 9 \/ d = 10 \/ d = 11 \/
    d = 12 \/ d = 13 \/ d = 14 \/ d = 15) as Hcases by lia.
  clear -Hcases. repeat destruct Hcases as [->|Hcases]; [done.. |]. by subst d.
Qed.

(** [lia] with division and remainder. *)
Ltac zlia := Z.to_euclidean_division_equations; lia.

Lemma toHex4_digits n : 0 <= n < 65536 ->
  toHex4 n = hex_byte <$> [n / 16 / 16 / 16; n / 16 / 16 mod 16; n / 16 mod 16; n mod 16].
Proof.
  intros Hn. unfold toHex4, encode, padStart0. rewrite chars_append, !chars_unchars, fmap_app, length_unchars.
  assert (0 <= n < 16 \/ 16 <= n < 256 \/ 256 <= n < 4096 \/ 4096 <= n) as [H|[H|[H|H]]] by zlia; cbn [hex_string].
  - rewrite (proj2 (Z.ltb_lt n 16)) by zlia. rewrite (Z.div_small n 16) by zlia. done.
  - rewrite (proj2 (Z.ltb_ge n 16)), (proj2 (Z.ltb_lt (n / 16) 16)) by zlia. rewrite (Z.div_small (n / 16) 16) by zlia. done.
  - rewrite (proj2 (Z.ltb_ge n 16)), (proj2 (Z.ltb_ge (n / 16) 16)), (proj2 (Z.ltb_lt (n / 16 / 16) 16)) by zlia.
    rewrite (Z.div_small (n / 16 / 16) 16) by zlia. done.
  - rewrite (proj2 (Z.ltb_ge n 16)), (proj2 (Z.ltb_ge (n / 16) 16)), (proj2 (Z.ltb_ge (n / 16 / 16) 16)),
      (proj2 (Z.ltb_lt (n / 16 / 16 / 16) 16)) by zlia.
    rewrite (Z.mod_small (n / 16 / 16 / 16) 16) by zlia. done.
Qed.

(** The header of a packet of less than 65536 bytes. *)
Lemma header_facts n : 0 <= n < 65536 ->
  length (toHex4 n) = 4%nat /\ decode_text (toHex4 n) = toHex4 n /\ parseInt16 (toHex4 n) = Some n.
Proof.
  intros Hn. rewrite toHex4_digits by done. cbn [fmap list_fmap].
  destruct (digit_facts (n / 16 / 16 / 16)) as [A1 A2]; [zlia|]. destruct (digit_facts (n / 16 / 16 mod 16)) as [B1 B2]; [zlia|].
  destruct (digit_facts (n / 16 mod 16)) as [C1 C2]; [zlia|]. destruct (digit_facts (n mod 16)) as [D1 D2]; [zlia|].
  split; [done|]. split; [apply decode_ascii; repeat constructor; lia|].
  rewrite (parse_hex4 (n / 16 / 16 / 16) _ _ _ _ _ _ ltac:(zlia) B1 C1 D1 B2). f_equal. clear. zlia.
Qed.

Lemma read_line payload rest : Z.of_nat (length payload) < 65532 -> read_packet (pktLine payload ++ rest) = Line payload rest.
Proof.
  intros Hl. unfold read_packet, pktLine. remember (Z.of_nat (length payload) + 4) as n eqn:En.
  destruct (header_facts n) as (H1 & H2 & H3); [lia|]. rewrite <- app_assoc, length_app, H1.
  rewrite (proj2 (Nat.ltb_ge _ 4)) by lia. rewrite take_app_length', drop_app_length' by done. rewrite H2, H3.
  assert (forall h v, parseInt16 h = Some v -> v < 4 -> toHex4 n <> h) as Hne by (intros h v Hh Hv <-; rewrite H3 in Hh; injection Hh; lia).
  rewrite (bool_decide_false (_ = FLUSH)) by (by eapply Hne).
  rewrite (bool_decide_false (_ = DELIM)) by (by eapply Hne). rewrite (bool_decide_false (_ = RESPONSE_END)) by (by eapply Hne).
  rewrite (proj2 (Z.ltb_ge n 4)), length_app, (proj2 (Z.ltb_ge _ _)) by lia.
  replace (Z.to_nat (n - 4)) with (length payload) by lia. by rewrite take_app_length, drop_app_length.
Qed.

Lemma read_flush rest : read_packet (flushPkt ++ rest) = Flush rest.
Proof. done. Qed.

Lemma read_delim rest : read_packet (delimPkt ++ rest) = Delim rest.
Proof. done. Qed.

(** More bytes behind a packet do not change how it is read. *)
Lemma read_packet_app buf more : match read_packet buf with
  | NoHeader | Truncated => True
  | Flush rest => read_packet (buf ++ more) = Flush (rest ++ more)
  | Delim rest => read_packet (buf ++ more) = Delim (rest ++ more)
  | ResponseEnd rest => read_packet (buf ++ more) = ResponseEnd (rest ++ more)
  | Malformed => read_packet (buf ++ more) = Malformed
  | Line payload rest => read_packet (buf ++ more) = Line payload (rest ++ more)
  end.
Proof.
  unfold read_packet. destruct (length buf <? 4)%nat eqn:El; [done|]. apply Nat.ltb_ge in El.
  rewrite length_app, (proj2 (Nat.ltb_ge _ 4)) by lia. rewrite take_app_le, drop_app_le by lia.
  case_bool_decide; [done|]. case_bool_decide; [done|]. case_bool_decide; [done|].
  destruct (parseInt16 _) as [len|]; [|done]. destruct (len <? 4) eqn:E4; [done|].
  destruct (Z.of_nat (length (drop 4 buf)) <? len - 4) eqn:Et; [done|]. apply Z.ltb_ge in E4, Et.
  rewrite length_app, (proj2 (Z.ltb_ge _ _)) by lia. by rewrite take_app_le, drop_app_le by lia.
Qed.

(** A packet takes its bytes from the front. *)
Lemma read_packet_rest buf : match read_packet buf with
  | Flush rest | Delim rest | ResponseEnd rest => length buf = (4 + length rest)%nat /\ rest = drop 4 buf
  | Line payload rest => length buf = (4 + length payload + length rest)%nat /\ drop (4 + length payload) buf = rest
  | _ => True
  end.
Proof.
  unfold read_packet. destruct (length buf <? 4)%nat eqn:El; [done|]. apply Nat.ltb_ge in El.
  assert (length buf = (4 + length (drop 4 buf))%nat) as E by (rewrite length_drop; lia).
  case_bool_decide; [done|]. case_bool_decide; [done|]. case_bool_decide; [done|].
  destruct (parseInt16 _) as [len|]; [|done]. destruct (len <? 4) eqn:E4; [done|].
  destruct (Z.of_nat (length (drop 4 buf)) <? len - 4) eqn:Et; [done|]. apply Z.ltb_ge in E4, Et.
  rewrite length_take, Nat.min_l by lia. split; [|by rewrite drop_drop].
  rewrite (length_drop (drop 4 buf)). lia.
Qed.

(** *** Sections *)

Lemma section_app fuel : forall fuel' lines offset buf more, (length buf < fuel)%nat -> (length (buf ++ more) < fuel')%nat ->
  match section_from fuel lines offset buf with
  | SectionIncomplete => True
  | r => section_from fuel' lines offset (buf ++ more) = r
  end.
Proof.
  induction fuel as [|fuel IH]; intros [|fuel'] lines offset buf more Hf Hf'; cbn [section_from]; [lia.. | lia |].
  pose proof (read_packet_app buf more) as H. pose proof (read_packet_rest buf) as Hr.
  destruct (read_packet buf) as [|rest|rest|rest| | |payload rest]; try done; rewrite H; try done.
  rewrite length_app in Hf'. apply IH; rewrite ?length_app; lia.
Qed.

Lemma parse_app buf more : parsePktSectionPrefix buf <> SectionIncomplete ->
  parsePktSectionPrefix (buf ++ more) = parsePktSectionPrefix buf.
Proof.
  unfold parsePktSectionPrefix. intros H.
  pose proof (section_app (S (length buf)) (S (length (buf ++ more))) [] 0 buf more ltac:(lia) ltac:(lia)) as Ha.
  by destruct (section_from _ _ _ buf).
Qed.

Lemma section_offset fuel : forall lines offset buf ls o, section_from fuel lines offset buf = SectionOk ls o ->
  (offset <= o <= offset + length buf)%nat.
Proof.
  induction fuel as [|fuel IH]; intros lines offset buf ls o; cbn [section_from]; [done|].
  pose proof (read_packet_rest buf) as Hr. destruct (read_packet buf) as [|rest|rest|rest| | |payload rest]; try done.
  - intros [= <- <-]. lia.
  - intros H%IH. lia.
Qed.

Lemma parse_offset buf ls o : parsePktSectionPrefix buf = SectionOk ls o -> (o <= length buf)%nat.
Proof. intros H%section_offset. lia. Qed.

(** The section of a client is read back. *)
Lemma section_lines payloads : forall fuel lines offset rest, Forall (fun p => Z.of_nat (length p) < 65532) payloads ->
  (length payloads < fuel)%nat ->
  section_from fuel lines offset (concatChunks (pktLine <$> payloads) ++ flushPkt ++ rest) =
  SectionOk (lines ++ (chomp ∘ decode_text <$> payloads)) (offset + length (concatChunks (pktLine <$> payloads)) + 4).
Proof.
  unfold concatChunks. induction payloads as [|p payloads IH]; intros [|fuel] lines offset rest Hp Hf; [simpl in Hf; lia | | simpl in Hf; lia |].
  - cbn [fmap list_fmap List.concat app section_from]. rewrite read_flush. f_equal; [by rewrite app_nil_r | cbn; lia].
  - apply Forall_cons_1 in Hp as [Hp Hps]. cbn [fmap list_fmap List.concat section_from]. rewrite <- app_assoc, read_line by done.
    rewrite IH by (done || simpl in Hf; lia). rewrite <- app_assoc. f_equal. rewrite length_app. unfold pktLine at 2.
    rewrite length_app. destruct (header_facts (Z.of_nat (length p) + 4)) as [-> _]; lia.
Qed.

Lemma length_packets payloads : Forall (fun p => Z.of_nat (length p) < 65532) payloads ->
  (length payloads <= length (concatChunks (pktLine <$> payloads)))%nat.
Proof.
  induction 1 as [|p payloads Hp _ IH]; [done|]. unfold concatChunks in *. cbn [fmap list_fmap List.concat length]. rewrite length_app.
  unfold pktLine at 1. rewrite length_app. destruct (header_facts (Z.of_nat (length p) + 4)) as [-> _]; lia.
Qed.

Lemma parse_lines payloads rest : Forall (fun p => Z.of_nat (length p) < 65532) payloads ->
  parsePktSectionPrefix (concatChunks (pktLine <$> payloads) ++ flushPkt ++ rest) =
  SectionOk (chomp ∘ decode_text <$> payloads) (length (concatChunks (pktLine <$> payloads)) + 4).
Proof.
  intros Hp. unfold parsePktSectionPrefix. rewrite section_lines; [done | done |]. rewrite length_app.
  pose proof (length_packets _ Hp). lia.
Qed.

(** Likewise the packets of a message. *)
Lemma items_lines payloads : forall fuel rest, Forall (fun p => Z.of_nat (length p) < 65532) payloads ->
  (length payloads <= fuel)%nat ->
  decode_items fuel (concatChunks (pktLine <$> payloads) ++ rest) =
  ((fun p => ItemLine (decode_text p) p) <$> payloads) ++ decode_items (fuel - length payloads) rest.
Proof.
  unfold concatChunks. induction payloads as [|p payloads IH]; intros fuel rest Hp Hf; [by rewrite Nat.sub_0_r|].
  destruct fuel as [|fuel]; [simpl in Hf; lia|]. apply Forall_cons_1 in Hp as [Hp Hps].
  cbn [fmap list_fmap List.concat decode_items]. rewrite <- app_assoc, read_line by done. cbn [app]. f_equal.
  cbn [length]. rewrite Nat.sub_succ. apply IH; [done | simpl in Hf; lia].
Qed.

Lemma items_fuel fuel : forall fuel' buf, (length buf < fuel)%nat -> (length buf < fuel')%nat -> decode_items fuel buf = decode_items fuel' buf.
Proof.
  induction fuel as [|fuel IH]; intros [|fuel'] buf Hf Hf'; [lia.. |]. cbn [decode_items]. pose proof (read_packet_rest buf) as Hr.
  destruct (read_packet buf) as [|rest|rest|rest| | |payload rest]; try done; f_equal; apply IH; lia.
Qed.

Lemma decode_lines payloads rest : Forall (fun p => Z.of_nat (length p) < 65532) payloads ->
  decodePktLines (concatChunks (pktLine <$> payloads) ++ rest) =
  ((fun p => ItemLine (decode_text p) p) <$> payloads) ++ decodePktLines rest.
Proof.
  intros Hp. unfold decodePktLines. pose proof (length_packets _ Hp) as Hl. rewrite items_lines by (done || rewrite ?length_app; lia).
  f_equal. apply items_fuel; rewrite ?length_app; lia.
Qed.

(** *** The stream *)

Lemma read_section_spec body : forall buffered,
  match read_section buffered body with
  | inr sec => parsePktSectionPrefix (buffered ++ concatChunks body) = SectionOk (sec_lines sec) (sec_bytesConsumed sec) /\
      sec_rawPrefix sec = take (sec_bytesConsumed sec) (buffered ++ concatChunks body) /\
      concatChunks (sec_packStream sec) = drop (sec_bytesConsumed sec) (buffered ++ concatChunks body)
  | inl m => parsePktSectionPrefix (buffered ++ concatChunks body) = SectionInvalid m \/
      parsePktSectionPrefix (buffered ++ concatChunks body) = SectionIncomplete /\ m = ended_early \/
      m = too_large /\ exists k, parsePktSectionPrefix (buffered ++ concatChunks (take k body)) = SectionIncomplete /\
        MAX_COMMAND_SECTION_BYTES < Z.of_nat (length (buffered ++ concatChunks (take (S k) body)))
  end.
Proof.
  induction body as [|chunk body IH]; intros buffered; cbn [read_section]; unfold concatChunks in *;
    destruct (parsePktSectionPrefix buffered) as [lines offset| |m] eqn:Ep.
  - cbn [sec_lines sec_bytesConsumed sec_rawPrefix sec_packStream List.concat]. rewrite app_nil_r. split_and!; [done | done |].
    destruct (0 <? length (drop offset buffered))%nat eqn:E; cbn; [by rewrite app_nil_r|].
    apply Nat.ltb_ge in E. by destruct (drop offset buffered); [|simpl in E; lia].
  - right. left. by rewrite app_nil_r.
  - left. by rewrite app_nil_r.
  - cbn [sec_lines sec_bytesConsumed sec_rawPrefix sec_packStream]. rewrite parse_app by congruence. pose proof (parse_offset _ _ _ Ep).
    rewrite take_app_le, drop_app_le by done. split_and!; [done | done |].
    destruct (0 <? length (drop offset buffered))%nat eqn:E; [done|].
    apply Nat.ltb_ge in E. by destruct (drop offset buffered); [|simpl in E; lia].
  - destruct (MAX_COMMAND_SECTION_BYTES <? Z.of_nat (length (buffered ++ chunk))) eqn:El.
    + right. right. split; [done|]. exists 0%nat. apply Z.ltb_lt in El. cbn [take List.concat]. by rewrite !app_nil_r.
    + specialize (IH (buffered ++ chunk)). cbn [List.concat]. rewrite <- (app_assoc buffered chunk) in IH.
      destruct (read_section (buffered ++ chunk) body) as [m|sec]; [|done].
      destruct IH as [H|[H|(-> & k & H1 & H2)]]; [by left | right; by left |]. right. right. split; [done|]. exists (S k).
      cbn [take List.concat]. rewrite !app_assoc. done.
  - left. by rewrite parse_app, Ep by congruence.
Qed.

(** ** Properties *)


(** The limit counts the bytes of the pack that come in the same chunk: the empty
    command section of this body is 4 bytes long. *)
Definition one_chunk : list (list Z) := [flushPkt ++ repeat 0 (Z.to_nat MAX_COMMAND_SECTION_BYTES)].

Example pack_counts_against_limit :
  readPktSectionStream one_chunk = inl too_large /\ readPktSectionStream [flushPkt] = inr (mkSection [] 4 flushPkt []).
Proof. split; vm_compute; reflexivity. Qed.
