(* ===== verification/GitProtocol.v ===== *)
(** * Messages of the git protocol

    What is said in packet lines: the advertisement of refs and the commands of
    protocol v2 ([git/core/protocol.ts]), the commands and capabilities of a push
    ([git/receive/request.ts]), its report ([git/receive/support.ts],
    [git/receive/response.ts]), the side band
    ([git/operations/fetch/sideband.ts]), the arguments and acknowledgments of a
    fetch ([git/operations/args.ts], [git/operations/fetch/protocol.ts]) and the
    answer to ls-refs ([routes/git.ts]).

    A line that was read is the list of its UTF-8 bytes; what is handed on is a
    string. *)
From S2P Require Import Prelude Text Storage Bytes GitObjects RefUpdate PktLine.
From Stdlib Require Import Ascii.
From Stdlib Require String.

(** ** Definitions *)

(** *** Strings of JavaScript on UTF-8 bytes *)

(** [trimStart], [trimEnd] and [trim]. *)
Definition trimStart (l : list Z) : list Z := skip_space (length l) l.

Fixpoint trimEnd (l : list Z) : list Z :=
  match trimStart l, l with
  | _ :: _, b :: r => b :: trimEnd r
  | _, _ => []
  end.

Definition trim (l : list Z) : list Z := trimEnd (trimStart l).

(** [split(/\s+/)]. *)
Fixpoint split_spaces (fuel : nat) (word l : list Z) : list (list Z) :=
  match fuel with
  | O => [word]
  | S fuel =>
    match l with
    | [] => [word]
    | b :: r =>
      match js_space l with
      | Some _ => word :: split_spaces fuel [] (trimStart l)
      | None => split_spaces fuel (word ++ [b]) r
      end
    end
  end.

Definition words (l : list Z) : list (list Z) := split_spaces (S (length l)) [] l.

(** [parts.join(" ")]. *)
Fixpoint join_words (parts : list (list Z)) : list Z :=
  match parts with [] => [] | [part] => part | part :: rest => part ++ 32 :: join_words rest end.

(** The UTF-16 code units a character takes, by its first byte. *)
Definition code_units (b : Z) : nat :=
  if b <? 128 then 1 else if b <? 192 then 0 else if b <? 240 then 1 else 2.

Fixpoint units (l : list Z) : nat := match l with [] => 0 | b :: r => code_units b + units r end.

(** [substring(0, n)]; half of a pair is a replacement character once it is encoded. *)
Fixpoint take_units (n : nat) (l : list Z) : list Z :=
  match l with
  | [] => []
  | b :: r =>
    match code_units b, n with
    | O, _ => b :: take_units n r
    | _, O => []
    | S O, S n | S (S _), S (S n) => b :: take_units n r
    | S (S _), S O => REPLACEMENT
    end
  end.

(** *** The commands of a push *)

Record ReceiveNegotiatedCapabilities := mkCapabilities {
  reportStatus : bool; sideBand64k : bool; quiet : bool; cap_atomic : bool; ofsDelta : bool; agent : option string }.

Definition is_token (name : string) (token : list Z) : bool := bool_decide (token = encode name).

Definition parseCapabilities (firstLine : list Z) : ReceiveNegotiatedCapabilities :=
  let capabilityText := match split_at 0 firstLine with Some (_, after) => trim after | None => [] end in
  let tokens := match capabilityText with [] => [] | _ => words capabilityText end in
  mkCapabilities (js_some (is_token "report-status") tokens) (js_some (is_token "side-band-64k") tokens)
    (js_some (is_token "quiet") tokens) (js_some (is_token "atomic") tokens) (js_some (is_token "ofs-delta") tokens)
    (text <$> js_find (fun token => match strip_prefix (encode "agent=") token with Some _ => true | None => false end) tokens).

(** A line with fewer than three words is passed over. *)
Definition parse_command (line : list Z) : option ReceiveCommand :=
  match words (trim line) with
  | old :: new :: part :: parts => Some (mkCommand (text old) (text new) (text (join_words (part :: parts))))
  | _ => None
  end.

Definition parseReceiveRequest (lines : list (list Z)) : list ReceiveCommand * ReceiveNegotiatedCapabilities :=
  (omap parse_command match lines with first :: rest => before 0 first :: rest | [] => [] end,
   parseCapabilities (default [] (lines !! 0%nat))).

(** *** The report *)

Definition orString (s : option string) (d : string) : string := match s with Some (String.String _ _ as s) => s | _ => d end.

Definition report_line (command : ReceiveCommand) (status : option ReceiveStatus) : string :=
  match status with
  | Some (mkStatus _ true _) => ("ok " ++ cmd_ref command)%string
  | Some s => ("ng " ++ cmd_ref command ++ " " ++ orString (status_msg s) "rejected")%string
  | None => ("ng " ++ cmd_ref command ++ " " ++ "rejected")%string
  end.

Definition nl : string := unchars [ascii_of_nat 10].

Definition unpack_line (unpackOk : bool) (unpackMessage : option string) : string :=
  if unpackOk then "unpack ok" else ("unpack error " ++ orString unpackMessage "failed")%string.

Definition buildReceiveReportStatus (unpackOk : bool) (unpackMessage : option string) (commands : list ReceiveCommand)
    (statuses : list ReceiveStatus) : list Z :=
  concatChunks (pktLine (encode (unpack_line unpackOk unpackMessage ++ nl)) ::
    imap (fun index command => pktLine (encode (report_line command (statuses !! index) ++ nl))) commands ++ [flushPkt]).

Definition buildReceiveUnpackFailureReport (commands : list ReceiveCommand) (unpackMessage statusMessage : string) : list Z :=
  let statuses := (fun command => mkStatus (cmd_ref command) false (Some statusMessage)) <$> commands in
  buildReceiveReportStatus false (Some unpackMessage) commands statuses.

(** *** The side band *)

Definition SIDEBAND_PAYLOAD_MAX_BYTES : Z := 65515.

Definition createSidebandPacketChunks (band : Z) (payload : list Z) (maxChunk : Z) : list (list Z) :=
  match payload with
  | [] => [pktLine [band]]
  | _ => (fun slice => pktLine (band :: slice)) <$> batches (Z.to_nat maxChunk) payload
  end.

(** What [enqueueSidebandPayload] puts into the stream without a limit of its own. *)
Definition sideband (band : Z) (payload : list Z) : list (list Z) :=
  createSidebandPacketChunks band payload SIDEBAND_PAYLOAD_MAX_BYTES.

Definition buildSidebandReceiveBody (reportStatusBody : list Z) : list Z :=
  concatChunks (sideband 1 reportStatusBody ++ [flushPkt]).

(** What a [ReceiveSidebandWriter] is told. *)
Inductive SidebandCall := Progress (message : string) | Fatal (message : string) | ReportStatus (body : list Z).

Definition emitProgress (message : string) : list (list Z) := sideband 2 (encode message).
Definition emitFatal (message : string) : list (list Z) := sideband 3 (encode ("fatal: " ++ message ++ nl)%string).

Definition write_sideband (call : SidebandCall) : list (list Z) :=
  match call with
  | Progress message => emitProgress message
  | Fatal message => emitFatal message
  | ReportStatus body => sideband 1 body ++ [flushPkt]
  end.

Inductive ReceiveResponseMode := Plain | SideBand64k.

Definition selectReceiveResponseMode (capabilities : ReceiveNegotiatedCapabilities) : ReceiveResponseMode :=
  if sideBand64k capabilities then SideBand64k else Plain.

Definition buildReceiveResultResponse (mode : ReceiveResponseMode) (reportStatusBody : list Z) : list Z :=
  match mode with SideBand64k => buildSidebandReceiveBody reportStatusBody | Plain => reportStatusBody end.

(** *** The advertisement of refs *)

Definition RECEIVE_CAPABILITIES : string :=
  "report-status delete-refs side-band-64k quiet atomic ofs-delta agent=git-on-cloudflare/0.1".

Definition nul : string := unchars [ascii_of_nat 0].

Definition uploadPackAdvertisement : list Z :=
  concatChunks (((fun line => pktLine (encode (line ++ nl))) <$>
    ["version 2"; "agent=git-on-cloudflare/0.1"; "ls-refs"; "fetch"; "side-band-64k"; "ofs-delta"; "object-format=sha1"]%string)
    ++ [flushPkt]).

Definition advertised_line (r : Ref) : string := (ref_oid r ++ " " ++ ref_name r)%string.

Definition advertised_refs (refs : list Ref) : list (list Z) :=
  match refs with
  | r :: rest => pktLine (encode (advertised_line r ++ nul ++ RECEIVE_CAPABILITIES ++ nl)) ::
      ((fun r => pktLine (encode (advertised_line r ++ nl))) <$> rest)
  | [] => [pktLine (encode (zeroOid ++ " capabilities^{}" ++ nul ++ RECEIVE_CAPABILITIES ++ nl))]
  end.

Definition receivePackAdvertisement (refs : list Ref) : list Z :=
  concatChunks ([pktLine (encode ("# service=git-receive-pack" ++ nl)); flushPkt] ++ advertised_refs refs ++ [flushPkt]).

(** *** Commands of protocol v2 *)

Definition lower_dash (b : Z) : bool := within 97 122 b || (b =? 45).

Fixpoint take_while (p : Z -> bool) (l : list Z) : list Z :=
  match l with b :: r => if p b then b :: take_while p r else [] | [] => [] end.

(** [text.match(/command=([a-z-]+)/)]. *)
Fixpoint match_command (l : list Z) : list Z :=
  let here := match strip_prefix (encode "command=") l with Some r => take_while lower_dash r | None => [] end in
  match here, l with
  | _ :: _, _ => here
  | [], _ :: r => match_command r
  | [], [] => []
  end.

(** The command, the arguments, and whether no delimiter came yet. *)
Definition read_item (s : list Z * list (list Z) * bool) (it : PktItem) : list Z * list (list Z) * bool :=
  let '(command, args, beforeDelim) := s in
  match it with
  | ItemDelim => (command, args, false)
  | ItemLine line _ =>
    let t := chomp line in
    if beforeDelim then (default command (strip_prefix (encode "command=") t), args, beforeDelim)
    else (command, js_push args t, beforeDelim)
  | ItemFlush | ItemResponseEnd => s
  end.

Definition parseV2Command (body : list Z) : list Z * list (list Z) :=
  let '(command, args, _) := foldl read_item ([], [], true) (decodePktLines body) in
  (match command with [] => match_command (decode_text body) | _ => command end, args).

(** *** The arguments of a fetch *)

Record FetchArgs := mkFetchArgs { wants : list string; haves : list string; fetch_done : bool }.

Definition argument (prefix : string) (t : list Z) : option (list Z) := strip_prefix (encode prefix) t.

Definition oid_argument (oid : list Z) : option string := if (40 <=? units oid)%nat then Some (text (take_units 40 oid)) else None.

(** [wantSet.add]. *)
Definition add_want (l : list string) (x : string) : list string := if js_some (str_eq x) l then l else js_push l x.

Definition read_fetch_item (a : FetchArgs) (it : PktItem) : FetchArgs :=
  match it with
  | ItemLine line _ =>
    let t := trimEnd line in
    match argument "want " t, argument "have " t with
    | Some oid, _ => match oid_argument oid with Some o => mkFetchArgs (add_want (wants a) o) (haves a) (fetch_done a) | None => a end
    | None, Some oid => match oid_argument oid with Some o => mkFetchArgs (wants a) (js_push (haves a) o) (fetch_done a) | None => a end
    | None, None => if bool_decide (t = encode "done") then mkFetchArgs (wants a) (haves a) true else a
    end
  | _ => a
  end.

Definition parseFetchArgs (body : list Z) : FetchArgs := foldl read_fetch_item (mkFetchArgs [] [] false) (decodePktLines body).

Definition line_packet (line : string) : list Z := pktLine (encode (line ++ nl)).

Definition ack_lines (ackOids : list string) : list (list Z) := (fun oid => line_packet ("ACK " ++ oid)) <$> ackOids.

Definition buildAckSection (ackOids : list string) (done : bool) : list (list Z) :=
  (if done then []
   else line_packet "acknowledgments" ::
     match ackOids with [] => [line_packet "NAK"] | _ => ack_lines ackOids ++ [line_packet "ready"] end ++ [delimPkt])
  ++ [line_packet "packfile"].

Definition buildAckOnlyResponse (ackOids : list string) : list Z :=
  concatChunks (line_packet "acknowledgments" ::
    match ackOids with [] => [line_packet "NAK"] | _ => ack_lines ackOids end ++ [flushPkt]).

(** *** ls-refs *)

(** The prefixes asked for, and whether tags are to be peeled. *)
Definition ls_refs_args (args : list (list Z)) : list string * bool :=
  (omap (fun a => if is_token "peel" a then None else text <$> argument "ref-prefix " a) args, js_some (is_token "peel") args).

Definition filter_refs (refPrefixes : list string) (refs : list Ref) : list Ref :=
  match refPrefixes with [] => refs | _ => js_filter (fun r => js_some (fun p => startsWith p (ref_name r)) refPrefixes) refs end.

Definition head_line (head : Head) (filteredRefs refs : list Ref) : list string :=
  if str_eq (head_target head) "" then [] else
  let named r := str_eq (ref_name r) (head_target head) in
  let t := match js_find named filteredRefs with Some r => Some r | None => js_find named refs end in
  let headOid := match head_oid head with Some oid => Some oid | None => ref_oid <$> t end in
  [((if truthy_string headOid then default "" headOid else "unborn") ++ " HEAD symref-target:" ++ head_target head)%string].

Definition ref_line (wantPeel : bool) (peeledByRef : list (string * string)) (r : Ref) : string :=
  match (if wantPeel then AMap.lookup (ref_name r) peeledByRef else None) with
  | Some (String.String _ _ as peeled) => (advertised_line r ++ " peeled:" ++ peeled)%string
  | _ => advertised_line r
  end.

(** [peel] is the answer of [loadPeeledTagTargets], empty where it fails. *)
Definition ls_refs_lines (head : option Head) (refs : list Ref) (args : list (list Z))
    (peel : list Ref -> list (string * string)) : list string :=
  let '(refPrefixes, wantPeel) := ls_refs_args args in
  let filteredRefs := filter_refs refPrefixes refs in
  let tagRefs := js_filter (fun r => startsWith "refs/tags/" (ref_name r)) filteredRefs in
  let peeledByRef := if wantPeel then match tagRefs with [] => [] | _ => peel tagRefs end else [] in
  match head with Some h => head_line h filteredRefs refs | None => [] end ++ (ref_line wantPeel peeledByRef <$> filteredRefs).

Definition ls_refs_response (head : option Head) (refs : list Ref) (args : list (list Z)) (peel : list Ref -> list (string * string)) : list Z :=
  concatChunks ((line_packet <$> ls_refs_lines head refs args peel) ++ [flushPkt]).

(** ** Lemmas *)

(** *** Texts of printable characters *)

(** Characters of which no white space begins, and which are encoded as themselves. *)
Definition printable (b : Z) : bool := (33 <=? b) && (b <? 127).

Definition word (l : list Z) : Prop := l <> [] /\ Forall (fun b => printable b = true) l.
Definition word_string (s : string) : Prop := word (encode s).

Lemma text_encode s : text (encode s) = s.
Proof.
  unfold text, encode. rewrite <- list_fmap_compose.
  assert ((ascii_of_nat ∘ Z.to_nat ∘ code <$> chars s) = chars s) as ->.
  { rewrite <- (list_fmap_id (chars s)) at 2. apply list_fmap_ext. intros _ c _. unfold code. cbn. rewrite Nat2Z.id. apply ascii_nat_embedding. }
  apply chars_inj, chars_unchars.
Qed.

Lemma printable_space b r : printable b = true -> js_space (b :: r) = None.
Proof.
  unfold printable. intros H. to_prop. unfold js_space.
  assert (b = 32 \/ 32 < b) as [->|Hb] by lia; [lia|].
  rewrite (proj2 (Z.leb_gt b 13)), (proj2 (Z.eqb_neq b 32)), andb_false_r by lia. cbn [orb].
  destruct r as [|c r]; [done|]. rewrite (proj2 (Z.eqb_neq b 194)) by lia. cbn [andb].
  destruct r as [|d r]; [done|]. by rewrite (proj2 (Z.eqb_neq b 225)), (proj2 (Z.eqb_neq b 226)), (proj2 (Z.eqb_neq b 227)),
    (proj2 (Z.eqb_neq b 239)) by lia.
Qed.

Lemma trimStart_word b r : printable b = true -> trimStart (b :: r) = b :: r.
Proof. intros H. unfold trimStart. cbn [length skip_space]. by rewrite printable_space. Qed.

(** A printable character is not part of a white space before it. *)
Lemma space_keeps k b t r : printable b = true -> js_space (k ++ b :: t) = Some r -> exists k', r = k' ++ b :: t.
Proof.
  intros Hb E. unfold printable in Hb. destruct k as [|x [|y [|z k]]].
  - cbn [app] in E. by rewrite printable_space in E.
  - cbn [app js_space] in E. destruct (_ || _); [injection E as <-; by exists []|]. exfalso. to_prop.
    destruct ((x =? 194) && (b =? 160)) eqn:E2; [to_prop; lia|]. destruct t as [|z t]; [discriminate E|].
    match type of E with (if ?c then _ else _) = _ => destruct c eqn:E3; [clear E E2|discriminate E] end.
    repeat match goal with H : _ \/ _ |- _ => destruct H | H : _ || _ = true |- _ => apply orb_true_iff in H end; to_prop; lia.
  - cbn [app js_space] in E. destruct (_ || _); [injection E as <-; by exists [y]|].
    destruct ((x =? 194) && (y =? 160)); [injection E as <-; by exists []|]. exfalso. to_prop.
    match type of E with (if ?c then _ else _) = _ => destruct c eqn:E2; [clear E|discriminate E] end.
    repeat match goal with H : _ \/ _ |- _ => destruct H | H : _ || _ = true |- _ => apply orb_true_iff in H end; to_prop;
    repeat match goal with H : _ \/ _ |- _ => destruct H end; to_prop; lia.
  - cbn [app js_space] in E. destruct (_ || _); [injection E as <-; by exists (y :: z :: k)|].
    destruct ((x =? 194) && (y =? 160)); [injection E as <-; by exists (z :: k)|].
    match type of E with (if ?c then _ else _) = _ => destruct c; [|discriminate E] end. injection E as <-. by exists k.
Qed.

Lemma skip_keeps n b t : printable b = true -> forall k, exists k', skip_space n (k ++ b :: t) = k' ++ b :: t.
Proof.
  intros Hb. induction n as [|n IH]; intros k; cbn [skip_space]; [eauto|].
  destruct (js_space (k ++ b :: t)) as [r|] eqn:E; [|eauto]. apply space_keeps in E as (k' & ->); [apply IH | done].
Qed.

(** What stands before a printable character is not trimmed at the end. *)
Lemma trimEnd_app l b t : printable b = true -> trimEnd (l ++ b :: t) = l ++ trimEnd (b :: t).
Proof.
  intros Hb. induction l as [|x l IH]; [done|]. cbn [app trimEnd].
  unfold trimStart at 1. destruct (skip_keeps (length (x :: l ++ b :: t)) b t Hb (x :: l)) as (k' & E). cbn [app] in E. rewrite E, IH.
  by destruct k'.
Qed.

Lemma trimEnd_word l b : printable b = true -> trimEnd (l ++ [b]) = l ++ [b].
Proof. intros Hb. rewrite trimEnd_app by done. f_equal. cbn [trimEnd]. by rewrite trimStart_word. Qed.

Lemma trimEnd_nl l b : printable b = true -> trimEnd (l ++ [b; 10]) = l ++ [b].
Proof. intros Hb. rewrite trimEnd_app by done. f_equal. cbn [trimEnd]. by rewrite trimStart_word. Qed.

(** A text that ends with a printable character is only trimmed at its start. *)
Lemma trim_printable a l b : printable a = true -> printable b = true -> trim (a :: l ++ [b]) = a :: l ++ [b].
Proof. intros Ha Hb. unfold trim. rewrite trimStart_word by done. apply (trimEnd_word (a :: l) b Hb). Qed.

Lemma word_last l : word l -> exists l' b, l = l' ++ [b] /\ printable b = true.
Proof.
  intros [Hl Hp]. revert Hl Hp. induction l as [|b l' _] using rev_ind; intros Hl Hp; [done|]. apply Forall_app in Hp as [_ Hp]. apply Forall_cons_1 in Hp as [Hp _]. exists l', b. by split.
Qed.

Lemma word_first l : word l -> exists b r, l = b :: r /\ printable b = true.
Proof. intros [Hl Hp]. destruct l as [|b r]; [done|]. apply Forall_cons_1 in Hp as [Hb _]. eauto. Qed.

(** Words and a text between two of them are not trimmed. *)
Lemma trim_between w l w' : word w -> word w' -> trim (w ++ l ++ w') = w ++ l ++ w'.
Proof.
  intros (b & r & -> & Hb)%word_first (r' & c & -> & Hc)%word_last. rewrite !app_assoc, <- !app_comm_cons. by apply trim_printable.
Qed.

Lemma trim_word w : word w -> trim w = w.
Proof.
  intros H. destruct (word_first _ H) as (b & r & E & Hb). destruct (word_last _ H) as (l' & c & E' & Hc).
  unfold trim. rewrite E at 1. rewrite trimStart_word by done. rewrite <- E, E'. by apply trimEnd_word.
Qed.

Lemma space_length l r : js_space l = Some r -> (length r < length l)%nat.
Proof.
  destruct l as [|x [|y [|z l]]]; cbn [js_space]; [done | | |]; repeat (case_match; try discriminate); intros [= <-]; cbn [length]; lia.
Qed.

Lemma skip_length n l : (length (skip_space n l) <= length l)%nat.
Proof.
  revert l. induction n as [|n IH]; intros l; cbn [skip_space]; [done|]. destruct (js_space l) as [r|] eqn:E; [|done].
  apply space_length in E. specialize (IH r). lia.
Qed.

Lemma trimStart_shorter b r r' : js_space (b :: r) = Some r' -> (length (trimStart (b :: r)) <= length r)%nat.
Proof.
  intros E. unfold trimStart. cbn [length skip_space]. rewrite E. pose proof (skip_length (length r) r'). apply space_length in E. simpl in E. lia.
Qed.

Lemma split_fuel n : forall m w l, (length l < n)%nat -> (length l < m)%nat -> split_spaces n w l = split_spaces m w l.
Proof.
  induction n as [|n IH]; intros [|m] w l Hn Hm; [lia.. |]. cbn [split_spaces]. destruct l as [|b r]; [done|]. simpl in Hn, Hm.
  destruct (js_space (b :: r)) as [r'|] eqn:E; [|apply IH; lia]. apply trimStart_shorter in E. f_equal. apply IH; lia.
Qed.

Lemma split_word u : forall n w l, Forall (fun b => printable b = true) u ->
  split_spaces (length u + n) w (u ++ l) = split_spaces n (w ++ u) l.
Proof.
  induction u as [|b u IH]; intros n w l Hu; [by rewrite app_nil_r|]. apply Forall_cons_1 in Hu as [Hb Hu].
  cbn [length Nat.add app split_spaces]. rewrite printable_space by done. rewrite IH by done. by rewrite <- app_assoc.
Qed.

Lemma words_one w : word w -> words w = [w].
Proof.
  intros [_ Hw]. unfold words. pose proof (split_word w 1 [] [] Hw) as E. rewrite Nat.add_1_r, app_nil_r in E. exact E.
Qed.

Lemma words_cons w b r : word w -> printable b = true -> words (w ++ 32 :: b :: r) = w :: words (b :: r).
Proof.
  intros [_ Hw] Hb. unfold words. set (n := S (length (w ++ 32 :: b :: r))).
  assert (n = (length w + S (S (S (length r))))%nat) as -> by (unfold n; rewrite length_app; cbn; lia).
  rewrite split_word by done. cbn [app].
  change (split_spaces (S (S (S (length r)))) w (32 :: b :: r)) with (w :: split_spaces (S (S (length r))) [] (trimStart (32 :: b :: r))).
  assert (trimStart (32 :: b :: r) = b :: r) as -> by exact (trimStart_word b r Hb). done.
Qed.

(** *** A push, as a client writes it *)

Definition command_text (c : ReceiveCommand) : string := (oldOid c ++ " " ++ newOid c ++ " " ++ cmd_ref c)%string.

Definition capabilities_text (caps : list string) : list Z := List.concat ((fun c => 32 :: encode c) <$> caps).

Definition command_payloads (commands : list ReceiveCommand) (caps : list string) : list (list Z) :=
  match commands with
  | c :: rest => (encode (command_text c) ++ 0 :: capabilities_text caps) :: (encode ∘ command_text <$> rest)
  | [] => []
  end.

Definition command_section (commands : list ReceiveCommand) (caps : list string) : list Z :=
  concatChunks (pktLine <$> command_payloads commands caps) ++ flushPkt.

(** What the server makes of the capabilities. *)
Definition negotiated (caps : list string) : ReceiveNegotiatedCapabilities :=
  mkCapabilities (js_some (str_eq "report-status") caps) (js_some (str_eq "side-band-64k") caps) (js_some (str_eq "quiet") caps)
    (js_some (str_eq "atomic") caps) (js_some (str_eq "ofs-delta") caps) (js_find (startsWith "agent=") caps).

(** Ids and names without white space, in ASCII. *)
Definition plain_command (c : ReceiveCommand) : Prop :=
  word_string (oldOid c) /\ word_string (newOid c) /\ word_string (cmd_ref c).

Lemma parse_command_text c : plain_command c -> parse_command (encode (command_text c)) = Some c.
Proof.
  intros (H1 & H2 & H3). unfold parse_command, command_text. rewrite !encode_append. change (encode " ") with [32].
  destruct (word_first _ H2) as (b2 & r2 & E2 & B2). destruct (word_first _ H3) as (b3 & r3 & E3 & B3).
  assert (trim (encode (oldOid c) ++ [32] ++ encode (newOid c) ++ [32] ++ encode (cmd_ref c)) =
    encode (oldOid c) ++ 32 :: encode (newOid c) ++ 32 :: encode (cmd_ref c)) as ->.
  { pose proof (trim_between _ (32 :: encode (newOid c) ++ [32]) _ H1 H3) as E. cbn [app] in *. rewrite <- !app_assoc in E. exact E. }
  rewrite E2 at 1. cbn [app]. rewrite words_cons by done. rewrite app_comm_cons, <- E2.
  rewrite E3 at 1. rewrite words_cons by done. rewrite <- E3. rewrite (words_one _ H3). cbn [join_words]. rewrite !text_encode. by destruct c.
Qed.

Lemma word_caps caps c : word_string c -> Forall word_string caps ->
  words (encode c ++ capabilities_text caps) = encode <$> c :: caps.
Proof.
  revert c. induction caps as [|d caps IH]; intros c Hc Hcaps; cbn [capabilities_text fmap list_fmap List.concat].
  - rewrite app_nil_r. by rewrite words_one.
  - apply Forall_cons_1 in Hcaps as [Hd Hcaps]. change (List.concat _) with (capabilities_text caps). specialize (IH d Hd Hcaps).
    destruct (word_first _ Hd) as (b & r & E & Hb). rewrite <- app_comm_cons. rewrite E in *. cbn [app] in *.
    rewrite words_cons by done. rewrite IH. cbn [fmap list_fmap]. by rewrite <- E.
Qed.

Lemma caps_last caps d : word_string d -> Forall word_string caps ->
  exists l b, encode d ++ capabilities_text caps = l ++ [b] /\ printable b = true.
Proof.
  revert d. induction caps as [|c caps IH]; intros d Hd Hcaps.
  - destruct (word_last _ Hd) as (l & b & E & Hb). exists l, b. by rewrite app_nil_r.
  - apply Forall_cons_1 in Hcaps as [Hc Hcaps]. destruct (IH c Hc Hcaps) as (l & b & E & Hb). exists (encode d ++ 32 :: l), b.
    split; [|done]. cbn [capabilities_text fmap list_fmap List.concat]. change (List.concat _) with (capabilities_text caps).
    rewrite <- app_comm_cons, E. by rewrite <- app_assoc.
Qed.

Lemma caps_tokens caps : Forall word_string caps ->
  match trim (capabilities_text caps) with [] => [] | _ => words (trim (capabilities_text caps)) end = encode <$> caps.
Proof.
  destruct caps as [|d caps]; [done|]. intros [Hd Hcaps]%Forall_cons_1.
  assert (trim (capabilities_text (d :: caps)) = encode d ++ capabilities_text caps) as ->.
  { unfold trim. cbn [capabilities_text fmap list_fmap List.concat]. change (List.concat _) with (capabilities_text caps).
    destruct (caps_last caps d Hd Hcaps) as (l & b & E & Hb). rewrite <- app_comm_cons.
    destruct (word_first _ Hd) as (a & r & Ea & Ha). assert (trimStart (32 :: encode d ++ capabilities_text caps) = encode d ++ capabilities_text caps) as ->.
    { rewrite Ea. exact (trimStart_word a (r ++ capabilities_text caps) Ha). }
    rewrite E. by apply trimEnd_word. }
  rewrite <- (word_caps caps d Hd Hcaps). destruct (word_first _ Hd) as (a & r & -> & _). done.
Qed.

Lemma prefix_spec p s : startsWith p s = true <-> exists r, s = (p ++ r)%string.
Proof.
  unfold startsWith. revert s. induction p as [|c p IH]; intros s.
  - split; [intros _; by exists s | by destruct s].
  - destruct s as [|d s]; [split; [done|]; by intros (r & ?)|]. cbn [String.prefix].
    destruct (ascii_dec c d) as [->|Hne]; [rewrite IH|]; split.
    + intros (r & ->). by exists r.
    + intros (r & [= ->]). by exists r.
    + done.
    + by intros (r & [= -> _]).
Qed.

Lemma strip_encode p r : strip_prefix (encode p) (encode (p ++ r)) = Some (encode r).
Proof. apply strip_prefix_spec, encode_append. Qed.

Lemma encode_text l : is_bytes l -> encode (text l) = l.
Proof.
  unfold text, encode. rewrite chars_unchars, <- list_fmap_compose. induction 1 as [|b l Hb _ IH]; [done|].
  cbn [fmap list_fmap]. f_equal; [|exact IH]. unfold code. cbn. unfold is_byte in Hb. rewrite nat_ascii_embedding by lia. lia.
Qed.

Lemma strip_none p s : startsWith p s = false -> strip_prefix (encode p) (encode s) = None.
Proof.
  intros E. destruct (strip_prefix (encode p) (encode s)) as [r|] eqn:Es; [|done]. apply strip_prefix_spec in Es. exfalso.
  rewrite <- not_true_iff_false in E. apply E, prefix_spec. exists (text r). apply encode_inj. rewrite encode_append, encode_text; [done|].
  pose proof (encode_bytes s) as Hs. rewrite Es in Hs. by apply Forall_app in Hs as [_ ?].
Qed.

Lemma is_token_encode name c : is_token name (encode c) = str_eq name c.
Proof.
  unfold is_token, str_eq. apply bool_decide_ext. split; [|by intros ->]. intros H. by apply encode_inj in H.
Qed.

Lemma some_token name caps : js_some (is_token name) (encode <$> caps) = js_some (str_eq name) caps.
Proof. unfold js_some. induction caps as [|c caps IH]; [done|]. cbn [fmap list_fmap existsb]. by rewrite IH, is_token_encode. Qed.

(** The capabilities of a client are the ones it wrote. *)
Lemma parse_capabilities line caps : (0 ∉ line) -> Forall word_string caps ->
  parseCapabilities (line ++ 0 :: capabilities_text caps) = negotiated caps.
Proof.
  intros Hl Hcaps. unfold parseCapabilities. rewrite split_at_line by done. cbv zeta. rewrite caps_tokens by done. unfold negotiated. rewrite !some_token. f_equal.
  unfold js_find. clear Hl Hcaps. induction caps as [|c caps IH]; [done|]. cbn [fmap list_fmap List.find].
  destruct (startsWith "agent=" c) eqn:E.
  - apply prefix_spec in E as (r & ->). rewrite strip_encode. cbn [fmap option_fmap option_map]. by rewrite text_encode.
  - by rewrite strip_none.
Qed.

Lemma printable_not b w : printable b = false -> Forall (fun b => printable b = true) w -> b ∉ w.
Proof. intros Hb Hw Hin. rewrite Forall_forall in Hw. by rewrite (Hw b Hin) in Hb. Qed.

Lemma command_text_not b c : printable b = false -> b <> 32 -> plain_command c -> b ∉ encode (command_text c).
Proof.
  intros Hb H32 ([_ H1] & [_ H2] & [_ H3]). unfold command_text. rewrite !encode_append. change (encode " ") with [32].
  rewrite !elem_of_app, !list_elem_of_singleton. pose proof (printable_not b _ Hb H1). pose proof (printable_not b _ Hb H2).
  pose proof (printable_not b _ Hb H3). tauto.
Qed.

Lemma before_line c l r : (c ∉ l) -> before c (l ++ c :: r) = l.
Proof. intros H. unfold before. by rewrite split_at_line. Qed.

Lemma parse_payloads commands caps : Forall plain_command commands -> Forall word_string caps -> commands <> [] ->
  parseReceiveRequest (command_payloads commands caps) = (commands, negotiated caps).
Proof.
  intros Hc Hcaps Hne. destruct commands as [|c commands]; [done|]. apply Forall_cons_1 in Hc as [Hc Hcs].
  unfold parseReceiveRequest. cbn [command_payloads]. rewrite before_line by (by apply command_text_not).
  cbn [lookup list_lookup]. change (default [] (Some ?x)) with x. rewrite parse_capabilities by (done || by apply command_text_not). f_equal.
  cbn [omap list_omap]. rewrite parse_command_text by done. f_equal.
  clear Hne Hc. induction Hcs as [|d commands Hd _ IH]; [done|]. cbn [fmap list_fmap omap list_omap compose]. rewrite parse_command_text by done. by f_equal.
Qed.

Lemma chomp_other t : last t <> Some 10 -> chomp t = t.
Proof.
  unfold chomp. destruct (last t) as [z|]; [|done]. intros H. assert (z <> 10) as Hz by congruence.
  destruct z as [|z|z]; try done. repeat (destruct z as [z|z|]; try done).
Qed.

Lemma printable_ascii w : Forall (fun b => printable b = true) w -> ascii_text w.
Proof. intros Hw. apply (Forall_impl _ _ _ Hw). intros b. unfold printable. intros H. to_prop. lia. Qed.

Lemma ascii_check l : forallb (fun b => (0 <=? b) && (b <? 128)) l = true -> ascii_text l.
Proof. intros H. apply Forall_forall. intros b Hb. rewrite forallb_forall in H. apply list_elem_of_In, H in Hb. to_prop. lia. Qed.

Lemma ascii_app a b : ascii_text a -> ascii_text b -> ascii_text (a ++ b).
Proof. intros. by apply Forall_app. Qed.

Lemma command_text_ascii c : plain_command c -> ascii_text (encode (command_text c)).
Proof.
  intros ([_ H1] & [_ H2] & [_ H3]). unfold command_text. rewrite !encode_append.
  repeat apply ascii_app; try (by apply printable_ascii); repeat constructor; done.
Qed.

Lemma caps_ascii caps : Forall word_string caps -> ascii_text (capabilities_text caps).
Proof.
  unfold capabilities_text. induction 1 as [|c caps [_ Hc] _ IH]; [constructor|]. cbn [fmap list_fmap List.concat].
  apply ascii_app; [constructor; [lia | by apply printable_ascii] | exact IH].
Qed.

Lemma last_caps l caps : Forall word_string caps -> last (l ++ 0 :: capabilities_text caps) <> Some 10.
Proof.
  intros Hcaps. destruct caps as [|d caps].
  - cbn [capabilities_text fmap list_fmap List.concat]. by rewrite last_snoc.
  - apply Forall_cons_1 in Hcaps as [Hd Hcaps]. destruct (caps_last caps d Hd Hcaps) as (k & b & E & Hb).
    cbn [capabilities_text fmap list_fmap List.concat]. change (List.concat _) with (capabilities_text caps). rewrite <- app_comm_cons, E.
    rewrite !app_comm_cons, app_assoc, last_snoc. intros [= ->]. done.
Qed.

Lemma last_command c : plain_command c -> last (encode (command_text c)) <> Some 10.
Proof.
  intros (_ & _ & (l & b & E & Hb)%word_last). unfold command_text. rewrite !encode_append, E, !app_assoc, last_snoc. intros [= ->]. done.
Qed.

(** The lines of the section are the payloads. *)
Lemma command_payloads_lines commands caps : Forall plain_command commands -> Forall word_string caps ->
  chomp ∘ decode_text <$> command_payloads commands caps = command_payloads commands caps.
Proof.
  intros Hc Hcaps. rewrite <- (list_fmap_id (command_payloads commands caps)) at 2. apply list_fmap_ext. intros i p Hp. cbn [compose id].
  apply list_elem_of_lookup_2 in Hp. destruct commands as [|c commands]; [by apply elem_of_nil in Hp|]. apply Forall_cons_1 in Hc as [Hc Hcs].
  apply elem_of_cons in Hp as [->|(d & -> & Hd)%list_elem_of_fmap].
  - rewrite decode_ascii by (apply ascii_app; [by apply command_text_ascii | constructor; [lia | by apply caps_ascii]]).
    apply chomp_other. by apply last_caps.
  - rewrite Forall_forall in Hcs. specialize (Hcs d Hd). cbn [compose]. rewrite decode_ascii by by apply command_text_ascii.
    apply chomp_other. by apply last_command.
Qed.

(** A body that begins with the command section of a client, in chunks that leave
    room for it. *)
Lemma read_command_section payloads pack body : Forall (fun p => Z.of_nat (length p) < 65532) payloads ->
  concatChunks body = (concatChunks (pktLine <$> payloads) ++ flushPkt) ++ pack ->
  Forall (fun chunk => Z.of_nat (length (concatChunks (pktLine <$> payloads) ++ flushPkt) + length chunk) <= MAX_COMMAND_SECTION_BYTES) body ->
  exists sec, readPktSectionStream body = inr sec /\ sec_lines sec = (chomp ∘ decode_text <$> payloads) /\
    sec_bytesConsumed sec = length (concatChunks (pktLine <$> payloads) ++ flushPkt) /\ concatChunks (sec_packStream sec) = pack.
Proof.
  intros Hp Hbody Hchunks. set (section := concatChunks (pktLine <$> payloads) ++ flushPkt) in *.
  assert (forall rest, parsePktSectionPrefix (section ++ rest) = SectionOk (chomp ∘ decode_text <$> payloads) (length section)) as Hparse.
  { intros rest. unfold section. rewrite <- app_assoc, parse_lines by done. f_equal. by rewrite length_app. }
  unfold readPktSectionStream. pose proof (read_section_spec body []) as H. cbn [app] in H. rewrite Hbody, Hparse in H.
  destruct (read_section [] body) as [m|sec].
  - exfalso. destruct H as [H|[(H & _)|(_ & k & Hk & Hl)]]; [done..|]. assert (k < length body)%nat as Hlt.
    { destruct (decide (k < length body)%nat) as [|Hge]; [done|]. exfalso. rewrite take_ge in Hk by lia. by rewrite Hbody, Hparse in Hk. }
    destruct (lookup_lt_is_Some_2 body k Hlt) as (chunk & Hchunk). rewrite (take_S_r body k chunk Hchunk) in Hl.
    unfold concatChunks in Hl, Hk, Hbody. rewrite List.concat_app, length_app in Hl. cbn [List.concat] in Hl. rewrite app_nil_r in Hl.
    rewrite Forall_lookup in Hchunks. specialize (Hchunks k chunk Hchunk).
    assert (length (List.concat (take k body)) < length section)%nat; [|lia].
    destruct (decide (length section <= length (List.concat (take k body)))%nat) as [Hle|]; [|lia]. exfalso.
    assert (exists rest, List.concat (take k body) = section ++ rest) as (rest & E); [|by rewrite E, Hparse in Hk].
    exists (drop (length section) (List.concat (take k body))). rewrite <- (take_drop (length section) (List.concat (take k body))) at 1. f_equal.
    assert (take (length section) (List.concat body) = section) as Ht by (by rewrite Hbody, take_app_length).
    rewrite <- (take_drop k body), List.concat_app, take_app_le in Ht by done. exact Ht.
  - destruct H as ([= Hl Ho] & _ & Hs). exists sec. split_and!; [done | done | done |]. rewrite Hs, <- Ho. by rewrite drop_app_length.
Qed.

(** *** The side band, as a client reads it *)

(** The data of one band. *)
Definition band_data (band : Z) (it : PktItem) : list Z :=
  match it with ItemLine _ (b :: data) => if b =? band then data else [] | _ => [] end.

Definition demultiplex (band : Z) (stream : list Z) : list Z := List.concat (band_data band <$> decodePktLines stream).

Definition band_payloads (band : Z) (payload : list Z) : list (list Z) :=
  match payload with [] => [[band]] | _ => cons band <$> batches (Z.to_nat SIDEBAND_PAYLOAD_MAX_BYTES) payload end.

Lemma sideband_payloads band payload : sideband band payload = pktLine <$> band_payloads band payload.
Proof.
  unfold sideband, createSidebandPacketChunks, band_payloads. destruct payload as [|b payload]; [done|].
  by rewrite <- list_fmap_compose.
Qed.

Lemma batches_short {A} (n : nat) (l : list A) : Forall (fun x => (length x <= n)%nat) (batches n l).
Proof.
  unfold batches. generalize (length l). intros fuel. revert l. induction fuel as [|fuel IH]; intros l; [constructor|].
  destruct l as [|x l]; cbn [batches_fuel]; [constructor|]. constructor; [|apply IH]. rewrite length_take. lia.
Qed.

Lemma band_short band payload : Forall (fun p => Z.of_nat (length p) <= 65516) (band_payloads band payload).
Proof.
  unfold band_payloads. destruct payload as [|b payload]; [repeat constructor; cbn; lia|]. apply Forall_fmap.
  apply (Forall_impl _ _ _ (batches_short _ _)). intros p Hp. cbn [compose length]. unfold SIDEBAND_PAYLOAD_MAX_BYTES in Hp. lia.
Qed.

Lemma band_content band payload : List.concat ((fun p => match p with b :: data => data | [] => [] end) <$> band_payloads band payload) = payload.
Proof.
  unfold band_payloads. destruct payload as [|b payload]; [done|]. rewrite <- list_fmap_compose.
  rewrite (list_fmap_ext _ id) by done. rewrite list_fmap_id. apply batches_concat. unfold SIDEBAND_PAYLOAD_MAX_BYTES. lia.
Qed.

Lemma band_first band payload p : p ∈ band_payloads band payload -> exists data, p = band :: data.
Proof.
  unfold band_payloads. destruct payload as [|b payload].
  - intros ->%list_elem_of_singleton. by exists [].
  - intros (data & -> & _)%list_elem_of_fmap. by exists data.
Qed.

(** A payload on one band is all a client gets on it, and nothing on another. *)
Lemma demultiplex_sideband band band' payload rest :
  demultiplex band' (concatChunks (sideband band payload) ++ rest) = (if band =? band' then payload else []) ++ demultiplex band' rest.
Proof.
  unfold demultiplex. rewrite sideband_payloads, decode_lines.
  2: { apply (Forall_impl _ _ _ (band_short band payload)). intros p Hp. cbn in Hp. lia. }
  rewrite fmap_app, List.concat_app. f_equal. rewrite <- list_fmap_compose. rewrite <- (band_content band payload) at 2.
  pose proof (band_first band payload) as Hf. induction (band_payloads band payload) as [|p l IH].
  - by destruct (band =? band').
  - cbn [fmap list_fmap List.concat compose]. rewrite IH by (intros q Hq; apply Hf; by right).
    destruct (Hf p (list_elem_of_here p l)) as (data & ->). cbn [band_data]. by destruct (band =? band').
Qed.

Lemma packet_short p : Z.of_nat (length p) <= 65516 -> Z.of_nat (length (pktLine p)) <= 65520.
Proof.
  intros H. unfold pktLine. rewrite length_app. destruct (header_facts (Z.of_nat (length p) + 4)) as [-> _]; lia.
Qed.

Lemma sideband_short band payload : Forall (fun packet => Z.of_nat (length packet) <= 65520) (sideband band payload).
Proof. rewrite sideband_payloads. apply Forall_fmap, (Forall_impl _ _ _ (band_short band payload)). apply packet_short. Qed.

(** The messages of a push before its report. *)
Definition progress_packets (progress : list string) : list (list Z) := List.concat (write_sideband ∘ Progress <$> progress).

Lemma demultiplex_progress band progress rest :
  demultiplex band (concatChunks (progress_packets progress) ++ rest) =
  (if 2 =? band then List.concat (encode <$> progress) else []) ++ demultiplex band rest.
Proof.
  unfold progress_packets. induction progress as [|message progress IH]; [by destruct (2 =? band)|].
  cbn [fmap list_fmap List.concat compose write_sideband]. unfold concatChunks in *. rewrite List.concat_app, <- app_assoc.
  unfold emitProgress. pose proof (demultiplex_sideband 2 band (encode message)) as E. unfold concatChunks in E. rewrite E, IH.
  destruct (2 =? band); [by rewrite app_assoc | done].
Qed.

Lemma progress_short progress : Forall (fun packet => Z.of_nat (length packet) <= 65520) (progress_packets progress).
Proof.
  unfold progress_packets. induction progress as [|m progress IH]; [constructor|]. cbn [fmap list_fmap List.concat compose write_sideband].
  apply Forall_app. split; [apply sideband_short | exact IH].
Qed.

Lemma demultiplex_flush band : demultiplex band (List.concat [flushPkt]) = [].
Proof. done. Qed.

(** The lines of a report: the one on the pack, one for every command. *)
Definition report_lines (unpackOk : bool) (unpackMessage : option string) (commands : list ReceiveCommand) (statuses : list ReceiveStatus) : list string :=
  unpack_line unpackOk unpackMessage :: imap (fun index command => report_line command (statuses !! index)) commands.

Definition line_payload (line : string) : list Z := encode (line ++ nl)%string.

Lemma report_packets unpackOk unpackMessage commands statuses :
  buildReceiveReportStatus unpackOk unpackMessage commands statuses =
  concatChunks (pktLine <$> (line_payload <$> report_lines unpackOk unpackMessage commands statuses)) ++ flushPkt.
Proof.
  unfold buildReceiveReportStatus, report_lines, concatChunks. rewrite app_comm_cons, List.concat_app. cbn [List.concat]. rewrite app_nil_r. f_equal.
  f_equal. cbn [fmap list_fmap]. f_equal. rewrite !fmap_imap. done.
Qed.

Definition read_line_item (line : string) : PktItem := ItemLine (decode_text (line_payload line)) (line_payload line).

Lemma decode_report lines : Forall (fun line => Z.of_nat (length (line_payload line)) < 65532) lines ->
  decodePktLines (concatChunks (pktLine <$> (line_payload <$> lines)) ++ flushPkt) = (read_line_item <$> lines) ++ [ItemFlush].
Proof.
  intros H. rewrite decode_lines by by apply Forall_fmap. rewrite <- list_fmap_compose. done.
Qed.

(** *** A fetch, as a client writes it *)

(** The two parts of a request: the command and its capabilities, the arguments. *)
Definition v2_request (command : string) (caps args : list string) : list Z :=
  concatChunks (pktLine <$> (line_payload <$> ("command=" ++ command)%string :: caps)) ++ delimPkt ++
  concatChunks (pktLine <$> (line_payload <$> args)) ++ flushPkt.

Definition fetch_arguments (a : FetchArgs) : list string :=
  ((fun oid => "want " ++ oid)%string <$> wants a) ++ ((fun oid => "have " ++ oid)%string <$> haves a) ++ (if fetch_done a then ["done"%string] else []).

(** Lines that are read as they are: in ASCII, short, with a printable character at
    the end. *)
Definition ends_printable (l : list Z) : Prop := match last l with Some b => printable b = true | None => False end.

Definition plain_line (line : string) : Prop :=
  ascii_text (encode line) /\ ends_printable (encode line) /\ Z.of_nat (length (encode line)) < 65531.

Lemma ends_printable_last l : ends_printable l -> exists l' b, l = l' ++ [b] /\ printable b = true.
Proof.
  unfold ends_printable. destruct (last l) as [b|] eqn:E; [|done]. intros Hb. apply last_Some in E as (l' & ->). by exists l', b.
Qed.

Lemma length_nl line : length (line_payload line) = S (length (encode line)).
Proof. unfold line_payload. rewrite encode_append, length_app. change (length (encode nl)) with 1%nat. lia. Qed.

Lemma plain_payload line : plain_line line -> Z.of_nat (length (line_payload line)) < 65532.
Proof. intros (_ & _ & H). rewrite length_nl. lia. Qed.

Lemma decode_line line : plain_line line -> decode_text (line_payload line) = encode line ++ [10].
Proof.
  intros (H & _). unfold line_payload. rewrite encode_append. change (encode nl) with [10]. apply decode_ascii.
  apply ascii_app; [done | repeat constructor; lia].
Qed.

Lemma chomp_nl l : ends_printable l -> chomp (l ++ [10]) = l.
Proof.
  intros H. assert (last l <> Some 13) as H13 by (unfold ends_printable in H; intros E; by rewrite E in H). clear H. unfold chomp. rewrite last_snoc. replace (removelast (l ++ [10])) with l by (symmetry; apply removelast_last).
  cbv zeta. destruct (last l) as [z|]; [|done]. assert (z <> 13) as Hz by congruence.
  destruct z as [|z|z]; try done. repeat (destruct z as [z|z|]; try done).
Qed.

Definition line_items (lines : list string) : list PktItem := (fun p => ItemLine (decode_text p) p) <$> (line_payload <$> lines).

Lemma decode_request command caps args : Forall plain_line (("command=" ++ command)%string :: caps) -> Forall plain_line args ->
  decodePktLines (v2_request command caps args) =
  line_items (("command=" ++ command)%string :: caps) ++ ItemDelim :: line_items args ++ [ItemFlush].
Proof.
  intros Hc Ha. unfold v2_request. rewrite decode_lines by (apply Forall_fmap, (Forall_impl _ _ _ Hc), plain_payload). f_equal.
  change (decodePktLines (delimPkt ++ ?l)) with (decode_items (S (length (delimPkt ++ l))) (delimPkt ++ l)). cbn [decode_items].
  rewrite read_delim. f_equal. rewrite (items_fuel _ (S (length (concatChunks (pktLine <$> (line_payload <$> args)) ++ flushPkt)))); [ | rewrite !length_app; cbn; lia | lia ].
  change (decode_items (S (length ?l)) ?l) with (decodePktLines l). rewrite decode_lines by (apply Forall_fmap, (Forall_impl _ _ _ Ha), plain_payload). done.
Qed.

(** The command and the arguments are found. *)
Lemma read_lines_before lines c args : Forall plain_line lines -> Forall (fun line => startsWith "command=" line = false) lines ->
  foldl read_item (c, args, true) (line_items lines) = (c, args, true).
Proof.
  unfold line_items. intros Hp Hn. induction Hp as [|line lines Hl _ IH]; [done|]. apply Forall_cons_1 in Hn as [Hn Hns].
  cbn [fmap list_fmap foldl read_item]. rewrite decode_line, chomp_nl by (done || apply Hl). rewrite strip_none by done. by apply IH.
Qed.

Lemma read_lines_after lines c args : Forall plain_line lines ->
  foldl read_item (c, args, false) (line_items lines) = (c, args ++ (encode <$> lines), false).
Proof.
  unfold line_items. intros Hp. revert args. induction Hp as [|line lines Hl _ IH]; intros args; [by rewrite app_nil_r|].
  cbn [fmap list_fmap foldl read_item]. rewrite decode_line, chomp_nl by (done || apply Hl). rewrite IH. unfold js_push. by rewrite <- app_assoc.
Qed.

Lemma parse_request command caps args : Forall plain_line (("command=" ++ command)%string :: caps) -> Forall plain_line args ->
  Forall (fun line => startsWith "command=" line = false) caps -> command <> ""%string ->
  parseV2Command (v2_request command caps args) = (encode command, encode <$> args).
Proof.
  intros Hc Ha Hn Hne. unfold parseV2Command. rewrite decode_request by done. rewrite foldl_app. pose proof (Forall_cons_1 _ _ _ Hc) as [Hc1 Hc2].
  unfold line_items at 1. cbn [fmap list_fmap foldl read_item]. fold (line_items caps).
  rewrite decode_line, chomp_nl by (done || apply Hc1). rewrite strip_encode. cbn [default].
  rewrite read_lines_before by done. cbn [foldl read_item]. rewrite foldl_app, read_lines_after by done. cbn [foldl read_item app].
  destruct (encode command) eqn:E; [|done]. exfalso. apply Hne, encode_inj. by rewrite E.
Qed.

(** The arguments of a fetch. *)
Lemma trim_line line : ends_printable (encode line) -> trimEnd (encode line ++ [10]) = encode line.
Proof. intros (l & b & -> & Hb)%ends_printable_last. rewrite <- app_assoc. by apply trimEnd_nl. Qed.

Definition is_oid_text (oid : string) : Prop := word_string oid /\ String.length oid = 40%nat.

Lemma units_printable l : Forall (fun b => printable b = true) l -> units l = length l.
Proof.
  induction 1 as [|b l Hb _ IH]; [done|]. cbn [units length]. unfold printable in Hb. to_prop. unfold code_units.
  rewrite (proj2 (Z.ltb_lt b 128)) by lia. lia.
Qed.

Lemma take_units_printable l : Forall (fun b => printable b = true) l -> take_units (length l) l = l.
Proof.
  induction 1 as [|b l Hb _ IH]; [done|]. cbn [take_units length]. unfold printable in Hb. to_prop. unfold code_units.
  rewrite (proj2 (Z.ltb_lt b 128)) by lia. by rewrite IH.
Qed.

Lemma length_encode s : length (encode s) = String.length s.
Proof. unfold encode. rewrite length_fmap. apply length_chars. Qed.

Lemma oid_text oid : is_oid_text oid -> oid_argument (encode oid) = Some oid.
Proof.
  intros [[_ Hw] Hl]. unfold oid_argument. rewrite units_printable, length_encode, Hl by done. cbn [Nat.leb].
  rewrite <- Hl, <- length_encode, take_units_printable by done. by rewrite text_encode.
Qed.

(** A line that is neither an id nor the end of the negotiation. *)
Definition other_line (line : string) : Prop :=
  plain_line line /\ startsWith "want " line = false /\ startsWith "have " line = false /\ line <> "done"%string.

Lemma read_other a line : other_line line -> read_fetch_item a (ItemLine (decode_text (line_payload line)) (line_payload line)) = a.
Proof.
  intros (Hl & Hw & Hh & Hd). cbn [read_fetch_item]. rewrite decode_line, trim_line by (done || apply Hl). unfold argument.
  rewrite !strip_none by done. rewrite bool_decide_false; [done|]. intros E. by apply Hd, encode_inj.
Qed.

Lemma plain_oid prefix oid : is_oid_text oid -> ascii_text (encode prefix) -> (String.length prefix < 100)%nat -> plain_line (prefix ++ oid).
Proof.
  intros [Hw Hl] Hp Hlen. unfold plain_line. rewrite encode_append, length_app, !length_encode, Hl. split_and!; [ | | lia].
  - apply ascii_app; [done | by apply printable_ascii, Hw].
  - apply word_last in Hw as (l & b & -> & Hb). unfold ends_printable. by rewrite app_assoc, last_snoc.
Qed.

Lemma read_want a oid : is_oid_text oid ->
  read_fetch_item a (ItemLine (decode_text (line_payload ("want " ++ oid))) (line_payload ("want " ++ oid))) =
  mkFetchArgs (add_want (wants a) oid) (haves a) (fetch_done a).
Proof.
  intros H. pose proof (plain_oid "want " oid H ltac:(repeat constructor; done) ltac:(cbn; lia)) as Hl.
  cbn [read_fetch_item]. rewrite decode_line, trim_line by (done || apply Hl). unfold argument. rewrite strip_encode. by rewrite oid_text.
Qed.

Lemma read_have a oid : is_oid_text oid ->
  read_fetch_item a (ItemLine (decode_text (line_payload ("have " ++ oid))) (line_payload ("have " ++ oid))) =
  mkFetchArgs (wants a) (js_push (haves a) oid) (fetch_done a).
Proof.
  intros H. pose proof (plain_oid "have " oid H ltac:(repeat constructor; done) ltac:(cbn; lia)) as Hl.
  cbn [read_fetch_item]. rewrite decode_line, trim_line by (done || apply Hl). unfold argument. rewrite strip_encode, strip_none by done. by rewrite oid_text.
Qed.

Lemma read_others lines a : Forall other_line lines -> foldl read_fetch_item a (line_items lines) = a.
Proof.
  unfold line_items. induction 1 as [|line lines Hl _ IH]; [done|]. cbn [fmap list_fmap foldl]. by rewrite read_other.
Qed.

Lemma read_wants oids a : Forall is_oid_text oids -> NoDup (wants a ++ oids) ->
  foldl read_fetch_item a (line_items ((fun oid => "want " ++ oid)%string <$> oids)) = mkFetchArgs (wants a ++ oids) (haves a) (fetch_done a).
Proof.
  unfold line_items. intros Ho. revert a. induction Ho as [|oid oids Hoid _ IH]; intros a Hnd; [rewrite app_nil_r; by destruct a|].
  cbn [fmap list_fmap foldl]. rewrite read_want by done. assert (add_want (wants a) oid = wants a ++ [oid]) as Hadd.
  { unfold add_want. destruct (js_some (str_eq oid) (wants a)) eqn:E; [|done]. exfalso.
    apply existsb_exists in E as (x & Hx & He). unfold str_eq in He. apply bool_decide_eq_true_1 in He as <-. apply list_elem_of_In in Hx.
    apply NoDup_app in Hnd as (_ & Hd & _). apply (Hd oid Hx). by left. }
  rewrite Hadd. rewrite IH; cbn [wants haves fetch_done]; rewrite <- app_assoc; done.
Qed.

Lemma read_haves oids a : Forall is_oid_text oids ->
  foldl read_fetch_item a (line_items ((fun oid => "have " ++ oid)%string <$> oids)) = mkFetchArgs (wants a) (haves a ++ oids) (fetch_done a).
Proof.
  unfold line_items. intros Ho. revert a. induction Ho as [|oid oids Hoid _ IH]; intros a; [rewrite app_nil_r; by destruct a|].
  cbn [fmap list_fmap foldl]. rewrite read_have by done. rewrite IH. cbn [wants haves fetch_done]. unfold js_push. by rewrite <- app_assoc.
Qed.

Lemma read_done a (d : bool) : foldl read_fetch_item a (line_items (if d then ["done"%string] else [])) =
  mkFetchArgs (wants a) (haves a) (d || fetch_done a).
Proof. by destruct d, a. Qed.

Lemma line_items_app l1 l2 : line_items (l1 ++ l2) = line_items l1 ++ line_items l2.
Proof. unfold line_items. by rewrite !fmap_app. Qed.

Lemma plain_arguments a : Forall is_oid_text (wants a) -> Forall is_oid_text (haves a) -> Forall plain_line (fetch_arguments a).
Proof.
  intros Hw Hh. unfold fetch_arguments. rewrite !Forall_app, !Forall_fmap. split_and!.
  - apply (Forall_impl _ _ _ Hw). intros oid H. apply (plain_oid "want " oid H); [repeat constructor; done | cbn; lia].
  - apply (Forall_impl _ _ _ Hh). intros oid H. apply (plain_oid "have " oid H); [repeat constructor; done | cbn; lia].
  - destruct (fetch_done a); repeat constructor; cbn; try lia; done.
Qed.

(** *** The advertisement, as a client reads it *)

(** A ref of the advertisement; the line without refs names [capabilities^{}]. *)
Definition read_ref (it : PktItem) : option Ref :=
  match it with
  | ItemLine line _ =>
    match split_at 32 (before 0 (chomp line)) with
    | Some (oid, name) => if is_token "capabilities^{}" name then None else Some (mkRef (text name) (text oid))
    | None => None
    end
  | _ => None
  end.

Definition read_advertisement (body : list Z) : list Ref :=
  match decodePktLines body with ItemLine _ _ :: ItemFlush :: items => omap read_ref items | _ => [] end.

(** A stored ref: its name and its id are written without white space. *)
Definition plain_ref (r : Ref) : Prop :=
  word_string (ref_name r) /\ word_string (ref_oid r) /\ ref_name r <> "capabilities^{}"%string /\
  Z.of_nat (length (encode (advertised_line r))) < 65000.

Lemma line_payload_nul line : line_payload (line ++ nul ++ RECEIVE_CAPABILITIES) = encode line ++ 0 :: encode RECEIVE_CAPABILITIES ++ [10].
Proof. unfold line_payload. rewrite !encode_append, <- !app_assoc. done. Qed.

Lemma read_ref_line r : plain_ref r -> forall tail, tail = [10] \/ tail = 0 :: encode RECEIVE_CAPABILITIES ++ [10] ->
  read_ref (ItemLine (decode_text (encode (advertised_line r) ++ tail)) (encode (advertised_line r) ++ tail)) = Some r.
Proof.
  intros ((Hn0 & Hn) & (Ho0 & Ho) & Hcap & _) tail Ht. cbn [read_ref]. unfold advertised_line. rewrite !encode_append. change (encode " ") with [32].
  rewrite decode_ascii.
  2: { repeat apply ascii_app; try (by apply printable_ascii); [repeat constructor; done|]. destruct Ht as [-> | ->]; [repeat constructor; done|].
       by apply ascii_check. }
  assert (before 0 (chomp ((encode (ref_oid r) ++ [32] ++ encode (ref_name r)) ++ tail)) = encode (ref_oid r) ++ 32 :: encode (ref_name r)) as ->.
  { assert (0 ∉ encode (ref_oid r) ++ 32 :: encode (ref_name r)) as H0.
    { rewrite not_elem_of_app, not_elem_of_cons. split_and!; [by apply printable_not | done | by apply printable_not]. }
    destruct Ht as [-> | ->].
    - rewrite chomp_nl. { unfold before. by rewrite split_at_none. }
      destruct (word_last (encode (ref_name r))) as (l & b & -> & Hb); [done|]. unfold ends_printable. by rewrite !app_assoc, last_snoc.
    - rewrite app_comm_cons, app_assoc, chomp_nl.
      + cbn [app]. by apply before_line.
      + assert (exists l b, encode RECEIVE_CAPABILITIES = l ++ [b] /\ printable b = true) as (l & b & -> & Hb).
        { exists (removelast (encode RECEIVE_CAPABILITIES)), 49. split; vm_compute; reflexivity. }
        unfold ends_printable. by rewrite app_comm_cons, !app_assoc, last_snoc. }
  rewrite split_at_line by by apply printable_not. rewrite is_token_encode. unfold str_eq. rewrite bool_decide_false by congruence.
  rewrite !text_encode. by destruct r.
Qed.

Definition advertised_payloads (refs : list Ref) : list (list Z) :=
  match refs with
  | r :: rest => (encode (advertised_line r) ++ 0 :: encode RECEIVE_CAPABILITIES ++ [10]) :: ((fun r => encode (advertised_line r) ++ [10]) <$> rest)
  | [] => [encode (zeroOid ++ " capabilities^{}" ++ nul ++ RECEIVE_CAPABILITIES ++ nl)]
  end.

Lemma advertised_packets refs : advertised_refs refs = pktLine <$> advertised_payloads refs.
Proof.
  destruct refs as [|r refs]; [done|]. cbn [advertised_refs advertised_payloads fmap list_fmap]. f_equal.
  - f_equal. rewrite !encode_append. done.
  - rewrite <- list_fmap_compose. apply list_fmap_ext. intros _ x _. cbn [compose]. f_equal. by rewrite encode_append.
Qed.

Lemma advertised_short refs : Forall plain_ref refs -> Forall (fun p => Z.of_nat (length p) < 65532) (advertised_payloads refs).
Proof.
  intros H. destruct H as [|r refs Hr Hrs].
  - constructor; [vm_compute; reflexivity | constructor].
  - constructor.
    + destruct Hr as (_ & _ & _ & Hl). rewrite length_app. assert (Z.of_nat (length (0 :: encode RECEIVE_CAPABILITIES ++ [10])) <= 500) by (vm_compute; discriminate). lia.
    + apply Forall_fmap, (Forall_impl _ _ _ Hrs). intros x (_ & _ & _ & Hl). cbn [compose]. rewrite length_app. cbn [length]. lia.
Qed.

Lemma client_sees_refs refs : Forall plain_ref refs -> read_advertisement (receivePackAdvertisement refs) = refs.
Proof.
  intros H. unfold receivePackAdvertisement, concatChunks. rewrite List.concat_app, advertised_packets. unfold read_advertisement.
  replace (List.concat [pktLine (encode ("# service=git-receive-pack" ++ nl)); flushPkt]) with
    (concatChunks (pktLine <$> [line_payload "# service=git-receive-pack"]) ++ flushPkt) by (vm_compute; reflexivity).
  rewrite <- app_assoc, decode_lines by (repeat constructor; vm_compute; reflexivity). cbn [fmap list_fmap app].
  rewrite List.concat_app. cbn [List.concat]. rewrite app_nil_r.
  set (rest := List.concat _ ++ flushPkt).
  assert (decodePktLines (flushPkt ++ rest) = ItemFlush :: decodePktLines rest) as ->.
  { unfold decodePktLines at 1. cbn [decode_items]. rewrite read_flush. f_equal. apply items_fuel; [rewrite length_app; cbn; lia | lia]. }
  unfold rest. pose proof (decode_lines (advertised_payloads refs) flushPkt (advertised_short _ H)) as E. unfold concatChunks in E. rewrite E. clear E rest.
  rewrite omap_app. change (decodePktLines flushPkt) with [ItemFlush]. cbn [omap list_omap read_ref]. rewrite app_nil_r.
  destruct H as [|r refs Hr Hrs]; [vm_compute; reflexivity|]. cbn [advertised_payloads fmap list_fmap omap list_omap].
  rewrite read_ref_line by (done || by right). f_equal.
  induction Hrs as [|x refs Hx _ IH]; [done|]. cbn [fmap list_fmap omap list_omap]. rewrite read_ref_line by (done || by left). by f_equal.
Qed.

(** *** What any request is read as *)

(** ASCII white space; [line_break] leaves out the space itself. *)
Definition line_break (b : Z) : bool := (9 <=? b) && (b <=? 13).
Definition blank (b : Z) : bool := line_break b || (b =? 32).

Lemma not_space b r : js_space (b :: r) = None -> blank b = false.
Proof. unfold blank, line_break. cbn [js_space]. by destruct ((9 <=? b) && (b <=? 13) || (b =? 32)). Qed.

Lemma skip_none n l : (length l <= n)%nat -> js_space (skip_space n l) = None.
Proof.
  revert l. induction n as [|n IH]; intros l Hl; [destruct l; [done | simpl in Hl; lia]|]. cbn [skip_space].
  destruct (js_space l) as [r|] eqn:E; [|done]. apply IH. apply space_length in E. lia.
Qed.

(** Words hold no white space, and all but the last are not empty. *)
Lemma split_typed n : forall w l, Forall (fun b => blank b = false) w -> w <> [] \/ js_space l = None ->
  Forall (Forall (fun b => blank b = false)) (split_spaces n w l) /\
  forall i u, split_spaces n w l !! i = Some u -> (S i < length (split_spaces n w l))%nat -> u <> [].
Proof.
  induction n as [|n IH]; intros w l Hw Hs; cbn [split_spaces].
  { split; [repeat constructor; done|]. intros [|i] u _ Hl; cbn [length] in Hl; lia. }
  destruct l as [|b r]; [split; [repeat constructor; done|]; intros [|i] u _ Hl; cbn [length] in Hl; lia|].
  destruct (js_space (b :: r)) as [r'|] eqn:E.
  - destruct (IH [] (trimStart (b :: r))) as [H1 H2]; [constructor | right; apply skip_none; lia |]. split; [by constructor|].
    intros [|i] u Hu Hl; [injection Hu as <-; by destruct Hs|]. apply (H2 i u Hu). simpl in Hl. lia.
  - apply IH; [|left; by destruct w]. apply Forall_app. split; [done|]. repeat constructor. by apply not_space in E.
Qed.

(** A command of a request, whatever was sent. *)
Definition command_typed (c : ReceiveCommand) : Prop :=
  oldOid c <> ""%string /\ Forall (fun b => blank b = false) (encode (oldOid c)) /\
  newOid c <> ""%string /\ Forall (fun b => blank b = false) (encode (newOid c)) /\
  Forall (fun b => line_break b = false) (encode (cmd_ref c)).

Lemma elem_space l r b : js_space l = Some r -> b ∈ r -> b ∈ l.
Proof. destruct l as [|x [|y [|z l]]]; cbn [js_space]; [done | | |]; repeat (case_match; try discriminate); intros [= <-]; intros; set_solver. Qed.

Lemma elem_skip n l b : b ∈ skip_space n l -> b ∈ l.
Proof.
  revert l. induction n as [|n IH]; intros l; cbn [skip_space]; [done|]. destruct (js_space l) as [r|] eqn:E; [|done].
  intros H%IH. by apply (elem_space l r b).
Qed.

Lemma elem_trim l b : b ∈ trim l -> b ∈ l.
Proof.
  intros H. unfold trim in H. apply (elem_skip (length l)). unfold trimStart in H. revert H. generalize (skip_space (length l) l). clear.
  induction l as [|x l IH]; cbn [trimEnd]; [by destruct (trimStart [])|]. destruct (trimStart (x :: l)); [by intros ?%elem_of_nil|].
  intros [->|H]%elem_of_cons; [by left | right; auto].
Qed.

Lemma in_split n : forall w l u b, u ∈ split_spaces n w l -> b ∈ u -> b ∈ w \/ b ∈ l.
Proof.
  induction n as [|n IH]; intros w l u b; cbn [split_spaces]; [intros ->%list_elem_of_singleton; by left|].
  destruct l as [|a r]; [intros ->%list_elem_of_singleton; by left|]. destruct (js_space (a :: r)) as [r'|] eqn:E.
  - intros [->|Hu]%elem_of_cons Hb; [by left|]. right. destruct (IH _ _ _ _ Hu Hb) as [H|H]; [by apply elem_of_nil in H|]. by apply elem_skip in H.
  - intros Hu Hb. destruct (IH _ _ _ _ Hu Hb) as [[H|H%list_elem_of_singleton]%elem_of_app|H]; [by left | right; subst; by left | right; by right].
Qed.

Lemma elem_before c l b : b ∈ before c l -> b ∈ l.
Proof.
  unfold before. destruct (split_at c l) as [[a r]|] eqn:E; [|done]. revert a r E. induction l as [|x l IH]; intros a r; cbn [split_at]; [done|].
  destruct (x =? c); [intros [= <- <-] ?%elem_of_nil; done|]. destruct (split_at c l) as [[a' r']|]; [|done]. intros [= <- <-] [->|H]%elem_of_cons; [by left|].
  right. by apply (IH a' r').
Qed.

Lemma join_typed parts b : b ∈ join_words parts -> b = 32 \/ exists u, u ∈ parts /\ b ∈ u.
Proof.
  induction parts as [|u parts IH]; [by intros ?%elem_of_nil|]. destruct parts as [|v parts]; cbn [join_words].
  - intros H. right. exists u. split; [by left | done].
  - intros [H|[->|H]%elem_of_cons]%elem_of_app; [right; exists u; split; [by left | done] | by left |].
    destruct (IH H) as [->|(w & Hw & Hb)]; [by left | right; exists w; split; [by right | done]].
Qed.

Lemma space_app l r t : js_space l = Some r -> js_space (l ++ t) = Some (r ++ t).
Proof.
  destruct l as [|x l]; [done|]. cbn [app js_space]. destruct (_ || _); [by intros [= <-]|]. destruct l as [|y l]; [done|]. cbn [app].
  destruct ((x =? 194) && (y =? 160)); [by intros [= <-]|]. destruct l as [|z l]; [done|]. cbn [app].
  match goal with |- (if ?c then _ else _) = _ -> _ => destruct c; [by intros [= <-] | done] end.
Qed.

Lemma trimEnd_prefix l : exists t, l = trimEnd l ++ t.
Proof.
  induction l as [|x l (t & IH)]; cbn [trimEnd]; [by exists []; destruct (trimStart [])|]. destruct (trimStart (x :: l)); [by exists (x :: l)|].
  exists t. cbn [app]. by f_equal.
Qed.

Lemma trim_starts l : js_space (trim l) = None.
Proof.
  unfold trim. destruct (trimEnd_prefix (trimStart l)) as (t & E). destruct (js_space (trimEnd (trimStart l))) as [r|] eqn:Es; [|done].
  apply (space_app _ _ t) in Es. rewrite <- E in Es. unfold trimStart in Es. rewrite skip_none in Es; [done | lia].
Qed.

Lemma empty_text u : Forall is_byte u -> u <> [] -> text u <> ""%string.
Proof. intros Hu Hne E. apply Hne. rewrite <- (encode_text u Hu), E. done. Qed.

Lemma parse_typed line c : Forall is_byte line -> parse_command line = Some c -> command_typed c.
Proof.
  intros Hb. unfold parse_command. destruct (words (trim line)) as [|old [|new [|part parts]]] eqn:E; [done..|]. intros [= <-].
  destruct (split_typed (S (length (trim line))) [] (trim line)) as [H1 H2]; [constructor | right; apply trim_starts |].
  unfold words in E. rewrite E in H1, H2. rewrite Forall_forall in H1. rewrite Forall_forall in Hb.
  assert (forall u, u ∈ old :: new :: part :: parts -> Forall is_byte u) as Hbytes.
  { intros u Hu. apply Forall_forall. intros b Hbu. rewrite <- E in Hu. destruct (in_split _ _ _ _ _ Hu Hbu) as [H|H]; [by apply elem_of_nil in H|].
    apply elem_trim in H. apply (Hb b H). }
  unfold command_typed. cbn [oldOid newOid cmd_ref]. split_and!.
  - apply empty_text; [apply Hbytes; by left|]. apply (H2 0%nat); [done | cbn; lia].
  - rewrite encode_text; [apply H1; by left | apply Hbytes; by left].
  - apply empty_text; [apply Hbytes; right; by left|]. apply (H2 1%nat); [done | cbn; lia].
  - rewrite encode_text; [apply H1; right; by left | apply Hbytes; right; by left].
  - assert (forall u, u ∈ part :: parts -> u ∈ old :: new :: part :: parts) as Hin by (intros u Hu; by do 2 right).
    assert (Forall is_byte (join_words (part :: parts))) as Hj.
    { apply Forall_forall. intros b [->|(u & Hu & Hbu)]%join_typed; [done|]. specialize (Hbytes u (Hin u Hu)). rewrite Forall_forall in Hbytes. by apply Hbytes. }
    rewrite encode_text by done. change (Forall (fun b => line_break b = false) (join_words (part :: parts))). apply Forall_forall. intros b [->|(u & Hu & Hbu)]%join_typed; [done|].
    specialize (H1 u (Hin u Hu)). rewrite Forall_forall in H1. specialize (H1 b Hbu). unfold blank in H1. by apply orb_false_iff in H1 as [? _].
Qed.

Lemma orString_typed (p : Z -> bool) s d : Forall (fun b => p b = false) (encode d) -> (forall x, s = Some x -> Forall (fun b => p b = false) (encode x)) ->
  Forall (fun b => p b = false) (encode (orString s d)).
Proof. intros Hd Hs. destruct s as [[|c s]|]; [done | by apply Hs | done]. Qed.

(** ** Properties *)


Definition demo_oid : string := unchars (replicate 40 "b"%char).
Definition demo_command : ReceiveCommand := mkCommand zeroOid demo_oid "refs/heads/main".
Definition demo_caps : list string := ["report-status"; "side-band-64k"; "agent=git/2.50"]%string.

(** Cut inside a header, and inside a ref name. *)
Definition demo_body : list (list Z) :=
  let l := command_section [demo_command; demo_command] demo_caps ++ encode "PACK" in [take 3 l; take 100 (drop 3 l); drop 103 l].

Lemma word_check s : (0 <? String.length s)%nat && forallb printable (encode s) = true -> word_string s.
Proof.
  intros [H1 H2]%andb_true_iff. split; [by destruct s|]. apply Forall_forall. intros b Hb. rewrite forallb_forall in H2.
  by apply list_elem_of_In, H2 in Hb.
Qed.

Lemma demo_plain : Forall plain_command [demo_command; demo_command] /\ Forall word_string demo_caps.
Proof. split; repeat constructor; apply word_check; vm_compute; reflexivity. Qed.


(** White space of JavaScript that git allows in names is lost: the push of a ref
    whose name ends with a no-break space updates another ref. *)
Example no_break_space_is_trimmed :
  parse_command (encode "1 2 refs/heads/main" ++ [194; 160]) = Some (mkCommand "1" "2" "refs/heads/main") /\
  isValidRefName (text (encode "refs/heads/main" ++ [194; 160])) = true.
Proof. split; vm_compute; reflexivity. Qed.

(** C28: the report of a push reaches the client.  Read packet by packet it is the
    line on the pack, a line for every command in their order, and a flush; and a
    client on the side band gets on its first band exactly this report, on its second
    the progress messages, nothing on the third, in packets of at most 65520 bytes. *)
Theorem push_report_read unpackOk unpackMessage commands statuses progress :
  Forall (fun line => Z.of_nat (length (line_payload line)) < 65532) (report_lines unpackOk unpackMessage commands statuses) ->
  let report := buildReceiveResultResponse Plain (buildReceiveReportStatus unpackOk unpackMessage commands statuses) in
  let packets := progress_packets progress ++ write_sideband (ReportStatus report) in
  decodePktLines report = (read_line_item <$> report_lines unpackOk unpackMessage commands statuses) ++ [ItemFlush] /\
  demultiplex 1 (concatChunks packets) = report /\ demultiplex 2 (concatChunks packets) = List.concat (encode <$> progress) /\
  demultiplex 3 (concatChunks packets) = [] /\ demultiplex 1 (buildReceiveResultResponse SideBand64k report) = report /\
  Forall (fun packet => Z.of_nat (length packet) <= 65520) packets.
Proof.
  intros Hl report packets. assert (forall band, demultiplex band (concatChunks packets) =
    (if 2 =? band then List.concat (encode <$> progress) else []) ++ (if 1 =? band then report else [])) as Hd.
  { intros band. unfold packets, concatChunks. rewrite List.concat_app. pose proof (demultiplex_progress band progress) as E. unfold concatChunks in E.
    rewrite E. f_equal. cbn [write_sideband]. rewrite List.concat_app. pose proof (demultiplex_sideband 1 band report) as E'. unfold concatChunks in E'.
    rewrite E', demultiplex_flush, app_nil_r. done. }
  split_and!; [ | by rewrite Hd | by rewrite Hd; cbn; rewrite app_nil_r | by rewrite Hd | | ].
  - cbn [report buildReceiveResultResponse]. rewrite report_packets. by apply decode_report.
  - cbn [buildReceiveResultResponse]. unfold buildSidebandReceiveBody, concatChunks. rewrite List.concat_app.
    pose proof (demultiplex_sideband 1 1 report) as E. unfold concatChunks in E. rewrite E, demultiplex_flush. apply app_nil_r.
  - unfold packets. apply Forall_app. split; [apply progress_short|]. cbn [write_sideband]. apply Forall_app.
    split; [apply sideband_short | repeat constructor; cbn; lia].
Qed.

Definition demo_statuses : list ReceiveStatus := [mkStatus "refs/heads/main" true None; mkStatus "refs/heads/main" false (Some "stale old-oid")].

Lemma push_report_read_witness :
  demultiplex 1 (concatChunks (progress_packets ["Resolving"]%string ++ write_sideband (ReportStatus
    (buildReceiveReportStatus true None [demo_command; demo_command] demo_statuses)))) =
  buildReceiveReportStatus true None [demo_command; demo_command] demo_statuses /\
  report_lines true None [demo_command; demo_command] demo_statuses =
    ["unpack ok"; "ok refs/heads/main"; "ng refs/heads/main stale old-oid"]%string.
Proof.
  split; [|vm_compute; reflexivity].
  destruct (push_report_read true None [demo_command; demo_command] demo_statuses ["Resolving"]%string) as (_ & H & _); [|exact H].
  repeat constructor; vm_compute; reflexivity.
Defined.

(** C30: a fetch request is read back as the client wrote it: the command, the
    arguments, and of those the wanted ids, the ids it has, each in their order, and
    whether the negotiation is done, whatever other lines are between. *)
Theorem fetch_request_read caps options a :
  Forall other_line caps -> Forall (fun line => startsWith "command=" line = false) caps -> Forall other_line options ->
  Forall is_oid_text (wants a) -> NoDup (wants a) -> Forall is_oid_text (haves a) ->
  let body := v2_request "fetch" caps (options ++ fetch_arguments a) in
  parseV2Command body = (encode "fetch", encode <$> options ++ fetch_arguments a) /\ parseFetchArgs body = a.
Proof.
  intros Hc Hcc Ho Hw Hnd Hh body.
  assert (other_line ("command=" ++ "fetch")) as Hcmd by (split; [split_and!; [by apply ascii_check | done | vm_compute; reflexivity] | done]).
  assert (forall lines, Forall other_line lines -> Forall plain_line lines) as Hplain by (intros lines H; apply (Forall_impl _ _ _ H); by intros line []).
  assert (Forall plain_line (options ++ fetch_arguments a)) as Hargs by (apply Forall_app; split; [by apply Hplain | by apply plain_arguments]).
  assert (Forall plain_line (("command=" ++ "fetch")%string :: caps)) as Hhead by (constructor; [apply Hcmd | by apply Hplain]).
  split; [by apply parse_request|]. unfold parseFetchArgs, body. rewrite decode_request by done. rewrite foldl_app, read_others by (by constructor).
  cbn [foldl read_fetch_item]. rewrite foldl_app, line_items_app, foldl_app, (read_others options) by done. unfold fetch_arguments. rewrite !line_items_app, !foldl_app.
  rewrite read_wants by done. rewrite read_haves by done. rewrite read_done. cbn [wants haves fetch_done foldl read_fetch_item app]. rewrite orb_false_r. by destruct a.
Qed.

Definition demo_fetch : FetchArgs := mkFetchArgs [demo_oid] [zeroOid] true.

Lemma oid_text_check s : word_string s -> (String.length s =? 40)%nat = true -> is_oid_text s.
Proof. intros H1 H2. split; [done | by apply Nat.eqb_eq]. Qed.

Lemma other_line_check s : forallb (fun b => (0 <=? b) && (b <? 128)) (encode s) = true -> ends_printable (encode s) ->
  Z.of_nat (length (encode s)) < 65531 -> startsWith "want " s = false -> startsWith "have " s = false -> s <> "done"%string -> other_line s.
Proof. intros H1 H2 H3 H4 H5 H6. split_and!; [split_and!; [by apply ascii_check | done | done] | done | done | done]. Qed.

Lemma fetch_request_read_witness :
  parseV2Command (v2_request "fetch" ["agent=git/2.50"]%string (["ofs-delta"]%string ++ fetch_arguments demo_fetch)) =
    (encode "fetch", encode <$> ["ofs-delta"]%string ++ fetch_arguments demo_fetch) /\
  parseFetchArgs (v2_request "fetch" ["agent=git/2.50"]%string (["ofs-delta"]%string ++ fetch_arguments demo_fetch)) = demo_fetch.
Proof.
  apply (fetch_request_read ["agent=git/2.50"]%string ["ofs-delta"]%string demo_fetch).
  - constructor; [|constructor]. by apply other_line_check; vm_compute.
  - by repeat constructor.
  - constructor; [|constructor]. by apply other_line_check; vm_compute.
  - constructor; [|constructor]. apply oid_text_check; [apply word_check|]; vm_compute; reflexivity.
  - apply NoDup_singleton.
  - constructor; [|constructor]. apply oid_text_check; [apply word_check|]; vm_compute; reflexivity.
Defined.

(** C27: a client that pushes on top of the refs it was shown is not refused for
    them: it reads the advertisement as exactly the stored refs, and if each of its
    updates names the object id shown for the ref, or the zero id for a ref that was
    not shown, every command passes the exact-old check - deletions if the ref was
    shown. *)
Theorem advertised_push_accepted refs (updates : list (string * string)) :
  Forall plain_ref refs -> refs_wf refs ->
  Forall (fun u => ZERO_OID_RE u.2 = true -> u.1 ∈ ref_name <$> refs) updates ->
  let shown := read_advertisement (receivePackAdvertisement refs) in
  let commands := (fun u => mkCommand (default zeroOid (oid_of shown u.1)) u.2 u.1) <$> updates in
  shown = refs /\ Forall (fun status => status_ok status = true) (validateReceiveCommands refs commands).
Proof.
  intros Hr Hwf Hu shown commands. assert (shown = refs) as Hs by by apply client_sees_refs. split; [done|].
  unfold commands. rewrite Hs. clear commands Hs shown. unfold validateReceiveCommands. rewrite !Forall_fmap. apply (Forall_impl _ _ _ Hu).
  intros [name new] Hz. cbn [fst snd compose] in Hz |- *. unfold validate_command. cbn [cmd_ref oldOid newOid]. rewrite lookup_refMap by done.
  destruct (oid_of refs name) as [oid|] eqn:E; cbn [default].
  - assert (truthy_string (Some oid) = true) as ->.
    { unfold oid_of, find_ref in E. destruct (js_find _ refs) as [r|] eqn:Ef; [|done]. injection E as <-. apply js_find_some in Ef as [Hin _].
      rewrite Forall_forall in Hr. destruct (Hr r Hin) as (_ & [Hne _] & _). by destruct (ref_oid r). }
    unfold str_eq. rewrite bool_decide_true by done. by destruct (ZERO_OID_RE new).
  - destruct (ZERO_OID_RE new) eqn:En; [|done]. exfalso. specialize (Hz eq_refl). apply list_elem_of_fmap in Hz as (r & -> & Hin).
    unfold oid_of, find_ref in E. destruct (js_find _ refs) as [x|] eqn:Ef; [done|]. apply (js_find_none _ _ r) in Ef; [|done].
    unfold str_eq in Ef. by rewrite bool_decide_true in Ef.
Qed.

Definition demo_ref : Ref := mkRef "refs/heads/main" demo_oid.

Lemma advertised_push_accepted_witness :
  read_advertisement (receivePackAdvertisement [demo_ref]) = [demo_ref] /\
  Forall (fun status => status_ok status = true) (validateReceiveCommands [demo_ref]
    ((fun u => mkCommand (default zeroOid (oid_of (read_advertisement (receivePackAdvertisement [demo_ref])) u.1)) u.2 u.1) <$>
      [("refs/heads/main", zeroOid); ("refs/heads/new", demo_oid)]%string)).
Proof.
  apply (advertised_push_accepted [demo_ref] [("refs/heads/main", zeroOid); ("refs/heads/new", demo_oid)]%string).
  - constructor; [|constructor]. split_and!; [apply word_check; vm_compute; reflexivity | apply word_check; vm_compute; reflexivity | done | vm_compute; reflexivity].
  - apply NoDup_singleton.
  - constructor; [intros _; by left|]. constructor; [|constructor]. intros H. vm_compute in H. discriminate H.
Defined.

(** C29: whatever lines a client sends, the commands read from them are well formed:
    the two ids are not empty and hold no white space, the name holds no line break.
    So every line of a report stays one line, also for a push that is refused for its
    names: no ref name can forge the line of another. *)
Theorem requests_typed lines : Forall (Forall is_byte) lines ->
  Forall command_typed (parseReceiveRequest lines).1 /\
  forall unpackOk unpackMessage statuses,
    (forall m, unpackMessage = Some m -> Forall (fun b => line_break b = false) (encode m)) ->
    (forall s m, s ∈ statuses -> status_msg s = Some m -> Forall (fun b => line_break b = false) (encode m)) ->
    Forall (fun line => Forall (fun b => line_break b = false) (encode line))
      (report_lines unpackOk unpackMessage (parseReceiveRequest lines).1 statuses).
Proof.
  intros Hl. assert (Forall command_typed (parseReceiveRequest lines).1) as Hc.
  { unfold parseReceiveRequest. cbn [fst]. apply Forall_forall. intros c (line & Hin & Hp)%list_elem_of_omap. apply (parse_typed line); [|done].
    destruct Hl as [|first rest Hf Hr]; [by apply elem_of_nil in Hin|]. apply elem_of_cons in Hin as [->|Hin]; [|rewrite Forall_forall in Hr; by apply Hr].
    apply Forall_forall. intros b Hb%elem_before. rewrite Forall_forall in Hf. by apply Hf. }
  split; [done|]. intros unpackOk unpackMessage statuses Hu Hs. unfold report_lines. constructor.
  - destruct unpackOk; cbn [unpack_line]; [by repeat constructor|]. rewrite encode_append. apply Forall_app. split; [by repeat constructor|].
    apply orString_typed; [by repeat constructor | done].
  - apply Forall_lookup. intros i line. rewrite list_lookup_imap. destruct ((parseReceiveRequest lines).1 !! i) as [c|] eqn:E; [|done]. intros [= <-].
    rewrite Forall_lookup in Hc. destruct (Hc i c E) as (_ & _ & _ & _ & Hr). unfold report_line.
    assert (Forall (fun b => line_break b = false) (encode " ")) as H1 by by repeat constructor.
    destruct (statuses !! i) as [[r [] m]|] eqn:Es; rewrite !encode_append; rewrite ?Forall_app; split_and!; try done; try (by repeat constructor).
    cbn [status_msg]. apply orString_typed; [by repeat constructor|]. intros x ->. apply (Hs _ x (list_elem_of_lookup_2 _ _ _ Es)). done.
Qed.

Definition hostile_line : list Z := encode "1 2 refs/heads/x" ++ [10; 13] ++ encode "ok refs/heads/main".

Lemma requests_typed_witness : Forall is_byte hostile_line /\
  Forall command_typed (parseReceiveRequest [hostile_line]).1 /\
  (parseReceiveRequest [hostile_line]).1 = [mkCommand "1" "2" "refs/heads/x ok refs/heads/main"].
Proof.
  assert (Forall is_byte hostile_line) as H by (apply is_bytes_check; vm_compute; reflexivity).
  split; [exact H|]. split; [|vm_compute; reflexivity]. apply (requests_typed [hostile_line]). by repeat constructor.
Defined.
