(* ===== verification/Catalog.v ===== *)
(** * The pack catalog

    [do/repo/db/dal/packCatalog.ts] over the table of [db/schema.ts]: rows in
    insertion order, one per [packKey], with the CHECK constraints of the
    schema; [catalog/compaction/plan.ts]: which packs a compaction replaces;
    [catalog/shared.ts], [catalog/generation.ts] and [catalog/state.ts].  Rows
    that [ORDER BY] leaves tied keep their insertion order. *)
From S2P Require Import Prelude Storage Effects Text.
From Stdlib Require String.

(** ** The table *)

Definition SAFE_ROWS_1COL : nat := 80.

(** The CHECK constraints; [kind] and [state] hold by typing. *)
Definition check_row (row : PackCatalogRow) : bool :=
  (0 <=? tier row) && (seqLo row <=? seqHi row) && (0 <=? objectCount row) &&
  (0 <=? packBytes row) && (0 <=? idxBytes row).

Definition is_active (row : PackCatalogRow) : bool := bool_decide (row_state row = PackActive).

(** [ORDER BY seq_hi DESC, tier DESC]. *)
Definition newer (a b : PackCatalogRow) : bool :=
  (seqHi b <? seqHi a) || ((seqHi a =? seqHi b) && (tier b <? tier a)).

(** [ORDER BY seq_hi DESC, tier DESC, pack_key DESC]. *)
Definition newer_key (a b : PackCatalogRow) : bool :=
  (seqHi b <? seqHi a) || ((seqHi a =? seqHi b) &&
    ((tier b <? tier a) || ((tier a =? tier b) && String.ltb (packKey b) (packKey a)))).

Record PackCursor := mkCursor { cursor_seqHi : Z; cursor_tier : Z; cursor_packKey : string }.

Definition after_cursor (c : PackCursor) (row : PackCatalogRow) : bool :=
  (seqHi row <? cursor_seqHi c) ||
  ((seqHi row =? cursor_seqHi c) && (tier row <? cursor_tier c)) ||
  ((seqHi row =? cursor_seqHi c) && (tier row =? cursor_tier c) &&
   String.ltb (packKey row) (cursor_packKey c)).

Definition active_rows (rows : list PackCatalogRow) : list PackCatalogRow :=
  js_sort newer (js_filter is_active rows).

Definition superseded_rows (limit : nat) (cursor : option PackCursor)
    (rows : list PackCatalogRow) : list PackCatalogRow :=
  take limit (js_sort newer_key (js_filter (fun row =>
    negb (is_active row) && match cursor with
                            | Some c => after_cursor c row
                            | None => true
                            end) rows)).

Definition row_of (key : string) (rows : list PackCatalogRow) : option PackCatalogRow :=
  js_find (fun row => str_eq (packKey row) key) rows.

Definition seq_max (rows : list PackCatalogRow) : Z :=
  match rows with
  | [] => 0
  | row :: r => foldl (fun m x => Z.max m (seqHi x)) (seqHi row) r
  end.

(** [INSERT ... ON CONFLICT (pack_key) DO UPDATE]. *)
Fixpoint upsert_row (row : PackCatalogRow) (rows : list PackCatalogRow) : list PackCatalogRow :=
  match rows with
  | [] => [row]
  | x :: r => if str_eq (packKey x) (packKey row) then row :: r else x :: upsert_row row r
  end.

Definition in_keys (keys : list string) (row : PackCatalogRow) : bool :=
  js_some (str_eq (packKey row)) keys.

Definition supersede_row (by_ : option string) (row : PackCatalogRow) : PackCatalogRow :=
  mkRow (packKey row) (kind row) PackSuperseded (tier row) (seqLo row) (seqHi row)
    (objectCount row) (packBytes row) (idxBytes row) (row_createdAt row) by_.

(** [UPDATE ... SET state = 'superseded', superseded_by = ? WHERE pack_key IN (...)]. *)
Definition supersede_rows (keys : list string) (by_ : option string)
    (rows : list PackCatalogRow) : list PackCatalogRow :=
  (fun row => if in_keys keys row then supersede_row by_ row else row) <$> rows.

Definition delete_rows (keys : list string) (rows : list PackCatalogRow) : list PackCatalogRow :=
  js_filter (fun row => negb (in_keys keys row)) rows.

Section Dal.
Context `{Env}.

Definition getPackCatalogCount : DO Z := get (fun s => Z.of_nat (length (pack_catalog s))).

Definition getActivePackCatalogCount : DO Z :=
  get (fun s => Z.of_nat (length (js_filter is_active (pack_catalog s)))).

Definition listPackCatalog : DO (list PackCatalogRow) :=
  get (fun s => js_sort newer (pack_catalog s)).

Definition listActivePackCatalog : DO (list PackCatalogRow) :=
  get (fun s => active_rows (pack_catalog s)).

Definition listSupersededPackCatalog (limit : nat) (cursor : option PackCursor)
    : DO (list PackCatalogRow) :=
  get (fun s => superseded_rows limit cursor (pack_catalog s)).

Definition getPackCatalogRow (key : string) : DO (option PackCatalogRow) :=
  get (fun s => row_of key (pack_catalog s)).

Definition getPackCatalogSeqMax : DO Z := get (fun s => seq_max (pack_catalog s)).

Definition sql (f : list PackCatalogRow -> list PackCatalogRow) : DO unit :=
  put (fun s => set_pack_catalog (f (pack_catalog s)) s).

Definition upsertPackCatalogRow (row : PackCatalogRow) : DO unit :=
  if check_row row then sql (upsert_row row) else throw "CHECK constraint failed: pack_catalog".

Definition supersedePackCatalogRows (keys : list string) (by_ : option string) : DO unit :=
  for_each (batches SAFE_ROWS_1COL keys) (fun batch => sql (supersede_rows batch by_)).

Definition deletePackCatalogRows (keys : list string) : DO unit :=
  for_each (batches SAFE_ROWS_1COL keys) (fun batch => sql (delete_rows batch)).

Definition deleteAllPackCatalogRows : DO unit := sql (fun _ => []).

Definition replaceActivePackCatalog (sourcePackKeys : list string)
    (targetPack : option PackCatalogRow) : DO unit :=
  transaction (
    (match targetPack with
     | Some row => upsertPackCatalogRow row
     | None => ret tt
     end) ;!
    for_each (batches SAFE_ROWS_1COL sourcePackKeys) (fun batch =>
      sql (supersede_rows batch (packKey <$> targetPack)))).

Definition getActivePackCatalogSnapshot : DO (list PackCatalogRow) := listActivePackCatalog.
End Dal.

(** ** Compaction plans *)

Definition COMPACTION_FAN_IN : nat := 4.

Record CompactionTierState := mkTierState { ts_tier : Z; ts_activePackCount : Z }.

Record CompactionPlan := mkPlan {
  sourceTier : Z;
  targetTier : Z;
  sourcePacks : list PackCatalogRow;
  sourceBytes : Z;
  sourceObjects : Z;
  tiers : list CompactionTierState }.

Fixpoint count_tier (t : Z) (counts : list CompactionTierState) : list CompactionTierState :=
  match counts with
  | [] => [mkTierState t 1]
  | c :: r => if ts_tier c =? t then mkTierState t (ts_activePackCount c + 1) :: r
              else c :: count_tier t r
  end.

Definition summarizeTierCounts (activeCatalog : list PackCatalogRow) : list CompactionTierState :=
  js_sort (fun l r => ts_tier l <? ts_tier r)
    (foldl (fun counts pack => count_tier (tier pack) counts) [] activeCatalog).

Definition sumSourceBytes (packs : list PackCatalogRow) : Z :=
  foldl (fun total pack => total + packBytes pack) 0 packs.

Definition sumSourceObjects (packs : list PackCatalogRow) : Z :=
  foldl (fun total pack => total + objectCount pack) 0 packs.

Definition older_first (l r : PackCatalogRow) : bool := seqLo l <? seqLo r.

Definition selectCompactionPlan (activeCatalog : list PackCatalogRow) : option CompactionPlan :=
  let tiers := summarizeTierCounts activeCatalog in
  match js_find (fun t => Z.of_nat COMPACTION_FAN_IN <? ts_activePackCount t) tiers with
  | None => None
  | Some overflowingTier =>
    let sourcePacks := take COMPACTION_FAN_IN
      (js_sort older_first (js_filter (fun pack => tier pack =? ts_tier overflowingTier)
        activeCatalog)) in
    if (length sourcePacks <? COMPACTION_FAN_IN)%nat then None
    else Some (mkPlan (ts_tier overflowingTier) (ts_tier overflowingTier + 1) sourcePacks
                 (sumSourceBytes sourcePacks) (sumSourceObjects sourcePacks) tiers)
  end.

Definition catalogNeedsCompaction (activeCatalog : list PackCatalogRow) : bool :=
  match selectCompactionPlan activeCatalog with Some _ => true | None => false end.

(** One step of the loop of [rowsMatchForCommit]. *)
Definition row_matches (expected current : PackCatalogRow) : bool :=
  str_eq (packKey current) (packKey expected) && is_active current &&
  bool_decide (kind current = kind expected) && (tier current =? tier expected) &&
  (seqLo current =? seqLo expected) && (seqHi current =? seqHi expected) &&
  (objectCount current =? objectCount expected) &&
  (packBytes current =? packBytes expected) && (idxBytes current =? idxBytes expected).

Definition rowsMatchForCommit (sourcePacks currentRows : list PackCatalogRow) : bool :=
  (length sourcePacks =? length currentRows)%nat &&
  forallb (fun p => row_matches p.1 p.2) (zip sourcePacks currentRows).

(** ** Shared catalog helpers *)

Definition RECEIVE_LEASE_TTL_MS : Z := 30 * 60000.
Definition COMPACT_LEASE_TTL_MS : Z := 20 * 60000.
Definition LEASE_RETRY_AFTER_SECONDS : Z := 10.
Definition COMPACTION_REARM_DELAY_MS : Z := 60000.
Definition COMPACTION_WAKE_DELAY_MS : Z := 5000.
Definition COMPACTION_ACTIVITY_QUIET_MS : Z := 15000.
Definition COMPACTION_MAX_DEFERRAL_MS : Z := COMPACTION_REARM_DELAY_MS.
Definition DEFAULT_HEAD : Head := mkHead "refs/heads/main" None (Some true).

Definition compactionStartAt (wantedAt : Z) (pendingSince : option Z) : Z :=
  Z.min (wantedAt + COMPACTION_ACTIVITY_QUIET_MS)
    (default wantedAt pendingSince + COMPACTION_MAX_DEFERRAL_MS).

(** [uniq]: the non-empty items, first occurrences only. *)
Fixpoint uniq_from (seen : list string) (items : list (option string)) : list string :=
  match items with
  | [] => []
  | Some item :: r =>
    if str_eq item "" || js_some (str_eq item) seen then uniq_from seen r
    else item :: uniq_from (item :: seen) r
  | None :: r => uniq_from seen r
  end.

Definition uniq (items : list (option string)) : list string := uniq_from [] items.

Section Shared.
Context `{Env}.

Definition ensureRepoMetadataDefaults : DO unit :=
  let! rv := get refsVersion in
  (match rv with None => put (set_refsVersion (Some 0)) | Some _ => ret tt end) ;!
  let! pv := get packsetVersion in
  (match pv with None => put (set_packsetVersion (Some 0)) | Some _ => ret tt end) ;!
  let! ns := get nextPackSeq in
  match ns with None => put (set_nextPackSeq (Some 1)) | Some _ => ret tt end.

Definition bumpPacksetVersion : DO Z :=
  let! v := get packsetVersion in
  let next := orZ v 0 + 1 in
  put (set_packsetVersion (Some next)) ;!
  ret next.

Definition markCompactionActivity (activityAt : Z) : DO unit :=
  put (set_compactionWantedAt (Some activityAt)) ;!
  let! since := get compactionPendingSince in
  match since with
  | None => put (set_compactionPendingSince (Some activityAt))
  | Some _ => ret tt
  end.

Definition clearCompactionSchedule : DO unit :=
  put (set_compactionWantedAt None) ;!
  put (set_compactionPendingSince None).

(** [catalog/generation.ts]. *)
Definition getPendingGenerationPublicationState : DO (option PendingGenerationPublication) :=
  get generationPublicationPending.

Definition ensureGenerationPublicationPendingState : DO PendingGenerationPublication :=
  let! existing := get generationPublicationPending in
  match existing with
  | Some p => ret p
  | None =>
    let! v := get packsetVersion in
    let! activeCatalog := listActivePackCatalog in
    let pending := mkGeneration (orZ v 0) (packKey <$> activeCatalog) in
    put (set_generationPublicationPending (Some pending)) ;!
    ret pending
  end.

Definition completeGenerationPublicationState (g : Z) : DO bool :=
  transaction (
    let! pending := get generationPublicationPending in
    match pending with
    | Some p =>
      if generation p =? g then put (set_generationPublicationPending None) ;! ret true
      else ret false
    | None => ret false
    end).
End Shared.

(** ** Lemmas *)

(** *** The table *)

(** One row per key, every row within the CHECK constraints. *)
Definition rows_wf (rows : list PackCatalogRow) : Prop :=
  NoDup (packKey <$> rows) /\ forall row, row ∈ rows -> check_row row = true.

Lemma row_of_upsert row rows key :
  row_of key (upsert_row row rows) =
  if str_eq (packKey row) key then Some row else row_of key rows.
Proof.
  unfold row_of, js_find. induction rows as [|x rows IH]; simpl; [done|].
  destruct (str_eq (packKey x) (packKey row)) eqn:E; simpl.
  - to_prop. rewrite E. by case_bool_decide.
  - rewrite IH. destruct (str_eq (packKey x) key) eqn:E1, (str_eq (packKey row) key) eqn:E2;
      to_prop; congruence.
Qed.

Lemma elem_of_upsert row rows x :
  x ∈ upsert_row row rows -> x = row \/ x ∈ rows.
Proof.
  induction rows as [|y rows IH]; simpl.
  - intros ->%list_elem_of_singleton. by left.
  - destruct (str_eq _ _); intros [->|H]%elem_of_cons; rewrite ?elem_of_cons; tauto.
Qed.

Lemma keys_upsert row rows :
  packKey <$> upsert_row row rows =
  if decide (packKey row ∈ packKey <$> rows) then packKey <$> rows
  else (packKey <$> rows) ++ [packKey row].
Proof.
  induction rows as [|x rows IH]; csimpl; [done|].
  unfold str_eq. case_bool_decide as E; csimpl.
  - rewrite decide_True; [by rewrite E | rewrite E; apply list_elem_of_here].
  - rewrite IH. destruct (decide (packKey row ∈ packKey <$> rows)) as [H|H].
    + rewrite decide_True; [done|]. by apply elem_of_cons; right.
    + rewrite decide_False; [done|]. rewrite elem_of_cons. intros [H'|H']; congruence.
Qed.

Lemma upsert_wf row rows : check_row row = true -> rows_wf rows -> rows_wf (upsert_row row rows).
Proof.
  intros Hc [Hnd Hrows]. split.
  - rewrite keys_upsert. destruct (decide _); [done|].
    apply NoDup_app. split_and!; [done | | apply NoDup_singleton].
    intros x Hx ->%list_elem_of_singleton. done.
  - intros x [->|Hx]%elem_of_upsert; auto.
Qed.

Lemma keys_supersede keys by_ rows : packKey <$> supersede_rows keys by_ rows = packKey <$> rows.
Proof.
  unfold supersede_rows. rewrite <- list_fmap_compose. apply list_fmap_ext.
  intros i row _. simpl. by destruct (in_keys keys row).
Qed.

Lemma elem_of_supersede keys by_ rows x :
  x ∈ supersede_rows keys by_ rows <->
  exists row, row ∈ rows /\ x = if in_keys keys row then supersede_row by_ row else row.
Proof. unfold supersede_rows. rewrite list_elem_of_fmap. split; intros (r & ? & ?); by exists r. Qed.

Lemma supersede_wf keys by_ rows : rows_wf rows -> rows_wf (supersede_rows keys by_ rows).
Proof.
  intros [Hnd Hrows]. split; [by rewrite keys_supersede|].
  intros x (row & Hin & ->)%elem_of_supersede.
  specialize (Hrows _ Hin). by destruct (in_keys keys row).
Qed.

Lemma delete_wf keys rows : rows_wf rows -> rows_wf (delete_rows keys rows).
Proof.
  intros [Hnd Hrows]. split.
  - by apply NoDup_fmap_js_filter.
  - intros x [Hx _]%elem_of_js_filter. auto.
Qed.

Lemma nil_wf : rows_wf [].
Proof. split; [constructor | intros x Hx; by apply elem_of_nil in Hx]. Qed.

#[export] Hint Resolve upsert_wf supersede_wf delete_wf nil_wf : golib.

Lemma in_keys_true keys row : in_keys keys row = true <-> packKey row ∈ keys.
Proof.
  unfold in_keys. rewrite js_some_true. unfold str_eq. split.
  - intros (x & Hx & E). to_prop. by rewrite E.
  - intros H. exists (packKey row). split; [done|]. by apply bool_decide_eq_true.
Qed.

Lemma supersede_app k1 k2 by_ rows :
  supersede_rows k2 by_ (supersede_rows k1 by_ rows) = supersede_rows (k1 ++ k2) by_ rows.
Proof.
  unfold supersede_rows. rewrite <- list_fmap_compose. apply list_fmap_ext.
  intros i row _. simpl. unfold in_keys, js_some. rewrite existsb_app.
  destruct (existsb (str_eq (packKey row)) k1) eqn:E1; simpl.
  - by destruct (existsb _ k2).
  - done.
Qed.

Lemma active_supersede keys by_ rows :
  js_filter is_active (supersede_rows keys by_ rows) =
  js_filter (fun row => is_active row && negb (in_keys keys row)) rows.
Proof.
  unfold supersede_rows. induction rows as [|x rows IH]; simpl; [done|].
  destruct (in_keys keys x) eqn:E; simpl; rewrite ?andb_false_r, ?andb_true_r;
    [exact IH|]. destruct (is_active x); [f_equal|]; exact IH.
Qed.

Section DalSpec.
Context `{Env}.

(** The handlers' effect on the world after the last batch. *)
Lemma wp_sql f (Q : res unit -> world -> Prop) w :
  (forall e n, Q (Err e) (World (st w) n)) ->
  (forall n, Q (Ok tt) (World (set_pack_catalog (f (pack_catalog (st w))) (st w)) n)) ->
  wp (sql f) Q w.
Proof. intros H1 H2. apply wp_put; intros; [apply H1 | apply H2]. Qed.

Lemma set_pack_catalog_twice r1 r2 s :
  set_pack_catalog r2 (set_pack_catalog r1 s) = set_pack_catalog r2 s.
Proof. done. Qed.

(** Success supersedes every named row; a failure leaves a prefix of the
    batches done. *)
Lemma wp_supersede keys by_ (Q : res unit -> world -> Prop) w :
  (forall e done_ rest n, keys = done_ ++ rest ->
     Q (Err e) (World (set_pack_catalog
       (supersede_rows done_ by_ (pack_catalog (st w))) (st w)) n)) ->
  (forall n, Q (Ok tt) (World (set_pack_catalog
     (supersede_rows keys by_ (pack_catalog (st w))) (st w)) n)) ->
  wp (supersedePackCatalogRows keys by_) Q w.
Proof.
  intros Herr Hok. unfold supersedePackCatalogRows.
  eapply (wp_for_each _ _ (fun rest w' => exists done_ n, keys = done_ ++ List.concat rest /\
    w' = World (set_pack_catalog (supersede_rows done_ by_ (pack_catalog (st w))) (st w)) n)).
  - exists [], (tick w). split.
    + simpl. symmetry. apply batches_concat. unfold SAFE_ROWS_1COL. lia.
    + destruct w as [s n]. simpl. f_equal. unfold supersede_rows.
      rewrite list_fmap_id. by destruct s.
  - intros x r w' (d & n & E & ->). apply wp_sql; simpl.
    + intros e n'. by apply (Herr _ _ _ _ E).
    + intros n'. exists (d ++ x), n'. split; [by rewrite <- app_assoc|].
      by rewrite supersede_app.
  - intros w' (d & n & E & ->). simpl in E. rewrite app_nil_r in E. subst d. apply Hok.
Qed.
End DalSpec.

(** *** Compaction plans *)

Definition tier_count (t : Z) (rows : list PackCatalogRow) : Z :=
  Z.of_nat (length (js_filter (fun row => tier row =? t) rows)).

Fixpoint tier_total (t : Z) (counts : list CompactionTierState) : Z :=
  match counts with
  | [] => 0
  | c :: r => if ts_tier c =? t then ts_activePackCount c else tier_total t r
  end.

Lemma tier_total_count t t' counts :
  tier_total t' (count_tier t counts) = tier_total t' counts + (if t =? t' then 1 else 0).
Proof.
  induction counts as [|c counts IH]; simpl; [by destruct (t =? t')|].
  destruct (ts_tier c =? t) eqn:E1; simpl; destruct (ts_tier c =? t') eqn:E2;
    destruct (t =? t') eqn:E3; to_prop; lia.
Qed.

Lemma tiers_of_count t counts :
  ts_tier <$> count_tier t counts =
  if decide (t ∈ ts_tier <$> counts) then ts_tier <$> counts
  else (ts_tier <$> counts) ++ [t].
Proof.
  induction counts as [|c counts IH]; csimpl; [done|].
  destruct (ts_tier c =? t) eqn:E; csimpl; to_prop.
  - rewrite decide_True; [by rewrite E | rewrite E; apply list_elem_of_here].
  - rewrite IH. destruct (decide (t ∈ ts_tier <$> counts)).
    + rewrite decide_True; [done | by apply elem_of_cons; right].
    + rewrite decide_False; [done|]. rewrite elem_of_cons. intros [?|?]; congruence.
Qed.

Lemma tier_total_elem counts c :
  NoDup (ts_tier <$> counts) -> c ∈ counts -> tier_total (ts_tier c) counts = ts_activePackCount c.
Proof.
  induction counts as [|d counts IH]; csimpl.
  - intros _ H. by apply elem_of_nil in H.
  - intros [H1 H2]%NoDup_cons [->|H]%elem_of_cons; [by rewrite Z.eqb_refl|].
    destruct (ts_tier d =? ts_tier c) eqn:E; [|auto]. to_prop. exfalso.
    apply H1. rewrite E. apply list_elem_of_fmap. eauto.
Qed.

Lemma tier_total_absent counts t : t ∉ ts_tier <$> counts -> tier_total t counts = 0.
Proof.
  induction counts as [|d counts IH]; csimpl; [done|].
  rewrite not_elem_of_cons. intros [H1 H2].
  destruct (ts_tier d =? t) eqn:E; to_prop; [congruence | auto].
Qed.

Lemma tier_counts_spec rows :
  let counts := foldl (fun counts pack => count_tier (tier pack) counts) [] rows in
  NoDup (ts_tier <$> counts) /\ forall t, tier_total t counts = tier_count t rows.
Proof.
  simpl. induction rows as [|row rows [IH1 IH2]] using rev_ind; [by split; [constructor|]|].
  rewrite foldl_snoc. split.
  - rewrite tiers_of_count. destruct (decide _) as [|H]; [done|].
    apply NoDup_app. split_and!; [done | | apply NoDup_singleton].
    intros x Hx ->%list_elem_of_singleton. done.
  - intros t. rewrite tier_total_count, IH2. unfold tier_count, js_filter.
    rewrite List.filter_app, length_app. simpl. destruct (tier row =? t); simpl; lia.
Qed.

Lemma summarize_spec rows c :
  c ∈ summarizeTierCounts rows -> ts_activePackCount c = tier_count (ts_tier c) rows.
Proof.
  unfold summarizeTierCounts. rewrite elem_of_js_sort. intros Hc.
  destruct (tier_counts_spec rows) as [H1 H2]. by rewrite <- H2, (tier_total_elem _ _ H1 Hc).
Qed.

Lemma summarize_complete rows t :
  0 < tier_count t rows ->
  exists c, c ∈ summarizeTierCounts rows /\ ts_tier c = t.
Proof.
  intros H. destruct (tier_counts_spec rows) as [H1 H2]. rewrite <- H2 in H.
  match type of H1 with NoDup (ts_tier <$> ?m) => destruct (decide (t ∈ ts_tier <$> m)) as [Hin|Hin] end.
  - apply list_elem_of_fmap in Hin as (c & -> & Hc). exists c. split; [|done].
    unfold summarizeTierCounts. by rewrite elem_of_js_sort.
  - apply tier_total_absent in Hin. lia.
Qed.

Lemma summarize_sorted rows :
  StronglySorted (fun a b => (ts_tier b <? ts_tier a) = false) (summarizeTierCounts rows).
Proof.
  unfold summarizeTierCounts.
  apply (js_sort_sorted (fun l r => ts_tier l <? ts_tier r)); intros; to_prop;
    rewrite ?Z.ltb_ge; lia.
Qed.

(** The first element a predicate selects from a sorted list is its least. *)
Lemma find_sorted_first {A} (R : A -> A -> Prop) (p : A -> bool) l x y :
  StronglySorted R l -> js_find p l = Some x -> y ∈ l -> p y = true -> x = y \/ R x y.
Proof.
  unfold js_find. induction 1 as [|a l Hl IH Ha]; simpl; [done|].
  destruct (p a) eqn:E.
  - intros [= <-] [->|Hy]%elem_of_cons _; [by left|]. right.
    rewrite Forall_forall in Ha. auto.
  - intros Hf [->|Hy]%elem_of_cons Hp; [congruence | auto].
Qed.

Lemma count_le t rows : tier_count t rows <= Z.of_nat (length rows).
Proof. unfold tier_count. pose proof (js_filter_length_le (fun row => tier row =? t) rows). lia. Qed.

(** What a compaction may replace: the four oldest packs of the lowest tier
    that holds more than four. *)
Record plan_spec (rows : list PackCatalogRow) (plan : CompactionPlan) : Prop := {
  ps_overflow : Z.of_nat COMPACTION_FAN_IN < tier_count (sourceTier plan) rows;
  ps_lowest : forall t, t < sourceTier plan -> tier_count t rows <= Z.of_nat COMPACTION_FAN_IN;
  ps_target : targetTier plan = sourceTier plan + 1;
  ps_count : length (sourcePacks plan) = COMPACTION_FAN_IN;
  ps_source : forall p, p ∈ sourcePacks plan -> p ∈ rows /\ tier p = sourceTier plan;
  ps_oldest : forall p q, p ∈ sourcePacks plan -> q ∈ rows -> tier q = sourceTier plan ->
    q ∉ sourcePacks plan -> seqLo p <= seqLo q;
  ps_distinct : NoDup (packKey <$> rows) -> NoDup (packKey <$> sourcePacks plan) }.

Lemma select_none rows :
  selectCompactionPlan rows = None <->
  forall t, tier_count t rows <= Z.of_nat COMPACTION_FAN_IN.
Proof.
  unfold selectCompactionPlan. cbv zeta. destruct (js_find _ _) as [c|] eqn:E.
  - apply js_find_some in E as [Hc Hlt]. to_prop. pose proof (summarize_spec _ _ Hc) as Hs.
    rewrite length_take, js_sort_length. unfold tier_count in Hs.
    rewrite (proj2 (Nat.ltb_ge _ _)) by lia. split; [done|].
    intros H. specialize (H (ts_tier c)). unfold tier_count in H. lia.
  - split; [|done]. intros _ t.
    destruct (decide (0 < tier_count t rows)) as [H|H]; [|unfold COMPACTION_FAN_IN; lia].
    apply summarize_complete in H as (c & Hc & <-).
    pose proof (js_find_none _ _ _ E Hc) as Hf. to_prop.
    by rewrite <- (summarize_spec _ _ Hc).
Qed.

Lemma select_some rows plan : selectCompactionPlan rows = Some plan -> plan_spec rows plan.
Proof.
  unfold selectCompactionPlan. cbv zeta. destruct (js_find _ _) as [c|] eqn:E; [|done].
  pose proof (js_find_some _ _ _ E) as [Hc Hlt]. to_prop.
  pose proof (summarize_spec _ _ Hc) as Hs.
  set (l := js_filter (fun pack => tier pack =? ts_tier c) rows) in *.
  assert (tier_count (ts_tier c) rows = Z.of_nat (length l)) as Hl by done.
  rewrite length_take, js_sort_length. rewrite (proj2 (Nat.ltb_ge _ _)) by lia.
  intros [= <-]. assert (forall p, p ∈ take COMPACTION_FAN_IN (js_sort older_first l) -> p ∈ l) as Hin.
  { intros p Hp. apply (elem_of_js_sort older_first). by apply elem_of_take_in in Hp. }
  split; simpl; [lia | | done | rewrite length_take, js_sort_length; lia | | |].
  - intros t Ht. destruct (decide (Z.of_nat COMPACTION_FAN_IN < tier_count t rows)) as [H|]; [|lia].
    destruct (summarize_complete rows t) as (d & Hd & <-); [lia|].
    destruct (find_sorted_first _ _ _ _ d (summarize_sorted rows) E Hd) as [->|Hle];
      [|lia|to_prop; lia]. apply Z.ltb_lt. by rewrite (summarize_spec _ _ Hd).
  - intros p [Hp Ht]%Hin%elem_of_js_filter. to_prop. done.
  - intros p q Hp Hq Ht Hn.
    assert (older_first q p = false) as Ho; [|unfold older_first in Ho; to_prop; lia].
    eapply (StronglySorted_take_drop (fun x y => older_first y x = false)); [|exact Hp|].
    + apply (js_sort_sorted older_first); unfold older_first; intros; to_prop; apply Z.ltb_ge; lia.
    + assert (q ∈ js_sort older_first l) as Hql.
      { apply elem_of_js_sort, elem_of_js_filter. split; [done|]. by apply Z.eqb_eq. }
      rewrite <- (take_drop COMPACTION_FAN_IN (js_sort older_first l)) in Hql.
      by apply elem_of_app in Hql as [?|?].
  - intros Hnd. rewrite fmap_take. apply NoDup_take_of.
    rewrite (fmap_Permutation packKey _ _ (js_sort_perm older_first l)).
    by apply NoDup_fmap_js_filter.
Qed.

(** *** Replacing active packs *)

Section Replacement.
Context `{Env}.

(** The catalog a replacement leaves. *)
Definition replaced_rows (keys : list string) (target : option PackCatalogRow)
    (rows : list PackCatalogRow) : list PackCatalogRow :=
  supersede_rows keys (packKey <$> target)
    (match target with Some row => upsert_row row rows | None => rows end).

Lemma wp_upsert row (Q : res unit -> world -> Prop) w :
  (forall e n, Q (Err e) (World (st w) n)) ->
  (forall n, check_row row = true ->
     Q (Ok tt) (World (set_pack_catalog (upsert_row row (pack_catalog (st w))) (st w)) n)) ->
  wp (upsertPackCatalogRow row) Q w.
Proof.
  intros H1 H2. unfold upsertPackCatalogRow. destruct (check_row row) eqn:E.
  - apply wp_sql; auto.
  - apply wp_throw. destruct w; apply H1.
Qed.

(** The whole replacement is one transaction. *)
Lemma wp_replace keys target (Q : res unit -> world -> Prop) w :
  (forall e n, Q (Err e) (World (st w) n)) ->
  (forall n, (forall row, target = Some row -> check_row row = true) ->
     Q (Ok tt) (World (set_pack_catalog
       (replaced_rows keys target (pack_catalog (st w))) (st w)) n)) ->
  wp (replaceActivePackCatalog keys target) Q w.
Proof.
  intros Herr Hok. unfold replaceActivePackCatalog. apply wp_transaction, wp_bind.
  destruct target as [row|].
  - apply wp_upsert; [intros; apply Herr|]. intros n Hc.
    change (for_each _ _) with (supersedePackCatalogRows keys (Some (packKey row))).
    apply wp_supersede; [intros; apply Herr|]. intros n'. apply Hok. by intros ? [= <-].
  - apply wp_ret.
    change (for_each _ _) with (supersedePackCatalogRows keys None).
    apply wp_supersede; [intros; apply Herr|]. intros n'. by apply Hok.
Qed.

Lemma replaced_wf keys target rows :
  (forall row, target = Some row -> check_row row = true) ->
  rows_wf rows -> rows_wf (replaced_rows keys target rows).
Proof.
  intros Hc Hwf. unfold replaced_rows. apply supersede_wf. destruct target; auto with golib.
Qed.
End Replacement.

Lemma js_filter_split {A} (p q : A -> bool) l :
  (length (js_filter (fun x => p x && q x) l) + length (js_filter (fun x => p x && negb (q x)) l)
   = length (js_filter p l))%nat.
Proof.
  induction l as [|x l IH]; simpl; [done|].
  destruct (p x), (q x); simpl; lia.
Qed.

Lemma upsert_fresh row rows :
  packKey row ∉ packKey <$> rows -> upsert_row row rows = rows ++ [row].
Proof.
  induction rows as [|x rows IH]; csimpl; [done|].
  rewrite not_elem_of_cons. intros [H1 H2]. unfold str_eq. rewrite bool_decide_false by congruence.
  by rewrite IH.
Qed.

(** Distinct keys of active rows select as many rows as there are keys. *)
Lemma count_active_keys keys rows :
  NoDup (packKey <$> rows) -> NoDup keys ->
  (forall k, k ∈ keys -> exists row, row ∈ rows /\ packKey row = k /\ is_active row = true) ->
  length (js_filter (fun row => is_active row && in_keys keys row) rows) = length keys.
Proof.
  intros Hnd Hk Hall.
  assert (keys ≡ₚ packKey <$> js_filter (fun row => is_active row && in_keys keys row) rows) as Hp.
  { apply NoDup_Permutation; [done | by apply NoDup_fmap_js_filter |].
    intros k. rewrite list_elem_of_fmap. split.
    - intros Hin. destruct (Hall k Hin) as (row & Hrow & <- & Ha). exists row. split; [done|].
      apply elem_of_js_filter. split; [done|]. rewrite Ha. by apply in_keys_true.
    - intros (row & -> & [Hrow Hc]%elem_of_js_filter).
      apply andb_true_iff in Hc as [_ Hc]. by apply in_keys_true. }
  rewrite Hp, length_fmap. done.
Qed.

(** A replacement of [n] active packs by a fresh one leaves [n - 1] fewer. *)
Lemma active_after_replacement keys row rows :
  NoDup (packKey <$> rows) -> NoDup keys -> is_active row = true ->
  packKey row ∉ packKey <$> rows ->
  (forall k, k ∈ keys -> exists r, r ∈ rows /\ packKey r = k /\ is_active r = true) ->
  (length (js_filter is_active (replaced_rows keys (Some row) rows)) + length keys
   = length (js_filter is_active rows) + 1)%nat.
Proof.
  intros Hnd Hk Ha Hfresh Hall. unfold replaced_rows. rewrite upsert_fresh by done.
  rewrite active_supersede. unfold js_filter. rewrite List.filter_app, length_app. simpl.
  assert (in_keys keys row = false) as ->.
  { apply not_true_is_false. intros Hin%in_keys_true. destruct (Hall _ Hin) as (r & Hr & E & _).
    apply Hfresh. rewrite <- E. apply list_elem_of_fmap. eauto. }
  rewrite Ha. simpl. pose proof (js_filter_split is_active (in_keys keys) rows) as Hs.
  rewrite count_active_keys in Hs by done. unfold js_filter in Hs. lia.
Qed.

(** ** Properties *)

(** Compaction replaces what it should.  A plan exists exactly when some tier
    holds more than four active packs; it then names the lowest such tier, four
    distinct packs of that tier, none of them newer than a pack of the tier it
    leaves, and the next tier as the target. *)
Theorem compaction_plan_correct (rows : list PackCatalogRow) :
  match selectCompactionPlan rows with
  | Some plan => plan_spec rows plan
  | None => forall t, tier_count t rows <= Z.of_nat COMPACTION_FAN_IN
  end.
Proof.
  destruct (selectCompactionPlan rows) as [plan|] eqn:E; [by apply select_some | by apply select_none].
Qed.

(** A replacement of active packs is all or nothing.  Success leaves the
    target row in the catalog and every named pack superseded by it, touches
    nothing else and keeps one row per key within the table's constraints; a
    failure at any batch leaves the storage as it was. *)
Theorem catalog_replacement_atomic `{Env} (keys : list string) (target : option PackCatalogRow)
    (w : world) :
  rows_wf (pack_catalog (st w)) ->
  match replaceActivePackCatalog keys target w with
  | (Err _, w') => st w' = st w
  | (Ok _, w') =>
    st w' = set_pack_catalog (replaced_rows keys target (pack_catalog (st w))) (st w) /\
    rows_wf (pack_catalog (st w')) /\
    (forall row, row ∈ pack_catalog (st w') -> packKey row ∈ keys ->
       is_active row = false /\ supersededBy row = packKey <$> target) /\
    (forall row, row ∈ pack_catalog (st w) -> packKey row ∉ keys ->
       Some (packKey row) ≠ packKey <$> target -> row ∈ pack_catalog (st w'))
  end.
Proof.
  intros Hwf. to_wp (replaceActivePackCatalog keys target) w. apply wp_replace; [done|].
  intros n Hc. simpl. split_and!; [done | by apply replaced_wf | |].
  - unfold replaced_rows. intros row (r & Hr & ->)%elem_of_supersede Hk.
    destruct (in_keys keys r) eqn:E; [done|].
    exfalso. apply in_keys_true in Hk. congruence.
  - intros row Hr Hk Ht. unfold replaced_rows. apply elem_of_supersede. exists row. split.
    + destruct target as [t|]; [|done]. simpl in Ht.
      assert (packKey row ≠ packKey t) as Hne by congruence. clear -Hr Hne.
      induction (pack_catalog (st w)) as [|x l IH]; simpl;
        [by apply elem_of_nil in Hr|].
      apply elem_of_cons in Hr as [->|Hr].
      * unfold str_eq. rewrite bool_decide_false by done. apply list_elem_of_here.
      * destruct (str_eq _ _); apply elem_of_cons; right; auto.
    + destruct (in_keys keys row) eqn:E; [|done]. by apply in_keys_true in E.
Qed.

Definition demo_row (key : string) (seq : Z) : PackCatalogRow :=
  mkRow key KindReceive PackActive 0 seq seq 1 32 64 0 None.

Lemma catalog_replacement_atomic_witness :
  let rows := [demo_row "a" 1; demo_row "b" 2] in
  let w := World (set_pack_catalog rows empty_storage) 0 in
  rows_wf (pack_catalog (st w)) /\
  match replaceActivePackCatalog (H := demo_env) ["a"%string] (Some (demo_row "c" 1)) w with
  | (Err _, w') => st w' = st w
  | (Ok _, w') =>
    st w' = set_pack_catalog (replaced_rows ["a"%string] (Some (demo_row "c" 1)) rows) (st w) /\
    rows_wf (pack_catalog (st w')) /\
    (forall row, row ∈ pack_catalog (st w') -> packKey row ∈ ["a"%string] ->
       is_active row = false /\ supersededBy row = Some "c"%string) /\
    (forall row, row ∈ rows -> packKey row ∉ ["a"%string] ->
       Some (packKey row) ≠ Some "c"%string -> row ∈ pack_catalog (st w'))
  end.
Proof.
  intros rows w. assert (rows_wf (pack_catalog (st w))) as Hwf.
  { split; [by apply (bool_decide_unpack _); vm_compute|].
    intros row Hr. repeat (apply elem_of_cons in Hr as [->|Hr]; [reflexivity|]).
    by apply elem_of_nil in Hr. }
  split; [exact Hwf|].
  apply (catalog_replacement_atomic (H := demo_env) ["a"%string] (Some (demo_row "c" 1)) w Hwf).
Defined.
