(* ===== verification/Activity.v ===== *)
(** * Activity of a repository: leases, native receives, refs and HEAD

    [catalog/activity.ts], [nativeReceiveActivity.ts], the ownership predicates
    of [catalog/gcCoordination.ts] and the administrative ref operations of
    [do/repo/refs.ts]. *)
From S2P Require Import Prelude Storage Effects Catalog.

(** ** Definitions *)

Definition gc_phase_in (phases : list GcPhase) (p : GcPhase) : bool :=
  js_some (fun q => bool_decide (q = p)) phases.

Definition gcOwnsSource (operation : option GcOperation) : bool :=
  match operation with
  | Some o => bool_decide (is_Some (gc_snapshot o)) && negb (bool_decide (is_Some (gc_commit o)))
              && negb (gc_phase_in [GcComplete; GcBlocked] (gc_phase o))
  | None => false
  end.

Definition gcOwnsMaintenance (operation : option GcOperation) : bool :=
  match operation with
  | Some o => bool_decide (is_Some (gc_snapshot o))
              && negb (gc_phase_in [GcComplete; GcBlocked] (gc_phase o))
  | None => false
  end.

Definition activeLeaseOrUndefined (lease : option RepoLease) (now : Z) : option RepoLease :=
  match lease with
  | Some l => if now <? lease_expiresAt l then Some l else None
  | None => None
  end.

Definition STOCK_RECEIVE_EXECUTION_CLAIM_MS : Z := 15 * 60000.

Definition activeStockReceivePreparationLeases (leases : option (list RepoLease)) (now : Z)
    : list RepoLease :=
  js_filter (fun l => now <? lease_expiresAt l) (default [] leases).

(** [createdAt] order of [sort((a, b) => a.createdAt - b.createdAt)]. *)
Definition created_before (a b : RepoLease) : bool := lease_createdAt a <? lease_createdAt b.
Definition native_before (a b : NativeReceiveOperation) : bool :=
  native_createdAt a <? native_createdAt b.
Definition expires_before (a b : RepoLease) : bool := lease_expiresAt a <? lease_expiresAt b.

(** The operations an index names, in index order. *)
Definition indexed_natives (s : Storage) : list NativeReceiveOperation :=
  omap (fun id => nativeReceiveOperations s !! id) (default [] (nativeReceiveOperationIndex s)).

Definition native_active (o : NativeReceiveOperation) : bool :=
  negb (isNativeReceiveTerminal (native_state o)).

Definition native_stock (o : NativeReceiveOperation) : bool :=
  bool_decide (is_Some (native_stockReceive o)).

Definition active_natives (s : Storage) : list NativeReceiveOperation :=
  js_filter native_active (indexed_natives s).

(** One turn of the loop of [hasStockReceiveCleanupOrActivity]. *)
Definition stock_needs_attention (deletionDrain : option (Z * Z)) (o : NativeReceiveOperation)
    : bool :=
  native_stock o && (native_active o || native_cleanupPending o) &&
  match deletionDrain with
  | None => true
  | Some (now, drainMs) =>
    let activityExpiresAt :=
      if isNativeReceiveTerminal (native_state o) then native_updatedAt o
      else default (native_updatedAt o + STOCK_RECEIVE_EXECUTION_CLAIM_MS)
             (native_claimExpiresAt o) in
    now <? activityExpiresAt + drainMs
  end.

Inductive RepoActivitySnapshot :=
  | ActivityIdle (compactionWantedAt : option Z)
  | ActivityReceiving (lease : RepoLease)
  | ActivityCompacting (lease : RepoLease) (compactionWantedAt : option Z).

Section Activity.
Context `{Env}.

Definition listActiveStockReceivePreparationLeases (now : Z) : DO (list RepoLease) :=
  get (fun s => activeStockReceivePreparationLeases (stockReceivePreparationLeases s) now).

Definition removeStockReceivePreparationLease (token : string) : DO bool :=
  let! leases := get stockReceivePreparationLeases in
  if negb (js_some (fun l => str_eq (lease_token l) token) (default [] leases)) then ret false
  else
    let retained := js_filter (fun l => negb (str_eq (lease_token l) token)) (default [] leases) in
    put (set_stockReceivePreparationLeases
           (if (0 <? length retained)%nat then Some retained else None)) ;!
    ret true.

Definition listActiveNativeReceiveOperations : DO (list NativeReceiveOperation) :=
  get active_natives.

Definition listActiveStockReceiveOperations : DO (list NativeReceiveOperation) :=
  get (fun s => js_filter native_stock (active_natives s)).

Definition hasStockReceiveCleanupOrActivity (deletionDrain : option (Z * Z)) : DO bool :=
  get (fun s => js_some (stock_needs_attention deletionDrain) (indexed_natives s)).

Definition getRepoActivitySnapshot : DO RepoActivitySnapshot :=
  let! now := Date_now in
  let! rl := get receiveLease in
  match activeLeaseOrUndefined rl now with
  | Some l => ret (ActivityReceiving l)
  | None =>
    let! preparations := listActiveStockReceivePreparationLeases now in
    match js_first created_before preparations with
    | Some l => ret (ActivityReceiving l)
    | None =>
      let! activeNative := listActiveStockReceiveOperations in
      match js_first native_before activeNative with
      | Some o =>
        ret (ActivityReceiving (mkLease (native_leaseToken o) (native_createdAt o)
               (default (native_updatedAt o) (native_claimExpiresAt o)) (Some OpReceive)))
      | None =>
        let! cl := get compactLease in
        let! wantedAt := get compactionWantedAt in
        match activeLeaseOrUndefined cl now with
        | Some l => ret (ActivityCompacting l wantedAt)
        | None => ret (ActivityIdle wantedAt)
        end
      end
    end
  end.

(** ** Refs and HEAD *)

Definition hasActiveReceiveMutation : DO bool :=
  let! rl := get receiveLease in
  let! now := Date_now in
  if (match rl with
      | Some l => negb (lease_expiresAt l =? 0) && (now <? lease_expiresAt l)
      | None => false
      end) then ret true else
  let! intent := get (fun s => match rl with
                               | Some l => receiveFinalizeIntents s !! lease_token l
                               | None => None
                               end) in
  match intent with
  | Some _ => ret true
  | None =>
    let! now2 := Date_now in
    let! preparations := listActiveStockReceivePreparationLeases now2 in
    if (0 <? length preparations)%nat then ret true else
    let! natives := get active_natives in
    if (0 <? length natives)%nat then ret true else
    (match rl with
     | Some _ => put (set_receiveLease None)
     | None => ret tt
     end) ;!
    ret false
  end.

Definition getRefs : DO (list Ref) := get (fun s => default [] (refs s)).

Definition setRefs (newRefs : list Ref) : DO bool :=
  transaction (
    let! deleting := get repositoryDeleting in
    if truthy deleting then ret false else
    let! gc := get gcOperation in
    if gcOwnsSource gc then ret false else
    let! busy := hasActiveReceiveMutation in
    if busy : bool then ret false else
    let! now := Date_now in
    let! cl := get compactLease in
    if (match activeLeaseOrUndefined cl now with
        | Some l => lease_is OpReachabilityGc l
        | None => false
        end) then ret false else
    put (set_refs (Some newRefs)) ;!
    let! v := get refsVersion in
    put (set_refsVersion (Some (orZ v 0 + 1))) ;!
    ret true).

Definition same_head (stored : option Head) (resolved : Head) : bool :=
  match stored with
  | None => false
  | Some h =>
    str_eq (head_target h) (head_target resolved) &&
    ostr_eq (head_oid h) (head_oid resolved) &&
    (truthy_string (head_oid h) || truthy_string (head_oid resolved) ||
     eqb (truthy (head_unborn h)) (truthy (head_unborn resolved)))
  end.

Definition updateHeadIfChanged (stored : option Head) (resolved : Head) : DO unit :=
  try_catch
    (if same_head stored resolved then ret tt else put (set_head (Some resolved)))
    (fun _ => ret tt).

(** The resolved HEAD for the stored one and the refs. *)
Definition resolved_head (stored : option Head) (rs : list Ref) : Head :=
  let target := match stored with
                | Some h => if str_eq (head_target h) "" then "refs/heads/main"%string
                            else head_target h
                | None => "refs/heads/main"%string
                end in
  match js_find (fun r => str_eq (ref_name r) target) rs with
  | Some r => mkHead target (Some (ref_oid r)) None
  | None => mkHead target None (Some true)
  end.

Definition resolveHead : DO Head :=
  let! deleting := get repositoryDeleting in
  if truthy deleting then ret (mkHead "refs/heads/main" None (Some true)) else
  let! stored := get head in
  let! rs := getRefs in
  let resolved := resolved_head stored rs in
  updateHeadIfChanged stored resolved ;!
  ret resolved.

Definition setHead (h : Head) : DO bool :=
  transaction (
    let! deleting := get repositoryDeleting in
    if truthy deleting then ret false else
    let! busy := hasActiveReceiveMutation in
    if busy : bool then ret false else
    put (set_head (Some h)) ;!
    ret true).

Definition getHeadAndRefs : DO (Head * list Ref) :=
  let! h := resolveHead in
  let! rs := getRefs in
  ret (h, rs).
End Activity.
