(* ===== verification/Scheduler.v ===== *)
(** * Alarms

    [do/repo/scheduler.ts] and the wake-ups of [catalog/compaction/plan.ts]: when
    the object wakes up next, and that it does. *)
From S2P Require Import Prelude Storage Effects Catalog Activity.

(** ** Definitions *)

Definition RECOVERY_ESCALATION_ATTEMPTS : Z := 5.

Definition recoveryRetryDelayMs (attempts : Z) : Z :=
  let exponent := Z.max 0 (Z.min (attempts - 1) RECOVERY_ESCALATION_ATTEMPTS) in
  Z.min 30000 (2 ^ exponent * 1000).

(** [getConfig]: the idle period in minutes, [None] when it is not a finite
    number. *)
Definition clamp (n : option Z) (lo hi : Z) : Z :=
  match n with
  | Some n => Z.max lo (Z.min hi n)
  | None => lo
  end.

Definition idleMs_of (idleMins : option Z) : Z := clamp idleMins 1 (60 * 24 * 7) * 60 * 1000.

Inductive AlarmReason := ReasonCompaction | ReasonIdle.

Record AlarmPlan := mkAlarmPlan { plan_when : Z; plan_reason : AlarmReason }.

Record ScheduleResult := mkScheduled { scheduled : bool; prev : option Z; next : Z }.

Section Scheduler.
Context `{Env}.

Definition planNextAlarm (now : Z) : DO AlarmPlan :=
  let! wantedAt := get compactionWantedAt in
  let! pendingSince := get compactionPendingSince in
  let! rl := get receiveLease in
  let! preparations := get stockReceivePreparationLeases in
  let! cl := get compactLease in
  match activeLeaseOrUndefined rl now with
  | Some l => ret (mkAlarmPlan (lease_expiresAt l) ReasonCompaction)
  | None =>
    match js_first expires_before (activeStockReceivePreparationLeases preparations now) with
    | Some l => ret (mkAlarmPlan (lease_expiresAt l) ReasonCompaction)
    | None =>
      match activeLeaseOrUndefined cl now with
      | Some l => ret (mkAlarmPlan (lease_expiresAt l) ReasonCompaction)
      | None =>
        match wantedAt with
        | Some wanted =>
          let startAt := compactionStartAt wanted pendingSince in
          ret (mkAlarmPlan (if now <? startAt then startAt else now + COMPACTION_REARM_DELAY_MS)
                 ReasonCompaction)
        | None =>
          let! lastAccess := get lastAccessMs in
          let nextIdleAt := default now lastAccess + env_idleMs in
          ret (mkAlarmPlan (if nextIdleAt <=? now then now + env_idleMs else nextIdleAt)
                 ReasonIdle)
        end
      end
    end
  end.

Definition scheduleAlarmIfSooner (when now : Z) : DO ScheduleResult :=
  let! p := get alarm in
  match p with
  | Some a =>
    if a =? when then ret (mkScheduled false (Some a) a) else
    if (a =? 0) || (a <? now) || (when <? a) then
      try_catch (put (set_alarm (Some when)) ;! ret (mkScheduled true (Some a) when))
        (fun _ => ret (mkScheduled false (Some a) a))
    else ret (mkScheduled false (Some a) a)
  | None =>
    try_catch (put (set_alarm (Some when)) ;! ret (mkScheduled true None when))
      (fun _ => ret (mkScheduled false None when))
  end.

Definition ensureScheduled (now : Z) : DO (option (bool * Z * AlarmReason)) :=
  try_catch
    (let! plan := planNextAlarm now in
     let targetWhen := Z.max (plan_when plan) (now + 5) in
     let! res := scheduleAlarmIfSooner targetWhen now in
     ret (Some (scheduled res, next res, plan_reason plan)))
    (fun _ => ret None).

Definition scheduleCompactionAlarm (delayMs : Z) : DO unit :=
  let! now := Date_now in
  let! now2 := Date_now in
  scheduleAlarmIfSooner (now + delayMs) now2 ;!
  ret tt.

Definition scheduleCompactionWake : DO unit := scheduleCompactionAlarm COMPACTION_WAKE_DELAY_MS.
End Scheduler.

(** ** Lemmas *)

Lemma recovery_delay_bounds attempts :
  1000 <= recoveryRetryDelayMs attempts <= 30000.
Proof.
  unfold recoveryRetryDelayMs, RECOVERY_ESCALATION_ATTEMPTS. cbv zeta.
  assert (1 <= 2 ^ Z.max 0 (Z.min (attempts - 1) 5)); [|lia].
  assert (2 ^ 0 <= 2 ^ Z.max 0 (Z.min (attempts - 1) 5)); [|lia].
  apply Z.pow_le_mono_r; lia.
Qed.

Lemma recovery_delay_mono a b : a <= b -> recoveryRetryDelayMs a <= recoveryRetryDelayMs b.
Proof.
  intros Hab. unfold recoveryRetryDelayMs, RECOVERY_ESCALATION_ATTEMPTS. cbv zeta.
  assert (2 ^ Z.max 0 (Z.min (a - 1) 5) <= 2 ^ Z.max 0 (Z.min (b - 1) 5)); [|lia].
  apply Z.pow_le_mono_r; lia.
Qed.

Section SchedulerSpec.
Context `{Env}.

(** The first lease of a sort by expiry is not after now when it is active. *)
Lemma active_preparation_expiry leases now l :
  js_first expires_before (activeStockReceivePreparationLeases leases now) = Some l ->
  now < lease_expiresAt l.
Proof.
  intros Hin%js_first_elem. unfold activeStockReceivePreparationLeases in Hin.
  apply elem_of_js_filter in Hin as [_ Ht]. by to_prop.
Qed.

Lemma wp_plan_future now (Q : res AlarmPlan -> world -> Prop) w :
  0 < env_idleMs ->
  (forall p, now < plan_when p -> Q (Ok p) w) -> wp (planNextAlarm now) Q w.
Proof.
  intros Hidle HQ. unfold planNextAlarm, COMPACTION_REARM_DELAY_MS. wp_run; apply HQ; simpl;
    unfold activeLeaseOrUndefined in *;
    repeat match goal with
      | H : (match ?x with Some _ => _ | None => _ end) = Some _ |- _ => destruct x; [|done]
      | H : (if ?b then _ else _) = Some _ |- _ => destruct b eqn:?; simplify_eq/=
      | H : js_first _ _ = Some _ |- _ => apply active_preparation_expiry in H
      | |- context [if ?b then _ else _] => destruct b eqn:?
      end; to_prop; lia.
Qed.

(** The alarm after a request that does not fail. *)
Definition armed (before : option Z) (when now a : Z) : Prop :=
  a <= when /\ (a = when \/ (before = Some a /\ now <= a)) /\
  forall a0, before = Some a0 -> now <= a0 -> a0 <> 0 -> a <= a0.

Lemma wp_schedule when now (Q : res ScheduleResult -> world -> Prop) w :
  env_fault (tick w) = None ->
  (forall r a s n, alarm s = Some a -> armed (alarm (st w)) when now a ->
     s = set_alarm (Some a) (st w) -> Q (Ok r) (World s n)) ->
  wp (scheduleAlarmIfSooner when now) Q w.
Proof.
  intros Hf HQ. unfold scheduleAlarmIfSooner, armed in *.
  assert (forall a, alarm (st w) = Some a -> st w = set_alarm (Some a) (st w)) as Heta.
  { intros a Ha. destruct (st w). simpl in *. by subst. }
  apply wp_bind, wp_get. destruct (alarm (st w)) as [a|] eqn:Ea; [|].
  - destruct w as [s n]; simpl in *.
    destruct (a =? when) eqn:E1; [|destruct ((a =? 0) || (a <? now) || (when <? a)) eqn:E2];
      to_prop.
    + apply wp_ret. eapply HQ; [exact Ea | split_and!; [lia | lia |] | by apply Heta].
      intros ? [= <-]. lia.
    + apply wp_try_catch, wp_bind, wp_put; simpl; [congruence|]. intros _. apply wp_ret.
      eapply (HQ _ when); [done | split_and!; [lia | by left |] | done].
      intros ? [= <-]. lia.
    + apply wp_ret. eapply HQ; [exact Ea | split_and!; [lia | right; split; [done|lia] |] | by apply Heta].
      intros ? [= <-]. lia.
  - apply wp_try_catch, wp_bind, wp_put; simpl; [congruence|]. intros _. apply wp_ret.
    eapply (HQ _ when); [done | split_and!; [lia | by left | done] | done].
Qed.

(** Without a fault there is always a wake-up in the future, never later than
    the one already planned. *)
Lemma wp_ensureScheduled now (Q : res (option (bool * Z * AlarmReason)) -> world -> Prop) w :
  0 < env_idleMs -> env_fault (tick w) = None ->
  (forall r a n,
     now <= a -> (forall a0, alarm (st w) = Some a0 -> now <= a0 -> a0 <> 0 -> a <= a0) ->
     Q (Ok r) (World (set_alarm (Some a) (st w)) n)) ->
  wp (ensureScheduled now) Q w.
Proof.
  intros Hidle Hf HQ. unfold ensureScheduled.
  apply wp_try_catch, wp_bind, wp_plan_future; [done|]. intros p Hp.
  apply wp_bind, wp_schedule; [done|]. intros r a s n Ha (Ht & Hor & Hle) ->.
  apply wp_ret, HQ; [|done]. destruct Hor as [->|[_ ?]]; lia.
Qed.
End SchedulerSpec.

(** ** Properties *)

(** After scheduling without a storage fault the object has a wake-up in the
    future, and a wake-up that was already planned for the future is never
    postponed; nothing but the alarm changes. *)
Theorem ensureScheduled_arms `{Env} (now : Z) (w : world) :
  0 < env_idleMs -> env_fault (tick w) = None ->
  exists a, st (ensureScheduled now w).2 = set_alarm (Some a) (st w) /\ now <= a /\
    forall a0, alarm (st w) = Some a0 -> now <= a0 -> a0 <> 0 -> a <= a0.
Proof.
  intros Hidle Hf.
  apply (wp_ensureScheduled now (fun _ w' => exists a, st w' = set_alarm (Some a) (st w) /\ now <= a /\
    forall a0, alarm (st w) = Some a0 -> now <= a0 -> a0 <> 0 -> a <= a0)); eauto.
Qed.

Lemma ensureScheduled_arms_witness :
  exists a, st (ensureScheduled (H := demo_env) 1000 (World empty_storage 0)).2
            = set_alarm (Some a) empty_storage /\ 1000 <= a /\
    forall a0, alarm empty_storage = Some a0 -> 1000 <= a0 -> a0 <> 0 -> a <= a0.
Proof.
  apply (ensureScheduled_arms (H := demo_env) 1000 (World empty_storage 0)); reflexivity.
Defined.

(** The retry delay of a stuck recovery is between one and thirty seconds
    and never shrinks with the number of attempts. *)
Theorem recoveryRetryDelay_bounded (a b : Z) :
  1000 <= recoveryRetryDelayMs a <= 30000 /\
  recoveryRetryDelayMs (Z.min a b) <= recoveryRetryDelayMs b.
Proof. split; [apply recovery_delay_bounds | apply recovery_delay_mono; lia]. Qed.
