(* ===== verification/Lifecycle.v ===== *)
(** * The repository lifecycle: read, maintenance and snapshot leases, deletion

    [do/repo/repositoryLifecycle.ts] and the idle cleanup of
    [do/repo/maintenance.ts]. *)
From S2P Require Import Prelude Storage Effects Catalog Activity Scheduler.

(** ** Definitions *)

Definition SNAPSHOT_MATERIALIZATION_LEASE_TTL_MS : Z := 30 * 60000.
Definition REPOSITORY_READ_LEASE_TTL_MS : Z := 2 * 60000.
Definition MAX_REPOSITORY_READ_LEASES : nat := 128.
Definition EXPIRED_WRITER_DRAIN_MS : Z := 5 * 60000.

(** Results of the [begin...State] handlers. *)
Inductive BeginResult :=
  | Began (token : string)
  | RepositoryDeleting
  | ReaderCapacity
  | MaintenanceActive.

Record BeginRepositoryDeletionResult := mkDeletion {
  deletion_ready : bool;
  deletion_snapshotPrefixes : list string }.

Definition writer_draining (now : Z) (l : RepoLease) : bool :=
  now <? lease_expiresAt l + EXPIRED_WRITER_DRAIN_MS.

Definition writerMayStillBeDraining (lease : option RepoLease) (now : Z) : bool :=
  match lease with
  | Some l => writer_draining now l
  | None => false
  end.

Definition activeSnapshotLeases (leases : option (list SnapshotMaterializationLease)) (now : Z)
    : list SnapshotMaterializationLease :=
  js_filter (fun l => writer_draining now (snapshot_lease l)) (default [] leases).

Definition activeMaintenanceLeases (leases : option (list RepoLease)) (now : Z) : list RepoLease :=
  js_filter (writer_draining now) (default [] leases).

Definition activeReadLeases (leases : option (list RepoLease)) (now : Z) : list RepoLease :=
  js_filter (fun l => now <? lease_expiresAt l) (default [] leases).

(** An empty list is stored as the absence of the key. *)
Definition nonempty {A} (l : list A) : option (list A) :=
  match l with [] => None | _ => Some l end.

(** A lease value survives only while [keep]. *)
Definition keep_if {A} (keep : bool) (x : option A) : option A := if keep then x else None.

Definition execution_draining (now : Z) (record : option NativeExecutionRecord) : bool :=
  match record with
  | Some r => bool_decide (ne_state r = NeActive) || truthy (ne_stopPending r) ||
              (now <? ne_drainUntil r)
  | None => false
  end.

(** [{ ...leases[index], expiresAt }] in place. *)
Definition renew_at (leases : list RepoLease) (index : nat) (t : Z) : list RepoLease :=
  alter (fun l => with_expiresAt l t) index leases.

Section Lifecycle.
Context `{Env}.

Definition pruneRepositoryActivityLeases (now : Z) : DO bool :=
  let! snapshotLeases := get (fun s => activeSnapshotLeases (snapshotMaterializationLeases s) now) in
  let! maintenanceLeases := get (fun s => activeMaintenanceLeases (repositoryMaintenanceLeases s) now) in
  let! readLeases := get (fun s => activeReadLeases (repositoryReadLeases s) now) in
  let! nativeReaderLease := get nativeCatalogReaderLease in
  let! recoveryLease := get stockReceiveRecoveryLease in
  let nativeReaderActive := match nativeReaderLease with
                            | Some l => now <? lease_expiresAt (reader_lease l)
                            | None => false end in
  let recoveryActive := match recoveryLease with
                        | Some l => now <? lease_expiresAt (recovery_lease l)
                        | None => false end in
  let! rl := get receiveLease in
  let receiveActive := writerMayStillBeDraining rl now in
  let! preparations := get (fun s => default [] (stockReceivePreparationLeases s)) in
  let preparationActive := js_some (writer_draining now) preparations in
  let! publication := get stockReceivePublicationLease in
  let stockPublicationActive := writerMayStillBeDraining publication now in
  let! cl := get compactLease in
  let compactActive := writerMayStillBeDraining cl now in
  let! deletionStarted := get repositoryDeleting in
  let! nativeReceiveActive := hasStockReceiveCleanupOrActivity
    (if truthy deletionStarted then Some (now, EXPIRED_WRITER_DRAIN_MS) else None) in
  let! foreground := get nativeExecutionForeground in
  let! maintenance := get nativeExecutionMaintenance in
  let executionActive := js_some (execution_draining now) [foreground; maintenance] in
  put (set_snapshotMaterializationLeases (nonempty snapshotLeases)) ;!
  put (set_repositoryMaintenanceLeases (nonempty maintenanceLeases)) ;!
  put (set_repositoryReadLeases (nonempty readLeases)) ;!
  (if nativeReaderActive then ret tt else put (set_nativeCatalogReaderLease None)) ;!
  (if recoveryActive then ret tt else put (set_stockReceiveRecoveryLease None)) ;!
  (if receiveActive then ret tt else put (set_receiveLease None)) ;!
  (if preparationActive then
     put (set_stockReceivePreparationLeases (Some (js_filter (writer_draining now) preparations)))
   else put (set_stockReceivePreparationLeases None)) ;!
  (if stockPublicationActive then ret tt else put (set_stockReceivePublicationLease None)) ;!
  (if compactActive then ret tt else put (set_compactLease None)) ;!
  ret (negb receiveActive && negb preparationActive && negb stockPublicationActive &&
       negb compactActive && negb nativeReceiveActive && negb executionActive &&
       negb nativeReaderActive && negb recoveryActive &&
       (length readLeases =? 0)%nat && (length snapshotLeases =? 0)%nat &&
       (length maintenanceLeases =? 0)%nat).

Definition beginRepositoryReadState (operation : LeaseOperation) : DO BeginResult :=
  transaction (
    let! deleting := get repositoryDeleting in
    if truthy deleting then ret RepositoryDeleting else
    let! now := Date_now in
    let! leases := get (fun s => activeReadLeases (repositoryReadLeases s) now) in
    if (MAX_REPOSITORY_READ_LEASES <=? length leases)%nat then ret ReaderCapacity else
    let! token := randomUUID in
    put (set_repositoryReadLeases (Some (js_push leases
           (mkLease token now (now + REPOSITORY_READ_LEASE_TTL_MS) (Some operation))))) ;!
    ret (Began token)).

Definition renewRepositoryReadState (token : string) : DO bool :=
  transaction (
    let! deleting := get repositoryDeleting in
    if truthy deleting then ret false else
    let! now := Date_now in
    let! leases := get (fun s => activeReadLeases (repositoryReadLeases s) now) in
    match js_findIndex (fun l => str_eq (lease_token l) token) leases with
    | None => ret false
    | Some index =>
      put (set_repositoryReadLeases
             (Some (renew_at leases index (now + REPOSITORY_READ_LEASE_TTL_MS)))) ;!
      ret true
    end).

Definition finishRepositoryReadState (token : string) : DO unit :=
  transaction (
    let! now := Date_now in
    let! leases := get (fun s => js_filter (fun l => negb (str_eq (lease_token l) token))
                                  (activeReadLeases (repositoryReadLeases s) now)) in
    put (set_repositoryReadLeases (nonempty leases))).

Definition beginRepositoryMaintenanceState (operation : LeaseOperation) : DO BeginResult :=
  transaction (
    let! deleting := get repositoryDeleting in
    if truthy deleting then ret RepositoryDeleting else
    let! now := Date_now in
    let! leases := get (fun s => activeMaintenanceLeases (repositoryMaintenanceLeases s) now) in
    let! token := randomUUID in
    put (set_repositoryMaintenanceLeases (Some (js_push leases
           (mkLease token now (now + SNAPSHOT_MATERIALIZATION_LEASE_TTL_MS) (Some operation))))) ;!
    ret (Began token)).

Definition renewRepositoryMaintenanceState (token : string) : DO bool :=
  transaction (
    let! deleting := get repositoryDeleting in
    if truthy deleting then ret false else
    let! now := Date_now in
    let! leases := get (fun s => default [] (repositoryMaintenanceLeases s)) in
    match js_findIndex (fun l => str_eq (lease_token l) token) leases with
    | None => ret false
    | Some index =>
      if (match leases !! index with Some l => lease_expiresAt l <=? now | None => true end)
      then ret false else
      put (set_repositoryMaintenanceLeases
             (Some (renew_at leases index (now + SNAPSHOT_MATERIALIZATION_LEASE_TTL_MS)))) ;!
      ret true
    end).

Definition finishRepositoryMaintenanceState (token : string) : DO bool :=
  transaction (
    let! leases := get (fun s => default [] (repositoryMaintenanceLeases s)) in
    let next := js_filter (fun l => negb (str_eq (lease_token l) token)) leases in
    if (length next =? length leases)%nat then ret false else
    put (set_repositoryMaintenanceLeases (nonempty next)) ;!
    ret true).

Definition beginSnapshotMaterializationState (prefix : string) : DO BeginResult :=
  transaction (
    let! deleting := get repositoryDeleting in
    if truthy deleting then ret RepositoryDeleting else
    let! now := Date_now in
    let! cl := get compactLease in
    if writerMayStillBeDraining cl now then ret MaintenanceActive else
    let! leases := get (fun s => activeSnapshotLeases (snapshotMaterializationLeases s) now) in
    let! token := randomUUID in
    let! known := get (fun s => default [] (snapshotPrefixes s)) in
    let prefixes := if js_some (str_eq prefix) known then known else js_push known prefix in
    put (set_snapshotMaterializationLeases (Some (js_push leases (mkSnapshotLease
           (mkLease token now (now + SNAPSHOT_MATERIALIZATION_LEASE_TTL_MS) None) prefix)))) ;!
    put (set_snapshotPrefixes (Some prefixes)) ;!
    ret (Began token)).

Definition finishSnapshotMaterializationState (token : string) : DO bool :=
  transaction (
    let! leases := get (fun s => default [] (snapshotMaterializationLeases s)) in
    let next := js_filter (fun l => negb (str_eq (lease_token (snapshot_lease l)) token)) leases in
    if (length next =? length leases)%nat then ret false else
    put (set_snapshotMaterializationLeases (nonempty next)) ;!
    ret true).

Definition renewSnapshotMaterializationState (token : string) : DO bool :=
  let! now := Date_now in
  transaction (
    let! deleting := get repositoryDeleting in
    if truthy deleting then ret false else
    let! leases := get (fun s => default [] (snapshotMaterializationLeases s)) in
    match js_findIndex (fun l => str_eq (lease_token (snapshot_lease l)) token) leases with
    | None => ret false
    | Some index =>
      if (match leases !! index with
          | Some l => lease_expiresAt (snapshot_lease l) <=? now | None => true end)
      then ret false else
      put (set_snapshotMaterializationLeases (Some (alter (fun l => mkSnapshotLease
             (with_expiresAt (snapshot_lease l) (now + SNAPSHOT_MATERIALIZATION_LEASE_TTL_MS))
             (snapshot_prefix l)) index leases))) ;!
      ret true
    end).

Definition beginRepositoryDeletionState : DO BeginRepositoryDeletionResult :=
  transaction (
    let! now := Date_now in
    let! ready := pruneRepositoryActivityLeases now in
    put (set_repositoryDeleting (Some true)) ;!
    let! prefixes := get (fun s => default [] (snapshotPrefixes s)) in
    ret (mkDeletion ready prefixes)).
End Lifecycle.

(** ** Idle cleanup: [maintenance.ts] *)

Inductive IdleCleanupDecision := IdleActive | EmptyIdle | NonemptyIdle.

Section Idle.
Context `{Env}.

Definition decideIdleCleanup (idleMs : Z) (lastAccess : option Z) (now : Z)
    : DO IdleCleanupDecision :=
  let idleExceeded := (match lastAccess with
                       | Some t => (t =? 0) || (idleMs <=? now - t)
                       | None => true end) in
  if negb idleExceeded then ret IdleActive else
  let! rs := get (fun s => default [] (refs s)) in
  let! h := get head in
  let! catalogCount := getActivePackCatalogCount in
  let empty := (length rs =? 0)%nat &&
    (match h with
     | None => true
     | Some h => truthy (head_unborn h) || str_eq (head_target h) ""
     end) && (catalogCount =? 0) in
  ret (if empty then EmptyIdle else NonemptyIdle).

Definition clearIdleAlarm : DO unit :=
  try_catch (put (set_alarm None)) (fun _ => ret tt).

(** The purge of the R2 mirror after the storage is a call outside the
    object that changes none of its state; only the storage is modelled. *)
Definition performIdleCleanup : DO unit :=
  try_catch (put (fun _ => empty_storage)) (fun _ => ret tt).

Definition handleIdleAndMaintenance : DO unit :=
  try_catch
    (let! now := Date_now in
     let! deleting := get repositoryDeleting in
     if truthy deleting then clearIdleAlarm else
     let! lastAccess := get lastAccessMs in
     let! decision := decideIdleCleanup env_idleMs lastAccess now in
     match decision with
     | IdleActive => ensureScheduled now ;! ret tt
     | EmptyIdle => performIdleCleanup
     | NonemptyIdle => clearIdleAlarm
     end)
    (fun _ => ret tt).
End Idle.

(** ** Lemmas *)

(** Nothing that reads or writes the repository is left. *)
Record drained (s : Storage) : Prop := {
  dr_receive : receiveLease s = None;
  dr_preparations : stockReceivePreparationLeases s = None;
  dr_publication : stockReceivePublicationLease s = None;
  dr_recovery : stockReceiveRecoveryLease s = None;
  dr_compact : compactLease s = None;
  dr_reader : nativeCatalogReaderLease s = None;
  dr_reads : repositoryReadLeases s = None;
  dr_maintenance : repositoryMaintenanceLeases s = None;
  dr_snapshots : snapshotMaterializationLeases s = None }.

(** What a deletion waits for: live readers, and writers, native receives and
    executions that may still be draining. *)
Record quiescent (now : Z) (s : Storage) : Prop := {
  qu_receive : writerMayStillBeDraining (receiveLease s) now = false;
  qu_preparations : js_some (writer_draining now) (default [] (stockReceivePreparationLeases s)) = false;
  qu_publication : writerMayStillBeDraining (stockReceivePublicationLease s) now = false;
  qu_compact : writerMayStillBeDraining (compactLease s) now = false;
  qu_recovery : forall l, stockReceiveRecoveryLease s = Some l -> lease_expiresAt (recovery_lease l) <= now;
  qu_reader : forall l, nativeCatalogReaderLease s = Some l -> lease_expiresAt (reader_lease l) <= now;
  qu_reads : activeReadLeases (repositoryReadLeases s) now = [];
  qu_maintenance : activeMaintenanceLeases (repositoryMaintenanceLeases s) now = [];
  qu_snapshots : activeSnapshotLeases (snapshotMaterializationLeases s) now = [];
  qu_natives : js_some (stock_needs_attention (if truthy (repositoryDeleting s)
                 then Some (now, EXPIRED_WRITER_DRAIN_MS) else None)) (indexed_natives s) = false;
  qu_executions : js_some (execution_draining now)
                    [nativeExecutionForeground s; nativeExecutionMaintenance s] = false }.

(** What the pruning never touches. *)
Definition pruning_frame (s : Storage) :=
  (repositoryDeleting s, snapshotPrefixes s, (refs s, refsVersion s, pack_catalog s),
   receiveFinalizeIntents s).

Section PruneLemmas.
Context `{Env}.

Lemma wp_unless (b : bool) f (Q : res unit -> world -> Prop) s n :
  (forall e n, Q (Err e) (World s n)) ->
  (forall n, Q (Ok tt) (World (if b then s else f s) n)) ->
  wp (if b then ret tt else put f) Q (World s n).
Proof.
  intros H1 H2. destruct b.
  - apply wp_ret, (H2 n).
  - apply wp_put; intros; [apply H1 | apply H2].
Qed.

Lemma pruning_framed now : framed pruning_frame (pruneRepositoryActivityLeases now).
Proof. unfold pruneRepositoryActivityLeases, hasStockReceiveCleanupOrActivity. frames. Qed.

Lemma wp_prune now (Q : res bool -> world -> Prop) w :
  (forall e w', pruning_frame (st w) = pruning_frame (st w') -> Q (Err e) w') ->
  (forall b w', pruning_frame (st w) = pruning_frame (st w') ->
     (b = true <-> quiescent now (st w)) -> (b = true -> drained (st w')) -> Q (Ok b) w') ->
  wp (pruneRepositoryActivityLeases now) Q w.
Proof.
  intros Herr Hok.
  assert (wp (pruneRepositoryActivityLeases now) (fun r w' => match r with
    | Ok b => (b = true <-> quiescent now (st w)) /\ (b = true -> drained (st w'))
    | Err _ => True end) w) as Hwp.
  { unfold pruneRepositoryActivityLeases, hasStockReceiveCleanupOrActivity.
    destruct w as [s n]. cbn [st] in *.
    do 13 (apply wp_bind, wp_get; cbn beta iota).
    do 3 (apply wp_bind, wp_put; [done|intros _]).
    repeat match goal with
    | |- wp (bind (if ?b then ret tt else _) _) _ _ =>
      apply wp_bind, wp_unless; [done|intros ?]
    | |- wp (bind (if ?b then put ?f else put ?g) _) _ _ =>
      apply wp_bind; assert (forall Q w, wp (put (if b then f else g)) Q w ->
        wp (if b then put f else put g) Q w) as Hif by (by destruct b);
      apply Hif; clear Hif; apply wp_put; [done|intros _]
    end.
    apply wp_ret. cbn [st]. split; [split|].
    - intros Hb. repeat (apply andb_true_iff in Hb as [Hb ?]).
      repeat match goal with E : negb _ = true |- _ => apply negb_true_iff in E end.
      repeat match goal with E : (length ?l =? 0)%nat = true |- _ => 
        apply Nat.eqb_eq, length_zero_iff_nil in E end.
      split; try done.
      + intros l Hl. match goal with E : match stockReceiveRecoveryLease _ with _ => _ end = _ |- _ =>
          rewrite Hl in E end. by apply Z.ltb_ge.
      + intros l Hl. match goal with E : match nativeCatalogReaderLease _ with _ => _ end = _ |- _ =>
          rewrite Hl in E end. by apply Z.ltb_ge.
    - intros []. repeat match goal with E : _ = [] |- _ => rewrite E end.
      repeat match goal with E : ?x = false |- context [?x] => rewrite E end.
      destruct (stockReceiveRecoveryLease s) as [l|]; [rewrite (proj2 (Z.ltb_ge _ _)) by auto|];
        destruct (nativeCatalogReaderLease s) as [l'|]; rewrite ?(proj2 (Z.ltb_ge now _)) by auto; done.
    - intros Hb. repeat (apply andb_true_iff in Hb as [Hb ?]).
      repeat match goal with E : negb _ = true |- _ => apply negb_true_iff in E; rewrite E end.
      repeat match goal with E : (length ?l =? 0)%nat = true |- _ =>
        apply Nat.eqb_eq, length_zero_iff_nil in E; rewrite E end. done. }
  pose proof (pruning_framed now w I) as (_ & Hf & _). unfold frame in Hf.
  unfold wp in *. destruct (pruneRepositoryActivityLeases now w) as [[b|e] w']; simpl in *.
  - destruct Hwp. by apply Hok.
  - by apply Herr.
Qed.
End PruneLemmas.

(** The same, lease by lease. *)
Definition drained_by (now : Z) (l : RepoLease) : Prop :=
  lease_expiresAt l + EXPIRED_WRITER_DRAIN_MS <= now.

Definition native_activity_end (o : NativeReceiveOperation) : Z :=
  if isNativeReceiveTerminal (native_state o) then native_updatedAt o
  else default (native_updatedAt o + STOCK_RECEIVE_EXECUTION_CLAIM_MS) (native_claimExpiresAt o).

Record at_rest (now : Z) (s : Storage) : Prop := {
  ar_receive : forall l, receiveLease s = Some l -> drained_by now l;
  ar_preparations : forall l, l ∈ default [] (stockReceivePreparationLeases s) -> drained_by now l;
  ar_publication : forall l, stockReceivePublicationLease s = Some l -> drained_by now l;
  ar_compact : forall l, compactLease s = Some l -> drained_by now l;
  ar_recovery : forall l, stockReceiveRecoveryLease s = Some l -> lease_expiresAt (recovery_lease l) <= now;
  ar_reader : forall l, nativeCatalogReaderLease s = Some l -> lease_expiresAt (reader_lease l) <= now;
  ar_reads : forall l, l ∈ default [] (repositoryReadLeases s) -> lease_expiresAt l <= now;
  ar_maintenance : forall l, l ∈ default [] (repositoryMaintenanceLeases s) -> drained_by now l;
  ar_snapshots : forall l, l ∈ default [] (snapshotMaterializationLeases s) -> drained_by now (snapshot_lease l);
  ar_natives : forall o, o ∈ indexed_natives s -> native_stock o = true ->
    native_active o = true \/ native_cleanupPending o = true ->
    truthy (repositoryDeleting s) = true /\ native_activity_end o + EXPIRED_WRITER_DRAIN_MS <= now;
  ar_executions : forall r, nativeExecutionForeground s = Some r \/ nativeExecutionMaintenance s = Some r ->
    ne_state r <> NeActive /\ truthy (ne_stopPending r) = false /\ ne_drainUntil r <= now }.

Lemma not_draining lease now :
  writerMayStillBeDraining lease now = false <-> forall l, lease = Some l -> drained_by now l.
Proof.
  unfold writerMayStillBeDraining, writer_draining, drained_by. destruct lease as [l|].
  - rewrite Z.ltb_ge. split; [by intros Hl ? [= <-] | intros Hl; by apply Hl].
  - by split.
Qed.

Lemma none_after {A} (expiry : A -> Z) now l :
  js_filter (fun x => now <? expiry x) l = [] <-> forall x, x ∈ l -> expiry x <= now.
Proof.
  split.
  - intros E x Hx. destruct (decide (now < expiry x)) as [Hlt|]; [|lia].
    assert (x ∈ js_filter (fun x => now <? expiry x) l) as Hin.
    { apply elem_of_js_filter. split; [done | by apply Z.ltb_lt]. }
    rewrite E in Hin. by apply elem_of_nil in Hin.
  - intros Hl. apply js_filter_nil. intros x Hx. apply Z.ltb_ge. auto.
Qed.

Lemma drained_preparations now l :
  js_some (writer_draining now) l = false <-> forall x, x ∈ l -> drained_by now x.
Proof.
  rewrite js_some_false. apply forall_proper. intros x. unfold writer_draining, drained_by.
  by rewrite Z.ltb_ge.
Qed.

Lemma natives_at_rest s now :
  js_some (stock_needs_attention (if truthy (repositoryDeleting s)
     then Some (now, EXPIRED_WRITER_DRAIN_MS) else None)) (indexed_natives s) = false <->
  forall o, o ∈ indexed_natives s -> native_stock o = true ->
    native_active o = true \/ native_cleanupPending o = true ->
    truthy (repositoryDeleting s) = true /\ native_activity_end o + EXPIRED_WRITER_DRAIN_MS <= now.
Proof.
  rewrite js_some_false. apply forall_proper. intros o.
  unfold stock_needs_attention, native_activity_end.
  destruct (native_stock o), (native_active o), (native_cleanupPending o), (truthy (repositoryDeleting s));
    simpl; rewrite ?Z.ltb_ge; intuition congruence.
Qed.

Lemma executions_at_rest s now :
  js_some (execution_draining now) [nativeExecutionForeground s; nativeExecutionMaintenance s] = false <->
  forall r, nativeExecutionForeground s = Some r \/ nativeExecutionMaintenance s = Some r ->
    ne_state r <> NeActive /\ truthy (ne_stopPending r) = false /\ ne_drainUntil r <= now.
Proof.
  assert (forall o, execution_draining now o = false <-> forall r, o = Some r ->
    ne_state r <> NeActive /\ truthy (ne_stopPending r) = false /\ ne_drainUntil r <= now) as Hone.
  { intros [r|]; [|by split]. simpl. rewrite !orb_false_iff, bool_decide_eq_false, Z.ltb_ge.
    split; [by intros [[] ?] ? [= <-] | intros Hr; destruct (Hr r eq_refl) as (? & ? & ?); tauto]. }
  simpl. rewrite !orb_false_iff, !Hone. split; [intros (H1 & H2 & _) r []; auto | auto 8].
Qed.

Lemma quiescent_at_rest now s : quiescent now s <-> at_rest now s.
Proof.
  split; intros []; split; try done; first
    [ by apply not_draining | by apply natives_at_rest | by apply executions_at_rest
    | by apply (none_after lease_expiresAt)
    | by apply (none_after (fun l => lease_expiresAt l + EXPIRED_WRITER_DRAIN_MS))
    | by apply (none_after (fun l => lease_expiresAt (snapshot_lease l) + EXPIRED_WRITER_DRAIN_MS))
    | by apply drained_preparations ].
Qed.

(** ** Properties *)

(** A deletion starts only when nothing is left to wait for.  The transaction
    raises the deletion fence whatever the activity is; it reports ready exactly
    when no reader is live and no writer, native receive or execution may still be
    draining, and then no lease of any kind is stored any more.  Refs, pack
    catalog and durable receive intents are untouched; a failure changes nothing,
    the fence included. *)
Theorem deletion_ready_iff_quiescent `{Env} (w : world) :
  match beginRepositoryDeletionState w with
  | (Err _, w') => st w' = st w
  | (Ok d, w') =>
    repositoryDeleting (st w') = Some true /\
    (deletion_ready d = true <-> at_rest (env_now (tick w)) (st w)) /\
    (deletion_ready d = true -> drained (st w')) /\
    deletion_snapshotPrefixes d = default [] (snapshotPrefixes (st w)) /\
    refs (st w') = refs (st w) /\ pack_catalog (st w') = pack_catalog (st w) /\
    receiveFinalizeIntents (st w') = receiveFinalizeIntents (st w)
  end.
Proof.
  to_wp beginRepositoryDeletionState w. unfold beginRepositoryDeletionState.
  apply wp_transaction, wp_bind, wp_now, wp_bind, wp_prune; [done|].
  intros b [s n] Hf Hq Hd. unfold pruning_frame in Hf. simpl in Hf. injection Hf as _ E1 E2 _ E3 E4.
  apply wp_bind, wp_put; [done|]. intros _. apply wp_bind, wp_get, wp_ret. simpl in *.
  rewrite <- quiescent_at_rest. split_and!; try congruence.
  intros Hb. destruct (Hd Hb). by split.
Qed.

(** Readers are bounded.  A read lease is granted only below the capacity of
    128 live leases: it is appended, under a fresh token and for two minutes, to
    exactly the live leases, so at most 128 are ever stored; a repository at
    capacity or being deleted refuses and, like a failure, changes nothing. *)
Theorem read_leases_bounded `{Env} (operation : LeaseOperation) (w : world) :
  let now := env_now (tick w) in
  let live := activeReadLeases (repositoryReadLeases (st w)) now in
  match beginRepositoryReadState operation w with
  | (Ok (Began token), w') =>
    truthy (repositoryDeleting (st w)) = false /\ (length live < MAX_REPOSITORY_READ_LEASES)%nat /\
    token = env_uuid (S (tick w)) /\
    st w' = set_repositoryReadLeases (Some (live ++
      [mkLease token now (now + REPOSITORY_READ_LEASE_TTL_MS) (Some operation)])) (st w) /\
    (length (default [] (repositoryReadLeases (st w'))) <= MAX_REPOSITORY_READ_LEASES)%nat
  | (Ok ReaderCapacity, w') => (MAX_REPOSITORY_READ_LEASES <= length live)%nat /\ st w' = st w
  | (Ok RepositoryDeleting, w') => truthy (repositoryDeleting (st w)) = true /\ st w' = st w
  | (Ok MaintenanceActive, _) => False
  | (Err _, w') => st w' = st w
  end.
Proof.
  cbv zeta. to_wp (beginRepositoryReadState operation) w. unfold beginRepositoryReadState.
  apply wp_transaction. wp_run; cbn [st] in *; try done.
  - split; [|done]. by apply Nat.leb_le.
  - apply Nat.leb_gt in Heqb0. split_and!; try done.
    etrans; [apply Nat.eq_le_incl, length_app|]. cbn [length].
    unfold MAX_REPOSITORY_READ_LEASES in *. lia.
Qed.

(** The handlers on one read lease. *)
Inductive read_request :=
  | ReadBegin (operation : LeaseOperation)
  | ReadRenew (token : string)
  | ReadFinish (token : string).

Definition serve_read `{Env} (r : read_request) : DO unit :=
  match r with
  | ReadBegin operation => beginRepositoryReadState operation ;! ret tt
  | ReadRenew token => renewRepositoryReadState token ;! ret tt
  | ReadFinish token => finishRepositoryReadState token
  end.

(** Readers do not disturb each other.  Whatever one reader asks - a lease, a
    renewal, a release - and whether the request succeeds, is refused or fails,
    another reader whose lease is still live at the time of the request holds it
    afterwards, with the same expiry. *)
Theorem readers_independent `{Env} (r : read_request) (w : world) (l : RepoLease) :
  l ∈ default [] (repositoryReadLeases (st w)) -> env_now (tick w) < lease_expiresAt l ->
  match r with
  | ReadBegin _ => True
  | ReadRenew token | ReadFinish token => lease_token l ≠ token
  end ->
  l ∈ default [] (repositoryReadLeases (st (serve_read r w).2)).
Proof.
  intros Hl Hexp Hother.
  assert (forall now, now = env_now (tick w) ->
    l ∈ activeReadLeases (repositoryReadLeases (st w)) now) as Hlive.
  { intros now ->. apply elem_of_js_filter. split; [done|]. by apply Z.ltb_lt. }
  specialize (Hlive _ eq_refl).
  change (wp (serve_read r) (fun _ w' => l ∈ default [] (repositoryReadLeases (st w'))) w).
  destruct r as [op|token|token]; unfold serve_read, beginRepositoryReadState,
    renewRepositoryReadState, finishRepositoryReadState.
  - apply wp_bind, wp_transaction. wp_run; try done. simpl. apply elem_of_app. by left.
  - apply wp_bind, wp_transaction. wp_run; try done. simpl.
    destruct (list_elem_of_lookup_1 _ _ Hlive) as [i Hi]. apply list_elem_of_lookup. exists i.
    unfold renew_at. rewrite list_lookup_alter_ne; [done|]. intros ->.
    apply js_findIndex_lookup in Heqo as (x & Hx & Ht). unfold str_eq in Ht. to_prop.
    cbn [st bump] in Hx. congruence.
  - apply wp_transaction. wp_run; try done. simpl.
    assert (l ∈ js_filter (fun l => negb (str_eq (lease_token l) token))
              (activeReadLeases (repositoryReadLeases (st w)) (env_now (tick w)))) as Hin.
    { apply elem_of_js_filter. split; [done|]. unfold str_eq. by rewrite bool_decide_false. }
    destruct (js_filter _ _); [by apply elem_of_nil in Hin | done].
Qed.

Lemma readers_independent_witness :
  let a := mkLease "a" 0 9000 (Some OpGitFetch) in
  let w := World (set_repositoryReadLeases (Some [a; mkLease "b" 0 9000 (Some OpGitFetch)]) empty_storage) 0 in
  a ∈ default [] (repositoryReadLeases (st (serve_read (H := demo_env) (ReadRenew "b") w).2)).
Proof.
  intros a w. apply (readers_independent (H := demo_env) (ReadRenew "b") w a).
  - apply list_elem_of_here.
  - reflexivity.
  - by apply (bool_decide_unpack _); vm_compute.
Defined.
