(* ===== verification/Gc.v ===== *)
(** * Coordination of garbage collection with receives, and its publication

    [catalog/gcCoordination.ts] (the protection of sources a receive revives
    and the accounted versions) and [catalog/gcPublication.ts] (the single
    transaction that merges a coordinated collection into the catalog). *)
From S2P Require Import Prelude Storage Effects Text Catalog Activity Scheduler Lifecycle.

(** ** Definitions *)

Definition GC_WAKE_DELAY_MS : Z := 30000.
Definition GC_UNPUBLISHED_LIFETIME_MS : Z := 24 * 60 * 60000.

(** [CommitReachabilityGcResult]. *)
Inductive GcRetryReason :=
  | LeaseMismatch | ReceiveActive | RefsChanged | PinsChanged | PacksetChanged
  | SourceChanged | CatalogReplacementFailed | PendingMismatch | GcRepositoryDeleting.

Inductive CommitGcResult :=
  | GcCommitted (c : GcCommit)
  | GcRetry (reason : GcRetryReason).

Record GcReceiveProtection := mkProtection {
  prot_operationId : string;
  prot_refsVersion : Z;
  prot_reason : option RetentionReason }.

(** [Math.min(...l)] and [Math.max(...l)]; [None] is the infinity of an empty
    list. *)
Definition js_min (l : list Z) : option Z :=
  match l with [] => None | x :: r => Some (foldl Z.min x r) end.
Definition js_max (l : list Z) : option Z :=
  match l with [] => None | x :: r => Some (foldl Z.max x r) end.

(** Complete the measurement of a phase. *)
Definition complete_measurement (phase : GcPhase) (now : Z) (o : GcOperation) : GcOperation :=
  match gc_measurements o !! phase with
  | Some m =>
    set_gc_measurements (<[phase := mkMeasurement (meas_attempts m) (meas_startedAt m) (Some now)
                                      (Some (now - meas_startedAt m))]> (gc_measurements o)) o
  | None => o
  end.

(** The rows of the source keys that the catalog still has, in source order. *)
Definition current_rows (sources : list PackCatalogRow) (rows : list PackCatalogRow)
    : list PackCatalogRow :=
  omap (fun row => row_of (packKey row) rows) sources.

(** The pack that replaces the sources. [None] in the outer option is the
    infinite sequence bound of an empty source list. *)
Definition merged_pack (o : GcOperation) (sources : list PackCatalogRow)
    (r : GcNativeResult) (now : Z) : option PackCatalogRow :=
  match js_min (seqLo <$> sources), js_max (seqHi <$> sources) with
  | Some lo, Some hi =>
    Some (mkRow (gc_outputPackKey o) KindCompact PackActive
            (default 0 (js_max (0 :: (tier <$> sources))) + 1) lo hi
            (nres_objectCount r) (nres_packBytes r) (nres_idxBytes r) now None)
  | _, _ => None
  end.

Definition claim_live (o : GcOperation) (claimId : string) (now : Z) : bool :=
  match gc_claim o with
  | Some c => str_eq (claim_id c) claimId && (now <? claim_expiresAt c)
  | None => false
  end.

(** The lease held by the collection that owns [token]. *)
Definition gc_lease_held (lease : option RepoLease) (token : string) (now : Z) : bool :=
  match lease with
  | Some l => str_eq (lease_token l) token && lease_is OpReachabilityGc l && (now <? lease_expiresAt l)
  | None => false
  end.

Section GcCoordination.
Context `{Env}.

(** [armWake], and the alarm tail shared by the publication transactions. *)
Definition armWake (at_ : Z) : DO unit :=
  let! a := get alarm in
  match a with
  | None => put (set_alarm (Some at_))
  | Some a => if at_ <? a then put (set_alarm (Some at_)) else ret tt
  end.

(** [prepareGcReceiveProtection].  What the indexes and reference sidecars say
    is read outside the object: [inspect] is its conclusion. *)
Definition prepareGcReceiveProtection (inspect : nat -> option RetentionReason)
    (rv : Z) (newOids : list string) (hasStagedPack : bool) : DO (option GcReceiveProtection) :=
  let! operation := get gcOperation in
  match operation with
  | Some o =>
    match gc_coordination o with
    | Some coordination =>
      if negb (gcOwnsSource operation) then ret None else
      if (0 <? length (retainedSourcePackKeys coordination))%nat
      then ret (Some (mkProtection (gc_id o) rv None)) else
      let wants := js_filter (fun oid => negb (isZeroOid oid)) newOids in
      if (length wants =? 0)%nat && negb hasStagedPack
      then ret (Some (mkProtection (gc_id o) rv None)) else
      let! reason := external inspect in
      ret (Some (mkProtection (gc_id o) rv reason))
    | None => ret None
    end
  | None => ret None
  end.

Definition retainGcReceiveProtection (token : string) (proof : option GcReceiveProtection)
    : DO unit :=
  match proof with
  | None => ret tt
  | Some p =>
    let! operation := get gcOperation in
    let! lease := get receiveLease in
    let! rv := get refsVersion in
    match operation with
    | Some o =>
      match gc_coordination o with
      | Some c =>
        if negb (str_eq (gc_id o) (prot_operationId p)) ||
           bool_decide (is_Some (gc_commit o)) ||
           negb (match lease with Some l => str_eq (lease_token l) token | None => false end) ||
           negb (default 0 rv =? prot_refsVersion p)
        then throw "GC receive protection changed before its durable intent"
        else match prot_reason p with
             | None => ret tt
             | Some reason =>
               match gc_snapshot o with
               | Some snapshot =>
                 put (set_gcOperation (Some (set_gc_coordination
                   (Some (mkCoordination (coord_refsVersion c) (coord_packsetVersion c)
                            (coord_snapshotPinVersion c) (packKey <$> gs_sourcePacks snapshot)
                            (Some reason) (publicationClaimId c) (acceptedReceives c))) o)))
               | None => throw "TypeError"
               end
             end
      | None => throw "GC receive protection changed before its durable intent"
      end
    | None => throw "GC receive protection changed before its durable intent"
    end
  end.

Definition advanceGcReceiveVersions (expectedRefsVersion nextRefsVersion : Z)
    (nextPacksetVersion : option Z) (expectedPins nextPins : Z) : DO unit :=
  let! operation := get gcOperation in
  match operation with
  | Some o =>
    match gc_coordination o with
    | Some c =>
      if negb (gcOwnsSource operation) then ret tt else
      if coord_refsVersion c =? nextRefsVersion then ret tt else
      if negb (coord_refsVersion c =? expectedRefsVersion) ||
         (match nextPacksetVersion with
          | Some v => negb (coord_packsetVersion c + 1 =? v)
          | None => false
          end)
      then throw "GC receive versions diverged from the protected source"
      else
        put (set_gcOperation (Some (set_gc_coordination (Some
          (mkCoordination nextRefsVersion (default (coord_packsetVersion c) nextPacksetVersion)
             (if coord_snapshotPinVersion c =? expectedPins then nextPins
              else coord_snapshotPinVersion c)
             (retainedSourcePackKeys c) (conservativeRetentionReason c) (publicationClaimId c)
             (acceptedReceives c + 1))) o)))
    | None => ret tt
    end
  | None => ret tt
  end.

(** ** Publication *)

(** The guards of [commitCoordinatedGc] that read leases and activity. *)
Definition publication_busy (now : Z) (s : Storage) : bool :=
  (match receiveLease s with
   | Some l => writer_draining now l ||
               bool_decide (is_Some (receiveFinalizeIntents s !! lease_token l))
   | None => false
   end) ||
  (0 <? length (activeStockReceivePreparationLeases (stockReceivePreparationLeases s) now))%nat ||
  (0 <? length (active_natives s))%nat ||
  js_some (fun l => lease_is OpSnapshotProjection l && (now <? lease_expiresAt l))
    (default [] (repositoryReadLeases s)).

(** The identity guard of [commitCoordinatedGc]. *)
Definition publication_owner (o : GcOperation) (claimId : string) (now : Z)
    (lease : option RepoLease) : option (GcSnapshot * GcCoordination * GcClosure) :=
  match gc_snapshot o, gc_coordination o, gc_closure o with
  | Some source, Some coordination, Some closure =>
    if bool_decide (gc_phase o = GcPublish) && claim_live o claimId now &&
       ostr_eq (publicationClaimId coordination) (Some claimId) &&
       gc_lease_held lease (gs_token source) now
    then Some (source, coordination, closure) else None
  | _, _, _ => None
  end.

(** The catalog replacement, the versions, the receipt and the release of the
    lease: the writes of the publication transaction. *)
Definition publish_catalog (o : GcOperation) (source : GcSnapshot) (coordination : GcCoordination)
    (target : option PackCatalogRow) (now : Z) : DO CommitGcResult :=
  let retained := retainedSourcePackKeys coordination in
  let supersededPackKeys :=
    js_filter (fun key => negb (ostr_eq (Some key) (packKey <$> target)) &&
                          negb (js_some (str_eq key) retained))
      (packKey <$> gs_sourcePacks source) in
  let changed := (0 <? length supersededPackKeys)%nat || bool_decide (is_Some (gc_nativeResult o)) in
  (if changed then replaceActivePackCatalog supersededPackKeys target else ret tt) ;!
  let generation := coord_packsetVersion coordination + (if changed then 1 else 0) in
  (if changed then
     put (set_packsetVersion (Some generation)) ;!
     let! activeCatalog := listActivePackCatalog in
     put (set_generationPublicationPending (Some (mkGeneration generation (packKey <$> activeCatalog))))
   else ret tt) ;!
  let committed := mkGcCommit generation supersededPackKeys (packKey <$> target) in
  let o' := set_gc_coordination (Some (set_publicationClaimId None coordination))
    (set_gc_claim None (complete_measurement GcPublish now
      (set_gc_updatedAt now (set_gc_phase GcReclaim (set_gc_commit (Some committed) o))))) in
  put (set_gcOperation (Some o')) ;!
  put (set_compactLease None) ;!
  put (set_reachabilityGcPending None) ;!
  armWake (now + GC_WAKE_DELAY_MS) ;!
  ret (GcCommitted committed).

(** The choice of the target pack. [None] is the throw of an insert with
    infinite bounds; the middle result is a retry. *)
Definition choose_target (o : GcOperation) (source : GcSnapshot) (closure : GcClosure) (now : Z)
    (pending : option ReachabilityGcPending) (k : option PackCatalogRow -> DO CommitGcResult)
    : DO CommitGcResult :=
  match gc_nativeResult o with
  | Some r =>
    match pending with
    | Some p =>
      if str_eq (pending_token p) (gs_token source) &&
         str_eq (pending_packKey p) (gc_outputPackKey o)
      then match merged_pack o (gs_sourcePacks source) r now with
           | Some target => k (Some target)
           | None => throw "CHECK constraint failed: pack_catalog"
           end
      else ret (GcRetry PendingMismatch)
    | None => ret (GcRetry PendingMismatch)
    end
  | None =>
    let target := js_find (fun row => ostr_eq (Some (packKey row)) (gc_retainedPackKey o))
                    (gs_sourcePacks source) in
    if negb (bool_decide (is_Some target)) && negb (closure_objectCount closure =? 0)
    then ret (GcRetry SourceChanged)
    else k target
  end.

Definition commitCoordinatedGc_body (operationId claimId : string) : DO CommitGcResult :=
  let! operation := get gcOperation in
  match operation with
  | None => ret (GcRetry LeaseMismatch)
  | Some o =>
    if negb (str_eq (gc_id o) operationId) then ret (GcRetry LeaseMismatch) else
    match gc_commit o with
    | Some c => ret (GcCommitted c)
    | None =>
      let! deleting := get repositoryDeleting in
      if truthy deleting then ret (GcRetry GcRepositoryDeleting) else
      let! now := Date_now in
      let! lease := get compactLease in
      match publication_owner o claimId now lease with
      | None => ret (GcRetry LeaseMismatch)
      | Some (source, coordination, closure) =>
        let! busy := get (publication_busy now) in
        if busy : bool then ret (GcRetry ReceiveActive) else
        let! rv := get refsVersion in
        if negb (default 0 rv =? coord_refsVersion coordination) then ret (GcRetry RefsChanged) else
        let! sv := get snapshotPinVersion in
        if negb (default 0 sv =? coord_snapshotPinVersion coordination)
        then ret (GcRetry PinsChanged) else
        let! pv := get packsetVersion in
        if negb (default 0 pv =? coord_packsetVersion coordination)
        then ret (GcRetry PacksetChanged) else
        let! rows := get (fun s => current_rows (gs_sourcePacks source) (pack_catalog s)) in
        if negb (rowsMatchForCommit (gs_sourcePacks source) rows) then ret (GcRetry SourceChanged) else
        let! pending := get reachabilityGcPending in
        choose_target o source closure now pending
          (fun target => publish_catalog o source coordination target now)
      end
    end
  end.

Definition commitCoordinatedGc (operationId claimId : string) : DO CommitGcResult :=
  try_catch (transaction (commitCoordinatedGc_body operationId claimId))
    (fun _ => ret (GcRetry CatalogReplacementFailed)).

Definition helpPreparedGcPublication : DO unit :=
  let! operation := get gcOperation in
  match operation with
  | Some o =>
    match gc_coordination o with
    | Some c =>
      match publicationClaimId c with
      | Some claimId =>
        let! now := Date_now in
        if bool_decide (gc_phase o = GcPublish) && negb (str_eq claimId "") &&
           claim_live o claimId now
        then commitCoordinatedGc (gc_id o) claimId ;! ret tt
        else ret tt
      | None => ret tt
      end
    | None => ret tt
    end
  | None => ret tt
  end.
End GcCoordination.

(** ** Lemmas *)

(** The packs a publication supersedes, and whether the catalog changes. *)
Definition superseded_by_publication (source : GcSnapshot) (coordination : GcCoordination)
    (target : option PackCatalogRow) : list string :=
  js_filter (fun key => negb (ostr_eq (Some key) (packKey <$> target)) &&
                        negb (js_some (str_eq key) (retainedSourcePackKeys coordination)))
    (packKey <$> gs_sourcePacks source).

Definition publication_changes (o : GcOperation) (source : GcSnapshot)
    (coordination : GcCoordination) (target : option PackCatalogRow) : bool :=
  (0 <? length (superseded_by_publication source coordination target))%nat ||
  bool_decide (is_Some (gc_nativeResult o)).

(** The collection owns its publication: the operation is in its phase, with the
    live claim that prepared the publication and the live maintenance lease. *)
Record publication_owned (o : GcOperation) (claimId : string) (now : Z) (lease : option RepoLease)
    (source : GcSnapshot) (coordination : GcCoordination) (closure : GcClosure) : Prop := {
  po_snapshot : gc_snapshot o = Some source;
  po_coordination : gc_coordination o = Some coordination;
  po_closure : gc_closure o = Some closure;
  po_phase : gc_phase o = GcPublish;
  po_claim : exists c, gc_claim o = Some c /\ claim_id c = claimId /\ now < claim_expiresAt c;
  po_prepared : publicationClaimId coordination = Some claimId;
  po_lease : exists l, lease = Some l /\ lease_token l = gs_token source /\
    lease_operation l = Some OpReachabilityGc /\ now < lease_expiresAt l }.

(** No receive, preparation, native operation or projecting reader is under way. *)
Record publication_quiet (now : Z) (s : Storage) : Prop := {
  pq_receive : forall l, receiveLease s = Some l ->
    lease_expiresAt l + EXPIRED_WRITER_DRAIN_MS <= now /\ receiveFinalizeIntents s !! lease_token l = None;
  pq_preparations : forall l, l ∈ default [] (stockReceivePreparationLeases s) -> lease_expiresAt l <= now;
  pq_natives : active_natives s = [];
  pq_readers : forall l, l ∈ default [] (repositoryReadLeases s) ->
    lease_operation l = Some OpSnapshotProjection -> lease_expiresAt l <= now }.

(** The pack that stays: the recorded output of a rewrite, else the retained
    source, else none, for an empty closure. *)
Definition publication_target (o : GcOperation) (source : GcSnapshot) (closure : GcClosure) (now : Z)
    (pending : option ReachabilityGcPending) (target : option PackCatalogRow) : Prop :=
  match gc_nativeResult o with
  | Some r =>
    (exists p, pending = Some p /\ pending_token p = gs_token source /\
       pending_packKey p = gc_outputPackKey o) /\
    target = merged_pack o (gs_sourcePacks source) r now /\ is_Some target
  | None =>
    (forall row, target = Some row ->
       row ∈ gs_sourcePacks source /\ gc_retainedPackKey o = Some (packKey row)) /\
    (target = None -> closure_objectCount closure = 0)
  end.

(** What a publication found and what it left. *)
Record published (o : GcOperation) (claimId : string) (c : GcCommit) (s s' : Storage) : Prop := {
  pb_before : exists source coordination closure target now,
    publication_owned o claimId now (compactLease s) source coordination closure /\
    publication_quiet now s /\
    default 0 (refsVersion s) = coord_refsVersion coordination /\
    default 0 (snapshotPinVersion s) = coord_snapshotPinVersion coordination /\
    default 0 (packsetVersion s) = coord_packsetVersion coordination /\
    rowsMatchForCommit (gs_sourcePacks source) (current_rows (gs_sourcePacks source) (pack_catalog s)) = true /\
    publication_target o source closure now (reachabilityGcPending s) target /\
    let keys := superseded_by_publication source coordination target in
    let changed := publication_changes o source coordination target in
    commit_supersededPackKeys c = keys /\ commit_targetPackKey c = packKey <$> target /\
    commit_packCatalogVersion c = coord_packsetVersion coordination + (if changed then 1 else 0) /\
    pack_catalog s' = (if changed then replaced_rows keys target (pack_catalog s) else pack_catalog s) /\
    (changed = true -> forall row, target = Some row -> check_row row = true) /\
    default 0 (packsetVersion s') = commit_packCatalogVersion c;
  pb_refs : refs s' = refs s /\ refsVersion s' = refsVersion s;
  pb_lease : compactLease s' = None /\ reachabilityGcPending s' = None;
  pb_operation : exists o', gcOperation s' = Some o' /\ gc_id o' = gc_id o /\
    gc_phase o' = GcReclaim /\ gc_commit o' = Some c /\ gc_claim o' = None /\
    gc_snapshot o' = gc_snapshot o /\ gc_closure o' = gc_closure o /\
    gc_rewriteIntent o' = gc_rewriteIntent o /\ is_Some (gc_coordination o') }.

Lemma publication_owner_owned o claimId now lease source coordination closure :
  publication_owner o claimId now lease = Some (source, coordination, closure) ->
  publication_owned o claimId now lease source coordination closure.
Proof.
  unfold publication_owner, claim_live, gc_lease_held, lease_is.
  destruct (gc_snapshot o) eqn:E1, (gc_coordination o) eqn:E2, (gc_closure o) eqn:E3; try done.
  destruct (gc_claim o) as [c|] eqn:Ec, lease as [l|]; rewrite ?andb_false_r; try done.
  destruct (_ && _) eqn:E; [|done]. intros [= -> -> ->]. to_prop.
  split; try assumption; [by exists c | by exists l].
Qed.

Lemma publication_busy_quiet now s : publication_busy now s = false -> publication_quiet now s.
Proof.
  unfold publication_busy, writer_draining, lease_is. intros Hb. to_prop. split.
  - intros l E. rewrite E in *. to_prop. split; [done|]. by apply eq_None_not_Some.
  - intros l Hl. destruct (decide (now < lease_expiresAt l)) as [Hlt|]; [|lia].
    assert (l ∈ activeStockReceivePreparationLeases (stockReceivePreparationLeases s) now) as Hin.
    { apply elem_of_js_filter. split; [done | by apply Z.ltb_lt]. }
    destruct (activeStockReceivePreparationLeases _ _); [by apply elem_of_nil in Hin | done].
  - by destruct (active_natives s).
  - intros l Hl Hop. rewrite js_some_false in *.
    match goal with Hr : forall x, x ∈ _ -> _ = false |- _ => specialize (Hr l Hl) end.
    rewrite bool_decide_true in * by done. simpl in *. by to_prop.
Qed.

Section PublicationLemmas.
Context `{Env}.

Lemma armWake_framed {T} (f : Storage -> T) at_ :
  (forall a s, f s = f (set_alarm a s)) -> framed f (armWake at_).
Proof.
  intros Hf. unfold armWake, framed. respect; split; try done; unfold frame; apply Hf.
Qed.

(** Completing a measurement changes nothing else. *)
Lemma complete_measurement_set phase now o :
  exists m, complete_measurement phase now o = set_gc_measurements m o.
Proof.
  unfold complete_measurement. destruct (gc_measurements o !! phase); [by eexists|].
  exists (gc_measurements o). by destruct o.
Qed.

(** The writes of a publication. *)
Lemma wp_publish_catalog o source coordination target now
    (Q : res CommitGcResult -> world -> Prop) w :
  (forall e w', Q (Err e) w') ->
  (forall c s n,
     let keys := superseded_by_publication source coordination target in
     let changed := publication_changes o source coordination target in
     c = mkGcCommit (coord_packsetVersion coordination + (if changed then 1 else 0)) keys
           (packKey <$> target) ->
     pack_catalog s = (if changed then replaced_rows keys target (pack_catalog (st w))
                       else pack_catalog (st w)) ->
     (changed = true -> forall row, target = Some row -> check_row row = true) ->
     packsetVersion s = (if changed then Some (commit_packCatalogVersion c)
                         else packsetVersion (st w)) ->
     refs s = refs (st w) -> refsVersion s = refsVersion (st w) ->
     compactLease s = None -> reachabilityGcPending s = None ->
     gcOperation s = Some (set_gc_coordination (Some (set_publicationClaimId None coordination))
       (set_gc_claim None (complete_measurement GcPublish now
         (set_gc_updatedAt now (set_gc_phase GcReclaim (set_gc_commit (Some c) o)))))) ->
     Q (Ok (GcCommitted c)) (World s n)) ->
  wp (publish_catalog o source coordination target now) Q w.
Proof.
  intros Herr Hok. unfold publish_catalog. cbv zeta.
  change (js_filter _ (packKey <$> gs_sourcePacks source))
    with (superseded_by_publication source coordination target).
  change ((0 <? _)%nat || _) with (publication_changes o source coordination target).
  set (keys := superseded_by_publication source coordination target) in *.
  set (c := mkGcCommit (coord_packsetVersion coordination +
    (if publication_changes o source coordination target then 1 else 0)) keys (packKey <$> target)).
  specialize (Hok c).
  set (o' := set_gc_coordination _ _).
  assert (forall s n, refs s = refs (st w) -> refsVersion s = refsVersion (st w) ->
    (publication_changes o source coordination target = true ->
       forall row, target = Some row -> check_row row = true) ->
    pack_catalog s = (if publication_changes o source coordination target
      then replaced_rows keys target (pack_catalog (st w)) else pack_catalog (st w)) ->
    packsetVersion s = (if publication_changes o source coordination target
      then Some (commit_packCatalogVersion c) else packsetVersion (st w)) ->
    wp (put (set_gcOperation (Some o')) ;! put (set_compactLease None) ;!
        put (set_reachabilityGcPending None) ;! armWake (now + GC_WAKE_DELAY_MS) ;!
        ret (GcCommitted c)) Q (World s n)) as Htail.
  { intros s n H1 H2 Hc H3 H4.
    apply wp_bind, wp_put; [intros; apply Herr|]. intros _.
    apply wp_bind, wp_put; [intros; apply Herr|]. intros _.
    apply wp_bind, wp_put; [intros; apply Herr|]. intros _.
    apply wp_bind. eapply (wp_framed (fun s => (refs s, refsVersion s, pack_catalog s, packsetVersion s,
      (compactLease s, reachabilityGcPending s, gcOperation s)))); [by apply armWake_framed|].
    intros [[]|e] [s' n'] E; [|apply Herr]. cbn [st] in E. injection E as E1 E2 E3 E4 E5 E6 E7.
    simpl in *. apply wp_ret, Hok; try done; congruence. }
  destruct (publication_changes o source coordination target).
  - apply wp_bind, wp_replace; [intros; apply Herr|]. intros n Hc.
    apply wp_bind, wp_bind, wp_put; [intros; apply Herr|]. intros _.
    apply wp_bind, wp_get, wp_put; [intros; apply Herr|]. intros _. by apply Htail.
  - apply wp_bind, wp_ret, wp_bind, wp_ret. destruct w as [s n]. by apply Htail.
Qed.

Lemma wp_choose_target o source closure now pending k (Q : res CommitGcResult -> world -> Prop) w :
  (forall e, Q (Err e) w) -> (forall reason, Q (Ok (GcRetry reason)) w) ->
  (forall target, publication_target o source closure now pending target -> wp (k target) Q w) ->
  wp (choose_target o source closure now pending k) Q w.
Proof.
  intros H1 H2 H3. unfold choose_target, publication_target in *.
  destruct (gc_nativeResult o) as [r|].
  - destruct pending as [p|]; [|apply wp_ret, H2]. destruct (_ && _) eqn:E; [|apply wp_ret, H2]. to_prop.
    destruct (merged_pack _ _ _ _) as [t|]; [|apply wp_throw, H1].
    apply H3. split_and!; [by exists p | done | by eexists].
  - destruct (negb _ && _) eqn:E; [apply wp_ret, H2|]. apply H3.
    destruct (js_find _ _) as [row|] eqn:Ef; simpl in E.
    + apply List.find_some in Ef as [Hin%list_elem_of_In Hk]. to_prop.
      split; [intros row' [= <-]; by split | done].
    + to_prop. by split.
Qed.

Lemma wp_commit_coordinated operationId claimId (Q : res CommitGcResult -> world -> Prop) w :
  (forall n, Q (Err Crash) (World (st w) n)) ->
  (forall reason n, Q (Ok (GcRetry reason)) (World (st w) n)) ->
  (forall o c n, gcOperation (st w) = Some o -> gc_id o = operationId -> gc_commit o = Some c ->
     Q (Ok (GcCommitted c)) (World (st w) n)) ->
  (forall o c s n, gcOperation (st w) = Some o -> gc_id o = operationId -> gc_commit o = None ->
     truthy (repositoryDeleting (st w)) = false -> published o claimId c (st w) s ->
     Q (Ok (GcCommitted c)) (World s n)) ->
  wp (commitCoordinatedGc operationId claimId) Q w.
Proof.
  intros Hcrash Hretry Hold Hnew. unfold commitCoordinatedGc, commitCoordinatedGc_body.
  destruct w as [s n]. cbn [st] in *.
  assert (forall e n', match e with
      | Throw msg => wp (ret (GcRetry CatalogReplacementFailed)) Q (World s n')
      | Crash => Q (Err e) (World s n') end) as Herr by (intros [msg|] n'; [apply wp_ret, Hretry | apply Hcrash]).
  apply wp_try_catch, wp_transaction, wp_bind, wp_get. cbn [st].
  destruct (gcOperation s) as [o|] eqn:Eo; [|apply wp_ret, Hretry].
  destruct (str_eq (gc_id o) operationId) eqn:Eid; [|apply wp_ret, Hretry].
  unfold str_eq in Eid. to_prop. simpl.
  destruct (gc_commit o) as [c|] eqn:Ec; [by eapply wp_ret, Hold|].
  apply wp_bind, wp_get. cbn [st bump].
  destruct (truthy (repositoryDeleting s)) eqn:Ed; [apply wp_ret, Hretry|].
  apply wp_bind, wp_now, wp_bind, wp_get. cbn [st tick bump].
  set (now := env_now n).
  destruct (publication_owner o claimId now (compactLease s)) as [[[source coordination] closure]|]
    eqn:Ew; [|apply wp_ret, Hretry].
  apply wp_bind, wp_get. cbn [st bump]. destruct (publication_busy now s) eqn:Eb; [apply wp_ret, Hretry|].
  apply wp_bind, wp_get. cbn [st bump]. destruct (_ =? coord_refsVersion _) eqn:E1; [|apply wp_ret, Hretry].
  apply wp_bind, wp_get. cbn [st bump]. destruct (_ =? coord_snapshotPinVersion _) eqn:E2; [|apply wp_ret, Hretry].
  apply wp_bind, wp_get. cbn [st bump]. destruct (_ =? coord_packsetVersion _) eqn:E3; [|apply wp_ret, Hretry].
  apply wp_bind, wp_get. cbn [st bump negb]. destruct (rowsMatchForCommit _ _) eqn:Em; [|apply wp_ret, Hretry].
  apply wp_bind, wp_get. cbn [st bump negb].
  apply wp_choose_target; [intros; apply Herr | intros; apply Hretry |].
  intros target Ht. apply wp_publish_catalog; [intros; apply Herr|]. cbv zeta. cbn [st].
  intros c s' n' Hc Hrows Hcheck Hv Hr Hrv Hl Hp Ho. to_prop.
  eapply Hnew; try done. split; try done.
  - exists source, coordination, closure, target, now. cbv zeta.
    apply publication_owner_owned in Ew. apply publication_busy_quiet in Eb.
    split_and!; try done; subst c; try done.
    rewrite Hv. destruct (publication_changes _ _ _ _); simpl; [done | lia].
  - eexists. split; [exact Ho|]. simpl.
    destruct (complete_measurement_set GcPublish now (set_gc_updatedAt now
      (set_gc_phase GcReclaim (set_gc_commit (Some c) o)))) as [m ->].
    by split_and!.
Qed.
End PublicationLemmas.

#[export] Hint Extern 1 (framed _ (armWake _)) => (apply armWake_framed; done) : framed.

(** ** Properties *)

(** C6: a collection publishes once, as a whole, and never over a receive.  The
    first publication found the live claim that prepared it, the maintenance lease,
    the accounted versions and the source packs as they were planned, the declared
    output, and no receive, preparation, native operation or projecting reader
    under way; catalog, version, receipt, phase, lease and
    pending record then change together and the refs do not.  A second publication
    returns the recorded receipt, a refusal or an exception changes nothing. *)
Theorem gc_publication_atomic `{Env} (operationId claimId : string) (w : world) :
  match commitCoordinatedGc operationId claimId w with
  | (Err e, w') => e = Crash /\ st w' = st w
  | (Ok (GcRetry _), w') => st w' = st w
  | (Ok (GcCommitted c), w') =>
    exists o, gcOperation (st w) = Some o /\ gc_id o = operationId /\
      ((gc_commit o = Some c /\ st w' = st w) \/
       (gc_commit o = None /\ truthy (repositoryDeleting (st w)) = false /\
        published o claimId c (st w) (st w')))
  end.
Proof.
  to_wp (commitCoordinatedGc operationId claimId) w.
  apply wp_commit_coordinated; intros; eauto 8.
Qed.
