(* ===== verification/ReachabilityGc.v ===== *)
(** * The collection's lease, pending output and catalog commit

    [catalog/reachabilityGc.ts]: the lease under which a collection reads its
    source, the record of its unpublished output, the direct commit with its
    receipt, and the removal of superseded packs. *)
From S2P Require Import Prelude Storage Effects Text Catalog Activity Scheduler Lifecycle.
From S2P Require Import Gc.

(** ** Definitions *)

Inductive RemoveResult :=
  | Removed (packKeys : list string)
  | RemoveRetry (deleting : bool).   (* repository-deleting, else pack-became-active *)

Record GcBegin := mkGcBegin {
  gcb_lease : RepoLease;
  gcb_refs : list Ref;
  gcb_snapshotPinOids : list string;
  gcb_snapshotPinVersion : Z;
  gcb_refsVersion : Z;
  gcb_packsetVersion : Z;
  gcb_activeCatalog : list PackCatalogRow }.

Inductive BusyReason := BusyReceive | BusyCompact | BusyDeleting.

Inductive BeginReachabilityGcResult :=
  | GcBegan (b : GcBegin)
  | GcBusy (retryAfter : Z) (reason : BusyReason).

Inductive RecordPendingResult := PendingRecorded | PendingRetry (deleting : bool).

Inductive ReconcilePendingResult :=
  | ReconcileNone
  | ReconcileCommitted (packKey : string)
  | ReconcileUncommitted (token packKey : string)
  | ReconcileWait (retryAfter : Z).

(** [Math.ceil(ms / 1000)]. *)
Definition ceil_seconds (ms : Z) : Z := - ((- ms) / 1000).

(** The loop of [removeSupersededGcPacksState] and [claimSupersededGcPacksState]:
    the keys with a superseded row, or [None] when one is active. *)
Fixpoint superseded_keys (rows : list PackCatalogRow) (keys : list string) : option (list string) :=
  match keys with
  | [] => Some []
  | key :: r =>
    match row_of key rows with
    | None => superseded_keys rows r
    | Some row => if is_active row then None else (fun l => key :: l) <$> superseded_keys rows r
    end
  end.

(** The tier and the sequence range of the pack that replaces [sources]. *)
Definition staged_tier (sources : list PackCatalogRow) : Z :=
  foldl (fun t p => if t <=? tier p then tier p + 1 else t) 1 sources.
Definition staged_seqLo (sources : list PackCatalogRow) : Z :=
  foldl (fun lo p => if seqLo p <? lo then seqLo p else lo)
    (default 0 (seqLo <$> List.hd_error sources)) sources.
Definition staged_seqHi (sources : list PackCatalogRow) : Z :=
  foldl (fun hi p => if hi <? seqHi p then seqHi p else hi)
    (default 0 (seqHi <$> List.hd_error sources)) sources.

Record CommitGcArgs := mkCommitGc {
  cg_token : string;
  cg_refsVersion : Z;
  cg_packsetVersion : Z;
  cg_snapshotPinVersion : Z;
  cg_sourcePacks : list PackCatalogRow;
  cg_retainedPackKey : option string;
  cg_stagedPack : option StagedPack;
  cg_gcOperationId : option string;
  cg_gcClaimId : option string }.

Section ReachabilityGc.
Context `{Env}.

Definition listSupersededGcPacksState (cursor : option PackCursor) (limit : nat)
    : DO (list PackCatalogRow) := listSupersededPackCatalog limit cursor.

Definition claimSupersededGcPacksState (packKeys : list string) : DO RemoveResult :=
  let! deleting := get repositoryDeleting in
  if truthy deleting then ret (RemoveRetry true) else
  let! claimed := get (fun s => superseded_keys (pack_catalog s) packKeys) in
  match claimed with
  | None => ret (RemoveRetry false)
  | Some keys => ret (Removed keys)
  end.

Definition removeSupersededGcPacksState (packKeys : list string) : DO RemoveResult :=
  let! deleting := get repositoryDeleting in
  if truthy deleting then ret (RemoveRetry true) else
  let! removable := get (fun s => superseded_keys (pack_catalog s) packKeys) in
  match removable with
  | None => ret (RemoveRetry false)
  | Some keys => deletePackCatalogRows keys ;! ret (Removed keys)
  end.

(** The transaction of [beginReachabilityGcState]. *)
Definition acquire_gc (lease : RepoLease) (now : Z)
    : DO (BusyReason + (list Ref * Z * list string * Z)) :=
  transaction (
    let! deleting := get repositoryDeleting in
    if truthy deleting then ret (inl BusyDeleting) else
    let! gc := get gcOperation in
    if gcOwnsSource gc then ret (inl BusyCompact) else
    let! pending := get reachabilityGcPending in
    if bool_decide (is_Some pending) then ret (inl BusyCompact) else
    let! rl := get receiveLease in
    if bool_decide (is_Some (activeLeaseOrUndefined rl now)) then ret (inl BusyReceive) else
    let! preparations := listActiveStockReceivePreparationLeases now in
    if (0 <? length preparations)%nat then ret (inl BusyReceive) else
    let! stock := listActiveStockReceiveOperations in
    if (0 <? length stock)%nat then ret (inl BusyReceive) else
    let! cl := get compactLease in
    if bool_decide (is_Some (activeLeaseOrUndefined cl now)) then ret (inl BusyCompact) else
    let! snapshotLeases := get (fun s => default [] (snapshotMaterializationLeases s)) in
    if js_some (fun l => writer_draining now (snapshot_lease l)) snapshotLeases
    then ret (inl BusyCompact) else
    put (set_compactLease (Some lease)) ;!
    let! rs := get (fun s => default [] (refs s)) in
    let! rv := get (fun s => default 0 (refsVersion s)) in
    let! pins := get (fun s => (listed (snapshotPins s)).*2) in
    let! pv := get (fun s => default 0 (snapshotPinVersion s)) in
    ret (inr (rs, rv, pin_commitSha <$> pins, pv))).

Definition beginReachabilityGcState : DO BeginReachabilityGcResult :=
  let! now := Date_now in
  let! token := randomUUID in
  let lease := mkLease token now (now + COMPACT_LEASE_TTL_MS) (Some OpReachabilityGc) in
  let! acquisition := acquire_gc lease now in
  match acquisition with
  | inl reason => ret (GcBusy LEASE_RETRY_AFTER_SECONDS reason)
  | inr (rs, rv, pins, pinv) =>
    ensureRepoMetadataDefaults ;!
    let! activeCatalog := getActivePackCatalogSnapshot in
    let! pv := get (fun s => orZ (packsetVersion s) 0) in
    ret (GcBegan (mkGcBegin lease rs pins pinv rv pv activeCatalog))
  end.

Definition clearGcAttemptState (token : string) : DO unit :=
  transaction (
    let! pending := get reachabilityGcPending in
    (match pending with
     | Some p => if str_eq (pending_token p) token then put (set_reachabilityGcPending None)
                 else ret tt
     | None => ret tt
     end) ;!
    let! lease := get compactLease in
    match lease with
    | Some l => if str_eq (lease_token l) token then put (set_compactLease None) else ret tt
    | None => ret tt
    end).

Definition recordReachabilityGcPendingState (token key : string) : DO RecordPendingResult :=
  transaction (
    let! deleting := get repositoryDeleting in
    if truthy deleting then ret (PendingRetry true) else
    let! lease := get compactLease in
    let! now := Date_now in
    if negb (gc_lease_held lease token now) then ret (PendingRetry false) else
    put (set_reachabilityGcPending (Some (mkGcPending token key PendingStaged None))) ;!
    ret PendingRecorded).

Definition pending_committing (p : ReachabilityGcPending) (now : Z) : bool :=
  bool_decide (pending_state p = PendingCommitting) &&
  match pending_safeCleanupAt p with
  | Some t => now <? t
  | None => true
  end.

Definition reconcileReachabilityGcPendingState : DO ReconcilePendingResult :=
  let! pending := get reachabilityGcPending in
  match pending with
  | None => ret ReconcileNone
  | Some p =>
    let! target := getPackCatalogRow (pending_packKey p) in
    match target with
    | Some _ => clearGcAttemptState (pending_token p) ;! ret (ReconcileCommitted (pending_packKey p))
    | None =>
      let! now := Date_now in
      if pending_committing p now then
        let! now2 := Date_now in
        ret (ReconcileWait (Z.max 1 (ceil_seconds (default now2 (pending_safeCleanupAt p) - now2))))
      else
      let! abandoned := transaction (
        let! current := get reachabilityGcPending in
        match current with
        | None => ret false
        | Some c =>
          if negb (str_eq (pending_token c) (pending_token p)) ||
             negb (str_eq (pending_packKey c) (pending_packKey p)) then ret false else
          let! now3 := Date_now in
          if pending_committing c now3 then ret false else
          put (set_reachabilityGcPending (Some (mkGcPending (pending_token c) (pending_packKey c)
                 PendingCleanup None))) ;!
          let! lease := get compactLease in
          (match lease with
           | Some l => if str_eq (lease_token l) (pending_token c) then put (set_compactLease None)
                       else ret tt
           | None => ret tt
           end) ;!
          ret true
        end) in
      ret (if abandoned : bool then ReconcileUncommitted (pending_token p) (pending_packKey p)
           else ReconcileWait LEASE_RETRY_AFTER_SECONDS)
    end
  end.

Definition completeReachabilityGcPendingCleanupState (token key : string) : DO bool :=
  transaction (
    let! pending := get reachabilityGcPending in
    match pending with
    | Some p =>
      if bool_decide (pending_state p = PendingCleanup) && str_eq (pending_token p) token &&
         str_eq (pending_packKey p) key
      then put (set_reachabilityGcPending None) ;! ret true
      else ret false
    | None => ret false
    end).

(** *** The commit *)

Definition retainGcCommitReceipt (operationId : option string) (token : string)
    (committed : GcCommit) : DO unit :=
  match operationId with
  | None => ret tt
  | Some id =>
    if str_eq id "" then ret tt else
    transaction (
      let! operation := get gcOperation in
      match operation with
      | Some o =>
        if negb (str_eq (gc_id o) id) ||
           negb (ostr_eq (gs_token <$> gc_snapshot o) (Some token))
        then throw "GC committed without its registered owner" else
        match gc_commit o with
        | Some _ => ret tt
        | None =>
          let! now := Date_now in
          put (set_gcOperation (Some (set_gc_claim None (complete_measurement GcPublish now
            (set_gc_updatedAt now (set_gc_phase GcReclaim (set_gc_commit (Some committed) o))))))) ;!
          let! at_ := Date_now in
          armWake (at_ + GC_WAKE_DELAY_MS)
        end
      | None => throw "GC committed without its registered owner"
      end)
  end.

Definition source_keys (a : CommitGcArgs) : list string :=
  js_filter (fun key => negb (ostr_eq (Some key) (cg_retainedPackKey a)))
    (packKey <$> cg_sourcePacks a).

Definition retained_source (a : CommitGcArgs) : option PackCatalogRow :=
  match cg_retainedPackKey a with
  | Some key => if str_eq key "" then None
                else js_find (fun row => str_eq (packKey row) key) (cg_sourcePacks a)
  | None => None
  end.

Definition expected_target_key (a : CommitGcArgs) : option string :=
  match cg_stagedPack a with
  | Some p => Some (staged_packKey p)
  | None => cg_retainedPackKey a
  end.

(** [catalogAlreadyCommitted]. *)
Definition catalog_already_committed (a : CommitGcArgs) (rows : list PackCatalogRow) : bool :=
  let current := current_rows (cg_sourcePacks a) rows in
  (length current =? length (cg_sourcePacks a))%nat &&
  (0 <? length (source_keys a))%nat &&
  js_every (fun row =>
    if ostr_eq (Some (packKey row)) (cg_retainedPackKey a)
    then is_active row && match retained_source a with
                          | Some s => rowsMatchForCommit [s] [row]
                          | None => false
                          end
    else negb (is_active row) && ostr_eq (supersededBy row) (expected_target_key a)) current &&
  (match expected_target_key a with
   | Some key => str_eq key "" || bool_decide (is_Some (row_of key rows))
   | None => true
   end).

Definition reconcile_committed (a : CommitGcArgs) : DO CommitGcResult :=
  let! currentVersion := get (fun s => orZ (packsetVersion s) 0) in
  let! version := (if cg_packsetVersion a <? currentVersion then ret currentVersion
                   else bumpPacksetVersion) in
  let! activeCatalog := listActivePackCatalog in
  put (set_generationPublicationPending (Some (mkGeneration version (packKey <$> activeCatalog)))) ;!
  (if currentVersion <=? cg_packsetVersion a + 1 then clearCompactionSchedule else ret tt) ;!
  let committed := mkGcCommit version (source_keys a) (expected_target_key a) in
  retainGcCommitReceipt (cg_gcOperationId a) (cg_token a) committed ;!
  clearGcAttemptState (cg_token a) ;!
  ret (GcCommitted committed).

(** The registered operation's guard in the fence transaction. *)
Definition fence_operation (a : CommitGcArgs) (now : Z) (s : Storage) : option GcRetryReason :=
  match cg_gcOperationId a with
  | Some id =>
    if str_eq id "" then None else
    if negb (match gcOperation s with
             | Some o => str_eq (gc_id o) id && bool_decide (gc_phase o = GcPublish) &&
                         match gc_claim o with
                         | Some c => ostr_eq (Some (claim_id c)) (cg_gcClaimId a) &&
                                     (now <? claim_expiresAt c)
                         | None => false
                         end
             | None => false
             end) then Some LeaseMismatch else
    if negb (default 0 (refsVersion s) =? cg_refsVersion a) then Some RefsChanged else
    if negb (default 0 (snapshotPinVersion s) =? cg_snapshotPinVersion a) then Some PinsChanged else
    if negb (default 0 (packsetVersion s) =? cg_packsetVersion a) then Some PacksetChanged else
    None
  | None => None
  end.

(** The fence transaction of [commitReachabilityGcState]; [None] is "held". *)
Definition commit_fence (a : CommitGcArgs) : DO (option GcRetryReason) :=
  transaction (
    let! deleting := get repositoryDeleting in
    if truthy deleting then ret (Some GcRepositoryDeleting) else
    let! now := Date_now in
    let! refused := get (fence_operation a now) in
    match refused with
    | Some reason => ret (Some reason)
    | None =>
      let! lease := get compactLease in
      match lease with
      | None => ret (Some LeaseMismatch)
      | Some l =>
        if negb (gc_lease_held lease (cg_token a) now) then
          (if str_eq (lease_token l) (cg_token a) then put (set_compactLease None) else ret tt) ;!
          ret (Some LeaseMismatch)
        else
        let! pending := get reachabilityGcPending in
        let hold := put (set_compactLease (Some (with_expiresAt l (now + COMPACT_LEASE_TTL_MS)))) ;!
                    ret None in
        match cg_stagedPack a with
        | None => hold
        | Some staged =>
          match pending with
          | Some p =>
            if str_eq (pending_token p) (cg_token a) &&
               str_eq (pending_packKey p) (staged_packKey staged)
            then put (set_reachabilityGcPending (Some (mkGcPending (pending_token p)
                   (pending_packKey p) PendingCommitting
                   (Some (now + COMPACT_LEASE_TTL_MS + EXPIRED_WRITER_DRAIN_MS))))) ;! hold
            else ret (Some PendingMismatch)
          | None => ret (Some PendingMismatch)
          end
        end
      end
    end).

(** The checks between the fence and the catalog replacement. *)
Definition commit_recheck (a : CommitGcArgs) : DO (option GcRetryReason) :=
  let! now := Date_now in
  let! rl := get receiveLease in
  if bool_decide (is_Some (activeLeaseOrUndefined rl now)) then ret (Some ReceiveActive) else
  let! now2 := Date_now in
  let! preparations := listActiveStockReceivePreparationLeases now2 in
  if (0 <? length preparations)%nat then ret (Some ReceiveActive) else
  let! now3 := Date_now in
  let! readers := get (fun s => js_filter (fun l => lease_is OpSnapshotProjection l &&
                                     (now3 <? lease_expiresAt l)) (default [] (repositoryReadLeases s))) in
  if (0 <? length readers)%nat then ret (Some ReceiveActive) else
  let! rv := get (fun s => orZ (refsVersion s) 0) in
  if negb (rv =? cg_refsVersion a) then ret (Some RefsChanged) else
  let! sv := get (fun s => default 0 (snapshotPinVersion s)) in
  if negb (sv =? cg_snapshotPinVersion a) then ret (Some PinsChanged) else
  let! pv := get (fun s => orZ (packsetVersion s) 0) in
  if negb (pv =? cg_packsetVersion a) then ret (Some PacksetChanged) else
  let! rows := get (fun s => current_rows (cg_sourcePacks a) (pack_catalog s)) in
  if negb (rowsMatchForCommit (cg_sourcePacks a) rows) then ret (Some SourceChanged) else
  ret None.

(** The replacement and the bookkeeping after it. *)
Definition commit_replace (a : CommitGcArgs) (targetPack : option PackCatalogRow) : DO CommitGcResult :=
  let! replaced := try_catch (replaceActivePackCatalog (source_keys a) targetPack ;! ret true)
                     (fun _ => clearGcAttemptState (cg_token a) ;! ret false) in
  if negb replaced then ret (GcRetry CatalogReplacementFailed) else
  let! activeCatalog := listActivePackCatalog in
  if negb (length activeCatalog =? (if targetPack is Some _ then 1 else 0))%nat
  then throw "reachability GC catalog commit produced an invalid active pack count" else
  let! version := bumpPacksetVersion in
  put (set_generationPublicationPending (Some (mkGeneration version (packKey <$> activeCatalog)))) ;!
  clearCompactionSchedule ;!
  let committed := mkGcCommit version (source_keys a) (packKey <$> targetPack) in
  retainGcCommitReceipt (cg_gcOperationId a) (cg_token a) committed ;!
  clearGcAttemptState (cg_token a) ;!
  ret (GcCommitted committed).

Definition commitReachabilityGcState (a : CommitGcArgs) : DO CommitGcResult :=
  if truthy_string (cg_retainedPackKey a) &&
     (negb (bool_decide (is_Some (retained_source a))) || bool_decide (is_Some (cg_stagedPack a)))
  then ret (GcRetry SourceChanged) else
  let! already := get (fun s => catalog_already_committed a (pack_catalog s)) in
  if already : bool then reconcile_committed a else
  let! fence := commit_fence a in
  match fence with
  | Some reason => ret (GcRetry reason)
  | None =>
    let! stale := commit_recheck a in
    match stale with
    | Some reason => clearGcAttemptState (cg_token a) ;! ret (GcRetry reason)
    | None =>
      match cg_stagedPack a with
      | None =>
        if (length (source_keys a) =? 0)%nat then
          let committed := mkGcCommit (cg_packsetVersion a) [] (packKey <$> retained_source a) in
          retainGcCommitReceipt (cg_gcOperationId a) (cg_token a) committed ;!
          clearGcAttemptState (cg_token a) ;!
          ret (GcCommitted committed)
        else commit_replace a (retained_source a)
      | Some staged =>
        let! now := Date_now in
        commit_replace a (Some (mkRow (staged_packKey staged) KindCompact PackActive
          (staged_tier (cg_sourcePacks a)) (staged_seqLo (cg_sourcePacks a))
          (staged_seqHi (cg_sourcePacks a)) (staged_objectCount staged)
          (staged_packBytes staged) (staged_idxBytes staged) now None))
      end
    end
  end.
End ReachabilityGc.
