(* ===== verification/GcOperations.v ===== *)
(** * The durable garbage-collection operation

    [catalog/gcOperation.ts]: admission, claims, the closed phase transitions,
    the commit, the keys a discard may delete and the alarm. *)
From S2P Require Import Prelude Storage Effects Text Keys Catalog Activity Scheduler Lifecycle.
From S2P Require Import Gc ReachabilityGc.

(** ** Definitions *)

Inductive GcRejection :=
  | RejDeleting | RejOperationMismatch | RejClaimMismatch | RejPhaseMismatch
  | RejSourceChanged | RejInvalidInput.

Inductive GcOperationResult :=
  | GcReady (operation : GcOperation)
  | GcOpBusy (retryAt : Z)
  | GcRejected (reason : GcRejection).

Record GcQualificationOptions := mkQualOptions {
  qo_faults : list GcFault;
  qo_holdReader : bool;
  qo_deadlineAt : Z }.

Inductive DiscardReason := DiscardSourceChanged | DiscardNativeRejected | DiscardRewriteRejected.

Inductive GcProgress :=
  | ProgStep (step : GcStep) (elapsedMs : Z) (observedRequests writtenBytes : option Z)
  | ProgSnapshot (snapshot : GcSnapshot)
  | ProgPlan (closure : GcClosure) (retained : option string)
  | ProgRewriteIntent (identity : GcRewriteIdentity)
  | ProgRewriteComplete (identity : GcRewriteIdentity) (etag : string)
  | ProgNativeComplete (result : GcNativeResult)
  | ProgReclaimed
  | ProgDiscard (reason : DiscardReason)
  | ProgDiscarded
  | ProgYield
  | ProgBlocked (reason : string).

Definition discard_text (r : DiscardReason) : string :=
  match r with
  | DiscardSourceChanged => "source-changed"
  | DiscardNativeRejected => "native-rejected"
  | DiscardRewriteRejected => "rewrite-rejected"
  end.

Definition isGcTerminal (o : GcOperation) : bool := gc_phase_in [GcComplete; GcBlocked] (gc_phase o).

Definition MAX_SAFE_INTEGER : Z := 2 ^ 53 - 1.
Definition isSafeInteger (z : Z) : bool := (- MAX_SAFE_INTEGER <=? z) && (z <=? MAX_SAFE_INTEGER).

Definition fault_eqb (a b : GcFault) : bool := bool_decide (a = b).

(** [sort().join(",")] on both sides: the same faults as sets of object keys and
    list; the options' list is compared with its repetitions. *)
Definition fault_rank (f : GcFault) : Z :=
  match f with
  | FaultAfterPublication => 0 | FaultAfterRewrite => 1 | FaultBeforePublication => 2
  | FaultDuringNative => 3 end.
Definition sort_faults (l : list GcFault) : list GcFault :=
  js_sort (fun a b => fault_rank a <? fault_rank b) l.

(** [Object.fromEntries]: one key per fault. *)
Definition fault_keys (l : list GcFault) : list GcFault :=
  foldl (fun acc f => if js_some (fault_eqb f) acc then acc else js_push acc f) [] l.

Definition same_qualification (q : GcQualificationOptions) (o : GcOperation) : bool :=
  match gc_qualification o with
  | Some s =>
    (qual_deadlineAt s =? qo_deadlineAt q) &&
    bool_decide (sort_faults (qual_faults s) = sort_faults (qo_faults q)) &&
    eqb (qual_reader s) (qo_holdReader q)
  | None => false
  end.

Definition valid_operation_id (id : string) : bool := matches_all is_word_dash 1 100 id.

(** The freshly admitted operation. *)
Definition new_operation (doId repositoryId operationId : string)
    (q : option GcQualificationOptions) (now : Z) : GcOperation :=
  let p := doPrefix doId in
  mkGc operationId repositoryId GcQueued now now None None None None None
    (r2PackKey p ("gc-" ++ operationId ++ "-input.pack")%string)
    (r2PackKey p ("gc-" ++ operationId ++ "-output.pack")%string)
    (r2PackKey p ("gc-" ++ operationId ++ "-result.json")%string)
    None None None None None None
    ((fun o => mkQualification (qo_deadlineAt o) (fault_keys (qo_faults o)) (qo_holdReader o)) <$> q)
    ∅ ∅.

(** The step's phase, its validity and the accumulated measurement. *)
Definition step_phase (s : GcStep) : GcPhase :=
  match s with
  | StepClosurePlanning | StepRewriteSelection | StepRewriteUpload => GcRewrite
  | StepOutputValidation => GcIndex
  | StepGenerationPublication => GcReclaim
  end.

Definition safe_count (v : option Z) : bool :=
  match v with
  | None => true
  | Some z => isSafeInteger z && (0 <=? z)
  end.

(** Accumulation of a nullable counter over attempts: [previous] is [None] when
    no measurement exists, [Some None] when the recorded value is [null]. *)
Definition add_counter (previous : option (option Z)) (v : option Z) : option Z :=
  match v, previous with
  | None, _ => None
  | _, Some None => None
  | Some z, Some (Some p) => Some (p + z)
  | Some z, None => Some z
  end.

Definition add_step (step : GcStep) (elapsedMs : Z) (requests written : option Z)
    (o : GcOperation) : GcOperation :=
  let previous := gc_stepMeasurements o !! step in
  set_gc_stepMeasurements (<[step := mkStepMeasurement
    (default 0 (step_completedAttempts <$> previous) + 1)
    (default 0 (step_elapsedMs <$> previous) + elapsedMs)
    (add_counter (step_observedRequests <$> previous) requests)
    (add_counter (step_writtenBytes <$> previous) written)]> (gc_stepMeasurements o)) o.

Definition same_rewrite (a b : GcRewriteIdentity) : bool :=
  (rewrite_packBytes a =? rewrite_packBytes b) && str_eq (rewrite_packSha1 a) (rewrite_packSha1 b).

Definition set_phase_blocked (phase : GcPhase) (reason : string) (o : GcOperation) : GcOperation :=
  set_gc_blockedReason (Some reason) (set_gc_phase phase o).

(** The versions the coordination (or the snapshot) accounts for. *)
Definition accounted_versions (o : GcOperation) (snap : GcSnapshot) : Z * Z * Z :=
  match gc_coordination o with
  | Some c => (coord_refsVersion c, coord_packsetVersion c, coord_snapshotPinVersion c)
  | None => (gs_refsVersion snap, gs_packsetVersion snap, gs_snapshotPinVersion snap)
  end.

Definition versions_match (v : Z * Z * Z) (s : Storage) : bool :=
  (default 0 (refsVersion s) =? v.1.1) && (default 0 (packsetVersion s) =? v.1.2) &&
  (default 0 (snapshotPinVersion s) =? v.2).

(** *** The phase transitions of [recordGcProgress] that need no storage *)

Definition plan_progress (c : GcClosure) (retained : option string) (o : GcOperation)
    : GcRejection + GcOperation :=
  if negb (bool_decide (gc_phase o = GcRewrite)) || bool_decide (is_Some (gc_closure o))
  then inl RejPhaseMismatch else
  if negb (isSafeInteger (closure_objectCount c)) || (closure_objectCount c <? 0) ||
     negb (sha_hex 64 (objectSetSha256 c)) ||
     (truthy_string retained &&
      negb (match gc_snapshot o with
            | Some snap => js_some (fun row => ostr_eq (Some (packKey row)) retained)
                             (gs_sourcePacks snap)
            | None => false
            end))
  then inl RejInvalidInput else
  let o1 := set_gc_retainedPackKey retained (set_gc_closure (Some c) o) in
  inr (if truthy_string retained || (closure_objectCount c =? 0)
       then set_gc_phase GcPublish o1 else o1).

Definition rewrite_intent_progress (i : GcRewriteIdentity) (o : GcOperation)
    : GcRejection + GcOperation :=
  if negb (bool_decide (gc_phase o = GcRewrite)) || negb (bool_decide (is_Some (gc_closure o)))
  then inl RejPhaseMismatch else
  if negb (isSafeInteger (rewrite_packBytes i)) || (rewrite_packBytes i <? 32) ||
     negb (sha_hex 40 (rewrite_packSha1 i)) then inl RejInvalidInput else
  match gc_rewriteIntent o with
  | Some j => if same_rewrite j i then inr (set_gc_rewriteIntent (Some i) o) else inl RejInvalidInput
  | None => inr (set_gc_rewriteIntent (Some i) o)
  end.

Definition rewrite_complete_progress (i : GcRewriteIdentity) (etag : string) (o : GcOperation)
    : GcRejection + GcOperation :=
  match gc_rewriteIntent o with
  | Some j =>
    if negb (bool_decide (gc_phase o = GcRewrite)) then inl RejPhaseMismatch else
    if negb (same_rewrite j i) || str_eq etag "" then inl RejInvalidInput else
    inr (set_gc_phase GcIndex (set_gc_rewrite (Some (i, etag)) o))
  | None => inl RejPhaseMismatch
  end.

Definition native_complete_progress (r : GcNativeResult) (o : GcOperation)
    : GcRejection + GcOperation :=
  match gc_rewrite o, gc_closure o with
  | Some (i, _), Some c =>
    if negb (bool_decide (gc_phase o = GcIndex)) then inl RejPhaseMismatch else
    if negb (str_eq (nres_operationId r) (gc_id o)) ||
       negb (str_eq (nres_packSha1 r) (rewrite_packSha1 i)) ||
       negb (nres_packBytes r =? rewrite_packBytes i) ||
       negb (nres_objectCount r =? closure_objectCount c) ||
       negb (ostr_eq (nres_objectSetSha256 r) (Some (objectSetSha256 c)))
    then inl RejInvalidInput
    else inr (set_gc_phase GcPublish (set_gc_nativeResult (Some r) o))
  | _, _ => inl RejPhaseMismatch
  end.

Definition discard_progress (reason : DiscardReason) (o : GcOperation) : GcRejection + GcOperation :=
  if negb (gc_phase_in [GcRewrite; GcIndex; GcPublish] (gc_phase o)) ||
     bool_decide (is_Some (gc_commit o)) then inl RejPhaseMismatch
  else inr (set_phase_blocked GcDiscard (discard_text reason)
              (set_gc_discardAfter (claim_safeRetryAt <$> gc_claim o) o)).

Definition discarded_progress (now : Z) (o : GcOperation) : GcRejection + GcOperation :=
  if negb (bool_decide (gc_phase o = GcDiscard)) || bool_decide (is_Some (gc_commit o)) ||
     (match gc_discardAfter o with Some t => now <? t | None => true end)
  then inl RejPhaseMismatch
  else inr (set_gc_phase GcBlocked o).

Definition blocked_progress (reason : string) (o : GcOperation) : GcRejection + GcOperation :=
  if bool_decide (is_Some (gc_rewriteIntent o)) || bool_decide (is_Some (gc_rewrite o)) ||
     bool_decide (is_Some (gc_nativeResult o)) || bool_decide (is_Some (gc_commit o))
  then inl RejPhaseMismatch
  else inr (set_phase_blocked GcBlocked reason o).

Definition snapshot_progress (snap : GcSnapshot) (now : Z) (s : Storage) (o : GcOperation)
    : GcRejection + GcOperation :=
  if negb (bool_decide (gc_phase o = GcQueued)) then inl RejPhaseMismatch else
  if negb (gc_lease_held (compactLease s) (gs_token snap) now) ||
     negb (versions_match (gs_refsVersion snap, gs_packsetVersion snap, gs_snapshotPinVersion snap) s)
  then inl RejSourceChanged
  else inr (set_gc_phase GcRewrite (set_gc_coordination
         (Some (mkCoordination (gs_refsVersion snap) (gs_packsetVersion snap)
                  (gs_snapshotPinVersion snap) [] None None 0))
         (set_gc_snapshot (Some snap) o))).

Definition step_progress (step : GcStep) (elapsed : Z) (requests written : option Z)
    (o : GcOperation) : GcRejection + GcOperation :=
  if negb (bool_decide (step_phase step = gc_phase o)) || negb (isSafeInteger elapsed) ||
     (elapsed <? 0) || negb (safe_count requests && safe_count written)
  then inl RejInvalidInput
  else inr (add_step step elapsed requests written o).

(** The [switch] of [recordGcProgress]. *)
Definition apply_progress (progress : GcProgress) (now : Z) (s : Storage) (o : GcOperation)
    : GcRejection + GcOperation :=
  match progress with
  | ProgStep step elapsed requests written => step_progress step elapsed requests written o
  | ProgYield => inr (set_gc_claim None o)
  | ProgSnapshot snap => snapshot_progress snap now s o
  | ProgPlan c retained => plan_progress c retained o
  | ProgRewriteIntent i => rewrite_intent_progress i o
  | ProgRewriteComplete i etag => rewrite_complete_progress i etag o
  | ProgNativeComplete r => native_complete_progress r o
  | ProgReclaimed =>
    if bool_decide (gc_phase o = GcReclaim) && bool_decide (is_Some (gc_commit o))
    then inr (set_gc_phase GcComplete o) else inl RejPhaseMismatch
  | ProgDiscard reason => discard_progress reason o
  | ProgDiscarded => discarded_progress now o
  | ProgBlocked reason => blocked_progress reason o
  end.

Definition is_snapshot_progress (p : GcProgress) : bool :=
  match p with ProgSnapshot _ => true | _ => false end.

(** The bookkeeping after a change of phase. *)
Definition after_phase (progress : GcProgress) (previous : GcPhase) (now : Z) (o : GcOperation)
    : GcOperation :=
  if bool_decide (gc_phase o = previous) then o else
  let o1 := complete_measurement previous now o in
  if is_snapshot_progress progress
  then set_gc_measurements (<[GcRewrite := mkMeasurement 1 now None None]> (gc_measurements o1)) o1
  else set_gc_claim None o1.

(** *** The claim of an operation *)

(** The deadline of unpublished work. *)
Definition apply_deadline (now : Z) (o : GcOperation) : GcOperation :=
  let deadlineAt := match gc_qualification o with
                    | Some q => qual_deadlineAt q
                    | None => gc_createdAt o + GC_UNPUBLISHED_LIFETIME_MS
                    end in
  if (deadlineAt <=? now) && negb (bool_decide (is_Some (gc_commit o))) &&
     gc_phase_in [GcQueued; GcRewrite; GcIndex] (gc_phase o)
  then set_gc_discardAfter (Some now)
         (set_phase_blocked GcDiscard
            (if gc_qualification o is Some _ then "qualification-deadline" else "operation-deadline") o)
  else o.

(** The writer whose drain a claim waits for. *)
Definition other_writer (o : GcOperation) (snap : GcSnapshot) (now : Z) (s : Storage)
    : option RepoLease :=
  let candidates :=
    [if gc_coordination o is Some _ then None else receiveLease s;
     match compactLease s with
     | Some l => if str_eq (lease_token l) (gs_token snap) then None else Some l
     | None => None
     end] in
  js_find (writer_draining now) (omap id candidates).

(** Issue the execution claim and count the attempt. *)
Definition issue_claim (token : string) (now : Z) (o : GcOperation) : GcOperation :=
  let m := gc_measurements o !! gc_phase o in
  let o1 := set_gc_updatedAt now (set_gc_claim (Some (mkClaim token (now + COMPACT_LEASE_TTL_MS)
              (now + COMPACT_LEASE_TTL_MS + EXPIRED_WRITER_DRAIN_MS))) o) in
  set_gc_measurements (<[gc_phase o := mkMeasurement
    (default 0 (meas_attempts <$> m) + 1) (default now (meas_startedAt <$> m))
    (mbind meas_completedAt m) (mbind meas_elapsedMs m)]> (gc_measurements o)) o1.

Section GcOperations.
Context `{Env}.

Definition registerGcOperation (repositoryId operationId : string)
    (qualification : option GcQualificationOptions) : DO GcOperationResult :=
  if negb (valid_operation_id operationId) || str_eq repositoryId "" then
    ret (GcRejected RejInvalidInput) else
  let! now0 := Date_now in
  let! now1 := Date_now in
  if (match qualification with
      | Some q => negb (isSafeInteger (qo_deadlineAt q)) || (qo_deadlineAt q <=? now0) ||
                  (now1 + GC_UNPUBLISHED_LIFETIME_MS <? qo_deadlineAt q)
      | None => false
      end) then ret (GcRejected RejInvalidInput) else
  transaction (
    let! deleting := get repositoryDeleting in
    if truthy deleting then ret (GcRejected RejDeleting) else
    let! current := get gcOperation in
    let! admitted := get (fun s => default false (gcAdmissions s !! operationId)) in
    let! now := Date_now in
    let fresh :=
      if admitted : bool then ret (GcRejected RejOperationMismatch) else
      if (match current with Some o => negb (isGcTerminal o) | None => false end)
      then ret (GcOpBusy (now + GC_WAKE_DELAY_MS)) else
      let operation := new_operation do_id repositoryId operationId qualification now in
      put (set_gcOperation (Some operation)) ;!
      put (fun s => set_gcAdmissions (<[operationId := true]> (gcAdmissions s)) s) ;!
      armWake (now + GC_WAKE_DELAY_MS) ;!
      ret (GcReady operation) in
    match current with
    | Some o =>
      if str_eq (gc_id o) operationId then
        if negb (str_eq (gc_repositoryId o) repositoryId) ||
           (match qualification with Some q => negb (same_qualification q o) | None => false end)
        then ret (GcRejected RejOperationMismatch) else
        (if isGcTerminal o then ret tt else armWake (now + GC_WAKE_DELAY_MS)) ;!
        ret (GcReady o)
      else fresh
    | None => fresh
    end).

(** The source lease of a claimed operation: the renewed lease, or the change
    to the discard phase. *)
Definition claim_source (o : GcOperation) (snap : GcSnapshot) (now : Z) : DO GcOperation :=
  let! s := get id in
  let rl := receiveLease s in
  if (bool_decide (is_Some (gc_coordination o)) && bool_decide (is_Some rl)) ||
     versions_match (accounted_versions o snap) s
  then
    put (set_compactLease (Some (mkLease (gs_token snap)
           (default now (lease_createdAt <$> compactLease s)) (now + COMPACT_LEASE_TTL_MS)
           (Some OpReachabilityGc)))) ;!
    ret o
  else
    ret (if bool_decide (gc_phase o = GcPublish) then o
         else set_gc_discardAfter (Some now) (set_phase_blocked GcDiscard "source-changed" o)).

(** The tail of [claimGcOperation] after the source lease is settled. *)
Definition finish_claim (now : Z) (o : GcOperation) : DO GcOperationResult :=
  let! token := randomUUID in
  let operation := issue_claim token now o in
  put (set_gcOperation (Some operation)) ;!
  armWake (now + GC_WAKE_DELAY_MS) ;!
  ret (GcReady operation).

Definition claimGcOperation (operationId : string) : DO GcOperationResult :=
  transaction (
    let! deleting := get repositoryDeleting in
    if truthy deleting then ret (GcRejected RejDeleting) else
    let! current := get gcOperation in
    match current with
    | None => ret (GcRejected RejOperationMismatch)
    | Some o =>
      if negb (str_eq (gc_id o) operationId) then ret (GcRejected RejOperationMismatch) else
      if isGcTerminal o then ret (GcReady o) else
      let! now := Date_now in
      let discardAt := orZ (gc_discardAfter o) now in
      if now <? discardAt then armWake discardAt ;! ret (GcOpBusy discardAt) else
      let retryAt := match gc_claim o with Some c => claim_safeRetryAt c | None => now end in
      if now <? retryAt then armWake retryAt ;! ret (GcOpBusy retryAt) else
      let o1 := apply_deadline now o in
      match gc_snapshot o1 with
      | Some snap =>
        if gc_phase_in [GcRewrite; GcIndex; GcPublish] (gc_phase o1) then
          let! writer := get (other_writer o1 snap now) in
          match writer with
          | Some l =>
            armWake (now + GC_WAKE_DELAY_MS) ;!
            ret (GcOpBusy (lease_expiresAt l + EXPIRED_WRITER_DRAIN_MS))
          | None => let! o2 := claim_source o1 snap now in finish_claim now o2
          end
        else finish_claim now o1
      | None => finish_claim now o1
      end
    end).

(** The release of the lease and of the pending record by a blocked operation. *)
Definition release_blocked (o : GcOperation) : DO unit :=
  let token := gs_token <$> gc_snapshot o in
  let! lease := get compactLease in
  (if ostr_eq (lease_token <$> lease) token then put (set_compactLease None) else ret tt) ;!
  let! pending := get reachabilityGcPending in
  (if ostr_eq (pending_token <$> pending) token then put (set_reachabilityGcPending None)
   else ret tt).

Definition recordGcProgress (operationId claimId : string) (progress : GcProgress)
    : DO GcOperationResult :=
  transaction (
    let! deleting := get repositoryDeleting in
    if truthy deleting then ret (GcRejected RejDeleting) else
    let! current := get gcOperation in
    match current with
    | None => ret (GcRejected RejOperationMismatch)
    | Some o =>
      if negb (str_eq (gc_id o) operationId) then ret (GcRejected RejOperationMismatch) else
      let! now := Date_now in
      if negb (claim_live o claimId now) then ret (GcRejected RejClaimMismatch) else
      let! s := get id in
      match apply_progress progress now s o with
      | inl reason => ret (GcRejected reason)
      | inr o1 =>
        let o2 := set_gc_updatedAt now o1 in
        (if bool_decide (gc_phase o2 = GcBlocked) then release_blocked o2 else ret tt) ;!
        let o3 := after_phase progress (gc_phase o) now o2 in
        put (set_gcOperation (Some o3)) ;!
        (if isGcTerminal o3 then ret tt else armWake (now + GC_WAKE_DELAY_MS)) ;!
        ret (GcReady o3)
      end
    end).

(** The transaction of [commitGcOperation] that prepares a coordinated
    publication. *)
Definition prepare_publication (operationId claimId : string) : DO unit :=
  transaction (
    let! current := get gcOperation in
    match current with
    | Some o =>
      match gc_coordination o with
      | Some c =>
        let! now := Date_now in
        if str_eq (gc_id o) operationId && bool_decide (gc_phase o = GcPublish) &&
           claim_live o claimId now
        then put (set_gcOperation (Some (set_gc_coordination
                    (Some (set_publicationClaimId (Some claimId) c)) o)))
        else ret tt
      | None => ret tt
      end
    | None => ret tt
    end).

Definition commit_args (o : GcOperation) (snap : GcSnapshot) (claimId : string) : CommitGcArgs :=
  mkCommitGc (gs_token snap) (gs_refsVersion snap) (gs_packsetVersion snap)
    (gs_snapshotPinVersion snap) (gs_sourcePacks snap) (gc_retainedPackKey o)
    ((fun r => mkStaged (gc_outputPackKey o) (nres_packBytes r) (nres_idxBytes r)
                 (nres_objectCount r) None) <$> gc_nativeResult o)
    (Some (gc_id o)) (Some claimId).

Definition commitGcOperation (operationId claimId : string) : DO CommitGcResult :=
  let! current := get gcOperation in
  match current with
  | None => ret (GcRetry LeaseMismatch)
  | Some o =>
    if negb (str_eq (gc_id o) operationId) then ret (GcRetry LeaseMismatch) else
    match gc_commit o with
    | Some c => ret (GcCommitted c)
    | None =>
      let! now := Date_now in
      match gc_snapshot o with
      | Some snap =>
        if negb (bool_decide (gc_phase o = GcPublish)) || negb (bool_decide (is_Some (gc_closure o))) ||
           negb (claim_live o claimId now)
        then ret (GcRetry LeaseMismatch) else
        let! pending := (match gc_nativeResult o with
                         | Some _ => recordReachabilityGcPendingState (gs_token snap) (gc_outputPackKey o)
                         | None => ret PendingRecorded
                         end) in
        match pending with
        | PendingRetry true => ret (GcRetry GcRepositoryDeleting)
        | _ =>
          match gc_coordination o with
          | Some _ =>
            prepare_publication operationId claimId ;!
            commitCoordinatedGc operationId claimId
          | None => commitReachabilityGcState (commit_args o snap claimId)
          end
        end
      | None => ret (GcRetry LeaseMismatch)
      end
    end
  end.

Definition gcDiscardKeys (operationId claimId : string) : DO (option (list string)) :=
  let! current := get gcOperation in
  let! deleting := get repositoryDeleting in
  match current with
  | Some o =>
    let! now := Date_now in
    if truthy deleting || negb (str_eq (gc_id o) operationId) ||
       negb (bool_decide (gc_phase o = GcDiscard)) || bool_decide (is_Some (gc_commit o)) ||
       negb (claim_live o claimId now) ||
       (match gc_discardAfter o with Some t => now <? t | None => true end)
    then ret None else
    let! row := getPackCatalogRow (gc_outputPackKey o) in
    if bool_decide (is_Some row) then ret None else
    let! pending := get reachabilityGcPending in
    let! now2 := Date_now in
    if (match pending with
        | Some p => ostr_eq (Some (pending_token p)) (gs_token <$> gc_snapshot o) &&
                    pending_committing p now2
        | None => false
        end) then ret None else
    ret (Some [gc_inputPackKey o; gc_outputPackKey o; packIndexKey (gc_outputPackKey o);
               packRefsKey (gc_outputPackKey o); gc_outputResultKey o])
  | None => ret None
  end.

Definition resumeGcFromAlarm : DO bool :=
  let! operation := transaction (
    let! deleting := get repositoryDeleting in
    if truthy deleting then ret None else
    let! current := get gcOperation in
    match current with
    | None => ret None
    | Some o =>
      if isGcTerminal o then ret None else
      let! now := Date_now in
      let! lease := get compactLease in
      (match lease with
       | Some l =>
         if ostr_eq (Some (lease_token l)) (gs_token <$> gc_snapshot o) &&
            lease_is OpReachabilityGc l
         then put (set_compactLease (Some (with_expiresAt l (now + COMPACT_LEASE_TTL_MS))))
         else ret tt
       | None => ret tt
       end) ;!
      put (set_alarm (Some (now + GC_WAKE_DELAY_MS))) ;!
      ret (Some o)
    end) in
  match operation with
  | None => ret false
  | Some o =>
    let! now := Date_now in
    if (match gc_claim o with Some c => now <? claim_safeRetryAt c | None => false end)
    then ret true
    else try_catch queue_send (fun _ => ret tt) ;! ret true
  end.
End GcOperations.
