(* ===== verification/GcRefinement.v ===== *)
(** * The collection as a state machine

    The abstract machine a garbage-collection operation promises to follow - its
    phases, the permanence of its receipt, of its source snapshot and of its
    closure - and the proof that every handler which writes the operation
    ([catalog/gcOperation.ts], [catalog/gcPublication.ts],
    [catalog/gcCoordination.ts], [catalog/reachabilityGc.ts]) refines it. *)
From S2P Require Import Prelude Storage Effects Text Catalog Activity Scheduler Lifecycle.
From S2P Require Import Gc ReachabilityGc GcOperations.

(** ** The abstract machine *)

Definition gc_next (p : GcPhase) : list GcPhase :=
  match p with
  | GcQueued => [GcRewrite; GcDiscard; GcBlocked]
  | GcRewrite => [GcIndex; GcPublish; GcDiscard; GcBlocked]
  | GcIndex => [GcPublish; GcDiscard; GcBlocked]
  | GcPublish => [GcReclaim; GcDiscard; GcBlocked]
  | GcReclaim => [GcComplete]
  | GcDiscard => [GcBlocked]
  | GcComplete | GcBlocked => []
  end.

(** A field that keeps its value once it has one. *)
Definition settled {A} (x x' : option A) : Prop := forall a, x = Some a -> x' = Some a.

Definition phase_step (p p' : GcPhase) : bool := bool_decide (p = p') || gc_phase_in (gc_next p) p'.

(** One change of a stored operation. *)
Record gc_advances (o o' : GcOperation) : Prop := {
  adv_id : gc_id o' = gc_id o;
  adv_phase : phase_step (gc_phase o) (gc_phase o') = true;
  adv_commit : settled (gc_commit o) (gc_commit o');
  adv_snapshot : settled (gc_snapshot o) (gc_snapshot o');
  adv_closure : settled (gc_closure o) (gc_closure o') }.

Inductive gc_step : option GcOperation -> option GcOperation -> Prop :=
  | gc_admitted current o :
      match current with Some x => isGcTerminal x = true | None => True end ->
      gc_phase o = GcQueued -> gc_commit o = None -> gc_claim o = None ->
      gc_step current (Some o)
  | gc_advanced o o' : gc_advances o o' -> gc_step (Some o) (Some o').

(** What a phase says about the receipt, the source, the closure, the
    coordination and the rewrite intent. *)
Definition shape_ok (p : GcPhase) (commit source closure coordination intent : bool) : bool :=
  eqb commit (gc_phase_in [GcReclaim; GcComplete] p) &&
  implb (gc_phase_in [GcQueued] p) (negb source) &&
  implb (gc_phase_in [GcRewrite; GcIndex; GcPublish; GcReclaim; GcComplete] p) source &&
  implb (gc_phase_in [GcIndex; GcPublish; GcReclaim; GcComplete] p) closure &&
  implb source coordination && implb intent closure.

Definition has {A} (x : option A) : bool := match x with Some _ => true | None => false end.

Definition gc_shape (o : GcOperation) : bool :=
  shape_ok (gc_phase o) (has (gc_commit o)) (has (gc_snapshot o)) (has (gc_closure o))
    (has (gc_coordination o)) (has (gc_rewriteIntent o)).

(** What a stored operation satisfies. *)
Definition gc_wf (o : GcOperation) : Prop :=
  gc_shape o = true /\ (isGcTerminal o = true -> gc_claim o = None).

Definition gc_invariant (s : Storage) : Prop :=
  match gcOperation s with Some o => gc_wf o | None => True end.

Definition gc_evolves (s s' : Storage) : Prop := rtc gc_step (gcOperation s) (gcOperation s').

#[export] Instance gc_evolves_preorder : PreOrder gc_evolves.
Proof. split; [intros s; apply rtc_refl | intros s1 s2 s3; unfold gc_evolves; apply rtc_trans]. Qed.

(** ** Lemmas *)

Lemma gc_phase_in_true l p : gc_phase_in l p = true <-> p ∈ l.
Proof.
  unfold gc_phase_in. rewrite js_some_true. split.
  - intros (x & Hx & E). to_prop. by subst.
  - intros H. exists p. split; [done|]. by apply bool_decide_eq_true.
Qed.

Lemma settled_refl {A} (x : option A) : settled x x.
Proof. by intros a. Qed.

Lemma settled_none {A} (x : option A) : settled None x.
Proof. by intros a. Qed.

#[export] Hint Resolve settled_refl settled_none : golib.


Lemma phase_step_refl p : phase_step p p = true.
Proof. by destruct p. Qed.

Lemma gc_advances_refl o : gc_advances o o.
Proof. split; auto using phase_step_refl with golib. Qed.

(** The guards of a progress, as equations. *)
Ltac guards :=
  repeat match goal with
  | H : inl _ = inr _ |- _ => discriminate H
  | H : inr _ = inr _ |- _ => injection H as <-
  | H : (if ?b then _ else _) = inr _ |- _ => destruct b eqn:?
  | H : match ?x with _ => _ end = inr _ |- _ => destruct x eqn:?
  end;
  repeat match goal with
  | H : _ || _ = false |- _ => apply orb_false_iff in H as [? ?]
  | H : _ && _ = true |- _ => apply andb_true_iff in H as [? ?]
  | H : negb _ = false |- _ => apply negb_false_iff in H
  | H : bool_decide (_ = _) = true |- _ => apply bool_decide_eq_true in H
  end.

(** Case analysis on the phase and on the options the shape mentions, and the
    clauses of [gc_advances] and [gc_shape] in each case. *)
Ltac known_fields :=
  repeat match goal with
  | E : gc_phase ?o = _ |- context [gc_phase ?o] => rewrite E
  | E : gc_commit ?o = _ |- context [gc_commit ?o] => rewrite E
  | E : gc_snapshot ?o = _ |- context [gc_snapshot ?o] => rewrite E
  | E : gc_closure ?o = _ |- context [gc_closure ?o] => rewrite E
  | E : gc_coordination ?o = _ |- context [gc_coordination ?o] => rewrite E
  | E : gc_rewriteIntent ?o = _ |- context [gc_rewriteIntent ?o] => rewrite E
  end.

Ltac shapes o :=
  repeat match goal with |- context [if ?b then _ else _] => destruct b eqn:? end;
  unfold gc_shape, isGcTerminal, set_phase_blocked in *;
  destruct (gc_phase o) eqn:?, (gc_commit o) eqn:?, (gc_snapshot o) eqn:?, (gc_closure o) eqn:?,
    (gc_coordination o) eqn:?, (gc_rewriteIntent o) eqn:?;
  try discriminate; simpl in *; try discriminate;
  (split; [split | ]); simpl; known_fields; first [done | solve [auto with golib]].

Lemma progress_advances p now s o o1 :
  gc_wf o -> is_Some (gc_claim o) -> apply_progress p now s o = inr o1 ->
  gc_advances o o1 /\ gc_shape o1 = true.
Proof.
  intros [Hshape Ht] [cl Hcl] Hrun.
  assert (isGcTerminal o = false) as Hn.
  { destruct (isGcTerminal o) eqn:E; [|done]. specialize (Ht eq_refl). congruence. }
  clear Ht. destruct p; simpl in Hrun; unfold step_progress, snapshot_progress, plan_progress,
    rewrite_intent_progress, rewrite_complete_progress, native_complete_progress,
    discard_progress, discarded_progress, blocked_progress in Hrun; guards.
  all: shapes o.
Qed.

(** The invariant after a change, and the change itself. *)
Definition gc_kept (s s' : Storage) : Prop := gc_invariant s' /\ gc_evolves s s'.

Lemma gc_write s s' o o' :
  gcOperation s = Some o -> gcOperation s' = Some o' -> gc_advances o o' -> gc_wf o' -> gc_kept s s'.
Proof.
  intros E E' Ha Hwf. split; [unfold gc_invariant; by rewrite E'|].
  unfold gc_evolves. rewrite E, E'. by apply rtc_once, gc_advanced.
Qed.

Lemma gc_same s s' : gc_invariant s -> gcOperation s' = gcOperation s -> gc_kept s s'.
Proof. unfold gc_kept, gc_invariant, gc_evolves. intros Hs ->. split; [done | apply rtc_refl]. Qed.

(** A handler of the collection keeps the invariant and follows the machine. *)
Definition gc_respects {A} (m : DO A) : Prop := respects gc_invariant gc_evolves m anything.

Create HintDb gc.

Lemma gc_framed {A} (m : DO A) : framed gcOperation m -> gc_respects m.
Proof.
  intros Hm w Hw. destruct (Hm w I) as (_ & Hf & _).
  destruct (gc_same (st w) (st (m w).2) Hw (eq_sym Hf)). split_and!; [done | done |].
  by destruct (m w).1.
Qed.

Lemma gc_transaction {A} (m : DO A) :
  (forall s n, gc_invariant s -> wp m (fun r w' => match r with
                                   | Ok _ => gc_kept s (st w')
                                   | Err _ => True end) (World s n)) ->
  gc_respects (transaction m).
Proof.
  intros Hm. apply respects_atomic; [typeclasses eauto|]. intros [s n] Hs.
  eapply wp_conseq; [by apply Hm|]. intros [a|e] w' Hk; [|done]. by destruct Hk.
Qed.

Section GcHandlers.
Context `{Env}.

(** The bookkeeping after a change of phase makes the operation well formed. *)
Lemma after_phase_wf p previous now o o1 :
  gc_wf o -> gc_advances o o1 -> gc_shape o1 = true -> previous = gc_phase o ->
  isGcTerminal o = false -> (is_snapshot_progress p = true -> isGcTerminal o1 = false) ->
  gc_wf (after_phase p previous now (set_gc_updatedAt now o1)) /\
  gc_advances o (after_phase p previous now (set_gc_updatedAt now o1)).
Proof.
  intros [_ Ht] Ha Hs -> Hn Hsnap. unfold after_phase. case_bool_decide as E.
  - split; [split; [done|]|].
    + intros Ht'. unfold isGcTerminal in *. rewrite E in Ht'. by rewrite Hn in Ht'.
    + destruct Ha. by split.
  - destruct (complete_measurement_set (gc_phase o) now (set_gc_updatedAt now o1)) as [m ->].
    destruct (is_snapshot_progress p) eqn:Ep.
    + split; [split; [done|]|destruct Ha; by split].
      intros Ht'. unfold isGcTerminal in *. simpl in *. rewrite Hsnap in Ht'; done.
    + split; [split; [done | done]|destruct Ha; by split].
Qed.

Lemma live_claim_not_terminal o claimId now :
  gc_wf o -> claim_live o claimId now = true -> is_Some (gc_claim o) /\ isGcTerminal o = false.
Proof.
  intros [_ Ht] Hc. unfold claim_live in Hc. destruct (gc_claim o) eqn:E; [|done].
  split; [done|]. destruct (isGcTerminal o); [|done]. specialize (Ht eq_refl). congruence.
Qed.

Lemma progress_gc operationId claimId p : gc_respects (recordGcProgress operationId claimId p).
Proof.
  apply gc_transaction. intros s n Hw. pose proof (gc_same s s Hw eq_refl) as Hsame.
  apply wp_bind, wp_get. cbn [st]. destruct (truthy _); [by apply wp_ret|].
  apply wp_bind, wp_get. cbn [st]. unfold gc_invariant in Hw.
  destruct (gcOperation s) as [o|] eqn:Eo; [|by apply wp_ret].
  destruct (negb _); [by apply wp_ret|].
  apply wp_bind, wp_now. destruct (claim_live o claimId _) eqn:Ec; [|by apply wp_ret].
  destruct (live_claim_not_terminal _ _ _ Hw Ec) as [Hcl Hn]. cbn [negb].
  apply wp_bind, wp_get. cbn [st bump].
  destruct (apply_progress _ _ _ _) as [reason|o1] eqn:Ep; [by apply wp_ret|].
  destruct (progress_advances _ _ _ _ _ Hw Hcl Ep) as [Ha Hs].
  destruct (after_phase_wf p (gc_phase o) (env_now (tick (World s n))) o o1 Hw Ha Hs eq_refl Hn) as [Hwf Ha'].
  { destruct p; try done. simpl in Ep. unfold snapshot_progress in Ep. intros _. by guards. }
  apply wp_bind. eapply (wp_framed gcOperation).
  { unfold release_blocked. frames. }
  intros [[]|e] w1 E1; [|done]. apply wp_bind, wp_put; [done|]. intros _.
  apply wp_bind. eapply (wp_framed gcOperation).
  { frames. }
  intros [[]|e] w2 E2; [|done]. apply wp_ret.
  eapply gc_write; [exact Eo | symmetry; exact E2 | done | done].
Qed.

Lemma register_gc repositoryId operationId q : gc_respects (registerGcOperation repositoryId operationId q).
Proof.
  unfold registerGcOperation, gc_respects. do 4 (respect_step; [by respect_step|]). apply gc_transaction. intros s n Hw.
  pose proof (gc_same s s Hw eq_refl) as Hsame. unfold gc_invariant in Hw.
  assert (forall current o, gcOperation s = current ->
    match current with Some x => isGcTerminal x = true | None => True end ->
    o = new_operation do_id repositoryId operationId q (env_now n) ->
    wp (put (set_gcOperation (Some o)) ;!
        put (fun s => set_gcAdmissions (<[operationId := true]> (gcAdmissions s)) s) ;!
        armWake (env_now n + GC_WAKE_DELAY_MS) ;! ret (GcReady o))
      (fun r w' => match r with Ok _ => gc_kept s (st w') | Err _ => True end)
      (World s (S n))) as Hfresh.
  { intros current o Ec Ht ->. apply wp_bind, wp_put; [done|]. intros _.
    apply wp_bind, wp_put; [done|]. intros _. apply wp_bind. eapply (wp_framed gcOperation); [frames|]. intros [[]|e] w1 E1; [|done]. apply wp_ret. split.
    - unfold gc_invariant. rewrite <- E1. by split.
    - unfold gc_evolves. rewrite <- E1, Ec. by apply rtc_once, gc_admitted. }
  apply wp_bind, wp_get. cbn [st]. destruct (truthy _); [by apply wp_ret|].
  apply wp_bind, wp_get, wp_bind, wp_get, wp_bind, wp_now. cbn [st tick bump].
  destruct (gcOperation s) as [o|] eqn:Eo.
  - destruct (str_eq (gc_id o) operationId).
    + wp_step; [by apply wp_ret|]. apply wp_bind. eapply (wp_framed gcOperation); [frames|].
      intros [[]|e] w1 E1; [|done]. apply wp_ret. cbn [st] in E1. apply gc_same; [unfold gc_invariant; by rewrite Eo | symmetry; exact E1].
    + wp_step; [by apply wp_ret|]. destruct (isGcTerminal o) eqn:Et; [|by apply wp_ret].
      by apply (Hfresh (Some o)).
  - wp_step; [by apply wp_ret|]. by apply (Hfresh None).
Qed.

(** A running operation that a claim moves to the discard phase, or leaves in
    its phase. *)
Definition gc_runs (o o' : GcOperation) : Prop :=
  gc_advances o o' /\ gc_shape o' = true /\ isGcTerminal o' = false.

Lemma runs_refl o : gc_wf o -> isGcTerminal o = false -> gc_runs o o.
Proof. intros [Hs _] Hn. split_and!; [apply gc_advances_refl | done | done]. Qed.

Lemma runs_discard o reason at_ :
  gc_wf o -> gc_phase_in [GcQueued; GcRewrite; GcIndex] (gc_phase o) = true ->
  gc_runs o (set_gc_discardAfter at_ (set_phase_blocked GcDiscard reason o)).
Proof.
  intros [Hs _] Hp. set (o' := set_gc_discardAfter _ _).
  assert (gc_advances o o' /\ gc_shape o' = true) as [? ?] by (subst o'; shapes o).
  by split_and!.
Qed.

Lemma runs_issue token now o o1 : gc_runs o o1 -> gc_runs o (issue_claim token now o1).
Proof. intros ([] & Hs & Hn). split; [by split | done]. Qed.

Lemma deadline_runs now o :
  gc_wf o -> isGcTerminal o = false ->
  apply_deadline now o = o \/
  (gc_runs o (apply_deadline now o) /\ gc_phase (apply_deadline now o) = GcDiscard).
Proof.
  intros Hwf Hn. unfold apply_deadline. destruct (_ && _) eqn:E; [right | by left].
  apply andb_true_iff in E as [_ E]. split; [by apply runs_discard | done].
Qed.

Lemma wp_claim_source o snap now (Q : res GcOperation -> world -> Prop) w :
  gc_wf o -> gc_phase_in [GcRewrite; GcIndex; GcPublish] (gc_phase o) = true ->
  (forall e w', Q (Err e) w') ->
  (forall o1 w', gc_runs o o1 -> gcOperation (st w') = gcOperation (st w) -> Q (Ok o1) w') ->
  wp (claim_source o snap now) Q w.
Proof.
  intros Hwf Hp Herr Hok. unfold claim_source.
  assert (isGcTerminal o = false) as Hn by (unfold isGcTerminal; by destruct (gc_phase o)).
  apply wp_bind, wp_get. destruct (_ || _).
  - apply wp_bind, wp_put; [intros; apply Herr|]. intros _. by apply wp_ret, Hok; [apply runs_refl|].
  - apply wp_ret, Hok; [|done]. case_bool_decide; [by apply runs_refl|].
    apply runs_discard; [done|]. by destruct (gc_phase o).
Qed.

(** The effect of a claim on every branch. *)
Lemma wp_claim operationId (Q : res GcOperationResult -> world -> Prop) s n :
  gc_invariant s ->
  (forall e n, Q (Err e) (World s n)) ->
  (forall reason n, Q (Ok (GcRejected reason)) (World s n)) ->
  (forall t w', gcOperation (st w') = gcOperation s -> Q (Ok (GcOpBusy t)) w') ->
  (forall o n, gcOperation s = Some o -> gc_id o = operationId -> isGcTerminal o = true ->
     Q (Ok (GcReady o)) (World s n)) ->
  (forall o o1 k w', gcOperation s = Some o -> gc_id o = operationId -> isGcTerminal o = false ->
     truthy (repositoryDeleting s) = false ->
     (forall c, gc_claim o = Some c -> claim_safeRetryAt c <= env_now n) -> gc_runs o o1 ->
     gcOperation (st w') = Some (issue_claim (env_uuid k) (env_now n) o1) ->
     Q (Ok (GcReady (issue_claim (env_uuid k) (env_now n) o1))) w') ->
  wp (claimGcOperation operationId) Q (World s n).
Proof.
  intros Hw Herr Hrej Hbusy Hterm Hok. apply wp_transaction.
  apply wp_bind, wp_get. cbn [st]. destruct (truthy _); [apply wp_ret, Hrej|].
  apply wp_bind, wp_get. cbn [st]. unfold gc_invariant in Hw.
  destruct (gcOperation s) as [o|] eqn:Eo; [|apply wp_ret, Hrej].
  destruct (str_eq (gc_id o) operationId) eqn:Eid; [|apply wp_ret, Hrej].
  apply bool_decide_eq_true in Eid. cbn [negb].
  destruct (isGcTerminal o) eqn:En; [by apply wp_ret, Hterm|].
  apply wp_bind, wp_now. cbn [st tick bump].
  set (Q' := fun r w' => match r : res GcOperationResult with
                         | Ok a => Q (Ok a) w'
                         | Err e => Q (Err e) (World s (tick w')) end).
  assert (forall at_ t, wp (armWake at_ ;! ret (GcOpBusy t)) Q' (bump (World s n))) as Hwake.
  { intros at_ t. apply wp_bind. eapply (wp_framed gcOperation); [frames|].
    intros [[]|e] w1 E1; [|apply Herr]. apply wp_ret, Hbusy. rewrite <- Eo. symmetry. exact E1. }
  wp_step; [apply Hwake|]. wp_step; [apply Hwake|]. apply Z.ltb_ge in Heqb0. cbv zeta.
  assert (forall o1 w1, gc_runs o o1 -> wp (finish_claim (env_now n) o1) Q' w1) as Hfinish.
  { intros o1 w1 Hr. unfold finish_claim. apply wp_bind, wp_uuid.
    apply wp_bind, wp_put; [intros; apply Herr|]. intros _. apply wp_bind.
    eapply (wp_framed gcOperation); [frames|]. intros [[]|e] w2 E2; [|apply Herr].
    apply wp_ret. eapply Hok; try done. intros c Ec. by rewrite Ec in Heqb0. }
  destruct (deadline_runs (env_now n) o Hw En) as [->|[Hr Hp]].
  - destruct (gc_snapshot o) as [snap|]; [|by apply Hfinish, runs_refl].
    destruct (gc_phase_in _ _) eqn:Ep; [|by apply Hfinish, runs_refl].
    apply wp_bind, wp_get. wp_step; [apply Hwake|].
    apply wp_bind, wp_claim_source; [done | done | intros; apply Herr |].
    intros o1 w1 Hr _. by apply Hfinish.
  - rewrite Hp. simpl. destruct (gc_snapshot _); by apply Hfinish.
Qed.

Lemma claim_gc operationId : gc_respects (claimGcOperation operationId).
Proof.
  apply respects_wp. intros [s n] Hw. cbn [st]. pose proof (gc_same s s Hw eq_refl) as [? ?].
  apply wp_claim; try done.
  - intros t w' E. by destruct (gc_same s (st w') Hw E).
  - intros o o1 k w' Eo _ _ _ _ Hr E1.
    destruct (runs_issue (env_uuid k) (env_now n) o o1 Hr) as (Ha & Hs & Hn).
    destruct (gc_write s (st w') o (issue_claim (env_uuid k) (env_now n) o1)); try done.
    split; [exact Hs|]. intros Ht. by rewrite Hn in Ht.
Qed.

(** A change of the accounted versions alone. *)
Lemma coordination_write s s' o c :
  gc_invariant s -> gcOperation s = Some o ->
  gcOperation s' = Some (set_gc_coordination (Some c) o) -> gc_kept s s'.
Proof.
  intros Hw Eo E'. unfold gc_invariant in Hw. rewrite Eo in Hw. destruct Hw as [Hs Ht].
  eapply gc_write; [done | done | split; try done; auto using phase_step_refl with golib |].
  split; [|done]. unfold gc_shape, shape_ok in *. simpl.
  destruct (gc_coordination o), (has (gc_snapshot o)); simpl in *;
    by rewrite ?andb_false_r, ?andb_true_r in *.
Qed.

(** The operation a handler reads is the stored one until it is written. *)
Ltac coordination_handler :=
  apply respects_wp; intros [s n] Hw; cbn [st] in *;
  pose proof (gc_same s s Hw eq_refl) as [? ?];
  wp_run; cbn [st bump] in *; try done;
  match goal with
  | H : gcOperation s = Some ?o |- context [set_gc_coordination (Some ?c) ?o] =>
    edestruct (coordination_write s (set_gcOperation (Some (set_gc_coordination (Some c) o)) s) o c);
    [done | done | done | done]
  end.

Lemma prepare_gc operationId claimId : gc_respects (prepare_publication operationId claimId).
Proof. apply respects_transaction; [typeclasses eauto|]. coordination_handler. Qed.

Lemma retain_gc token proof : gc_respects (retainGcReceiveProtection token proof).
Proof. unfold retainGcReceiveProtection. coordination_handler. Qed.

Lemma advance_gc e v p s1 s2 : gc_respects (advanceGcReceiveVersions e v p s1 s2).
Proof. unfold advanceGcReceiveVersions. coordination_handler. Qed.

Lemma publish_gc operationId claimId : gc_respects (commitCoordinatedGc operationId claimId).
Proof.
  apply respects_wp. intros [s n] Hw. cbn [st] in *. pose proof (gc_same s s Hw eq_refl) as [? ?].
  apply wp_commit_coordinated; cbn [st]; [done | done | done |].
  intros o c s' n' Eo _ Ec _ [(source & coordination & closure & target & now & Hown & _) _ _
    (o' & E' & Hid & Hp & Hc & Hcl & Hs & Hclo & Hin & Hco)].
  destruct Hown as [Hsource _ Hclosure Hphase _ _ _].
  destruct (gc_write s s' o o') as [? ?]; try done.
  - split; rewrite ?Hs, ?Hclo, ?Ec, ?Hp, ?Hphase; auto with golib.
  - split; [|by unfold isGcTerminal; rewrite Hp]. unfold gc_shape.
    rewrite Hp, Hc, Hs, Hclo, Hsource, Hclosure, Hin. destruct Hco as [x ->]. simpl.
    by destruct (has _).
Qed.

(** Handlers that never write the operation. *)
Lemma clear_attempt_framed token : framed gcOperation (clearGcAttemptState token).
Proof. unfold clearGcAttemptState. frames. Qed.
Hint Resolve clear_attempt_framed : framed.

Lemma record_pending_framed token key : framed gcOperation (recordReachabilityGcPendingState token key).
Proof. unfold recordReachabilityGcPendingState. frames. Qed.
Hint Resolve record_pending_framed : framed.

Lemma replace_framed keys target : framed gcOperation (replaceActivePackCatalog keys target).
Proof. unfold replaceActivePackCatalog, upsertPackCatalogRow, sql. frames. Qed.
Hint Resolve replace_framed : framed.

Lemma receipt_framed token c : framed gcOperation (retainGcCommitReceipt None token c).
Proof. unfold retainGcCommitReceipt. frames. Qed.
Hint Resolve receipt_framed : framed.

Lemma begin_gc_framed : framed gcOperation beginReachabilityGcState.
Proof.
  unfold beginReachabilityGcState, acquire_gc, ensureRepoMetadataDefaults,
    listActiveStockReceivePreparationLeases, listActiveStockReceiveOperations,
    getActivePackCatalogSnapshot, listActivePackCatalog. frames.
Qed.

Lemma reconcile_pending_framed : framed gcOperation reconcileReachabilityGcPendingState.
Proof. unfold reconcileReachabilityGcPendingState, getPackCatalogRow. frames. Qed.

Lemma complete_pending_framed token key :
  framed gcOperation (completeReachabilityGcPendingCleanupState token key).
Proof. unfold completeReachabilityGcPendingCleanupState. frames. Qed.

(** A commit without a registered operation. *)
Lemma direct_commit_framed a :
  cg_gcOperationId a = None -> framed gcOperation (commitReachabilityGcState a).
Proof.
  intros Ha. unfold commitReachabilityGcState, reconcile_committed, commit_fence, commit_recheck,
    commit_replace, bumpPacksetVersion, clearCompactionSchedule, listActivePackCatalog,
    listActiveStockReceivePreparationLeases.
  rewrite Ha. frames.
Qed.

Lemma commit_gc operationId claimId : gc_respects (commitGcOperation operationId claimId).
Proof.
  unfold gc_respects, commitGcOperation. apply respects_get_bind; preorder. intros s Hw.
  unfold gc_invariant in Hw. destruct (gcOperation s) as [o|]; [|by respect_step].
  respect_step; [by respect_step|]. destruct (gc_commit o); [by respect_step|].
  respect_step; [by respect_step|]. destruct (gc_snapshot o) as [snap|] eqn:Es; [|by respect_step].
  respect_step; [by respect_step|].
  eapply (respects_bind _ _ _ _ anything); preorder; [ | intros pending _].
  { destruct (gc_nativeResult o); [apply gc_framed; frames | by respect_step]. }
  assert (gc_respects (match gc_coordination o with
    | Some _ => prepare_publication operationId claimId ;! commitCoordinatedGc operationId claimId
    | None => commitReachabilityGcState (commit_args o snap claimId)
    end)) as Hcommit.
  { destruct Hw as [Hs _]. unfold gc_shape, shape_ok in Hs. rewrite Es in Hs.
    destruct (gc_coordination o).
    - eapply respects_bind; preorder; [apply prepare_gc | intros; apply publish_gc].
    - exfalso. simpl in Hs. repeat (apply andb_true_iff in Hs as [Hs ?]). done. }
  destruct pending as [|[|]]; [exact Hcommit | by respect_step | exact Hcommit].
Qed.

Lemma help_gc : gc_respects helpPreparedGcPublication.
Proof.
  unfold gc_respects, helpPreparedGcPublication. respect.
  all: match goal with |- respects _ _ (commitCoordinatedGc _ _) _ => apply publish_gc | _ => idtac end.
Qed.

Lemma resume_gc : gate_respects gc_invariant gc_evolves -> gc_respects resumeGcFromAlarm.
Proof.
  intros Hg. unfold gc_respects, resumeGcFromAlarm.
  eapply (respects_bind _ _ _ _ anything); preorder; [apply gc_framed; frames|].
  intros [o|] _; respect.
Qed.
End GcHandlers.

(** What the object is asked about its collection. *)
Inductive gc_request :=
  | RegisterGc (repositoryId operationId : string) (q : option GcQualificationOptions)
  | ClaimGc (operationId : string)
  | RecordGc (operationId claimId : string) (p : GcProgress)
  | CommitGc (operationId claimId : string)
  | CommitUnregisteredGc (a : CommitGcArgs)
  | BeginGc
  | ReconcileGc
  | CompleteGcCleanup (token key : string)
  | HelpGc
  | ResumeGc
  | ProtectReceive (token : string) (proof : option GcReceiveProtection)
  | AdvanceReceive (expected next : Z) (packset : option Z) (pins nextPins : Z).

Definition serve_gc `{Env} (r : gc_request) : DO unit :=
  match r with
  | RegisterGc repositoryId operationId q => registerGcOperation repositoryId operationId q ;! ret tt
  | ClaimGc operationId => claimGcOperation operationId ;! ret tt
  | RecordGc operationId claimId p => recordGcProgress operationId claimId p ;! ret tt
  | CommitGc operationId claimId => commitGcOperation operationId claimId ;! ret tt
  | CommitUnregisteredGc a => commitReachabilityGcState a ;! ret tt
  | BeginGc => beginReachabilityGcState ;! ret tt
  | ReconcileGc => reconcileReachabilityGcPendingState ;! ret tt
  | CompleteGcCleanup token key => completeReachabilityGcPendingCleanupState token key ;! ret tt
  | HelpGc => helpPreparedGcPublication
  | ResumeGc => resumeGcFromAlarm ;! ret tt
  | ProtectReceive token proof => retainGcReceiveProtection token proof
  | AdvanceReceive expected next packset pins nextPins =>
    advanceGcReceiveVersions expected next packset pins nextPins
  end.

(** The public commit takes no operation: only [commitGcOperation] passes one. *)
Definition gc_request_ok (r : gc_request) : Prop :=
  match r with CommitUnregisteredGc a => cg_gcOperationId a = None | _ => True end.

Lemma gc_ignore `{Env} {A} (m : DO A) : gc_respects m -> gc_respects (m ;! ret tt).
Proof.
  intros Hm. eapply respects_bind; preorder; [exact Hm|]. intros a _. apply respects_ret; preorder. done.
Qed.

(** One stored operation, from one advance to the next. *)
Definition same_operation (o o' : GcOperation) : Prop :=
  gc_id o' = gc_id o /\ rtc (fun p p' => phase_step p p' = true) (gc_phase o) (gc_phase o') /\
  settled (gc_commit o) (gc_commit o') /\ settled (gc_snapshot o) (gc_snapshot o') /\
  settled (gc_closure o) (gc_closure o').

Lemma same_operation_refl o : same_operation o o.
Proof. unfold same_operation. split_and!; first [done | apply rtc_refl | apply settled_refl]. Qed.

Lemma same_operation_step o o1 o2 : same_operation o o1 -> gc_advances o1 o2 -> same_operation o o2.
Proof.
  intros (H1 & H2 & H3 & H4 & H5) []. unfold same_operation, settled in *. split_and!.
  - congruence.
  - eapply rtc_r; eauto.
  - intros a Ha. auto.
  - intros a Ha. auto.
  - intros a Ha. auto.
Qed.

(** ** Properties *)



(** A receipt is permanent.  Along any run of the machine a registered
    operation keeps its identity, its source, its plan and its receipt, and its
    phases follow the table, until another operation is admitted - which happens
    only after it has finished. *)
Theorem gc_receipt_permanent (o : GcOperation) (current : option GcOperation) :
  rtc gc_step (Some o) current ->
  exists last, same_operation o last /\ (current = Some last \/ isGcTerminal last = true).
Proof.
  remember (Some o) as start eqn:E. intros Hrun. revert Hrun.
  refine (rtc_ind_r (fun x => exists last, same_operation o last /\
    (x = Some last \/ isGcTerminal last = true)) start _ _ current).
  - subst start. exists o. split; [apply same_operation_refl | by left].
  - intros y z _ Hstep (last & Hs & [Hy|Ht]).
    + destruct Hstep as [x n Hx|x x' Ha]; simplify_eq.
      * exists last. split; [done | by right].
      * exists x'. split; [by eapply same_operation_step | by left].
    + exists last. split; [done | by right].
Qed.

Lemma gc_receipt_permanent_witness :
  let o := new_operation "repo" "r" "op" None 0 in
  exists last, same_operation o last /\ (Some o = Some last \/ isGcTerminal last = true).
Proof. intros o. apply (gc_receipt_permanent o (Some o)). apply rtc_refl. Defined.

(** A claim excludes every earlier one.  A new claim is issued only for the
    registered, unfinished operation of a repository that is not being deleted, and
    only when the previous claim has expired and its writer has had the whole drain
    time to stop; the new claim is live for the lease time.  A busy answer leaves
    the operation and a refusal or a failure the whole storage as it was. *)
Theorem gc_claim_exclusive `{Env} (operationId : string) (w : world) :
  gc_invariant (st w) ->
  match claimGcOperation operationId w with
  | (Err _, w') | (Ok (GcRejected _), w') => st w' = st w
  | (Ok (GcOpBusy _), w') => gcOperation (st w') = gcOperation (st w)
  | (Ok (GcReady o'), w') =>
    exists o, gcOperation (st w) = Some o /\ gc_id o = operationId /\
      if isGcTerminal o then o' = o /\ st w' = st w else
      truthy (repositoryDeleting (st w)) = false /\
      (forall c, gc_claim o = Some c -> claim_safeRetryAt c <= env_now (tick w)) /\
      gcOperation (st w') = Some o' /\ gc_id o' = operationId /\
      exists token, gc_claim o' = Some (mkClaim token (env_now (tick w) + COMPACT_LEASE_TTL_MS)
        (env_now (tick w) + COMPACT_LEASE_TTL_MS + EXPIRED_WRITER_DRAIN_MS))
  end.
Proof.
  intros Hw. to_wp (claimGcOperation operationId) w. destruct w as [s n].
  apply wp_claim; cbn [st tick]; try done.
  - intros o n' Eo Hid Ht. exists o. by rewrite Ht.
  - intros o o1 k w' Eo Hid Ht Hd Hc ([Hid1 _ _ _ _] & _) E1. exists o. rewrite Ht.
    split_and!; try done; [by simpl; rewrite Hid1 | by eexists].
Qed.

Lemma gc_claim_exclusive_witness :
  let w := World (set_gcOperation (Some (new_operation "repo" "r" "op" None 0)) empty_storage) 5 in
  gc_invariant (st w) /\
  match claimGcOperation (H := demo_env) "op" w with
  | (Err _, w') | (Ok (GcRejected _), w') => st w' = st w
  | (Ok (GcOpBusy _), w') => gcOperation (st w') = gcOperation (st w)
  | (Ok (GcReady o'), w') =>
    exists o, gcOperation (st w) = Some o /\ gc_id o = "op"%string /\
      if isGcTerminal o then o' = o /\ st w' = st w else
      truthy (repositoryDeleting (st w)) = false /\
      (forall c, gc_claim o = Some c -> claim_safeRetryAt c <= 5000) /\
      gcOperation (st w') = Some o' /\ gc_id o' = "op"%string /\
      exists token, gc_claim o' = Some (mkClaim token (5000 + COMPACT_LEASE_TTL_MS)
        (5000 + COMPACT_LEASE_TTL_MS + EXPIRED_WRITER_DRAIN_MS))
  end.
Proof.
  intros w. assert (gc_invariant (st w)) as Hw by (split; [reflexivity | done]).
  split; [exact Hw | exact (gc_claim_exclusive (H := demo_env) "op" w Hw)].
Defined.
