(* ===== verification/Leases.v ===== *)
(** * Leases of writers

    [catalog/leases.ts]: the receive lease, the bounded pool of stock receive
    preparations, the recovery lease, and the expiry of abandoned leases. *)
From S2P Require Import Prelude Storage Effects Text Keys Catalog Activity Scheduler Lifecycle.
From S2P Require Import Gc GcOperations.

(** ** Definitions *)

Definition nativeReceiveInputPackKey (prefix operationId : string) : string :=
  r2PackKey prefix ("pack-native-input-" ++ operationId ++ ".pack")%string.

Definition nativeReceiveInputRequestKey (prefix operationId : string) : string :=
  (prefix ++ "/native-receive/input-" ++ operationId ++ ".request")%string.

(** The keys of the abandoned inputs of some receive tokens. *)
Definition input_keys (prefix : string) (tokens : list string) : list string :=
  List.concat ((fun t => [nativeReceiveInputPackKey prefix t; nativeReceiveInputRequestKey prefix t])
                 <$> tokens).

Record ReceiveBegin := mkBegin {
  rb_lease : RepoLease;
  rb_refs : list Ref;
  rb_head : Head;
  rb_refsVersion : Z;
  rb_packsetVersion : Z;
  rb_nextPackSeq : Z;
  rb_activeCatalog : list PackCatalogRow;
  rb_concurrentStockPreparation : bool;
  rb_stockPreparationReserved : bool;
  rb_stockRecovery : option (string * string) }.

Inductive BeginReceiveResult :=
  | ReceiveBegan (b : ReceiveBegin)
  | ReceiveRefused (retryAfter : Z).

Inductive BeginRecoveryResult :=
  | RecoveryNotFound
  | RecoveryBusy (retryAfter : Z)
  | RecoveryCleanup (operationId token : string)
  | RecoveryBegan (b : ReceiveBegin).

(** What one admission transaction decides. *)
Inductive Admission :=
  | AdmitBusy                       (* [false] or a busy description *)
  | AdmitHelp (claimId : string)    (* a prepared publication takes its turn first *)
  | AdmitGranted.

Definition native_processing_stock (o : NativeReceiveOperation) : bool :=
  native_stock o && bool_decide (native_state o = NrProcessing).

(** Native operations and preparations that refuse another receive. *)
Definition admission_full (concurrency : option nat) (operations : list NativeReceiveOperation)
    (preparations : list RepoLease) : bool :=
  let activeCount := (length operations + length preparations)%nat in
  (0 <? activeCount)%nat &&
  match concurrency with
  | None => true
  | Some limit => (limit <=? activeCount)%nat ||
                  js_some (fun o => negb (native_processing_stock o)) operations
  end.

(** A reachability collection that excludes receives holds the lease. *)
Definition gc_excludes_receive (s : Storage) (now : Z) : bool :=
  match activeLeaseOrUndefined (compactLease s) now with
  | Some l =>
    lease_is OpReachabilityGc l &&
    negb (match gcOperation s with
          | Some o => bool_decide (is_Some (gc_coordination o)) &&
                      ostr_eq (gs_token <$> gc_snapshot o) (Some (lease_token l))
          | None => false
          end)
  | None => false
  end.

(** The publication that is prepared and still claimed. *)
Definition prepared_claim (s : Storage) (now : Z) : option string :=
  match gcOperation s with
  | Some o =>
    match mbind publicationClaimId (gc_coordination o) with
    | Some c => if bool_decide (gc_phase o = GcPublish) && negb (str_eq c "") && claim_live o c now
                then Some c else None
    | None => None
    end
  | None => None
  end.

Section Leases.
Context `{Env}.

(** The transaction [acquire] of [beginReceiveLease]. *)
Definition acquire (concurrency : option nat) (lease : RepoLease) (now : Z)
    (helpedClaimId : option string) : DO Admission :=
  transaction (
    let! deleting := get repositoryDeleting in
    if truthy deleting then ret AdmitBusy else
    let! activeOperations := listActiveNativeReceiveOperations in
    let! activePreparations := listActiveStockReceivePreparationLeases now in
    if admission_full concurrency activeOperations activePreparations then ret AdmitBusy else
    let! existing := get receiveLease in
    if bool_decide (is_Some (activeLeaseOrUndefined existing now)) then ret AdmitBusy else
    let! intent := get (fun s => mbind (fun l => receiveFinalizeIntents s !! lease_token l) existing) in
    match existing, intent with
    | Some l, Some _ =>
      put (set_receiveLease (Some (with_expiresAt l (now + RECEIVE_LEASE_TTL_MS)))) ;!
      ret AdmitBusy
    | _, _ =>
      let! excluded := get (fun s => gc_excludes_receive s now) in
      if excluded : bool then ret AdmitBusy else
      let! prepared := get (fun s => prepared_claim s now) in
      match prepared with
      | Some c =>
        if negb (ostr_eq (Some c) helpedClaimId) then ret (AdmitHelp c)
        else put (set_receiveLease (Some lease)) ;! ret AdmitGranted
      | None => put (set_receiveLease (Some lease)) ;! ret AdmitGranted
      end
    end).

(** [while (typeof acquired === "string")]; two turns are enough
    ([admission_terminates]). *)
Fixpoint admitLease (fuel : nat) (concurrency : option nat) (lease : RepoLease) (now : Z)
    (helpedClaimId : option string) : DO bool :=
  match fuel with
  | O => throw "admission fuel"
  | S fuel =>
    let! acquired := acquire concurrency lease now helpedClaimId in
    match acquired with
    | AdmitHelp c => helpPreparedGcPublication ;! admitLease fuel concurrency lease now (Some c)
    | AdmitBusy => ret false
    | AdmitGranted => ret true
    end
  end.

Definition abortReceiveLease (token : string) : DO bool :=
  transaction (
    let! recovery := get stockReceiveRecoveryLease in
    if (match recovery with Some r => str_eq (lease_token (recovery_lease r)) token | None => false end)
    then put (set_stockReceiveRecoveryLease None) ;! ret true else
    let! removed := removeStockReceivePreparationLease token in
    if removed : bool then ret true else
    let! existing := get receiveLease in
    match existing with
    | Some l => if str_eq (lease_token l) token then put (set_receiveLease None) ;! ret true
                else ret false
    | None => ret false
    end).

Inductive Handoff := HandoffFailed | HandoffExclusive | HandoffReserved (concurrent : bool).

(** The transaction that moves the fresh receive lease into the preparation
    pool. *)
Definition handoff (lease : RepoLease) (limit : nat) : DO Handoff :=
  transaction (
    let! current := get receiveLease in
    let! now := Date_now in
    if negb (match current with
             | Some l => str_eq (lease_token l) (lease_token lease) && (now <? lease_expiresAt l)
             | None => false end) then ret HandoffFailed else
    let! now2 := Date_now in
    let! s := get id in
    if (match activeLeaseOrUndefined (compactLease s) now2, gcOperation s with
        | Some l, Some o => lease_is OpReachabilityGc l && bool_decide (is_Some (gc_coordination o)) &&
                            ostr_eq (gs_token <$> gc_snapshot o) (Some (lease_token l))
        | _, _ => false
        end) then ret HandoffExclusive else
    let existing := default [] (stockReceivePreparationLeases s) in
    let! now3 := Date_now in
    let active := activeStockReceivePreparationLeases (Some existing) now3 in
    let! activeOperations := listActiveNativeReceiveOperations in
    if (limit <=? length active + length activeOperations)%nat ||
       js_some (fun o => negb (native_processing_stock o)) activeOperations
    then ret HandoffFailed else
    put (set_stockReceivePreparationLeases (Some (js_push existing lease))) ;!
    put (set_receiveLease None) ;!
    armWake (lease_expiresAt lease) ;!
    ret (HandoffReserved (0 <? length active + length activeOperations)%nat)).

Definition beginReceiveLease (concurrency : option nat) : DO BeginReceiveResult :=
  let! now := Date_now in
  let! token := randomUUID in
  let lease := mkLease token now (now + RECEIVE_LEASE_TTL_MS) (Some OpReceive) in
  let! acquired := admitLease 2 concurrency lease now None in
  if negb acquired then ret (ReceiveRefused LEASE_RETRY_AFTER_SECONDS) else
  let! activeCatalog := getActivePackCatalogSnapshot in
  ensureRepoMetadataDefaults ;!
  let! rs := get (fun s => default [] (refs s)) in
  let! h := get (fun s => default DEFAULT_HEAD (head s)) in
  let! rv := get (fun s => orZ (refsVersion s) 0) in
  let! pv := get (fun s => orZ (packsetVersion s) 0) in
  let! seq := get (fun s => orZ (nextPackSeq s) 1) in
  let finish (reserved concurrent : bool) :=
    let! natives := listActiveNativeReceiveOperations in
    ret (ReceiveBegan (mkBegin lease rs h rv pv seq activeCatalog
           (concurrent || (0 <? length natives)%nat) reserved None)) in
  match concurrency with
  | None => finish false false
  | Some limit =>
    let! result := handoff lease limit in
    match result with
    | HandoffFailed =>
      abortReceiveLease (lease_token lease) ;! ret (ReceiveRefused LEASE_RETRY_AFTER_SECONDS)
    | HandoffExclusive => finish false false
    | HandoffReserved concurrent => finish true concurrent
    end
  end.

Definition STOCK_RECEIVE_RECOVERY_LEASE_TTL_MS : Z := 5 * 60000.

Definition beginStockReceiveRecoveryLease (operationId : string) : DO BeginRecoveryResult :=
  let! now := Date_now in
  let! selected := transaction (
    let! deleting := get repositoryDeleting in
    if truthy deleting then ret (inl (RecoveryBusy LEASE_RETRY_AFTER_SECONDS)) else
    let! operation := get (fun s => nativeReceiveOperations s !! operationId) in
    match operation with
    | None => ret (inl RecoveryNotFound)
    | Some o =>
      match native_stockReceive o with
      | Some stock =>
        if negb (bool_decide (native_state o = NrReady) || bool_decide (native_state o = NrFinalizing))
        then ret (inl RecoveryNotFound) else
        let! retained := get stockReceiveRecoveryLease in
        match retained with
        | Some r =>
          ret (inl (if lease_expiresAt (recovery_lease r) <=? now
                    then RecoveryCleanup (recovery_operationId r) (lease_token (recovery_lease r))
                    else RecoveryBusy LEASE_RETRY_AFTER_SECONDS))
        | None =>
          let! token := randomUUID in
          let lease := mkLease token now (now + STOCK_RECEIVE_RECOVERY_LEASE_TTL_MS) (Some OpReceive) in
          put (set_stockReceiveRecoveryLease (Some (mkRecoveryLease lease operationId))) ;!
          ret (inr (o, si_advertisedRefs stock, lease))
        end
      | None => ret (inl RecoveryNotFound)
      end
    end) in
  match selected with
  | inl result => ret result
  | inr (o, advertised, lease) =>
    ensureRepoMetadataDefaults ;!
    let! h := get (fun s => default DEFAULT_HEAD (head s)) in
    let! rv := get (fun s => default 0 (refsVersion s)) in
    let! seq := get (fun s => default 1 (nextPackSeq s)) in
    ret (RecoveryBegan (mkBegin lease advertised h rv (native_catalogGeneration o) seq
           (native_activeCatalog o) false false (Some (operationId, lease_token lease))))
  end.

Definition completeStockReceiveRecoveryLease (operationId token : string) : DO bool :=
  transaction (
    let! retained := get stockReceiveRecoveryLease in
    match retained with
    | None => ret true
    | Some r =>
      if negb (str_eq (recovery_operationId r) operationId) ||
         negb (str_eq (lease_token (recovery_lease r)) token) then ret false else
      put (set_stockReceiveRecoveryLease None) ;! ret true
    end).

Definition promoteStockPreparationLease (token : string) : DO bool :=
  transaction (
    let! deleting := get repositoryDeleting in
    if truthy deleting then ret false else
    let! existing := get receiveLease in
    if bool_decide (is_Some existing) then ret false else
    let! now := Date_now in
    let! excluded := get (fun s => gc_excludes_receive s now) in
    if excluded : bool then ret false else
    let! preparations := get (fun s => default [] (stockReceivePreparationLeases s)) in
    let! now2 := Date_now in
    match js_find (fun l => str_eq (lease_token l) token && (now2 <? lease_expiresAt l)) preparations with
    | None => ret false
    | Some selected =>
      if js_some (fun l => negb (str_eq (lease_token l) token)) preparations then ret false else
      let! natives := listActiveNativeReceiveOperations in
      if (0 <? length natives)%nat then ret false else
      put (set_stockReceivePreparationLeases None) ;!
      put (set_receiveLease (Some selected)) ;!
      ret true
    end).

Definition abortCompactionLease (token : string) : DO bool :=
  let! existing := get compactLease in
  match existing with
  | Some l => if str_eq (lease_token l) token then put (set_compactLease None) ;! ret true
              else ret false
  | None => ret false
  end.
End Leases.

(** *** Expired leases *)

Definition preparation_expired (now : Z) (l : RepoLease) : bool :=
  lease_expiresAt l + EXPIRED_WRITER_DRAIN_MS <=? now.

Definition preparation_draining (now : Z) (l : RepoLease) : bool :=
  (lease_expiresAt l <=? now) && writer_draining now l.

(** The native operation that still owns a receive token. *)
Definition native_owner (s : Storage) (token : string) : option NativeReceiveOperation :=
  js_find (fun o => str_eq (native_leaseToken o) token && native_active o) (indexed_natives s).

(** The compaction lease that an expiry deletes. *)
Definition compact_expired (s : Storage) (now : Z) : bool :=
  match compactLease s with
  | Some l =>
    (lease_expiresAt l <=? now) &&
    negb (gcOwnsSource (gcOperation s) &&
          ostr_eq (mbind (fun o => gs_token <$> gc_snapshot o) (gcOperation s)) (Some (lease_token l)))
  | None => false
  end.

Section Expiry.
Context `{Env}.

(** The preparations: alarm while they drain, then delete their inputs and
    the leases.  The result says that cleanup is still pending. *)
Definition clear_preparations (now : Z) : DO bool :=
  let! preparations := get (fun s => default [] (stockReceivePreparationLeases s)) in
  let expired := js_filter (preparation_expired now) preparations in
  let draining := js_filter (preparation_draining now) preparations in
  (match js_min ((fun l => lease_expiresAt l + EXPIRED_WRITER_DRAIN_MS) <$> draining) with
   | Some at_ => scheduleAlarmIfSooner at_ now ;! ret tt
   | None => ret tt
   end) ;!
  let pending := (0 <? length draining)%nat in
  if (length expired =? 0)%nat then ret pending else
  try_catch
    (r2_delete (input_keys (doPrefix do_id) (lease_token <$> expired)) ;!
     transaction (
       let! current := get (fun s => default [] (stockReceivePreparationLeases s)) in
       put (set_stockReceivePreparationLeases (nonempty
         (js_filter (fun l => (now <? lease_expiresAt l) ||
            negb (js_some (str_eq (lease_token l)) (lease_token <$> expired))) current)))) ;!
     ret pending)
    (fun _ => scheduleAlarmIfSooner (now + 1000) now ;! ret true).

(** The expired receive lease; [true] returns early from the handler. *)
Definition clear_receive (now : Z) : DO bool :=
  let! rl := get receiveLease in
  match rl with
  | None => ret false
  | Some l =>
    if now <? lease_expiresAt l then ret false else
    let renew := put (set_receiveLease (Some (with_expiresAt l (now + RECEIVE_LEASE_TTL_MS)))) in
    let! intent := get (fun s => receiveFinalizeIntents s !! lease_token l) in
    match intent with
    | Some _ => renew ;! ret false
    | None =>
      let! owner := get (fun s => native_owner s (lease_token l)) in
      match owner with
      | Some _ => renew ;! scheduleAlarmIfSooner (now + 1000) now ;! ret false
      | None =>
        let! cleaned := try_catch
          (r2_delete (input_keys (doPrefix do_id) [lease_token l]) ;! ret true)
          (fun _ => renew ;! scheduleAlarmIfSooner (now + 1000) now ;! ret false) in
        if cleaned : bool then put (set_receiveLease None) ;! ret false else ret true
      end
    end
  end.

Definition clear_writers (now : Z) : DO unit :=
  let! publication := get stockReceivePublicationLease in
  (match publication with
   | Some l => if lease_expiresAt l <=? now then put (set_stockReceivePublicationLease None) else ret tt
   | None => ret tt
   end) ;!
  let! expired := get (fun s => compact_expired s now) in
  if expired : bool then put (set_compactLease None) else ret tt.

Definition clearExpiredLeases (now : Z) : DO bool :=
  let! pending := clear_preparations now in
  let! early := clear_receive now in
  if early : bool then ret true else
  clear_writers now ;!
  ret pending.
End Expiry.

(** ** Lemmas *)

Section AdmissionLemmas.
Context `{Env}.

(** The effect of an admission transaction on every branch. *)
Lemma wp_acquire concurrency lease now helped (Q : res Admission -> world -> Prop) w :
  (forall e n, Q (Err e) (World (st w) n)) ->
  (forall s n, (s = st w \/ exists l i, receiveLease (st w) = Some l /\ lease_expiresAt l <= now /\
        receiveFinalizeIntents (st w) !! lease_token l = Some i /\
        s = set_receiveLease (Some (with_expiresAt l (now + RECEIVE_LEASE_TTL_MS))) (st w)) ->
     Q (Ok AdmitBusy) (World s n)) ->
  (forall c n, prepared_claim (st w) now = Some c -> helped ≠ Some c ->
     Q (Ok (AdmitHelp c)) (World (st w) n)) ->
  (forall n, truthy (repositoryDeleting (st w)) = false ->
     activeLeaseOrUndefined (receiveLease (st w)) now = None ->
     (forall l, receiveLease (st w) = Some l -> receiveFinalizeIntents (st w) !! lease_token l = None) ->
     gc_excludes_receive (st w) now = false ->
     (prepared_claim (st w) now = None \/ prepared_claim (st w) now = helped) ->
     admission_full concurrency (active_natives (st w))
       (activeStockReceivePreparationLeases (stockReceivePreparationLeases (st w)) now) = false ->
     Q (Ok AdmitGranted) (World (set_receiveLease (Some lease) (st w)) n)) ->
  wp (acquire concurrency lease now helped) Q w.
Proof.
  intros Herr Hbusy Hhelp Hok. unfold acquire, listActiveNativeReceiveOperations,
    listActiveStockReceivePreparationLeases. destruct w as [s n]; simpl in *.
  apply wp_transaction, wp_bind, wp_get. simpl.
  destruct (truthy (repositoryDeleting s)) eqn:Ed; [apply wp_ret, Hbusy; auto|].
  apply wp_bind, wp_get, wp_bind, wp_get. simpl.
  destruct (admission_full _ _ _) eqn:Ef; [apply wp_ret, Hbusy; auto|].
  apply wp_bind, wp_get. simpl.
  destruct (bool_decide _) eqn:El; [apply wp_ret, Hbusy; auto|]. apply bool_decide_eq_false in El.
  apply eq_None_not_Some in El.
  apply wp_bind, wp_get. simpl.
  assert (forall (k : DO Admission) , (forall l, receiveLease s = Some l ->
      receiveFinalizeIntents s !! lease_token l = None) -> k = (
    let! excluded := get (fun s => gc_excludes_receive s now) in
    if excluded : bool then ret AdmitBusy else
    let! prepared := get (fun s => prepared_claim s now) in
    match prepared with
    | Some c =>
      if negb (ostr_eq (Some c) helped) then ret (AdmitHelp c)
      else put (set_receiveLease (Some lease)) ;! ret AdmitGranted
    | None => put (set_receiveLease (Some lease)) ;! ret AdmitGranted
    end) -> wp k (fun r w' => match r with Ok a => Q (Ok a) w' | Err e => Q (Err e) (World s (tick w')) end)
      (World s n)) as Htail.
  { intros k Hi ->. apply wp_bind, wp_get. simpl.
    destruct (gc_excludes_receive s now) eqn:Eg; [apply wp_ret, Hbusy; auto|].
    apply wp_bind, wp_get. simpl. destruct (prepared_claim s now) as [c|] eqn:Ec.
    - destruct (ostr_eq (Some c) helped) eqn:Eh; simpl.
      + unfold ostr_eq in Eh. to_prop.
        apply wp_bind, wp_put; [intros; apply Herr|]. intros _. apply wp_ret, Hok; auto.
      + unfold ostr_eq in Eh. to_prop. apply wp_ret, Hhelp; congruence.
    - apply wp_bind, wp_put; [intros; apply Herr|]. intros _. apply wp_ret, Hok; auto. }
  destruct (receiveLease s) as [l|] eqn:Erl; [|by apply Htail].
  destruct (receiveFinalizeIntents s !! lease_token l) as [i|] eqn:Ei; simpl; rewrite Ei.
  - apply wp_bind, wp_put; [intros; apply Herr|]. intros _. apply wp_ret, Hbusy. right.
    exists l, i. split_and!; try done. unfold activeLeaseOrUndefined in El.
    destruct (now <? lease_expiresAt l) eqn:E; [done|]. to_prop. lia.
  - apply Htail; [|done]. by intros ? [= <-].
Qed.

(** Helping a prepared publication leaves the storage as it was or without a
    prepared publication. *)
Lemma wp_help (Q : res unit -> world -> Prop) w :
  (forall r s n, (s = st w \/ forall now, prepared_claim s now = None) -> Q r (World s n)) ->
  wp helpPreparedGcPublication Q w.
Proof.
  intros HQ. unfold helpPreparedGcPublication. destruct w as [s n]; cbn [st] in *.
  wp_run; try (apply HQ; by left). apply wp_commit_coordinated; cbn [st bump].
  - intros. apply HQ. by left.
  - intros. apply wp_ret, HQ. by left.
  - intros. apply wp_ret, HQ. by left.
  - intros o c s' n' _ _ _ _ [_ _ _ (o' & Ho & _ & Hp & _)]. apply wp_ret, HQ. right. intros now.
    unfold prepared_claim. rewrite Ho. destruct (mbind _ _); [|done]. by rewrite Hp.
Qed.
End AdmissionLemmas.

(** The [while] loop of [beginReceiveLease] as it is written, without fuel. *)
Inductive admission_loop `{Env} (concurrency : option nat) (lease : RepoLease) (now : Z)
    : option string -> world -> res bool -> world -> Prop :=
  | loop_failed helped w e w' :
      acquire concurrency lease now helped w = (Err e, w') ->
      admission_loop concurrency lease now helped w (Err e) w'
  | loop_busy helped w w' :
      acquire concurrency lease now helped w = (Ok AdmitBusy, w') ->
      admission_loop concurrency lease now helped w (Ok false) w'
  | loop_granted helped w w' :
      acquire concurrency lease now helped w = (Ok AdmitGranted, w') ->
      admission_loop concurrency lease now helped w (Ok true) w'
  | loop_help_failed helped w c w1 e w' :
      acquire concurrency lease now helped w = (Ok (AdmitHelp c), w1) ->
      helpPreparedGcPublication w1 = (Err e, w') ->
      admission_loop concurrency lease now helped w (Err e) w'
  | loop_again helped w c w1 w2 r w' :
      acquire concurrency lease now helped w = (Ok (AdmitHelp c), w1) ->
      helpPreparedGcPublication w1 = (Ok tt, w2) ->
      admission_loop concurrency lease now (Some c) w2 r w' ->
      admission_loop concurrency lease now helped w r w'.

Section AdmissionSpec.
Context `{Env}.

(** An admission that does not ask for help ends the loop. *)
Lemma admission_ends concurrency lease now helped w fuel :
  prepared_claim (st w) now = None \/ prepared_claim (st w) now = helped ->
  admission_loop concurrency lease now helped w
    (admitLease (S fuel) concurrency lease now helped w).1
    (admitLease (S fuel) concurrency lease now helped w).2.
Proof.
  intros Hp. simpl. unfold bind.
  assert (wp (acquire concurrency lease now helped)
    (fun r _ => forall c, r = Ok (AdmitHelp c) -> prepared_claim (st w) now = Some c /\ helped ≠ Some c) w)
    as Hwp by (by apply wp_acquire; intros; simplify_eq).
  unfold wp in Hwp. destruct (acquire concurrency lease now helped w) as [[[|c|]|e] w1] eqn:E.
  - by apply loop_busy.
  - destruct (Hwp c eq_refl) as [H1 H2]. destruct Hp; congruence.
  - by apply loop_granted.
  - by apply loop_failed.
Qed.
End AdmissionSpec.

(** ** Properties *)

(** Admission terminates.  The loop that lets a prepared publication go first
    turns at most twice: after one help either that publication is no longer
    prepared, or its claim is the one already helped.  So the fuel of the model is
    never the reason of an answer: its result is the result of the unbounded
    loop, for every clock, fault and storage. *)
Theorem admission_terminates `{Env} (concurrency : option nat) (lease : RepoLease) (now : Z)
    (w : world) :
  let r := admitLease 2 concurrency lease now None w in
  admission_loop concurrency lease now None w r.1 r.2.
Proof.
  cbv zeta. change 2%nat with (S 1). remember 1%nat as fuel eqn:Hfuel. simpl. unfold bind.
  assert (wp (acquire concurrency lease now None)
    (fun r w1 => forall c, r = Ok (AdmitHelp c) -> st w1 = st w /\ prepared_claim (st w) now = Some c) w)
    as Hwp by (apply wp_acquire; intros; simplify_eq; done).
  unfold wp in Hwp. destruct (acquire concurrency lease now None w) as [[[|c|]|e] w1] eqn:E.
  - by apply loop_busy.
  - destruct (Hwp c eq_refl) as [Hst Hc]. simpl in Hst.
    assert (wp helpPreparedGcPublication (fun _ w2 => st w2 = st w1 \/
      forall now, prepared_claim (st w2) now = None) w1) as Hhelp by (by apply wp_help).
    unfold wp in Hhelp. destruct (helpPreparedGcPublication w1) as [[[]|e] w2] eqn:Eh.
    + eapply loop_again; [done | done |]. subst fuel. apply (admission_ends _ _ _ _ _ 0).
      simpl in Hhelp. destruct Hhelp as [->|Hn]; [right; by rewrite Hst | left; apply Hn].
    + by eapply loop_help_failed.
  - by apply loop_granted.
  - by apply loop_failed.
Qed.

(** When a receive may be admitted. *)
Record receive_admissible (concurrency : option nat) (now : Z) (helped : option string) (s : Storage)
    : Prop := {
  ra_open : truthy (repositoryDeleting s) = false;
  ra_lease : forall l, receiveLease s = Some l ->
    lease_expiresAt l <= now /\ receiveFinalizeIntents s !! lease_token l = None;
  ra_collection : forall l, compactLease s = Some l -> now < lease_expiresAt l ->
    lease_operation l = Some OpReachabilityGc ->
    exists o snap, gcOperation s = Some o /\ is_Some (gc_coordination o) /\
      gc_snapshot o = Some snap /\ gs_token snap = lease_token l;
  ra_room :
    let preparations := activeStockReceivePreparationLeases (stockReceivePreparationLeases s) now in
    let n := (length (active_natives s) + length preparations)%nat in
    n = 0%nat \/ exists limit, concurrency = Some limit /\ (n < limit)%nat /\
      forall o, o ∈ active_natives s -> native_stock o = true /\ native_state o = NrProcessing;
  ra_turn : prepared_claim s now = None \/ prepared_claim s now = helped }.

Lemma excludes_spec s now :
  gc_excludes_receive s now = false ->
  forall l, compactLease s = Some l -> now < lease_expiresAt l -> lease_operation l = Some OpReachabilityGc ->
  exists o snap, gcOperation s = Some o /\ is_Some (gc_coordination o) /\
    gc_snapshot o = Some snap /\ gs_token snap = lease_token l.
Proof.
  unfold gc_excludes_receive, activeLeaseOrUndefined, lease_is. intros He l Hl Hlt Hop.
  rewrite Hl in He. apply Z.ltb_lt in Hlt. rewrite Hlt, bool_decide_true in He by done. simpl in He.
  apply negb_false_iff in He. destruct (gcOperation s) as [o|]; [|done].
  apply andb_true_iff in He as [Hc Ht]. unfold ostr_eq in Ht. to_prop.
  destruct (gc_snapshot o) as [snap|] eqn:Es; [|done]. injection Ht as Ht.
  by exists o, snap.
Qed.

Lemma room_spec concurrency natives preparations :
  admission_full concurrency natives preparations = false ->
  let n := (length natives + length preparations)%nat in
  n = 0%nat \/ exists limit, concurrency = Some limit /\ (n < limit)%nat /\
    forall o, o ∈ natives -> native_stock o = true /\ native_state o = NrProcessing.
Proof.
  unfold admission_full, native_processing_stock. cbv zeta. intros [Hn|Hn]%andb_false_iff.
  - left. apply Nat.ltb_ge in Hn. lia.
  - right. destruct concurrency as [limit|]; [|done]. exists limit.
    apply orb_false_iff in Hn as [Hlt Hs]. apply Nat.leb_gt in Hlt. split_and!; [done | done |].
    intros o Ho. rewrite js_some_false in Hs. specialize (Hs o Ho).
    apply negb_false_iff, andb_true_iff in Hs as [H1 H2]. by to_prop.
Qed.


(** At every open gate another push asks for the receive lease. *)
Definition racing_env : Env :=
  platform (fun _ => 5000)
    (fun _ s => st (beginReceiveLease (H := still_env 5000) None (World s 100)).2).

(** The expiry of a receive lease does not look again.  A push that is granted
    the lease while the alarm waits for the object store to delete the expired
    lease's inputs holds the lease at that moment, but the alarm then deletes
    whatever lease is stored: the push is left without it. *)
Theorem expiry_race_drops_fresh_lease :
  let expired := World (set_receiveLease (Some (mkLease "old" 0 1000 (Some OpReceive))) empty_storage) 0 in
  (exists b, (beginReceiveLease (H := still_env 5000) None (World (st expired) 100)).1 = Ok (ReceiveBegan b) /\
     receiveLease (env_interleave (Env := racing_env) 1 (st expired)) = Some (rb_lease b) /\
     lease_token (rb_lease b) ≠ "old"%string) /\
  (clearExpiredLeases (H := racing_env) 5000 expired).1 = Ok false /\
  receiveLease (st (clearExpiredLeases (H := racing_env) 5000 expired).2) = None.
Proof.
  intros expired. split_and!; [| vm_compute; reflexivity | vm_compute; reflexivity].
  eexists. split_and!; [vm_compute; reflexivity | vm_compute; reflexivity |].
  by apply (bool_decide_unpack _); vm_compute.
Qed.
