(* ===== verification/AcceptedWrites.v ===== *)
(** * Accepted writes and snapshot projections

    [do/repo/acceptedWrites.ts]: the journal of accepted writes, the immutable
    snapshot pins, their release, and the monotonic current pointer per ref. *)
From S2P Require Import Prelude Storage Effects Text RefUpdate Lifecycle.

(** ** Definitions *)

Record SnapshotPinInput := mkPinInput {
  input_commitSha : string;
  input_treeSha : string;
  input_materializedAt : Z;
  input_advanceCurrent : bool;
  input_qualificationOwned : bool }.

(** [SnapshotPinFact]. *)
Record PinFact := mkPinFact {
  pf_ref : string;
  pf_beforeSha : string;
  pf_commitSha : string;
  pf_actor : string;
  pf_sourceSurface : AcceptedWriteSource;
  pf_idempotencyKey : option string }.

Record SnapshotProjectionResult := mkProjection {
  proj_snapshotCreated : bool;
  proj_pointerAdvanced : bool;
  proj_current : SnapshotCurrent }.

Inductive ProjectionOutcome :=
  | Projected (r : SnapshotProjectionResult)
  | ProjStale
  | ProjDeleting
  | ProjInvalid
  | ProjLeaseExpired.

Inductive SnapshotResolution := ResPinned (pin : SnapshotPin) | ResReleased | ResLegacy.

Inductive ReleaseResult := Released | ReleaseDeleting | ReleaseReferenced.

Inductive ReconcilePlan :=
  | PlanUpToDate (current : SnapshotCurrent)
  | PlanDeliver (entry : AcceptedWriteJournalEntry)
  | PlanHeadOnly (ref afterSha : string) (sequence : Z) (beforeSha : string)
  | PlanUnborn (ref : string).

(** [String(sequence).padStart(16, "0")] and the encoded ref. *)
Definition journalId (sequence : Z) (ref : string) : string :=
  (padStart0 16 (pretty sequence) ++ ":" ++ encodeURIComponent ref)%string.

Definition isValidPinnedObjectSha (sha : string) : bool :=
  matches_all is_hex_lower 40 40 sha && negb (str_eq sha zeroOid).

Definition pin_fact_of (fact : AcceptedWriteFact) : PinFact :=
  mkPinFact (fact_ref fact) (beforeSha fact) (afterSha fact) (fact_actor fact)
    (fact_sourceSurface fact) (fact_idempotencyKey fact).

(** The pin an input installs for a fact at a sequence. *)
Definition new_pin (sequence : Z) (fact : PinFact) (input : SnapshotPinInput) : SnapshotPin :=
  mkPin (pf_commitSha fact) (input_treeSha input) (pf_ref fact) (pf_beforeSha fact) sequence
    (input_materializedAt input) (pf_actor fact) (pf_sourceSurface fact) (pf_idempotencyKey fact)
    (if input_qualificationOwned input then Some true else None).

(** The condition under which [recordAcceptedWrites] throws on its pin. *)
Definition pin_mismatch (facts : list AcceptedWriteFact) (input : SnapshotPinInput) : bool :=
  negb (isValidPinnedObjectSha (input_commitSha input)) ||
  negb (isValidPinnedObjectSha (input_treeSha input)) ||
  negb (js_some (fun fact => str_eq (afterSha fact) (input_commitSha input)) facts).

Section AcceptedWrites.
Context `{Env}.

(** The pointer step shared by the three writers of [snapshotCurrent]: forward
    only, and a conflict on equal sequences throws.  The result says whether
    it moved, with the pointer afterwards. *)
Definition advance_current (ref commitSha : string) (sequence updatedAt : Z)
    : DO (bool * SnapshotCurrent) :=
  let! current := get (fun s => snapshotCurrents s !! ref) in
  let next := mkCurrent ref commitSha sequence updatedAt in
  match current with
  | None =>
    put (fun s => set_snapshotCurrents (<[ref := next]> (snapshotCurrents s)) s) ;! ret (true, next)
  | Some c =>
    if current_sequence c <? sequence then
      put (fun s => set_snapshotCurrents (<[ref := next]> (snapshotCurrents s)) s) ;! ret (true, next)
    else if (sequence =? current_sequence c) && negb (str_eq (current_commitSha c) commitSha)
    then throw "snapshot current-pointer sequence conflict"
    else ret (false, c)
  end.

Definition retainSnapshotPin (sequence : Z) (fact : PinFact) (input : SnapshotPinInput) : DO bool :=
  let commit := pf_commitSha fact in
  if negb (str_eq commit (input_commitSha input)) || negb (isValidPinnedObjectSha (input_treeSha input))
  then ret false else
  let! existing := get (fun s => snapshotPins s !! commit) in
  let continue :=
    put (fun s => set_releasedSnapshots (delete commit (releasedSnapshots s)) s) ;!
    let! materialized := get (fun s => materializedSnapshots s !! commit) in
    (match materialized with
     | Some _ => ret tt
     | None => put (fun s => set_materializedSnapshots
                 (<[commit := mkMaterialized commit sequence (input_materializedAt input)]>
                    (materializedSnapshots s)) s)
     end) ;!
    (if input_advanceCurrent input
     then advance_current (pf_ref fact) commit sequence (input_materializedAt input) ;! ret tt
     else ret tt) ;!
    ret true in
  match existing with
  | Some pin =>
    if negb (str_eq (pin_treeSha pin) (input_treeSha input)) ||
       negb (str_eq (pin_commitSha pin) commit) then ret false else continue
  | None =>
    put (fun s => set_snapshotPins (<[commit := new_pin sequence fact input]> (snapshotPins s)) s) ;!
    put (fun s => set_snapshotPinVersion (Some (default 0 (snapshotPinVersion s) + 1)) s) ;!
    continue
  end.

(** The journal entry of one fact. *)
Definition journal_fact (sequence acceptedAt : Z) (fact : AcceptedWriteFact) : DO unit :=
  let id := journalId sequence (fact_ref fact) in
  let! existing := get (fun s => acceptedWrites s !! id) in
  match existing with
  | Some e =>
    if negb (entry_sequence e =? sequence) || negb (str_eq (fact_ref (entry_fact e)) (fact_ref fact)) ||
       negb (str_eq (beforeSha (entry_fact e)) (beforeSha fact)) ||
       negb (str_eq (afterSha (entry_fact e)) (afterSha fact))
    then throw "accepted-write journal identity conflict" else ret tt
  | None =>
    put (fun s => set_acceptedWrites
           (<[id := mkJournal id sequence fact acceptedAt None]> (acceptedWrites s)) s)
  end.

(** One turn of the loop of [recordAcceptedWrites]; [retained] accumulates. *)
Definition record_fact (sequence acceptedAt : Z) (journal : bool) (pin : option SnapshotPinInput)
    (retained : bool) (fact : AcceptedWriteFact) : DO bool :=
  put (fun s => set_acceptedWriteHeads (<[fact_ref fact :=
         mkWriteHead (fact_ref fact) (beforeSha fact) (afterSha fact) sequence]>
           (acceptedWriteHeads s)) s) ;!
  let! kept := (match pin with
                | Some input =>
                  if str_eq (afterSha fact) (input_commitSha input)
                  then retainSnapshotPin sequence (pin_fact_of fact) input
                  else ret true
                | None => ret true
                end) in
  (if journal then journal_fact sequence acceptedAt fact else ret tt) ;!
  ret (retained && kept).

Fixpoint record_facts (sequence acceptedAt : Z) (journal : bool) (pin : option SnapshotPinInput)
    (retained : bool) (facts : list AcceptedWriteFact) : DO bool :=
  match facts with
  | [] => ret retained
  | fact :: r =>
    let! retained' := record_fact sequence acceptedAt journal pin retained fact in
    record_facts sequence acceptedAt journal pin retained' r
  end.

Definition recordAcceptedWrites (sequence : Z) (facts : list AcceptedWriteFact) (acceptedAt : Z)
    (journal : bool) (pin : option SnapshotPinInput) : DO bool :=
  if (length facts =? 0)%nat then ret true else
  if (match pin with Some input => pin_mismatch facts input | None => false end)
  then throw "FUBAR: snapshot pin does not match an accepted write"
  else record_facts sequence acceptedAt journal pin true facts.

Definition hasActiveProjectionLease (token : option string) : DO bool :=
  match token with
  | None => ret false
  | Some t =>
    if str_eq t "" then ret false else
    let! now := Date_now in
    let! leases := get (fun s => activeReadLeases (repositoryReadLeases s) now) in
    put (set_repositoryReadLeases (nonempty leases)) ;!
    ret (js_some (fun l => str_eq (lease_token l) t && lease_is OpSnapshotProjection l) leases)
  end.

Definition getSnapshotPinState (commitSha : string) : DO (option SnapshotPin) :=
  get (fun s => snapshotPins s !! commitSha).

Definition getSnapshotResolutionState (commitSha : string) : DO SnapshotResolution :=
  let! pin := get (fun s => snapshotPins s !! commitSha) in
  match pin with
  | Some p => ret (ResPinned p)
  | None =>
    let! released := get (fun s => releasedSnapshots s !! commitSha) in
    ret (if released is Some _ then ResReleased else ResLegacy)
  end.

Definition listSnapshotPinsState : DO (list SnapshotPin) :=
  get (fun s => (listed (snapshotPins s)).*2).

Definition releaseSnapshotPinState (commitSha : string) (legacySnapshotExists : bool)
    (qualificationOwned : option bool) : DO ReleaseResult :=
  transaction (
    let! deleting := get repositoryDeleting in
    if truthy deleting then ret ReleaseDeleting else
    let! rs := get (fun s => default [] (refs s)) in
    if js_some (fun r => str_eq (ref_oid r) commitSha) rs then ret ReleaseReferenced else
    let! pin := get (fun s => snapshotPins s !! commitSha) in
    match pin with
    | None =>
      let! released := get (fun s => releasedSnapshots s !! commitSha) in
      if bool_decide (is_Some released) || negb legacySnapshotExists then ret Released else
      let! now := Date_now in
      put (fun s => set_releasedSnapshots
             (<[commitSha := mkReleased commitSha now qualificationOwned]> (releasedSnapshots s)) s) ;!
      ret Released
    | Some p =>
      put (fun s => set_snapshotPins (delete commitSha (snapshotPins s)) s) ;!
      put (fun s => set_materializedSnapshots (delete commitSha (materializedSnapshots s)) s) ;!
      let! now := Date_now in
      put (fun s => set_releasedSnapshots
             (<[commitSha := mkReleased commitSha now
                  (if truthy (pin_qualificationOwned p) then Some true else qualificationOwned)]>
                (releasedSnapshots s)) s) ;!
      ret Released
    end).

Definition listAcceptedWriteJournalState : DO (list AcceptedWriteJournalEntry) :=
  get (fun s => (listed (acceptedWrites s)).*2).

Definition getSnapshotProjectionState (ref : string) : DO (Z * option SnapshotCurrent) :=
  get (fun s => (Z.of_nat (size (materializedSnapshots s)), snapshotCurrents s !! ref)).

(** The projection shared by the journal delivery and the reconciled head:
    the pin, and a continuation when it is retained. *)
Definition project_pin (sequence : Z) (fact : PinFact) (treeSha : string) (materializedAt : Z)
    (readerToken : option string) (k : bool -> DO ProjectionOutcome) : DO ProjectionOutcome :=
  let commit := pf_commitSha fact in
  let isDeletion := str_eq commit zeroOid in
  if isDeletion then k false else
  if negb (isValidPinnedObjectSha treeSha) then ret ProjInvalid else
  let! existingPin := get (fun s => snapshotPins s !! commit) in
  let! admitted := (match existingPin with
                    | Some _ => ret true
                    | None => hasActiveProjectionLease readerToken
                    end) in
  if negb admitted then ret ProjLeaseExpired else
  let! existing := get (fun s => materializedSnapshots s !! commit) in
  let! retained := retainSnapshotPin sequence fact
    (mkPinInput commit treeSha materializedAt false false) in
  if negb retained then ret ProjInvalid else
  k (negb (bool_decide (is_Some existing))).

Definition projectAcceptedWriteState (entryId commitSha treeSha : string) (materializedAt : Z)
    (readerToken : option string) : DO ProjectionOutcome :=
  transaction (
    let! deleting := get repositoryDeleting in
    if truthy deleting then ret ProjDeleting else
    let! entry := get (fun s => acceptedWrites s !! entryId) in
    match entry with
    | None => throw "accepted-write journal entry does not match snapshot"
    | Some e =>
      if negb (str_eq (afterSha (entry_fact e)) commitSha)
      then throw "accepted-write journal entry does not match snapshot" else
      project_pin (entry_sequence e) (pin_fact_of (entry_fact e)) treeSha materializedAt readerToken
        (fun created =>
          (if orZ (entry_materializedAt e) 0 =? 0
           then put (fun s => set_acceptedWrites
                  (<[entryId := mkJournal (entry_id e) (entry_sequence e) (entry_fact e)
                                  (entry_acceptedAt e) (Some materializedAt)]> (acceptedWrites s)) s)
           else ret tt) ;!
          let! r := advance_current (fact_ref (entry_fact e)) (afterSha (entry_fact e))
                      (entry_sequence e) materializedAt in
          ret (Projected (mkProjection created r.1 r.2)))
    end).

Definition projectReconciledHeadState (ref commitSha treeSha : string) (sequence materializedAt : Z)
    (readerToken : option string) : DO ProjectionOutcome :=
  transaction (
    let! deleting := get repositoryDeleting in
    if truthy deleting then ret ProjDeleting else
    let! acceptedHead := get (fun s => acceptedWriteHeads s !! ref) in
    let! rs := get (fun s => default [] (refs s)) in
    let authoritative := default zeroOid (oid_of rs ref) in
    let! rv := get (fun s => default 0 (refsVersion s)) in
    let sequenceMatches :=
      match acceptedHead with
      | Some h => if str_eq (wh_afterSha h) authoritative then wh_sequence h =? sequence
                  else rv =? sequence
      | None => rv =? sequence
      end in
    if negb (str_eq authoritative commitSha) || negb sequenceMatches then ret ProjStale else
    project_pin sequence (mkPinFact ref zeroOid commitSha "reconcile" Reconcile None)
      treeSha materializedAt readerToken
      (fun created =>
        let! r := advance_current ref commitSha sequence materializedAt in
        ret (Projected (mkProjection created r.1 r.2)))).

Definition getSnapshotReconcilePlanState (ref : string) : DO ReconcilePlan :=
  let! acceptedHead := get (fun s => acceptedWriteHeads s !! ref) in
  let! rs := get (fun s => default [] (refs s)) in
  let after := default zeroOid (oid_of rs ref) in
  if negb (bool_decide (is_Some acceptedHead)) && str_eq after zeroOid then ret (PlanUnborn ref) else
  let! rv := get (fun s => default 0 (refsVersion s)) in
  let sequence := match acceptedHead with
                  | Some h => if str_eq (wh_afterSha h) after then wh_sequence h else rv
                  | None => rv
                  end in
  let! current := get (fun s => snapshotCurrents s !! ref) in
  let! journal := listAcceptedWriteJournalState in
  let pending :=
    match js_find (fun e => (entry_sequence e =? sequence) && str_eq (fact_ref (entry_fact e)) ref &&
                            str_eq (afterSha (entry_fact e)) after) (rev journal) with
    | Some e => PlanDeliver e
    | None => PlanHeadOnly ref after sequence (default zeroOid (current_commitSha <$> current))
    end in
  match current with
  | Some c =>
    if str_eq (current_commitSha c) after && (current_sequence c =? sequence)
    then ret (PlanUpToDate c) else ret pending
  | None => ret pending
  end.

Definition dropAcceptedWriteJournalEntry (entryId : string) : DO bool :=
  transaction (
    let! deleting := get repositoryDeleting in
    if truthy deleting then ret false else
    let! present := get (fun s => bool_decide (is_Some (acceptedWrites s !! entryId))) in
    put (fun s => set_acceptedWrites (delete entryId (acceptedWrites s)) s) ;!
    ret present).
End AcceptedWrites.

(** ** Lemmas *)

(** What the journal of accepted writes never touches. *)
Definition authority (s : Storage) :=
  (refs s, refsVersion s, head s, (receiveLease s, compactLease s, repositoryDeleting s),
   (packsetVersion s, nextPackSeq s, pack_catalog s), receiveFinalizeIntents s,
   (receiveOutcomes s, nativeReceiveOperations s, nativeReceiveOperationIndex s),
   gcOperation s).

Section FrameLemmas.
Context `{Env}.

Lemma advance_current_authority ref commit sequence t :
  framed authority (advance_current ref commit sequence t).
Proof. unfold advance_current. frames. Qed.
Hint Resolve advance_current_authority : framed.

Lemma retainSnapshotPin_authority sequence fact input :
  framed authority (retainSnapshotPin sequence fact input).
Proof. unfold retainSnapshotPin. frames. Qed.
Hint Resolve retainSnapshotPin_authority : framed.

Lemma record_fact_authority sequence t journal pin kept fact :
  framed authority (record_fact sequence t journal pin kept fact).
Proof. unfold record_fact, journal_fact. frames. Qed.

Hint Resolve record_fact_authority : framed.

Lemma record_facts_authority sequence t journal pin kept facts :
  framed authority (record_facts sequence t journal pin kept facts).
Proof. revert kept. induction facts as [|fact r IH]; intros kept; simpl; frames. Qed.
Hint Resolve record_facts_authority : framed.

Lemma recordAcceptedWrites_authority sequence facts t journal pin :
  framed authority (recordAcceptedWrites sequence facts t journal pin).
Proof. unfold recordAcceptedWrites. frames. Qed.
End FrameLemmas.

#[export] Hint Resolve advance_current_authority retainSnapshotPin_authority
  recordAcceptedWrites_authority : framed.

(** ** Pointers and pins *)

(** Every current pointer stays or moves to a later sequence. *)
Definition pointers_advance (s s' : Storage) : Prop :=
  forall ref c, snapshotCurrents s !! ref = Some c ->
    exists c', snapshotCurrents s' !! ref = Some c' /\
      (c' = c \/ current_sequence c < current_sequence c').

#[export] Instance pointers_advance_preorder : PreOrder pointers_advance.
Proof.
  split.
  - intros s ref c Hc. exists c. auto.
  - intros s1 s2 s3 H1 H2 ref c Hc. destruct (H1 _ _ Hc) as (c1 & Hc1 & Hl1).
    destruct (H2 _ _ Hc1) as (c2 & Hc2 & Hl2). exists c2. split; [done|].
    destruct Hl1 as [->|Hl1], Hl2 as [->|Hl2]; auto; right; lia.
Qed.

(** Every pin stays as it is. *)
Definition pins_kept (s s' : Storage) : Prop :=
  forall commit pin, snapshotPins s !! commit = Some pin -> snapshotPins s' !! commit = Some pin.

#[export] Instance pins_kept_preorder : PreOrder pins_kept.
Proof. split; [by intros s c p | intros s1 s2 s3 H1 H2 c p Hp; auto]. Qed.

Definition journal_evolves (s s' : Storage) : Prop := pointers_advance s s' /\ pins_kept s s'.

#[export] Instance journal_evolves_preorder : PreOrder journal_evolves.
Proof.
  split; [by split; reflexivity|]. intros s1 s2 s3 [H1 H2] [H3 H4]. split; by etrans.
Qed.

Definition journal_respects {A} (m : DO A) : Prop :=
  respects (fun _ => True) journal_evolves m anything.

Create HintDb journal.

Section JournalLemmas.
Context `{Env}.

Lemma journal_framed {A} (m : DO A) :
  framed (fun s => (snapshotCurrents s, snapshotPins s)) m -> journal_respects m.
Proof.
  intros Hm w _. destruct (Hm w I) as (_ & Hf & _). unfold frame in Hf. injection Hf as E1 E2.
  split; [done|]. split; [|by destruct (m w).1]. unfold journal_evolves, pointers_advance, pins_kept.
  rewrite <- E1, <- E2. split; [|done]. intros ref c Hc. exists c. auto.
Qed.

(** The pointer moves forward, stays, or the writer fails. *)
Lemma wp_advance_current ref commit sequence t
    (Q : res (bool * SnapshotCurrent) -> world -> Prop) w :
  (forall e n, Q (Err e) (World (st w) n)) ->
  (forall n, let next := mkCurrent ref commit sequence t in
     (forall c, snapshotCurrents (st w) !! ref = Some c -> current_sequence c < sequence) ->
     Q (Ok (true, next)) (World (set_snapshotCurrents
       (<[ref := next]> (snapshotCurrents (st w))) (st w)) n)) ->
  (forall c n, snapshotCurrents (st w) !! ref = Some c -> sequence <= current_sequence c ->
     (sequence = current_sequence c -> current_commitSha c = commit) ->
     Q (Ok (false, c)) (World (st w) n)) ->
  wp (advance_current ref commit sequence t) Q w.
Proof.
  intros Herr Hnext Hstay. unfold advance_current. destruct w as [s n]. cbn [st] in *.
  apply wp_bind, wp_get. cbn [st]. cbv zeta in *.
  assert (forall Hx : (forall c, snapshotCurrents s !! ref = Some c -> current_sequence c < sequence),
    wp (put (fun s => set_snapshotCurrents (<[ref := mkCurrent ref commit sequence t]>
          (snapshotCurrents s)) s) ;! ret (true, mkCurrent ref commit sequence t)) Q (World s n)) as Hput.
  { intros Hx. apply wp_bind, wp_put; [intros; apply Herr|]. intros _. by apply wp_ret, Hnext. }
  destruct (snapshotCurrents s !! ref) as [c|] eqn:E; [|by apply Hput].
  destruct (current_sequence c <? sequence) eqn:E1.
  - apply Z.ltb_lt in E1. apply Hput. by intros ? [= <-].
  - apply Z.ltb_ge in E1. destruct (_ && _) eqn:E2; [apply wp_throw, Herr|].
    apply wp_ret, Hstay; [done | done |]. intros Heq. rewrite Heq, Z.eqb_refl in E2. simpl in E2.
    apply negb_false_iff in E2. by apply bool_decide_eq_true in E2.
Qed.

Lemma advance_current_journal ref commit sequence t :
  journal_respects (advance_current ref commit sequence t).
Proof.
  apply respects_wp. intros w _. apply wp_advance_current.
  - intros. split; [done|]. by split.
  - intros n next Hlt. split; [done|]. split; [|done]. split; [|by intros ? ?].
    intros ref' c Hc. simpl.
    destruct (decide (ref' = ref)) as [->|Hne].
    + exists next. rewrite lookup_insert_eq. split; [done|]. right. simpl. by apply Hlt.
    + exists c. rewrite lookup_insert_ne by done. auto.
  - intros. split; [done|]. by split.
Qed.
Hint Resolve advance_current_journal : journal.

(** Step through a handler of the journal; the writes that touch neither
    pointers nor pins close by computation. *)
Ltac journal :=
  unfold journal_respects in *; respect;
  try (match goal with |- respects _ journal_evolves ?m _ => change (journal_respects m); solve [eauto with journal] end);
  try (split; [done|]; split; [intros ? c ?; exists c; auto | by intros ? ?]).

Lemma retainSnapshotPin_journal sequence fact input :
  journal_respects (retainSnapshotPin sequence fact input).
Proof.
  unfold journal_respects, retainSnapshotPin. destruct (_ || _); [by respect_step|].
  set (continue := put _ ;! _).
  assert (journal_respects continue) as Hc by (subst continue; journal).
  apply respects_wp. intros w _. apply wp_bind, wp_get.
  assert (forall w', journal_evolves (st w) (st w') ->
    wp continue (fun r w'' => True /\ journal_evolves (st w) (st w'') /\
      match r with Ok a => anything a | Err _ => True end) w') as Hcont.
  { intros w' He. destruct (Hc w' I) as (_ & He' & Hr). split; [done|]. split; [by etrans | done]. }
  destruct (snapshotPins (st w) !! pf_commitSha fact) as [pin|] eqn:E.
  - destruct (_ || _).
    + apply wp_ret. split; [done|]. by split.
    + by apply Hcont.
  - apply wp_bind, wp_put; [intros; split; [done|]; by split|]. intros _.
    assert (journal_evolves (st w) (set_snapshotPins
      (<[pf_commitSha fact := new_pin sequence fact input]> (snapshotPins (st w))) (st w))) as He.
    { split; [intros ref c Hr; exists c; auto|]. intros commit pin Hp. simpl.
      rewrite lookup_insert_ne; [done|]. intros <-. congruence. }
    apply wp_bind, wp_put; [intros; split; [done|]; by split|]. intros _. by apply Hcont.
Qed.
Hint Resolve retainSnapshotPin_journal : journal.

Lemma record_fact_journal sequence t journal pin kept fact :
  journal_respects (record_fact sequence t journal pin kept fact).
Proof. unfold record_fact, journal_fact. journal. Qed.
Hint Resolve record_fact_journal : journal.

Lemma record_facts_journal sequence t journal pin kept facts :
  journal_respects (record_facts sequence t journal pin kept facts).
Proof. revert kept. induction facts as [|fact r IH]; intros kept; simpl; journal. Qed.
Hint Resolve record_facts_journal : journal.

Lemma recordAcceptedWrites_journal sequence facts t journal pin :
  journal_respects (recordAcceptedWrites sequence facts t journal pin).
Proof. unfold recordAcceptedWrites. journal. Qed.

Lemma project_pin_journal sequence fact tree t reader k :
  (forall b, journal_respects (k b)) -> journal_respects (project_pin sequence fact tree t reader k).
Proof. intros Hk. unfold project_pin, hasActiveProjectionLease. journal; apply Hk. Qed.
End JournalLemmas.

(** What is asked of the journal and of the snapshots. *)
Inductive journal_request :=
  | RecordWrites (sequence : Z) (facts : list AcceptedWriteFact) (acceptedAt : Z) (journal : bool)
      (pin : option SnapshotPinInput)
  | ProjectEntry (entryId commitSha treeSha : string) (materializedAt : Z) (reader : option string)
  | ProjectHead (ref commitSha treeSha : string) (sequence materializedAt : Z) (reader : option string)
  | DropEntry (entryId : string)
  | ReleasePin (commitSha : string) (legacyExists : bool) (owned : option bool).

Definition serve_journal `{Env} (r : journal_request) : DO unit :=
  match r with
  | RecordWrites sequence facts t journal pin => recordAcceptedWrites sequence facts t journal pin ;! ret tt
  | ProjectEntry entryId commitSha treeSha t reader =>
    projectAcceptedWriteState entryId commitSha treeSha t reader ;! ret tt
  | ProjectHead ref commitSha treeSha sequence t reader =>
    projectReconciledHeadState ref commitSha treeSha sequence t reader ;! ret tt
  | DropEntry entryId => dropAcceptedWriteJournalEntry entryId ;! ret tt
  | ReleasePin commitSha legacyExists owned =>
    releaseSnapshotPinState commitSha legacyExists owned ;! ret tt
  end.

Section JournalHandlers.
Context `{Env}.

Lemma projectEntry_journal entryId commitSha treeSha t reader :
  journal_respects (projectAcceptedWriteState entryId commitSha treeSha t reader).
Proof.
  unfold journal_respects, projectAcceptedWriteState. respect.
  apply project_pin_journal. intros created. pose proof advance_current_journal.
  unfold journal_respects in *. respect; try apply H0.
  split; [done|]. split; [intros ref c Hc; exists c; auto | by intros ? ?].
Qed.

Lemma projectHead_journal ref commitSha treeSha sequence t reader :
  journal_respects (projectReconciledHeadState ref commitSha treeSha sequence t reader).
Proof.
  unfold journal_respects, projectReconciledHeadState. respect.
  all: apply project_pin_journal; intros created; pose proof advance_current_journal as Ha;
    unfold journal_respects in *; respect; apply Ha.
Qed.

Lemma dropEntry_journal entryId : journal_respects (dropAcceptedWriteJournalEntry entryId).
Proof. apply journal_framed. unfold dropAcceptedWriteJournalEntry. frames. Qed.

(** A release drops at most its own pin, and only of a commit no ref names. *)
Lemma wp_release commitSha legacyExists owned (Q : res ReleaseResult -> world -> Prop) w :
  (forall r n, Q r (World (st w) n)) ->
  (forall r s n, snapshotCurrents s = snapshotCurrents (st w) ->
     snapshotPins s = delete commitSha (snapshotPins (st w)) ->
     truthy (repositoryDeleting (st w)) = false ->
     (forall x, x ∈ default [] (refs (st w)) -> ref_oid x ≠ commitSha) ->
     is_Some (releasedSnapshots s !! commitSha) -> Q r (World s n)) ->
  wp (releaseSnapshotPinState commitSha legacyExists owned) Q w.
Proof.
  intros Hsame Hrel. unfold releaseSnapshotPinState. destruct w as [s n]. cbn [st] in *.
  apply wp_transaction. wp_run; cbn [st bump] in *; try apply Hsame.
  all: apply Hrel; simpl; try done.
  all: rewrite ?lookup_insert_eq; try by eexists.
  all: try by rewrite delete_id.
  all: intros x Hx Heq; pose proof (proj1 (js_some_false _ _) Heqb0 x Hx) as Hf;
    by apply bool_decide_eq_false in Hf.
Qed.
End JournalHandlers.

Section PinLemmas.
Context `{Env}.

(** A retained pin is stored with the tree it was asked for. *)
Definition pinned (commit tree : string) (s : Storage) : Prop :=
  exists pin, snapshotPins s !! commit = Some pin /\ pin_treeSha pin = tree.

Lemma pinned_kept commit tree s s' : pinned commit tree s -> journal_evolves s s' -> pinned commit tree s'.
Proof. intros (pin & Hp & Ht) [_ Hk]. exists pin. split; [by apply Hk | done]. Qed.

(** Run a handler of the journal inside a proof. *)
Lemma wp_journal {A} (m : DO A) (Q : res A -> world -> Prop) w :
  journal_respects m -> (forall r w', journal_evolves (st w) (st w') -> Q r w') -> wp m Q w.
Proof. intros Hm HQ. destruct (Hm w I) as (_ & He & _). by apply HQ. Qed.

Lemma wp_retain_pin sequence fact input (Q : res bool -> world -> Prop) w :
  (forall e w', Q (Err e) w') -> (forall w', Q (Ok false) w') ->
  (forall w', journal_evolves (st w) (st w') ->
     pinned (pf_commitSha fact) (input_treeSha input) (st w') -> Q (Ok true) w') ->
  wp (retainSnapshotPin sequence fact input) Q w.
Proof.
  intros Herr Hno Hyes. destruct (retainSnapshotPin_journal sequence fact input w I) as (_ & He & _).
  assert (wp (retainSnapshotPin sequence fact input) (fun r w' => match r with
    | Ok true => pinned (pf_commitSha fact) (input_treeSha input) (st w')
    | _ => True end) w) as Hp.
  { clear He. unfold retainSnapshotPin. destruct (_ || _); [by apply wp_ret|].
    apply wp_bind, wp_get. set (continue := put _ ;! _).
    assert (journal_respects continue) as Hc.
    { subst continue. pose proof advance_current_journal as Ha. unfold journal_respects in *.
      respect; try apply Ha.
      all: split; [done|]; split; [intros ref c Hx; exists c; auto | by intros ? ?]. }
    destruct (snapshotPins (st w) !! pf_commitSha fact) as [pin|] eqn:E.
    - destruct (_ || _) eqn:Em; [by apply wp_ret|]. apply orb_false_iff in Em as [Em _].
      apply negb_false_iff, bool_decide_eq_true in Em. apply wp_journal; [done|].
      intros [[]|e] w' He; [|done..]. eapply pinned_kept; [|exact He]. by exists pin.
    - apply wp_bind, wp_put; [done|]. intros _. apply wp_bind, wp_put; [done|]. intros _.
      apply wp_journal; [done|]. intros [[]|e] w' He; [|done..]. eapply pinned_kept; [|exact He].
      eexists. split; [apply lookup_insert_eq | done]. }
  unfold wp in *. destruct (retainSnapshotPin sequence fact input w) as [[[]|e] w']; simpl in *; auto.
Qed.

(** A projection that reaches its continuation has its commit pinned. *)
Lemma wp_project_pin sequence fact tree t reader k (Q : res ProjectionOutcome -> world -> Prop) w :
  (forall e w', Q (Err e) w') -> (forall w', Q (Ok ProjInvalid) w') ->
  (forall w', Q (Ok ProjLeaseExpired) w') ->
  (forall created w', pf_commitSha fact = zeroOid \/ pinned (pf_commitSha fact) tree (st w') ->
     wp (k created) Q w') ->
  wp (project_pin sequence fact tree t reader k) Q w.
Proof.
  intros Herr Hinv Hexp Hk. unfold project_pin.
  destruct (str_eq (pf_commitSha fact) zeroOid) eqn:Ez.
  { apply bool_decide_eq_true in Ez. apply Hk. by left. }
  destruct (negb _); [by apply wp_ret|]. apply wp_bind, wp_get, wp_bind.
  eapply (wp_conseq _ (fun _ _ => True)); [done|]. intros [admitted|e] w1 _; [|apply Herr].
  destruct admitted; simpl; [|by apply wp_ret]. apply wp_bind, wp_get, wp_bind, wp_retain_pin; [done | |].
  - intros w2. by apply wp_ret.
  - intros w2 _ Hp. simpl. apply Hk. by right.
Qed.

(** The last step of a projection: the pointer. *)
Lemma wp_pointer ref commit sequence t created (Q : res ProjectionOutcome -> world -> Prop) w :
  (forall e w', Q (Err e) w') ->
  (forall moved c w', journal_evolves (st w) (st w') -> snapshotCurrents (st w') !! ref = Some c ->
     sequence <= current_sequence c ->
     (sequence = current_sequence c -> current_commitSha c = commit) ->
     Q (Ok (Projected (mkProjection created moved c))) w') ->
  wp (let! r := advance_current ref commit sequence t in
      ret (Projected (mkProjection created r.1 r.2))) Q w.
Proof.
  intros Herr Hok. apply wp_bind.
  destruct (advance_current_journal ref commit sequence t w I) as (_ & He & _).
  assert (wp (advance_current ref commit sequence t) (fun r w' => match r with
    | Ok (moved, c) => snapshotCurrents (st w') !! ref = Some c /\ sequence <= current_sequence c /\
        (sequence = current_sequence c -> current_commitSha c = commit)
    | Err _ => True end) w) as Hp.
  { apply wp_advance_current; [done | |].
    - intros n next _. simpl. rewrite lookup_insert_eq. split_and!; first [done | lia].
    - intros c n Hc Hle Heq. done. }
  unfold wp in *. destruct (advance_current ref commit sequence t w) as [[[moved c]|e] w']; simpl in *;
    [|apply Herr]. destruct Hp as (? & ? & ?). by apply Hok.
Qed.
End PinLemmas.

(** ** Properties *)

(** Readers of snapshots never go back.  Whatever is asked of the journal, at
    whatever point it fails, the current pointer of a ref stays or moves to a later
    sequence, and a pin once taken keeps its tree and its origin; only a release
    drops a pin, it drops no other one, and never one whose commit a ref still
    names or without leaving the record of the release. *)
Theorem snapshots_never_go_back `{Env} (r : journal_request) (w : world) :
  let s' := st (serve_journal r w).2 in
  pointers_advance (st w) s' /\
  match r with
  | ReleasePin commit _ _ =>
    (forall other, other ≠ commit -> snapshotPins s' !! other = snapshotPins (st w) !! other) /\
    (is_Some (snapshotPins (st w) !! commit) -> snapshotPins s' !! commit = None ->
       truthy (repositoryDeleting (st w)) = false /\
       (forall x, x ∈ default [] (refs (st w)) -> ref_oid x ≠ commit) /\
       is_Some (releasedSnapshots s' !! commit))
  | _ => pins_kept (st w) s'
  end.
Proof.
  cbv zeta. assert (forall (A : Type) (m : DO A), journal_respects m -> journal_respects (m ;! ret tt))
    as Hi.
  { intros A m Hm. eapply respects_bind; preorder; [exact Hm|]. intros a _.
    by apply respects_ret; preorder. }
  destruct r as [q facts t j pin|e c tree t reader|ref c tree q t reader|e|c legacy owned];
    [ | | | |]; unfold serve_journal.
  - apply (Hi _ _ (recordAcceptedWrites_journal q facts t j pin) w I).
  - apply (Hi _ _ (projectEntry_journal e c tree t reader) w I).
  - apply (Hi _ _ (projectHead_journal ref c tree q t reader) w I).
  - apply (Hi _ _ (dropEntry_journal e) w I).
  - change (wp (releaseSnapshotPinState c legacy owned ;! ret tt) (fun _ w' =>
      pointers_advance (st w) (st w') /\
      (forall other, other ≠ c -> snapshotPins (st w') !! other = snapshotPins (st w) !! other) /\
      (is_Some (snapshotPins (st w) !! c) -> snapshotPins (st w') !! c = None ->
         truthy (repositoryDeleting (st w)) = false /\
         (forall x, x ∈ default [] (refs (st w)) -> ref_oid x ≠ c) /\
         is_Some (releasedSnapshots (st w') !! c))) w).
    apply wp_bind, wp_release.
    + intros r n. assert (forall x, (pointers_advance (st w) (st (World (st w) n)) /\ x) <-> x) as Hx
        by (intros x; split; [by intros [_ ?] | split; [reflexivity | done]]).
      destruct r; [apply wp_ret|]; apply Hx; split; try done; intros [p Hp] Hn; simpl in *; congruence.
    + intros r s n E1 E2 Hd Hr Hrel.
      assert (pointers_advance (st w) s) as Hadv.
      { intros rf x Hx. exists x. rewrite E1. auto. }
      destruct r; [apply wp_ret|]; (split; [exact Hadv | split; [|done]]);
        intros other Hne; simpl; by rewrite E2, lookup_delete_ne.
Qed.

(** What a projection leaves for the readers of a ref. *)
Definition served (ref commit tree : string) (sequence : Z) (current : SnapshotCurrent) (s : Storage)
    : Prop :=
  snapshotCurrents s !! ref = Some current /\ sequence <= current_sequence current /\
  (sequence = current_sequence current -> current_commitSha current = commit) /\
  (commit = zeroOid \/ pinned commit tree s).

(** A projection serves what it was asked to, or later.  When the delivery of a
    journal entry or of a reconciled head succeeds, the commit is pinned with the
    given tree (a deletion needs none), and the pointer of the ref stands at that
    commit, or at a later sequence.  An entry is projected only for the commit it
    recorded, a head only for the commit the refs name and the sequence that is
    authoritative for it, and neither once the repository is being deleted. *)
Theorem projection_served `{Env} (w : world) :
  (forall entryId commit tree t reader,
     match projectAcceptedWriteState entryId commit tree t reader w with
     | (Ok (Projected p), w') =>
       truthy (repositoryDeleting (st w)) = false /\
       exists e, acceptedWrites (st w) !! entryId = Some e /\ afterSha (entry_fact e) = commit /\
         served (fact_ref (entry_fact e)) commit tree (entry_sequence e) (proj_current p) (st w')
     | _ => True
     end) /\
  (forall ref commit tree sequence t reader,
     match projectReconciledHeadState ref commit tree sequence t reader w with
     | (Ok (Projected p), w') =>
       truthy (repositoryDeleting (st w)) = false /\
       default zeroOid (oid_of (default [] (refs (st w))) ref) = commit /\
       (default 0 (refsVersion (st w)) = sequence \/
        exists h, acceptedWriteHeads (st w) !! ref = Some h /\ wh_afterSha h = commit /\
          wh_sequence h = sequence) /\
       served ref commit tree sequence (proj_current p) (st w')
     | _ => True
     end).
Proof.
  split.
  - intros entryId commit tree t reader.
    to_wp (projectAcceptedWriteState entryId commit tree t reader) w.
    apply wp_transaction, wp_bind, wp_get. destruct (truthy _) eqn:Ed; [by apply wp_ret|].
    apply wp_bind, wp_get. destruct (acceptedWrites (st w) !! entryId) as [e|] eqn:Ee; [|by apply wp_throw].
    destruct (str_eq (afterSha (entry_fact e)) commit) eqn:Ec; [|by apply wp_throw].
    apply bool_decide_eq_true in Ec. simpl. apply wp_project_pin; try done.
    intros created w1 Hp. simpl in Hp. apply wp_bind. eapply wp_journal.
    { destruct (_ =? 0); apply journal_framed; frames. }
    intros [[]|x] w2 He; [|done]. apply wp_pointer; [done|].
    intros moved c w3 He' Hc Hle Heq. split; [done|]. exists e. split_and!; try done.
    split_and!; try done; [by rewrite <- Ec|]. rewrite Ec in Hp.
    destruct Hp as [|Hp]; [by left | right]. eapply pinned_kept, He'. by eapply pinned_kept.
  - intros ref commit tree sequence t reader.
    to_wp (projectReconciledHeadState ref commit tree sequence t reader) w.
    apply wp_transaction, wp_bind, wp_get. destruct (truthy _) eqn:Ed; [by apply wp_ret|].
    apply wp_bind, wp_get, wp_bind, wp_get, wp_bind, wp_get.
    cbv zeta. wp_step; [by apply wp_ret|]. apply orb_false_iff in Heqb as [E1 E2].
    apply negb_false_iff in E1, E2. apply bool_decide_eq_true in E1.
    apply wp_project_pin; try done. intros created w1 Hp. simpl in Hp.
    apply wp_pointer; [done|]. intros moved c w2 He Hc Hle Heq. split_and!; try done.
    + rewrite E1 in E2. destruct (acceptedWriteHeads (st w) !! ref) as [h|]; [|left; by apply Z.eqb_eq].
      destruct (str_eq (wh_afterSha h) commit) eqn:Eh; [|left; by apply Z.eqb_eq].
      right. exists h. apply bool_decide_eq_true in Eh. split_and!; try done. by apply Z.eqb_eq.
    + split_and!; try done. destruct Hp as [|Hp]; [by left | right]. by eapply pinned_kept.
Qed.
