(* ===== verification/Receive.v ===== *)
(** * Finalizing a receive

    [catalog/receive.ts]: the durable intent (the write-ahead log), the output
    verification, the catalog activation, the compare-and-swap of the refs, the
    stored outcome, and the recovery from an alarm or a retry. *)
From S2P Require Import Prelude Storage Effects Text Keys RefUpdate Catalog Activity Scheduler.
From S2P Require Import Lifecycle Gc GcOperations AcceptedWrites.

(** ** Definitions *)

(** *** Verification of the staged output *)

Record Verification := mkVerification {
  ver_bytes : Z;
  ver_requests : Z;
  ver_etags : option OutputEtags }.

Record Artifact := mkArtifact {
  art_role : string;
  art_key : string;
  art_bytes : Z;
  art_sha256 : string;
  art_expectedEtag : option string }.

Definition MAX_VERIFIED_BYTES : Z := 32 * 1024 * 1024.

(** The three artifacts of a staged pack. *)
Definition artifacts_of (p : StagedPack) (i : StagedIntegrity) : list Artifact :=
  [mkArtifact "pack" (staged_packKey p) (staged_packBytes p) (packSha256 i) (packEtag i);
   mkArtifact "index" (packIndexKey (staged_packKey p)) (staged_idxBytes p) (idxSha256 i) (idxEtag i);
   mkArtifact "references" (packRefsKey (staged_packKey p)) (refsBytes i) (refsSha256 i) (refsEtag i)].

(** The read loop over the body: the bytes read, or [None] when a chunk exceeds
    what the declared size leaves. *)
Fixpoint read_body (declared readBytes : Z) (chunks : list (list Z)) : option Z :=
  match chunks with
  | [] => Some readBytes
  | c :: r =>
    let n := Z.of_nat (length c) in
    if declared - readBytes <? n then None else read_body declared (readBytes + n) r
  end.

Definition object_matches (a : Artifact) (o : R2Object) : bool :=
  (r2_size o =? art_bytes a) && ostr_eq (r2_sha256 o) (Some (art_sha256 a)) &&
  match art_expectedEtag a with
  | Some e => str_eq (r2_etag o) e
  | None => true
  end.

(** [JSON.stringify] equality is equality of the modelled records. *)
Definition same_commands (a b : list ReceiveCommand) : bool := bool_decide (a = b).
Definition same_context (a b : option AcceptedWriteContext) : bool := bool_decide (a = b).

Definition strip_etags (i : StagedIntegrity) : StagedIntegrity :=
  mkIntegrity (packSha256 i) (idxSha256 i) (refsSha256 i) (refsBytes i) None None None.

Definition stagedPackMatchesRequest (durable requested : option StagedPack) : bool :=
  match durable, requested with
  | Some d, Some r =>
    str_eq (staged_packKey d) (staged_packKey r) && (staged_packBytes d =? staged_packBytes r) &&
    (staged_idxBytes d =? staged_idxBytes r) && (staged_objectCount d =? staged_objectCount r) &&
    bool_decide (strip_etags <$> staged_integrity d = staged_integrity r)
  | None, None => true
  | _, _ => false
  end.

(** The staged pack of the intent: the etags read are recorded. *)
Definition with_etags (p : StagedPack) (etags : option OutputEtags) : StagedPack :=
  match staged_integrity p, etags with
  | Some i, Some e =>
    mkStaged (staged_packKey p) (staged_packBytes p) (staged_idxBytes p) (staged_objectCount p)
      (Some (mkIntegrity (packSha256 i) (idxSha256 i) (refsSha256 i) (refsBytes i)
               (Some (etag_pack e)) (Some (etag_idx e)) (Some (etag_refs e))))
  | _, _ => p
  end.

Definition resolveHeadAfterReceive (storedHead : option Head) (rs : list Ref) : Head :=
  resolved_head storedHead rs.

(** *** Facts and contexts *)

Definition context_of (fact : AcceptedWriteFact) : AcceptedWriteContext :=
  mkWriteContext (fact_repositoryId fact) (fact_actor fact) (fact_sourceSurface fact)
    (fact_idempotencyKey fact).

(** [acceptedWriteContextForFacts]; [None] is its exception. *)
Definition acceptedWriteContextForFacts (facts : option (list AcceptedWriteFact))
    : option (option AcceptedWriteContext) :=
  match facts with
  | Some (first :: rest) =>
    if js_every (fun fact => bool_decide (context_of fact = context_of first)) (first :: rest)
    then Some (Some (context_of first)) else None
  | _ => Some None
  end.

Definition acceptedWriteFactsForIntent (intent : ReceiveFinalizeIntent)
    : option (list AcceptedWriteFact) :=
  (fun context => acceptedWriteFactsForCommands context (intent_commands intent))
    <$> intent_acceptedWriteContext intent.

(** *** Bounded indexes *)

Definition MAX_INGESTION_RECEIPTS : nat := 128.
Definition MAX_RECEIVE_OUTCOMES : nat := 128.

(** The index with [key] moved to its end, split into the evicted prefix and
    the [limit] newest keys. *)
Definition push_bounded (limit : nat) (key : string) (index : list string)
    : list string * list string :=
  let next := js_push (js_filter (fun k => negb (str_eq k key)) index) key in
  let evicted := (length next - limit)%nat in
  (take evicted next, drop evicted next).

(** *** Results *)

Record Committed := mkCommitted {
  com_statuses : list ReceiveStatus;
  com_changed : bool;
  com_empty : bool;
  com_shouldQueueCompaction : bool;
  com_outputValidationBytes : Z;
  com_outputValidationRequests : Z;
  com_outputEtags : option OutputEtags;
  com_refPublication : option ReceiveRefPublication }.

Inductive FinalizeReceiveResult :=
  | FinCommitted (c : Committed)
  | FinRefConflict (statuses : list ReceiveStatus)
  | FinLeaseMismatch.

Inductive ReconcileReceiveResult :=
  | RecCommitted (c : Committed)
  | RecAborted
  | RecUnknown.

Definition committed_of (o : ReceiveCommitOutcome) : Committed :=
  mkCommitted (outcome_statuses o) (outcome_changed o) (outcome_empty o)
    (outcome_shouldQueueCompaction o) (default 0 (outcome_outputValidationBytes o))
    (default 0 (outcome_outputValidationRequests o)) (outcome_outputEtags o)
    (outcome_refPublication o).

Record FinalizeArgs := mkFinalize {
  fin_token : string;
  fin_commands : list ReceiveCommand;
  fin_stagedPack : option StagedPack;
  fin_ingestionReceipt : option IngestionReceipt;
  fin_acceptedWrites : option (list AcceptedWriteFact);
  fin_milestones : bool;                           (* an [onMilestone] callback is given *)
  fin_inspect : nat -> option RetentionReason }.   (* conclusion of the GC metadata reads *)

Definition all_ok (commands : list ReceiveCommand) : list ReceiveStatus := accept <$> commands.

Section Receive.
Context `{Env}.

Definition milestone (a : FinalizeArgs) : DO unit :=
  if fin_milestones a then external (fun _ => tt) else ret tt.

(** One turn of the verification loop: the bytes and the etag read. *)
Definition verify_artifact (a : Artifact) : DO (Z * string) :=
  if (art_bytes a <=? 0) || (MAX_VERIFIED_BYTES <? art_bytes a)
  then throw "receive output exceeds integrity verification bound" else
  let! object := r2_get (art_key a) in
  match object with
  | None => throw "receive output integrity mismatch"
  | Some o =>
    if negb (object_matches a o) then throw "receive output integrity mismatch" else
    let! body := external (fun _ => r2_chunks o) in
    match read_body (art_bytes a) 0 body with
    | None => throw "receive output exceeded declared size"
    | Some readBytes =>
      if negb (readBytes =? art_bytes a) then throw "receive output was truncated" else
      if negb (str_eq (env_sha256_hex (List.concat body)) (art_sha256 a))
      then throw "receive output digest mismatch"
      else ret (readBytes, r2_etag o)
    end
  end.

Fixpoint verify_artifacts (l : list Artifact) : DO (Z * list string) :=
  match l with
  | [] => ret (0, [])
  | a :: r =>
    let! x := verify_artifact a in
    let! rest := verify_artifacts r in
    ret (x.1 + rest.1, x.2 :: rest.2)
  end.

Definition verifyReceiveOutputIntegrity (stagedPack : option StagedPack) : DO Verification :=
  match stagedPack with
  | Some p =>
    match staged_integrity p with
    | Some i =>
      let! r := verify_artifacts (artifacts_of p i) in
      ret (mkVerification r.1 3
             (match r.2 with
              | [pack; idx; rf] => Some (mkEtags pack idx rf)
              | _ => None
              end))
    | None => ret (mkVerification 0 0 None)
    end
  | None => ret (mkVerification 0 0 None)
  end.

Definition storeReceiveOutcome (o : ReceiveCommitOutcome) : DO unit :=
  transaction (
    put (fun s => set_receiveOutcomes (<[outcome_token o := o]> (receiveOutcomes s)) s) ;!
    let! index := get (fun s => default [] (receiveOutcomeIndex s)) in
    let split := push_bounded MAX_RECEIVE_OUTCOMES (outcome_token o) index in
    for_each split.1 (fun removed =>
      if str_eq removed "" then ret tt
      else put (fun s => set_receiveOutcomes (delete removed (receiveOutcomes s)) s)) ;!
    put (set_receiveOutcomeIndex (Some split.2))).

Definition storeIngestionReceipt (r : IngestionReceipt) : DO unit :=
  transaction (
    let! existing := get (fun s => ingestionReceipts s !! keyHash r) in
    if (match existing with Some e => negb (str_eq (fingerprint e) (fingerprint r)) | None => false end)
    then throw "ingestion receipt fingerprint conflict" else
    put (fun s => set_ingestionReceipts
           (<[keyHash r := default r existing]> (ingestionReceipts s)) s) ;!
    let! index := get (fun s => default [] (ingestionReceiptIndex s)) in
    let split := push_bounded MAX_INGESTION_RECEIPTS (keyHash r) index in
    for_each split.1 (fun removed =>
      if str_eq removed "" then ret tt
      else put (fun s => set_ingestionReceipts (delete removed (ingestionReceipts s)) s)) ;!
    put (set_ingestionReceiptIndex (Some split.2))).

Definition store_receipt (r : option IngestionReceipt) : DO unit :=
  match r with Some r => storeIngestionReceipt r | None => ret tt end.

Definition clearMatchingReceiveLease (token : string) : DO unit :=
  let! lease := get receiveLease in
  match lease with
  | Some l => if str_eq (lease_token l) token then put (set_receiveLease None) else ret tt
  | None => ret tt
  end.

Definition holdReceiveCompletionFence (token : string) (allowRecovery : bool) : DO bool :=
  transaction (
    let! deleting := get repositoryDeleting in
    if truthy deleting then ret false else
    let! now := Date_now in
    let! lease := get receiveLease in
    let own := match lease with Some l => str_eq (lease_token l) token | None => false end in
    let live := match lease with Some l => now <? lease_expiresAt l | None => false end in
    if negb own && live then ret false else
    if own && negb live && negb allowRecovery then ret false else
    if negb own && negb allowRecovery then ret false else
    put (set_receiveLease (Some (mkLease token
           (if own then default now (lease_createdAt <$> lease) else now)
           (now + RECEIVE_LEASE_TTL_MS) None))) ;!
    ret true).

Definition getIngestionReceiptState (key : string) : DO (option IngestionReceipt) :=
  get (fun s => ingestionReceipts s !! key).

Definition queue_compaction (wanted : bool) : DO unit :=
  if wanted then
    let! now := Date_now in
    markCompactionActivity now ;! scheduleCompactionWake
  else ret tt.

(** *** The first attempt: checks and the durable intent *)

Definition invalid_ref_statuses (commands : list ReceiveCommand) : list ReceiveStatus :=
  (fun c => reject c "invalid") <$> js_filter (fun c => negb (isValidRefName (cmd_ref c))) commands.

(** The transaction that persists the intent and arms the recovery alarm. *)
Definition persist_intent (intent : ReceiveFinalizeIntent) (proof : option GcReceiveProtection)
    : DO unit :=
  transaction (
    retainGcReceiveProtection (intent_token intent) proof ;!
    put (fun s => set_receiveFinalizeIntents
           (<[intent_token intent := intent]> (receiveFinalizeIntents s)) s) ;!
    let! now := Date_now in
    armWake (now + 1000)).

(** The construction of the intent, after all checks have passed. *)
Definition build_intent (a : FinalizeArgs) (currentRefs : list Ref)
    : DO (ReceiveFinalizeIntent * Verification) :=
  let nextRefs := applyReceiveCommands currentRefs (fin_commands a) in
  let! rv := get (fun s => orZ (refsVersion s) 0) in
  let! v := verifyReceiveOutputIntegrity (fin_stagedPack a) in
  milestone a ;!
  let! storedHead := get head in
  let! seq := get (fun s => orZ (nextPackSeq s) 1) in
  let! pv := get (fun s => orZ (packsetVersion s) 0) in
  match acceptedWriteContextForFacts (fin_acceptedWrites a) with
  | None => throw "accepted-write facts do not share one receive context"
  | Some context =>
    let! createdAt := Date_now in
    let intent := mkIntent (fin_token a) None (fin_commands a) rv
      (resolveHeadAfterReceive storedHead nextRefs) (rv + 1)
      ((fun p => with_etags p (ver_etags v)) <$> fin_stagedPack a)
      (match fin_stagedPack a with Some _ => Some seq | None => None end)
      (match fin_stagedPack a with Some _ => Some (pv + 1) | None => None end)
      (fin_ingestionReceipt a) context None None createdAt in
    let! proof := prepareGcReceiveProtection (fin_inspect a) rv (newOid <$> fin_commands a)
                    (bool_decide (is_Some (fin_stagedPack a))) in
    persist_intent intent proof ;!
    milestone a ;!
    ret (intent, v)
  end.

(** The first attempt: an early result, or the intent with its verification. *)
Definition begin_intent (a : FinalizeArgs)
    : DO (FinalizeReceiveResult + (ReceiveFinalizeIntent * Verification)) :=
  let! lease := get receiveLease in
  let! now := Date_now in
  if negb (match lease with
           | Some l => str_eq (lease_token l) (fin_token a) && (now <? lease_expiresAt l)
           | None => false end)
  then clearMatchingReceiveLease (fin_token a) ;! ret (inl FinLeaseMismatch) else
  let! currentRefs := get (fun s => default [] (refs s)) in
  let invalid := invalid_ref_statuses (fin_commands a) in
  if (0 <? length invalid)%nat
  then put (set_receiveLease None) ;! ret (inl (FinRefConflict invalid)) else
  let statuses := validateReceiveCommands currentRefs (fin_commands a) in
  if negb (js_every status_ok statuses)
  then put (set_receiveLease None) ;! ret (inl (FinRefConflict statuses)) else
  if (match fin_acceptedWrites a with
      | Some facts => negb (acceptedWritesMatchCommands (fin_commands a) facts)
      | None => false end)
  then throw "accepted-write facts do not match receive commands" else
  let! r := build_intent a currentRefs in
  ret (inr r).

(** A retry of a persisted intent. *)
Definition retry_intent (a : FinalizeArgs) (intent : ReceiveFinalizeIntent)
    : DO (FinalizeReceiveResult + (ReceiveFinalizeIntent * Verification)) :=
  match acceptedWriteContextForFacts (fin_acceptedWrites a) with
  | None => throw "accepted-write facts do not share one receive context"
  | Some context =>
    if negb (same_commands (intent_commands intent) (fin_commands a)) ||
       negb (stagedPackMatchesRequest (intent_stagedPack intent) (fin_stagedPack a)) ||
       negb (same_context (intent_acceptedWriteContext intent) context)
    then throw "FUBAR: receive finalize retry does not match durable intent" else
    let! v := verifyReceiveOutputIntegrity (intent_stagedPack intent) in
    milestone a ;!
    milestone a ;!
    ret (inr (intent, v))
  end.

(** *** Catalog activation *)

Definition pack_row_mismatch (row : PackCatalogRow) (p : StagedPack) (seq : option Z) : bool :=
  negb (packBytes row =? staged_packBytes p) || negb (idxBytes row =? staged_idxBytes p) ||
  negb (objectCount row =? staged_objectCount p) ||
  negb (bool_decide (seq = Some (seqLo row))) || negb (bool_decide (seq = Some (seqHi row))).

Definition receive_row (p : StagedPack) (seq now : Z) : PackCatalogRow :=
  mkRow (staged_packKey p) KindReceive PackActive 0 seq seq (staged_objectCount p)
    (staged_packBytes p) (staged_idxBytes p) now None.

Definition activate_pack (intent : ReceiveFinalizeIntent) : DO bool :=
  match intent_stagedPack intent with
  | None => ret false
  | Some p =>
    let! activeCatalog := listActivePackCatalog in
    let existing := js_find (fun row => str_eq (packKey row) (staged_packKey p)) activeCatalog in
    if (match existing with
        | Some row => pack_row_mismatch row p (packSequence intent)
        | None => false end)
    then throw "FUBAR: active receive pack metadata does not match finalize intent" else
    match packSequence intent, nextPacksetVersion intent with
    | Some seq, Some npv =>
      (match existing with
       | Some _ => ret tt
       | None => let! now := Date_now in upsertPackCatalogRow (receive_row p seq now)
       end) ;!
      let! activeCatalog := listActivePackCatalog in
      let! currentSeq := get (fun s => orZ (nextPackSeq s) 1) in
      (if currentSeq <=? seq then put (set_nextPackSeq (Some (seq + 1))) else ret tt) ;!
      let! currentPv := get (fun s => orZ (packsetVersion s) 0) in
      (if currentPv <? npv then put (set_packsetVersion (Some npv)) else ret tt) ;!
      ret (catalogNeedsCompaction activeCatalog)
    | _, _ => throw "FUBAR: receive finalize intent is missing pack sequence state"
    end
  end.
End Receive.

Section Finalize.
Context `{Env}.

(** *** The compare-and-swap of the refs *)

Definition snapshot_input (intent : ReceiveFinalizeIntent) : option SnapshotPinInput :=
  (fun r => mkPinInput (afterSha (receipt_acceptedWrite r)) (receipt_treeSha r)
              (intent_createdAt intent) (negb env_snapshotEventProbe) env_qualificationMode)
    <$> intent_ingestionReceipt intent.

(** What the compare-and-swap decides: the refs to store and whether this is
    the first application ([true]) or a replay; [None] is its exception. *)
Definition cas_refs (intent : ReceiveFinalizeIntent) (currentRefs : list Ref) (currentVersion : Z)
    : option (list Ref * bool) :=
  let applied := applyReceiveCommands currentRefs (intent_commands intent) in
  if currentVersion =? expectedRefsVersion intent then Some (applied, true)
  else if (currentVersion =? nextRefsVersion intent) && bool_decide (applied = currentRefs)
  then Some (currentRefs, false)
  else None.

Definition with_publication (intent : ReceiveFinalizeIntent) (p : ReceiveRefPublication)
    : ReceiveFinalizeIntent :=
  mkIntent (intent_token intent) (Some p) (intent_commands intent) (expectedRefsVersion intent)
    (nextHead intent) (nextRefsVersion intent) (intent_stagedPack intent) (packSequence intent)
    (nextPacksetVersion intent) (intent_ingestionReceipt intent)
    (intent_acceptedWriteContext intent) (recoveryAttempts intent) (recoveryEscalated intent)
    (intent_createdAt intent).

(** The transaction: refs, head, version, publication time, accepted writes
    and the versions a collection accounts for. *)
Definition commit_refs (intent : ReceiveFinalizeIntent)
    : DO (list Ref * option ReceiveRefPublication * bool) :=
  transaction (
    let! currentRefs := get (fun s => default [] (refs s)) in
    let! currentVersion := get (fun s => orZ (refsVersion s) 0) in
    match cas_refs intent currentRefs currentVersion with
    | None => throw "FUBAR: receive refs diverged from durable finalize intent"
    | Some (committedRefs, first) =>
      let! now := Date_now in
      let publication :=
        match intent_refPublication intent with
        | Some p => Some p
        | None => if first : bool then Some (mkRefPublication now (nextRefsVersion intent)) else None
        end in
      put (set_refs (Some committedRefs)) ;!
      put (set_head (Some (nextHead intent))) ;!
      put (set_refsVersion (Some (nextRefsVersion intent))) ;!
      (match publication with
       | Some p => put (fun s => set_receiveFinalizeIntents
           (<[intent_token intent := with_publication intent p]> (receiveFinalizeIntents s)) s)
       | None => ret tt
       end) ;!
      let! expectedPins := get (fun s => default 0 (snapshotPinVersion s)) in
      let! retained := (match acceptedWriteFactsForIntent intent with
                        | Some facts =>
                          recordAcceptedWrites (nextRefsVersion intent) facts
                            (intent_createdAt intent) env_snapshotEventProbe (snapshot_input intent)
                        | None => ret true
                        end) in
      let! nextPins := get (fun s => default 0 (snapshotPinVersion s)) in
      advanceGcReceiveVersions (expectedRefsVersion intent) (nextRefsVersion intent)
        (nextPacksetVersion intent) expectedPins nextPins ;!
      ret (committedRefs, publication, retained)
    end).

(** The bookkeeping after the compare-and-swap. *)
Definition finish_receive (a : FinalizeArgs) (intent : ReceiveFinalizeIntent) (v : Verification)
    (shouldQueueCompaction : bool) (committedRefs : list Ref)
    (publication : option ReceiveRefPublication) : DO FinalizeReceiveResult :=
  let outcome := mkOutcome (fin_token a) (all_ok (intent_commands intent))
    (0 <? length (intent_commands intent))%nat (length committedRefs =? 0)%nat
    shouldQueueCompaction (Some (ver_bytes v)) (Some (ver_requests v)) (ver_etags v) publication in
  storeReceiveOutcome outcome ;!
  store_receipt (intent_ingestionReceipt intent) ;!
  queue_compaction shouldQueueCompaction ;!
  put (fun s => set_receiveFinalizeIntents (delete (fin_token a) (receiveFinalizeIntents s)) s) ;!
  put (set_receiveLease None) ;!
  ret (FinCommitted (committed_of outcome)).

(** A receive whose outcome is already stored. *)
Definition replay_outcome (a : FinalizeArgs) (o : ReceiveCommitOutcome) : DO FinalizeReceiveResult :=
  milestone a ;! milestone a ;! milestone a ;!
  storeReceiveOutcome o ;!
  store_receipt (fin_ingestionReceipt a) ;!
  queue_compaction (outcome_shouldQueueCompaction o) ;!
  put (fun s => set_receiveFinalizeIntents (delete (fin_token a) (receiveFinalizeIntents s)) s) ;!
  clearMatchingReceiveLease (fin_token a) ;!
  ret (FinCommitted (committed_of o)).

(** From a persisted intent to the committed result. *)
Definition complete_intent (a : FinalizeArgs) (intent : ReceiveFinalizeIntent) (v : Verification)
    : DO FinalizeReceiveResult :=
  let! shouldQueueCompaction := activate_pack intent in
  let! r := commit_refs intent in
  milestone a ;!
  finish_receive a intent v shouldQueueCompaction r.1.1 r.1.2.

Definition finalizeReceiveState (a : FinalizeArgs) : DO FinalizeReceiveResult :=
  let! intent := get (fun s => receiveFinalizeIntents s !! fin_token a) in
  let! priorOutcome := get (fun s => receiveOutcomes s !! fin_token a) in
  let! held := holdReceiveCompletionFence (fin_token a)
    (bool_decide (is_Some intent) || bool_decide (is_Some priorOutcome)) in
  if negb held then ret FinLeaseMismatch else
  ensureRepoMetadataDefaults ;!
  match priorOutcome with
  | Some o => replay_outcome a o
  | None =>
    let! started := (match intent with
                     | None => begin_intent a
                     | Some i => retry_intent a i
                     end) in
    match started with
    | inl result => ret result
    | inr (i, v) => complete_intent a i v
    end
  end.

(** The arguments a recovery takes from the durable intent. *)
Definition args_of_intent (i : ReceiveFinalizeIntent) (inspect : nat -> option RetentionReason)
    : FinalizeArgs :=
  mkFinalize (intent_token i) (intent_commands i) (intent_stagedPack i)
    (intent_ingestionReceipt i) (acceptedWriteFactsForIntent i) false inspect.

(** *** Reconciliation after a lost response *)

(** The refs already hold what the commands ask for. *)
Definition refs_match (rs : list Ref) (commands : list ReceiveCommand) : bool :=
  js_every (fun c => match oid_of rs (cmd_ref c) with
                     | None => ZERO_OID_RE (newOid c)
                     | Some o => negb (ZERO_OID_RE (newOid c)) && str_eq o (newOid c)
                     end) commands.

Definition reconcile_by_state (token : string) (commands : list ReceiveCommand)
    (stagedPackKey : option string) (receipt : option IngestionReceipt) : DO ReconcileReceiveResult :=
  let! lease := get receiveLease in
  if negb (match lease with Some l => str_eq (lease_token l) token | None => false end)
  then ret RecUnknown else
  let! rs := get (fun s => default [] (refs s)) in
  let! activeCatalog := listActivePackCatalog in
  let staged := truthy_string stagedPackKey in
  let packActive := if staged then js_some (fun row => ostr_eq (Some (packKey row)) stagedPackKey) activeCatalog
                    else true in
  if refs_match rs commands && packActive then
    let outcome := mkOutcome token (all_ok commands) (0 <? length commands)%nat
      (length rs =? 0)%nat (catalogNeedsCompaction activeCatalog) (Some 0) (Some 0) None None in
    storeReceiveOutcome outcome ;!
    store_receipt receipt ;!
    put (set_receiveLease None) ;!
    ret (RecCommitted (committed_of outcome))
  else if staged && packActive then ret RecUnknown
  else put (set_receiveLease None) ;! ret RecAborted.

Definition reconcileReceiveState (token : string) (commands : list ReceiveCommand)
    (stagedPackKey : option string) (receipt : option IngestionReceipt)
    (inspect : nat -> option RetentionReason) : DO ReconcileReceiveResult :=
  let! outcome := get (fun s => receiveOutcomes s !! token) in
  let! intent := get (fun s => receiveFinalizeIntents s !! token) in
  let! held := holdReceiveCompletionFence token
    (bool_decide (is_Some intent) || bool_decide (is_Some outcome)) in
  if negb held then ret RecUnknown else
  match outcome, intent with
  | Some o, _ =>
    storeReceiveOutcome o ;!
    store_receipt receipt ;!
    queue_compaction (outcome_shouldQueueCompaction o) ;!
    clearMatchingReceiveLease token ;!
    ret (RecCommitted (mkCommitted (outcome_statuses o) (outcome_changed o) (outcome_empty o)
           (outcome_shouldQueueCompaction o) (default 0 (outcome_outputValidationBytes o))
           (default 0 (outcome_outputValidationRequests o)) (outcome_outputEtags o) None))
  | None, Some i =>
    let! finalized := finalizeReceiveState (args_of_intent i inspect) in
    ret (match finalized with
         | FinCommitted c => RecCommitted c
         | FinRefConflict _ => RecAborted
         | FinLeaseMismatch => RecUnknown
         end)
  | None, None => reconcile_by_state token commands stagedPackKey receipt
  end.

(** *** Recovery from an alarm *)

Definition with_recovery (i : ReceiveFinalizeIntent) (attempts : Z) (escalated : option bool)
    : ReceiveFinalizeIntent :=
  mkIntent (intent_token i) (intent_refPublication i) (intent_commands i) (expectedRefsVersion i)
    (nextHead i) (nextRefsVersion i) (intent_stagedPack i) (packSequence i) (nextPacksetVersion i)
    (intent_ingestionReceipt i) (intent_acceptedWriteContext i) (Some attempts) escalated
    (intent_createdAt i).

(** The [catch] of the recovery: count the attempt and plan the next one. *)
Definition note_failed_recovery (token : string) : DO unit :=
  let! recovery := transaction (
    let! current := get (fun s => receiveFinalizeIntents s !! token) in
    match current with
    | None => ret None
    | Some i =>
      let attempts := default 0 (recoveryAttempts i) + 1 in
      let escalate := (RECOVERY_ESCALATION_ATTEMPTS <=? attempts) &&
                      negb (truthy (recoveryEscalated i)) in
      put (fun s => set_receiveFinalizeIntents
        (<[token := with_recovery i attempts (Some (truthy (recoveryEscalated i) || escalate))]>
           (receiveFinalizeIntents s)) s) ;!
      ret (Some attempts)
    end) in
  match recovery with
  | None => ret tt
  | Some attempts =>
    let! now := Date_now in
    let! now2 := Date_now in
    scheduleAlarmIfSooner (now + recoveryRetryDelayMs attempts) now2 ;! ret tt
  end.

Definition resumeReceiveFinalizeFromAlarm (inspect : nat -> option RetentionReason) : DO bool :=
  let! lease := get receiveLease in
  match lease with
  | None => ret false
  | Some l =>
    let! intent := get (fun s => receiveFinalizeIntents s !! lease_token l) in
    match intent with
    | None => ret false
    | Some i =>
      try_catch (finalizeReceiveState (args_of_intent i inspect) ;! ret tt)
        (fun _ => note_failed_recovery (intent_token i)) ;!
      ret true
    end
  end.
End Finalize.

(** ** Lemmas *)

Lemma push_bounded_spec limit key index :
  (0 < limit)%nat ->
  let r := push_bounded limit key index in
  (length r.2 <= limit)%nat /\ (key ∉ r.1) /\ last r.2 = Some key /\
  (NoDup index -> NoDup (r.1 ++ r.2)).
Proof.
  intros Hl. unfold push_bounded, js_push. cbv zeta. simpl.
  set (kept := js_filter (fun k => negb (str_eq k key)) index).
  assert (key ∉ kept) as Hk.
  { intros [_ Hn]%elem_of_js_filter. unfold str_eq in Hn. by rewrite bool_decide_true in Hn. }
  assert (length (kept ++ [key]) - limit <= length kept)%nat as Hle
    by (rewrite length_app; simpl; lia).
  split_and!.
  - rewrite length_drop, length_app. simpl. lia.
  - rewrite take_app_le by done. intros Hin%elem_of_take_in. done.
  - rewrite drop_app_le by done. apply last_snoc.
  - intros Hnd. rewrite take_drop. apply NoDup_app. split_and!.
    + by apply NoDup_js_filter.
    + intros x Hx ->%list_elem_of_singleton. done.
    + apply NoDup_singleton.
Qed.

Section ReceiveLemmas.
Context `{Env}.

(** What a successful compare-and-swap establishes; on failure the storage is
    the one before. *)
Record cas_committed (intent : ReceiveFinalizeIntent) (s : Storage) (rs : list Ref) (s' : Storage)
    : Prop := {
  cc_refs : refs s' = Some rs;
  cc_version : refsVersion s' = Some (nextRefsVersion intent);
  cc_head : head s' = Some (nextHead intent);
  cc_catalog : pack_catalog s' = pack_catalog s;
  cc_choice : exists first,
    cas_refs intent (default [] (refs s)) (orZ (refsVersion s) 0) = Some (rs, first) }.

Lemma advance_versions_authority e n p s1 s2 :
  framed (fun s => (refs s, refsVersion s, head s, pack_catalog s))
    (advanceGcReceiveVersions e n p s1 s2).
Proof. unfold advanceGcReceiveVersions. frames. Qed.

Lemma wp_commit_refs intent (Q : res (list Ref * option ReceiveRefPublication * bool) -> world -> Prop) w :
  (forall e n, Q (Err e) (World (st w) n)) ->
  (forall rs p k s n, cas_committed intent (st w) rs s -> Q (Ok (rs, p, k)) (World s n)) ->
  wp (commit_refs intent) Q w.
Proof.
  intros Herr Hok. unfold commit_refs.
  apply wp_transaction, wp_bind, wp_get, wp_bind, wp_get.
  destruct (cas_refs _ _ _) as [[rs first]|] eqn:Ecas; [|apply wp_throw, Herr].
  apply wp_bind, wp_now, wp_bind, wp_put; [intros; apply Herr|intros _].
  apply wp_bind, wp_put; [intros; apply Herr|intros _].
  apply wp_bind, wp_put; [intros; apply Herr|intros _].
  apply wp_bind. eapply wp_framed with
    (f := fun s => (refs s, refsVersion s, head s, pack_catalog s)).
  { frames. }
  intros [[]|e] w1 E1; [|apply Herr]. apply wp_bind, wp_get, wp_bind.
  eapply wp_framed with (f := authority).
  { destruct (acceptedWriteFactsForIntent intent); frames. }
  intros [kept|e] w2 E2; [|apply Herr]. apply wp_bind, wp_get, wp_bind.
  eapply wp_framed; [apply advance_versions_authority|].
  intros [[]|e] w3 E3; [|apply Herr]. apply wp_ret. destruct w3 as [s3 n3]. simpl in *.
  apply Hok. unfold authority in E2. split; [congruence.. | by exists first].
Qed.
End ReceiveLemmas.

Section Replay.
Context `{Env}.

(** A second compare-and-swap on the refs and the version of the first one
    finds them already applied. *)
Lemma cas_replay intent rs0 v0 rs first :
  NoDup (cmd_ref <$> intent_commands intent) ->
  cas_refs intent rs0 v0 = Some (rs, first) ->
  exists first', cas_refs intent rs (nextRefsVersion intent) = Some (rs, first').
Proof.
  unfold cas_refs. intros Hnd Hcas.
  assert (applyReceiveCommands rs (intent_commands intent) = rs) as Happ.
  { destruct (v0 =? expectedRefsVersion intent).
    - injection Hcas as <- _. by apply reapply_commands.
    - destruct (_ && _) eqn:E; [|done]. injection Hcas as <- _. by to_prop. }
  rewrite Happ, Z.eqb_refl, bool_decide_true by done.
  destruct (nextRefsVersion intent =? expectedRefsVersion intent); simpl; eauto.
Qed.

Definition fault_free : Prop := forall n, env_fault n = None.

Lemma wp_put_ok f (Q : res unit -> world -> Prop) w :
  fault_free -> Q (Ok tt) (World (f (st w)) (S (tick w))) -> wp (put f) Q w.
Proof. intros Hf HQ. apply wp_put; [|done]. intros e He. by rewrite Hf in He. Qed.

(** Without accepted-write facts and without a collection, a replay cannot
    fail. *)
Lemma wp_commit_refs_ok intent rs first (Q : res (list Ref * option ReceiveRefPublication * bool) -> world -> Prop) w :
  fault_free -> intent_acceptedWriteContext intent = None -> gcOperation (st w) = None ->
  cas_refs intent (default [] (refs (st w))) (orZ (refsVersion (st w)) 0) = Some (rs, first) ->
  (forall p s n, refs s = Some rs -> refsVersion s = Some (nextRefsVersion intent) ->
     head s = Some (nextHead intent) -> gcOperation s = None ->
     receiveOutcomes s = receiveOutcomes (st w) -> receiveLease s = receiveLease (st w) ->
     pack_catalog s = pack_catalog (st w) ->
     Q (Ok (rs, p, true)) (World s n)) ->
  wp (commit_refs intent) Q w.
Proof.
  intros Hf Hctx Hgc Hcas HQ. unfold commit_refs, acceptedWriteFactsForIntent.
  apply wp_transaction, wp_bind, wp_get, wp_bind, wp_get. rewrite Hcas, Hctx.
  apply wp_bind, wp_now, wp_bind, wp_put_ok, wp_bind, wp_put_ok, wp_bind, wp_put_ok, wp_bind; try done.
  destruct (match intent_refPublication intent with Some p => Some p | None => _ end) as [p|].
  - apply wp_put_ok; [done|]. cbn. unfold advanceGcReceiveVersions. wp_run.
    all: simpl in *; try congruence. apply HQ; done.
  - apply wp_ret. cbn. unfold advanceGcReceiveVersions. wp_run.
    all: simpl in *; try congruence. apply HQ; done.
Qed.
End Replay.

Section Recovery.
Context `{Env}.

(** A durable intent whose staged pack was verified carries etags, and the
    comparison strips them from one side only. *)
Lemma verified_pack_never_matches p i e :
  staged_integrity p = Some i -> packEtag i = Some e ->
  stagedPackMatchesRequest (Some p) (Some p) = false.
Proof.
  intros Hi He. unfold stagedPackMatchesRequest. rewrite Hi. simpl.
  rewrite (bool_decide_false (Some (strip_etags i) = Some i)); [by rewrite andb_false_r|].
  intros Heq. injection Heq as Heq. apply (f_equal packEtag) in Heq. simpl in Heq. congruence.
Qed.

Definition durable_part (s : Storage) :=
  (refs s, head s, receiveFinalizeIntents s, receiveOutcomes s, pack_catalog s).

Lemma holdFence_durable token allow : framed durable_part (holdReceiveCompletionFence token allow).
Proof. unfold holdReceiveCompletionFence. frames. Qed.

Lemma ensureDefaults_durable : framed durable_part ensureRepoMetadataDefaults.
Proof. unfold ensureRepoMetadataDefaults. frames. Qed.

Lemma wp_refused_recovery i p g e inspect (Q : res FinalizeReceiveResult -> world -> Prop) w :
  intent_stagedPack i = Some p -> staged_integrity p = Some g -> packEtag g = Some e ->
  receiveFinalizeIntents (st w) !! intent_token i = Some i ->
  receiveOutcomes (st w) !! intent_token i = None ->
  (forall r w', durable_part (st w') = durable_part (st w) ->
     (forall c, r <> Ok (FinCommitted c)) -> Q r w') ->
  wp (finalizeReceiveState (args_of_intent i inspect)) Q w.
Proof.
  intros Hp Hg He Hi Ho HQ. unfold finalizeReceiveState. cbn [fin_token args_of_intent].
  apply wp_bind, wp_get. rewrite Hi. apply wp_bind, wp_get. rewrite Ho.
  apply wp_bind. eapply wp_framed; [apply holdFence_durable|].
  intros [held|x] w1 E1; [|apply HQ; [done | done]].
  destruct held; simpl; [|apply wp_ret, HQ; [done | done]].
  apply wp_bind. eapply wp_framed; [apply ensureDefaults_durable|].
  intros [[]|x] w2 E2; [|apply HQ; [by rewrite <- E2, <- E1 | done]].
  apply wp_bind. unfold retry_intent, args_of_intent. simpl.
  destruct (acceptedWriteContextForFacts _) as [c|];
    [|apply wp_throw, HQ; [by rewrite <- E2, <- E1 | done]].
  rewrite Hp, (verified_pack_never_matches _ _ _ Hg He), orb_true_r.
  apply wp_throw, HQ; [by rewrite <- E2, <- E1 | done].
Qed.

Lemma wp_refused_resume i l p g e inspect (Q : res bool -> world -> Prop) w :
  receiveLease (st w) = Some l -> lease_token l = intent_token i ->
  intent_stagedPack i = Some p -> staged_integrity p = Some g -> packEtag g = Some e ->
  receiveFinalizeIntents (st w) !! intent_token i = Some i ->
  receiveOutcomes (st w) !! intent_token i = None ->
  (forall r w', refs (st w') = refs (st w) -> pack_catalog (st w') = pack_catalog (st w) ->
     is_Some (receiveFinalizeIntents (st w') !! intent_token i) -> Q r w') ->
  wp (resumeReceiveFinalizeFromAlarm inspect) Q w.
Proof.
  intros Hl Ht Hp Hg He Hi Ho HQ. unfold resumeReceiveFinalizeFromAlarm.
  apply wp_bind, wp_get. rewrite Hl. apply wp_bind, wp_get. rewrite Ht, Hi.
  apply wp_bind, wp_try_catch, wp_bind.
  eapply wp_refused_recovery; eauto. intros r w1 E1 Hr.
  unfold durable_part in E1. injection E1 as E1 _ E2 E3 E4.
  assert (is_Some (receiveFinalizeIntents (st w1) !! intent_token i)) as Hs
    by (rewrite E2, Hi; eauto).
  destruct r as [r|[msg|]].
  - apply wp_ret, wp_ret, HQ; done.
  - unfold note_failed_recovery. apply wp_bind, wp_transaction, wp_bind, wp_get.
    rewrite E2, Hi. apply wp_bind, wp_put; [intros; by apply HQ|]. intros _. apply wp_ret.
    apply wp_bind, wp_now, wp_bind, wp_now, wp_bind.
    eapply wp_framed with (f := fun s => (refs s, pack_catalog s, receiveFinalizeIntents s)).
    { unfold scheduleAlarmIfSooner. frames. }
    intros r w2 E5. simpl in E5. injection E5 as E5 E6 E7.
    assert (Q (match r with Ok _ => Ok true | Err e => Err e end) w2) as Hq.
    { apply HQ; [congruence.. |]. rewrite <- E7, lookup_insert_eq. eauto. }
    destruct r; [apply wp_ret, wp_ret, Hq | exact Hq].
  - by apply HQ.
Qed.
End Recovery.

Section Success.
Context `{Env}.
Context (Hff : fault_free).

(** The part of the storage a plain push reads again after each step. *)
Record push_state (s : Storage) (rs : option (list Ref)) (v : Z) (h : option Head)
    (lease : option RepoLease) (token : string) (i : option ReceiveFinalizeIntent) : Prop := {
  ps_refs : refs s = rs;
  ps_version : orZ (refsVersion s) 0 = v;
  ps_head : head s = h;
  ps_lease : receiveLease s = lease;
  ps_gc : gcOperation s = None;
  ps_intent : receiveFinalizeIntents s !! token = i }.

Lemma wp_defaults_ok rs v h lease token i (Q : res unit -> world -> Prop) w :
  push_state (st w) rs v h lease token i ->
  (forall s n, push_state s rs v h lease token i -> Q (Ok tt) (World s n)) ->
  wp ensureRepoMetadataDefaults Q w.
Proof.
  intros [] HQ. unfold ensureRepoMetadataDefaults. destruct w as [s n].
  repeat (((apply wp_put_ok; [done|]) || wp_step); cbn beta iota); simpl in *;
    apply HQ; split; simpl; subst; simpl in *; try congruence;
    repeat match goal with H : refsVersion _ = _ |- _ => rewrite H end; done.
Qed.

Lemma wp_fence_ok rs v h l token i (Q : res bool -> world -> Prop) w :
  push_state (st w) rs v h (Some l) token i -> truthy (repositoryDeleting (st w)) = false ->
  lease_token l = token -> env_now (tick w) < lease_expiresAt l ->
  (forall s n l', push_state s rs v h (Some l') token i -> lease_token l' = token ->
     lease_expiresAt l' = env_now (tick w) + RECEIVE_LEASE_TTL_MS -> Q (Ok true) (World s n)) ->
  wp (holdReceiveCompletionFence token (bool_decide (is_Some i))) Q w.
Proof.
  intros [] Hd Ht Hexp HQ. unfold holdReceiveCompletionFence.
  apply wp_transaction, wp_bind, wp_get. rewrite Hd.
  apply wp_bind, wp_now, wp_bind, wp_get. simpl. rewrite ps_lease0. unfold str_eq.
  rewrite (bool_decide_true (lease_token l = token)) by done.
  rewrite (proj2 (Z.ltb_lt _ _)) by done. simpl.
  apply wp_bind, wp_put_ok; [done|]. apply wp_ret. eapply HQ; [split; done | done | done].
Qed.

(** A push without a pack, facts, a receipt or observers. *)
Definition plain_push (token : string) (commands : list ReceiveCommand) : FinalizeArgs :=
  mkFinalize token commands None None None false (fun _ => None).

Lemma no_invalid_refs commands :
  (forall c, c ∈ commands -> isValidRefName (cmd_ref c) = true) ->
  invalid_ref_statuses commands = [].
Proof.
  intros Hv. unfold invalid_ref_statuses.
  rewrite (proj2 (js_filter_nil _ commands)); [done|]. intros c Hc. by rewrite (Hv c Hc).
Qed.

Lemma wp_begin_intent_ok rs v h l token commands
    (Q : res (FinalizeReceiveResult + (ReceiveFinalizeIntent * Verification)) -> world -> Prop) w :
  push_state (st w) rs v h (Some l) token None ->
  lease_token l = token -> env_now (tick w) < lease_expiresAt l ->
  (forall c, c ∈ commands -> isValidRefName (cmd_ref c) = true) ->
  js_every status_ok (validateReceiveCommands (default [] rs) commands) = true ->
  (forall s n i l', push_state s rs v h (Some l') token (Some i) ->
     intent_token i = token -> intent_commands i = commands -> expectedRefsVersion i = v ->
     nextRefsVersion i = v + 1 -> intent_stagedPack i = None ->
     intent_ingestionReceipt i = None -> intent_acceptedWriteContext i = None ->
     nextHead i = resolveHeadAfterReceive h (applyReceiveCommands (default [] rs) commands) ->
     Q (Ok (inr (i, mkVerification 0 0 None))) (World s n)) ->
  wp (begin_intent (plain_push token commands)) Q w.
Proof.
  intros [] Ht Hexp Hvalid Hok HQ. destruct w as [s n]; simpl in *.
  unfold begin_intent. apply wp_bind, wp_get, wp_bind, wp_now. simpl.
  rewrite ps_lease0. unfold str_eq at 1. rewrite bool_decide_true by done.
  rewrite (proj2 (Z.ltb_lt _ _)) by done. simpl.
  apply wp_bind, wp_get. rewrite no_invalid_refs by done. simpl. rewrite ps_refs0, Hok. simpl.
  unfold build_intent, milestone. simpl.
  apply wp_bind, wp_bind, wp_get, wp_bind, wp_ret, wp_bind, wp_ret, wp_bind, wp_get.
  apply wp_bind, wp_get, wp_bind, wp_get, wp_bind, wp_now. simpl.
  unfold prepareGcReceiveProtection. apply wp_bind, wp_bind, wp_get. simpl. rewrite ps_gc0.
  apply wp_ret. unfold persist_intent, retainGcReceiveProtection, armWake.
  apply wp_bind, wp_transaction, wp_bind, wp_ret, wp_bind, wp_put_ok; [done|].
  apply wp_bind, wp_now, wp_bind, wp_get. simpl.
  assert (forall s', refs s' = rs -> orZ (refsVersion s') 0 = v -> head s' = h ->
            receiveLease s' = Some l -> gcOperation s' = None ->
            push_state s' rs v h (Some l) token (receiveFinalizeIntents s' !! token)) as Hps by done.
  repeat match goal with |- context [match ?x with _ => _ end] =>
    lazymatch x with alarm _ => destruct x | _ => fail end end;
    repeat match goal with |- context [if ?b then _ else _] =>
      lazymatch b with _ <? _ => destruct b | _ => fail end end;
    repeat (((apply wp_put_ok; [done|]) || apply wp_ret || apply wp_bind); cbn beta iota);
    (eapply HQ; [split; simpl; try done; rewrite ?ps_head0, ?ps_version0; apply lookup_insert_eq | ..]);
    simpl; rewrite ?ps_version0, ?ps_head0; done.
Qed.

Lemma wp_storeOutcome_ok o rs v h lease token i (Q : res unit -> world -> Prop) w :
  push_state (st w) rs v h lease token i ->
  (forall s n, push_state s rs v h lease token i -> receiveOutcomes s !! outcome_token o = Some o ->
     (length (default [] (receiveOutcomeIndex s)) <= MAX_RECEIVE_OUTCOMES)%nat ->
     Q (Ok tt) (World s n)) ->
  wp (storeReceiveOutcome o) Q w.
Proof.
  intros Hps HQ. unfold storeReceiveOutcome.
  apply wp_transaction, wp_bind, wp_put_ok; [done|]. apply wp_bind, wp_get, wp_bind.
  pose proof (push_bounded_spec MAX_RECEIVE_OUTCOMES (outcome_token o)
    (default [] (receiveOutcomeIndex (st w))) ltac:(unfold MAX_RECEIVE_OUTCOMES; lia)) as Hspec.
  cbn [st]. change (default [] (receiveOutcomeIndex (set_receiveOutcomes _ (st w))))
    with (default [] (receiveOutcomeIndex (st w))).
  set (r := push_bounded MAX_RECEIVE_OUTCOMES (outcome_token o)
              (default [] (receiveOutcomeIndex (st w)))) in *.
  cbv zeta in Hspec. destruct Hspec as (Hlen & Hev & _).
  apply (wp_for_each _ _ (fun rest w' => (forall x, x ∈ rest -> x ∈ r.1) /\
    push_state (st w') rs v h lease token i /\ receiveOutcomes (st w') !! outcome_token o = Some o)).
  - split_and!; [done | destruct Hps; split; done | apply lookup_insert_eq].
  - intros x rest w' (Hin & Hps' & Ho). destruct (str_eq x "") eqn:E.
    + apply wp_ret. split_and!; [|done|done]. intros y Hy. apply Hin. by apply elem_of_cons; right.
    + apply wp_put_ok; [done|]. simpl. split_and!.
      * intros y Hy. apply Hin. by apply elem_of_cons; right.
      * destruct Hps'; split; done.
      * rewrite lookup_delete_ne; [done|]. intros ->. apply Hev, Hin, list_elem_of_here.
  - intros w' (_ & Hps' & Ho). apply wp_put_ok; [done|].
    apply HQ; simpl; [destruct Hps'; split; done | done | done].
Qed.

Lemma wp_plain_push_ok rs v h l token commands (Q : res FinalizeReceiveResult -> world -> Prop) w :
  (forall n m, env_now n = env_now m) ->
  push_state (st w) rs v h (Some l) token None -> receiveOutcomes (st w) !! token = None ->
  truthy (repositoryDeleting (st w)) = false ->
  lease_token l = token -> env_now (tick w) < lease_expiresAt l ->
  (forall c, c ∈ commands -> isValidRefName (cmd_ref c) = true) ->
  js_every status_ok (validateReceiveCommands (default [] rs) commands) = true ->
  (forall s n c, let rs' := applyReceiveCommands (default [] rs) commands in
     refs s = Some rs' -> orZ (refsVersion s) 0 = v + 1 -> receiveLease s = None ->
     receiveFinalizeIntents s !! token = None -> is_Some (receiveOutcomes s !! token) ->
     com_statuses c = all_ok commands -> com_empty c = (length rs' =? 0)%nat ->
     Q (Ok (FinCommitted c)) (World s n)) ->
  wp (finalizeReceiveState (plain_push token commands)) Q w.
Proof.
  intros Hclock Hps Hout Hd Ht Hexp Hvalid Hok HQ. unfold finalizeReceiveState. simpl fin_token.
  apply wp_bind, wp_get. rewrite (ps_intent _ _ _ _ _ _ _ Hps). apply wp_bind, wp_get. rewrite Hout.
  apply wp_bind. simpl. eapply (wp_fence_ok _ _ _ _ _ _ _ _ Hps); [done.. |].
  intros s1 n1 l1 Hps1 Ht1 Hexp1. simpl.
  apply wp_bind. eapply wp_defaults_ok; [exact Hps1|]. intros s2 n2 Hps2.
  apply wp_bind. eapply wp_begin_intent_ok; [exact Hps2 | done | | done | done |].
  { rewrite Hexp1. simpl. rewrite (Hclock n2 (tick w)). unfold RECEIVE_LEASE_TTL_MS. lia. }
  intros s3 n3 i l3 Hps3 Hi1 Hi2 Hi3 Hi4 Hi5 Hi6 Hi7 Hi8.
  unfold complete_intent, activate_pack. rewrite Hi5. apply wp_bind, wp_ret, wp_bind.
  eapply wp_commit_refs_ok; [done | done | apply Hps3 | |].
  { cbn [st]. unfold cas_refs. rewrite (ps_refs _ _ _ _ _ _ _ Hps3), (ps_version _ _ _ _ _ _ _ Hps3), Hi3, Z.eqb_refl, Hi2.
    reflexivity. }
  intros p s4 n4 Hr4 Hv4 Hh4 Hgc4 _ Hl4 _. unfold milestone. apply wp_bind, wp_ret.
  unfold finish_receive, queue_compaction, store_receipt. simpl fst. simpl snd.
  apply wp_bind. eapply (wp_storeOutcome_ok _ (refs s4) (orZ (refsVersion s4) 0) (head s4)
    (receiveLease s4) token (receiveFinalizeIntents s4 !! token)); [by split|].
  simpl. intros s5 n5 [] Ho5 _. rewrite Hi6. apply wp_bind, wp_ret, wp_bind, wp_ret.
  apply wp_bind, wp_put_ok; [done|]. apply wp_bind, wp_put_ok; [done|]. apply wp_ret. simpl.
  apply HQ; simpl; rewrite ?Hi2; try done; [by rewrite ps_refs0 | | ].
  2: apply lookup_delete_eq.
  rewrite ps_version0, Hv4, Hi4. simpl. destruct (v + 1 =? 0) eqn:E; to_prop; lia.
Qed.
End Success.

(** ** Properties *)

(** C3: the transaction that publishes a receive is a compare-and-swap.  When it
    succeeds, either the stored version was the expected one and the refs become
    the old refs with the commands applied, or the version was already the next
    one and the refs already hold the commands' effect and stay as they are; the
    new version and HEAD are those of the durable intent and the pack catalog is
    untouched.  When it fails, for whatever reason, nothing changed. *)
Theorem receive_refs_cas `{Env} (intent : ReceiveFinalizeIntent) (w : world) :
  match commit_refs intent w with
  | (Err _, w') => st w' = st w
  | (Ok (rs, _, _), w') =>
    let current := default [] (refs (st w)) in
    let version := orZ (refsVersion (st w)) 0 in
    let applied := applyReceiveCommands current (intent_commands intent) in
    refs (st w') = Some rs /\ refsVersion (st w') = Some (nextRefsVersion intent) /\
    head (st w') = Some (nextHead intent) /\ pack_catalog (st w') = pack_catalog (st w) /\
    ((version = expectedRefsVersion intent /\ rs = applied) \/
     (version = nextRefsVersion intent /\ rs = current /\ applied = current))
  end.
Proof.
  to_wp (commit_refs intent) w. apply wp_commit_refs; [done|].
  intros rs p k s n [? ? ? ? [first Hcas]]. cbv zeta. split_and!; [done..|].
  unfold cas_refs in Hcas. destruct (_ =? expectedRefsVersion _) eqn:E1; to_prop.
  - injection Hcas as <- _. by left.
  - destruct (_ && _) eqn:E2; [|done]. injection Hcas as <- _. to_prop. by right.
Qed.

Definition demo_intent (commands : list ReceiveCommand) (staged : option StagedPack)
    : ReceiveFinalizeIntent :=
  mkIntent "t" None commands 0 DEFAULT_HEAD 1 staged None None None None None None 0.

Definition demo_commands : list ReceiveCommand :=
  [mkCommand zeroOid "2222222222222222222222222222222222222222" "refs/heads/main"].



(** The proviso is needed.  A push that repeats a ref passes the checks and
    its compare-and-swap succeeds, but the replay on the refs it has just stored
    is refused as a divergence, so a recovery after an eviction cannot finish. *)
Theorem repeated_ref_replay_diverges :
  let intent := demo_intent repeated_ref_push None in
  let w := World (set_refs (Some repeated_ref_table) empty_storage) 0 in
  js_every status_ok (validateReceiveCommands repeated_ref_table repeated_ref_push) = true /\
  (exists rs p k, (commit_refs (H := demo_env) intent w).1 = Ok (rs, p, k)) /\
  (commit_refs (H := demo_env) intent (commit_refs (H := demo_env) intent w).2).1 =
    Err (Throw "FUBAR: receive refs diverged from durable finalize intent").
Proof.
  intros intent w. split_and!; [vm_compute; reflexivity | | vm_compute; reflexivity].
  eexists _, _, _. vm_compute. reflexivity.
Qed.



(** The recovery of a verified pack never completes.  A durable intent
    records the etags its verification read, the alarm passes the intent's own
    pack to the finalization, and the comparison removes the etags on one side
    only: whatever the platform does, the run leaves the refs and the catalog as
    they were and the intent in place. *)
Theorem verified_pack_recovery_refused `{Env} (inspect : nat -> option RetentionReason)
    (w : world) (l : RepoLease) (i : ReceiveFinalizeIntent) (p : StagedPack) (g : StagedIntegrity)
    (etag : string) :
  receiveLease (st w) = Some l -> lease_token l = intent_token i ->
  receiveFinalizeIntents (st w) !! intent_token i = Some i ->
  receiveOutcomes (st w) !! intent_token i = None ->
  intent_stagedPack i = Some p -> staged_integrity p = Some g -> packEtag g = Some etag ->
  let w' := (resumeReceiveFinalizeFromAlarm inspect w).2 in
  refs (st w') = refs (st w) /\ pack_catalog (st w') = pack_catalog (st w) /\
  is_Some (receiveFinalizeIntents (st w') !! intent_token i).
Proof.
  intros Hl Ht Hi Ho Hp Hg He.
  eapply (wp_refused_resume i l p g etag inspect (fun _ w' => refs (st w') = refs (st w) /\
    pack_catalog (st w') = pack_catalog (st w) /\
    is_Some (receiveFinalizeIntents (st w') !! intent_token i)) w); auto.
Qed.

Definition demo_verified : StagedPack :=
  mkStaged "do/repo/objects/pack/p.pack" 32 64 1
    (Some (mkIntegrity "a" "b" "c" 8 (Some "e1") (Some "e2") (Some "e3"))).

Lemma verified_pack_recovery_refused_witness :
  let i := demo_intent demo_commands (Some demo_verified) in
  let s := set_receiveFinalizeIntents (<["t"%string := i]> ∅)
             (set_receiveLease (Some (mkLease "t" 0 5000 None)) empty_storage) in
  let w' := (resumeReceiveFinalizeFromAlarm (H := demo_env) (fun _ => None) (World s 0)).2 in
  refs (st w') = None /\ pack_catalog (st w') = [] /\
  is_Some (receiveFinalizeIntents (st w') !! "t"%string).
Proof.
  intros i s. apply (verified_pack_recovery_refused (H := demo_env) (fun _ => None) (World s 0)
    (mkLease "t" 0 5000 None) i demo_verified
    (mkIntegrity "a" "b" "c" 8 (Some "e1") (Some "e2") (Some "e3")) "e1"%string);
    vm_compute; reflexivity.
Defined.

(** *** Verified outputs and refused pushes *)

(** What a passed verification of an artifact means: the object store answered
    with an object of the declared identity, whose body has the declared size and
    digest. *)
Definition artifact_verified `{Env} (a : Artifact) (etag : string) : Prop :=
  0 < art_bytes a <= MAX_VERIFIED_BYTES /\
  exists n o, env_r2_get n (art_key a) = Some (Some o) /\ r2_etag o = etag /\
    object_matches a o = true /\
    Z.of_nat (length (List.concat (r2_chunks o))) = art_bytes a /\
    env_sha256_hex (List.concat (r2_chunks o)) = art_sha256 a.

Section VerifiedOutput.
Context `{Env}.

Lemma read_body_length declared chunks n k :
  read_body declared n chunks = Some k -> k = n + Z.of_nat (length (List.concat chunks)).
Proof.
  revert n. induction chunks as [|c chunks IH]; intros n; simpl; [intros [= ->]; lia|].
  destruct (_ <? _); [done|]. intros ->%IH. rewrite length_app. lia.
Qed.

Lemma wp_verify_artifact a (Q : res (Z * string) -> world -> Prop) w :
  (forall e w', Q (Err e) w') ->
  (forall etag w', artifact_verified a etag -> Q (Ok (art_bytes a, etag)) w') ->
  wp (verify_artifact a) Q w.
Proof.
  intros Herr Hok. unfold verify_artifact, r2_get.
  destruct (_ || _) eqn:Eb; [by apply wp_throw|]. apply orb_false_iff in Eb as [E1 E2].
  apply Z.leb_gt in E1. apply Z.ltb_ge in E2.
  apply wp_bind, wp_bind, wp_external. destruct (env_r2_get (tick w) (art_key a)) as [[o|]|] eqn:Eg;
    [|by apply wp_ret, wp_throw | by apply wp_throw].
  apply wp_ret. destruct (object_matches a o) eqn:Em; [|by apply wp_throw]. cbn [negb].
  apply wp_bind, wp_external. destruct (read_body _ _ _) as [k|] eqn:Er; [|by apply wp_throw].
  apply read_body_length in Er. destruct (k =? art_bytes a) eqn:Ek; [|by apply wp_throw]. cbn [negb].
  apply Z.eqb_eq in Ek. destruct (str_eq _ _) eqn:Es; [|by apply wp_throw]. cbn [negb].
  apply bool_decide_eq_true in Es. rewrite Ek. apply wp_ret, Hok. split; [lia|].
  exists (tick w), o. split_and!; try done. lia.
Qed.

Lemma wp_verify_artifacts l (Q : res (Z * list string) -> world -> Prop) w :
  (forall e w', Q (Err e) w') ->
  (forall etags w', Forall2 artifact_verified l etags ->
     Q (Ok (foldr (fun a n => art_bytes a + n) 0 l, etags)) w') ->
  wp (verify_artifacts l) Q w.
Proof.
  revert Q w. induction l as [|a l IH]; intros Q w Herr Hok; simpl.
  - apply wp_ret, Hok. constructor.
  - apply wp_bind, wp_verify_artifact; [done|]. intros etag w1 Ha.
    apply wp_bind, IH; [done|]. intros etags w2 Hl. apply wp_ret, Hok. by constructor.
Qed.

(** What the steps before the intent leave alone. *)
Definition push_part (s : Storage) :=
  (refs s, head s, orZ (refsVersion s) 0, pack_catalog s, receiveFinalizeIntents s).

Lemma wp_defaults_push (Q : res unit -> world -> Prop) w :
  (forall r w', push_part (st w') = push_part (st w) -> Q r w') ->
  wp ensureRepoMetadataDefaults Q w.
Proof.
  intros HQ. unfold ensureRepoMetadataDefaults, push_part in *. destruct w as [s n].
  wp_run; simpl in *; apply HQ; simpl; try done;
    repeat match goal with E : refsVersion _ = _ |- _ => rewrite E end; done.
Qed.

(** A refused push: the answer and what it leaves. *)
Lemma wp_refused_push a (Q : res FinalizeReceiveResult -> world -> Prop) w :
  (forall e w', Q (Err e) w') -> (forall c w', Q (Ok (FinCommitted c)) w') ->
  (forall w', push_part (st w') = push_part (st w) -> Q (Ok FinLeaseMismatch) w') ->
  (forall statuses w', push_part (st w') = push_part (st w) -> receiveLease (st w') = None ->
     (statuses = invalid_ref_statuses (fin_commands a) /\ statuses ≠ [] \/
      statuses = validateReceiveCommands (default [] (refs (st w))) (fin_commands a) /\
      js_every status_ok statuses = false) ->
     Q (Ok (FinRefConflict statuses)) w') ->
  wp (finalizeReceiveState a) Q w.
Proof.
  intros Herr Hcommit Hlease Hconflict. unfold finalizeReceiveState.
  apply wp_bind, wp_get, wp_bind, wp_get, wp_bind.
  eapply (wp_framed push_part); [unfold holdReceiveCompletionFence; frames|].
  intros [[]|e] w1 E1; [|by apply wp_ret, Hlease | apply Herr]. cbn [negb].
  apply wp_bind, wp_defaults_push. intros [[]|e] w2 E2; [|apply Herr].
  assert (push_part (st w2) = push_part (st w)) as E by congruence.
  assert (forall {A} (m : DO A) (k : A -> DO FinalizeReceiveResult) Q' w',
    (forall e w', Q' (Err e) w') -> (forall x w', wp (k x) Q' w') -> wp (bind m k) Q' w') as Hbind.
  { intros A m k Q' w' He Hk. apply wp_bind. eapply (wp_conseq _ (fun _ _ => True)); [done|].
    intros [x|e] w'' _; [apply Hk | apply He]. }
  destruct (receiveOutcomes (st w) !! fin_token a) as [o|].
  { unfold replay_outcome. repeat (apply Hbind; [done|intros]). by apply wp_ret. }
  assert (forall i v w', wp (complete_intent a i v) Q w') as Hcomplete.
  { intros. unfold complete_intent, finish_receive. repeat (apply Hbind; [done|intros]). by apply wp_ret. }
  apply wp_bind. destruct (receiveFinalizeIntents (st w) !! fin_token a) as [i|].
  { unfold retry_intent. destruct (acceptedWriteContextForFacts _); [|apply wp_throw, Herr].
    destruct (_ || _); [apply wp_throw, Herr|].
    repeat (apply wp_bind; eapply (wp_conseq _ (fun _ _ => True)); [done|]; intros [?|?] ? _; [|apply Herr]).
    by apply wp_ret. }
  unfold begin_intent. apply wp_bind, wp_get, wp_bind, wp_now.
  destruct (negb _).
  { unfold clearMatchingReceiveLease. apply wp_bind.
    eapply (wp_framed push_part); [frames|]. intros [[]|e] w3 E3; [|apply Herr].
    apply wp_ret, wp_ret, Hlease. rewrite <- E. symmetry. exact E3. }
  apply wp_bind, wp_get. cbn [st bump]. destruct (0 <? _)%nat eqn:Ei.
  { apply wp_bind, wp_put; [intros; apply Herr|]. intros _. apply wp_ret, wp_ret, Hconflict; [done | done |].
    left. split; [done|]. intros Hn. by rewrite Hn in Ei. }
  assert (refs (st w2) = refs (st w)) as Er by (unfold push_part in E; congruence).
  destruct (js_every status_ok _) eqn:Ev; cbn [negb].
  - destruct (match fin_acceptedWrites a with Some _ => _ | None => _ end); [apply wp_throw, Herr|].
    apply wp_bind. eapply (wp_conseq _ (fun _ _ => True)); [done|]. intros [[i v]|e] w4 _; [|apply Herr].
    by apply wp_ret.
  - apply wp_bind, wp_put; [intros; apply Herr|]. intros _. apply wp_ret, wp_ret, Hconflict; [done | done |].
    right. by rewrite <- Er.
Qed.
End VerifiedOutput.

(** A verified output is the declared one.  When the verification of a staged
    pack with declared digests passes, the object store holds for the pack, its
    index and its reference sidecar an object of the declared identity, size and
    SHA-256 - within the bound of 32 MiB each - and the result reports exactly the
    declared bytes and the etags of those objects. *)
Theorem verified_output_sound `{Env} (p : StagedPack) (i : StagedIntegrity) (w : world) :
  staged_integrity p = Some i ->
  match verifyReceiveOutputIntegrity (Some p) w with
  | (Ok v, _) => exists e, ver_etags v = Some e /\
      ver_bytes v = staged_packBytes p + staged_idxBytes p + refsBytes i /\ ver_requests v = 3 /\
      Forall2 artifact_verified (artifacts_of p i) [etag_pack e; etag_idx e; etag_refs e]
  | (Err _, _) => True
  end.
Proof.
  intros Hi. to_wp (verifyReceiveOutputIntegrity (Some p)) w. unfold verifyReceiveOutputIntegrity.
  rewrite Hi. apply wp_bind, wp_verify_artifacts; [done|]. intros etags w' Hall. apply wp_ret.
  inversion Hall as [|? e1 ? ? H1 Hall1]; subst. inversion Hall1 as [|? e2 ? ? H2 Hall2]; subst.
  inversion Hall2 as [|? e3 ? ? H3 Hall3]; subst. inversion Hall3; subst.
  exists (mkEtags e1 e2 e3). simpl. split_and!; try done. lia.
Qed.

(** An object store that holds one object under every key. *)
Definition store_env : Env := {|
  do_id := "repo"; env_now _ := 1000; env_uuid n := pretty n; env_fault _ := None;
  env_interleave _ s := s;
  env_r2_get _ _ := Some (Some (mkR2 8 (Some "d"%string) "e" [[1; 2; 3]; [4; 5; 6; 7; 8]]));
  env_r2_delete _ _ := true; env_queue_send _ := true; env_sha256_hex _ := "d"; env_idleMs := 1800000;
  env_snapshotEventProbe := false; env_qualificationMode := false |}.

Lemma verified_output_sound_witness :
  let i := mkIntegrity "d" "d" "d" 8 None None None in
  let p := mkStaged "do/repo/objects/pack/p.pack" 8 8 1 (Some i) in
  let r := verifyReceiveOutputIntegrity (H := store_env) (Some p) (World empty_storage 0) in
  r.1 = Ok (mkVerification 24 3 (Some (mkEtags "e" "e" "e"))) /\
  match r with
  | (Ok v, _) => exists e, ver_etags v = Some e /\ ver_bytes v = 8 + 8 + 8 /\ ver_requests v = 3 /\
      Forall2 (artifact_verified (H := store_env)) (artifacts_of p i) [etag_pack e; etag_idx e; etag_refs e]
  | (Err _, _) => True
  end.
Proof.
  intros i p r. split; [vm_compute; reflexivity|].
  apply (verified_output_sound (H := store_env) p i (World empty_storage 0)). reflexivity.
Defined.

(** A refused push changes nothing.  A push is answered with a conflict only
    when one of its ref names is malformed or one of its commands does not name the
    current value of its ref, and with the statuses that say which; the answer, like
    that of a push without the lease, leaves refs, HEAD, version, pack catalog and
    durable intents as they were, and a conflict gives the lease back. *)
Theorem refused_push_changes_nothing `{Env} (a : FinalizeArgs) (w : world) :
  match finalizeReceiveState a w with
  | (Ok (FinRefConflict statuses), w') =>
    push_part (st w') = push_part (st w) /\ receiveLease (st w') = None /\
    (statuses = invalid_ref_statuses (fin_commands a) /\ statuses ≠ [] \/
     statuses = validateReceiveCommands (default [] (refs (st w))) (fin_commands a) /\
     js_every status_ok statuses = false)
  | (Ok FinLeaseMismatch, w') => push_part (st w') = push_part (st w)
  | _ => True
  end.
Proof. to_wp (finalizeReceiveState a) w. by apply wp_refused_push. Qed.
