(* ===== verification/StockReceive.v ===== *)
(** * The authority over stock receives

    [do/repo/stockReceiveAuthority.ts]: how the repository object admits a push
    that a worker or a container prepares, checks the prepared result, moves the
    ref by a compare-and-swap under a publication lease, has the result published
    and confirmed, and recovers or rejects what was interrupted.  An operation
    goes from [processing] over [ready] (the result is retained and the intent
    written) and [finalizing] (the ref has moved) to [committed], or ends
    [aborted] or [failed].

    The handlers leave the object only while the platform computes a digest
    ([crypto.subtle], awaited outside a transaction): there, in [digesting], other
    requests may run.  Logging and the hook that only tests set are left out. *)
From S2P Require Import Prelude NativeTypes Storage Effects Text Keys Bytes Json StockProof.
From S2P Require Import AuthorityPlan RefUpdate Catalog Activity Gc AcceptedWrites Receive.
From Stdlib Require String.

(** ** Definitions *)

Definition MAX_RETAINED_OPERATIONS : nat := 128.
Definition MAX_EVIDENCE_EVENTS : nat := 128.
Definition STOCK_PUBLICATION_LEASE_MS : Z := 30000.
Definition STOCK_PROCESSOR_RESULT_MAX_BYTES : Z := 256 * 1024.
Definition STOCK_PLANNER_REJECTION_METRICS_MAX_BYTES : Z := 64 * 1024.

Definition STOCK_TRACE_PHASES : list (string * string) :=
  [("receive_pack_invoked", "receive-pack-start"); ("pre_receive_started", "pre-receive-start");
   ("pre_receive_quarantine_nonempty", "quarantine-visible");
   ("logical_closure_started_ref_still_old", "replacement-closure-start");
   ("logical_closure_completed", "replacement-closure-complete");
   ("pre_receive_succeeded", "pre-receive-complete");
   ("disposable_ref_update_observed", "disposable-ref-updated");
   ("worker_direct_closure_validated", "direct-closure-validated");
   ("worker_direct_artifacts_published", "direct-artifacts-published")]%string.

(** *** Results *)

Inductive AdmitStockReceiveResult :=
  | AdAdmitted (executionToken : string) (operation : NativeReceiveOperation)
  | AdFinalizePending (executionToken : string)
  | AdCleanupPending (operation : NativeReceiveOperationView) (cleanup : NativeReceiveCleanupDescriptor)
      (includeOutputs : bool)
  | AdPublicationPending (publicationToken : string)
      (publication : NativeReceiveAuthorityPublicationPlan) (cleanup : NativeReceiveCleanupDescriptor)
  | AdReplayed (operation : NativeReceiveOperationView) (cleanup : NativeReceiveCleanupDescriptor)
  | AdConflict
  | AdRejected (code : string).

Inductive FinalizeStockReceiveResult :=
  | FsBusy (retryAfter : Z)
  | FsPublicationPending (publicationToken : string)
      (publication : NativeReceiveAuthorityPublicationPlan) (cleanup : NativeReceiveCleanupDescriptor)
  | FsReplayed (operation : NativeReceiveOperationView) (cleanup : NativeReceiveCleanupDescriptor)
  | FsRefConflict (cleanup : NativeReceiveCleanupDescriptor)
  | FsRejected (code : string) (cleanup : option NativeReceiveCleanupDescriptor).

Inductive ConfirmStockReceivePublicationResult :=
  | CpCommitted (operation : NativeReceiveOperationView) (cleanup : NativeReceiveCleanupDescriptor)
  | CpReplayed (operation : NativeReceiveOperationView) (cleanup : NativeReceiveCleanupDescriptor)
  | CpRejected (code : string).

Inductive RejectStockReceiveExecutionResult :=
  | RjFailed (operation : NativeReceiveOperationView)
  | RjReplayed (operation : NativeReceiveOperationView)
  | RjRejected (code : string).

Inductive CompleteStockReceiveCleanupResult :=
  | CcComplete (operation : NativeReceiveOperationView)
  | CcRejected (code : string).

Inductive RecoverStockReceivePublicationResult :=
  | RpPublicationPending (publicationToken : string)
      (publication : NativeReceiveAuthorityPublicationPlan) (cleanup : NativeReceiveCleanupDescriptor)
  | RpCleanupPending (cleanup : NativeReceiveCleanupDescriptor) (includeOutputs : bool)
  | RpNone.

Record NativeReceivePrepared := mkPrepared {
  prep_operationId : string;
  prep_fingerprint : string;
  prep_result : NativeReceiveProcessResult }.

(** *** Evidence *)

(** An event without its sequence number, which [withEvidence] assigns. *)
Definition event (phase : string) : NativeReceiveEvidenceEvent := mkEvent 0 phase None None None None None.
Definition durable_event (phase : string) : NativeReceiveEvidenceEvent :=
  mkEvent 0 phase None (Some true) None None None.

Definition with_sequence (n : Z) (e : NativeReceiveEvidenceEvent) : NativeReceiveEvidenceEvent :=
  mkEvent n (ev_phase e) (ev_at e) (ev_durable e) (ev_bytes e) (ev_digest e) (ev_detailCode e).

Fixpoint add_events (events additions : list NativeReceiveEvidenceEvent)
    : res (list NativeReceiveEvidenceEvent) :=
  match additions with
  | [] => Ok events
  | a :: r =>
    if js_some (fun e => str_eq (ev_phase e) (ev_phase a)) events then add_events events r else
    if (MAX_EVIDENCE_EVENTS <=? length events)%nat
    then Err (Throw "FUBAR: stock receive evidence bound exceeded")
    else add_events
           (js_push events (with_sequence (default 0 (ev_sequence <$> last events) + 1) a)) r
  end.

Definition withEvidence (o : NativeReceiveOperation) (additions : list NativeReceiveEvidenceEvent)
    : res NativeReceiveOperation :=
  match add_events (default [] (native_events o)) additions with
  | Ok events => Ok (set_native_events (Some events) o)
  | Err e => Err e
  end.

(** *** Looking operations up *)

Definition by_execution (token : string) (s : Storage) : option NativeReceiveOperation :=
  js_find (fun o => ostr_eq (native_claimId o) (Some token)) (indexed_natives s).

Definition by_publication (token : string) (s : Storage) : option NativeReceiveOperation :=
  js_find (fun o => ostr_eq (pp_token <$> native_publicationPlan o) (Some token)) (indexed_natives s).

Definition native_of (id : string) (s : Storage) : option NativeReceiveOperation :=
  nativeReceiveOperations s !! id.

Definition is_state (x : NativeReceiveOperationState) (o : NativeReceiveOperation) : bool :=
  bool_decide (native_state o = x).

(** A stored operation that the ledger may forget. *)
Definition forgettable (o : NativeReceiveOperation) : bool :=
  isNativeReceiveTerminal (native_state o) && negb (native_cleanupPending o).

Definition evictable (s : Storage) (keep id : string) : bool :=
  negb (str_eq id "") && negb (str_eq id keep) &&
  match native_of id s with Some o => forgettable o | None => false end.

Section Ledger.
Context `{Env}.

(** An awaited computation of digests, which opens the gate of the object. *)
Definition digesting {A} (r : res A) : DO A := let! r := external (fun _ => r) in of_res r.

Definition indexedOperations : DO (list NativeReceiveOperation) := get indexed_natives.
Definition operationByExecutionToken (token : string) : DO (option NativeReceiveOperation) :=
  get (by_execution token).
Definition operationByPublicationToken (token : string) : DO (option NativeReceiveOperation) :=
  get (by_publication token).

Definition put_operation (o : NativeReceiveOperation) : DO unit :=
  put (fun s => set_nativeReceiveOperations (<[native_id o := o]> (nativeReceiveOperations s)) s).

(** The loop that makes room in the ledger; [fuel] is the excess. *)
Fixpoint make_room (fuel : nat) (keep : string) (next : list string) : DO (option (list string)) :=
  match fuel with
  | O => ret (Some next)
  | S fuel =>
    let! s := get (fun s => s) in
    match js_findIndex (evictable s keep) next with
    | None => ret None
    | Some i =>
      put (fun s => set_nativeReceiveOperations
             (delete (default "" (next !! i)) (nativeReceiveOperations s)) s) ;!
      make_room fuel keep (take i next ++ drop (S i) next)
    end
  end.

Definition retainOperation (o : NativeReceiveOperation) : DO bool :=
  let! index := get (fun s => default [] (nativeReceiveOperationIndex s)) in
  let next := js_push (js_filter (fun id => negb (str_eq id (native_id o))) index) (native_id o) in
  let! room := make_room (length next - MAX_RETAINED_OPERATIONS) (native_id o) next in
  match room with
  | None => ret false
  | Some next =>
    put_operation o ;!
    put (set_nativeReceiveOperationIndex (Some next)) ;!
    ret true
  end.

Definition retryableFailure (code : option string) : bool :=
  ostr_eq code (Some "r2-transient"%string) || ostr_eq code (Some "execution-claim-expired"%string).

Definition pending_publication (o : NativeReceiveOperation) : option NativeReceiveAuthorityPublicationPlan :=
  if is_state NrFinalizing o then native_publicationPlan o else None.

Definition stateName (s : NativeReceiveOperationState) : string :=
  match s with
  | NrStaged => "staged" | NrProcessing => "processing" | NrReady => "ready"
  | NrFinalizing => "finalizing" | NrCommitted => "committed" | NrAborted => "aborted"
  | NrFailed => "failed"
  end.

Definition finalizedDisposition (operation : option NativeReceiveOperation)
    : DO (option FinalizeStockReceiveResult) :=
  match operation with
  | None => ret (Some (FsRejected "operation-not-found" None))
  | Some o =>
    match pending_publication o with
    | Some plan =>
      let! c := of_res (cleanupDescriptor o) in ret (Some (FsPublicationPending (pp_token plan) plan c))
    | None =>
      match native_state o with
      | NrCommitted =>
        let! c := of_res (cleanupDescriptor o) in ret (Some (FsReplayed (nativeReceiveOperationView o) c))
      | NrAborted | NrFailed =>
        let! c := of_res (cleanupDescriptor o) in
        if is_state NrAborted o && ostr_eq (native_errorCode o) (Some "exact-old-ref-conflict"%string)
        then ret (Some (FsRefConflict c))
        else ret (Some (FsRejected (default ("finalize-state-" ++ stateName (native_state o))%string
                                      (native_errorCode o)) (Some c)))
      | _ => ret None
      end
    end
  end.

(** What a stale finalizer answers: the publication or the replay it finds. *)
Definition publication_or (current : option NativeReceiveOperation) (otherwise : DO FinalizeStockReceiveResult)
    : DO FinalizeStockReceiveResult :=
  match current with
  | None => otherwise
  | Some o =>
    match pending_publication o with
    | Some plan =>
      let! c := of_res (cleanupDescriptor o) in ret (FsPublicationPending (pp_token plan) plan c)
    | None =>
      if is_state NrCommitted o
      then let! c := of_res (cleanupDescriptor o) in ret (FsReplayed (nativeReceiveOperationView o) c)
      else otherwise
    end
  end.

(** The receive lease is dropped when it is the operation's. *)
Definition drop_lease (token : string) : DO unit :=
  let! lease := get receiveLease in
  if match lease with Some l => str_eq (lease_token l) token | None => false end
  then put (set_receiveLease None) else ret tt.

(** [{ ...o, state: "aborted", errorCode, cleanupPending: true, updatedAt }]. *)
Definition aborted (code : string) (now : Z) (o : NativeReceiveOperation) : NativeReceiveOperation :=
  set_native_updatedAt now (set_native_cleanupPending true
    (set_native_errorCode (Some code) (set_native_state NrAborted o))).

Definition rejectReadyStockAuthority (o : NativeReceiveOperation) (code phase : string)
    (expectedState : NativeReceiveOperationState) (expectedClaimId : option string)
    : DO FinalizeStockReceiveResult :=
  let! transitioned := transaction (
    let! durable := get (native_of (native_id o)) in
    match durable with
    | None => ret false
    | Some d =>
      if negb (str_eq (native_fingerprint d) (native_fingerprint o)) || negb (is_state expectedState d) ||
         match expectedClaimId with Some c => negb (ostr_eq (native_claimId d) (Some c)) | None => false end
      then ret false else
      let! now := Date_now in
      let! rejected := of_res (withEvidence (aborted code now d)
        [mkEvent 0 phase None (Some true) None None (Some code)]) in
      put_operation rejected ;!
      drop_lease (native_leaseToken d) ;!
      ret true
    end) in
  if transitioned : bool
  then let! c := of_res (cleanupDescriptor o) in ret (FsRejected code (Some c))
  else
    let! current := get (native_of (native_id o)) in
    publication_or current (ret (FsRejected "authority-transition-stale" None)).

(** *** Admission *)

(** The recovery lease belongs to this operation, this token and is live. *)
Definition recovery_live (s : Storage) (id token : string) (now : Z) : bool :=
  match stockReceiveRecoveryLease s with
  | Some r => str_eq (recovery_operationId r) id && str_eq (lease_token (recovery_lease r)) token &&
              (now <? lease_expiresAt (recovery_lease r))
  | None => false
  end.

(** What an operation that is already stored answers; [None]: it may be retried. *)
Definition admit_existing (o existing : NativeReceiveOperation) : DO (option AdmitStockReceiveResult) :=
  if negb (str_eq (native_fingerprint existing) (native_fingerprint o)) then ret (Some AdConflict) else
  if is_state NrCommitted existing then
    drop_lease (native_leaseToken o) ;!
    removeStockReceivePreparationLease (native_leaseToken o) ;!
    let! c := of_res (cleanupDescriptor existing) in
    ret (Some (AdReplayed (nativeReceiveOperationView existing) c))
  else match pending_publication existing with
  | Some plan =>
    let! now := Date_now in
    let! live := get (fun s => recovery_live s (native_id existing) (native_leaseToken o) now) in
    if negb live then ret (Some (AdRejected "stock-recovery-lease-mismatch")) else
    let! c := of_res (cleanupDescriptor existing) in
    ret (Some (AdPublicationPending (pp_token plan) plan c))
  | None =>
    if bool_decide (is_Some (native_processorResult existing)) && is_state NrReady existing then
      let! now := Date_now in
      let! live := get (fun s => recovery_live s (native_id existing) (native_leaseToken o) now) in
      if negb live then ret (Some (AdRejected "stock-recovery-lease-mismatch")) else
      if negb (truthy_string (native_claimId existing))
      then ret (Some (AdRejected "finalize-claim-missing"))
      else ret (Some (AdFinalizePending (default "" (native_claimId existing))))
    else if isNativeReceiveTerminal (native_state existing) && native_cleanupPending existing then
      let! c := of_res (cleanupDescriptor existing) in
      ret (Some (AdCleanupPending (nativeReceiveOperationView existing) c true))
    else if negb (retryableFailure (native_errorCode existing))
    then ret (Some (AdRejected (default "operation-in-progress" (native_errorCode existing))))
    else ret None
  end.

(** Another operation waits for its publication. *)
Definition recovery_pending (s : Storage) (id : string) : bool :=
  js_some (fun c => negb (str_eq (native_id c) id) && (is_state NrReady c || is_state NrFinalizing c))
    (indexed_natives s).

Definition holds_lease (s : Storage) (token : string) (now : Z) : bool :=
  match receiveLease s with
  | Some l => str_eq (lease_token l) token && (now <? lease_expiresAt l)
  | None => false
  end ||
  js_some (fun l => str_eq (lease_token l) token && (now <? lease_expiresAt l))
    (default [] (stockReceivePreparationLeases s)).

(** The operation of a fresh claim. *)
Definition claimed (o : NativeReceiveOperation) (existing : option NativeReceiveOperation)
    (outputPackKey claimId : string) (now : Z) : NativeReceiveOperation :=
  set_native_claimExpiresAt (Some (now + STOCK_RECEIVE_EXECUTION_CLAIM_MS))
  (set_native_claimId (Some claimId) (set_native_cleanupPending false (set_native_errorCode None
  (set_native_attempts (default 0 (native_attempts <$> existing) + 1)
  (set_native_state NrProcessing (set_native_outputRefsKey (packRefsKey outputPackKey)
  (set_native_outputIdxKey (packIndexKey outputPackKey)
  (set_native_outputPackKey outputPackKey o)))))))).

Definition admit_new (o : NativeReceiveOperation) (existing : option NativeReceiveOperation)
    : DO AdmitStockReceiveResult :=
  let! pending := get (fun s => recovery_pending s (native_id o)) in
  if pending : bool then ret (AdRejected "authority-recovery-pending") else
  let! now := Date_now in
  let! held := get (fun s => holds_lease s (native_leaseToken o) now) in
  if negb held then ret (AdRejected "lease-mismatch") else
  let! claimId := randomUUID in
  match nativeReceiveClaimOutputPackKey (native_outputPackKey o) claimId with
  | None => throw "invalid native receive claim output identity"
  | Some outputPackKey =>
    let! now := Date_now in
    let! admitted := of_res (withEvidence (claimed o existing outputPackKey claimId now)
                               [durable_event "repo-do-operation-staged"]) in
    let! retained := retainOperation admitted in
    if negb retained then ret (AdRejected "operation-ledger-full") else
    removeStockReceivePreparationLease (native_leaseToken admitted) ;!
    let! gc := get gcOperation in
    (if gcOwnsSource gc then ret tt else put (set_receiveLease None)) ;!
    armWake (now + STOCK_RECEIVE_EXECUTION_CLAIM_MS) ;!
    ret (AdAdmitted claimId admitted)
  end.

Definition admitStockReceiveState (o : NativeReceiveOperation) : DO AdmitStockReceiveResult :=
  transaction (
    let! deleting := get repositoryDeleting in
    if truthy deleting then ret (AdRejected "repository-deleting") else
    let! existing := get (native_of (native_id o)) in
    match existing with
    | None => admit_new o None
    | Some e =>
      let! answer := admit_existing o e in
      match answer with
      | Some a => ret a
      | None => admit_new o (Some e)
      end
    end).
End Ledger.

(** *** The prepared result *)

(** The claims about the artifacts, or about their absence. *)
Definition outputProofValid (r : NativeReceiveProcessResult) : bool :=
  let no x := negb (truthy_string x) in
  if ref_only r then
    (pr_packBytes r =? 0) && (pr_idxBytes r =? 0) && (pr_refsBytes r =? 0) && (pr_objectCount r =? 0) &&
    is_val (pr_outputValidationRequests r) 0 && is_val (pr_outputValidationBytes r) 0 &&
    is_val (pr_outputBytesWritten r) 0 && is_val (pr_outputRequests r) 0 &&
    no (pr_packSha256 r) && no (pr_idxSha256 r) && no (pr_refsSha256 r) &&
    no (pr_outputPackEtag r) && no (pr_outputIdxEtag r) && no (pr_outputRefsEtag r)
  else
    (0 <? pr_packBytes r) && (0 <? pr_idxBytes r) && (0 <? pr_refsBytes r) && (0 <? pr_objectCount r) &&
    test_opt SHA256 (pr_packSha256 r) && test_opt SHA256 (pr_idxSha256 r) &&
    test_opt SHA256 (pr_refsSha256 r) && is_val (pr_outputValidationRequests r) 3 &&
    is_val (pr_outputValidationBytes r) (pr_packBytes r + pr_idxBytes r + pr_refsBytes r) &&
    truthy_string (pr_outputPackEtag r) && truthy_string (pr_outputIdxEtag r) &&
    truthy_string (pr_outputRefsEtag r) && (str_length (default "" (pr_outputPackEtag r)) <=? 256) &&
    (str_length (default "" (pr_outputIdxEtag r)) <=? 256) &&
    (str_length (default "" (pr_outputRefsEtag r)) <=? 256).

(** [stored?.target ?? "refs/heads/main"] and what it points at. *)
Definition head_after (stored : option Head) (rs : list Ref) : Head :=
  let target := default "refs/heads/main"%string (head_target <$> stored) in
  match find_ref target rs with
  | Some current => mkHead target (Some (ref_oid current)) None
  | None => mkHead target None (Some true)
  end.

Definition stagedPackFor (o : NativeReceiveOperation) (r : NativeReceiveProcessResult)
    : option StagedPack :=
  if ref_only r then None else Some (mkStaged (native_outputPackKey o) (pr_packBytes r) (pr_idxBytes r)
    (pr_objectCount r)
    (Some (mkIntegrity (default "" (pr_packSha256 r)) (default "" (pr_idxSha256 r))
             (default "" (pr_refsSha256 r)) (pr_refsBytes r) (pr_outputPackEtag r) (pr_outputIdxEtag r)
             (pr_outputRefsEtag r)))).

Definition shouldQueueStockCompaction (hasStagedPack : bool) (activeCatalog : list PackCatalogRow)
    : bool := hasStagedPack && catalogNeedsCompaction activeCatalog.

(** [acceptedWriteContext]; [None] is its exception. *)
Definition acceptedWriteContext (o : NativeReceiveOperation) : option (option AcceptedWriteContext) :=
  match native_acceptedWrites o with
  | [] => Some None
  | first :: _ =>
    if js_every (fun fact => bool_decide (context_of fact = context_of first)) (native_acceptedWrites o)
    then Some (Some (context_of first)) else None
  end.

Section Prepared.
Context `{Env}.

Definition preparedProofValid (o : NativeReceiveOperation) (p : NativeReceivePrepared) : res bool :=
  let r := prep_result p in
  if str_eq (prep_operationId p) (native_id o) && str_eq (prep_fingerprint p) (native_fingerprint o) &&
     str_eq (pr_operationId r) (native_id o) && outputProofValid r && test_opt SHA256 (pr_planSha256 r)
  then validateStockReceivePreparedProof o r
  else Ok false.

(** *** Publication: the versions a finalizer works from *)

Record Basis := mkBasis {
  bs_refsVersion : Z;
  bs_packSequence : Z;
  bs_packsetVersion : Z;
  bs_nextRefs : list Ref;
  bs_stagedPack : option StagedPack;
  bs_refOnly : bool }.

(** The variables of the finalizer that a lost race replaces. *)
Record Work := mkWork {
  wk_operation : NativeReceiveOperation;
  wk_result : NativeReceiveProcessResult;
  wk_intent : option ReceiveFinalizeIntent;
  wk_plan : option NativeReceiveAuthorityPublicationPlan;
  wk_statuses : list ReceiveStatus }.

(** The events of the host trace, by their phases. *)
Definition trace_events (r : NativeReceiveProcessResult) : list NativeReceiveEvidenceEvent :=
  omap (fun t => event <$> AMap.lookup (trace_event t) STOCK_TRACE_PHASES) (default [] (pr_stockTrace r)).

Definition processor_phase (r : NativeReceiveProcessResult) : string :=
  if ostr_eq (pr_executionMode r) (Some "direct-pack"%string) then "worker-processor-start"
  else "go-processor-start".

(** [correctedEvents]: the start event gets the processor's own phase and time. *)
Definition correct_event (r : NativeReceiveProcessResult) (e : NativeReceiveEvidenceEvent)
    : NativeReceiveEvidenceEvent :=
  match pr_processorStartedAt r with
  | Some at_ =>
    if str_eq (ev_phase e) "go-processor-start"
    then mkEvent (ev_sequence e) (processor_phase r) (Some at_) (ev_durable e) (ev_bytes e)
           (ev_digest e) (ev_detailCode e)
    else e
  | None => e
  end.

Definition wal_events (r : NativeReceiveProcessResult) (observedAt : Z) : list NativeReceiveEvidenceEvent :=
  [mkEvent 0 (processor_phase r) (pr_processorStartedAt r) None None None None] ++ trace_events r ++
  [mkEvent 0 "output-integrity-verified" (Some observedAt) None (pr_outputValidationBytes r) None None;
   durable_event "wal-put-complete"].

(** [{ ...operation, events, state: "ready", processorResult, publicationPlan,
    cleanupPending: true, updatedAt }]. *)
Definition readied (o : NativeReceiveOperation) (r : NativeReceiveProcessResult)
    (plan : NativeReceiveAuthorityPublicationPlan) (now : Z) : NativeReceiveOperation :=
  set_native_updatedAt now (set_native_cleanupPending true (set_native_publicationPlan (Some plan)
    (set_native_processorResult (Some r) (set_native_state NrReady
      (set_native_events (option_map (List.map (correct_event r)) (native_events o)) o))))).

Definition stock_intent (o : NativeReceiveOperation) (b : Basis) (h : option Head)
    (context : option AcceptedWriteContext) (now : Z) : ReceiveFinalizeIntent :=
  mkIntent (native_leaseToken o) None (native_commands o) (bs_refsVersion b)
    (head_after h (bs_nextRefs b)) (bs_refsVersion b + 1) (bs_stagedPack b)
    (if bs_refOnly b then None else Some (bs_packSequence b))
    (if bs_refOnly b then None else Some (bs_packsetVersion b + 1)) None context None None now.

(** The durable operation is still the one this finalizer looked at. *)
Definition same_claim (o d : NativeReceiveOperation) (expected : NativeReceiveOperationState) : bool :=
  is_state expected d && str_eq (native_fingerprint d) (native_fingerprint o) &&
  ostr_eq (native_claimId d) (native_claimId o).

(** The transaction that writes the intent and the ready operation ahead. *)
Definition write_ahead (o : NativeReceiveOperation) (expected : NativeReceiveOperationState)
    (intent : ReceiveFinalizeIntent) (b : Basis) : DO bool :=
  transaction (
    let! durable := get (native_of (native_id o)) in
    let! version := get (fun s => default 0 (refsVersion s)) in
    if negb (match durable with Some d => same_claim o d expected | None => false end) ||
       negb (version =? bs_refsVersion b) then ret false else
    put (fun s => set_receiveFinalizeIntents
           (<[native_leaseToken o := intent]> (receiveFinalizeIntents s)) s) ;!
    put_operation o ;!
    let! now := Date_now in
    armWake (now + 1) ;!
    ret true).

(** After a lost race: what the winner left is resumed, or answered. *)
Definition resume_winner (w : Work) : DO (FinalizeStockReceiveResult + Work) :=
  let! current := get (native_of (native_id (wk_operation w))) in
  if negb (ostr_eq (current ≫= native_claimId) (native_claimId (wk_operation w)))
  then ret (inl (FsRejected "execution-claim-stale" None)) else
  let! disposition := finalizedDisposition current in
  match disposition, current with
  | Some d, _ => ret (inl d)
  | None, Some c =>
    match is_state NrReady c, native_processorResult c, native_publicationPlan c with
    | true, Some r, Some plan =>
      let! intent := get (fun s => receiveFinalizeIntents s !! native_leaseToken c) in
      let! statuses := get (fun s => validateReceiveCommands (default [] (refs s)) (native_commands c)) in
      ret (inr (mkWork c r intent (Some plan) statuses))
    | _, _, _ => ret (inl (FsRejected "authority-transition-stale" None))
    end
  | None, None => ret (inl (FsRejected "authority-transition-stale" None))
  end.

(** The write-ahead step, for an operation that has no complete record yet. *)
Definition stock_wal (w : Work) (b : Basis) : DO (FinalizeStockReceiveResult + Work) :=
  let o := wk_operation w in
  let! h := get head in
  match acceptedWriteContext o with
  | None => throw "FUBAR: accepted-write facts do not share one context"
  | Some context =>
    let! createdAt := Date_now in
    let! observedAt := Date_now in
    let! plan := digesting (buildNativeReceiveAuthorityPublicationPlan o (wk_result w)) in
    let! now := Date_now in
    let! ready := of_res (withEvidence (readied o (wk_result w) plan now)
                            (wal_events (wk_result w) observedAt)) in
    let intent := stock_intent o b h context createdAt in
    let w := mkWork ready (wk_result w) (Some intent) (Some plan) (wk_statuses w) in
    let! published := write_ahead ready (native_state o) intent b in
    if published : bool then ret (inr w) else resume_winner w
  end.

(** *** Publication: the refusal of a push whose old value is stale *)

Definition stock_conflict (o : NativeReceiveOperation) : DO FinalizeStockReceiveResult :=
  let! now := Date_now in
  let! rejected := of_res (withEvidence (aborted "exact-old-ref-conflict" now o)
                             [durable_event "authoritative-ref-cas-rejected"]) in
  let! transitioned := transaction (
    let! durable := get (native_of (native_id o)) in
    if negb (match durable with Some d => same_claim o d (native_state o) | None => false end)
    then ret false else
    put_operation rejected ;!
    drop_lease (native_leaseToken o) ;!
    ret true) in
  if negb transitioned then
    let! current := get (native_of (native_id o)) in
    let! disposition := finalizedDisposition current in
    ret (default (FsRejected "execution-claim-stale" None) disposition)
  else
    let! c := of_res (cleanupDescriptor o) in
    ret (FsRefConflict c).

(** *** Publication: the catalog row and the compare-and-swap *)

(** The row of the staged pack exists with other contents. *)
Definition catalog_conflict (existing : option PackCatalogRow) (staged : option StagedPack) (seq : Z) : bool :=
  match staged, existing with
  | Some p, Some row =>
    negb (packBytes row =? staged_packBytes p) || negb (idxBytes row =? staged_idxBytes p) ||
    negb (objectCount row =? staged_objectCount p) || negb (seqLo row =? seq) || negb (seqHi row =? seq)
  | _, _ => false
  end.

Definition staged_row (rows : list PackCatalogRow) (staged : option StagedPack) : option PackCatalogRow :=
  p ← staged; js_find (fun row => str_eq (packKey row) (staged_packKey p)) rows.

(** [{ ...operation, state: "finalizing", updatedAt, processorResult,
    publicationPlan, cleanupPending: true, result }]. *)
Definition finalizing_operation (o : NativeReceiveOperation) (w : Work)
    (plan : NativeReceiveAuthorityPublicationPlan) (b : Basis) (now : Z) : NativeReceiveOperation :=
  let r := wk_result w in
  set_native_result (Some (mkTerminal None (wk_statuses w) true (length (bs_nextRefs b) =? 0)%nat
      ((fun _ => native_outputPackKey o) <$> bs_stagedPack b) (staged_packBytes <$> bs_stagedPack b)
      (pr_receivePackResponse r) (pr_stockTrace r) None))
    (set_native_cleanupPending true (set_native_publicationPlan (Some plan)
      (set_native_processorResult (Some r) (set_native_updatedAt now (set_native_state NrFinalizing o))))).

Definition stock_outcome (o : NativeReceiveOperation) (w : Work) (b : Basis) (queue : bool)
    : ReceiveCommitOutcome :=
  let r := wk_result w in
  mkOutcome (native_leaseToken o) (wk_statuses w) true (length (bs_nextRefs b) =? 0)%nat queue
    (pr_outputValidationBytes r) (pr_outputValidationRequests r)
    ((fun _ => mkEtags (default "" (pr_outputPackEtag r)) (default "" (pr_outputIdxEtag r))
                 (default "" (pr_outputRefsEtag r))) <$> bs_stagedPack b) None.

(** The guards of the commit, on the durable state. *)
Definition cas_holds (s : Storage) (o : NativeReceiveOperation) (intent : ReceiveFinalizeIntent) (b : Basis)
    : bool :=
  match native_of (native_id o) s, receiveFinalizeIntents s !! native_leaseToken o with
  | Some d, Some i =>
    same_claim o d NrReady && (intent_createdAt i =? intent_createdAt intent) &&
    (default 0 (refsVersion s) =? bs_refsVersion b) &&
    js_every status_ok (validateReceiveCommands (default [] (refs s)) (native_commands o))
  | _, _ => false
  end.

(** The transaction that moves the refs. *)
Definition stock_commit (o : NativeReceiveOperation) (w : Work) (intent : ReceiveFinalizeIntent) (b : Basis)
    (finalizing : NativeReceiveOperation) (queue : bool) (committedAt : Z) : DO bool :=
  transaction (
    let! holds := get (fun s => cas_holds s o intent b) in
    if negb holds then ret false else
    put (set_refs (Some (bs_nextRefs b))) ;!
    put (set_head (Some (nextHead intent))) ;!
    put (set_refsVersion (Some (nextRefsVersion intent))) ;!
    (if bs_stagedPack b
     then put (set_nextPackSeq (Some (bs_packSequence b + 1))) ;!
          put (set_packsetVersion (Some (bs_packsetVersion b + 1)))
     else ret tt) ;!
    let! pins := get (fun s => default 0 (snapshotPinVersion s)) in
    advanceGcReceiveVersions (bs_refsVersion b) (nextRefsVersion intent)
      ((fun _ => bs_packsetVersion b + 1) <$> bs_stagedPack b) pins pins ;!
    recordAcceptedWrites (nextRefsVersion intent) (native_acceptedWrites o) (intent_createdAt intent)
      true None ;!
    put (fun s => set_receiveOutcomes
           (<[native_leaseToken o := stock_outcome o w b queue]> (receiveOutcomes s)) s) ;!
    put_operation finalizing ;!
    drop_lease (native_leaseToken o) ;!
    (if queue : bool then markCompactionActivity committedAt else ret tt) ;!
    armWake (committedAt + 1) ;!
    ret true).

Definition reject_ready (o : NativeReceiveOperation) (code phase : string) : DO FinalizeStockReceiveResult :=
  rejectReadyStockAuthority o code phase NrReady (native_claimId o).

Definition stock_publish (w : Work) (b : Basis) : DO FinalizeStockReceiveResult :=
  let o := wk_operation w in
  match wk_intent w, wk_plan w with
  | Some intent, Some plan =>
    if is_state NrReady o && negb (expectedRefsVersion intent =? bs_refsVersion b)
    then reject_ready o "exact-old-ref-conflict" "authoritative-version-drift-rejected" else
    if negb (bs_refOnly b) &&
       (negb (bool_decide (packSequence intent = Some (bs_packSequence b))) ||
        negb (bool_decide (nextPacksetVersion intent = Some (bs_packsetVersion b + 1))))
    then reject_ready o "wal-authority-conflict" "authoritative-wal-conflict-rejected" else
    let! activeBefore := listActivePackCatalog in
    let existing := staged_row activeBefore (bs_stagedPack b) in
    if catalog_conflict existing (bs_stagedPack b) (bs_packSequence b)
    then reject_ready o "catalog-authority-conflict" "authoritative-catalog-conflict-rejected" else
    (match bs_stagedPack b, existing with
     | Some p, None =>
       let! now := Date_now in upsertPackCatalogRow (receive_row p (bs_packSequence b) now)
     | _, _ => ret tt
     end) ;!
    let! activeAfter := listActivePackCatalog in
    let queue := shouldQueueStockCompaction (bool_decide (is_Some (bs_stagedPack b))) activeAfter in
    let! committedAt := Date_now in
    let! finalizing := of_res (withEvidence (finalizing_operation o w plan b committedAt)
                                 [durable_event "authoritative-ref-cas"]) in
    let! committed := stock_commit o w intent b finalizing queue committedAt in
    if negb committed then
      let! current := get (native_of (native_id o)) in
      publication_or current (reject_ready o "authority-cas-conflict" "authoritative-cas-conflict-rejected")
    else
      let! c := of_res (cleanupDescriptor o) in
      ret (FsPublicationPending (pp_token plan) plan c)
  | _, _ => ret (FsRejected "finalize-state-invalid" None)
  end.

(** *** Finalization *)

(** [currentRefs] was read before the proof was checked, the versions after. *)
Definition stock_basis (currentRefs : list Ref) (o : NativeReceiveOperation)
    (r : NativeReceiveProcessResult) (s : Storage) : Basis :=
  mkBasis (default 0 (refsVersion s)) (default 1 (nextPackSeq s)) (default 0 (packsetVersion s))
    (applyReceiveCommands currentRefs (native_commands o)) (stagedPackFor o r) (ref_only r).

(** The request is one well-formed command with its own accepted-write facts. *)
Definition stock_request_valid (o : NativeReceiveOperation) : bool :=
  (length (native_commands o) =? 1)%nat &&
  js_every (fun c => isValidRefName (cmd_ref c)) (native_commands o) &&
  acceptedWritesMatchCommands (native_commands o) (native_acceptedWrites o).

(** The result to publish: the retained one of a ready operation, the supplied
    one of a running execution. *)
Definition stock_prepared (o : NativeReceiveOperation) (supplied : option NativeReceivePrepared)
    : DO (FinalizeStockReceiveResult + NativeReceiveProcessResult) :=
  let invalid := inl (FsRejected "prepared-output-invalid" None) in
  if is_state NrReady o then
    match native_processorResult o with
    | None => ret (inl (FsRejected "finalize-state-invalid" None))
    | Some r =>
      let! ok := digesting (preparedProofValid o (mkPrepared (native_id o) (native_fingerprint o) r)) in
      ret (if ok : bool then inr r else invalid)
    end
  else match is_state NrProcessing o, supplied with
  | true, Some p =>
    let! ok := digesting (preparedProofValid o p) in
    ret (if ok : bool then inr (prep_result p) else invalid)
  | _, _ => ret invalid
  end.

Definition finalizeStockReceiveWithPublicationLease (executionToken : string)
    (supplied : option NativeReceivePrepared) : DO FinalizeStockReceiveResult :=
  let! operation := operationByExecutionToken executionToken in
  match operation with
  | None => ret (FsRejected "operation-not-found" None)
  | Some o =>
    publication_or (Some o) (
      if negb (stock_request_valid o) then ret (FsRejected "receive-authority-invalid" None) else
      let! currentRefs := get (fun s => default [] (refs s)) in
      let statuses := validateReceiveCommands currentRefs (native_commands o) in
      let! prepared := stock_prepared o supplied in
      match prepared with
      | inl result => ret result
      | inr r =>
        if negb (js_every status_ok statuses) then stock_conflict o else
        let! basis := get (stock_basis currentRefs o r) in
        let! intent := get (fun s => receiveFinalizeIntents s !! native_leaseToken o) in
        let w := mkWork o r intent (native_publicationPlan o) statuses in
        let! next := (if is_state NrProcessing o || bool_decide (intent = None) ||
                         negb (bool_decide (is_Some (native_publicationPlan o)))
                      then stock_wal w basis else ret (inr w)) in
        match next with
        | inl result => ret result
        | inr w => stock_publish w basis
        end
      end)
  end.

(** [{ ...durable, state: "ready", processorResult, cleanupPending: true, updatedAt }]. *)
Definition retained_ready (r : NativeReceiveProcessResult) (now : Z) (d : NativeReceiveOperation)
    : NativeReceiveOperation :=
  set_native_updatedAt now (set_native_cleanupPending true (set_native_processorResult (Some r)
    (set_native_state NrReady d))).

Definition retainPreparedStockReceiveState (executionToken : string)
    (supplied : option NativeReceivePrepared) : DO unit :=
  match supplied with
  | None => ret tt
  | Some p =>
    let! operation := operationByExecutionToken executionToken in
    match operation with
    | None => ret tt
    | Some o =>
      if negb (is_state NrProcessing o) then ret tt else
      let! ok := digesting (preparedProofValid o p) in
      if negb ok then ret tt else
      transaction (
        let! durable := get (native_of (native_id o)) in
        match durable with
        | None => ret tt
        | Some d =>
          if negb (same_claim o d NrProcessing) then ret tt else
          let! now := Date_now in
          put_operation (retained_ready (prep_result p) now d) ;!
          armWake (now + 1)
        end)
    end
  end.

Inductive Acquisition :=
  | AcqNotRequired
  | AcqBusy
  | AcqAcquired (receiveToken publicationToken : string).

(** Another receive holds its lease, or left an intent behind. *)
Definition lease_blocks (s : Storage) (token : string) (now : Z) : bool :=
  match receiveLease s with
  | Some l => negb (str_eq (lease_token l) token) &&
              ((now <? lease_expiresAt l) ||
               bool_decide (is_Some (receiveFinalizeIntents s !! lease_token l)))
  | None => false
  end.

Definition publication_leased (s : Storage) (now : Z) : bool :=
  match stockReceivePublicationLease s with Some l => now <? lease_expiresAt l | None => false end.

Definition acquire_publication (executionToken : string) (now : Z) : DO Acquisition :=
  transaction (
    let! operation := operationByExecutionToken executionToken in
    match operation with
    | None => ret AcqNotRequired
    | Some o =>
      if is_state NrCommitted o || is_state NrFinalizing o then ret AcqNotRequired else
      let! leased := get (fun s => publication_leased s now) in
      if leased : bool then ret AcqBusy else
      let! blocked := get (fun s => lease_blocks s (native_leaseToken o) now) in
      if blocked : bool then ret AcqBusy else
      put (set_receiveLease (Some (mkLease (native_leaseToken o) now (now + RECEIVE_LEASE_TTL_MS)
                                     (Some OpReceive)))) ;!
      put (set_stockReceivePublicationLease (Some (mkLease executionToken now
             (now + STOCK_PUBLICATION_LEASE_MS) (Some OpReceive)))) ;!
      ret (AcqAcquired (native_leaseToken o) executionToken)
    end).

Definition release_publication (receiveToken publicationToken : string) : DO unit :=
  transaction (
    let! publication := get stockReceivePublicationLease in
    (if match publication with Some l => str_eq (lease_token l) publicationToken | None => false end
     then put (set_stockReceivePublicationLease None) else ret tt) ;!
    drop_lease receiveToken).

(** [try { return await m } finally { await f }]: after an exception [f] runs and
    the exception goes on; an evicted isolate runs nothing. *)
Definition try_finally {A} (m : DO A) (f : DO unit) : DO A :=
  let! r := try_catch (let! a := m in ret (inl a)) (fun msg => f ;! ret (inr msg)) in
  match r with
  | inl a => f ;! ret a
  | inr msg => throw msg
  end.

Definition finalizeStockReceiveState (executionToken : string)
    (supplied : option NativeReceivePrepared) : DO FinalizeStockReceiveResult :=
  retainPreparedStockReceiveState executionToken supplied ;!
  let! now := Date_now in
  let! acquisition := acquire_publication executionToken now in
  match acquisition with
  | AcqBusy => ret (FsBusy LEASE_RETRY_AFTER_SECONDS)
  | AcqNotRequired => finalizeStockReceiveWithPublicationLease executionToken supplied
  | AcqAcquired receiveToken publicationToken =>
    try_finally (finalizeStockReceiveWithPublicationLease executionToken supplied)
      (release_publication receiveToken publicationToken)
  end.

(** *** Recovery *)

Definition ready_stock (o : NativeReceiveOperation) : bool := is_state NrReady o && native_stock o.

(** The ready operation to resume: the one that owns the receive lease, else the
    first. *)
Definition next_ready (s : Storage) : option NativeReceiveOperation :=
  let ready := js_filter ready_stock (indexed_natives s) in
  match js_find (fun o => ostr_eq (Some (native_leaseToken o)) (lease_token <$> receiveLease s)) ready with
  | Some o => Some o
  | None => List.hd_error ready
  end.

Definition next_processing (s : Storage) : option NativeReceiveOperation :=
  js_find (fun o => is_state NrProcessing o && native_stock o) (indexed_natives s).

Definition put_alarm (delay : Z) : DO unit :=
  let! now := Date_now in put (set_alarm (Some (now + delay))).

Definition resume_ready (o : NativeReceiveOperation) : DO bool :=
  let! resumed := finalizeStockReceiveState (default "" (native_claimId o)) None in
  match resumed with
  | FsBusy _ => put_alarm 1000 ;! ret true
  | FsRejected _ _ =>
    let! current := get (native_of (native_id o)) in
    match current with
    | Some c =>
      (if is_state NrReady c
       then rejectReadyStockAuthority c "authority-recovery-invalid" "authority-recovery-rejected" NrReady
              (native_claimId c) ;! ret tt
       else ret tt) ;!
      put_alarm 1 ;! ret true
    | None => put_alarm 1 ;! ret true
    end
  | _ => put_alarm 1 ;! ret true
  end.

Definition claim_end (o : NativeReceiveOperation) : Z :=
  default (native_updatedAt o + STOCK_RECEIVE_EXECUTION_CLAIM_MS) (native_claimExpiresAt o).

Definition expire_processing (o : NativeReceiveOperation) : DO bool :=
  let! now := Date_now in
  if now <? claim_end o then armWake (claim_end o) ;! ret true else
  rejectReadyStockAuthority o "execution-claim-expired" "worker-execution-claim-expired" NrProcessing
    (native_claimId o) ;!
  put_alarm 1 ;! ret true.

Definition resumeStockReceiveAuthorityFromAlarm : DO bool :=
  let! s := get (fun s => s) in
  match next_ready s with
  | Some o => resume_ready o
  | None =>
    match next_processing s with
    | Some o => expire_processing o
    | None => ret false
    end
  end.

(** The newest operation that waits for a worker. *)
Definition needs_worker (o : NativeReceiveOperation) : bool :=
  native_stock o &&
  (bool_decide (is_Some (pending_publication o)) ||
   (isNativeReceiveTerminal (native_state o) && native_cleanupPending o)).

Definition stockReceiveWorkerRecoveryOperationId : DO (option string) :=
  get (fun s => native_id <$> js_find needs_worker (rev (indexed_natives s))).

(** *** Confirmation *)

Definition with_publication_result (proof : NativeReceiveAuthorityPublication)
    (t : NativeReceiveTerminalResult) : NativeReceiveTerminalResult :=
  mkTerminal (tr_refPublication t) (tr_statuses t) (tr_changed t) (tr_empty t) (tr_packKey t)
    (tr_packBytes t) (tr_receivePackResponse t) (tr_stockTrace t) (Some proof).

(** The client response exists, so an acknowledgement may be authorized. *)
Definition has_response (o : NativeReceiveOperation) : bool :=
  bool_decide (is_Some (native_result o ≫= tr_receivePackResponse)).

Definition ack_event (at_ : Z) : NativeReceiveEvidenceEvent :=
  mkEvent 0 "worker-response-ack" (Some at_) None None None None.

Definition confirmStockReceivePublicationState (publicationToken : string)
    (proof : NativeReceiveAuthorityPublication) (authorizeClientAck : bool)
    : DO ConfirmStockReceivePublicationResult :=
  transaction (
    let! operation := operationByPublicationToken publicationToken in
    match operation with
    | None => ret (CpRejected "publication-not-found")
    | Some o =>
      match native_publicationPlan o with
      | None => ret (CpRejected "publication-not-found")
      | Some plan =>
        if is_state NrCommitted o then
          if authorizeClientAck && has_response o && bool_decide (native_clientAckReadyAt o = None) then
            let! now := Date_now in
            let! acknowledged := of_res (withEvidence
              (set_native_updatedAt now (set_native_clientAckReadyAt (Some now) o)) [ack_event now]) in
            put_operation acknowledged ;!
            let! c := of_res (cleanupDescriptor acknowledged) in
            ret (CpReplayed (nativeReceiveOperationView acknowledged) c)
          else
            let! c := of_res (cleanupDescriptor o) in
            ret (CpReplayed (nativeReceiveOperationView o) c)
        else if negb (is_state NrFinalizing o) || negb (authorityPublicationMatchesPlan plan proof)
        then ret (CpRejected "publication-proof-invalid") else
        let! now := Date_now in
        let ack := authorizeClientAck && has_response o in
        let! committed := of_res (withEvidence
          (set_native_result (with_publication_result proof <$> native_result o)
            (set_native_clientAckReadyAt (if ack then Some now else None)
              (set_native_updatedAt now (set_native_state NrCommitted o))))
          (mkEvent 0 "receipt-committed" None (Some true) None (Some (pbc_digest (pub_receipt proof))) None
             :: (if ack then [ack_event now] else []))) in
        put_operation committed ;!
        let! c := of_res (cleanupDescriptor committed) in
        ret (CpCommitted (nativeReceiveOperationView committed) c)
      end
    end).

Definition recoverStockReceivePublicationState (operationId : string)
    : DO RecoverStockReceivePublicationResult :=
  let! operation := get (native_of operationId) in
  match operation with
  | None => ret RpNone
  | Some o =>
    if negb (native_stock o) then ret RpNone else
    match pending_publication o with
    | Some plan =>
      let! c := of_res (cleanupDescriptor o) in ret (RpPublicationPending (pp_token plan) plan c)
    | None =>
      if isNativeReceiveTerminal (native_state o) && native_cleanupPending o
      then let! c := of_res (cleanupDescriptor o) in
           ret (RpCleanupPending c (negb (is_state NrCommitted o)))
      else ret RpNone
    end
  end.

(** *** Rejection of an execution, and cleanup *)

(** [NativeReceiveExecutionRejection]; a rejection that is a string has its code only. *)
Record ExecutionRejection := mkRejection {
  rj_code : string;
  rj_processorResult : option NativeReceiveProcessResult;
  rj_metrics : option NativeReceiveOperationMetrics;
  rj_diagnosticCode : option string }.

Definition supplied_rejection (rejection : ExecutionRejection + string) : ExecutionRejection :=
  match rejection with
  | inl r => r
  | inr code => mkRejection code None None None
  end.

Definition safe_count (x : option Z) : bool :=
  match x with Some v => is_safe v && (0 <=? v) | None => false end.

Definition metric_values (m : NativeReceiveOperationMetrics) : list (option Z) :=
  [Some (om_elapsedMs m); Some (om_scratchBytes m); Some (om_hydratedBytes m);
   Some (om_downloadedBytes m); Some (om_cacheHitBytes m); om_metadataBytes m; om_metadataRequests m;
   om_inputBytesRead m; om_inputRequests m; om_rangeBytes m; om_rangeRequests m; om_packsTouched m;
   om_activePackTrailerBytes m; om_activePackTrailerRequests m; om_activePackRangeBytes m;
   om_activePackRangeRequests m; om_activePackWholeBytes m; om_activePackWholeRequests m;
   om_activePackUnattributedBytes m; om_activePackUnattributedRequests m; om_selectedPackBytes m;
   om_activePackCount m; om_outputValidationBytes m; om_outputValidationRequests m;
   om_outputBytesWritten m; om_outputRequests m].

Definition rejection_totals (o : NativeReceiveOperation) (m : NativeReceiveOperationMetrics) : bool :=
  (om_scratchBytes m =? 0) && (om_hydratedBytes m =? 0) && (om_cacheHitBytes m =? 0) &&
  is_val (om_outputValidationBytes m) 0 && is_val (om_outputValidationRequests m) 0 &&
  is_val (om_outputBytesWritten m) 0 && is_val (om_outputRequests m) 0 &&
  is_val (om_activePackWholeBytes m) 0 && is_val (om_activePackWholeRequests m) 0 &&
  is_val (om_activePackUnattributedBytes m) 0 && is_val (om_activePackUnattributedRequests m) 0 &&
  is_val (om_activePackCount m) (js_length (native_activeCatalog o)) &&
  (default 0 (om_selectedPackBytes m) <=?
     foldl (fun total pack => total + packBytes pack) 0 (native_activeCatalog o)) &&
  (om_downloadedBytes m =? default 0 (om_metadataBytes m) + default 0 (om_inputBytesRead m) +
                           default 0 (om_rangeBytes m)) &&
  match om_ranges m with Some l => js_length l <=? 256 | None => false end &&
  match om_activePackReads m with Some l => js_length l <=? 320 | None => false end.

Definition rejection_range_valid (r : NativeReceiveStockRange) : bool :=
  OID (rg_requiredOid r) && OID (rg_packChecksum r) && is_safe (rg_start r) && is_safe (rg_end r) &&
  (0 <=? rg_start r) && (rg_start r <? rg_end r) && str_eq (rg_reason r) "required-object".

Definition rejection_bundle_valid (o : NativeReceiveOperation) (m : NativeReceiveOperationMetrics)
    : res bool :=
  match om_activeMetadataBundle m with
  | None => Ok true
  | Some bundle =>
    if js_length (native_activeCatalog o) =? 0 then Ok false else
    if negb (str_eq (bd_catalogFingerprint bundle) (catalogMetadataFingerprint (native_activeCatalog o)))
    then Ok false else
    match catalogMetadataBundleKey (native_activeCatalog o) with
    | Err e => Err e
    | Ok key => Ok (str_eq (bd_key bundle) key && (1 <=? default 0 (om_metadataRequests m)) &&
                    (bd_bytes bundle <=? default 0 (om_metadataBytes m)))
    end
  end.

Definition trailer_read_valid (r : NativeReceiveStockActivePackRead) : bool :=
  OID (rd_packChecksum r) && is_safe (rd_start r) && is_safe (rd_end r) && (0 <=? rd_start r) &&
  (rd_start r <? rd_end r) && (rd_returnedBytes r =? rd_end r - rd_start r).

(** The read is that of the range at the same position. *)
Definition read_of_range (read : NativeReceiveStockActivePackRead) (range : NativeReceiveStockRange) : bool :=
  str_eq (rd_packChecksum read) (rg_packChecksum range) && (rd_start read =? rg_start range) &&
  (rd_end read =? rg_end range) && (rd_returnedBytes read =? rg_end range - rg_start range) &&
  match rd_kind read with ReadRequired oid => str_eq oid (rg_requiredOid range) | _ => false end.

Fixpoint reads_of_ranges (reads : list NativeReceiveStockActivePackRead)
    (ranges : list NativeReceiveStockRange) : bool :=
  match reads, ranges with
  | [], [] => true
  | read :: reads, range :: ranges => read_of_range read range && reads_of_ranges reads ranges
  | _, _ => false
  end.

Definition rejection_reads_valid (m : NativeReceiveOperationMetrics) : bool :=
  let reads := default [] (om_activePackReads m) in
  let trailerReads := js_filter is_trailer reads in
  let requiredReads := js_filter is_required reads in
  js_every trailer_read_valid trailerReads &&
  reads_of_ranges requiredReads (default [] (om_ranges m)) &&
  is_val (om_activePackTrailerBytes m) (sum_bytes trailerReads) &&
  is_val (om_activePackTrailerRequests m) (js_length trailerReads) &&
  is_val (om_activePackRangeBytes m) (sum_bytes requiredReads) &&
  is_val (om_activePackRangeRequests m) (js_length requiredReads) &&
  same_num (om_rangeBytes m) (om_activePackRangeBytes m) &&
  same_num (om_rangeRequests m) (om_activePackRangeRequests m) &&
  is_val (om_packsTouched m) (js_length (js_unique (rd_packChecksum <$> requiredReads))).

(** A transient failure read nothing; a closure failure read some range. *)
Definition rejection_evidence (code : string) (m : NativeReceiveOperationMetrics) : bool :=
  if str_eq code "r2-transient" then
    is_val (om_metadataBytes m) 0 && is_val (om_metadataRequests m) 0 && is_val (om_inputBytesRead m) 0 &&
    is_val (om_inputRequests m) 0 && is_val (om_rangeBytes m) 0 && is_val (om_rangeRequests m) 0 &&
    (js_length (default [] (om_ranges m)) =? 0) && (js_length (default [] (om_activePackReads m)) =? 0) &&
    is_val (om_packsTouched m) 0 && is_val (om_selectedPackBytes m) 0
  else (0 <? default 0 (om_rangeRequests m)) && (0 <? default 0 (om_packsTouched m)).

Definition validPlannerRejectionMetrics (o : NativeReceiveOperation) (code : string)
    (metrics : option NativeReceiveOperationMetrics) : res bool :=
  match metrics with
  | None => Ok false
  | Some m =>
    if STOCK_PLANNER_REJECTION_METRICS_MAX_BYTES <? om_jsonBytes m then Ok false else
    if negb (js_every safe_count (metric_values m)) || negb (rejection_totals o m) ||
       negb (js_every rejection_range_valid (default [] (om_ranges m))) then Ok false else
    match rejection_bundle_valid o m with
    | Ok true => Ok (rejection_reads_valid m && rejection_evidence code m)
    | other => other
    end
  end.

(** [/^(?:stock-plan|stock-physical-plan|stock-data-plane):[a-z0-9-]{1,80}$/]. *)
Definition diagnostic_text (code : string) : bool :=
  let tail prefix := matches_all (fun c => is_lower c || is_digit c || (Text.code c =? 45)) 1 80
                       (unchars (drop (length (chars prefix)) (chars code))) in
  js_some (fun prefix => startsWith prefix code && tail prefix)
    ["stock-plan:"; "stock-physical-plan:"; "stock-data-plane:"]%string.

Definition diagnostic_valid (r : ExecutionRejection) : bool :=
  match rj_diagnosticCode r with
  | None => true
  | Some code => str_eq (rj_code r) "native-data-plane-failed" && diagnostic_text code
  end.

(** The code and the event of a rejection that is accepted. *)
Definition REJECTION_EVENTS : list (string * string) :=
  [("r2-transient", "r2-read-retryable");
   ("replacement-closure-invalid", "replacement-closure-rejected");
   ("output-integrity-invalid", "output-integrity-rejected");
   ("native-data-plane-failed", "worker-data-plane-rejected");
   ("finalize-rejected", "worker-data-plane-rejected")]%string.

(** What a rejection for output integrity must report. *)
Definition integrity_report (o : NativeReceiveOperation) (r : NativeReceiveProcessResult) : bool :=
  let within x bound := match x with Some v => is_safe v && (0 <? v) && (v <=? bound) | None => false end in
  str_eq (pr_operationId r) (native_id o) &&
  within (pr_outputValidationBytes r) (pr_packBytes r + pr_idxBytes r + pr_refsBytes r) &&
  within (pr_outputValidationRequests r) 3 && truthy_string (pr_outputIntegrityRejectedRole r) &&
  is_in (default "" (pr_outputIntegrityRejectedAt r)) ["body"; "head"]%string &&
  (pr_jsonBytes r <=? STOCK_PROCESSOR_RESULT_MAX_BYTES).

(** The first complaint about the proof a rejection carries; [None]: accepted. *)
Definition rejection_complaint (o : NativeReceiveOperation) (r : ExecutionRejection) : res (option string) :=
  let metrics_complaint :=
    if str_eq (rj_code r) "r2-transient" || str_eq (rj_code r) "replacement-closure-invalid" then
      match validPlannerRejectionMetrics o (rj_code r) (rj_metrics r) with
      | Ok true => Ok None
      | Ok false => Ok (Some "execution-rejection-metrics-invalid"%string)
      | Err e => Err e
      end
    else if bool_decide (is_Some (rj_metrics r))
    then Ok (Some "execution-rejection-metrics-unexpected"%string) else Ok None in
  if str_eq (rj_code r) "output-integrity-invalid" then
    match rj_processorResult r with
    | None => Ok (Some "execution-rejection-proof-invalid"%string)
    | Some p =>
      if negb (integrity_report o p) then Ok (Some "execution-rejection-proof-invalid"%string) else
      match validateStockReceivePreparedProof o p with
      | Ok true => metrics_complaint
      | Ok false => Ok (Some "execution-rejection-proof-invalid"%string)
      | Err e => Err e
      end
    end
  else if bool_decide (is_Some (rj_processorResult r))
  then Ok (Some "execution-rejection-proof-unexpected"%string) else metrics_complaint.

(** [{ ...operation, state: "failed", errorCode, processorResult, rejectionMetrics,
    cleanupPending: true, updatedAt }]. *)
Definition failed_operation (o : NativeReceiveOperation) (r : ExecutionRejection) (now : Z)
    : NativeReceiveOperation :=
  set_native_updatedAt now (set_native_cleanupPending true (set_native_rejectionMetrics (rj_metrics r)
    (set_native_processorResult (rj_processorResult r) (set_native_errorCode (Some (rj_code r))
      (set_native_state NrFailed o))))).

Definition rejection_events (o : NativeReceiveOperation) (r : ExecutionRejection) (phase : string)
    : list NativeReceiveEvidenceEvent :=
  mkEvent 0 phase None None None None (Some (default (rj_code r) (rj_diagnosticCode r))) ::
  (if truthy_string (rj_diagnosticCode r)
   then [mkEvent 0 (phase ++ "-attempt-" ++ pretty (native_attempts o)) None None None None
           (rj_diagnosticCode r)]
   else []).

Definition rejectStockReceiveExecutionState (executionToken : string)
    (rejection : ExecutionRejection + string) : DO RejectStockReceiveExecutionResult :=
  let supplied := supplied_rejection rejection in
  transaction (
    let! operation := operationByExecutionToken executionToken in
    match operation with
    | None => ret (RjRejected "operation-not-found")
    | Some o =>
      if isNativeReceiveTerminal (native_state o)
      then ret (RjReplayed (nativeReceiveOperationView o)) else
      if negb (is_state NrProcessing o) || negb (ostr_eq (native_claimId o) (Some executionToken))
      then ret (RjRejected "execution-claim-stale") else
      match AMap.lookup (rj_code supplied) REJECTION_EVENTS with
      | None => ret (RjRejected "execution-rejection-invalid")
      | Some phase =>
        if negb (diagnostic_valid supplied)
        then ret (RjRejected "execution-rejection-diagnostic-invalid") else
        let! complaint := of_res (rejection_complaint o supplied) in
        match complaint with
        | Some code => ret (RjRejected code)
        | None =>
          let! now := Date_now in
          let! failed := of_res (withEvidence (failed_operation o supplied now)
                                   (rejection_events o supplied phase)) in
          put_operation failed ;!
          drop_lease (native_leaseToken o) ;!
          ret (RjFailed (nativeReceiveOperationView failed))
        end
      end
    end).

Definition completeStockReceiveCleanupState (operationId fingerprint : string)
    : DO CompleteStockReceiveCleanupResult :=
  transaction (
    let! operation := get (native_of operationId) in
    match operation with
    | None => ret (CcRejected "cleanup-operation-not-found")
    | Some o =>
      if negb (str_eq (native_fingerprint o) fingerprint)
      then ret (CcRejected "cleanup-fingerprint-mismatch") else
      if negb (isNativeReceiveTerminal (native_state o))
      then ret (CcRejected ("cleanup-state-" ++ stateName (native_state o))) else
      let! now := Date_now in
      let cleaned := set_native_updatedAt now (set_native_cleanupPending false o) in
      put_operation cleaned ;!
      let! now := Date_now in
      armWake (now + 1000) ;!
      ret (CcComplete (nativeReceiveOperationView cleaned))
    end).
End Prepared.

(** ** Lemmas *)

Lemma respects_digesting `{Env} (I : Storage -> Prop) (R : Storage -> Storage -> Prop) `{!PreOrder R}
    {A} (r : res A) (Q : A -> Prop) :
  gate_respects I R -> (forall a, r = Ok a -> Q a) -> respects I R (digesting r) Q.
Proof.
  intros Hg HQ. unfold digesting.
  eapply (respects_bind _ _ _ _ (fun r' => r' = r)); preorder.
  - by apply respects_external; preorder.
  - intros ? ->. by apply respects_of_res; preorder.
Qed.

Lemma wp_try_finally {A} (m : DO A) f (Q : res A -> world -> Prop) w :
  wp m (fun r w' => match r with
    | Err Crash => Q r w'
    | _ => wp f (fun rf w'' => match rf with Ok _ => Q r w'' | Err e => Q (Err e) w'' end) w'
    end) w ->
  wp (try_finally m f) Q w.
Proof.
  unfold wp, try_finally, bind, try_catch, ret, throw. destruct (m w) as [[a|[msg|]] w']; simpl; try done.
  - by destruct (f w') as [[u|e] w''].
  - by destruct (f w') as [[u|e] w''].
Qed.

Lemma respects_try_finally I R `{!PreOrder R} {A} (m : DO A) f (Q : A -> Prop) :
  respects I R m Q -> respects I R f anything -> respects I R (try_finally m f) Q.
Proof.
  intros Hm Hf w Hw. destruct (Hm w Hw) as (H1 & H2 & H3).
  change (wp (try_finally m f) (fun r w' => I (st w') /\ R (st w) (st w') /\
    match r with Ok a => Q a | Err _ => True end) w).
  apply wp_try_finally. unfold wp at 1. destruct (m w) as [r w']. cbn [fst snd] in *.
  destruct (Hf w' H1) as (K1 & K2 & _). assert (R (st w) (st (f w').2)) as K3 by (by etrans).
  destruct r as [a|[msg|]]; [unfold wp | unfold wp | done]; destruct (f w') as [[u|e] w'']; by split_and!.
Qed.
