(* ===== verification/StockMachine.v ===== *)
(** * The life of a stock receive

    The states of a stored operation of [do/repo/stockReceiveAuthority.ts] as a
    machine: which operation may follow which under one identifier.  [None] is an
    identifier the ledger does not know.  That the handlers move only this way is
    proved with the invariant of the storage, in [StockAuthority]. *)
From S2P Require Import Prelude NativeTypes Storage Effects Text Activity AuthorityPlan StockReceive.

(** ** Definitions *)

(** The same push under the same claim. *)
Definition same_push (d o : NativeReceiveOperation) : Prop :=
  native_fingerprint o = native_fingerprint d /\ native_claimId o = native_claimId d.

Definition ended (o : NativeReceiveOperation) : Prop :=
  native_state o = NrAborted \/ native_state o = NrFailed.

(** What a stored operation satisfies: it is under its own name, has an error
    only if it ended without a commit, and a plan from the moment its ref moved. *)
Record operation_ok (id : string) (o : NativeReceiveOperation) : Prop := {
  oo_id : native_id o = id;
  oo_error : ~ ended o -> native_errorCode o = None;
  oo_plan : native_state o = NrFinalizing -> is_Some (native_publicationPlan o) }.

Inductive stock_step : option NativeReceiveOperation -> option NativeReceiveOperation -> Prop :=
  (** A new claim, on an unknown identifier or after a failure that may be retried. *)
  | step_admitted o : native_state o = NrProcessing -> stock_step None (Some o)
  | step_readmitted d o :
      native_fingerprint o = native_fingerprint d -> ended d -> native_cleanupPending d = false ->
      retryableFailure (native_errorCode d) = true ->
      native_state o = NrProcessing -> native_attempts o = native_attempts d + 1 ->
      stock_step (Some d) (Some o)
  (** The result is retained, the intent written ahead. *)
  | step_ready d o :
      same_push d o -> native_state d = NrProcessing \/ native_state d = NrReady ->
      native_state o = NrReady -> is_Some (native_processorResult o) ->
      stock_step (Some d) (Some o)
  (** The ref moved. *)
  | step_finalizing d o :
      same_push d o -> native_state d = NrReady -> native_state o = NrFinalizing ->
      is_Some (native_publicationPlan o) -> stock_step (Some d) (Some o)
  (** The publication is confirmed, the client may be answered. *)
  | step_committed d o :
      same_push d o -> native_state d = NrFinalizing -> native_state o = NrCommitted ->
      stock_step (Some d) (Some o)
  | step_acknowledged d o :
      same_push d o -> native_state d = NrCommitted -> native_state o = NrCommitted ->
      stock_step (Some d) (Some o)
  (** The push is refused, or its execution given up. *)
  | step_aborted d o :
      same_push d o -> native_state d = NrProcessing \/ native_state d = NrReady ->
      native_state o = NrAborted -> native_cleanupPending o = true -> stock_step (Some d) (Some o)
  | step_failed d o :
      same_push d o -> native_state d = NrProcessing ->
      native_state o = NrFailed -> native_cleanupPending o = true -> stock_step (Some d) (Some o)
  (** Its staged objects are gone, and the ledger may forget it. *)
  | step_cleaned d o :
      same_push d o -> isNativeReceiveTerminal (native_state d) = true ->
      native_state o = native_state d -> native_cleanupPending o = false -> stock_step (Some d) (Some o)
  | step_forgotten d : forgettable d = true -> stock_step (Some d) None.

(** A stored operation that a new claim may take over. *)
Record readmissible (o e : NativeReceiveOperation) : Prop := {
  ra_fingerprint : native_fingerprint o = native_fingerprint e;
  ra_settled : isNativeReceiveTerminal (native_state e) = true -> native_cleanupPending e = false;
  ra_code : retryableFailure (native_errorCode e) = true }.

(** The ledger lists every stored operation, each once, and at most 128 of them. *)
Record ledgered (operations : gmap string NativeReceiveOperation) (index : list string) : Prop := {
  lg_NoDup : NoDup index;
  lg_bound : (length index <= MAX_RETAINED_OPERATIONS)%nat;
  lg_listed : forall id o, operations !! id = Some o -> id ∈ index }.

Definition ledger (s : Storage) : list string := default [] (nativeReceiveOperationIndex s).

Definition ledger_ok (s : Storage) : Prop := ledgered (nativeReceiveOperations s) (ledger s).

(** Every stored operation moves as the machine allows. *)
Definition stock_evolves (s s' : Storage) : Prop := forall id, rtc stock_step (native_of id s) (native_of id s').

(** The push of [o] is published: its ref has moved, or the publication is even
    confirmed. *)
Definition published_push (o o' : NativeReceiveOperation) : Prop :=
  same_push o o' /\ (native_state o' = NrFinalizing \/ native_state o' = NrCommitted).

(** ** Lemmas *)

(** As there are no more operations than names for them, the ledger bounds them. *)
Lemma ledgered_size operations index :
  ledgered operations index -> (size operations <= MAX_RETAINED_OPERATIONS)%nat.
Proof.
  intros [Hnd Hb Hl]. rewrite <- size_dom. etrans; [|exact Hb].
  rewrite <- (size_list_to_set (C := gset string) index Hnd). apply subseteq_size.
  intros id Hid. apply elem_of_dom in Hid as [o Ho]. apply elem_of_list_to_set. by eapply Hl.
Qed.

#[export] Instance stock_evolves_preorder : PreOrder stock_evolves.
Proof.
  split.
  - intros s id. apply rtc_refl.
  - intros s1 s2 s3 H1 H2 id. etrans; [apply H1 | apply H2].
Qed.

Lemma same_push_refl o : same_push o o.
Proof. done. Qed.

Lemma same_push_trans a b c : same_push a b -> same_push b c -> same_push a c.
Proof. intros [] []. split; congruence. Qed.

(** From the moment its ref has moved, an operation is that push, finalizing or
    committed, until it is forgotten - as a committed push that was cleaned up. *)
Lemma published_steps (x y : option NativeReceiveOperation) :
  rtc stock_step x y -> forall o, x = Some o ->
  native_state o = NrFinalizing \/ native_state o = NrCommitted ->
  (exists o', y = Some o' /\ published_push o o') \/
  (exists c, published_push o c /\ native_state c = NrCommitted /\ native_cleanupPending c = false /\
             rtc stock_step None y).
Proof.
  induction 1 as [x|x y z Hxy Hyz IH]; intros o -> Ho.
  - left. exists o. split; [done|]. by split.
  - assert ((exists o', y = Some o' /\ published_push o o') \/
            (y = None /\ native_state o = NrCommitted /\ native_cleanupPending o = false)) as [(o' & -> & Hs & Ho')|(-> & Hc & Hp)].
    { inversion Hxy as [|d o' Hf [He|He]|d o' Hs [He|He]|d o' Hs He|d o' Hs He|d o' Hs He Ho'|d o' Hs [He|He]|d o' Hs He|d o' Hs Ht He|d Hf];
        subst; try (destruct Ho; congruence).
      - left. exists o'. split; [done|]. split; [done | by right].
      - left. exists o'. split; [done|]. split; [done | by right].
      - left. exists o'. split; [done|]. split; [done|]. by rewrite He.
      - right. unfold forgettable in Hf. apply andb_true_iff in Hf as [Ht Hp].
        apply negb_true_iff in Hp. split_and!; [done | | done]. destruct Ho as [Ho|Ho]; [|done].
        by rewrite Ho in Ht. }
    + destruct (IH o' eq_refl Ho') as [(o2 & -> & Hs2 & Ho2)|(c & [Hs2 Ho2] & Hc & Hp & Hr)].
      * left. exists o2. split; [done|]. split; [by eapply same_push_trans | done].
      * right. exists c. split; [split; [by eapply same_push_trans | done] | done].
    + right. exists o. by split_and!.
Qed.
