(* ===== verification/StockSafety.v ===== *)
(** * The publication of a stock receive is atomic

    What [finalizeStockReceiveState] may do to the refs: whatever fails, wherever
    the isolate disappears and whatever runs while digests are computed, either
    they stay as they are or the push of the operation is applied as a whole,
    together with the outcome and the operation that record it. *)
From S2P Require Import Prelude NativeTypes Storage Effects Text Keys Bytes Json StockProof.
From S2P Require Import AuthorityPlan RefUpdate Catalog Activity Gc AcceptedWrites Receive StockReceive.

(** ** Definitions *)

Definition refs_view (s : Storage) : option (list Ref) * option Head * option Z := (refs s, head s, refsVersion s).

(** Stored operations are under their own names, stored intents move the refs by
    one version. *)
Record sane (s : Storage) : Prop := {
  sn_own : forall id o, native_of id s = Some o -> native_id o = id;
  sn_intents : forall token i, receiveFinalizeIntents s !! token = Some i ->
    nextRefsVersion i = expectedRefsVersion i + 1 }.

(** The refs stay, and so does the request of every operation the claim owns. *)
Record quiet (claim : string) (s s' : Storage) : Prop := {
  qt_refs : refs_view s = refs_view s';
  qt_request : forall id o, native_of id s = Some o -> native_claimId o = Some claim ->
    exists o', native_of id s' = Some o' /\ native_claimId o' = Some claim /\
               native_commands o' = native_commands o }.

#[export] Instance quiet_preorder claim : PreOrder (quiet claim).
Proof.
  split.
  - intros s. split; [done|]. intros id o Ho Hc. by exists o.
  - intros s1 s2 s3 [H1 H2] [H3 H4]. split; [congruence|]. intros id o Ho Hc.
    destruct (H2 id o Ho Hc) as (o2 & Ho2 & Hc2 & E2), (H4 id o2 Ho2 Hc2) as (o3 & Ho3 & Hc3 & E3).
    exists o3. split_and!; [done | done | congruence].
Qed.

(** Everything [sane] and [quiet] speak about. *)
Definition push_view (s : Storage) := (refs_view s, receiveFinalizeIntents s, nativeReceiveOperations s).

(** The push of the operation [o] took the storage [s] to [s']. *)
Record pushed (claim : string) (s s' : Storage) (o : NativeReceiveOperation) : Prop := {
  pd_stored : native_of (native_id o) s' = Some o;
  pd_claim : native_claimId o = Some claim;
  pd_state : native_state o = NrFinalizing;
  pd_plan : is_Some (native_publicationPlan o);
  pd_accepted : js_every status_ok (validateReceiveCommands (default [] (refs s)) (native_commands o)) = true;
  pd_refs : refs s' = Some (applyReceiveCommands (default [] (refs s)) (native_commands o));
  pd_version : refsVersion s' = Some (default 0 (refsVersion s) + 1);
  pd_outcome : exists outcome, receiveOutcomes s' !! native_leaseToken o = Some outcome /\
    outcome_token outcome = native_leaseToken o /\ outcome_changed outcome = true }.

(** ** Lemmas *)

Lemma push_view_step claim s s' : sane s -> push_view s' = push_view s -> sane s' /\ quiet claim s s'.
Proof.
  intros [H1 H2] E. unfold push_view in E. injection E as E1 E2 E3 E4 E5.
  split; split; unfold native_of, refs_view in *; rewrite ?E1, ?E2, ?E3, ?E4, ?E5; try done.
  intros id o Ho Hc. by exists o.
Qed.

(** An operation is overwritten by one with the same name, claim and request. *)
Lemma put_operation_step claim s o :
  sane s ->
  (forall d, native_of (native_id o) s = Some d -> native_claimId d = Some claim ->
     native_claimId o = Some claim /\ native_commands o = native_commands d) ->
  let s' := set_nativeReceiveOperations (<[native_id o := o]> (nativeReceiveOperations s)) s in
  sane s' /\ quiet claim s s'.
Proof.
  intros [H1 H2] Ho s'. subst s'. split; split; unfold native_of in *; simpl in *; try done.
  - intros id x Hx. destruct (decide (id = native_id o)) as [->|Hne].
    + rewrite lookup_insert_eq in Hx. by injection Hx as <-.
    + rewrite lookup_insert_ne in Hx by done. auto.
  - intros id x Hx Hc. destruct (decide (id = native_id o)) as [->|Hne].
    + rewrite lookup_insert_eq. destruct (Ho x Hx Hc) as [? ?]. exists o. auto.
    + rewrite lookup_insert_ne by done. exists x. auto.
Qed.

Lemma withEvidence_request o additions o' :
  withEvidence o additions = Ok o' ->
  exists events, o' = set_native_events (Some events) o.
Proof.
  unfold withEvidence. destruct (add_events _ _) as [events|]; [|done]. intros [= <-]. by exists events.
Qed.

Section Quiet.
Context `{Env} (claim : string).

Local Abbreviation quietly m := (respects sane (quiet claim) m anything).

(** The next step of a handler that writes nothing [sane] or [quiet] sees. *)
Ltac quiets :=
  respect;
  try lazymatch goal with
  | |- sane _ /\ quiet _ ?s _ => first [apply push_view_step; [assumption | reflexivity] | idtac]
  end; try done.

Lemma quiet_armWake t : quietly (armWake t).
Proof. unfold armWake. quiets. Qed.

Lemma quiet_drop_lease token : quietly (drop_lease token).
Proof. unfold drop_lease. quiets. Qed.

Lemma quiet_mark t : quietly (markCompactionActivity t).
Proof. unfold markCompactionActivity. quiets. Qed.
Hint Resolve quiet_armWake quiet_drop_lease quiet_mark : respects.

Lemma quiet_upsert row : quietly (upsertPackCatalogRow row).
Proof. unfold upsertPackCatalogRow, sql. quiets. Qed.
Hint Resolve quiet_upsert : respects.

(** A transaction that rewrites one operation it has just read. *)
Ltac rewrites_operation :=
  intros [s n] Hs; cbn [st] in *; unfold put_operation, drop_lease, armWake;
  wp_run; cbn [st bump] in *; try done; try (by split_and!; [done | reflexivity | done]).

Lemma wp_tail {A} (m : DO A) (P : A -> Prop) (Q : res A -> world -> Prop) w s :
  sane (st w) -> quiet claim s (st w) -> respects sane (quiet claim) m P ->
  (forall a w', sane (st w') -> quiet claim s (st w') -> P a -> Q (Ok a) w') ->
  (forall e w', sane (st w') -> quiet claim s (st w') -> Q (Err e) w') ->
  wp m Q w.
Proof.
  intros Hs Hq Hm HQ HE. destruct (Hm w Hs) as (H1 & H2 & H3). unfold wp.
  destruct (m w) as [[a|e] w']; simpl in *; [apply HQ | apply HE]; try done; by etrans.
Qed.

Lemma quiet_reject o code phase expected c :
  quietly (rejectReadyStockAuthority o code phase expected c).
Proof.
  unfold rejectReadyStockAuthority.
  eapply (respects_bind _ _ _ _ anything); preorder.
  - apply respects_atomic; preorder. intros [s n] Hs. apply wp_bind, wp_get. cbn [st].
    destruct (native_of (native_id o) s) as [d|] eqn:Ed; [|by apply wp_ret; split_and!].
    destruct (_ || _); [by apply wp_ret; split_and!|].
    apply wp_bind, wp_now, wp_bind, wp_of_res. cbn [st bump].
    destruct (withEvidence _ _) as [rejected|] eqn:Er; [|done].
    apply wp_bind, wp_put; [done|]. intros _.
    destruct (withEvidence_request _ _ _ Er) as [events ->].
    pose proof (sn_own _ Hs _ _ Ed) as Eid.
    destruct (put_operation_step claim s (set_native_events (Some events) (aborted code (env_now n) d)) Hs)
      as [H1 H2].
    { simpl. rewrite Eid, Ed. intros ? [= <-] Hc. by split. }
    apply wp_bind. eapply wp_tail; [exact H1 | exact H2 | apply quiet_drop_lease | | done].
    intros [] w' Hs' Hq' _. by apply wp_ret; split_and!.
  - intros b _. unfold publication_or. quiets.
Qed.

Lemma quiet_reject_ready o code phase : quietly (reject_ready o code phase).
Proof. apply quiet_reject. Qed.
Hint Resolve quiet_reject quiet_reject_ready : respects.

Lemma quiet_disposition o : quietly (finalizedDisposition o).
Proof. unfold finalizedDisposition. quiets. Qed.
Hint Resolve quiet_disposition : respects.

(** *** With an operation that the claim owns *)

(** What is stored under the name of [o] is the claimed operation in some state. *)
Definition owned (o : NativeReceiveOperation) (s : Storage) : Prop :=
  native_claimId o = Some claim /\
  exists d, native_of (native_id o) s = Some d /\ native_claimId d = Some claim /\
            native_commands d = native_commands o.

Definition steady (o : NativeReceiveOperation) (s : Storage) : Prop := sane s /\ owned o s.

Lemma owned_quiet o s s' : owned o s -> quiet claim s s' -> owned o s'.
Proof.
  intros [Hc (d & Hd & Hcd & Er)] Hq. split; [done|].
  destruct (qt_request _ _ _ Hq _ _ Hd Hcd) as (d' & Hd' & Hcd' & Er').
  exists d'. split_and!; [done | done | congruence].
Qed.

Lemma owned_same o o' s :
  owned o s -> native_id o' = native_id o -> native_claimId o' = native_claimId o ->
  native_commands o' = native_commands o -> owned o' s.
Proof. unfold owned. intros H1 -> -> ->. done. Qed.

Lemma steady_of {A} o (m : DO A) Q :
  respects sane (quiet claim) m Q -> respects (steady o) (quiet claim) m Q.
Proof.
  intros Hm w [Hs Ho]. destruct (Hm w Hs) as (H1 & H2 & H3).
  split_and!; [split; [done | by eapply owned_quiet] | done | done].
Qed.

Lemma steady_step o s s' : steady o s -> sane s' /\ quiet claim s s' -> steady o s' /\ quiet claim s s'.
Proof. intros [Hs Ho] [H1 H2]. split; [split; [done | by eapply owned_quiet] | done]. Qed.

Lemma put_owned_step o o' s :
  steady o s -> native_id o' = native_id o -> native_claimId o' = native_claimId o ->
  native_commands o' = native_commands o ->
  let s' := set_nativeReceiveOperations (<[native_id o' := o']> (nativeReceiveOperations s)) s in
  steady o s' /\ quiet claim s s'.
Proof.
  intros [Hs Ho] Ei Ec Er. apply steady_step; [by split|]. apply put_operation_step; [done|]. rewrite Ei.
  destruct Ho as [Hc (d & Hd & Hcd & Ed)]. intros x Hx _. assert (x = d) as -> by congruence.
  split; congruence.
Qed.

Local Abbreviation steadily o m := (respects (steady o) (quiet claim) m anything).

Ltac steadies :=
  respect;
  try lazymatch goal with
  | |- steady _ _ /\ quiet _ ?s _ =>
    match goal with Hs : steady _ s |- _ =>
      first [apply steady_step; [exact Hs | apply push_view_step; [apply Hs | reflexivity]] | idtac] end
  | |- respects (steady _) _ _ _ => apply steady_of; solve [eauto with respects]
  end; try done.

Lemma steady_put o o' :
  native_id o' = native_id o -> native_claimId o' = native_claimId o ->
  native_commands o' = native_commands o -> steadily o (put_operation o').
Proof.
  intros Ei Ec Er. apply respects_put; preorder; [|done]. intros s Hs. by apply put_owned_step.
Qed.

Lemma steady_conflict o : steadily o (stock_conflict o).
Proof.
  unfold stock_conflict. respect_step; [by apply respects_now; preorder|].
  apply respects_res_bind; preorder. intros rejected Er.
  destruct (withEvidence_request _ _ _ Er) as [events ->].
  eapply (respects_bind _ _ _ _ anything); preorder; [|intros b _; steadies].
  apply respects_transaction; preorder. apply respects_get_bind; preorder. intros s Hs.
  destruct (negb _); [by apply respects_ret; preorder|].
  eapply (respects_bind _ _ _ _ anything); preorder; [by apply steady_put|]. intros _ _.
  eapply (respects_bind _ _ _ _ anything); preorder; [apply steady_of, quiet_drop_lease|]. intros _ _.
  by apply respects_ret; preorder.
Qed.

Lemma steady_read o s d :
  steady o s -> native_of (native_id o) s = Some d -> native_id d = native_id o /\ steady d s.
Proof.
  intros [Hs [Hc (x & Hx & Hcx & Ex)]] Hd. assert (x = d) as -> by congruence.
  pose proof (sn_own _ Hs _ _ Hd) as Ei. split; [done|]. split; [done|]. split; [done|].
  exists d. by rewrite Ei.
Qed.

Lemma by_execution_steady o s : sane s -> by_execution claim s = Some o -> steady o s.
Proof.
  intros Hs Ho. apply js_find_some in Ho as [Hin Hc]. to_prop.
  unfold indexed_natives in Hin. apply list_elem_of_omap in Hin as (id & _ & Hid).
  split; [done|]. split; [done|]. exists o. by rewrite (sn_own _ Hs id o Hid).
Qed.

Section Gate.
Context (Hg : gate_respects sane (quiet claim)).

Lemma quiet_digesting {A} (r : res A) : quietly (digesting r).
Proof. by apply respects_digesting; preorder. Qed.
Hint Resolve quiet_digesting : respects.

Lemma steady_digesting {A} o (r : res A) : steadily o (digesting r).
Proof. apply steady_of, quiet_digesting. Qed.

(** A claimed operation that was just read is owned from there on. *)
Lemma quiet_found {A} (k : option NativeReceiveOperation -> DO A) Q :
  respects sane (quiet claim) (k None) Q ->
  (forall o, native_claimId o = Some claim -> respects (steady o) (quiet claim) (k (Some o)) Q) ->
  respects sane (quiet claim) (let! o := operationByExecutionToken claim in k o) Q.
Proof.
  intros Hn Hk [s n] Hs. change (bind _ _ _) with (k (by_execution claim s) (World s n)). cbn [st] in *.
  destruct (by_execution claim s) as [o|] eqn:Eo; [|by apply Hn].
  pose proof (by_execution_steady o s Hs Eo) as Ho.
  destruct (Hk o (proj1 (proj2 Ho)) (World s n) Ho) as (H1 & H2 & H3). split_and!; [apply H1 | done | done].
Qed.

Lemma quiet_retain p : quietly (retainPreparedStockReceiveState claim p).
Proof.
  unfold retainPreparedStockReceiveState. destruct p as [p|]; [|by apply respects_ret; preorder].
  apply quiet_found; [by apply respects_ret; preorder|]. intros o _.
  destruct (negb _); [by apply respects_ret; preorder|].
  eapply (respects_bind _ _ _ _ anything); preorder; [apply steady_digesting|]. intros ok _.
  destruct (negb ok); [by apply respects_ret; preorder|].
  apply respects_atomic; preorder. intros [s n] Hs. apply wp_bind, wp_get. cbn [st].
  destruct (native_of (native_id o) s) as [d|] eqn:Ed; [|by apply wp_ret; split_and!].
  destruct (negb _); [by apply wp_ret; split_and!|].
  apply wp_bind, wp_now, wp_bind, wp_put; [done|]. intros _. cbn [st bump].
  destruct (steady_read o s d Hs Ed) as [Ei Hd].
  destruct (put_owned_step d (retained_ready (prep_result p) (env_now n) d) s Hd) as [H1 H2]; [done..|].
  eapply wp_tail; [apply H1 | exact H2 | apply quiet_armWake | | done].
  intros [] w' Hs' Hq' _. split_and!; [split; [done|] | done | done].
  eapply owned_quiet; [apply Hs | done].
Qed.

Lemma quiet_acquire now : quietly (acquire_publication claim now).
Proof. unfold acquire_publication, operationByExecutionToken. quiets. Qed.

Lemma quiet_release a b : quietly (release_publication a b).
Proof. unfold release_publication. quiets. Qed.
Hint Resolve quiet_acquire quiet_release : respects.

Lemma prepared_state o p :
  respects sane (quiet claim) (stock_prepared o p) (fun r => match r with
    | inr _ => native_state o = NrReady \/ native_state o = NrProcessing | inl _ => True end).
Proof.
  unfold stock_prepared, is_state. destruct (bool_decide (_ = NrReady)) eqn:E1; to_prop.
  - destruct (native_processorResult o); [|by apply respects_ret; preorder].
    eapply (respects_bind _ _ _ _ anything); preorder; [apply quiet_digesting|].
    intros [|] _; by apply respects_ret; preorder; try left.
  - destruct (bool_decide (_ = NrProcessing)) eqn:E2; to_prop; [|by apply respects_ret; preorder].
    destruct p; [|by apply respects_ret; preorder].
    eapply (respects_bind _ _ _ _ anything); preorder; [apply quiet_digesting|].
    intros [|] _; by apply respects_ret; preorder; try right.
Qed.

(** *** The write-ahead step *)

Lemma step_stock_intent s o i :
  steady o s -> nextRefsVersion i = expectedRefsVersion i + 1 ->
  steady o (set_receiveFinalizeIntents (<[native_leaseToken o := i]> (receiveFinalizeIntents s)) s) /\
  quiet claim s (set_receiveFinalizeIntents (<[native_leaseToken o := i]> (receiveFinalizeIntents s)) s).
Proof.
  intros [[H1 H2] Ho] Hi. split; [split; [split|]|split]; try done.
  - intros token j. simpl. destruct (decide (token = native_leaseToken o)) as [->|Hne].
    + rewrite lookup_insert_eq. by intros [= <-].
    + rewrite lookup_insert_ne by done. apply H2.
  - intros id x Hx Hc. exists x. auto.
Qed.

Lemma steady_write_ahead o expected i b :
  nextRefsVersion i = expectedRefsVersion i + 1 -> steadily o (write_ahead o expected i b).
Proof.
  intros Hi. unfold write_ahead. apply respects_transaction; preorder.
  apply respects_get_bind; preorder. intros s Hs. apply respects_get_bind; preorder. intros s2 _.
  destruct (_ || _); [by apply respects_ret; preorder|].
  eapply (respects_bind _ _ _ _ anything); preorder.
  { apply respects_put; preorder; [|done]. intros s3 Hs3. by apply step_stock_intent. }
  intros _ _. eapply (respects_bind _ _ _ _ anything); preorder; [by apply steady_put|]. intros _ _.
  eapply (respects_bind _ _ _ _ anything); preorder; [by apply respects_now; preorder|]. intros t _.
  eapply (respects_bind _ _ _ _ anything); preorder; [apply steady_of, quiet_armWake|]. intros _ _.
  by apply respects_ret; preorder.
Qed.

(** The work belongs to the claimed operation [o], is ready, and its intent moves
    the refs by one version. *)
Record fits (o : NativeReceiveOperation) (w : Work) : Prop := {
  ft_claim : native_claimId (wk_operation w) = Some claim;
  ft_commands : native_commands (wk_operation w) = native_commands o;
  ft_state : native_state (wk_operation w) = NrReady;
  ft_intent : forall i, wk_intent w = Some i -> nextRefsVersion i = expectedRefsVersion i + 1 }.

Definition fits_or_answers (o : NativeReceiveOperation) (r : FinalizeStockReceiveResult + Work) : Prop :=
  match r with inl _ => True | inr w => fits o w end.

Lemma respects_learn {A B} (I : Storage -> Prop) R `{!PreOrder R} (field : Storage -> A) (k : A -> DO B) Q :
  (forall s, I s -> exists J : Storage -> Prop, J s /\ (forall s', J s' -> I s') /\
     respects J R (k (field s)) Q) ->
  respects I R (bind (get field) k) Q.
Proof.
  intros Hk w Hw. destruct (Hk (st w) Hw) as (J & Hj & HJ & Hm).
  destruct (Hm w Hj) as (H1 & H2 & H3). change (bind (get field) k w) with (k (field (st w)) w).
  split_and!; auto.
Qed.

Lemma steady_winner o w :
  native_id (wk_operation w) = native_id o -> respects (steady o) (quiet claim) (resume_winner w) (fits_or_answers o).
Proof.
  unfold resume_winner. intros -> [s n] Hs. cbn [st] in *.
  assert (forall A (m : DO A) (Q : A -> Prop), respects (steady o) (quiet claim) m Q ->
    steady o (st (m (World s n)).2) /\ quiet claim s (st (m (World s n)).2) /\
    match (m (World s n)).1 with Ok a => Q a | Err _ => True end) as Hrun by (intros A m Q Hm; by apply Hm).
  match goal with |- context [bind ?g ?k ?w] => change (bind g k w) with (k (native_of (native_id o) s) w) end.
  apply Hrun. destruct (native_of (native_id o) s) as [c|] eqn:Ec.
  - destruct (steady_read o s c Hs Ec) as [Ei Hc].
    assert (native_claimId c = Some claim /\ native_commands c = native_commands o) as [Hcc Hcr].
    { destruct Hs as [_ [_ (x & Hx & Hcx & Ex)]]. assert (x = c) as -> by congruence. done. }
    cbn [mbind option_bind]. destruct (negb _); [by apply respects_ret; preorder|].
    eapply (respects_bind _ _ _ _ anything); preorder; [apply steady_of, quiet_disposition|].
    intros [d|] _; [by apply respects_ret; preorder|].
    destruct (is_state NrReady c) eqn:Er; [|by destruct (native_processorResult c), (native_publicationPlan c); apply respects_ret; preorder].
    destruct (native_processorResult c); [|by apply respects_ret; preorder].
    destruct (native_publicationPlan c); [|by apply respects_ret; preorder].
    apply respects_get_bind; preorder. intros s1 [Hs1 _].
    apply respects_get_bind; preorder. intros s2 _.
    apply respects_ret; preorder. unfold is_state in Er. to_prop.
    split; simpl; [done | done | done |]. intros i Hi. by eapply sn_intents.
  - destruct Hs as [_ [_ (x & Hx & _)]]. congruence.
Qed.

Lemma steady_wal o w b :
  wk_operation w = o -> native_claimId o = Some claim ->
  respects (steady o) (quiet claim) (stock_wal w b) (fits_or_answers o).
Proof.
  intros <- Hc. unfold stock_wal. apply respects_get_bind; preorder. intros s _.
  destruct (acceptedWriteContext _) as [context|]; [|apply respects_throw; preorder].
  eapply (respects_bind _ _ _ _ anything); preorder; [by apply respects_now; preorder|]. intros t1 _.
  eapply (respects_bind _ _ _ _ anything); preorder; [by apply respects_now; preorder|]. intros t2 _.
  eapply (respects_bind _ _ _ _ anything); preorder; [apply steady_digesting|]. intros plan _.
  eapply (respects_bind _ _ _ _ anything); preorder; [by apply respects_now; preorder|]. intros t3 _.
  apply respects_res_bind; preorder. intros ready Er. destruct (withEvidence_request _ _ _ Er) as [events ->].
  set (ready := set_native_events _ _).
  assert (forall A (m : DO A) (Q : A -> Prop), respects (steady ready) (quiet claim) m Q ->
    respects (steady (wk_operation w)) (quiet claim) m Q) as Hready.
  { intros A m Q Hm w' [H1 H2]. destruct (Hm w') as ([H3 H4] & H5 & H6).
    { split; [done|]. by eapply owned_same. }
    split_and!; [split; [done|] | done | done]. by eapply owned_same. }
  apply Hready. eapply (respects_bind _ _ _ _ anything); preorder; [by apply steady_write_ahead|].
  intros [|] _.
  - apply respects_ret; preorder. split; simpl; [done | done | done |]. by intros i [= <-].
  - eapply respects_weaken; [by apply steady_winner|]. intros [r|w']; [done|]. by intros [].
Qed.

(** *** The compare-and-swap *)

Definition recorded (s : Storage) :=
  (refs_view s, nativeReceiveOperations s, receiveOutcomes s, receiveFinalizeIntents s).

(** What a successful transaction leaves. *)
Record committed (o : NativeReceiveOperation) (wk : Work) (i : ReceiveFinalizeIntent) (b : Basis)
    (f : NativeReceiveOperation) (queue : bool) (s s' : Storage) : Prop := {
  cm_holds : cas_holds s o i b = true;
  cm_refs : refs_view s' = (Some (bs_nextRefs b), Some (nextHead i), Some (nextRefsVersion i));
  cm_natives : nativeReceiveOperations s' = <[native_id f := f]> (nativeReceiveOperations s);
  cm_outcomes : receiveOutcomes s' = <[native_leaseToken o := stock_outcome o wk b queue]> (receiveOutcomes s);
  cm_intents : receiveFinalizeIntents s' = receiveFinalizeIntents s }.

Lemma framed_advance a b c d e : framed recorded (advanceGcReceiveVersions a b c d e).
Proof. unfold advanceGcReceiveVersions. frames. Qed.

Lemma framed_record sequence facts t journal pin :
  framed recorded (recordAcceptedWrites sequence facts t journal pin).
Proof.
  pose proof (recordAcceptedWrites_authority sequence facts t journal pin) as Hm. intros w Hw.
  destruct (Hm w Hw) as (H1 & H2 & H3). split_and!; [done | | done].
  unfold frame, authority, recorded, refs_view in *. congruence.
Qed.

Lemma wp_stock_commit o wk i b f queue t (Q : res bool -> world -> Prop) w :
  (forall e n, Q (Err e) (World (st w) n)) -> (forall n, Q (Ok false) (World (st w) n)) ->
  (forall s n, committed o wk i b f queue (st w) s -> Q (Ok true) (World s n)) ->
  wp (stock_commit o wk i b f queue t) Q w.
Proof.
  intros Herr Hno Hok. unfold stock_commit. apply wp_transaction, wp_bind, wp_get.
  destruct (cas_holds (st w) o i b) eqn:Ecas; cbn [negb]; [|destruct w; apply wp_ret, Hno].
  do 3 (apply wp_bind, wp_put; [intros; apply Herr | intros _; cbn [st]]).
  apply wp_bind.
  eapply (wp_framed recorded); [destruct (bs_stagedPack b); frames|].
  intros [[]|e] w1 E1; [|apply Herr]. apply wp_bind, wp_get, wp_bind.
  eapply wp_framed; [apply framed_advance|]. intros [[]|e] w2 E2; [|apply Herr]. apply wp_bind.
  eapply wp_framed; [apply framed_record|]. intros [kept|e] w3 E3; [|apply Herr].
  apply wp_bind, wp_put; [intros; apply Herr | intros _; cbn [st]].
  apply wp_bind, wp_put; [intros; apply Herr | intros _; cbn [st]].
  apply wp_bind. eapply (wp_framed recorded); [unfold drop_lease; frames|].
  intros [[]|e] w4 E4; [|apply Herr]. apply wp_bind.
  eapply (wp_framed recorded); [destruct queue; [unfold markCompactionActivity; frames | by apply respects_ret; preorder]|].
  intros [[]|e] w5 E5; [|apply Herr]. apply wp_bind.
  eapply (wp_framed recorded); [unfold armWake; frames|].
  intros [[]|e] [s6 n6] E6; [|apply Herr]. apply wp_ret, Hok. cbn [st bump] in *.
  unfold recorded, refs_view in *. simpl in *. split; [done|..]; unfold refs_view; congruence.
Qed.

Definition answers_pending (r : res FinalizeStockReceiveResult) : Prop :=
  match r with Ok (FsPublicationPending _ _ _) | Err _ => True | _ => False end.

(** How a finalization ends: nothing moved, or the push is applied. *)
Definition settled (s : Storage) (r : res FinalizeStockReceiveResult) (w : world) : Prop :=
  (sane (st w) /\ quiet claim s (st w)) \/
  ((exists o, pushed claim s (st w) o) /\ answers_pending r).

Lemma wp_settled (m : DO FinalizeStockReceiveResult) s w :
  sane (st w) -> quiet claim s (st w) -> quietly m -> wp m (settled s) w.
Proof.
  intros Hs Hq Hm. destruct (Hm w Hs) as (H1 & H2 & _). left. split; [done | by etrans].
Qed.

Lemma wp_steady {A} (m : DO A) o s (P : A -> Prop) (Q : res A -> world -> Prop) w :
  steady o (st w) -> quiet claim s (st w) -> respects (steady o) (quiet claim) m P ->
  (forall a w', steady o (st w') -> quiet claim s (st w') -> P a -> Q (Ok a) w') ->
  (forall e w', sane (st w') /\ quiet claim s (st w') -> Q (Err e) w') ->
  wp m Q w.
Proof.
  intros Hs Hq Hm HQ HE. destruct (Hm w Hs) as (H1 & H2 & H3). unfold wp.
  assert (quiet claim s (st (m w).2)) as Hq' by (by etrans).
  destruct (m w) as [[a|e] w']; simpl in *; [by apply HQ | apply HE; by split; [apply H1|]].
Qed.

(** The push that a committed transaction applied. *)
Lemma committed_pushed o wk i b f queue s0 s s' :
  quiet claim s0 s -> fits o wk ->
  native_id f = native_id (wk_operation wk) -> native_claimId f = native_claimId (wk_operation wk) ->
  native_commands f = native_commands (wk_operation wk) ->
  native_leaseToken f = native_leaseToken (wk_operation wk) ->
  native_state f = NrFinalizing -> is_Some (native_publicationPlan f) ->
  wk_intent wk = Some i -> expectedRefsVersion i = bs_refsVersion b ->
  bs_nextRefs b = applyReceiveCommands (default [] (refs s0)) (native_commands o) ->
  committed (wk_operation wk) wk i b f queue s s' -> pushed claim s0 s' f.
Proof.
  intros Hq Hf Ei Ec Er El Es Ep Hi Hv Hb Hc. pose proof (qt_refs _ _ _ Hq) as Erv.
  unfold refs_view in Erv. injection Erv as E1 E2 E3. destruct Hc as [Hcas Hrefs Hnat Hout _].
  injection Hrefs as Hr Hh Hn. unfold cas_holds in Hcas.
  destruct (native_of (native_id (wk_operation wk)) s) as [d|] eqn:Ed; [|done].
  destruct (receiveFinalizeIntents s !! _) as [j|]; [|done].
  apply andb_true_iff in Hcas as [[[Hsame _]%andb_true_iff Hver]%andb_true_iff Hok].
  apply Z.eqb_eq in Hver. pose proof (ft_commands _ _ Hf) as Efc. pose proof (ft_intent _ _ Hf i Hi) as Hin.
  split; try done.
  - unfold native_of. by rewrite Hnat, lookup_insert_eq.
  - rewrite Ec. apply Hf.
  - by rewrite Er, E1.
  - by rewrite Hr, Hb, Er, Efc.
  - rewrite Hn, Hin, Hv, E3. f_equal. lia.
  - rewrite El, Hout, lookup_insert_eq. eexists. split; [done|]. done.
Qed.

Lemma wp_publish o wk b s0 w :
  steady o (st w) -> quiet claim s0 (st w) -> fits o wk ->
  bs_nextRefs b = applyReceiveCommands (default [] (refs s0)) (native_commands o) ->
  wp (stock_publish wk b) (settled s0) w.
Proof.
  intros Hs Hq Hf Hb. unfold stock_publish.
  assert (quietly (ret (FsRejected "finalize-state-invalid" None))) as Hret by (by apply respects_ret; preorder).
  destruct (wk_intent wk) as [i|] eqn:Ei; [|by apply wp_settled; [apply Hs|..]].
  destruct (wk_plan wk) as [plan|] eqn:Ep; [|by apply wp_settled; [apply Hs|..]].
  destruct (is_state NrReady (wk_operation wk) && _) eqn:E1;
    [apply wp_settled; [apply Hs | done | apply quiet_reject_ready]|].
  assert (expectedRefsVersion i = bs_refsVersion b) as Hv.
  { unfold is_state in E1. rewrite (bool_decide_true _ (ft_state _ _ Hf)) in E1. simpl in E1.
    apply negb_false_iff, Z.eqb_eq in E1. done. }
  destruct (negb (bs_refOnly b) && _); [apply wp_settled; [apply Hs | done | apply quiet_reject_ready]|].
  apply wp_bind, wp_get. destruct (catalog_conflict _ _ _);
    [apply wp_settled; [apply Hs | done | apply quiet_reject_ready]|].
  apply wp_bind. eapply (wp_steady _ o s0 anything); [exact Hs | exact Hq | apply steady_of | | by intros; left].
  { repeat case_match; try (by apply respects_ret; preorder).
    respect_step; [by apply respects_now; preorder|]. apply quiet_upsert. }
  intros [] w1 Hs1 Hq1 _. apply wp_bind, wp_get, wp_bind, wp_now, wp_bind, wp_of_res. cbn [st bump].
  destruct (withEvidence _ _) as [f|e] eqn:Ef; [|left; split; [apply Hs1 | done]].
  destruct (withEvidence_request _ _ _ Ef) as [events ->].
  apply wp_bind. apply wp_stock_commit.
  - intros e n. left. split; [apply Hs1 | done].
  - intros n. apply wp_settled; [apply Hs1 | done |]. unfold publication_or. quiets.
  - intros s n Hc. cbn [st bump] in *. apply wp_bind, wp_of_res.
    assert (pushed claim s0 s (set_native_events (Some events) (finalizing_operation (wk_operation wk) wk plan b (env_now (tick w1)))))
      as Hp.
    { eapply committed_pushed; try exact Hc; done. }
    destruct (cleanupDescriptor _); [apply wp_ret|]; right; by split; [eexists|].
Qed.

(** *** The whole finalization *)

Lemma wp_found (k : option NativeReceiveOperation -> DO FinalizeStockReceiveResult) s0 w :
  sane (st w) -> quiet claim s0 (st w) -> quietly (k None) ->
  (forall o, steady o (st w) -> native_claimId o = Some claim -> wp (k (Some o)) (settled s0) w) ->
  wp (let! o := operationByExecutionToken claim in k o) (settled s0) w.
Proof.
  intros Hs Hq Hn Hk. apply wp_bind, wp_get. destruct (by_execution claim (st w)) as [o|] eqn:Eo.
  - pose proof (by_execution_steady o (st w) Hs Eo) as Ho. apply Hk; [done | apply Ho].
  - by apply wp_settled.
Qed.

Lemma wp_leased p s0 w :
  sane (st w) -> quiet claim s0 (st w) ->
  wp (finalizeStockReceiveWithPublicationLease claim p) (settled s0) w.
Proof.
  intros Hs Hq. unfold finalizeStockReceiveWithPublicationLease.
  apply wp_found; [done | done | by apply respects_ret; preorder|]. intros o Ho Hc.
  assert (forall m, wp m (settled s0) w -> wp (publication_or (Some o) m) (settled s0) w) as Hpub.
  { intros m Hm. unfold publication_or. destruct (pending_publication o); [apply wp_settled; [done | done | quiets]|].
    destruct (is_state NrCommitted o); [apply wp_settled; [done | done | quiets] | done]. }
  apply Hpub. destruct (negb _); [apply wp_settled; [done | done | quiets]|].
  apply wp_bind, wp_get, wp_bind. eapply (wp_steady _ o s0 (fun r => match r with
    | inr _ => native_state o = NrReady \/ native_state o = NrProcessing | inl _ => True end));
    [done | done | apply steady_of, prepared_state | | by intros; left].
  intros [r|r] w1 Hs1 Hq1 Hst; [by left; split; [apply Hs1|]|].
  destruct (negb _).
  { destruct (steady_conflict o w1 Hs1) as (H1 & H2 & _). left. split; [apply H1 | by etrans]. }
  apply wp_bind, wp_get, wp_bind, wp_get, wp_bind.
  set (b := stock_basis _ o r (st w1)). set (wk := mkWork o r _ _ _).
  assert (bs_nextRefs b = applyReceiveCommands (default [] (refs s0)) (native_commands o)) as Hb.
  { unfold b, stock_basis. cbn [bs_nextRefs]. pose proof (qt_refs _ _ _ Hq) as E. unfold refs_view in E.
    injection E as -> _ _. done. }
  eapply (wp_steady _ o s0 (fits_or_answers o)); [done | done | | | by intros; left].
  { destruct (is_state NrProcessing o) eqn:Es; cbn [orb]; [by apply steady_wal|].
    destruct (_ || _); [by apply steady_wal|]. apply respects_ret; preorder.
    unfold is_state in Es. to_prop. split; cbn [wk wk_operation wk_intent]; [done | done | by destruct Hst |].
    intros i Hi. eapply sn_intents; [apply Hs1 | exact Hi]. }
  intros [answer|wk'] w2 Hs2 Hq2 Hf; [by left; split; [apply Hs2|]|]. by apply (wp_publish o).
Qed.

Lemma pushed_recorded s0 s s' o : recorded s' = recorded s -> pushed claim s0 s o -> pushed claim s0 s' o.
Proof.
  unfold recorded, refs_view. intros E. injection E as E1 E2 E3 E4 E5 E6. intros [].
  split; unfold native_of in *; rewrite ?E1, ?E3, ?E4, ?E5; done.
Qed.

Lemma framed_release a b : framed recorded (release_publication a b).
Proof. unfold release_publication, drop_lease. frames. Qed.

Lemma wp_finalize p w :
  sane (st w) -> wp (finalizeStockReceiveState claim p) (settled (st w)) w.
Proof.
  intros Hs. unfold finalizeStockReceiveState. apply wp_bind.
  destruct (quiet_retain p w Hs) as (Hs1 & Hq1 & _). unfold wp at 1.
  destruct (retainPreparedStockReceiveState claim p w) as [[[]|e] w1]; [|by left]. cbn [fst snd] in *.
  apply wp_bind, wp_now, wp_bind.
  destruct (quiet_acquire (env_now (tick w1)) (bump w1) Hs1) as (Hs2 & Hq2 & _). unfold wp at 1.
  assert (quiet claim (st w) (st (acquire_publication claim (env_now (tick w1)) (bump w1)).2)) as Hq3
    by (by etrans).
  destruct (acquire_publication _ _ _) as [[a|e] w2]; [|by left]. cbn [fst snd] in *.
  destruct a; [by apply wp_leased | by left|].
  apply wp_try_finally. eapply wp_conseq; [by apply wp_leased|].
  assert (forall r w', settled (st w) r w' ->
    wp (release_publication receiveToken publicationToken)
      (fun rf w'' => match rf with Ok _ => settled (st w) r w'' | Err e => settled (st w) (Err e) w'' end) w')
    as Hrel.
  { intros r w' [[Hs' Hq']|[[o Ho] Ha]].
    - destruct (quiet_release receiveToken publicationToken w' Hs') as (H1 & H2 & _). unfold wp.
      assert (quiet claim (st w) (st (release_publication receiveToken publicationToken w').2)) by (by etrans).
      destruct (release_publication _ _ _) as [[]]; by left.
    - destruct (framed_release receiveToken publicationToken w' I) as (_ & Hf & _). unfold wp, frame in *.
      destruct (release_publication _ _ _) as [[u|e] w'']; right; (split; [|done]); exists o;
        by eapply pushed_recorded. }
  intros [x|[msg|]] w' Hx; [by apply Hrel | by apply Hrel | done].
Qed.
End Gate.
End Quiet.

(** *** A push in the toy platform *)

(** The repository of the demo push: its ref, and the receive lease of the worker. *)
Definition demo_repository : Storage :=
  set_receiveLease (Some (mkLease demo_lease 0 100000000 (Some OpReceive)))
  (set_refsVersion (Some 3) (set_refs (Some [mkRef "refs/heads/main" (oldOid demo_command)]) empty_storage)).

Definition demo_admitted : world := (admitStockReceiveState (H := toy_env) demo_operation (World demo_repository 0)).2.

(** The identifier the toy platform draws for the claim. *)
Definition demo_claim : string := env_uuid (Env := toy_env) 1.

Definition demo_prepared : NativeReceivePrepared := mkPrepared "push" "f" demo_result.

Lemma demo_admitted_sane : sane (st demo_admitted).
Proof.
  split.
  - intros id o Ho. unfold native_of in Ho.
    apply (map_Forall_lookup_1 (fun id o => native_id o = id) (nativeReceiveOperations (st demo_admitted)) id o); [|exact Ho].
    apply (bool_decide_unpack _). vm_compute. exact I.
  - intros token i Hi.
    apply (map_Forall_lookup_1 (fun _ i => nextRefsVersion i = expectedRefsVersion i + 1)
      (receiveFinalizeIntents (st demo_admitted)) token i); [|exact Hi].
    apply (bool_decide_unpack _). vm_compute. exact I.
Qed.

(** ** Properties *)


