(* ===== verification/StockAdmission.v ===== *)
(** * Admission and confirmation of a stock receive

    The two ends of a push in [do/repo/stockReceiveAuthority.ts]: who is admitted
    and what the bounded ledger may forget for it ([admitStockReceiveState],
    [retainOperation]), and when a publication counts as confirmed
    ([confirmStockReceivePublicationState]). *)
From S2P Require Import Prelude NativeTypes Storage Effects Text Keys Bytes Json StockProof.
From S2P Require Import AuthorityPlan RefUpdate Catalog Activity Gc AcceptedWrites Receive StockReceive StockMachine StockSafety.

(** ** Definitions *)

(** What an admission that was granted left behind. *)
Record admitted (o : NativeReceiveOperation) (token : string) (o' : NativeReceiveOperation)
    (s s' : Storage) : Prop := {
  am_alive : truthy (repositoryDeleting s) = false;
  am_alone : recovery_pending s (native_id o) = false;
  am_lease : exists now, holds_lease s (native_leaseToken o) now = true;
  am_stored : native_of (native_id o) s' = Some o';
  am_claim : native_claimId o' = Some token;
  am_state : native_state o' = NrProcessing;
  am_request : native_commands o' = native_commands o /\ native_fingerprint o' = native_fingerprint o /\
               native_leaseToken o' = native_leaseToken o;
  am_output : nativeReceiveClaimOutputPackKey (native_outputPackKey o) token = Some (native_outputPackKey o');
  am_last : last (ledger s') = Some (native_id o);
  am_takes : forall e, native_of (native_id o) s = Some e ->
    readmissible o e /\ native_attempts o' = native_attempts e + 1 }.

(** The operation under another name is still there, unless it was finished. *)
Definition kept_or_finished (id : string) (s s' : Storage) : Prop :=
  forall k x, k <> id -> native_of k s = Some x ->
    native_of k s' = Some x \/ (native_of k s' = None /\ forgettable x = true).

(** ** Lemmas *)

(** What admission reads and writes besides the leases and the alarm. *)
Definition books (s : Storage) :=
  (nativeReceiveOperations s, nativeReceiveOperationIndex s, repositoryDeleting s, refs_view s).

Section Admission.
Context `{Env}.

Lemma books_existing o e : framed books (admit_existing o e).
Proof. unfold admit_existing, drop_lease, removeStockReceivePreparationLease. frames. Qed.

(** Making room deletes finished operations only, and takes their names out of
    the list, one a turn. *)
Record room (keep : string) (fuel : nat) (next : list string) (s : Storage) (r : option (list string))
    (s' : Storage) : Prop := {
  rm_beside : (nativeReceiveOperationIndex s', repositoryDeleting s', refs_view s') =
              (nativeReceiveOperationIndex s, repositoryDeleting s, refs_view s);
  rm_keep : native_of keep s' = native_of keep s;
  rm_kept : kept_or_finished keep s s';
  rm_none : forall k, native_of k s = None -> native_of k s' = None;
  rm_full : r = None -> (fuel <= 1)%nat -> s' = s;
  rm_zero : fuel = O -> r = Some next;
  rm_list : forall next', r = Some next' ->
    next' `sublist_of` next /\ (length next' + fuel = length next)%nat /\ last next' = Some keep /\
    forall k, k ∈ next -> k ∉ next' -> native_of k s' = None }.

Lemma room_made fuel keep next s n :
  NoDup next -> last next = Some keep ->
  wp (make_room fuel keep next) (fun r w => match r with
    | Ok r => room keep fuel next s r (st w) | Err _ => True end) (World s n).
Proof.
  revert next s n. induction fuel as [|fuel IH]; intros next s n Hnd Hlast; simpl.
  { apply wp_ret. split; try done. { intros k x _ Hx. by left. }
    intros ? [= <-]. split_and!; [done | lia | done | done]. }
  apply wp_bind, wp_get. cbn [st]. destruct (js_findIndex _ _) as [i|] eqn:Ei.
  2: { apply wp_ret. split; try done. intros k x _ Hx. by left. }
  apply wp_bind, wp_put; [done|]. intros _. cbn [st].
  apply js_findIndex_lookup in Ei as (x & Hx & Hev). rewrite Hx. simpl.
  unfold evictable in Hev. apply andb_true_iff in Hev as [[_ Hne]%andb_true_iff Hf].
  destruct (native_of x s) as [d|] eqn:Ed; [|done]. unfold str_eq in Hne. to_prop.
  pose proof (take_drop_middle next i x Hx) as Hsplit.
  set (l1 := take i next) in *. set (l2 := drop (S i) next) in *. clearbody l1 l2.
  assert (x ∉ l1 ++ l2 /\ NoDup (l1 ++ l2)) as [Hgone Hnd1].
  { rewrite <- Hsplit in Hnd. rewrite <- Permutation_middle in Hnd. by apply NoDup_cons in Hnd. }
  assert (last (l1 ++ l2) = Some keep) as Hlast1.
  { rewrite <- Hsplit, last_app in Hlast. rewrite last_app. destruct l2 as [|y l2]; [|exact Hlast].
    simpl in Hlast. congruence. }
  set (s1 := set_nativeReceiveOperations _ s).
  assert (forall k, k <> x -> native_of k s1 = native_of k s) as Hother.
  { intros k Hk. unfold native_of, s1. simpl. by rewrite lookup_delete_ne. }
  assert (native_of x s1 = None) as Hdel by (unfold native_of, s1; simpl; apply lookup_delete_eq).
  eapply wp_conseq; [apply (IH (l1 ++ l2) s1); done|]. intros [r|e] w'; [|done].
  intros [K1 K2 K3 K4 K6 K7 K5]. split.
  - exact K1.
  - rewrite K2. by apply Hother.
  - intros k y Hk Hy. destruct (decide (k = x)) as [->|Hkx].
    + right. assert (y = d) as -> by congruence. split; [by apply K4 | done].
    + destruct (K3 k y Hk) as [?|[??]]; [by rewrite Hother | by left | by right].
  - intros k Hk. apply K4. destruct (decide (k = x)) as [->|Hkx]; [done | by rewrite Hother].
  - intros -> Hle. assert (fuel = O) as -> by lia. specialize (K7 eq_refl). discriminate.
  - done.
  - intros next' ->. destruct (K5 next' eq_refl) as (G1 & G2 & G3 & G4). rewrite <- Hsplit. split_and!.
    + etrans; [exact G1|]. apply sublist_app; [done|]. by apply sublist_cons.
    + rewrite length_app in G2. rewrite length_app. simpl. lia.
    + done.
    + intros k Hin Hnin. destruct (decide (k = x)) as [->|Hkx]; [by apply K4|]. apply G4; [|done].
      rewrite <- Permutation_middle in Hin. by apply elem_of_cons in Hin as [|].
Qed.

Lemma existing_readmissible o e w :
  wp (admit_existing o e) (fun r w' => books (st w') = books (st w) /\
    match r with
    | Ok None => readmissible o e
    | Ok (Some a) => forall t x, a <> AdAdmitted t x
    | Err _ => True end) w.
Proof.
  assert (respects (fun _ => True) (frame (fun _ => tt)) (admit_existing o e) (fun r =>
    match r with None => readmissible o e | Some a => forall t x, a <> AdAdmitted t x end)) as Hr.
  { unfold admit_existing, drop_lease, removeStockReceivePreparationLease.
    destruct (negb (str_eq _ _)) eqn:Ef; [respect; done|].
    destruct (is_state NrCommitted e); [respect; done|]. destruct (pending_publication e); [respect; done|].
    destruct (_ && is_state NrReady e); [respect; done|].
    destruct (isNativeReceiveTerminal (native_state e) && native_cleanupPending e) eqn:Et; [respect; done|].
    destruct (negb (retryableFailure _)) eqn:Er; [respect; done|].
    apply respects_ret; preorder. to_prop. split; [done | | done].
    intros Ht. rewrite Ht in Et. by destruct Et. }
  destruct (Hr w I) as (_ & _ & H1), (books_existing o e w I) as (_ & H2 & _).
  unfold wp, frame in *. destruct (admit_existing o e w) as [[[a|]|err] w']; by split.
Qed.

Lemma existing_unchanged o e w :
  wp (admit_existing o e) (fun r w' => r = Ok None -> st w' = st w) w.
Proof.
  unfold admit_existing. destruct (negb (str_eq _ _)); [by apply wp_ret|].
  destruct (is_state NrCommitted e).
  - apply wp_bind. eapply (wp_framed (fun _ => tt)); [unfold drop_lease; frames|]. intros [?|?] w1 _; [|done].
    apply wp_bind. eapply (wp_framed (fun _ => tt)); [unfold removeStockReceivePreparationLease; frames|].
    intros [?|?] w2 _; [|done]. apply wp_bind, wp_of_res. destruct (cleanupDescriptor e); [by apply wp_ret | done].
  - wp_run; try done; by destruct (cleanupDescriptor e).
Qed.

(** The answer of an admission and what it leaves. *)
Definition admission (o : NativeReceiveOperation) (s : Storage) (r : res AdmitStockReceiveResult)
    (w : world) : Prop :=
  match r with
  | Ok (AdAdmitted token o') =>
    admitted o token o' s (st w) /\ ledger_ok (st w) /\ kept_or_finished (native_id o) s (st w) /\
    refs_view (st w) = refs_view s
  | Ok _ => books (st w) = books s
  | Err _ => st w = s
  end.

(** The list that [retainOperation] makes room in. *)
Definition listed_last (s : Storage) (id : string) : list string :=
  js_push (js_filter (fun k => negb (str_eq k id)) (ledger s)) id.

Lemma listed_last_spec s id :
  NoDup (ledger s) ->
  NoDup (listed_last s id) /\ last (listed_last s id) = Some id /\
  (length (listed_last s id) <= S (length (ledger s)))%nat /\
  forall k, k ∈ listed_last s id <-> k = id \/ k ∈ ledger s.
Proof.
  intros Hnd. unfold listed_last, js_push. split_and!.
  - apply NoDup_app. split_and!; [by apply NoDup_js_filter | | apply NoDup_singleton].
    intros k [_ Hk]%elem_of_js_filter Hin. apply list_elem_of_singleton in Hin as ->.
    unfold str_eq in Hk. by rewrite bool_decide_true in Hk.
  - apply last_snoc.
  - rewrite length_app. simpl. pose proof (js_filter_length_le (fun k => negb (str_eq k id)) (ledger s)). lia.
  - intros k. rewrite elem_of_app, list_elem_of_singleton, elem_of_js_filter. split.
    + intros [[Hk _]|Hk]; auto.
    + destruct (decide (k = id)) as [->|Hne]; [by right|]. intros [Hk|Hk]; [done|]. left. split; [done|].
      unfold str_eq. by rewrite bool_decide_false.
Qed.

Lemma retained_ledger s s1 next o f :
  ledger_ok s -> native_id f = native_id o ->
  room (native_id o) (length (listed_last s (native_id o)) - MAX_RETAINED_OPERATIONS)
    (listed_last s (native_id o)) s (Some next) s1 ->
  let s2 := set_nativeReceiveOperationIndex (Some next)
    (set_nativeReceiveOperations (<[native_id f := f]> (nativeReceiveOperations s1)) s1) in
  ledger_ok s2 /\ last (ledger s2) = Some (native_id o) /\ native_of (native_id o) s2 = Some f /\
  kept_or_finished (native_id o) s s2.
Proof.
  intros [Hnd Hlen Hlist] Ef [_ _ K3 K4 _ _ K5] s2. destruct (K5 next eq_refl) as (G1 & G2 & G3 & G4).
  destruct (listed_last_spec s (native_id o) Hnd) as (N1 & N2 & N3 & N4).
  assert (forall k, k <> native_id o -> native_of k s2 = native_of k s1) as Hother.
  { intros k Hk. unfold native_of, s2. simpl. rewrite lookup_insert_ne; [done | by rewrite Ef]. }
  assert (native_of (native_id o) s2 = Some f) as Hself.
  { unfold native_of, s2. simpl. rewrite <- Ef. apply lookup_insert_eq. }
  split_and!; [split | done | done |].
  - by eapply sublist_NoDup.
  - change (ledger s2) with next. unfold MAX_RETAINED_OPERATIONS in *. lia.
  - change (ledger s2) with next. intros k x Hk. change (native_of k s2 = Some x) in Hk. destruct (decide (k = native_id o)) as [->|Hne].
    + by apply last_Some_elem_of.
    + rewrite Hother in Hk by done. destruct (decide (k ∈ next)) as [Hin|Hnin]; [done|].
      destruct (native_of k s) as [y|] eqn:Ey; [|by rewrite K4 in Hk].
      rewrite G4 in Hk; [done | | done]. apply N4. right. by eapply Hlist.
  - intros k x Hk Hx. rewrite Hother by done. by apply K3.
Qed.

Definition admission_body (o : NativeReceiveOperation) (s : Storage) (r : res AdmitStockReceiveResult)
    (w : world) : Prop := match r with Ok _ => admission o s r w | Err _ => True end.

Lemma admission_new o existing s n :
  ledger_ok s -> truthy (repositoryDeleting s) = false -> native_of (native_id o) s = existing ->
  (forall e, existing = Some e -> readmissible o e) ->
  wp (admit_new o existing) (admission_body o s) (World s n).
Proof.
  intros Hl Hdel Hx Hr. unfold admit_new.
  apply wp_bind, wp_get. cbn [st]. destruct (recovery_pending _ _) eqn:Epend; [by apply wp_ret|].
  apply wp_bind, wp_now, wp_bind, wp_get. cbn [st bump]. destruct (holds_lease _ _ _) eqn:Eheld; [|by apply wp_ret].
  cbn [negb]. apply wp_bind, wp_uuid. cbn [st bump tick].
  destruct (nativeReceiveClaimOutputPackKey _ _) as [key|] eqn:Ekey; [|by apply wp_throw].
  apply wp_bind, wp_now, wp_bind, wp_of_res. cbn [st bump tick].
  destruct (withEvidence _ _) as [f|] eqn:Ef; [|done].
  destruct (withEvidence_request _ _ _ Ef) as [events ->]. set (f := set_native_events _ _).
  assert (forall e, existing = Some e -> native_attempts f = native_attempts e + 1) as Hat.
  { intros e0 E0. unfold f. rewrite E0. reflexivity. }
  apply wp_bind. unfold retainOperation. apply wp_bind, wp_get, wp_bind. cbn [st].
  change (js_push _ (native_id f)) with (listed_last s (native_id o)).
  destruct (listed_last_spec s (native_id o) (lg_NoDup _ _ Hl)) as (N1 & N2 & N3 & N4).
  pose proof (lg_bound _ _ Hl) as Hbound.
  eapply wp_conseq; [by apply (room_made _ (native_id o))|].
  intros [[next|]|e] [s1 n1] Hroom; cbn [st] in *; [| |done].
  2: { rewrite (rm_full _ _ _ _ _ _ Hroom eq_refl ltac:(unfold MAX_RETAINED_OPERATIONS in *; lia)).
       by apply wp_ret, wp_ret. }
  apply wp_bind, wp_put; [done|]. intros _. apply wp_bind, wp_put; [done|]. intros _. apply wp_ret. cbn [st negb].
  destruct (retained_ledger s s1 next o f Hl eq_refl Hroom) as (L1 & L2 & L3 & L4).
  set (s2 := set_nativeReceiveOperationIndex _ _) in *. pose proof (rm_beside _ _ _ _ _ _ Hroom) as Hbeside.
  assert (admitted o (env_uuid (S n)) f s s2) as Hadm.
  { split; try done; [by eexists|]. intros e He. assert (existing = Some e) as Hxe by congruence.
    split; [by apply Hr | by apply Hat]. }
  assert (refs_view s2 = refs_view s) as Hrefs by (apply (f_equal snd) in Hbeside; exact Hbeside).
  assert (forall w, books (st w) = books s2 -> admission_body o s (Ok (AdAdmitted (env_uuid (S n)) f)) w) as Hend.
  { intros w E. unfold books in E. apply pair_equal_spec in E as [[[E1 E2]%pair_equal_spec E3]%pair_equal_spec E4]. cbn [admission_body admission]. split_and!.
    - destruct Hadm. split; unfold ledger, native_of in *; rewrite ?E1, ?E2; assumption.
    - unfold ledger_ok, ledger in *. by rewrite E1, E2.
    - unfold kept_or_finished, native_of in *. by rewrite E1.
    - congruence. }
  apply wp_bind. eapply (wp_framed books); [unfold removeStockReceivePreparationLease; frames|].
  intros [?|?] w1 E1; [|done]. apply wp_bind, wp_get, wp_bind.
  eapply (wp_framed books); [frames|]. intros [?|?] w2 E2; [|done]. apply wp_bind.
  eapply (wp_framed books); [unfold armWake; frames|]. intros [?|?] w3 E3; [|done].
  apply wp_ret, Hend. cbn [st] in *. congruence.
Qed.

Lemma wp_admit o s n :
  ledger_ok s -> wp (admitStockReceiveState o) (admission o s) (World s n).
Proof.
  intros Hl. unfold admitStockReceiveState. apply wp_transaction.
  apply (wp_conseq _ (admission_body o s)).
  2: { intros [a|e] w' Hw; [exact Hw | reflexivity]. }
  apply wp_bind, wp_get. cbn [st]. destruct (truthy (repositoryDeleting s)) eqn:Ed; [by apply wp_ret|].
  apply wp_bind, wp_get. cbn [st]. destruct (native_of (native_id o) s) as [e|] eqn:Eo.
  2: { by apply admission_new. }
  apply wp_bind. pose proof (existing_readmissible o e (World s n)) as Hr.
  pose proof (existing_unchanged o e (World s n)) as Hu. unfold wp in Hr, Hu |- * at 1.
  destruct (admit_existing o e (World s n)) as [[[a|]|err] [s1 n1]]; cbn [st] in *; [| |done].
  - destruct Hr as [E Ha]. apply wp_ret. destruct a; [by edestruct Ha | exact E ..].
  - pose proof (Hu eq_refl) as E. cbn in E. subst s1. destruct Hr as [_ Hr]. apply admission_new; [done | done | done |].
    by intros ? [= <-].
Qed.
End Admission.

(** ** Confirmation *)

Section Confirmation.
Context `{Env}.

(** What a confirmation writes on the operation of a publication. *)
Record confirms (proof : NativeReceiveAuthorityPublication) (ack : bool)
    (plan : NativeReceiveAuthorityPublicationPlan) (o o' : NativeReceiveOperation) : Prop := {
  cf_finalizing : native_state o = NrFinalizing;
  cf_proof : authorityPublicationMatchesPlan plan proof = true;
  cf_committed : native_state o' = NrCommitted;
  cf_result : native_result o' = with_publication_result proof <$> native_result o;
  cf_ack : is_Some (native_clientAckReadyAt o') <-> ack = true /\ has_response o = true;
  cf_id : native_id o' = native_id o;
  cf_same : same_push o o' }.

(** A replay acknowledges a client at most, and only once. *)
Record acknowledges (ack : bool) (o o' : NativeReceiveOperation) : Prop := {
  ak_committed : native_state o = NrCommitted;
  ak_fact : ack = true /\ has_response o = true /\ native_clientAckReadyAt o = None;
  ak_state : native_state o' = NrCommitted;
  ak_result : native_result o' = native_result o;
  ak_ack : is_Some (native_clientAckReadyAt o');
  ak_id : native_id o' = native_id o;
  ak_same : same_push o o' }.

Definition store (o : NativeReceiveOperation) (s : Storage) : Storage :=
  set_nativeReceiveOperations (<[native_id o := o]> (nativeReceiveOperations s)) s.

(** The operation a publication token names, with its plan. *)
Definition publication_of (token : string) (s : Storage) (o : NativeReceiveOperation)
    (plan : NativeReceiveAuthorityPublicationPlan) : Prop :=
  by_publication token s = Some o /\ native_publicationPlan o = Some plan.

Definition confirmation (token : string) (proof : NativeReceiveAuthorityPublication) (ack : bool)
    (s : Storage) (r : res ConfirmStockReceivePublicationResult) (w : world) : Prop :=
  match r with
  | Ok (CpCommitted v c) => exists o o' plan, publication_of token s o plan /\
      confirms proof ack plan o o' /\ st w = store o' s /\
      v = nativeReceiveOperationView o' /\ cleanupDescriptor o' = Ok c
  | Ok (CpReplayed v c) => exists o o' plan, publication_of token s o plan /\
      native_state o = NrCommitted /\ (o' = o /\ st w = s \/ acknowledges ack o o' /\ st w = store o' s) /\
      v = nativeReceiveOperationView o' /\ cleanupDescriptor o' = Ok c
  | Ok (CpRejected _) => st w = s /\ forall o plan, publication_of token s o plan ->
      native_state o <> NrCommitted /\
      (native_state o <> NrFinalizing \/ authorityPublicationMatchesPlan plan proof = false)
  | Err _ => st w = s
  end.

Definition confirmation_body token proof ack s (r : res ConfirmStockReceivePublicationResult) w : Prop :=
  match r with Ok _ => confirmation token proof ack s r w | Err _ => True end.

Lemma is_state_eq x o : is_state x o = true <-> native_state o = x.
Proof. unfold is_state. apply bool_decide_eq_true. Qed.

Lemma is_state_ne x o : is_state x o = false <-> native_state o <> x.
Proof. unfold is_state. apply bool_decide_eq_false. Qed.

Lemma wp_confirm token proof ack s n :
  wp (confirmStockReceivePublicationState token proof ack) (confirmation token proof ack s) (World s n).
Proof.
  unfold confirmStockReceivePublicationState, operationByPublicationToken. apply wp_transaction.
  apply (wp_conseq _ (confirmation_body token proof ack s)).
  2: { intros [a|e] w' Hw; [exact Hw | reflexivity]. }
  apply wp_bind, wp_get. cbn [st].
  assert (forall code, (forall o plan, publication_of token s o plan -> native_state o <> NrCommitted /\
      (native_state o <> NrFinalizing \/ authorityPublicationMatchesPlan plan proof = false)) ->
    wp (ret (CpRejected code)) (confirmation_body token proof ack s) (World s n)) as Hrej.
  { intros code Hn. apply wp_ret. by split. }
  destruct (by_publication token s) as [o|] eqn:Eo; [|apply Hrej; intros ? ? [? _]; congruence].
  destruct (native_publicationPlan o) as [plan|] eqn:Ep; [|apply Hrej; intros ? ? [? ?]; congruence].
  assert (publication_of token s o plan) as Hpub by done.
  destruct (is_state NrCommitted o) eqn:Ec.
  - apply is_state_eq in Ec. destruct (ack && has_response o && _) eqn:Ea.
    + to_prop. apply wp_bind, wp_now, wp_bind, wp_of_res.
      destruct (withEvidence _ _) as [o'|] eqn:Ew; [|done].
      destruct (withEvidence_request _ _ _ Ew) as [events ->]. set (o' := set_native_events _ _) in *.
      apply wp_bind, wp_put; [done|]. intros _. apply wp_bind, wp_of_res.
      destruct (cleanupDescriptor _) as [c|] eqn:Ecl; [|done]. apply wp_ret.
      exists o, o', plan. split_and!; [done | done | right | reflexivity | exact Ecl].
      split; [|reflexivity]. split; [done | done | done | done | by eexists | done | done].
    + apply wp_bind, wp_of_res. destruct (cleanupDescriptor o) as [c|] eqn:Ecl; [|done]. apply wp_ret.
      exists o, o, plan. split_and!; [done.. | by left | done | done].
  - apply is_state_ne in Ec. destruct (_ || _) eqn:Ef.
    + apply Hrej. intros o2 plan2 [E2 P2]. assert (o2 = o) as -> by congruence.
      assert (plan2 = plan) as -> by congruence. split; [done|].
      apply orb_true_iff in Ef as [Ef|Ef]; apply negb_true_iff in Ef; [left; by apply is_state_ne | by right].
    + apply orb_false_iff in Ef as [Ef Em]. apply negb_false_iff in Ef, Em. apply is_state_eq in Ef.
      apply wp_bind, wp_now, wp_bind, wp_of_res. destruct (withEvidence _ _) as [o'|] eqn:Ew; [|done].
      destruct (withEvidence_request _ _ _ Ew) as [events ->]. set (o' := set_native_events _ _) in *.
      apply wp_bind, wp_put; [done|]. intros _. apply wp_bind, wp_of_res.
      destruct (cleanupDescriptor _) as [c|] eqn:Ecl; [|done]. apply wp_ret.
      exists o, o', plan. split_and!; [done | | reflexivity | reflexivity | exact Ecl].
      split; try done. change (is_Some (if ack && has_response o then Some (env_now n) else None) <->
        ack = true /\ has_response o = true).
      destruct ack, (has_response o); simpl; (split; [intros [? ?] | intros [? ?]; try discriminate; try by eexists]); done.
Qed.
End Confirmation.

(** A push that has been finalized, and its publication plan. *)
Definition demo_finalized : world :=
  (finalizeStockReceiveState (H := toy_env) demo_claim (Some demo_prepared) demo_admitted).2.

Definition demo_publication : NativeReceiveAuthorityPublicationPlan :=
  default (plan_of (H := toy_env) demo_operation demo_result)
    (native_of "push" (st demo_finalized) ≫= native_publicationPlan).

(** ** Properties *)



(** C15: what a confirmation does.  A publication is committed exactly when the
    operation of its token is finalizing and the proof matches the stored plan;
    then that one operation changes, into the committed push with the proof in its
    result, and the client may be answered only if asked for and if a response
    exists.  A committed publication is replayed, whatever the proof, and at most
    its one missing acknowledgement is recorded.  Every refusal and every failure
    leaves the storage as it was. *)
Theorem publication_confirmed_once `{Env} (token : string) (proof : NativeReceiveAuthorityPublication)
    (ack : bool) (w : world) :
  let (r, w') := confirmStockReceivePublicationState token proof ack w in
  match r with
  | Ok (CpCommitted v c) => exists o o' plan, publication_of token (st w) o plan /\
      confirms proof ack plan o o' /\ st w' = store o' (st w) /\
      v = nativeReceiveOperationView o' /\ cleanupDescriptor o' = Ok c
  | Ok (CpReplayed v c) => exists o o' plan, publication_of token (st w) o plan /\
      native_state o = NrCommitted /\
      (o' = o /\ st w' = st w \/ acknowledges ack o o' /\ st w' = store o' (st w)) /\
      v = nativeReceiveOperationView o' /\ cleanupDescriptor o' = Ok c
  | Ok (CpRejected _) => st w' = st w /\ forall o plan, publication_of token (st w) o plan ->
      native_state o <> NrCommitted /\
      (native_state o <> NrFinalizing \/ authorityPublicationMatchesPlan plan proof = false)
  | Err _ => st w' = st w
  end.
Proof.
  destruct w as [s n]. pose proof (wp_confirm token proof ack s n) as Hw. unfold wp, confirmation in Hw.
  cbn [st]. by destruct (confirmStockReceivePublicationState token proof ack (World s n)) as [[[]|e] w'].
Qed.

(** The run of a push from its admission to its confirmation. *)
Lemma publication_confirmed_once_witness :
  let w' := (confirmStockReceivePublicationState (H := toy_env) (pp_token demo_publication)
               (AuthorityPlan.published demo_publication) true demo_finalized).2 in
  (native_state <$> native_of "push" (st w')) = Some NrCommitted /\
  (native_state <$> native_of "push" (st demo_finalized)) = Some NrFinalizing /\
  (confirmStockReceivePublicationState (H := toy_env) (pp_token demo_publication)
     (AuthorityPlan.published demo_publication) true demo_finalized).1 <> Ok (CpRejected "publication-not-found").
Proof.
  pose proof (publication_confirmed_once (H := toy_env) (pp_token demo_publication) (AuthorityPlan.published demo_publication)
    true demo_finalized) as Hc.
  assert (match (confirmStockReceivePublicationState (H := toy_env) (pp_token demo_publication)
               (AuthorityPlan.published demo_publication) true demo_finalized).1 with Ok (CpCommitted _ _) => true | _ => false end
          = true) as E by (vm_compute; reflexivity).
  split; [vm_compute; reflexivity | split; [vm_compute; reflexivity|]].
  destruct (confirmStockReceivePublicationState _ _ _ _) as [[[]|e] w']; [|discriminate E ..].
  intros Hn. discriminate Hn.
Defined.
