(* ===== verification/Compaction.v ===== *)
(** * Compaction: requests, the lease and the commit

    [catalog/compaction/requests.ts], [catalog/compaction/lease.ts] and
    [loadCompactionContext] of [catalog/compaction/plan.ts]; the pack removal
    and the final clear of [do/repo/packOperations.ts]. *)
From S2P Require Import Prelude Storage Effects Text Keys Catalog Activity Scheduler Lifecycle.
From S2P Require Import Gc GcOperations ReachabilityGc.

(** ** Definitions *)

Record CompactionContext := mkContext {
  cc_packCatalogVersion : Z;
  cc_wantedAt : option Z;
  cc_activeCatalog : list PackCatalogRow;
  cc_plan : option CompactionPlan }.

Inductive RequestResult := RequestNoWork | RequestQueued (wantedAt : Z) (plan : CompactionPlan).

Inductive CompactionBusyReason := CbReceive | CbCompact | CbRecent | CbDeleting.

Record CompactionBegin := mkCompactionBegin {
  cb_lease : RepoLease;
  cb_packsetVersion : Z;
  cb_activeCatalog : list PackCatalogRow;
  cb_sourcePacks : list PackCatalogRow;
  cb_targetTier : Z }.

Inductive BeginCompactionResult :=
  | CompactionBegan (b : CompactionBegin)
  | CompactionBusy (retryAfter : Z) (reason : CompactionBusyReason)
  | CompactionNotRequested
  | CompactionBelowThreshold.

Inductive CompactionRetryReason :=
  | CrReceive | CrLease | CrPackset | CrDeleting | CrSource.

Record CompactionCommit := mkCompactionCommit {
  cmp_packCatalogVersion : Z;
  cmp_shouldRequeue : bool;
  cmp_supersededPackKeys : list string;
  cmp_targetPackKey : string }.

Inductive CommitCompactionResult :=
  | CompactionCommitted (c : CompactionCommit)
  | CompactionRetry (reason : CompactionRetryReason).

Inductive CompactionAcquisition := CaBusy (r : CompactionBusyReason) (retryAfter : Z) | CaNoWork | CaAcquired.

(** The sequence range of the sources, from the first source on. *)
Definition range_lo (first : PackCatalogRow) (l : list PackCatalogRow) : Z :=
  foldl (fun lo p => if seqLo p <? lo then seqLo p else lo) (seqLo first) l.
Definition range_hi (first : PackCatalogRow) (l : list PackCatalogRow) : Z :=
  foldl (fun hi p => if hi <? seqHi p then seqHi p else hi) (seqHi first) l.

Definition compacted_row (first : PackCatalogRow) (sources : list PackCatalogRow) (tier_ : Z)
    (staged : StagedPack) (now : Z) : PackCatalogRow :=
  mkRow (staged_packKey staged) KindCompact PackActive tier_ (range_lo first sources)
    (range_hi first sources) (staged_objectCount staged) (staged_packBytes staged)
    (staged_idxBytes staged) now None.

Section Compaction.
Context `{Env}.

Definition loadCompactionContext : DO CompactionContext :=
  ensureRepoMetadataDefaults ;!
  let! version := get (fun s => orZ (packsetVersion s) 0) in
  let! wantedAt := get compactionWantedAt in
  let! activeCatalog := getActivePackCatalogSnapshot in
  ret (mkContext version wantedAt activeCatalog (selectCompactionPlan activeCatalog)).

Definition previewCompactionState : DO CompactionContext := loadCompactionContext.

Definition requestCompactionState : DO RequestResult :=
  let! context := loadCompactionContext in
  match cc_plan context with
  | None =>
    (if bool_decide (is_Some (cc_wantedAt context)) then clearCompactionSchedule else ret tt) ;!
    ret RequestNoWork
  | Some plan =>
    let! wantedAt := Date_now in
    let! recorded := transaction (
      let! deleting := get repositoryDeleting in
      if truthy deleting then ret false else
      markCompactionActivity wantedAt ;!
      ret true) in
    if negb recorded then ret RequestNoWork else
    scheduleCompactionWake ;!
    ret (RequestQueued wantedAt plan)
  end.

Definition clearCompactionRequestState : DO bool :=
  transaction (
    let! deleting := get repositoryDeleting in
    if truthy deleting then ret false else
    let! queued := get (fun s => bool_decide (is_Some (compactionWantedAt s))) in
    clearCompactionSchedule ;!
    ret queued).

(** The transaction that publishes the lease. *)
Definition acquire_compaction (lease : RepoLease) (now : Z) : DO CompactionAcquisition :=
  transaction (
    let busy r := ret (CaBusy r LEASE_RETRY_AFTER_SECONDS) in
    let! deleting := get repositoryDeleting in
    if truthy deleting then busy CbDeleting else
    let! gc := get gcOperation in
    if gcOwnsMaintenance gc then busy CbCompact else
    let! rl := get receiveLease in
    if bool_decide (is_Some (activeLeaseOrUndefined rl now)) then busy CbReceive else
    let! preparations := listActiveStockReceivePreparationLeases now in
    if (0 <? length preparations)%nat then busy CbReceive else
    let! stock := listActiveStockReceiveOperations in
    if (0 <? length stock)%nat then busy CbReceive else
    let! cl := get compactLease in
    if bool_decide (is_Some (activeLeaseOrUndefined cl now)) then busy CbCompact else
    let! wantedAt := get compactionWantedAt in
    match wantedAt with
    | None => ret CaNoWork
    | Some wanted =>
      let! since := get compactionPendingSince in
      let startAt := compactionStartAt wanted (Some (default wanted since)) in
      if now <? startAt then ret (CaBusy CbRecent (Z.max 1 (ceil_seconds (startAt - now))))
      else put (set_compactLease (Some lease)) ;! ret CaAcquired
    end).

Definition beginCompactionState : DO BeginCompactionResult :=
  let busy r := ret (CompactionBusy LEASE_RETRY_AFTER_SECONDS r) in
  let! deleting := get repositoryDeleting in
  if truthy deleting then busy CbDeleting else
  let! gc := get gcOperation in
  if gcOwnsMaintenance gc then busy CbCompact else
  let! observed := get compactionWantedAt in
  match observed with
  | None => ret CompactionNotRequested
  | Some observedWantedAt =>
    let! now := Date_now in
    let! activeCatalog := getActivePackCatalogSnapshot in
    match selectCompactionPlan activeCatalog with
    | None =>
      transaction (
        let! deleting2 := get repositoryDeleting in
        let! wanted := get compactionWantedAt in
        if negb (truthy deleting2) && bool_decide (wanted = Some observedWantedAt)
        then clearCompactionSchedule else ret tt) ;!
      ret CompactionBelowThreshold
    | Some plan =>
      let! token := randomUUID in
      let lease := mkLease token now (now + COMPACT_LEASE_TTL_MS) (Some OpCompaction) in
      let! acquisition := acquire_compaction lease now in
      match acquisition with
      | CaNoWork => ret CompactionNotRequested
      | CaBusy reason retryAfter => ret (CompactionBusy retryAfter reason)
      | CaAcquired =>
        let! version := get (fun s => orZ (packsetVersion s) 0) in
        ret (CompactionBegan (mkCompactionBegin lease version activeCatalog (sourcePacks plan)
               (targetTier plan)))
      end
    end
  end.

(** *** The commit *)

(** The fence transaction; [None] is "held". *)
Definition compaction_fence (token : string) : DO (option CompactionRetryReason) :=
  transaction (
    let! deleting := get repositoryDeleting in
    if truthy deleting then ret (Some CrDeleting) else
    let! gc := get gcOperation in
    if gcOwnsMaintenance gc then ret (Some CrLease) else
    let! now := Date_now in
    let! lease := get compactLease in
    match lease with
    | None => ret (Some CrLease)
    | Some l =>
      if negb (str_eq (lease_token l) token) then ret (Some CrLease) else
      if lease_expiresAt l <=? now then put (set_compactLease None) ;! ret (Some CrLease) else
      put (set_compactLease (Some (with_expiresAt l (now + COMPACT_LEASE_TTL_MS)))) ;!
      ret None
    end).

(** The checks between the fence and the catalog change. *)
Definition compaction_recheck (packsetVersion_ : Z) (sources : list PackCatalogRow)
    : DO (option CompactionRetryReason) :=
  let! now := Date_now in
  let! rl := get receiveLease in
  if bool_decide (is_Some (activeLeaseOrUndefined rl now)) then ret (Some CrReceive) else
  let! now2 := Date_now in
  let! preparations := listActiveStockReceivePreparationLeases now2 in
  if (0 <? length preparations)%nat then ret (Some CrReceive) else
  let! stock := listActiveStockReceiveOperations in
  if (0 <? length stock)%nat then ret (Some CrReceive) else
  let! current := get (fun s => orZ (packsetVersion s) 0) in
  if negb (current =? packsetVersion_) then ret (Some CrPackset) else
  let! rows := get (fun s => current_rows sources (pack_catalog s)) in
  if negb (rowsMatchForCommit sources rows) then ret (Some CrSource) else
  ret None.

(** The catalog change itself. *)
Definition compaction_replace (sources : list PackCatalogRow) (tier_ : Z) (staged : StagedPack)
    : DO unit :=
  match sources with
  | [] => throw "TypeError"
  | first :: _ =>
    let! now := Date_now in
    upsertPackCatalogRow (compacted_row first sources tier_ staged now) ;!
    supersedePackCatalogRows (packKey <$> sources) (Some (staged_packKey staged))
  end.

(** The schedule after a commit. *)
Definition compaction_reschedule (shouldRequeue : bool) : DO unit :=
  if shouldRequeue then
    let! wantedAt := get compactionWantedAt in
    (match wantedAt with
     | None => let! now := Date_now in markCompactionActivity now
     | Some wanted =>
       let! since := get compactionPendingSince in
       match since with
       | None => put (set_compactionPendingSince (Some wanted))
       | Some _ => ret tt
       end
     end) ;!
    scheduleCompactionWake
  else clearCompactionSchedule.

Definition commitCompactionState (token : string) (sources : list PackCatalogRow) (tier_ : Z)
    (packsetVersion_ : Z) (staged : StagedPack) : DO CommitCompactionResult :=
  ensureRepoMetadataDefaults ;!
  let! fence := compaction_fence token in
  match fence with
  | Some reason => ret (CompactionRetry reason)
  | None =>
    let! stale := compaction_recheck packsetVersion_ sources in
    match stale with
    | Some reason => put (set_compactLease None) ;! ret (CompactionRetry reason)
    | None =>
      compaction_replace sources tier_ staged ;!
      let! activeCatalog := listActivePackCatalog in
      let! version := bumpPacksetVersion in
      put (set_generationPublicationPending (Some (mkGeneration version (packKey <$> activeCatalog)))) ;!
      let shouldRequeue := catalogNeedsCompaction activeCatalog in
      compaction_reschedule shouldRequeue ;!
      put (set_compactLease None) ;!
      ret (CompactionCommitted (mkCompactionCommit version shouldRequeue (packKey <$> sources)
             (staged_packKey staged)))
    end
  end.

Definition rearmCompactionQueueFromAlarm : DO bool :=
  ensureRepoMetadataDefaults ;!
  let! wantedAt := get compactionWantedAt in
  match wantedAt with
  | None => ret false
  | Some wanted =>
    let! now := Date_now in
    let! since := get compactionPendingSince in
    let startAt := compactionStartAt wanted (Some (default wanted since)) in
    if now <? startAt then scheduleAlarmIfSooner startAt now ;! ret true else
    let! s := get id in
    if gcOwnsMaintenance (gcOperation s) ||
       bool_decide (is_Some (activeLeaseOrUndefined (receiveLease s) now)) ||
       (0 <? length (activeStockReceivePreparationLeases (stockReceivePreparationLeases s) now))%nat ||
       bool_decide (is_Some (activeLeaseOrUndefined (compactLease s) now))
    then ret false else
    try_catch (queue_send ;! ret true)
      (fun _ => scheduleCompactionAlarm COMPACTION_REARM_DELAY_MS ;! ret true)
  end.

(** ** Pack removal and the final clear *)

Inductive RemovePackResult :=
  | PackRejected (state : option PackState)
  | PackRemoved (deletedPack deletedIndex deletedRefs : bool).

Definition deletePackArtifact (key : string) : DO bool :=
  try_catch (r2_delete [key] ;! ret true) (fun _ => ret false).

Definition removePack (key : string) : DO RemovePackResult :=
  let prefix := doPrefix do_id in
  let full := if startsWith prefix key then key else (prefix ++ "/objects/pack/" ++ key)%string in
  let! row := getPackCatalogRow full in
  match row with
  | Some r =>
    if is_active r then ret (PackRejected (Some PackActive)) else
    let! deletedPack := deletePackArtifact full in
    let! deletedIndex := deletePackArtifact (packIndexKey full) in
    let! deletedRefs := deletePackArtifact (packRefsKey full) in
    deletePackCatalogRows [full] ;!
    ret (PackRemoved deletedPack deletedIndex deletedRefs)
  | None => ret (PackRejected None)
  end.

(** Every key but the deletion fence is deleted; the SQL rows are already
    gone. *)
Definition cleared (s : Storage) : Storage :=
  set_pack_catalog (pack_catalog s) (set_repositoryDeleting (Some true) empty_storage).

Definition clearRepositoryStorage : DO bool :=
  let! deleting := get repositoryDeleting in
  if negb (truthy deleting)
  then throw "repository deletion fence is required before clearing storage" else
  deleteAllPackCatalogRows ;!
  transaction (put cleared) ;!
  ret true.
End Compaction.

(** ** Lemmas *)

Section CompactionLemmas.
Context `{Env}.

(** The defaults fill absent versions and nothing else. *)
Lemma wp_defaults (Q : res unit -> world -> Prop) w :
  (forall r s n, pack_catalog s = pack_catalog (st w) -> compactLease s = compactLease (st w) ->
     orZ (packsetVersion s) 0 = orZ (packsetVersion (st w)) 0 -> Q r (World s n)) ->
  wp ensureRepoMetadataDefaults Q w.
Proof.
  intros HQ. unfold ensureRepoMetadataDefaults. destruct w as [s n].
  wp_run; simpl in *; apply HQ; simpl; try done;
    repeat match goal with E : packsetVersion _ = _ |- _ => rewrite E end; done.
Qed.

Definition catalog_part (s : Storage) := (pack_catalog s, packsetVersion s).

Lemma fence_catalog token : framed catalog_part (compaction_fence token).
Proof. unfold compaction_fence. frames. Qed.

Lemma recheck_catalog pv sources : framed catalog_part (compaction_recheck pv sources).
Proof.
  unfold compaction_recheck, listActiveStockReceivePreparationLeases, listActiveStockReceiveOperations.
  frames.
Qed.

(** A recheck that passes saw the sources in the catalog. *)
Lemma wp_recheck pv sources (Q : res (option CompactionRetryReason) -> world -> Prop) w :
  (forall r s n, s = st w -> (r = Ok None ->
     rowsMatchForCommit sources (current_rows sources (pack_catalog s)) = true /\
     orZ (packsetVersion s) 0 = pv) -> Q r (World s n)) ->
  wp (compaction_recheck pv sources) Q w.
Proof.
  intros HQ. unfold compaction_recheck, listActiveStockReceivePreparationLeases,
    listActiveStockReceiveOperations. destruct w as [s n].
  wp_run; simpl in *; apply HQ; try done. intros _. to_prop.
  repeat match goal with E : negb _ = false |- _ => apply negb_false_iff in E end.
  to_prop. done.
Qed.

Lemma reschedule_rest b :
  framed (fun s => (catalog_part s, generationPublicationPending s)) (compaction_reschedule b).
Proof.
  unfold compaction_reschedule, markCompactionActivity, clearCompactionSchedule,
    scheduleCompactionWake, scheduleCompactionAlarm, scheduleAlarmIfSooner. frames.
Qed.

Lemma wp_compaction_replace sources t staged (Q : res unit -> world -> Prop) w :
  (forall e s n, Q (Err e) (World s n)) ->
  (forall first rest now n, sources = first :: rest ->
     check_row (compacted_row first sources t staged now) = true ->
     Q (Ok tt) (World (set_pack_catalog (replaced_rows (packKey <$> sources)
       (Some (compacted_row first sources t staged now)) (pack_catalog (st w))) (st w)) n)) ->
  wp (compaction_replace sources t staged) Q w.
Proof.
  intros Herr Hok. unfold compaction_replace. destruct sources as [|first rest]; [by apply wp_throw; destruct w|].
  apply wp_bind, wp_now, wp_bind, wp_upsert; [intros; apply Herr|]. intros n Hc.
  apply wp_supersede; [intros; apply Herr|]. intros n'. by eapply Hok.
Qed.
End CompactionLemmas.

Section CompactionCommitted.
Context `{Env}.

(** What a committed compaction did. *)
Record compacted (sources : list PackCatalogRow) (t : Z) (staged : StagedPack) (s : Storage)
    (c : CompactionCommit) (s' : Storage) : Prop := {
  cm_rows : exists first rest now, sources = first :: rest /\
    let row := compacted_row first sources t staged now in
    check_row row = true /\
    pack_catalog s' = replaced_rows (packKey <$> sources) (Some row) (pack_catalog s);
  cm_matched : rowsMatchForCommit sources (current_rows sources (pack_catalog s)) = true;
  cm_version : packsetVersion s' = Some (orZ (packsetVersion s) 0 + 1);
  cm_receipt : cmp_packCatalogVersion c = orZ (packsetVersion s) 0 + 1;
  cm_generation : generationPublicationPending s' =
    Some (mkGeneration (cmp_packCatalogVersion c) (packKey <$> active_rows (pack_catalog s')));
  cm_requeue : cmp_shouldRequeue c = catalogNeedsCompaction (active_rows (pack_catalog s'));
  cm_lease : compactLease s' = None }.

Lemma wp_commit_compaction token sources t pv staged
    (Q : res CommitCompactionResult -> world -> Prop) w :
  (forall e s n, Q (Err e) (World s n)) ->
  (forall reason s n, pack_catalog s = pack_catalog (st w) ->
     Q (Ok (CompactionRetry reason)) (World s n)) ->
  (forall c s n, orZ (packsetVersion (st w)) 0 = pv -> compacted sources t staged (st w) c s ->
     Q (Ok (CompactionCommitted c)) (World s n)) ->
  wp (commitCompactionState token sources t pv staged) Q w.
Proof.
  intros Herr Hretry Hok. unfold commitCompactionState.
  apply wp_bind, wp_defaults. intros [[]|e] s1 n1 Hc1 _ Hv1; [|apply Herr].
  apply wp_bind. eapply wp_framed; [apply fence_catalog|].
  intros [[reason|]|e] [s2 n2] E2; [apply wp_ret, Hretry | | apply Herr];
    unfold catalog_part in E2; simpl in E2; injection E2 as Ec2 Ev2; [congruence|].
  apply wp_bind, wp_recheck. intros [[reason|]|e] s3 n3 Es3 Hrc; simpl in Es3; subst s3; [| |apply Herr].
  { apply wp_bind, wp_put; [intros; apply Herr|]. intros _. apply wp_ret, Hretry. simpl. congruence. }
  destruct (Hrc eq_refl) as [Hmatch Hpv].
  apply wp_bind, wp_compaction_replace; [done|]. intros first rest now n4 Hsrc Hcheck. simpl.
  apply wp_bind, wp_get, wp_bind. unfold bumpPacksetVersion.
  apply wp_bind, wp_get. simpl. apply wp_bind, wp_put; [intros; apply Herr|]. intros _. apply wp_ret.
  apply wp_bind, wp_put; [intros; apply Herr|]. intros _.
  apply wp_bind. eapply wp_framed; [apply reschedule_rest|].
  intros [[]|e] [s5 n5] E5; [|apply Herr]. unfold catalog_part in E5. simpl in E5.
  injection E5 as Ec5 Ev5 Eg5.
  apply wp_bind, wp_put; [intros; apply Herr|]. intros _. apply wp_ret. simpl.
  apply Hok; [congruence|]. rewrite <- Ec2, Hc1 in *. rewrite <- Ev2, Hv1 in *.
  split; simpl; try done; rewrite <- ?Ec5; eauto 8.
Qed.

(** The sources a commit matched are active rows of the catalog. *)
Lemma matched_sources sources rows :
  rowsMatchForCommit sources (current_rows sources rows) = true ->
  forall k, k ∈ packKey <$> sources ->
    exists r, r ∈ rows /\ packKey r = k /\ is_active r = true.
Proof.
  unfold rowsMatchForCommit. intros [Hlen Hall]%andb_true_iff k Hk.
  apply Nat.eqb_eq in Hlen. revert Hlen Hall k Hk. unfold current_rows.
  induction sources as [|p sources IH]; csimpl; intros Hlen Hall k Hk; [by apply elem_of_nil in Hk|].
  assert (forall l, (length (omap (fun row => row_of (packKey row) rows) l) <= length l)%nat) as Hle.
  { induction l as [|x l IHl]; csimpl; [lia|]. destruct (row_of (packKey x) rows); simpl; lia. }
  destruct (row_of (packKey p) rows) as [r|] eqn:Er; simpl in *.
  - apply andb_true_iff in Hall as [Hm Hall].
    apply elem_of_cons in Hk as [->|Hk]; [|by apply IH; [lia|..]].
    apply js_find_some in Er as [Hr Hkey]. exists r.
    unfold row_matches in Hm. to_prop. destruct_and?. done.
  - specialize (Hle sources). lia.
Qed.
End CompactionCommitted.

(** A run of compactions: each commits the plan of the catalog it finds, into a
    pack the catalog does not know. *)
Inductive compactions `{Env} : nat -> world -> world -> Prop :=
  | compactions_done w : compactions 0 w w
  | compactions_step n w w1 w2 token pv staged plan c :
      selectCompactionPlan (active_rows (pack_catalog (st w))) = Some plan ->
      staged_packKey staged ∉ packKey <$> pack_catalog (st w) ->
      commitCompactionState token (sourcePacks plan) (targetTier plan) pv staged w =
        (Ok (CompactionCommitted c), w1) ->
      compactions n w1 w2 ->
      compactions (S n) w w2.

Definition active_count (s : Storage) : nat := length (js_filter is_active (pack_catalog s)).

Lemma compacted_wf sources t staged s c s' :
  compacted sources t staged s c s' -> rows_wf (pack_catalog s) -> rows_wf (pack_catalog s').
Proof.
  intros [(first & rest & now & -> & Hc & ->) _ _ _ _ _ _] Hwf.
  apply replaced_wf; [|done]. by intros ? [= <-].
Qed.

Lemma compacted_count sources t staged s c s' :
  compacted sources t staged s c s' -> rows_wf (pack_catalog s) ->
  NoDup (packKey <$> sources) -> staged_packKey staged ∉ packKey <$> pack_catalog s ->
  (active_count s' + length sources = active_count s + 1)%nat.
Proof.
  intros [(first & rest & now & Hsrc & Hc & Hrows) Hm _ _ _ _ _] [Hnd _] Hs Hfresh.
  unfold active_count. rewrite Hrows, <- (length_fmap packKey sources).
  apply active_after_replacement; [done | done | done | done |].
  by apply matched_sources.
Qed.

Lemma plan_sources_nodup rows plan :
  rows_wf rows -> selectCompactionPlan (active_rows rows) = Some plan ->
  NoDup (packKey <$> sourcePacks plan) /\ length (sourcePacks plan) = COMPACTION_FAN_IN.
Proof.
  intros [Hnd _] Hp%select_some. split; [|apply Hp]. apply Hp. unfold active_rows.
  rewrite (fmap_Permutation packKey _ _ (js_sort_perm newer _)). by apply NoDup_fmap_js_filter.
Qed.

(** ** Properties *)

(** C8: a committed compaction is the replacement it announces.  It commits only
    when the sources are in the catalog as they were read and the version is the
    one the lease saw; the target is then active, the sources are superseded by
    it, the version is one higher, the new generation lists the active packs, the
    lease is gone, and a requeue is asked exactly when a tier still overflows.  A
    retry leaves the catalog as it was. *)
Theorem compaction_commit_correct `{Env} (token : string) (sources : list PackCatalogRow)
    (t pv : Z) (staged : StagedPack) (w : world) :
  match commitCompactionState token sources t pv staged w with
  | (Ok (CompactionCommitted c), w') =>
    orZ (packsetVersion (st w)) 0 = pv /\ compacted sources t staged (st w) c (st w')
  | (Ok (CompactionRetry _), w') => pack_catalog (st w') = pack_catalog (st w)
  | (Err _, _) => True
  end.
Proof.
  to_wp (commitCompactionState token sources t pv staged) w. by apply wp_commit_compaction.
Qed.

(** Compaction terminates.  Every round that commits a plan leaves three
    active packs fewer, so from a well-formed catalog with [a] active packs there
    are at most [a / 3] rounds, and the catalog stays well formed. *)
Theorem compactions_bounded `{Env} (n : nat) (w w' : world) :
  compactions n w w' -> rows_wf (pack_catalog (st w)) ->
  (active_count (st w') + 3 * n = active_count (st w))%nat /\ rows_wf (pack_catalog (st w')).
Proof.
  induction 1 as [w|n w w1 w2 token pv staged plan c Hp Hfresh Hrun _ IH]; intros Hwf; [by split; [lia|]|].
  assert (compacted (sourcePacks plan) (targetTier plan) staged (st w) c (st w1)) as Hc.
  { pose proof (wp_commit_compaction token (sourcePacks plan) (targetTier plan) pv staged
      (fun r w' => forall c', r = Ok (CompactionCommitted c') ->
         compacted (sourcePacks plan) (targetTier plan) staged (st w) c' (st w')) w) as Hwp.
    unfold wp in Hwp. rewrite Hrun in Hwp. apply Hwp; [done | done | | done].
    intros c' s m _ Hc c'' [= <-]. done. }
  destruct (plan_sources_nodup _ _ Hwf Hp) as [Hnd Hlen].
  pose proof (compacted_count _ _ _ _ _ _ Hc Hwf Hnd Hfresh) as Hcount. rewrite Hlen in Hcount.
  destruct (IH (compacted_wf _ _ _ _ _ _ Hc Hwf)) as [Hn Hwf']. split; [|done].
  unfold COMPACTION_FAN_IN in Hcount. lia.
Qed.

Lemma compactions_bounded_witness :
  let rows := [demo_row "a" 1; demo_row "b" 2; demo_row "c" 3; demo_row "d" 4; demo_row "e" 5] in
  let s := set_compactLease (Some (mkLease "t" 0 600000 (Some OpCompaction)))
             (set_pack_catalog rows empty_storage) in
  let w' := (commitCompactionState (H := demo_env) "t" (take 4 rows) 1 0
               (mkStaged "new" 64 64 4 None) (World s 0)).2 in
  (active_count (st w') + 3 * 1 = 5)%nat /\ rows_wf (pack_catalog (st w')).
Proof.
  intros rows s w'.
  apply (compactions_bounded (H := demo_env) 1 (World s 0) w').
  - eapply (compactions_step 0 (World s 0) w' w' "t" 0 (mkStaged "new" 64 64 4 None));
      [vm_compute; reflexivity | by apply (bool_decide_unpack _); vm_compute | vm_compute; reflexivity |].
    apply compactions_done.
  - split; [by apply (bool_decide_unpack _); vm_compute|].
    intros row Hr. repeat (apply elem_of_cons in Hr as [->|Hr]; [reflexivity|]).
    by apply elem_of_nil in Hr.
Defined.
