(* ===== verification/NativeExecution.v ===== *)
(** * Native executions: the coordinator's generations and the host's slot

    [do/repo/nativeExecution.ts] issues execution generations;
    [do/nativeProcessorSlot.ts] is the host's copy, with a storage of its own
    ([Module Slot]). *)
From S2P Require Import Prelude Storage Effects Lifecycle.

#[local] Set Warnings "-clear-no-such-hyp".

(** ** Definitions *)

Definition NATIVE_EXECUTION_TIMEOUT_MS : Z := 14 * 60000.

Definition lane_record (lane : NativeExecutionLane) (s : Storage) : option NativeExecutionRecord :=
  match lane with
  | LaneForeground => nativeExecutionForeground s
  | LaneMaintenance => nativeExecutionMaintenance s
  end.

Definition set_lane_record (lane : NativeExecutionLane) (r : option NativeExecutionRecord)
    : Storage -> Storage :=
  match lane with
  | LaneForeground => set_nativeExecutionForeground r
  | LaneMaintenance => set_nativeExecutionMaintenance r
  end.

Definition owns_claim (lane : NativeExecutionLane) (operationId claimId : string) (now : Z)
    (s : Storage) : bool :=
  if truthy (repositoryDeleting s) then false else
  match lane with
  | LaneMaintenance =>
    match gcOperation s with
    | Some o => str_eq (gc_id o) operationId && bool_decide (gc_phase o = GcIndex) &&
                match gc_claim o with
                | Some c => str_eq (claim_id c) claimId && (now <? claim_expiresAt c)
                | None => false
                end
    | None => false
    end
  | LaneForeground =>
    match nativeReceiveOperations s !! operationId with
    | Some o => bool_decide (native_state o = NrProcessing) &&
                ostr_eq (native_claimId o) (Some claimId) &&
                (now <? default 0 (native_claimExpiresAt o))
    | None => false
    end
  end.

(** A previous execution that still blocks a new one. *)
Definition execution_blocks (now : Z) (previous : option NativeExecutionRecord) : bool :=
  match previous with
  | Some r => bool_decide (ne_state r = NeActive) || truthy (ne_stopPending r) ||
              (now <? ne_drainUntil r)
  | None => false
  end.

Inductive FinishOutcome := FinishCompleted | FinishRevoked.

Definition settled_record (outcome : FinishOutcome) (completedAt drainFrom : Z) (r : NativeExecutionRecord)
    : NativeExecutionRecord :=
  let revoked := match outcome with FinishRevoked => true | FinishCompleted => false end in
  mkExecution (ne_identity r) (if revoked then NeRevoked else NeCompleted)
    (if revoked then drainFrom + EXPIRED_WRITER_DRAIN_MS else 0) (Some revoked) (ne_dispatchedAt r)
    (Some completedAt) (ne_inputReadStartedAt r) (ne_readRequests r) (ne_declaredReadBytes r)
    (ne_writeRequests r) (ne_completedWriteBytes r).

Definition note_read (bytes now : Z) (r : NativeExecutionRecord) : NativeExecutionRecord :=
  mkExecution (ne_identity r) (ne_state r) (ne_drainUntil r) (ne_stopPending r) (ne_dispatchedAt r)
    (ne_completedAt r) (Some (default now (ne_inputReadStartedAt r)))
    (Some (default 0 (ne_readRequests r) + 1)) (Some (default 0 (ne_declaredReadBytes r) + bytes))
    (ne_writeRequests r) (ne_completedWriteBytes r).

Definition note_write (bytes : Z) (r : NativeExecutionRecord) : NativeExecutionRecord :=
  mkExecution (ne_identity r) (ne_state r) (ne_drainUntil r) (ne_stopPending r) (ne_dispatchedAt r)
    (ne_completedAt r) (ne_inputReadStartedAt r) (ne_readRequests r) (ne_declaredReadBytes r)
    (Some (default 0 (ne_writeRequests r) + 1)) (Some (default 0 (ne_completedWriteBytes r) + bytes)).

Definition stop_acknowledged (r : NativeExecutionRecord) : NativeExecutionRecord :=
  mkExecution (ne_identity r) (ne_state r) (ne_drainUntil r) (Some false) (ne_dispatchedAt r)
    (ne_completedAt r) (ne_inputReadStartedAt r) (ne_readRequests r) (ne_declaredReadBytes r)
    (ne_writeRequests r) (ne_completedWriteBytes r).

Section NativeExecution.
Context `{Env}.

Definition ownsClaim (lane : NativeExecutionLane) (operationId claimId : string) : DO bool :=
  let! now := Date_now in
  get (owns_claim lane operationId claimId now).

Definition beginNativeExecution (lane : NativeExecutionLane) (operationId claimId : string)
    (propsOperationId grantSha256 : string) : DO (option NativeExecutionIdentity) :=
  if negb (str_eq propsOperationId operationId) then ret None else
  transaction (
    let! owns := ownsClaim lane operationId claimId in
    if negb owns then ret None else
    let! previous := get (lane_record lane) in
    let! now := Date_now in
    if execution_blocks now previous then ret None else
    let! current := get nativeExecutionGeneration in
    let generation := default 0 current + 1 in
    let! issuedAt := Date_now in
    let identity := mkIdentity do_id lane generation operationId claimId
                      (issuedAt + NATIVE_EXECUTION_TIMEOUT_MS) grantSha256 in
    put (set_nativeExecutionGeneration (Some generation)) ;!
    let! dispatchedAt := Date_now in
    put (set_lane_record lane (Some (mkExecution identity NeActive 0 None (Some dispatchedAt) None
           None None None None None))) ;!
    ret (Some identity)).

Definition authorizeNativeExecution (identity : NativeExecutionIdentity) : DO bool :=
  transaction (
    let! now := Date_now in
    if negb (str_eq (ne_repositoryId identity) do_id) || (ne_expiresAt identity <=? now)
    then ret false else
    let! record := get (lane_record (ne_lane identity)) in
    let! owns := ownsClaim (ne_lane identity) (ne_operationId identity) (ne_claimId identity) in
    ret (match record with
         | Some r => bool_decide (ne_state r = NeActive) &&
                     sameNativeExecution (ne_identity r) identity && owns
         | None => false
         end)).

Definition finishNativeExecution (identity : NativeExecutionIdentity) (outcome : FinishOutcome)
    : DO bool :=
  transaction (
    let! record := get (lane_record (ne_lane identity)) in
    match record with
    | None => ret false
    | Some r =>
      if negb (sameNativeExecution (ne_identity r) identity) then ret false else
      if negb (bool_decide (ne_state r = NeActive)) then ret false else
      let! now := Date_now in
      let! owns := ownsClaim (ne_lane identity) (ne_operationId identity) (ne_claimId identity) in
      if (match outcome with
          | FinishCompleted => negb (str_eq (ne_repositoryId identity) do_id) ||
                               (ne_expiresAt identity <=? now) || negb owns
          | FinishRevoked => false
          end) then ret false else
      let! completedAt := Date_now in
      let! drainFrom := Date_now in
      put (set_lane_record (ne_lane identity)
             (Some (settled_record outcome completedAt drainFrom r))) ;!
      ret true
    end).

Definition noteNativeBridgeIO (identity : NativeExecutionIdentity) (isRead : bool) (bytes : Z)
    : DO unit :=
  if negb ((- (2 ^ 53 - 1) <=? bytes) && (bytes <=? 2 ^ 53 - 1)) || (bytes <? 0) then ret tt else
  transaction (
    let! record := get (lane_record (ne_lane identity)) in
    match record with
    | None => ret tt
    | Some r =>
      if negb (sameNativeExecution (ne_identity r) identity) then ret tt else
      let! now := Date_now in
      put (set_lane_record (ne_lane identity)
             (Some (if isRead then note_read bytes now r else note_write bytes r)))
    end).

Definition acknowledgeNativeStop (identity : NativeExecutionIdentity) : DO unit :=
  transaction (
    let! record := get (lane_record (ne_lane identity)) in
    match record with
    | None => ret tt
    | Some r =>
      if bool_decide (ne_state r = NeRevoked) && sameNativeExecution (ne_identity r) identity
      then put (set_lane_record (ne_lane identity) (Some (stop_acknowledged r)))
      else ret tt
    end).
End NativeExecution.

(** ** The host's slot *)

Module Slot.
(** The storage of the host object: its record, the generations revoked so
    far, and its deletion fence. *)
Record slot := mkSlot {
  slot_record : option (NativeExecutionIdentity * NativeExecutionState);
  slot_revokedThrough : option Z;
  slot_deleting : bool }.

Definition empty : slot := mkSlot None None false.

(** The admission transaction of [startNativeProcessorSlot]. *)
Definition start (identity : NativeExecutionIdentity) (now : Z) (s : slot) : bool * slot :=
  if (ne_expiresAt identity <=? now) || slot_deleting s ||
     (ne_generation identity <=? default 0 (slot_revokedThrough s)) ||
     (match slot_record s with
      | Some (previous, state) =>
        (ne_generation identity <=? ne_generation previous) || bool_decide (state = NeActive)
      | None => false
      end)
  then (false, s)
  else (true, mkSlot (Some (identity, NeActive)) (slot_revokedThrough s) (slot_deleting s)).

Definition finish (identity : NativeExecutionIdentity) (s : slot) : slot :=
  match slot_record s with
  | Some (current, NeActive) =>
    if sameNativeExecution current identity
    then mkSlot (Some (current, NeCompleted)) (slot_revokedThrough s) (slot_deleting s) else s
  | _ => s
  end.

Definition stop (identity : NativeExecutionIdentity) (s : slot) : bool * slot :=
  let revoked := Some (Z.max (ne_generation identity) (default 0 (slot_revokedThrough s))) in
  match slot_record s with
  | Some (current, state) =>
    if ne_generation identity <? ne_generation current then (false, s) else
    if (ne_generation current =? ne_generation identity) &&
       negb (sameNativeExecution current identity) then (false, s) else
    if ne_generation current <? ne_generation identity
    then (false, mkSlot (slot_record s) revoked (slot_deleting s))
    else (true, mkSlot (Some (identity, NeRevoked)) revoked (slot_deleting s))
  | None => (true, mkSlot (Some (identity, NeRevoked)) revoked (slot_deleting s))
  end.

Definition delete_slot (s : slot) : slot :=
  mkSlot ((fun p => (p.1, NeRevoked)) <$> slot_record s) (slot_revokedThrough s) true.

Inductive event := EvStart (i : NativeExecutionIdentity) (now : Z) | EvFinish (i : NativeExecutionIdentity)
  | EvStop (i : NativeExecutionIdentity) | EvDelete.

(** One event, with the generation it admits. *)
Definition step (e : event) (s : slot) : option Z * slot :=
  match e with
  | EvStart i now => let r := start i now s in
                     (if r.1 then Some (ne_generation i) else None, r.2)
  | EvFinish i => (None, finish i s)
  | EvStop i => (None, (stop i s).2)
  | EvDelete => (None, delete_slot s)
  end.

Fixpoint run (events : list event) (s : slot) : list Z * slot :=
  match events with
  | [] => ([], s)
  | e :: r =>
    let x := step e s in
    let y := run r x.2 in
    (match x.1 with Some g => g :: y.1 | None => y.1 end, y.2)
  end.
End Slot.

(** ** Lemmas *)

(** Generations up to the floor of a slot can no longer start. *)
Definition slot_floor (s : Slot.slot) : Z :=
  Z.max (default 0 (Slot.slot_revokedThrough s))
    (match Slot.slot_record s with
     | Some (current, _) => ne_generation current
     | None => default 0 (Slot.slot_revokedThrough s)
     end).

Lemma slot_start_floor i now s :
  (Slot.start i now s).1 = true ->
  slot_floor s < ne_generation i /\ slot_floor (Slot.start i now s).2 = ne_generation i.
Proof.
  unfold Slot.start, slot_floor. destruct (_ || _) eqn:E; [done|]. intros _.
  repeat (apply orb_false_iff in E as [E ?]). destruct (Slot.slot_record s) as [[current state]|];
    simpl; repeat match goal with H : _ || _ = false |- _ => apply orb_false_iff in H as [? ?] end;
    to_prop; lia.
Qed.

Lemma slot_stop_floor i s :
  slot_floor s <= slot_floor (Slot.stop i s).2 /\ ne_generation i <= slot_floor (Slot.stop i s).2.
Proof.
  unfold Slot.stop, slot_floor. destruct s as [[[current state]|] revoked deleting]; simpl.
  - destruct (ne_generation i <? ne_generation current) eqn:E1; simpl; to_prop; [lia|].
    destruct (_ && _) eqn:E2; simpl.
    + apply andb_true_iff in E2 as [E2 _]. to_prop. lia.
    + destruct (ne_generation current <? ne_generation i) eqn:E3; simpl; to_prop; lia.
  - lia.
Qed.

Lemma slot_step_floor e s : slot_floor s <= slot_floor (Slot.step e s).2.
Proof.
  destruct e as [i now|i|i|]; simpl.
  - destruct (Slot.start i now s).1 eqn:E.
    + destruct (slot_start_floor i now s E). lia.
    + unfold Slot.start in *. by destruct (_ || _).
  - unfold Slot.finish, slot_floor. destruct (Slot.slot_record s) as [[current []]|] eqn:E; try lia;
      [destruct (sameNativeExecution current i)|..]; simpl; rewrite ?E; lia.
  - apply slot_stop_floor.
  - unfold slot_floor. simpl. destruct (Slot.slot_record s) as [[current state]|]; simpl; lia.
Qed.

Lemma slot_run_above events s g : g ∈ (Slot.run events s).1 -> slot_floor s < g.
Proof.
  revert s. induction events as [|e events IH]; intros s; csimpl; [by intros ?%elem_of_nil|].
  pose proof (slot_step_floor e s) as Hf. destruct e as [i now|i|i|]; simpl in *;
    try (intros Hg%IH; lia).
  destruct (Slot.start i now s).1 eqn:E; [|intros Hg%IH; lia].
  destruct (slot_start_floor i now s E). intros [->|Hg]%elem_of_cons; [done|].
  apply IH in Hg. lia.
Qed.

(** The job of an execution is claimed by who asks for it. *)
Definition claimed (lane : NativeExecutionLane) (operationId claimId : string) (now : Z) (s : Storage)
    : Prop :=
  truthy (repositoryDeleting s) = false /\
  match lane with
  | LaneMaintenance => exists o c, gcOperation s = Some o /\ gc_id o = operationId /\
      gc_phase o = GcIndex /\ gc_claim o = Some c /\ claim_id c = claimId /\ now < claim_expiresAt c
  | LaneForeground => exists o, nativeReceiveOperations s !! operationId = Some o /\
      native_state o = NrProcessing /\ native_claimId o = Some claimId /\
      now < default 0 (native_claimExpiresAt o)
  end.

Lemma owns_claim_claimed lane operationId claimId now s :
  owns_claim lane operationId claimId now s = true <-> claimed lane operationId claimId now s.
Proof.
  unfold owns_claim, claimed, ostr_eq, str_eq. destruct (truthy _); [naive_solver|]. destruct lane.
  - destruct (nativeReceiveOperations s !! operationId) as [o|]; [|naive_solver].
    rewrite !andb_true_iff, !bool_decide_eq_true, Z.ltb_lt. naive_solver.
  - destruct (gcOperation s) as [o|]; [|naive_solver].
    destruct (gc_claim o) as [c|] eqn:E; rewrite ?andb_false_r; [|naive_solver].
    rewrite !andb_true_iff, !bool_decide_eq_true, Z.ltb_lt. naive_solver.
Qed.

(** The previous execution of a lane is over. *)
Definition lane_over (lane : NativeExecutionLane) (now : Z) (s : Storage) : Prop :=
  forall r, lane_record lane s = Some r ->
    ne_state r <> NeActive /\ truthy (ne_stopPending r) = false /\ ne_drainUntil r <= now.

Lemma execution_over lane now s :
  execution_blocks now (lane_record lane s) = false -> lane_over lane now s.
Proof.
  unfold execution_blocks, lane_over. intros Hb r Hr. rewrite Hr in Hb. to_prop. done.
Qed.

Lemma same_execution a b : sameNativeExecution a b = true <-> a = b.
Proof.
  unfold sameNativeExecution, str_eq. rewrite !andb_true_iff, !bool_decide_eq_true, !Z.eqb_eq.
  destruct a, b; simpl. split; [intros; destruct_and!; by subst | by intros [= -> -> -> -> -> -> ->]].
Qed.

(** ** Properties *)

(** The host starts executions in order.  In any sequence of starts, finishes,
    stops and deletions the generations the slot admits are strictly increasing
    and above everything it admitted or revoked before, so a delayed dispatch of an
    older execution never runs. *)
Theorem slot_generations_increase (events : list Slot.event) (s : Slot.slot) :
  StronglySorted Z.lt (Slot.run events s).1 /\
  forall g, g ∈ (Slot.run events s).1 -> slot_floor s < g.
Proof.
  split; [|intros g; apply slot_run_above].
  revert s. induction events as [|e events IH]; intros s; csimpl; [constructor|].
  destruct e as [i now|i|i|]; simpl; try apply IH.
  destruct (Slot.start i now s).1 eqn:E; [|apply IH]. constructor; [apply IH|].
  apply Forall_forall. intros g Hg%slot_run_above. destruct (slot_start_floor i now s E). lia.
Qed.

(** A stop is final.  Whatever the slot holds when it is told to stop an
    execution and whatever it answers, no execution of that generation or an older
    one starts afterwards; and once the host is being deleted nothing starts. *)
Theorem slot_stop_final (events : list Slot.event) (i : NativeExecutionIdentity) (s : Slot.slot) :
  (forall g, g ∈ (Slot.run events (Slot.stop i s).2).1 -> ne_generation i < g) /\
  (Slot.run events (Slot.delete_slot s)).1 = [].
Proof.
  split.
  - intros g Hg%slot_run_above. destruct (slot_stop_floor i s). lia.
  - assert (forall s', Slot.slot_deleting s' = true -> (Slot.run events s').1 = []) as Hd;
      [|by apply Hd].
    induction events as [|e events IH]; intros s' Hs; [done|]. simpl.
    assert (Slot.slot_deleting (Slot.step e s').2 = true /\ (Slot.step e s').1 = None) as [H1 H2].
    { destruct e as [j now|j|j|]; simpl.
      - unfold Slot.start. by rewrite Hs, orb_true_r.
      - unfold Slot.finish. destruct (Slot.slot_record s') as [[? []]|]; try done.
        by destruct (sameNativeExecution _ _).
      - unfold Slot.stop. destruct (Slot.slot_record s') as [[? ?]|]; [|done].
        by repeat match goal with |- context [if ?b then _ else _] => destruct b end.
      - done. }
    rewrite H2. by apply IH.
Qed.

(** The coordinator issues one execution per lane and never a generation
    twice.  An identity is issued only for the job the caller proves it owns, on a
    lane whose previous execution is neither active nor waiting for its stop nor
    draining; it carries the next generation, becomes the lane's active record and
    leaves the other lane alone.  Every other answer leaves the storage as it was. *)
Theorem native_execution_issued_once `{Env} (lane : NativeExecutionLane)
    (operationId claimId props grant : string) (w : world) :
  match beginNativeExecution lane operationId claimId props grant w with
  | (Ok (Some i), w') =>
    props = operationId /\ ne_lane i = lane /\ ne_operationId i = operationId /\
    ne_claimId i = claimId /\
    ne_generation i = default 0 (nativeExecutionGeneration (st w)) + 1 /\
    nativeExecutionGeneration (st w') = Some (ne_generation i) /\
    claimed lane operationId claimId (env_now (tick w)) (st w) /\
    lane_over lane (env_now (S (tick w))) (st w) /\
    (exists r, lane_record lane (st w') = Some r /\ ne_identity r = i /\ ne_state r = NeActive) /\
    (forall other, other ≠ lane -> lane_record other (st w') = lane_record other (st w))
  | (_, w') => st w' = st w
  end.
Proof.
  to_wp (beginNativeExecution lane operationId claimId props grant) w.
  unfold beginNativeExecution, ownsClaim. destruct w as [s n].
  destruct (str_eq props operationId) eqn:Ep; [|by apply wp_ret]. apply bool_decide_eq_true in Ep.
  cbn [negb]. apply wp_transaction. wp_run; cbn [st bump] in *; try done.
  apply negb_false_iff, owns_claim_claimed in Heqb. apply execution_over in Heqb0.
  split_and!; try done; [by destruct lane | |].
  - eexists. split; [by destruct lane | done].
  - intros other Hne. by destruct lane, other.
Qed.

(** Only the running execution is authorized.  A request of the host passes
    exactly when it names this repository, has not expired, is the identity of its
    lane's active record and its job is still owned; the check changes nothing. *)
Theorem native_authorization_exact `{Env} (i : NativeExecutionIdentity) (w : world) :
  let now := env_now (tick w) in
  exists b w', authorizeNativeExecution i w = (Ok b, w') /\ st w' = st w /\
    (b = true <->
      ne_repositoryId i = do_id /\ now < ne_expiresAt i /\
      (exists r, lane_record (ne_lane i) (st w) = Some r /\ ne_state r = NeActive /\ ne_identity r = i) /\
      claimed (ne_lane i) (ne_operationId i) (ne_claimId i) (env_now (S (tick w))) (st w)).
Proof.
  cbv zeta. assert (wp (authorizeNativeExecution i) (fun r w' => st w' = st w /\
    exists b, r = Ok b /\ (b = true <->
      ne_repositoryId i = do_id /\ env_now (tick w) < ne_expiresAt i /\
      (exists r, lane_record (ne_lane i) (st w) = Some r /\ ne_state r = NeActive /\ ne_identity r = i) /\
      claimed (ne_lane i) (ne_operationId i) (ne_claimId i) (env_now (S (tick w))) (st w))) w) as Hwp.
  { unfold authorizeNativeExecution, ownsClaim. destruct w as [s n].
    apply wp_transaction, wp_bind, wp_now. cbn [st tick].
    destruct (negb _ || _) eqn:E.
    - apply wp_ret. split; [done|]. exists false. split; [done|]. split; [done|].
      intros (Hi & He & _). unfold str_eq in E. rewrite Hi, bool_decide_true in E by done.
      simpl in E. apply Z.leb_le in E. lia.
    - apply orb_false_iff in E as [E1 E2]. apply negb_false_iff, bool_decide_eq_true in E1.
      apply Z.leb_gt in E2. apply wp_bind, wp_get, wp_bind, wp_bind, wp_now, wp_get, wp_ret.
      cbn [st bump tick]. split; [done|]. eexists. split; [done|].
      destruct (lane_record (ne_lane i) s) as [r|].
      + rewrite !andb_true_iff, bool_decide_eq_true, same_execution, owns_claim_claimed. split.
        * intros [[H1 H2] H3]. split_and!; try done. by exists r.
        * intros (_ & _ & (r' & [= <-] & H1 & H2) & H3). done.
      + split; [done|]. intros (_ & _ & (r' & [=] & _) & _). }
  unfold wp in Hwp. destruct (authorizeNativeExecution i w) as [r w']. simpl in Hwp.
  destruct Hwp as (H1 & b & -> & H2). by exists b, w'.
Qed.
