(* ===== verification/NativeReceive.v ===== *)
(** * Native receives: the queue of pushes the repository object runs itself

    [do/repo/nativeReceive.ts]: a push whose pack is staged in R2 is enqueued as an
    operation, claimed by a run - of the queue, of the alarm - handed to a processor
    under a fenced execution, kept as its result, and finalized as a receive; a run
    that is interrupted anywhere is taken up by the next one.  An operation goes from
    [staged] over [processing], [ready] and [finalizing] to [committed] or [aborted],
    or ends [failed].

    The claim is the fence: it is the token by which a run writes its operation.
    Stock receives are refused by [enqueueNativeReceiveState] and passed over by
    [runNativeReceiveOperationState] and the alarm, so the branches for them behind
    these tests are left out, and with them the evidence events.  The container, its
    slot and the timer of the heartbeat are the class [Container]; a beat is
    [heartbeat], and runs at the open gates.  Only the foreground lane is run from here. *)
From S2P Require Import Prelude NativeTypes Storage Effects Text Keys StockProof AuthorityPlan.
From S2P Require Import RefUpdate Catalog Activity Scheduler Gc Leases Receive NativeExecution StockReceive.
From Stdlib Require String.

(** ** Definitions *)

Definition MAX_PROCESS_ATTEMPTS : Z := 5.
Definition NATIVE_READER_LEASE_TTL_MS : Z := 2 * 60000.
Definition PROCESSING_CLAIM_TTL_MS : Z := 3 * 60000.
Definition OUTPUT_SIDECAR_MAX_BYTES : Z := 1000000000.

(** *** What a processor is asked, and what it may do *)

Record ProcessPack := mkProcessPack { ppk_packKey : string; ppk_packBytes : Z; ppk_idxBytes : Z }.

Record NativeReceiveProcessRequest := mkProcessRequest {
  rq_operationId : string;
  rq_inputPackKey : string;
  rq_inputBytes : Z;
  rq_activePacks : list ProcessPack;
  rq_commands : list ReceiveCommand;
  rq_outputPackKey : string;
  rq_outputIdxKey : string;
  rq_outputRefsKey : string }.

Definition processRequest (o : NativeReceiveOperation) : NativeReceiveProcessRequest :=
  mkProcessRequest (native_id o) (native_inputPackKey o) (native_inputBytes o)
    ((fun pack => mkProcessPack (packKey pack) (packBytes pack) (idxBytes pack)) <$> native_activeCatalog o)
    (native_commands o) (native_outputPackKey o) (native_outputIdxKey o) (native_outputRefsKey o).

Record ReadGrant := mkReadGrant { rg_key : string; rg_expectedBytes : Z; rg_expectedEtag : option string }.

Record RepositoryContainerBridgeProps := mkBridgeProps {
  bp_operationId : string;
  bp_readKeys : list ReadGrant;
  bp_writeKeys : list (string * Z);           (* a key and the bytes that may be written *)
  bp_requireWriteSha256 : bool }.

Definition bridgeProps (o : NativeReceiveOperation) : RepositoryContainerBridgeProps :=
  let activeBytes := foldl (fun total pack => total + packBytes pack) 0 (native_activeCatalog o) in
  mkBridgeProps (native_id o)
    (mkReadGrant (native_inputPackKey o) (native_inputBytes o) (Some (native_inputEtag o)) ::
     flat_map (fun pack => [mkReadGrant (packKey pack) (packBytes pack) None;
                            mkReadGrant (packIndexKey (packKey pack)) (idxBytes pack) None]) (native_activeCatalog o))
    [(native_outputPackKey o, native_inputBytes o + activeBytes); (native_outputIdxKey o, OUTPUT_SIDECAR_MAX_BYTES);
     (native_outputRefsKey o, OUTPUT_SIDECAR_MAX_BYTES)]
    false.

(** A [NativeProcessorError]. *)
Record ProcessorError := mkProcessorError { pe_code : string; pe_retryable : bool }.

Definition native_execution_busy := mkProcessorError "native_execution_busy" true.
Definition container_unavailable := mkProcessorError "container_unavailable" true.
Definition container_not_ready := mkProcessorError "container_not_ready" true.
Definition container_transport_failure := mkProcessorError "container_transport_failure" true.
Definition container_response_too_large := mkProcessorError "container_response_too_large" false.
Definition container_invalid_response := mkProcessorError "container_invalid_response" false.
Definition container_transient_failure := mkProcessorError "container_transient_failure" true.
Definition native_git_rejected := mkProcessorError "native_git_rejected" false.
Definition native_processor_failed := mkProcessorError "native_processor_failed" true.

(** The answer of the container: no response at all, or a status with a body, which
    is longer than the bound, no JSON text, or a value - in the shape of a result, or
    not. *)
Inductive ContainerPayload := TooLarge | NotJson | Json (result : option NativeReceiveProcessResult).
Inductive ContainerResponse := NoResponse | Response (status : Z) (payload : ContainerPayload).

(** The answer of [startNativeProcessorSlot], which starts the container. *)
Inductive SlotAnswer := SlotStarted | SlotTaken | SlotUnavailable | SlotThrew.

Class Container := {
  container_slot : nat -> NativeExecutionIdentity -> SlotAnswer;
  container_ready : nat -> bool;                             (* [waitForContainerReady] returns *)
  container_process : nat -> NativeReceiveProcessRequest -> ContainerResponse;
  container_stop : nat -> bool;                              (* [stopNativeProcessorSlot] returns *)
  container_grant : RepositoryContainerBridgeProps -> string;  (* the digest of the grant *)
  heartbeat_lost : nat -> bool;                              (* a renewal failed meanwhile *)
  gc_inspect : nat -> option RetentionReason }.              (* see [fin_inspect] *)

(** [stopNativeProcessorSlot] and the other calls to the slot. *)
Definition stop_slot `{Env, Container} : DO unit :=
  let! stopped := external container_stop in if stopped : bool then ret tt else throw "slot:stop".

(** *** The ledger *)

Inductive EnqueueNativeReceiveResult :=
  | EnQueued (operation : NativeReceiveOperationView)
  | EnReplayed (operation : NativeReceiveOperationView)
  | EnConflict (message : string)
  | EnLeaseMismatch
  | EnRepositoryDeleting
  | EnDispatchFailed (message : string).

Inductive MatchNativeReceiveOperationResult :=
  | MatchNotFound | MatchConflict | MatchFound (operation : NativeReceiveOperationView).

Definition operationFingerprintMatches (existing input : NativeReceiveOperation) : bool :=
  str_eq (native_fingerprint existing) (native_fingerprint input).

(** A failed stock receive that may be staged again. *)
Definition may_stage_again (existing : NativeReceiveOperation) : bool :=
  native_stock existing && is_state NrFailed existing && ostr_eq (native_errorCode existing) (Some "r2-transient"%string) &&
  negb (native_cleanupPending existing).

Section NativeReceive.
Context `{Env, Container}.

Definition getNativeReceiveOperationState (operationId : string) : DO (option NativeReceiveOperation) := get (native_of operationId).

Definition matchNativeReceiveOperationState (operationId fingerprint : string) : DO MatchNativeReceiveOperationResult :=
  let! operation := getNativeReceiveOperationState operationId in
  ret (match operation with
       | None => MatchNotFound
       | Some o => if negb (str_eq (native_fingerprint o) fingerprint) then MatchConflict
                   else MatchFound (nativeReceiveOperationView o)
       end).

Definition recordNativeReceiveClientAckState (operationId : string) : DO bool :=
  transaction (
    let! operation := get (native_of operationId) in
    match operation with
    | None => ret false
    | Some o =>
      if negb (is_state NrCommitted o) || negb (native_stock o) ||
         negb (truthy_string (native_result o ≫= tr_receivePackResponse)) then ret false else
      if bool_decide (is_Some (native_clientAckReadyAt o)) then ret true else
      let! acknowledgedAt := Date_now in
      let! acknowledged := of_res (withEvidence o [ack_event acknowledgedAt]) in
      put_operation (set_native_updatedAt acknowledgedAt (set_native_clientAckReadyAt (Some acknowledgedAt) acknowledged)) ;!
      ret true
    end).

(** The transaction that stages the operation. *)
Definition stage_operation (o : NativeReceiveOperation) : DO EnqueueNativeReceiveResult :=
  transaction (
    let! deleting := get repositoryDeleting in
    if truthy deleting then ret EnRepositoryDeleting else
    let! existing := get (native_of (native_id o)) in
    match existing with
    | Some e =>
      if negb (operationFingerprintMatches e o) then ret (EnConflict "Operation id is already bound to a different receive.") else
      if may_stage_again e then put_operation o ;! ret (EnQueued (nativeReceiveOperationView o)) else
      ret (EnReplayed (nativeReceiveOperationView e))
    | None =>
      let! lease := get receiveLease in
      let! now := Date_now in
      if negb (match lease with
               | Some l => str_eq (lease_token l) (native_leaseToken o) && (now <? lease_expiresAt l)
               | None => false
               end) then ret EnLeaseMismatch else
      let! index := get (fun s => default [] (nativeReceiveOperationIndex s)) in
      let nextIndex := js_push (js_filter (fun id => negb (str_eq id (native_id o))) index) (native_id o) in
      let! room := make_room (length nextIndex - MAX_RETAINED_OPERATIONS) "" nextIndex in
      match room with
      | None => ret (EnConflict "Native receive operation ledger is full.")
      | Some nextIndex =>
        put_operation o ;!
        put (set_nativeReceiveOperationIndex (Some nextIndex)) ;!
        ret (EnQueued (nativeReceiveOperationView o))
      end
    end).

(** The transaction that takes back an operation nobody will run. *)
Definition unstage_operation (o : NativeReceiveOperation) : DO (option NativeReceiveOperationView) :=
  transaction (
    let! current := get (native_of (native_id o)) in
    match current with
    | None => ret None
    | Some c =>
      if str_eq (native_fingerprint c) (native_fingerprint o) && is_state NrStaged c && negb (truthy_string (native_claimId c)) then
        put (fun s => set_nativeReceiveOperations (delete (native_id o) (nativeReceiveOperations s)) s) ;!
        let! index := get (fun s => default [] (nativeReceiveOperationIndex s)) in
        put (set_nativeReceiveOperationIndex (Some (js_filter (fun id => negb (str_eq id (native_id o))) index))) ;!
        ret None
      else ret (Some (nativeReceiveOperationView c))
    end).

(** The operation a result asks to be run. *)
Definition to_dispatch (result : EnqueueNativeReceiveResult) : bool :=
  match result with
  | EnQueued v | EnReplayed v => negb (isNativeReceiveTerminal (view_state v))
  | _ => false
  end.

Definition enqueueNativeReceiveState (o : NativeReceiveOperation) : DO EnqueueNativeReceiveResult :=
  if native_stock o then ret (EnDispatchFailed "Stock receive requires tagged admission.") else
  let! result := stage_operation o in
  if negb (to_dispatch result) then ret result else
  let! dispatchAt := Date_now in
  let! now := Date_now in
  let! wake := scheduleAlarmIfSooner dispatchAt now in
  let alarmViable := scheduled wake || match prev wake with Some prev => prev <=? dispatchAt + 1000 | None => false end in
  let! queueViable := try_catch (queue_send ;! ret true) (fun _ => ret false) in
  if negb alarmViable && negb queueViable then
    let! durable := unstage_operation o in
    match durable with
    | Some v => ret (EnReplayed v)
    | None => ret (EnDispatchFailed "Native receive was staged but durable dispatch could not be scheduled.")
    end
  else ret result.

(** *** Claims *)

Inductive ClaimOperationAttemptResult :=
  | ClaimClaimed (operation : NativeReceiveOperation) (claimId : string)
  | ClaimCurrent (operation : NativeReceiveOperation)
  | ClaimMissing.

(** [operation.claimId && operation.claimExpiresAt !== undefined && operation.claimExpiresAt > now] *)
Definition under_claim (o : NativeReceiveOperation) (now : Z) : bool :=
  truthy_string (native_claimId o) && match native_claimExpiresAt o with Some at_ => now <? at_ | None => false end.

Definition in_finalization (o : NativeReceiveOperation) : bool := is_state NrReady o || is_state NrFinalizing o.

Definition taken (o : NativeReceiveOperation) (claimId : string) (now : Z) : NativeReceiveOperation :=
  set_native_claimExpiresAt (Some (now + PROCESSING_CLAIM_TTL_MS)) (set_native_claimId (Some claimId)
    (set_native_errorCode None (set_native_updatedAt now
      (set_native_attempts (if in_finalization o then native_attempts o else native_attempts o + 1)
        (set_native_state (if in_finalization o then NrFinalizing else NrProcessing) o))))).

Definition holds_token (lease : option RepoLease) (token : string) : bool :=
  match lease with Some l => str_eq (lease_token l) token | None => false end.

Definition claimOperationAttempt (operationId : string) : DO ClaimOperationAttemptResult :=
  let! claimId := randomUUID in
  transaction (
    let! deleting := get repositoryDeleting in
    if truthy deleting then ret ClaimMissing else
    let! operation := get (native_of operationId) in
    match operation with
    | None => ret ClaimMissing
    | Some o =>
      if isNativeReceiveTerminal (native_state o) then ret (ClaimCurrent o) else
      let! now := Date_now in
      if under_claim o now then ret (ClaimCurrent o) else
      let! lease := get receiveLease in
      let! intent := get (fun s => receiveFinalizeIntents s !! native_leaseToken o) in
      if negb (holds_token lease (native_leaseToken o)) && negb (in_finalization o) && bool_decide (intent = None)
      then ret (ClaimCurrent o) else
      let createdAt := match lease with
                       | Some l => if str_eq (lease_token l) (native_leaseToken o) then lease_createdAt l else now
                       | None => now
                       end in
      put (set_receiveLease (Some (mkLease (native_leaseToken o) createdAt (now + RECEIVE_LEASE_TTL_MS) None))) ;!
      put (fun s => set_nativeReceiveOperations (<[operationId := taken o claimId now]> (nativeReceiveOperations s)) s) ;!
      ret (ClaimClaimed (taken o claimId now) claimId)
    end).

Definition renewOperationLease (o : NativeReceiveOperation) (claimId : string) : DO bool :=
  transaction (
    let! deleting := get repositoryDeleting in
    if truthy deleting then ret false else
    let! lease := get receiveLease in
    match lease with
    | None => ret false
    | Some l =>
      if negb (str_eq (lease_token l) (native_leaseToken o)) then ret false else
      let! current := get (native_of (native_id o)) in
      match current with
      | None => ret false
      | Some c =>
        if negb (ostr_eq (native_claimId c) (Some claimId)) then ret false else
        let! now := Date_now in
        put (set_receiveLease (Some (with_expiresAt l (now + RECEIVE_LEASE_TTL_MS)))) ;!
        put_operation (set_native_claimExpiresAt (Some (now + PROCESSING_CLAIM_TTL_MS)) c) ;!
        ret true
      end
    end).

Definition storeClaimedOperation (o : NativeReceiveOperation) (claimId : string) : DO bool :=
  transaction (
    let! current := get (native_of (native_id o)) in
    match current with
    | None => ret false
    | Some c =>
      if negb (ostr_eq (native_claimId c) (Some claimId)) then ret false else
      put_operation o ;! ret true
    end).

(** Without a claim. *)
Definition unclaimed (o : NativeReceiveOperation) : NativeReceiveOperation :=
  set_native_claimExpiresAt None (set_native_claimId None o).

Definition releaseOperationClaim (o : NativeReceiveOperation) (claimId : string) : DO NativeReceiveOperation :=
  let! now := Date_now in
  let released := set_native_updatedAt now (unclaimed o) in
  let! stored := storeClaimedOperation released claimId in
  if stored : bool then ret released else
  let! current := getNativeReceiveOperationState (native_id o) in
  ret (default released current).

(** *** Readers of the catalog *)

Inductive ReaderLeaseResult := ReaderAcquired | ReaderSuperseded | ReaderBusy | ReaderDeleting.

Definition reader_token (l : NativeCatalogReaderLease) : string := lease_token (reader_lease l).
Definition reader_expiresAt (l : NativeCatalogReaderLease) : Z := lease_expiresAt (reader_lease l).

Definition acquireNativeCatalogReaderLease (o : NativeReceiveOperation) : DO ReaderLeaseResult :=
  let! now := Date_now in
  transaction (
    let! deleting := get repositoryDeleting in
    if truthy deleting then ret ReaderDeleting else
    let! generationFloor := get nativeCatalogReaderGenerationFloor in
    if (match generationFloor with Some floor => native_catalogGeneration o <? floor | None => false end) then ret ReaderSuperseded else
    let! existing := get nativeCatalogReaderLease in
    if (match existing with
        | Some l => (now <? reader_expiresAt l) && negb (str_eq (reader_token l) (native_id o))
        | None => false
        end) then ret ReaderBusy else
    let createdAt := match existing with
                     | Some l => if str_eq (reader_token l) (native_id o) then lease_createdAt (reader_lease l) else now
                     | None => now
                     end in
    put (set_nativeCatalogReaderLease (Some (mkReaderLease
      (mkLease (native_id o) createdAt (now + NATIVE_READER_LEASE_TTL_MS) (Some OpNativeReader)) (native_catalogGeneration o)))) ;!
    ret ReaderAcquired).

Definition renewNativeCatalogReaderLease (o : NativeReceiveOperation) : DO bool :=
  let! now := Date_now in
  transaction (
    let! deleting := get repositoryDeleting in
    if truthy deleting then ret false else
    let! existing := get nativeCatalogReaderLease in
    match existing with
    | None => ret false
    | Some l =>
      if negb (str_eq (reader_token l) (native_id o)) || negb (reader_generation l =? native_catalogGeneration o) ||
         (reader_expiresAt l <=? now) then ret false else
      put (set_nativeCatalogReaderLease (Some (mkReaderLease
        (with_expiresAt (reader_lease l) (now + NATIVE_READER_LEASE_TTL_MS)) (reader_generation l)))) ;!
      ret true
    end).

Definition releaseNativeCatalogReaderLease (operationId : string) : DO unit :=
  transaction (
    let! existing := get nativeCatalogReaderLease in
    if (match existing with Some l => str_eq (reader_token l) operationId | None => false end)
    then put (set_nativeCatalogReaderLease None) else ret tt).

(** [Math.max(1, Math.ceil(ms / 1000))]. *)
Definition retry_seconds (ms : Z) : Z := Z.max 1 (- (- ms / 1000)).

(** No reader of an older generation is admitted from now on. *)
Definition raise_floor (generation : option Z) : DO (bool * option Z) :=
  match generation with
  | Some g =>
    let! floor := get nativeCatalogReaderGenerationFloor in
    (if match floor with Some f => f <? g | None => true end
     then put (set_nativeCatalogReaderGenerationFloor (Some g)) else ret tt) ;!
    ret (true, None)
  | None => ret (true, None)
  end.

(** Whether the objects of a superseded generation may be deleted, or when to ask
    again. *)
Definition canDeleteSupersededGenerationState (generation : option Z) : DO (bool * option Z) :=
  transaction (
    let! lease := get nativeCatalogReaderLease in
    let! now := Date_now in
    let! leases := get (fun s => default [] (repositoryReadLeases s)) in
    let repositoryReaders := js_filter (fun reader => now <? lease_expiresAt reader) leases in
    match repositoryReaders with
    | reader :: rest =>
      put (set_repositoryReadLeases (Some repositoryReaders)) ;!
      ret (false, Some (retry_seconds (foldl (fun m r => Z.max m (lease_expiresAt r)) (lease_expiresAt reader) rest - now)))
    | [] =>
      put (set_repositoryReadLeases None) ;!
      match lease with
      | Some l =>
        if (now <? reader_expiresAt l) &&
           match generation with Some g => reader_generation l <? g | None => true end
        then ret (false, Some (retry_seconds (reader_expiresAt l - now)))
        else raise_floor generation
      | None => raise_floor generation
      end
    end).

(** *** Executions *)

(** A result, or the error of the processor; other exceptions are thrown. *)
Definition Processed : Type := (NativeReceiveProcessResult + ProcessorError)%type.

Definition cancelNativeExecution (identity : NativeExecutionIdentity) : DO unit :=
  finishNativeExecution identity FinishRevoked ;!
  stop_slot ;!
  acknowledgeNativeStop identity.

Definition reconcileNativeExecutionLeases : DO unit :=
  let! record := get nativeExecutionForeground in
  match record with
  | None => ret tt
  | Some r =>
    let! stale := (if truthy (ne_stopPending r) then ret true else
                   if bool_decide (ne_state r = NeActive) then
                     let! authorized := authorizeNativeExecution (ne_identity r) in ret (negb authorized)
                   else ret false) in
    if stale : bool then cancelNativeExecution (ne_identity r) else ret tt
  end.

Definition read_response (operationId : string) (response : ContainerResponse) : Processed :=
  match response with
  | NoResponse => inr container_transport_failure
  | Response _ TooLarge => inr container_response_too_large
  | Response _ NotJson => inr container_invalid_response
  | Response status (Json parsed) =>
    if negb (status =? 200) then inr (if 500 <=? status then container_transient_failure else native_git_rejected) else
    match parsed with
    | Some result => if str_eq (pr_operationId result) operationId then inl result else inr container_invalid_response
    | None => inr container_invalid_response
    end
  end.

(** The body of the [try]: an exception of another kind is caught by its handler. *)
Definition process_in_container (request : NativeReceiveProcessRequest) (identity : NativeExecutionIdentity) : DO Processed :=
  let! ready := external container_ready in
  if negb ready then ret (inr container_not_ready) else
  let! authorized := authorizeNativeExecution identity in
  if negb authorized then throw "Native execution authority expired" else
  let! response := external (fun n => container_process n request) in
  match response with
  | NoResponse => throw "fetch"
  | _ => ret (read_response (rq_operationId request) response)
  end.

Definition runContainerProcessor (request : NativeReceiveProcessRequest) (identity : NativeExecutionIdentity) : DO Processed :=
  let! slot := external (fun n => container_slot n identity) in
  match slot with
  | SlotTaken => ret (inr native_execution_busy)
  | SlotUnavailable => ret (inr container_unavailable)
  | SlotThrew => throw "slot:start"
  | SlotStarted =>
    try_finally
      (try_catch (process_in_container request identity) (fun _ => stop_slot ;! ret (inr container_transport_failure)))
      (external (fun _ => tt))
  end.

(** The errors after which the execution is over; after the others it is cancelled. *)
Definition settles (e : ProcessorError) : bool :=
  negb (str_eq (pe_code e) "container_transport_failure") && negb (str_eq (pe_code e) "native_execution_busy").

Definition execution_expired : string := "Native execution authority expired".

Definition runNativeExecution (claimId : string) (request : NativeReceiveProcessRequest) (props : RepositoryContainerBridgeProps) : DO Processed :=
  let! identity := beginNativeExecution LaneForeground (rq_operationId request) claimId (bp_operationId props) (container_grant props) in
  match identity with
  | None => ret (inr native_execution_busy)
  | Some identity =>
    let! outcome := try_catch
      (let! processed := runContainerProcessor request identity in
       match processed with
       | inl result =>
         let! settled := finishNativeExecution identity FinishCompleted in
         if settled : bool then ret (inl (inl result)) else throw execution_expired
       | inr e => ret (inl (inr e))
       end)
      (fun msg => ret (inr msg)) in
    match outcome with
    | inl (inl result) => ret (inl result)
    | inl (inr e) =>
      (if settles e then finishNativeExecution identity FinishCompleted ;! ret tt else cancelNativeExecution identity) ;!
      ret (inr e)
    | inr msg => cancelNativeExecution identity ;! throw msg
    end
  end.

(** Both lanes of the repository are stopped for its deletion. *)
Definition revoke_lane (lane : NativeExecutionLane) : DO (list NativeExecutionIdentity) :=
  let! record := get (lane_record lane) in
  match record with
  | None => ret []
  | Some r =>
    (if bool_decide (ne_state r = NeActive) then finishNativeExecution (ne_identity r) FinishRevoked ;! ret tt else ret tt) ;!
    ret [ne_identity r]
  end.

Definition stopNativeReceiveContainerState : DO unit :=
  let! foreground := revoke_lane LaneForeground in
  let! maintenance := revoke_lane LaneMaintenance in
  stop_slot ;!
  stop_slot ;!
  for_each (foreground ++ maintenance) acknowledgeNativeStop ;!
  put (set_nativeCatalogReaderLease None).

(** One beat while a run waits for the container; whether the leases were lost is
    what [heartbeat_lost] tells the run. *)
Definition heartbeat (o : NativeReceiveOperation) (claimId : string) : DO unit :=
  let! operationRenewed := renewOperationLease o claimId in
  let! readerRenewed := renewNativeCatalogReaderLease o in
  if negb operationRenewed || negb readerRenewed then
    let! execution := get nativeExecutionForeground in
    match execution with
    | Some r => if str_eq (ne_operationId (ne_identity r)) (native_id o) && str_eq (ne_claimId (ne_identity r)) claimId
                then cancelNativeExecution (ne_identity r) else ret tt
    | None => ret tt
    end
  else ret tt.

(** *** The end of an operation *)

(** Every key once, without the absent ones. *)
Definition operation_keys (o : NativeReceiveOperation) (includeOutputs : bool) : list string :=
  let baseKeys := if includeOutputs
    then [native_inputPackKey o; native_outputPackKey o; native_outputIdxKey o; native_outputRefsKey o]
    else [native_inputPackKey o] in
  js_unique (js_filter (fun key => negb (str_eq key ""))
    (baseKeys ++ option_list (native_processorResult o ≫= pr_prerequisitePackKey)
              ++ option_list (native_processorResult o ≫= pr_closureManifestKey))).

Definition deleteOperationObjects (o : NativeReceiveOperation) (includeOutputs : bool) : DO unit :=
  r2_delete (operation_keys o includeOutputs).

Definition scheduleNativeWake (when : Z) : DO unit :=
  let! now := Date_now in
  scheduleAlarmIfSooner when now ;! ret tt.

Definition wake_after (delay : Z) : DO unit := let! now := Date_now in scheduleNativeWake (now + delay).

Definition ended_with (state : NativeReceiveOperationState) (result : option NativeReceiveTerminalResult) (errorCode : option string)
    (now : Z) (o : NativeReceiveOperation) : NativeReceiveOperation :=
  unclaimed (set_native_cleanupPending true (set_native_errorCode errorCode (set_native_result result
    (set_native_updatedAt now (set_native_state state o))))).

Definition markTerminal (o : NativeReceiveOperation) (claimId : string) (state : NativeReceiveOperationState)
    (result : option NativeReceiveTerminalResult) (errorCode : option string) : DO NativeReceiveOperation :=
  let! now := Date_now in
  let terminal := ended_with state result errorCode now o in
  let! stored := storeClaimedOperation terminal claimId in
  if stored : bool then ret terminal else
  let! current := getNativeReceiveOperationState (native_id o) in
  match current with
  | Some c => if isNativeReceiveTerminal (native_state c) then ret c
              else throw "FUBAR: native receive operation claim was lost before terminal state"
  | None => throw "FUBAR: native receive operation claim was lost before terminal state"
  end.

Definition completeOperationCleanup (o : NativeReceiveOperation) (includeOutputs : bool) : DO NativeReceiveOperation :=
  try_catch
    (deleteOperationObjects o includeOutputs ;!
     transaction (
       let! current := get (native_of (native_id o)) in
       match current with
       | None => ret o
       | Some c =>
         if negb (native_cleanupPending c) then ret c else
         let! now := Date_now in
         let cleaned := set_native_updatedAt now (set_native_cleanupPending false c) in
         put_operation cleaned ;!
         ret cleaned
       end))
    (fun _ => wake_after 1000 ;! ret o).

(** *** Finalization *)

Definition staged_of_result (o : NativeReceiveOperation) (r : NativeReceiveProcessResult) : StagedPack :=
  mkStaged (native_outputPackKey o) (pr_packBytes r) (pr_idxBytes r) (pr_objectCount r) None.

(** What [finalizeReceiveState] is asked to do. *)
Definition finalize_args (o : NativeReceiveOperation) (r : NativeReceiveProcessResult) : FinalizeArgs :=
  mkFinalize (native_leaseToken o) (native_commands o) (Some (staged_of_result o r)) None
    (match native_acceptedWrites o with [] => None | facts => Some facts end) false gc_inspect.

(** The committed result keeps what the verification read.  The length of its text is
    not looked at again. *)
Definition with_outputs (bytes requests : Z) (etags : option OutputEtags) (r : NativeReceiveProcessResult) : NativeReceiveProcessResult :=
  mkResult (pr_jsonBytes r) (pr_operationId r) (pr_executionMode r) (pr_resultKind r) (pr_packBytes r)
    (pr_idxBytes r) (pr_refsBytes r) (pr_objectCount r) (pr_inputPackObjectCount r) (pr_elapsedMs r)
    (pr_processorStartedAt r) (pr_scratchBytes r) (pr_hydratedBytes r) (pr_downloadedBytes r)
    (pr_cacheHitBytes r) (pr_receivePackResponse r) (pr_inputRequestSha256 r) (pr_packSha256 r)
    (pr_idxSha256 r) (pr_refsSha256 r) (pr_stockTrace r) (pr_metadataBytes r) (pr_metadataRequests r)
    (pr_inputBytesRead r) (pr_inputRequests r) (pr_rangeBytes r) (pr_rangeRequests r) (pr_packsTouched
    r) (pr_quarantinePathInsideOwnedWorkRoot r) (pr_quarantineRemovedAfterReceive r)
    (pr_quarantinePathNonEmpty r) (pr_freshWorkDirectory r) (pr_repositoryPackBytesBeforeHydration r)
    (pr_sharedObjectCacheDisabled r) (pr_skipConnectivityCheck r) (pr_planSha256 r) (pr_closureProof r)
    (pr_semanticExternalOids r) (pr_thinDeltaBaseOids r) (pr_requiredRootOids r)
    (pr_prerequisiteObjectOids r) (pr_physicalNodes r) (pr_physicalDependencies r)
    (pr_topologicalEntryIds r) (pr_selectedPackChecksums r) (pr_activePackBindings r)
    (pr_activeMetadataBundle r) (pr_ranges r) (pr_activePackReads r) (pr_activePackTrailerBytes r)
    (pr_activePackTrailerRequests r) (pr_activePackRangeBytes r) (pr_activePackRangeRequests r)
    (pr_activePackWholeBytes r) (pr_activePackWholeRequests r) (pr_activePackUnattributedBytes r)
    (pr_activePackUnattributedRequests r) (pr_closureManifestKey r) (pr_closureManifestBytes r)
    (pr_closureManifestSha256 r) (pr_closureManifestEtag r) (pr_prerequisitePackKey r)
    (pr_prerequisitePackBytes r) (pr_prerequisitePackSha256 r) (pr_prerequisitePackEtag r)
    (pr_incomingObjectCount r) (pr_visitedIncomingObjectCount r) (pr_logicalEdgeCount r)
    (pr_internalEdgeCount r) (pr_externalEdgeCount r) (pr_missingObjectCount r) (pr_objectTypeCounts r)
    (pr_selectedPackBytes r) (pr_activePackCount r) (Some bytes) (Some requests) (pr_outputBytesWritten
    r) (pr_outputRequests r) (etag_pack <$> etags) (etag_idx <$> etags) (etag_refs <$> etags)
    (pr_outputIntegrityRejectedRole r) (pr_outputIntegrityRejectedAt r).

Definition committed_result (o : NativeReceiveOperation) (r : NativeReceiveProcessResult) (c : Committed) : NativeReceiveTerminalResult :=
  mkTerminal (com_refPublication c) (com_statuses c) (com_changed c) (com_empty c) (Some (native_outputPackKey o)) (Some (pr_packBytes r))
    (pr_receivePackResponse r) (pr_stockTrace r) None.

Definition aborted_result (statuses : list ReceiveStatus) : NativeReceiveTerminalResult :=
  mkTerminal None statuses false false None None None None None.

(** [None]: there is no result to finalize. *)
Definition reconcileFinalizingOperation (o : NativeReceiveOperation) (claimId : string) : DO (option NativeReceiveOperation) :=
  match native_processorResult o with
  | None => ret None
  | Some r =>
    let! finalized := finalizeReceiveState (finalize_args o r) in
    match finalized with
    | FinCommitted c =>
      let committedOperation := set_native_processorResult
        (Some (with_outputs (com_outputValidationBytes c) (com_outputValidationRequests c) (com_outputEtags c) r)) o in
      let! committed := markTerminal committedOperation claimId NrCommitted (Some (committed_result o r c)) None in
      let! cleaned := completeOperationCleanup committed false in
      ret (Some cleaned)
    | FinRefConflict statuses =>
      let! aborted := markTerminal o claimId NrAborted (Some (aborted_result statuses)) (Some "ref_conflict"%string) in
      let! cleaned := completeOperationCleanup aborted true in
      ret (Some cleaned)
    | FinLeaseMismatch =>
      let! aborted := markTerminal o claimId NrAborted (Some (aborted_result [])) (Some "lease_mismatch"%string) in
      let! cleaned := completeOperationCleanup aborted true in
      ret (Some cleaned)
    end
  end.

(** *** A run *)

(** [foreground-waiting]: an execution that still blocks the lane, and until when. *)
Definition lane_wait : DO (option Z) :=
  let! execution := get nativeExecutionForeground in
  match execution with
  | None => ret None
  | Some r =>
    if bool_decide (ne_state r = NeActive) then ret (Some (ne_expiresAt (ne_identity r))) else
    let! now := Date_now in
    ret (if now <? ne_drainUntil r then Some (ne_drainUntil r) else None)
  end.

Definition fail_operation (o : NativeReceiveOperation) (claimId code : string) : DO NativeReceiveOperation :=
  let! failed := markTerminal o claimId NrFailed None (Some code) in
  abortReceiveLease (native_leaseToken o) ;!
  completeOperationCleanup failed true.

(** An attempt to finalize that came to no end: counted, and tried again. *)
Definition retry_finalization (o : NativeReceiveOperation) (claimId : string) : DO NativeReceiveOperation :=
  let finalizeAttempts := default 0 (native_finalizeAttempts o) + 1 in
  let escalate := (RECOVERY_ESCALATION_ATTEMPTS <=? finalizeAttempts) && negb (truthy (native_finalizeEscalated o)) in
  let! released := releaseOperationClaim
    (set_native_finalizeEscalated (Some (truthy (native_finalizeEscalated o) || escalate))
      (set_native_finalizeAttempts (Some finalizeAttempts) o)) claimId in
  wake_after (recoveryRetryDelayMs finalizeAttempts) ;!
  ret released.

Definition finalize_claimed (o : NativeReceiveOperation) (claimId : string) : DO NativeReceiveOperation :=
  let! reconciled := try_catch (reconcileFinalizingOperation o claimId) (fun _ => ret None) in
  match reconciled with
  | Some r => ret r
  | None => retry_finalization o claimId
  end.

(** [Math.min(30_000, 2 ** (attempts - 1) * 1_000)]. *)
Definition process_retry_delay (attempts : Z) : Z := Z.min 30000 (2 ^ (attempts - 1) * 1000).

Definition retrying (o : NativeReceiveOperation) (code : string) (now : Z) : NativeReceiveOperation :=
  unclaimed (set_native_errorCode (Some code) (set_native_updatedAt now (set_native_state NrStaged o))).

(** The handler of a failed execution; the answer of the run. *)
Definition processing_failed (o : NativeReceiveOperation) (claimId : string) (e : ProcessorError) : DO NativeReceiveOperation :=
  if pe_retryable e && (native_attempts o <? MAX_PROCESS_ATTEMPTS) then
    let! now := Date_now in
    let again := retrying o (pe_code e) now in
    let! stored := storeClaimedOperation again claimId in
    if negb stored then
      let! current := getNativeReceiveOperationState (native_id o) in
      ret (default again current)
    else
      wake_after (process_retry_delay (native_attempts o)) ;!
      ret again
  else fail_operation o claimId (pe_code e).

(** The operation is processed under the heartbeat; [inl] is the answer of a run that
    ends here. *)
Definition process_claimed (o : NativeReceiveOperation) (claimId : string) : DO (NativeReceiveOperation + NativeReceiveProcessResult) :=
  try_finally
    (let! processed := try_catch
       (let! processed := runNativeExecution claimId (processRequest o) (bridgeProps o) in
        match processed with
        | inl result =>
          let! lost := external heartbeat_lost in
          if lost : bool then throw "native receive lease ownership was lost" else ret (inl result)
        | inr e => ret (inr e)
        end)
       (fun _ => ret (inr native_processor_failed)) in
     match processed with
     | inl result => ret (inr result)
     | inr e => let! answer := processing_failed o claimId e in ret (inl answer)
     end)
    (releaseNativeCatalogReaderLease (native_id o)).

Definition ready_result (o : NativeReceiveOperation) (r : NativeReceiveProcessResult) : NativeReceiveTerminalResult :=
  mkTerminal None [] false false (Some (native_outputPackKey o)) (Some (pr_packBytes r)) (pr_receivePackResponse r) (pr_stockTrace r) None.

Definition made_ready (o : NativeReceiveOperation) (r : NativeReceiveProcessResult) (now : Z) : NativeReceiveOperation :=
  unclaimed (set_native_processorResult (Some r) (set_native_result (Some (ready_result o r))
    (set_native_updatedAt now (set_native_state NrReady o)))).

Definition put_back (o : NativeReceiveOperation) : NativeReceiveOperation :=
  set_native_attempts (Z.max 0 (native_attempts o - 1)) (set_native_state NrStaged o).

(** What a run does with a claimed operation: [inl] is its answer, [inr] says that it
    goes on with the operation it made ready. *)
Definition run_claimed (o : NativeReceiveOperation) (claimId : string) : DO (option NativeReceiveOperation + unit) :=
  if is_state NrFinalizing o then let! r := finalize_claimed o claimId in ret (inl (Some r)) else
  let! reader := acquireNativeCatalogReaderLease o in
  match reader with
  | ReaderSuperseded => let! r := fail_operation o claimId "catalog_superseded" in ret (inl (Some r))
  | ReaderBusy | ReaderDeleting =>
    let! released := releaseOperationClaim (put_back o) claimId in
    wake_after 1000 ;!
    ret (inl (Some released))
  | ReaderAcquired =>
    let! processed := process_claimed o claimId in
    match processed with
    | inl answer => ret (inl (Some answer))
    | inr result =>
      let! now := Date_now in
      let! stored := storeClaimedOperation (made_ready o result now) claimId in
      if negb stored then
        let! current := getNativeReceiveOperationState (native_id o) in
        ret (inl current)
      else
        let! at_ := Date_now in
        scheduleNativeWake at_ ;!
        ret (inr tt)
    end
  end.

(** A run from its claim on. *)
Definition claim_and_run (operationId : string) : DO (option NativeReceiveOperation + unit) :=
  let! claim := claimOperationAttempt operationId in
  match claim with
  | ClaimMissing => ret (inl None)
  | ClaimCurrent o =>
    (match native_claimExpiresAt o with
     | Some at_ => if negb (isNativeReceiveTerminal (native_state o)) && negb (at_ =? 0) then scheduleNativeWake (at_ + 1) else ret tt
     | None => ret tt
     end) ;!
    ret (inl (Some o))
  | ClaimClaimed o claimId => run_claimed o claimId
  end.

(** A run up to where it calls itself; the answer is the view of an operation. *)
Definition run_step (operationId : string) : DO (option NativeReceiveOperation + unit) :=
  let! retained := getNativeReceiveOperationState operationId in
  let! waiting := (match retained with
                   | Some r => if is_state NrStaged r || is_state NrProcessing r
                               then reconcileNativeExecutionLeases ;! lane_wait else ret None
                   | None => ret None
                   end) in
  match retained, waiting with
  | Some r, Some retryAt => scheduleNativeWake (retryAt + 1) ;! ret (inl (Some r))
  | _, _ =>
    if match retained with Some r => native_stock r | None => false end then ret (inl retained) else
    claim_and_run operationId
  end.

Definition out_of_fuel : string := "out of fuel".

Fixpoint runNativeReceiveOperationState (fuel : nat) (operationId : string) : DO (option NativeReceiveOperationView) :=
  match fuel with
  | O => throw out_of_fuel
  | S fuel =>
    let! r := run_step operationId in
    match r with
    | inl answer => ret (nativeReceiveOperationView <$> answer)
    | inr _ => runNativeReceiveOperationState fuel operationId
    end
  end.

(** The newest operation that is not at rest is taken up. *)
Fixpoint resume_newest (fuel : nat) (operationIds : list string) : DO bool :=
  match operationIds with
  | [] => ret false
  | operationId :: older =>
    if str_eq operationId "" then resume_newest fuel older else
    let! operation := get (native_of operationId) in
    match operation with
    | None => resume_newest fuel older
    | Some o =>
      if native_stock o then resume_newest fuel older else
      if isNativeReceiveTerminal (native_state o) then
        if negb (native_cleanupPending o) then resume_newest fuel older else
        completeOperationCleanup o (negb (is_state NrCommitted o)) ;! ret true
      else runNativeReceiveOperationState fuel operationId ;! ret true
    end
  end.

Definition resumeNativeReceiveFromAlarm (fuel : nat) : DO bool :=
  let! operationIds := get (fun s => default [] (nativeReceiveOperationIndex s)) in
  resume_newest fuel (rev operationIds).
End NativeReceive.
