(* ===== verification/NativeQueue.v ===== *)
(** * The queue of native receives: claims and the life of an operation

    What the handlers of [NativeReceive] may do to the stored operations.  A claim
    excludes every other claim until its deadline ([claim_spec]); a run writes its
    operation only while it still holds the claim it was given, and only in the ways of
    [settles_as] ([holder_run], from an invariant and an evolution of the storage that
    are parameters); so every handler keeps [queue_ok] and takes each operation along
    [queue_step], whatever fails and whatever runs at an open gate, as long as that
    keeps to the same and draws tokens of its own ([queue_gates]).  [fence] is what a
    run knows of its operation between two awaits. *)
From S2P Require Import Prelude NativeTypes Storage Effects Text Keys StockProof AuthorityPlan.
From S2P Require Import RefUpdate Catalog Activity Scheduler Gc Leases AcceptedWrites Receive NativeExecution StockReceive NativeReceive.

(** ** Definitions *)

(** Operations are stored under their own names. *)
Definition named (s : Storage) : Prop := forall id d, native_of id s = Some d -> native_id d = id.

Definition cleaned_up (now : Z) (d : NativeReceiveOperation) : NativeReceiveOperation :=
  set_native_updatedAt now (set_native_cleanupPending false d).

(** Only what has ended waits for its objects to be deleted. *)
Record queue_ok (s : Storage) : Prop := {
  qo_named : named s;
  qo_cleanup : forall id d, native_of id s = Some d -> native_stock d = false -> native_cleanupPending d = true ->
    isNativeReceiveTerminal (native_state d) = true }.

Definition store (o : NativeReceiveOperation) (s : Storage) : Storage :=
  set_nativeReceiveOperations (<[native_id o := o]> (nativeReceiveOperations s)) s.

(** Without the deadline of its claim, which a heartbeat moves. *)
Definition undated (o : NativeReceiveOperation) : NativeReceiveOperation := set_native_claimExpiresAt None o.

(** What the claim [c] holds of the operation [id]. *)
Definition held (id c : string) (s : Storage) : option NativeReceiveOperation :=
  match native_of id s with
  | Some d => if ostr_eq (native_claimId d) (Some c) then Some (undated d) else None
  | None => None
  end.

(** Whatever happens, the operation is held as it was, or no longer. *)
Definition keeps_claim (id c : string) (s s' : Storage) : Prop := held id c s' = None \/ held id c s' = held id c s.

(** What a run that holds the claim of [o] may write in its place: every one of these
    gives the claim up. *)
Inductive settles_as (o : NativeReceiveOperation) : NativeReceiveOperation -> Prop :=
  | as_retrying code now :
      native_state o = NrProcessing -> native_attempts o < MAX_PROCESS_ATTEMPTS -> settles_as o (retrying o code now)
  | as_put_back now : native_state o = NrProcessing -> settles_as o (set_native_updatedAt now (unclaimed (put_back o)))
  | as_ready r now : native_state o = NrProcessing -> settles_as o (made_ready o r now)
  | as_failed code now : native_state o = NrProcessing -> settles_as o (ended_with NrFailed None (Some code) now o)
  | as_pending n e now :
      native_state o = NrFinalizing ->
      settles_as o (set_native_updatedAt now (unclaimed (set_native_finalizeEscalated e (set_native_finalizeAttempts n o))))
  | as_committed r result now :
      native_state o = NrFinalizing -> is_Some (native_processorResult o) ->
      settles_as o (ended_with NrCommitted (Some result) None now (set_native_processorResult (Some r) o))
  | as_aborted result code now :
      native_state o = NrFinalizing -> settles_as o (ended_with NrAborted (Some result) (Some code) now o).

(** The life of an operation that is not a stock receive. *)
Inductive queue_step : option NativeReceiveOperation -> option NativeReceiveOperation -> Prop :=
  | qs_staged o : native_state o = NrStaged -> queue_step None (Some o)
  | qs_claimed d c now :
      isNativeReceiveTerminal (native_state d) = false -> under_claim d now = false ->
      queue_step (Some d) (Some (taken d c now))
  | qs_renewed d at_ : is_Some (native_claimId d) -> queue_step (Some d) (Some (set_native_claimExpiresAt at_ d))
  | qs_settled d o : is_Some (native_claimId d) -> settles_as d o -> queue_step (Some d) (Some o)
  | qs_cleaned d now : native_cleanupPending d = true -> queue_step (Some d) (Some (cleaned_up now d))
  | qs_forgotten d :
      forgettable d = true \/ is_state NrStaged d = true /\ truthy_string (native_claimId d) = false ->
      queue_step (Some d) None.

(** The operation as far as the queue runs it. *)
Definition queued (id : string) (s : Storage) : option NativeReceiveOperation :=
  match native_of id s with
  | Some d => if native_stock d then None else Some d
  | None => None
  end.

Definition queue_evolves (s s' : Storage) : Prop := forall id, rtc queue_step (queued id s) (queued id s').

(** ** Lemmas *)

Lemma set_lane_natives lane r s : nativeReceiveOperations (set_lane_record lane r s) = nativeReceiveOperations s.
Proof. by destruct lane. Qed.

(** Writes beside the operations are taken by [H]. *)
Ltac quiet_by H :=
  respect;
  try (match goal with |- _ /\ _ => apply H; [first [done | apply set_lane_natives] | assumption] end).

Section Silent.
Context `{Env, Container} (I : Storage -> Prop) (R : Storage -> Storage -> Prop) `{!PreOrder R}.
Hypothesis Hsilent : forall s s', nativeReceiveOperations s' = nativeReceiveOperations s -> I s -> I s' /\ R s s'.
Hypothesis Hgate : gate_respects I R.

Local Abbreviation silent m := (respects I R m anything).

Ltac quiet := quiet_by Hsilent.

Lemma silent_armWake at_ : silent (armWake at_).
Proof. unfold armWake. quiet. Qed.

Lemma silent_schedule when now : silent (scheduleAlarmIfSooner when now).
Proof. unfold scheduleAlarmIfSooner. quiet. Qed.
Hint Resolve silent_armWake silent_schedule : respects.

Lemma silent_removePreparation token : silent (removeStockReceivePreparationLease token).
Proof. unfold removeStockReceivePreparationLease. quiet. Qed.
Hint Resolve silent_removePreparation : respects.

Lemma silent_abort token : silent (abortReceiveLease token).
Proof. unfold abortReceiveLease. quiet. Qed.

Lemma silent_mark t : silent (markCompactionActivity t).
Proof. unfold markCompactionActivity. quiet. Qed.

Lemma silent_wake : silent scheduleCompactionWake.
Proof. unfold scheduleCompactionWake, scheduleCompactionAlarm, ensureScheduled, planNextAlarm. quiet. Qed.
Hint Resolve silent_mark silent_wake : respects.

Lemma silent_queue b : silent (queue_compaction b).
Proof. unfold queue_compaction. quiet. Qed.
Hint Resolve silent_queue : respects.

Lemma silent_artifact a : silent (verify_artifact a).
Proof. unfold verify_artifact. quiet. Qed.
Hint Resolve silent_artifact : respects.

Lemma silent_artifacts l : silent (verify_artifacts l).
Proof. induction l; simpl; quiet. Qed.
Hint Resolve silent_artifacts : respects.

Lemma silent_verify p : silent (verifyReceiveOutputIntegrity p).
Proof. unfold verifyReceiveOutputIntegrity. quiet. Qed.
Hint Resolve silent_verify : respects.

Lemma silent_protect token proof : silent (retainGcReceiveProtection token proof).
Proof. unfold retainGcReceiveProtection. quiet. Qed.

Lemma silent_advance e v p s1 s2 : silent (advanceGcReceiveVersions e v p s1 s2).
Proof. unfold advanceGcReceiveVersions. quiet. Qed.

Lemma silent_protection inspect rv oids staged : silent (prepareGcReceiveProtection inspect rv oids staged).
Proof. unfold prepareGcReceiveProtection. quiet. Qed.
Hint Resolve silent_protect silent_advance silent_protection : respects.

Lemma silent_begin_intent a : silent (begin_intent a).
Proof. unfold begin_intent, build_intent, persist_intent, clearMatchingReceiveLease, milestone. quiet. Qed.

Lemma silent_retry_intent a i : silent (retry_intent a i).
Proof. unfold retry_intent, milestone. quiet. Qed.

Lemma silent_upsert row : silent (upsertPackCatalogRow row).
Proof. unfold upsertPackCatalogRow, sql. quiet. Qed.
Hint Resolve silent_begin_intent silent_retry_intent silent_upsert : respects.

Lemma silent_activate i : silent (activate_pack i).
Proof. unfold activate_pack, listActivePackCatalog. quiet. Qed.

Lemma silent_pin sequence fact input : silent (retainSnapshotPin sequence fact input).
Proof. unfold retainSnapshotPin, advance_current. quiet. Qed.
Hint Resolve silent_activate silent_pin : respects.

Lemma silent_record sequence facts t journal pin : silent (recordAcceptedWrites sequence facts t journal pin).
Proof.
  assert (forall fact kept, silent (record_fact sequence t journal pin kept fact)) as Hf
    by (intros; unfold record_fact, journal_fact; quiet).
  assert (forall kept, silent (record_facts sequence t journal pin kept facts)) as Hfs
    by (induction facts; intros; simpl; quiet).
  unfold recordAcceptedWrites. quiet.
Qed.
Hint Resolve silent_record : respects.

Lemma silent_commit_refs i : silent (commit_refs i).
Proof. unfold commit_refs. quiet. Qed.

Lemma silent_storeOutcome o : silent (storeReceiveOutcome o).
Proof. unfold storeReceiveOutcome. quiet. Qed.

Lemma silent_receipt r : silent (store_receipt r).
Proof. unfold store_receipt, storeIngestionReceipt. quiet. Qed.
Hint Resolve silent_commit_refs silent_storeOutcome silent_receipt : respects.

Lemma silent_finalize a : silent (finalizeReceiveState a).
Proof.
  unfold finalizeReceiveState, replay_outcome, complete_intent, finish_receive, holdReceiveCompletionFence,
    ensureRepoMetadataDefaults, clearMatchingReceiveLease, milestone. quiet. 
Qed.

(** *** A run that was given the claim [c] of [o] *)

Context (o : NativeReceiveOperation) (c : string).
Hypothesis Hstate : native_state o = NrProcessing \/ native_state o = NrFinalizing.
Hypothesis Hwrite : forall s o', I s -> is_Some (held (native_id o) c s) -> settles_as o o' -> I (store o' s) /\ R s (store o' s).
Hypothesis Hclean : forall s id d now, I s -> native_of id s = Some d -> native_cleanupPending d = true ->
  I (store (cleaned_up now d) s) /\ R s (store (cleaned_up now d) s).

Lemma settles_id o' : settles_as o o' -> native_id o' = native_id o /\ native_claimId o' = None.
Proof. by destruct 1. Qed.

Lemma holder_store o' : settles_as o o' -> silent (storeClaimedOperation o' c).
Proof.
  intros Ho. destruct (settles_id _ Ho) as [Hid _]. apply respects_wp. intros [s n] Hs. cbn [st] in *.
  assert (I s /\ R s s) as [Hi Hr] by (split; [done | reflexivity]).
  unfold storeClaimedOperation. wp_run; try by split_and!.
  unfold put_operation. wp_run; cbn [st bump] in *; [by split_and!|].
  destruct (Hwrite s o') as [Hi' Hr']; [done | | done | by split_and!].
  unfold held. rewrite <- Hid, Heqo0. apply negb_false_iff in Heqb. rewrite Heqb. eauto.
Qed.

Lemma holder_terminal o1 state result code :
  (forall now, settles_as o (ended_with state result code now o1)) -> silent (markTerminal o1 c state result code).
Proof. intros Ho. pose proof holder_store. unfold markTerminal, getNativeReceiveOperationState. quiet. Qed.

Lemma holder_wake when : silent (scheduleNativeWake when).
Proof. unfold scheduleNativeWake. quiet. Qed.
Hint Resolve holder_wake : respects.

Lemma holder_wake_after delay : silent (wake_after delay).
Proof. unfold wake_after. quiet. Qed.
Hint Resolve holder_wake_after : respects.

Lemma holder_cleanup o1 b : silent (completeOperationCleanup o1 b).
Proof.
  unfold completeOperationCleanup, deleteOperationObjects.
  apply respects_try_catch; preorder; [|intros _; quiet]. respect_step; [quiet|].
  apply respects_transaction; preorder. apply respects_wp. intros [s n] Hs. cbn [st] in *.
  assert (I s /\ R s s) as [Hi Hr] by (split; [done | reflexivity]).
  unfold put_operation. wp_run; cbn [st bump] in *; try by split_and!.
  destruct (Hclean s (native_id o1) n0 (env_now n)) as [Hi' Hr']; [done | done | by apply negb_false_iff | by split_and!].
Qed.
Hint Resolve holder_cleanup silent_finalize silent_abort : respects.

Lemma holder_release o1 :
  (forall now, settles_as o (set_native_updatedAt now (unclaimed o1))) -> silent (releaseOperationClaim o1 c).
Proof. intros Ho. pose proof holder_store. unfold releaseOperationClaim, getNativeReceiveOperationState. quiet. Qed.

(** *** Finalization *)

Lemma holder_reconcile : native_state o = NrFinalizing -> silent (reconcileFinalizingOperation o c).
Proof.
  intros Hf. unfold reconcileFinalizingOperation. destruct (native_processorResult o) eqn:E; [|quiet].
  respect_step. respect_step.
  all: eapply (respects_bind _ _ _ _ anything); preorder; [apply holder_terminal; intros | intros; quiet].
  - apply as_committed; [exact Hf | rewrite E; by eexists].
  - by apply as_aborted.
  - by apply as_aborted.
Qed.

Lemma holder_finalize : native_state o = NrFinalizing -> silent (finalize_claimed o c).
Proof.
  intros Hf. unfold finalize_claimed, retry_finalization.
  eapply (respects_bind _ _ _ _ anything); preorder.
  - apply respects_try_catch; preorder; [by apply holder_reconcile | intros _; quiet].
  - intros [r|] _; [quiet|]. eapply (respects_bind _ _ _ _ anything); preorder.
    + apply holder_release. intros. by apply as_pending.
    + intros r _. quiet.
Qed.

(** *** Processing *)

Lemma holder_fail code : native_state o = NrProcessing -> silent (fail_operation o c code).
Proof.
  intros Hp. unfold fail_operation.
  eapply (respects_bind _ _ _ _ anything); preorder; [apply holder_terminal; intros; by apply as_failed|]. intros. quiet.
Qed.

Lemma holder_failed e : native_state o = NrProcessing -> silent (processing_failed o c e).
Proof.
  intros Hp. unfold processing_failed, getNativeReceiveOperationState.
  pose proof holder_store. destruct (_ && _) eqn:E; [|by apply holder_fail].
  apply andb_true_iff in E as [_ E]. apply Z.ltb_lt in E. quiet. by apply holder_store, as_retrying.
Qed.

Lemma silent_execution_finish i outcome : silent (finishNativeExecution i outcome).
Proof. unfold finishNativeExecution, ownsClaim. quiet. Qed.

Lemma silent_execution_stop i : silent (acknowledgeNativeStop i).
Proof. unfold acknowledgeNativeStop. quiet. Qed.

Lemma silent_execution_begin lane op cl props grant : silent (beginNativeExecution lane op cl props grant).
Proof. unfold beginNativeExecution, ownsClaim. quiet. Qed.

Lemma silent_authorize i : silent (authorizeNativeExecution i).
Proof. unfold authorizeNativeExecution, ownsClaim. quiet. Qed.
Hint Resolve silent_execution_finish silent_execution_stop silent_execution_begin silent_authorize : respects.

Lemma silent_cancel i : silent (cancelNativeExecution i).
Proof. unfold cancelNativeExecution, stop_slot. quiet. Qed.
Hint Resolve silent_cancel : respects.

Lemma silent_reconcile_leases : silent reconcileNativeExecutionLeases.
Proof. unfold reconcileNativeExecutionLeases. quiet. Qed.

Lemma silent_processor request i : silent (runContainerProcessor request i).
Proof.
  unfold runContainerProcessor. respect_step; [quiet|]. respect_step; [|quiet ..].
  apply respects_try_finally; preorder; [|quiet]. unfold process_in_container, stop_slot. quiet.
Qed.
Hint Resolve silent_processor : respects.

Lemma silent_run_execution request props cl : silent (runNativeExecution cl request props).
Proof. unfold runNativeExecution. quiet. Qed.

Lemma silent_acquire_reader o1 : silent (acquireNativeCatalogReaderLease o1).
Proof. unfold acquireNativeCatalogReaderLease. quiet. Qed.

Lemma silent_release_reader id : silent (releaseNativeCatalogReaderLease id).
Proof. unfold releaseNativeCatalogReaderLease. quiet. Qed.
Hint Resolve silent_run_execution silent_acquire_reader silent_release_reader : respects.

Lemma holder_process : native_state o = NrProcessing -> silent (process_claimed o c).
Proof.
  intros Hp. unfold process_claimed. pose proof (fun e => holder_failed e Hp).
  apply respects_try_finally; preorder; quiet.
Qed.

Lemma holder_run : silent (run_claimed o c).
Proof.
  unfold run_claimed, is_state, getNativeReceiveOperationState.
  case_bool_decide as Hf; [pose proof (holder_finalize Hf); quiet|]. destruct Hstate as [Hp|]; [|done].
  pose proof (fun code => holder_fail code Hp). pose proof (holder_process Hp). pose proof holder_store.
  assert (silent (releaseOperationClaim (put_back o) c)) by (apply holder_release; intros; by apply as_put_back).
  quiet. by apply holder_store, as_ready.
Qed.
End Silent.

(** *** Claims *)

Section Claims.
Context `{Env, Container}.

Lemma named_store s o : named s -> named (store o s).
Proof.
  intros Hs id d. unfold native_of, store. simpl. destruct (decide (id = native_id o)) as [->|Hne].
  - rewrite lookup_insert_eq. by intros [= <-].
  - rewrite lookup_insert_ne by done. apply Hs.
Qed.

Lemma named_forget s id : named s -> named (set_nativeReceiveOperations (delete id (nativeReceiveOperations s)) s).
Proof. intros Hs id' d Hd. unfold native_of in Hd. simpl in Hd. apply lookup_delete_Some in Hd as [_ Hd]. by apply Hs. Qed.

Lemma native_of_store s o id : native_of id (store o s) = if decide (id = native_id o) then Some o else native_of id s.
Proof.
  unfold native_of, store. simpl. destruct (decide _) as [->|Hne]; [apply lookup_insert_eq | by apply lookup_insert_ne].
Qed.

(** Another entry is as it was. *)
Lemma evolves_store s o :
  rtc queue_step (queued (native_id o) s) (if native_stock o then None else Some o) -> queue_evolves s (store o s).
Proof.
  intros Ho id. unfold queued at 2. rewrite native_of_store.
  destruct (decide _) as [->|Hne]; [done | apply rtc_refl].
Qed.

Lemma evolves_in_place s id d o :
  native_of id s = Some d -> native_id o = id -> native_stock o = native_stock d ->
  queue_step (Some d) (Some o) -> queue_evolves s (store o s).
Proof.
  intros Hd <- Es Hstep. apply evolves_store. unfold queued. rewrite Hd, Es.
  destruct (native_stock d); [apply rtc_refl | by apply rtc_once].
Qed.

Lemma evolves_forget s id :
  match native_of id s with
  | Some d => forgettable d = true \/ is_state NrStaged d = true /\ truthy_string (native_claimId d) = false
  | None => True
  end -> queue_evolves s (set_nativeReceiveOperations (delete id (nativeReceiveOperations s)) s).
Proof.
  intros Hd id'. unfold queued, native_of in *. simpl. destruct (decide (id' = id)) as [->|Hne].
  - rewrite lookup_delete_eq. destruct (nativeReceiveOperations s !! id) as [d|]; [|apply rtc_refl].
    destruct (native_stock d); [apply rtc_refl | by apply rtc_once, qs_forgotten].
  - rewrite lookup_delete_ne by done. apply rtc_refl.
Qed.

#[export] Instance queue_evolves_preorder : PreOrder queue_evolves.
Proof. split; [intros s id; apply rtc_refl | intros s1 s2 s3 H1 H2 id; etrans; [apply H1 | apply H2]]. Qed.

Lemma evolves_silent s s' : nativeReceiveOperations s' = nativeReceiveOperations s -> queue_evolves s s'.
Proof. intros E id. unfold queued, native_of. rewrite E. apply rtc_refl. Qed.

Lemma undated_id d o : undated d = undated o -> native_id d = native_id o /\ native_claimId d = native_claimId o /\ native_stock d = native_stock o.
Proof. intros E. split_and!; [apply (f_equal native_id E) | apply (f_equal native_claimId E) | apply (f_equal native_stock E)]. Qed.

Lemma settles_dated o t o' : settles_as o o' -> settles_as (set_native_claimExpiresAt t o) o'.
Proof.
  set (d := set_native_claimExpiresAt t o). intros [code now H1 H2|now H1|r now H1|code now H1|n e now H1|r result now H1 H2|result code now H1].
  - exact (as_retrying d code now H1 H2).
  - exact (as_put_back d now H1).
  - exact (as_ready d r now H1).
  - exact (as_failed d code now H1).
  - exact (as_pending d n e now H1).
  - exact (as_committed d r result now H1 H2).
  - exact (as_aborted d result code now H1).
Qed.

Lemma settles_undated d o o' : undated d = undated o -> settles_as o o' -> settles_as d o'.
Proof.
  intros E Ho. apply (settles_dated o (native_claimExpiresAt d)) in Ho.
  replace d with (set_native_claimExpiresAt (native_claimExpiresAt d) o); [done|].
  transitivity (set_native_claimExpiresAt (native_claimExpiresAt d) (undated o)); [done|].
  rewrite <- E. by destruct d.
Qed.

Lemma queue_ok_store s o :
  queue_ok s ->
  (native_stock o = false -> native_cleanupPending o = true -> isNativeReceiveTerminal (native_state o) = true) ->
  queue_ok (store o s).
Proof.
  intros [Hn Hc] Ho. split; [by apply named_store|]. intros id d. rewrite native_of_store.
  case_decide; [by intros [= <-] | apply Hc].
Qed.

Lemma queue_ok_forget s id : queue_ok s -> queue_ok (set_nativeReceiveOperations (delete id (nativeReceiveOperations s)) s).
Proof.
  intros [Hn Hc]. split; [by apply named_forget|]. intros id' d Hd. unfold native_of in Hd. simpl in Hd.
  apply lookup_delete_Some in Hd as [_ Hd]. by apply (Hc id').
Qed.

Lemma queue_ok_silent s s' : nativeReceiveOperations s' = nativeReceiveOperations s -> queue_ok s -> queue_ok s'.
Proof. intros E [Hn Hc]. split; unfold named, native_of in *; rewrite E; done. Qed.

(** *** The fence of a claim *)

Lemma held_store o' c s : native_claimId o' = None -> held (native_id o') c (store o' s) = None.
Proof. intros Hc. unfold held. rewrite native_of_store, decide_True by done. by rewrite Hc. Qed.

Lemma held_spec id c s x :
  held id c s = Some x -> exists d, native_of id s = Some d /\ native_claimId d = Some c /\ x = undated d.
Proof.
  unfold held. destruct (native_of id s) as [d|]; [|done]. destruct (ostr_eq _ _) eqn:E; [|done].
  intros [= <-]. exists d. unfold ostr_eq in E. to_prop. done.
Qed.

(** The claim [c] of [o] is lost, or the operation is as the claim left it. *)
Definition fence (o : NativeReceiveOperation) (c : string) (s : Storage) : Prop :=
  queue_ok s /\
  forall d, held (native_id o) c s = Some d -> if native_stock o then native_stock d = true else d = undated o.

Section Fence.
Context (o : NativeReceiveOperation) (c : string).
Hypothesis Hstate : native_state o = NrProcessing \/ native_state o = NrFinalizing.
Hypothesis Hpending : native_stock o = false -> native_cleanupPending o = false.

Lemma fence_write s o' :
  fence o c s -> is_Some (held (native_id o) c s) -> settles_as o o' -> fence o c (store o' s) /\ queue_evolves s (store o' s).
Proof.
  intros [Hok Hf] [x Hx] Ho. destruct (settles_id o o' Ho) as [Hid Hcl].
  destruct (held_spec _ _ _ _ Hx) as (d & Hd & Hdc & ->). specialize (Hf _ Hx).
  assert (native_stock o' = native_stock o /\ (native_cleanupPending o' = native_cleanupPending o \/
    isNativeReceiveTerminal (native_state o') = true)) as [Hst Hcp] by (destruct Ho; split; auto).
  split; [split|].
  - apply queue_ok_store; [done|]. rewrite Hst. intros Hs Hp. destruct Hcp as [Hcp|]; [|done].
    rewrite Hcp, Hpending in Hp; done.
  - intros y. rewrite <- Hid, held_store by done. done.
  - destruct (native_stock o) eqn:Es.
    + apply evolves_store. unfold queued. rewrite Hid, Hd, Hst. change (native_stock d = true) in Hf. rewrite Hf. apply rtc_refl.
    + destruct (undated_id d o Hf) as (_ & _ & Hs2).
      eapply evolves_in_place; [exact Hd | done | by rewrite Hst, Hs2 |].
      apply qs_settled; [by rewrite Hdc | by apply (settles_undated d o)].
Qed.

Lemma fence_clean s id d now :
  fence o c s -> native_of id s = Some d -> native_cleanupPending d = true ->
  fence o c (store (cleaned_up now d) s) /\ queue_evolves s (store (cleaned_up now d) s).
Proof.
  intros [Hok Hf] Hd Hp. assert (native_id d = id) as Hid by (by apply (qo_named _ Hok)).
  split; [split|].
  - by apply queue_ok_store.
  - intros x Hx. destruct (held_spec _ _ _ _ Hx) as (d' & Hd' & Hc & ->).
    rewrite native_of_store in Hd'. case_decide as E.
    + injection Hd' as <-. change (native_id o = native_id d) in E. rewrite Hid in E.
      assert (held (native_id o) c s = Some (undated d)) as Hh.
      { unfold held. rewrite E, Hd. change (native_claimId d = Some c) in Hc. rewrite Hc. unfold ostr_eq.
        by rewrite bool_decide_true. }
      specialize (Hf _ Hh). destruct (native_stock o) eqn:Es; [done|].
      destruct (undated_id d o Hf) as (_ & _ & Hs2). apply (f_equal native_cleanupPending) in Hf.
      change (native_cleanupPending d = native_cleanupPending o) in Hf. rewrite Hf, Hpending in Hp; done.
    + apply Hf. unfold held. rewrite Hd', Hc. unfold ostr_eq. by rewrite bool_decide_true.
  - eapply evolves_in_place; [exact Hd | done | done | by apply qs_cleaned].
Qed.
End Fence.

(** *** The handlers *)

(** What runs at an open gate keeps the queue in order and draws no token that a run
    of the queue draws. *)
Definition queue_gates : Prop := forall n s, queue_ok s ->
  queue_ok (env_interleave n s) /\ queue_evolves s (env_interleave n s) /\
  forall id k, keeps_claim id (env_uuid k) s (env_interleave n s).

Context (Hgates : queue_gates).

Local Abbreviation orderly m := (respects queue_ok queue_evolves m anything).

Lemma gates_orderly : gate_respects queue_ok queue_evolves.
Proof. intros n s Hs. destruct (Hgates n s Hs) as (? & ? & _). done. Qed.

Lemma gates_fence o k : gate_respects (fence o (env_uuid k)) queue_evolves.
Proof.
  intros n s [Hok Hf]. destruct (Hgates n s Hok) as (Hok' & Hev & Hk). split; [split; [done|] | done].
  intros d Hd. apply Hf. destruct (Hk (native_id o) k) as [E|E]; congruence.
Qed.

Lemma orderly_silent s s' :
  nativeReceiveOperations s' = nativeReceiveOperations s -> queue_ok s -> queue_ok s' /\ queue_evolves s s'.
Proof. intros E Hs. split; [by eapply queue_ok_silent | by apply evolves_silent]. Qed.

Lemma fence_silent o c s s' :
  nativeReceiveOperations s' = nativeReceiveOperations s -> fence o c s -> fence o c s' /\ queue_evolves s s'.
Proof.
  intros E [Hok Hf]. split; [split | by apply evolves_silent].
  - by eapply queue_ok_silent.
  - unfold held, native_of. rewrite E. exact Hf.
Qed.

Lemma orderly_clean s id d now :
  queue_ok s -> native_of id s = Some d -> native_cleanupPending d = true ->
  queue_ok (store (cleaned_up now d) s) /\ queue_evolves s (store (cleaned_up now d) s).
Proof.
  intros Hok Hd Hp. assert (native_id d = id) as Hid by (by apply (qo_named _ Hok)). split.
  - by apply queue_ok_store.
  - eapply evolves_in_place; [exact Hd | done | done | by apply qs_cleaned].
Qed.

Lemma ended_step d x :
  queue_step (Some d) x -> isNativeReceiveTerminal (native_state d) = true ->
  match x with
  | Some o => native_state o = native_state d /\ native_result o = native_result d /\ native_errorCode o = native_errorCode d
  | None => native_cleanupPending d = false
  end.
Proof.
  intros Hstep Ht. inversion Hstep as [|? c now E _| | ? o _ Ho| |? [Hf|[Hf _]]]; subst; try done.
  - by rewrite E in Ht.
  - destruct Ho; by rewrite H1 in Ht.
  - unfold forgettable in Hf. apply andb_true_iff in Hf as [_ Hf]. by apply negb_true_iff.
  - unfold is_state in Hf. to_prop. by rewrite Hf in Ht.
Qed.

(** A claim that may be issued. *)
Definition may_claim (id : string) (now : Z) (s : Storage) : bool :=
  negb (truthy (repositoryDeleting s)) &&
  match native_of id s with
  | None => false
  | Some o =>
    negb (isNativeReceiveTerminal (native_state o)) && negb (under_claim o now) &&
    (holds_token (receiveLease s) (native_leaseToken o) || in_finalization o ||
     bool_decide (is_Some (receiveFinalizeIntents s !! native_leaseToken o)))
  end.

(** The receive lease a claim leaves. *)
Definition claim_lease (o : NativeReceiveOperation) (now : Z) (s : Storage) : RepoLease :=
  mkLease (native_leaseToken o)
    (match receiveLease s with
     | Some l => if str_eq (lease_token l) (native_leaseToken o) then lease_createdAt l else now
     | None => now
     end) (now + RECEIVE_LEASE_TTL_MS) None.

Definition claimed_storage (id : string) (o : NativeReceiveOperation) (c : string) (now : Z) (s : Storage) : Storage :=
  set_nativeReceiveOperations (<[id := taken o c now]> (nativeReceiveOperations s))
    (set_receiveLease (Some (claim_lease o now s)) s).

Lemma claim_spec id s n :
  wp (claimOperationAttempt id) (fun r w' =>
    match r with
    | Ok (ClaimClaimed o' c) => exists o, native_of id s = Some o /\ c = env_uuid n /\ may_claim id (env_now (S n)) s = true /\
        o' = taken o c (env_now (S n)) /\ st w' = claimed_storage id o c (env_now (S n)) s
    | Ok (ClaimCurrent o) => st w' = s /\ native_of id s = Some o /\ may_claim id (env_now (S n)) s = false
    | Ok ClaimMissing => st w' = s /\ may_claim id (env_now (S n)) s = false
    | Err _ => st w' = s
    end) (World s n).
Proof.
  unfold claimOperationAttempt, may_claim.
  apply wp_bind, wp_uuid, wp_transaction, wp_bind, wp_get. cbn [st bump tick].
  destruct (truthy (repositoryDeleting s)) eqn:Ed; [by apply wp_ret|].
  apply wp_bind, wp_get. cbn [st bump]. destruct (native_of id s) as [o|] eqn:Eo; [|by apply wp_ret].
  destruct (isNativeReceiveTerminal (native_state o)) eqn:Et; [by apply wp_ret|].
  apply wp_bind, wp_now. cbn [tick bump]. destruct (under_claim o (env_now (S n))) eqn:El; [by apply wp_ret|].
  apply wp_bind, wp_get, wp_bind, wp_get. cbn [st bump].
  assert (forall (b1 b2 : bool) (x : option ReceiveFinalizeIntent),
    negb b1 && negb b2 && bool_decide (x = None) = negb (b1 || b2 || bool_decide (is_Some x))) as ->
    by (by intros [] [] []).
  destruct (_ || _ || _) eqn:Eh; [|by apply wp_ret].
  apply wp_bind, wp_put; [done | intros _]. apply wp_bind, wp_put; [done | intros _]. apply wp_ret. by exists o.
Qed.

Lemma claim_evolves id o c now s :
  queue_ok s -> native_of id s = Some o -> may_claim id now s = true ->
  let s' := claimed_storage id o c now s in
  fence (taken o c now) c s' /\ queue_evolves s s' /\
  (native_state (taken o c now) = NrProcessing \/ native_state (taken o c now) = NrFinalizing) /\
  (native_stock o = false -> native_cleanupPending o = false).
Proof.
  intros Hok Ho Hm s'. unfold may_claim in Hm. rewrite Ho in Hm.
  apply andb_true_iff in Hm as [_ Hm]. apply andb_true_iff in Hm as [Hm _]. apply andb_true_iff in Hm as [Ht Hl].
  apply negb_true_iff in Ht, Hl. assert (native_id o = id) as Hid by (by apply (qo_named _ Hok)).
  assert (native_stock o = false -> native_cleanupPending o = false) as Hp.
  { intros Hs. destruct (native_cleanupPending o) eqn:E; [|done]. by rewrite (qo_cleanup _ Hok id o Ho Hs E) in Ht. }
  assert (nativeReceiveOperations s' = nativeReceiveOperations (store (taken o c now) s)) as Es.
  { unfold s', claimed_storage, store. simpl. by rewrite <- Hid. }
  assert (queue_ok (store (taken o c now) s)) as Hok'.
  { apply queue_ok_store; [done|]. intros Hs Hc. change (native_cleanupPending o = true) in Hc. by rewrite Hp in Hc. }
  split_and!; [split | | unfold taken; simpl; destruct (in_finalization o); auto | done].
  - by eapply queue_ok_silent.
  - intros d. unfold held, native_of. rewrite Es. change (native_id (taken o c now)) with (native_id o).
    simpl. rewrite lookup_insert_eq. simpl. destruct (ostr_eq _ _); [|done]. intros [= <-].
    by destruct (native_stock (taken o c now)) eqn:E.
  - etrans; [|by apply evolves_silent]. eapply evolves_in_place; [exact Ho | done | done | by apply qs_claimed].
Qed.

Ltac quiet := quiet_by orderly_silent.

Lemma orderly_wake when : orderly (scheduleNativeWake when).
Proof. apply holder_wake; [typeclasses eauto | apply orderly_silent]. Qed.
Hint Resolve orderly_wake : respects.

(** A claim that is issued is run to its end. *)
Lemma orderly_claimed id : orderly (claim_and_run id).
Proof.
  apply respects_wp. intros [s n] Hs. cbn [st] in *. unfold claim_and_run. apply wp_bind.
  eapply wp_conseq; [apply claim_spec|].
  intros [[o' c|o|]|e] w' Hr; cbv beta iota in Hr.
  - destruct Hr as (o & Ho & -> & Hm & -> & E).
    destruct (claim_evolves id o (env_uuid n) (env_now (S n)) s Hs Ho Hm) as (Hf & Hev & Hst & Hp).
    rewrite <- E in Hf, Hev.
    eapply wp_kept.
    + apply (holder_run (fence (taken o (env_uuid n) (env_now (S n))) (env_uuid n)) queue_evolves); try done.
      * intros s1 s2 E12. by apply fence_silent.
      * apply gates_fence.
      * intros s1 o1. by apply fence_write.
      * intros s1 id1 d1 now1. by apply fence_clean.
    + exact Hf.
    + intros r w2 [Hok2 _] Hev2 _. split_and!; [done | by etrans | by destruct r].
  - destruct Hr as (E & _). eapply (wp_kept queue_ok queue_evolves _ anything); [quiet | by rewrite E |].
    rewrite E. intros r w2 H1 H2 _. split_and!; [done | done | by destruct r].
  - destruct Hr as (E & _). apply wp_ret. rewrite E. split_and!; done.
  - rewrite Hr. split_and!; done.
Qed.

Lemma orderly_reconcile_leases : orderly reconcileNativeExecutionLeases.
Proof. apply silent_reconcile_leases; [typeclasses eauto | apply orderly_silent | apply gates_orderly]. Qed.
Hint Resolve orderly_reconcile_leases orderly_claimed : respects.

Lemma orderly_step id : orderly (run_step id).
Proof.
  unfold run_step, getNativeReceiveOperationState, lane_wait. pose proof gates_orderly as Hg.
  quiet.
Qed.
Hint Resolve orderly_step : respects.

Lemma orderly_run fuel id : orderly (runNativeReceiveOperationState fuel id).
Proof. induction fuel as [|fuel IH]; simpl; quiet. Qed.
Hint Resolve orderly_run : respects.

Lemma orderly_cleanup o b : orderly (completeOperationCleanup o b).
Proof.
  apply holder_cleanup; [typeclasses eauto | apply orderly_silent | apply gates_orderly | apply orderly_clean].
Qed.
Hint Resolve orderly_cleanup : respects.

Lemma orderly_resume_newest fuel ids : orderly (resume_newest fuel ids).
Proof. induction ids as [|id ids IH]; simpl; quiet. Qed.
Hint Resolve orderly_resume_newest : respects.

Lemma orderly_resume fuel : orderly (resumeNativeReceiveFromAlarm fuel).
Proof. unfold resumeNativeReceiveFromAlarm. quiet. Qed.


(** *** Staging *)

Definition absent (id : string) (s : Storage) : Prop := queue_ok s /\ native_of id s = None.

Lemma absent_room id fuel next : respects (absent id) queue_evolves (make_room fuel "" next) anything.
Proof.
  revert next. induction fuel as [|fuel IH]; intros next; simpl; [by apply respects_ret; preorder|].
  apply respects_wp. intros [s n] Hs. cbn [st] in *. apply wp_bind, wp_get. cbn [st].
  destruct (js_findIndex _ next) as [i|] eqn:Ei; [|by apply wp_ret].
  apply js_findIndex_lookup in Ei as (x & Hx & Hev). rewrite Hx. simpl.
  unfold evictable in Hev. apply andb_true_iff in Hev as [_ Hf].
  apply wp_bind, wp_put; [by intros | intros _]. cbn [st].
  destruct Hs as [Hok Hid]. eapply wp_kept; [apply IH | split; [by apply queue_ok_forget|] |].
  - unfold native_of in *. simpl. destruct (decide (x = id)) as [->|Hne]; [apply lookup_delete_eq | by rewrite lookup_delete_ne].
  - intros r w' H1 H2 _. split_and!; [done | | by destruct r]. etrans; [apply (evolves_forget s x) | exact H2].
    destruct (native_of x s); [by left | done].
Qed.

Lemma orderly_stage o :
  native_state o = NrStaged -> native_stock o = false -> native_cleanupPending o = false -> orderly (stage_operation o).
Proof.
  intros Hst Hns Hcp. apply respects_atomic; preorder. intros [s n] Hs. cbn [st] in *.
  assert (forall s', queue_ok s' -> queued (native_id o) s' = None ->
    queue_ok (store o s') /\ queue_evolves s' (store o s')) as Hput.
  { intros s' Hs' Hq. split; [apply queue_ok_store; [done | by rewrite Hcp]|].
    apply evolves_store. rewrite Hq, Hns. by apply rtc_once, qs_staged. }
  apply wp_bind, wp_get. wp_step; [by apply wp_ret; split_and!; cbn [st]|].
  apply wp_bind, wp_get. cbn [st]. destruct (native_of (native_id o) s) as [e|] eqn:Ee.
  - wp_step; [by apply wp_ret|]. destruct (may_stage_again e) eqn:Ea; [|by apply wp_ret].
    unfold put_operation. wp_run; [done|]. cbn [st].
    destruct (Hput s) as [H1 H2]; [done | | by split_and!].
    unfold queued. rewrite Ee. unfold may_stage_again in Ea. by destruct (native_stock e).
  - apply wp_bind, wp_get, wp_bind, wp_now. wp_step; [by apply wp_ret|].
    apply wp_bind, wp_get, wp_bind. cbn [st bump].
    eapply wp_kept; [apply (absent_room (native_id o)) | done |].
    intros r w' [Hok' Hab] Hev _. destruct r as [[next|]|]; [| by apply wp_ret | done].
    unfold put_operation. wp_run; [done | done |]. cbn [st].
    destruct (Hput (st w')) as [H1 H2]; [done | by unfold queued; rewrite Hab|].
    destruct (orderly_silent (store o (st w')) (set_nativeReceiveOperationIndex (Some next) (store o (st w'))))
      as [H3 H4]; [done | done |].
    split_and!; [done | by etrans; [|etrans] | done].
Qed.

Lemma orderly_unstage o : orderly (unstage_operation o).
Proof.
  apply respects_atomic; preorder. intros [s n] Hs. cbn [st] in *. apply wp_bind, wp_get. cbn [st].
  destruct (native_of (native_id o) s) as [d|] eqn:Ed; [|by apply wp_ret].
  destruct (_ && _ && _) eqn:E; [|by apply wp_ret].
  apply andb_true_iff in E as [[_ E1]%andb_true_iff E2]. apply negb_true_iff in E2.
  wp_run; [done | done |]. cbn [st]. split_and!; [| | done].
  - eapply queue_ok_silent; [|by apply (queue_ok_forget s (native_id o))]. done.
  - etrans; [apply (evolves_forget s (native_id o)); by rewrite Ed; right | by apply evolves_silent].
Qed.

Lemma orderly_enqueue o :
  native_state o = NrStaged -> native_cleanupPending o = false -> orderly (enqueueNativeReceiveState o).
Proof.
  intros Hst Hcp. unfold enqueueNativeReceiveState. destruct (native_stock o) eqn:Hns; [quiet|].
  pose proof (orderly_stage o Hst Hns Hcp). pose proof (orderly_unstage o). pose proof gates_orderly.
  assert (forall a t, orderly (scheduleAlarmIfSooner a t)) as Hsched
    by (intros; apply silent_schedule; [typeclasses eauto | apply orderly_silent]).
  quiet.
Qed.

(** *** The heartbeat *)

Lemma orderly_renew o c : orderly (renewOperationLease o c).
Proof.
  apply respects_atomic; preorder. intros [s n] Hs. cbn [st] in *.
  apply wp_bind, wp_get. wp_step; [by apply wp_ret|]. apply wp_bind, wp_get. cbn [st].
  destruct (receiveLease s) as [l|]; [|by apply wp_ret]. wp_step; [by apply wp_ret|].
  apply wp_bind, wp_get. cbn [st]. destruct (native_of (native_id o) s) as [d|] eqn:Ed; [|by apply wp_ret].
  destruct (negb (ostr_eq _ _)) eqn:Ec; [by apply wp_ret|]. unfold ostr_eq in Ec. to_prop.
  unfold put_operation. wp_run; [done | done |]. cbn [st bump].
  set (s1 := set_receiveLease _ s). set (d' := set_native_claimExpiresAt _ d). change (queue_ok (store d' s1) /\ queue_evolves s (store d' s1) /\ anything true).
  destruct (orderly_silent s s1) as [Hs1 Hev1]; [done | done |].
  assert (native_id d = native_id o) as Hid by (by apply (qo_named _ Hs)).
  split_and!; [| | done].
  - apply queue_ok_store; [done|]. apply (qo_cleanup _ Hs _ _ Ed).
  - etrans; [exact Hev1|]. apply (evolves_in_place s1 (native_id o) d); [done | done | done |].
    apply qs_renewed. by rewrite Ec.
Qed.

Lemma orderly_release_reader id : orderly (releaseNativeCatalogReaderLease id).
Proof. unfold releaseNativeCatalogReaderLease. quiet. Qed.

Lemma orderly_renew_reader o : orderly (renewNativeCatalogReaderLease o).
Proof. unfold renewNativeCatalogReaderLease. quiet. Qed.

Lemma orderly_can_delete g : orderly (canDeleteSupersededGenerationState g).
Proof. unfold canDeleteSupersededGenerationState, raise_floor. quiet. Qed.

Lemma orderly_stop : orderly stopNativeReceiveContainerState.
Proof.
  pose proof gates_orderly.
  assert (forall i outcome, orderly (finishNativeExecution i outcome))
    by (intros; apply silent_execution_finish; [typeclasses eauto | apply orderly_silent]).
  assert (forall i, orderly (acknowledgeNativeStop i))
    by (intros; apply silent_execution_stop; [typeclasses eauto | apply orderly_silent]).
  unfold stopNativeReceiveContainerState, revoke_lane, stop_slot. quiet.
Qed.

(** *** A run ends *)

(** An operation that waits for its finalization. *)
Definition waits (id : string) (s : Storage) : Prop :=
  exists o, native_of id s = Some o /\ native_state o = NrReady /\ native_claimId o = None.

Lemma wp_any {A} (m : DO A) (Q : res A -> world -> Prop) w : (forall r w', Q r w') -> wp m Q w.
Proof. intros HQ. apply HQ. Qed.

Definition goes_on {A} (r : res (A + unit)) : Prop := exists u, r = Ok (inr u).

Lemma wp_store_claimed o c w :
  wp (storeClaimedOperation o c) (fun r w' => r = Ok true -> native_of (native_id o) (st w') = Some o) w.
Proof.
  unfold storeClaimedOperation, put_operation. destruct w as [s n]. wp_run; try done.
  intros _. cbn [st]. apply lookup_insert_eq.
Qed.

Lemma wake_frames when : framed nativeReceiveOperations (scheduleNativeWake when).
Proof. unfold scheduleNativeWake, scheduleAlarmIfSooner, armWake. frames. Qed.

Lemma claimed_waits o c w : wp (run_claimed o c) (fun r w' => goes_on r -> waits (native_id o) (st w')) w.
Proof.
  unfold run_claimed. wp_step; [apply wp_bind, wp_any; intros [r|e] w'; [apply wp_ret|]; by intros [u [=]]|].
  apply wp_bind, wp_any. intros [[]|e] w'; [| | | | by intros [u [=]]].
  1: { apply wp_bind, wp_any. intros [[a|r]|e] w2; [by apply wp_ret; intros [u [=]] | | by intros [u [=]]].
    apply wp_bind, wp_now, wp_bind. eapply wp_conseq; [apply wp_store_claimed|].
    intros [[]|e] w3 Hw; [| | by intros [u [=]]]; cbn [negb].
    - specialize (Hw eq_refl). apply wp_bind, wp_now, wp_bind. eapply wp_framed; [apply wake_frames|].
      intros [[]|e] w4 E; [|by intros [u [=]]]. apply wp_ret. intros _.
      exists (made_ready o r (env_now (tick w2))). split_and!; [|done|done].
      unfold native_of in *. rewrite <- E. exact Hw.
    - apply wp_bind, wp_get, wp_ret. by intros [u [=]]. }
  all: apply wp_bind, wp_any; intros [?|e] ?; [|by intros [u [=]]].
  2,3: apply wp_bind, wp_any; intros [?|e] ?; [|by intros [u [=]]].
  all: apply wp_ret; by intros [u [=]].
Qed.

Lemma claim_waits id w :
  queue_ok (st w) -> wp (claim_and_run id) (fun r w' => goes_on r -> waits id (st w')) w.
Proof.
  destruct w as [s n]. intros Hs. unfold claim_and_run. apply wp_bind. eapply wp_conseq; [apply claim_spec|].
  intros [[o' c|o|]|e] w' Hr; cbv beta iota in Hr; [| | apply wp_ret; by intros [u [=]] | by intros [u [=]]].
  - destruct Hr as (o & Ho & _ & _ & -> & _). rewrite <- (qo_named _ Hs id o Ho).
    apply (claimed_waits (taken o c (env_now (S n)))).
  - apply wp_bind, wp_any. intros [?|e] ?; [apply wp_ret|]; by intros [u [=]].
Qed.

Lemma step_waits id w : queue_ok (st w) -> wp (run_step id) (fun r w' => goes_on r -> waits id (st w')) w.
Proof.
  intros Hs. unfold run_step, getNativeReceiveOperationState. apply wp_bind, wp_get, wp_bind.
  eapply (wp_kept queue_ok queue_evolves _ anything); [unfold lane_wait; pose proof gates_orderly; quiet | exact Hs |].
  intros [waiting|e] w' Hok _ _; [|by intros [u [=]]].
  destruct (native_of id (st w)) as [r|]; [destruct waiting as [t|]|]; cbv beta iota.
  - apply wp_bind, wp_any. intros [?|e] ?; [apply wp_ret|]; by intros [u [=]].
  - wp_step; [apply wp_ret; by intros [u [=]] | by apply claim_waits].
  - by apply claim_waits.
Qed.

Lemma finalizing_ends o c w : native_state o = NrFinalizing -> wp (run_claimed o c) (fun r _ => ~ goes_on r) w.
Proof.
  intros Hf. unfold run_claimed, is_state. rewrite bool_decide_true by done.
  apply wp_bind, wp_any. intros [?|e] ?; [apply wp_ret|]; by intros [u [=]].
Qed.

Lemma waiting_ends id w : waits id (st w) -> wp (run_step id) (fun r _ => ~ goes_on r) w.
Proof.
  destruct w as [s n]. intros (o & Ho & Hst & Hc). cbn [st] in *.
  unfold run_step, getNativeReceiveOperationState. apply wp_bind, wp_get. cbn [st]. rewrite Ho.
  unfold is_state. rewrite Hst. apply wp_bind. cbn. destruct (native_stock o); [by apply wp_ret; intros [u [=]]|].
  unfold claim_and_run. apply wp_bind. eapply wp_conseq; [apply claim_spec|].
  intros [[o' c|o'|]|e] w' Hr; cbv beta iota in Hr; [| | apply wp_ret; by intros [u [=]] | by intros [u [=]]].
  - destruct Hr as (o1 & Ho1 & _ & _ & -> & _). rewrite Ho in Ho1. injection Ho1 as <-.
    apply finalizing_ends. unfold taken, in_finalization, is_state. simpl. by rewrite Hst.
  - apply wp_bind, wp_any. intros [?|e] ?; [apply wp_ret|]; by intros [u [=]].
Qed.

End Claims.

(** ** Properties *)

Section Properties.
Context `{Env, Container}.

(** C18: A claim is issued exactly when the repository is not being deleted and the
    operation has not ended, is under no live claim, and either is past its processing
    or still has its receive - the lease or the intent; the operation is then stored
    under the fresh token, one attempt on or in finalization, with the receive lease
    renewed, and no other claim of it can be issued before the deadline, whatever is
    changed beside it meanwhile.  In every other case, and whatever fails, the storage
    is as it was. *)
Theorem claim_excludes_others (id : string) (s : Storage) (n : nat) :
  let now := env_now (S n) in
  let r := claimOperationAttempt id (World s n) in
  match r.1 with
  | Ok (ClaimClaimed o c) =>
      may_claim id now s = true /\ c = env_uuid n /\
      st r.2 = set_nativeReceiveOperations (<[id := o]> (nativeReceiveOperations s))
                 (set_receiveLease (Some (claim_lease o now s)) s) /\
      (exists d, native_of id s = Some d /\ o = taken d c now) /\
      (forall s' later, c <> ""%string -> native_of id s' = Some o -> later < now + PROCESSING_CLAIM_TTL_MS ->
         may_claim id later s' = false)
  | Ok (ClaimCurrent o) => may_claim id now s = false /\ native_of id s = Some o /\ st r.2 = s
  | Ok ClaimMissing => may_claim id now s = false /\ st r.2 = s
  | Err _ => st r.2 = s
  end.
Proof.
  intros now. cbv zeta. to_wp (claimOperationAttempt id) (World s n). eapply wp_conseq; [apply claim_spec|].
  intros [[o c|o|]|e] w' Hr; cbv beta iota in *; [|by destruct Hr as (? & ? & ?) | by destruct Hr | done].
  destruct Hr as (d & Hd & -> & Hm & -> & E). split_and!; [done | done | exact E | by exists d |].
  intros s' later Hne Ho' Hl. unfold may_claim. rewrite Ho'. cbv beta iota.
  assert (under_claim (taken d (env_uuid n) (env_now (S n))) later = true) as ->.
  { unfold under_claim, taken. simpl. apply andb_true_iff. split; [|by apply Z.ltb_lt].
    unfold truthy_string, str_eq. by rewrite bool_decide_false. }
  by rewrite andb_false_r, andb_false_l, andb_false_r.
Qed.

(** C19: A run of an operation always comes to an end: it calls itself at most once,
    as the second time the operation waits for its finalization, so more fuel than two
    never changes a run, whatever fails and whatever runs at the open gates - as long as
    that keeps the queue in order. *)
Theorem run_ends (id : string) (w : world) (fuel : nat) :
  queue_gates -> queue_ok (st w) ->
  runNativeReceiveOperationState (S (S fuel)) id w = runNativeReceiveOperationState 2 id w /\
  match run_step id w with
  | (Ok (inr _), w') => forall u, (run_step id w').1 <> Ok (inr u)
  | _ => True
  end.
Proof.
  intros Hg Hs. assert (match run_step id w with
    | (Ok (inr _), w') => forall u, (run_step id w').1 <> Ok (inr u) | _ => True end) as Hend.
  { pose proof (step_waits Hg id w Hs) as Hw. unfold wp in Hw. destruct (run_step id w) as [[[a|u]|e] w']; try done.
    assert (waits id (st w')) as Hw' by (apply Hw; by exists u). intros v Hv.
    apply (waiting_ends id w' Hw'). by exists v. }
  split; [|exact Hend].
  change (runNativeReceiveOperationState (S (S fuel)) id) with
    (let! r := run_step id in match r with inl answer => ret (nativeReceiveOperationView <$> answer)
                                         | inr _ => runNativeReceiveOperationState (S fuel) id end).
  change (runNativeReceiveOperationState 2 id) with
    (let! r := run_step id in match r with inl answer => ret (nativeReceiveOperationView <$> answer)
                                         | inr _ => runNativeReceiveOperationState 1 id end).
  unfold bind. destruct (run_step id w) as [[[a|u]|e] w']; [done | | done].
  simpl. unfold bind. destruct (run_step id w') as [[[a|v]|e] w'']; [done | | done]. by destruct (Hend v).
Qed.


(** The requests the queue serves, the heartbeat of a run among them. *)
Inductive queue_call :=
  | CallEnqueue (o : NativeReceiveOperation)
  | CallRun (operationId : string)
  | CallAlarm
  | CallHeartbeat (o : NativeReceiveOperation) (claimId : string)
  | CallDeleteGeneration (generation : option Z)
  | CallStop.

Definition serve_queue (fuel : nat) (call : queue_call) : DO unit :=
  match call with
  | CallEnqueue o => enqueueNativeReceiveState o ;! ret tt
  | CallRun operationId => runNativeReceiveOperationState fuel operationId ;! ret tt
  | CallAlarm => resumeNativeReceiveFromAlarm fuel ;! ret tt
  | CallHeartbeat o claimId => heartbeat o claimId
  | CallDeleteGeneration generation => canDeleteSupersededGenerationState generation ;! ret tt
  | CallStop => stopNativeReceiveContainerState
  end.

(** What is enqueued is a new operation. *)
Definition call_fresh (call : queue_call) : Prop :=
  match call with
  | CallEnqueue o => native_state o = NrStaged /\ native_cleanupPending o = false
  | _ => True
  end.

(** C16: The life of a native receive: whatever the queue is asked - to stage an
    operation, to run one, to take up the newest one after an alarm, to renew a claim -
    whatever fails and whatever the container answers, each operation changes only
    along the steps of its life: staged, claimed, renewed, settled by the holder of its
    claim as retried, ready, finalized or failed, cleaned up after its end, forgotten.
    What has ended keeps its state, its result and its error until it is forgotten.
    Operations stay under their own names, as long as
    what runs at the open gates keeps to this too. *)
Theorem queue_life (fuel : nat) (call : queue_call) :
  queue_gates -> call_fresh call ->
  respects queue_ok queue_evolves (serve_queue fuel call) anything /\
  forall d x, queue_step (Some d) x -> isNativeReceiveTerminal (native_state d) = true ->
    match x with
    | Some o => native_state o = native_state d /\ native_result o = native_result d /\ native_errorCode o = native_errorCode d
    | None => native_cleanupPending d = false
    end.
Proof.
  intros Hgates Hfresh. split; [revert Hgates Hfresh | exact ended_step].
  intros Hg Hc. pose proof (orderly_run Hg fuel) as Hr. pose proof (orderly_resume Hg fuel) as Ha.
  destruct call as [o|id| |o c|g|]; simpl in *.
  - destruct Hc. pose proof (orderly_enqueue Hg o). respect.
  - respect.
  - respect.
  - pose proof (orderly_renew o c). pose proof (orderly_renew_reader o).
    assert (forall i, respects queue_ok queue_evolves (cancelNativeExecution i) anything)
      by (intros; apply silent_cancel; [typeclasses eauto | apply orderly_silent | by apply gates_orderly]).
    unfold heartbeat. respect.
  - pose proof (orderly_can_delete g). respect.
  - by apply orderly_stop.
Qed.
End Properties.

(** ** A push through the queue *)

Definition demo_container : Container := {|
  container_slot _ _ := SlotStarted;
  container_ready _ := true;
  container_process _ request := Response 200 (Json (Some demo_result));
  container_stop _ := true;
  container_grant _ := "grant"%string;
  heartbeat_lost _ := false;
  gc_inspect _ := None |}.

Definition demo_native : NativeReceiveOperation :=
  mkNative "push" "f" "lease" "repo" NrStaged "in.pack" 64 "e" None "out.pack" "out.idx" "out.refs" [demo_command] []
    [] 1 0 0 0 false None None None None None None None None None None None.

Definition demo_queue : Storage :=
  set_receiveLease (Some (mkLease "lease" 0 1000000 None)) (set_refs (Some [mkRef "refs/heads/main" (oldOid demo_command)]) empty_storage).

Definition demo_staged : world :=
  (enqueueNativeReceiveState (H := still_env 1000) demo_native (World demo_queue 0)).2.

(** It is staged, processed, made ready and committed, and its objects are deleted. *)
Example demo_push :
  let r := runNativeReceiveOperationState (H := still_env 1000) (H0 := demo_container) 2 "push" demo_staged in
  (native_state <$> native_of "push" (st demo_staged)) = Some NrStaged /\
  refs (st r.2) = Some [mkRef "refs/heads/main" (newOid demo_command)] /\
  ((fun o => (native_state o, native_cleanupPending o)) <$> native_of "push" (st r.2)) = Some (NrCommitted, false) /\
  receiveLease (st r.2) = None.
Proof. vm_compute. done. Qed.

Lemma still_gates t : queue_gates (H := still_env t).
Proof. intros n s Hs. split_and!; [done | reflexivity | intros id k; by right]. Qed.

Lemma empty_queue_ok s : nativeReceiveOperations s = empty -> queue_ok s.
Proof. intros E. split; unfold named, native_of; rewrite E; intros id d Hd; by rewrite lookup_empty in Hd. Qed.

Lemma demo_staged_ok : queue_ok (st demo_staged).
Proof.
  apply (orderly_enqueue (H := still_env 1000) (still_gates 1000) demo_native); [done..|].
  by apply empty_queue_ok.
Qed.

Lemma claim_excludes_others_witness :
  let r := claimOperationAttempt (H := still_env 1000) "push" (World (st demo_staged) 9) in
  match r.1 with
  | Ok (ClaimClaimed o c) => may_claim "push" 1000 (st demo_staged) = true /\ may_claim "push" 2000 (st r.2) = false
  | _ => False
  end.
Proof.
  pose proof (claim_excludes_others (H := still_env 1000) "push" (st demo_staged) 9) as Hw. cbv zeta in *.
  assert (match (claimOperationAttempt (H := still_env 1000) "push" (World (st demo_staged) 9)).1 with
          | Ok (ClaimClaimed o c) => negb (str_eq c "") | _ => false end = true) as Hc by (vm_compute; reflexivity).
  destruct (claimOperationAttempt _ _) as [[[o c|o|]|e] w']; cbn [fst snd] in *; [|discriminate Hc ..].
  destruct Hw as (H1 & _ & H3 & _ & H5). split; [exact H1|]. apply (H5 _ 2000).
  - intros ->. discriminate Hc.
  - rewrite H3. unfold native_of. simpl. apply lookup_insert_eq.
  - reflexivity.
Defined.

Lemma run_ends_witness :
  queue_ok (st demo_staged) /\
  runNativeReceiveOperationState (H := still_env 1000) (H0 := demo_container) 7 "push" demo_staged =
  runNativeReceiveOperationState (H := still_env 1000) (H0 := demo_container) 2 "push" demo_staged.
Proof.
  split; [apply demo_staged_ok|].
  destruct (run_ends (H := still_env 1000) (H0 := demo_container) "push" demo_staged 5 (still_gates 1000) demo_staged_ok) as [E _].
  exact E.
Defined.

Lemma queue_life_witness :
  let r := serve_queue (H := still_env 1000) (H0 := demo_container) 2 (CallRun "push") demo_staged in
  queue_evolves (st demo_staged) (st r.2) /\ (native_state <$> native_of "push" (st r.2)) = Some NrCommitted.
Proof.
  split; [|by vm_compute].
  destruct (queue_life (H := still_env 1000) (H0 := demo_container) 2 (CallRun "push") (still_gates 1000) I)
    as [Hrun _]. destruct (Hrun demo_staged demo_staged_ok) as (_ & E & _). exact E.
Defined.

(** The operations but for the deletion of their objects. *)
Definition but_cleanup (s : Storage) := cleaned_up 0 <$> nativeReceiveOperations s.

