(* ===== verification/Authority.v ===== *)
(** * The authority of the repository object

    What the stored state always satisfies, whatever handler wrote it
    ([repo_ok]), and how it may change ([repo_evolves]): the invariant and the
    evolution that every handler of the object keeps, from any storage, under any
    platform, wherever it stops, and whatever runs at an open gate - as long as
    that keeps them too.  The handlers are those of the component files; a lemma
    per handler is in the hint database [respects]. *)
From S2P Require Import Prelude Storage Effects Text RefUpdate Catalog Activity Scheduler.
From S2P Require Import Lifecycle Gc ReachabilityGc GcOperations GcRefinement Leases.
From S2P Require Import AcceptedWrites Receive Compaction NativeExecution StockReceive StockMachine.

(** ** Definitions *)

(** A family of records with an index: the index is bounded and names a key once,
    and every record is in it or is one of those that are stored without it. *)
Definition bounded_index {A} (limit : nat) (stray : string -> A -> Prop) (records : gmap string A)
    (index : list string) : Prop :=
  NoDup index /\ (length index <= limit)%nat /\
  forall key x, records !! key = Some x -> key = ""%string \/ key ∈ index \/ stray key x.

(** The outcome of a stock receive is stored under its token and never indexed. *)
Definition stock_outcome_of (token : string) (o : ReceiveCommitOutcome) : Prop :=
  outcome_token o = token /\ outcome_changed o = true /\ outcome_refPublication o = None.

Record intent_ok (token : string) (i : ReceiveFinalizeIntent) : Prop := {
  io_token : intent_token i = token;
  io_version : nextRefsVersion i = expectedRefsVersion i + 1 }.

Record repo_ok (s : Storage) : Prop := {
  ok_rows : rows_wf (pack_catalog s);
  ok_refs : NoDup (ref_name <$> default [] (refs s));
  ok_reads : (length (default [] (repositoryReadLeases s)) <= MAX_REPOSITORY_READ_LEASES)%nat;
  ok_outcomes : bounded_index MAX_RECEIVE_OUTCOMES stock_outcome_of (receiveOutcomes s)
                  (default [] (receiveOutcomeIndex s));
  ok_receipts : bounded_index MAX_INGESTION_RECEIPTS (fun _ _ => False) (ingestionReceipts s)
                  (default [] (ingestionReceiptIndex s));
  ok_intents : forall token i, receiveFinalizeIntents s !! token = Some i -> intent_ok token i;
  ok_natives : forall id o, native_of id s = Some o -> operation_ok id o;
  ok_ledger : ledgered (nativeReceiveOperations s) (default [] (nativeReceiveOperationIndex s));
  ok_gc : gc_invariant s }.

(** The refs change only with their version, which only grows. *)
Definition refs_evolve (s s' : Storage) : Prop :=
  orZ (refsVersion s) 0 <= orZ (refsVersion s') 0 /\
  (orZ (refsVersion s) 0 = orZ (refsVersion s') 0 -> default [] (refs s) = default [] (refs s')).

Record repo_kept (s s' : Storage) : Prop := {
  kp_refs : refs_evolve s s';
  kp_packset : orZ (packsetVersion s) 0 <= orZ (packsetVersion s') 0;
  kp_sequence : orZ (nextPackSeq s) 1 <= orZ (nextPackSeq s') 1;
  kp_pins : default 0 (snapshotPinVersion s) <= default 0 (snapshotPinVersion s');
  kp_pointers : pointers_advance s s';
  kp_gc : gc_evolves s s';
  kp_natives : stock_evolves s s';
  kp_admissions : forall id, gcAdmissions s !! id = Some true -> gcAdmissions s' !! id = Some true;
  kp_generation : default 0 (nativeExecutionGeneration s) <= default 0 (nativeExecutionGeneration s') }.

(** The deletion fence is never lowered; unless the storage may be reset, the
    versions and records are kept too. *)
Definition repo_evolves (strict : bool) (s s' : Storage) : Prop :=
  (truthy (repositoryDeleting s) = true -> truthy (repositoryDeleting s') = true) /\
  (strict = true -> repo_kept s s').

#[export] Instance refs_evolve_preorder : PreOrder refs_evolve.
Proof.
  split; [by split|]. intros s1 s2 s3 [H1 H2] [H3 H4]. split; [lia|].
  intros E. rewrite H2, H4; [done | lia | lia].
Qed.

#[export] Instance repo_kept_preorder : PreOrder repo_kept.
Proof.
  split.
  - intros s. split; first [done | reflexivity].
  - intros s1 s2 s3 [] []. split; solve [by etrans | auto].
Qed.

#[export] Instance repo_evolves_preorder strict : PreOrder (repo_evolves strict).
Proof.
  split.
  - intros s. split; [done | intros _; reflexivity].
  - intros s1 s2 s3 [H1 H2] [H3 H4]. split; [auto|]. intros Hs. etrans; auto.
Qed.

(** Everything the two mention. *)
Definition vital (s : Storage) :=
  (pack_catalog s, refs s, refsVersion s, packsetVersion s, snapshotPinVersion s, nextPackSeq s,
   repositoryReadLeases s, (receiveOutcomes s, receiveOutcomeIndex s),
   (ingestionReceipts s, ingestionReceiptIndex s), receiveFinalizeIntents s, gcOperation s,
   gcAdmissions s, snapshotCurrents s, nativeExecutionGeneration s, repositoryDeleting s,
   (nativeReceiveOperations s, nativeReceiveOperationIndex s)).

(** ** Lemmas *)

Lemma empty_ok : repo_ok empty_storage.
Proof.
  split; simpl; try done; try apply nil_wf; try apply NoDup_nil_2; try lia.
  3: split; [apply NoDup_nil_2 | simpl; lia | intros id o Ho; by rewrite lookup_empty in Ho].
  1,2: split_and!; [apply NoDup_nil_2 | simpl; lia | intros key x Hk; by rewrite lookup_empty in Hk].
Qed.

Definition repo_step (strict : bool) (s s' : Storage) : Prop := repo_ok s' /\ repo_evolves strict s s'.

Lemma step_vital strict s s' : repo_ok s -> vital s' = vital s -> repo_step strict s s'.
Proof.
  unfold vital. intros Hok E. injection E as E1 E2 E3 E4 E5 E6 E7 E8 E9 E10 E11 E12 E13 E14 E15 E16 E17 E18 E19.
  assert (repo_ok s') as Hok'.
  { destruct Hok. split; unfold gc_invariant, native_of in *;
      rewrite ?E1, ?E2, ?E7, ?E8, ?E9, ?E10, ?E11, ?E12, ?E13, ?E18, ?E19; assumption. }
  split; [done|]. split; [by rewrite E17|]. intros _.
  split; unfold refs_evolve, pointers_advance, gc_evolves, stock_evolves, native_of;
    rewrite ?E2, ?E3, ?E4, ?E5, ?E6, ?E13, ?E14, ?E15, ?E16, ?E18; try done; try (intros; apply rtc_refl).
  intros rf c Hc. exists c. auto.
Qed.

(** Close the obligation of a write. *)
Ltac keeps :=
  lazymatch goal with
  | |- repo_ok (?f ?s) /\ repo_evolves _ ?s (?f ?s) => first [apply step_vital; [assumption | reflexivity] | idtac]
  | |- repo_ok ?s' /\ repo_evolves _ ?s ?s' => first [apply step_vital; [assumption | reflexivity] | idtac]
  end.

Lemma respects_framed strict {A} (m : DO A) :
  framed vital m -> respects repo_ok (repo_evolves strict) m anything.
Proof.
  intros Hm w Hw. destruct (Hm w I) as (_ & Hf & _).
  destruct (step_vital strict (st w) (st (m w).2) Hw (eq_sym Hf)). split_and!; [done | done |].
  by destruct (m w).1.
Qed.

(** The clauses of a change that leaves most of the storage alone. *)
Ltac kept_fields :=
  simpl in *;
  split; [split; simpl | split; [simpl | intros _; split; unfold refs_evolve, pointers_advance, gc_evolves, stock_evolves, native_of; simpl]];
  repeat match goal with E : _ = None |- _ => rewrite E end; simpl;
  try first [assumption | done | apply rtc_refl | lia | (intros; apply rtc_refl) | (intros; eauto; fail)].

Lemma step_rows strict s f :
  repo_ok s -> (rows_wf (pack_catalog s) -> rows_wf (f (pack_catalog s))) ->
  repo_step strict s (set_pack_catalog (f (pack_catalog s)) s).
Proof.
  intros [] Hf. kept_fields.
Qed.

Section Authority.
Context `{Env} (strict : bool).

Local Abbreviation authority_kept m := (respects repo_ok (repo_evolves strict) m anything).

Lemma kept_wp {A} (m : DO A) :
  (forall s n, repo_ok s -> wp m (fun _ w' => repo_step strict s (st w')) (World s n)) ->
  authority_kept m.
Proof.
  intros Hm. apply respects_wp. intros [s n] Hs. eapply wp_conseq; [by apply Hm|].
  intros r w' [? ?]. split_and!; [done | done | by destruct r].
Qed.

Lemma step_refl s : repo_ok s -> repo_step strict s s.
Proof. intros Hs. split; [done | reflexivity]. Qed.

Lemma step_trans s1 s2 s3 : repo_step strict s1 s2 -> repo_step strict s2 s3 -> repo_step strict s1 s3.
Proof. intros [_ H1] [H2 H3]. split; [done | by etrans]. Qed.

(** *** The catalog *)

Lemma kept_sql f : (forall rows, rows_wf rows -> rows_wf (f rows)) -> authority_kept (sql f).
Proof.
  intros Hf. apply respects_put; preorder; [|done]. intros s Hs. by apply step_rows; auto.
Qed.

Lemma kept_upsert row : authority_kept (upsertPackCatalogRow row).
Proof.
  unfold upsertPackCatalogRow. destruct (check_row row) eqn:E.
  - apply kept_sql. auto with golib.
  - apply respects_throw; preorder.
Qed.

Lemma kept_supersede keys by_ : authority_kept (supersedePackCatalogRows keys by_).
Proof. apply respects_for_each; preorder. intros x. apply kept_sql. auto with golib. Qed.

Lemma kept_delete keys : authority_kept (deletePackCatalogRows keys).
Proof. apply respects_for_each; preorder. intros x. apply kept_sql. auto with golib. Qed.

Lemma kept_delete_all : authority_kept deleteAllPackCatalogRows.
Proof. apply kept_sql. auto with golib. Qed.

Hint Resolve kept_upsert kept_supersede kept_delete kept_delete_all : respects.

Ltac authority := respect; try keeps.

Lemma kept_replace keys target : authority_kept (replaceActivePackCatalog keys target).
Proof.
  unfold replaceActivePackCatalog. authority. apply kept_sql. auto with golib.
Qed.
Hint Resolve kept_replace : respects.

(** *** Versions *)

Lemma kept_defaults : authority_kept ensureRepoMetadataDefaults.
Proof.
  apply kept_wp. intros s n Hs. unfold ensureRepoMetadataDefaults.
  wp_run; cbn [st bump] in *.
  all: destruct Hs; kept_fields.
Qed.

Lemma kept_bump : authority_kept bumpPacksetVersion.
Proof.
  apply kept_wp. intros s n Hs. unfold bumpPacksetVersion. wp_run; cbn [st bump] in *.
  - by apply step_refl.
  - destruct Hs; kept_fields.
    destruct (orZ (packsetVersion s) 0 + 1 =? 0) eqn:E; to_prop; lia.
Qed.
Hint Resolve kept_defaults kept_bump : respects.
(** *** Alarms, activity, refs and HEAD *)

Lemma kept_armWake at_ : authority_kept (armWake at_).
Proof. unfold armWake. authority. Qed.

Lemma kept_schedule when now : authority_kept (scheduleAlarmIfSooner when now).
Proof. unfold scheduleAlarmIfSooner. authority. Qed.
Hint Resolve kept_armWake kept_schedule : respects.

Lemma kept_ensureScheduled now : authority_kept (ensureScheduled now).
Proof. unfold ensureScheduled, planNextAlarm. authority. Qed.

Lemma kept_wake : authority_kept scheduleCompactionWake.
Proof. unfold scheduleCompactionWake, scheduleCompactionAlarm. authority. Qed.

Lemma kept_mark t : authority_kept (markCompactionActivity t).
Proof. unfold markCompactionActivity. authority. Qed.

Lemma kept_clear_schedule : authority_kept clearCompactionSchedule.
Proof. unfold clearCompactionSchedule. authority. Qed.
Hint Resolve kept_ensureScheduled kept_wake kept_mark kept_clear_schedule : respects.

Lemma kept_generation_pending : authority_kept ensureGenerationPublicationPendingState.
Proof. unfold ensureGenerationPublicationPendingState, listActivePackCatalog. authority. Qed.

Lemma kept_generation_done g : authority_kept (completeGenerationPublicationState g).
Proof. unfold completeGenerationPublicationState. authority. Qed.

Lemma kept_mutation : authority_kept hasActiveReceiveMutation.
Proof. unfold hasActiveReceiveMutation, listActiveStockReceivePreparationLeases. authority. Qed.
Hint Resolve kept_mutation : respects.

Lemma mutation_refs : framed (fun s => (refs s, refsVersion s)) hasActiveReceiveMutation.
Proof. unfold hasActiveReceiveMutation, listActiveStockReceivePreparationLeases. frames. Qed.

(** Refs written together with the next version. *)
Lemma step_refs s rs v :
  repo_ok s -> NoDup (ref_name <$> rs) -> orZ (refsVersion s) 0 < v ->
  repo_step strict s (set_refsVersion (Some v) (set_refs (Some rs) s)).
Proof.
  intros [] Hnd Hv. kept_fields. unfold orZ in *. destruct (v =? 0) eqn:E; to_prop; lia.
Qed.

Lemma kept_setRefs rs : NoDup (ref_name <$> rs) -> authority_kept (setRefs rs).
Proof.
  intros Hnd. apply respects_atomic; preorder. intros w Hw.
  eapply wp_conseq with (Q := fun r w' => match r with
    | Ok _ => repo_step strict (st w) (st w') | Err _ => True end).
  2: { intros [b|e] w' Hs; [by destruct Hs | done]. }
  apply wp_bind, wp_get. destruct (truthy _); [by apply wp_ret, step_refl|].
  apply wp_bind, wp_get. destruct (gcOwnsSource _); [by apply wp_ret, step_refl|].
  apply wp_bind. eapply wp_kept; [apply kept_mutation | done|]. intros [busy|e] w1 Hok Hev _; [|done].
  destruct busy; [by apply wp_ret|]. apply wp_bind, wp_now, wp_bind, wp_get.
  wp_step; [by apply wp_ret|]. apply wp_bind, wp_put; [done|]. intros _.
  apply wp_bind, wp_get, wp_bind, wp_put; [done|]. intros _. apply wp_ret. cbn [st bump].
  eapply step_trans; [by split|]. apply step_refs; [done | done | simpl; lia].
Qed.

Lemma kept_updateHead stored resolved : authority_kept (updateHeadIfChanged stored resolved).
Proof. unfold updateHeadIfChanged. authority. Qed.
Hint Resolve kept_updateHead : respects.

Lemma kept_resolveHead : authority_kept resolveHead.
Proof. unfold resolveHead, getRefs. authority. Qed.
Hint Resolve kept_resolveHead : respects.

Lemma kept_setHead h : authority_kept (setHead h).
Proof. unfold setHead. authority. Qed.

(** *** Read, maintenance and snapshot leases, deletion *)

Lemma step_reads s leases :
  repo_ok s -> (length (default [] leases) <= MAX_REPOSITORY_READ_LEASES)%nat ->
  repo_step strict s (set_repositoryReadLeases leases s).
Proof. intros [] Hl. kept_fields. Qed.

Lemma live_reads_bounded s now :
  repo_ok s -> (length (activeReadLeases (repositoryReadLeases s) now) <= MAX_REPOSITORY_READ_LEASES)%nat.
Proof.
  intros []. etrans; [apply js_filter_length_le | done].
Qed.

Lemma nonempty_length {A} (l : list A) : length (default [] (nonempty l)) = length l.
Proof. by destruct l. Qed.

Lemma kept_beginRead op : authority_kept (beginRepositoryReadState op).
Proof.
  apply kept_wp. intros s n Hs. unfold beginRepositoryReadState. apply wp_transaction.
  wp_run; cbn [st bump] in *; try by apply step_refl. apply step_reads; [done|].
  apply Nat.leb_gt in Heqb0. etrans; [apply Nat.eq_le_incl, length_app|]. cbn [length]. lia.
Qed.

Lemma kept_renewRead token : authority_kept (renewRepositoryReadState token).
Proof.
  apply kept_wp. intros s n Hs. unfold renewRepositoryReadState. apply wp_transaction.
  wp_run; cbn [st bump] in *; try by apply step_refl. apply step_reads; [done|].
  etrans; [apply Nat.eq_le_incl, length_alter | by apply live_reads_bounded].
Qed.

Lemma kept_finishRead token : authority_kept (finishRepositoryReadState token).
Proof.
  apply kept_wp. intros s n Hs. unfold finishRepositoryReadState. apply wp_transaction.
  wp_run; cbn [st bump] in *; try by apply step_refl. apply step_reads; [done|].
  rewrite nonempty_length. etrans; [apply js_filter_length_le | by apply live_reads_bounded].
Qed.

Lemma kept_projection_lease token : authority_kept (hasActiveProjectionLease token).
Proof.
  apply kept_wp. intros s n Hs. unfold hasActiveProjectionLease.
  wp_run; cbn [st bump] in *; try by apply step_refl.
  apply step_reads; [done|]. rewrite nonempty_length. by apply live_reads_bounded.
Qed.
Hint Resolve kept_projection_lease : respects.

Lemma kept_beginMaintenance op : authority_kept (beginRepositoryMaintenanceState op).
Proof. unfold beginRepositoryMaintenanceState. authority. Qed.

Lemma kept_renewMaintenance token : authority_kept (renewRepositoryMaintenanceState token).
Proof. unfold renewRepositoryMaintenanceState. authority. Qed.

Lemma kept_finishMaintenance token : authority_kept (finishRepositoryMaintenanceState token).
Proof. unfold finishRepositoryMaintenanceState. authority. Qed.

Lemma kept_beginSnapshot prefix : authority_kept (beginSnapshotMaterializationState prefix).
Proof. unfold beginSnapshotMaterializationState. authority. Qed.

Lemma kept_finishSnapshot token : authority_kept (finishSnapshotMaterializationState token).
Proof. unfold finishSnapshotMaterializationState. authority. Qed.

Lemma kept_renewSnapshot token : authority_kept (renewSnapshotMaterializationState token).
Proof. unfold renewSnapshotMaterializationState. authority. Qed.

Lemma kept_prune now : authority_kept (pruneRepositoryActivityLeases now).
Proof.
  unfold pruneRepositoryActivityLeases, hasStockReceiveCleanupOrActivity.
  authority. apply step_reads; [done|]. rewrite nonempty_length. by apply live_reads_bounded.
Qed.
Hint Resolve kept_prune : respects.

Lemma kept_beginDeletion : authority_kept beginRepositoryDeletionState.
Proof.
  unfold beginRepositoryDeletionState. authority.
  match goal with Hs : repo_ok ?s |- repo_ok (_ ?s) /\ _ => destruct Hs end. kept_fields.
Qed.

(** *** The journal *)

Lemma kept_advance_current ref commit sequence t : authority_kept (advance_current ref commit sequence t).
Proof.
  apply kept_wp. intros s n Hs. apply wp_advance_current; cbn [st].
  - intros. by apply step_refl.
  - intros n' Hlt. destruct Hs. kept_fields. intros rf c Hc.
    destruct (decide (rf = ref)) as [->|Hne].
    + rewrite lookup_insert_eq. eexists. split; [done|]. right. simpl. by apply Hlt.
    + rewrite lookup_insert_ne by done. exists c. auto.
  - intros. by apply step_refl.
Qed.
Hint Resolve kept_advance_current : respects.

Lemma kept_retain sequence fact input : authority_kept (retainSnapshotPin sequence fact input).
Proof.
  unfold retainSnapshotPin. authority.
  match goal with Hs : repo_ok ?s |- repo_ok (_ ?s) /\ _ => destruct Hs end. kept_fields.
Qed.
Hint Resolve kept_retain : respects.

Lemma kept_record_fact sequence t journal pin kept fact :
  authority_kept (record_fact sequence t journal pin kept fact).
Proof. unfold record_fact, journal_fact. authority. Qed.
Hint Resolve kept_record_fact : respects.

Lemma kept_record_facts sequence t journal pin kept facts :
  authority_kept (record_facts sequence t journal pin kept facts).
Proof. revert kept. induction facts as [|fact r IH]; intros kept; simpl; authority. Qed.
Hint Resolve kept_record_facts : respects.

Lemma kept_record sequence facts t journal pin :
  authority_kept (recordAcceptedWrites sequence facts t journal pin).
Proof. unfold recordAcceptedWrites. authority. Qed.
Hint Resolve kept_record : respects.

Lemma kept_project_pin sequence fact tree t reader k :
  (forall b, authority_kept (k b)) -> authority_kept (project_pin sequence fact tree t reader k).
Proof. intros Hk. unfold project_pin. authority; apply Hk. Qed.

Lemma kept_journal r : authority_kept (serve_journal r).
Proof.
  destruct r; unfold serve_journal, projectAcceptedWriteState, projectReconciledHeadState,
    dropAcceptedWriteJournalEntry, releaseSnapshotPinState; authority.
  all: apply kept_project_pin; intros; authority.
Qed.

(** *** The collection *)

(** What the handlers of the collection leave alone. *)
Definition beside_gc (s : Storage) :=
  (refs s, refsVersion s, snapshotPinVersion s, nextPackSeq s,
   repositoryReadLeases s, (receiveOutcomes s, receiveOutcomeIndex s),
   (ingestionReceipts s, ingestionReceiptIndex s), receiveFinalizeIntents s,
   snapshotCurrents s, nativeExecutionGeneration s, repositoryDeleting s,
   (nativeReceiveOperations s, nativeReceiveOperationIndex s)).

Definition packset_grows (s s' : Storage) : Prop :=
  orZ (packsetVersion s) 0 <= orZ (packsetVersion s') 0.

#[local] Instance packset_grows_preorder : PreOrder packset_grows.
Proof. split; unfold packset_grows; [intros s | intros s1 s2 s3]; lia. Qed.

Definition admissions_stay (s s' : Storage) : Prop :=
  forall id, gcAdmissions s !! id = Some true -> gcAdmissions s' !! id = Some true.

#[local] Instance admissions_stay_preorder : PreOrder admissions_stay.
Proof. split; [by intros s id | intros s1 s2 s3 H1 H2 id Hid; auto]. Qed.

Definition rows_ok (s : Storage) : Prop := rows_wf (pack_catalog s).

(** The invariant and the evolution, part by part. *)
Lemma kept_parts {A} (m : DO A) :
  framed beside_gc m -> gc_respects m -> respects rows_ok packset_grows m anything ->
  respects (fun _ => True) admissions_stay m anything -> authority_kept m.
Proof.
  intros Hf Hgc Hrows Hadm w Hw.
  destruct (Hf w I) as (_ & Ef & _), (Hgc w (ok_gc _ Hw)) as (Hg1 & Hg2 & _),
    (Hrows w (ok_rows _ Hw)) as (Hr1 & Hr2 & _), (Hadm w I) as (_ & Ha & _).
  unfold frame, beside_gc in Ef.
  injection Ef as E1 E2 E3 E4 E5 E6 E7 E8 E9 E10 E11 E12 E13 E14 E15.
  assert (repo_ok (st (m w).2)) as Hok.
  { destruct Hw. split; unfold native_of in *;
      rewrite <- ?E1, <- ?E5, <- ?E6, <- ?E7, <- ?E8, <- ?E9, <- ?E10, <- ?E14, <- ?E15; assumption. }
  split; [done|]. split; [|by destruct (m w).1]. split; [by rewrite E13|]. intros _.
  split; try assumption; unfold refs_evolve, pointers_advance, stock_evolves, native_of;
    rewrite <- ?E1, <- ?E2, <- ?E3, <- ?E4, <- ?E11, <- ?E12, <- ?E14; try done.
  intros rf c Hc. exists c. auto.
Qed.

Lemma kept_gc_only {A} (m : DO A) :
  framed (fun s => (beside_gc s, pack_catalog s, packsetVersion s, gcAdmissions s)) m ->
  gc_respects m -> authority_kept m.
Proof.
  intros Hf Hgc. apply kept_parts; [|done|..]; intros w Hw; destruct (Hf w I) as (_ & E & _);
    unfold frame in E; pose proof (f_equal (fun x => x.1.1.1) E) as E1;
    pose proof (f_equal (fun x => x.1.1.2) E) as E2; pose proof (f_equal (fun x => x.1.2) E) as E3;
    pose proof (f_equal snd E) as E4; cbn [fst snd] in *;
    (split; [|split]); try done; try (by destruct (m w).1).
  - unfold rows_ok in *. by rewrite <- E2.
  - unfold packset_grows. by rewrite E3.
  - unfold admissions_stay. by rewrite E4.
Qed.

Lemma kept_progress operationId claimId p : authority_kept (recordGcProgress operationId claimId p).
Proof.
  apply kept_gc_only; [|apply progress_gc]. unfold recordGcProgress, release_blocked. frames.
Qed.

Lemma kept_claim operationId : authority_kept (claimGcOperation operationId).
Proof.
  apply kept_gc_only; [|apply claim_gc]. unfold claimGcOperation, claim_source, finish_claim. frames.
Qed.

Lemma kept_register repositoryId operationId q :
  authority_kept (registerGcOperation repositoryId operationId q).
Proof.
  apply kept_parts; [| apply register_gc | |].
  - unfold registerGcOperation. frames.
  - unfold registerGcOperation, armWake. respect; split; try done; unfold packset_grows; simpl; lia.
  - unfold registerGcOperation, armWake. respect; split; try done.
    all: intros id Hid; simpl; try exact Hid.
    all: destruct (decide (id = operationId)) as [->|Hne];
      [by rewrite lookup_insert_eq | by rewrite lookup_insert_ne].
Qed.

Lemma kept_prepare operationId claimId : authority_kept (prepare_publication operationId claimId).
Proof. apply kept_gc_only; [|apply prepare_gc]. unfold prepare_publication. frames. Qed.

Lemma kept_retain_protection token proof : authority_kept (retainGcReceiveProtection token proof).
Proof. apply kept_gc_only; [|apply retain_gc]. unfold retainGcReceiveProtection. frames. Qed.

Lemma kept_advance_versions e v p s1 s2 : authority_kept (advanceGcReceiveVersions e v p s1 s2).
Proof. apply kept_gc_only; [|apply advance_gc]. unfold advanceGcReceiveVersions. frames. Qed.
Hint Resolve kept_prepare kept_retain_protection kept_advance_versions : respects.

Lemma kept_publish operationId claimId : authority_kept (commitCoordinatedGc operationId claimId).
Proof.
  apply kept_parts; [| apply publish_gc | |].
  - unfold commitCoordinatedGc, commitCoordinatedGc_body, choose_target, publish_catalog,
      replaceActivePackCatalog, upsertPackCatalogRow, sql, listActivePackCatalog. frames.
  - apply respects_wp. intros [s n] Hs. cbn [st] in *. apply wp_commit_coordinated; cbn [st].
    + intros. split_and!; [done | reflexivity | done].
    + intros. split_and!; [done | reflexivity | done].
    + intros. split_and!; [done | reflexivity | done].
    + intros o c s' n' _ _ _ _ [(source & coordination & closure & target & now & _ & _ & _ & _ & Hv &
        _ & _ & _ & _ & Hc & Hrows & Hcheck & Hv') _ _ _].
      unfold rows_ok, packset_grows in *. rewrite Hrows. split_and!; [|unfold orZ in *|done].
      * destruct (publication_changes _ _ _ _); [|done]. apply replaced_wf; auto.
      * rewrite Hc in Hv'. destruct (packsetVersion s), (packsetVersion s'); simpl in *; subst;
          repeat match goal with |- context [?x =? 0] => destruct (x =? 0) eqn:? end; to_prop;
          destruct (publication_changes _ _ _ _); lia.
  - apply (respects_weaken _ _ _ anything); [|done].
    assert (framed gcAdmissions (commitCoordinatedGc operationId claimId)) as Hf.
    { unfold commitCoordinatedGc, commitCoordinatedGc_body, choose_target, publish_catalog,
      replaceActivePackCatalog, upsertPackCatalogRow, sql, listActivePackCatalog. frames. }
    intros w _. destruct (Hf w I) as (_ & E & Hr). split_and!; [done | | exact Hr].
    unfold admissions_stay, frame in *. by rewrite E.
Qed.
Hint Resolve kept_publish : respects.

Lemma kept_help : authority_kept helpPreparedGcPublication.
Proof. unfold helpPreparedGcPublication. authority. Qed.
Hint Resolve kept_help : respects.

Lemma kept_clear_attempt token : authority_kept (clearGcAttemptState token).
Proof. unfold clearGcAttemptState. authority. Qed.

Lemma kept_record_pending token key : authority_kept (recordReachabilityGcPendingState token key).
Proof. unfold recordReachabilityGcPendingState. authority. Qed.
Hint Resolve kept_clear_attempt kept_record_pending : respects.

Lemma kept_begin_gc : authority_kept beginReachabilityGcState.
Proof.
  unfold beginReachabilityGcState, acquire_gc, listActiveStockReceivePreparationLeases,
    listActiveStockReceiveOperations, getActivePackCatalogSnapshot, listActivePackCatalog. authority.
Qed.

Lemma kept_reconcile_pending : authority_kept reconcileReachabilityGcPendingState.
Proof. unfold reconcileReachabilityGcPendingState, getPackCatalogRow. authority. Qed.

Lemma kept_complete_pending token key : authority_kept (completeReachabilityGcPendingCleanupState token key).
Proof. unfold completeReachabilityGcPendingCleanupState. authority. Qed.

Lemma kept_direct_commit a :
  cg_gcOperationId a = None -> authority_kept (commitReachabilityGcState a).
Proof.
  intros Ha. unfold commitReachabilityGcState, reconcile_committed, commit_fence, commit_recheck,
    commit_replace, listActivePackCatalog, listActiveStockReceivePreparationLeases,
    retainGcCommitReceipt.
  rewrite Ha. authority.
Qed.

Lemma kept_commit_gc operationId claimId : authority_kept (commitGcOperation operationId claimId).
Proof.
  unfold commitGcOperation. apply respects_get_bind; preorder. intros s Hw.
  pose proof (ok_gc _ Hw) as Hgc. unfold gc_invariant in Hgc.
  destruct (gcOperation s) as [o|]; [|by respect_step].
  respect_step; [by respect_step|]. destruct (gc_commit o); [by respect_step|].
  respect_step; [by respect_step|]. destruct (gc_snapshot o) as [snap|] eqn:Es; [|by respect_step].
  respect_step; [by respect_step|].
  eapply (respects_bind _ _ _ _ anything); preorder; [authority | intros pending _].
  assert (authority_kept (match gc_coordination o with
    | Some _ => prepare_publication operationId claimId ;! commitCoordinatedGc operationId claimId
    | None => commitReachabilityGcState (commit_args o snap claimId)
    end)) as Hcommit.
  { destruct Hgc as [Hs _]. unfold gc_shape, shape_ok in Hs. rewrite Es in Hs.
    destruct (gc_coordination o); [authority|].
    exfalso. simpl in Hs. repeat (apply andb_true_iff in Hs as [Hs ?]). done. }
  destruct pending as [|[|]]; [exact Hcommit | by respect_step | exact Hcommit].
Qed.

Lemma kept_remove_superseded keys : authority_kept (removeSupersededGcPacksState keys).
Proof. unfold removeSupersededGcPacksState. authority. Qed.

(** *** Native executions *)

Lemma set_lane_vital lane r s : vital (set_lane_record lane r s) = vital s.
Proof. by destruct lane. Qed.

Lemma kept_native_begin lane op cl props grant :
  authority_kept (beginNativeExecution lane op cl props grant).
Proof.
  apply kept_wp. intros s n Hs. unfold beginNativeExecution, ownsClaim.
  destruct (negb _); [by apply wp_ret, step_refl|]. apply wp_transaction.
  wp_run; cbn [st bump] in *; try by apply step_refl.
  eapply step_trans; [|apply step_vital; [|apply set_lane_vital]].
  - destruct Hs. kept_fields.
  - destruct Hs. by split.
Qed.

Lemma kept_native_finish i outcome : authority_kept (finishNativeExecution i outcome).
Proof.
  unfold finishNativeExecution, ownsClaim. authority. apply step_vital; [done | apply set_lane_vital].
Qed.

Lemma kept_native_io i b n : authority_kept (noteNativeBridgeIO i b n).
Proof.
  unfold noteNativeBridgeIO. authority. apply step_vital; [done | apply set_lane_vital].
Qed.

Lemma kept_native_stop i : authority_kept (acknowledgeNativeStop i).
Proof.
  unfold acknowledgeNativeStop. authority. apply step_vital; [done | apply set_lane_vital].
Qed.

(** *** Receives *)

(** From here on, what happens at an open gate keeps the authority too. *)
Context (Hg : gate_respects repo_ok (repo_evolves strict)).

Lemma kept_resume_gc : authority_kept resumeGcFromAlarm.
Proof. unfold resumeGcFromAlarm. authority. Qed.

Lemma kept_acquire concurrency lease now helped : authority_kept (acquire concurrency lease now helped).
Proof.
  unfold acquire, listActiveNativeReceiveOperations, listActiveStockReceivePreparationLeases. authority.
Qed.
Hint Resolve kept_acquire : respects.

Lemma kept_admit fuel concurrency lease now helped :
  authority_kept (admitLease fuel concurrency lease now helped).
Proof. revert helped. induction fuel as [|fuel IH]; intros helped; simpl; authority; apply IH. Qed.
Hint Resolve kept_admit : respects.

Lemma kept_removePreparation token : authority_kept (removeStockReceivePreparationLease token).
Proof. unfold removeStockReceivePreparationLease. authority. Qed.
Hint Resolve kept_removePreparation : respects.

Lemma kept_abort token : authority_kept (abortReceiveLease token).
Proof. unfold abortReceiveLease. authority. Qed.
Hint Resolve kept_abort : respects.

Lemma kept_beginReceive concurrency : authority_kept (beginReceiveLease concurrency).
Proof.
  unfold beginReceiveLease, handoff, listActiveNativeReceiveOperations, getActivePackCatalogSnapshot,
    listActivePackCatalog. authority.
Qed.

Lemma kept_beginRecovery op : authority_kept (beginStockReceiveRecoveryLease op).
Proof. unfold beginStockReceiveRecoveryLease. authority. Qed.

Lemma kept_completeRecovery op token : authority_kept (completeStockReceiveRecoveryLease op token).
Proof. unfold completeStockReceiveRecoveryLease. authority. Qed.

Lemma kept_promote token : authority_kept (promoteStockPreparationLease token).
Proof. unfold promoteStockPreparationLease, listActiveNativeReceiveOperations. authority. Qed.

Lemma kept_abortCompaction token : authority_kept (abortCompactionLease token).
Proof. unfold abortCompactionLease. authority. Qed.

Lemma kept_clearExpired now : authority_kept (clearExpiredLeases now).
Proof. unfold clearExpiredLeases, clear_preparations, clear_receive, clear_writers. authority. Qed.

Lemma kept_milestone a : authority_kept (milestone a).
Proof. unfold milestone. authority. Qed.
Hint Resolve kept_milestone : respects.

Lemma kept_verify_artifact a : authority_kept (verify_artifact a).
Proof. unfold verify_artifact. authority. Qed.
Hint Resolve kept_verify_artifact : respects.

Lemma kept_verify_artifacts l : authority_kept (verify_artifacts l).
Proof. induction l as [|a l IH]; simpl; authority. Qed.
Hint Resolve kept_verify_artifacts : respects.

Lemma kept_verify p : authority_kept (verifyReceiveOutputIntegrity p).
Proof. unfold verifyReceiveOutputIntegrity. authority. Qed.

Lemma kept_clearMatching token : authority_kept (clearMatchingReceiveLease token).
Proof. unfold clearMatchingReceiveLease. authority. Qed.

Lemma kept_fence token allow : authority_kept (holdReceiveCompletionFence token allow).
Proof. unfold holdReceiveCompletionFence. authority. Qed.

Lemma kept_queue b : authority_kept (queue_compaction b).
Proof. unfold queue_compaction. authority. Qed.
Hint Resolve kept_verify kept_clearMatching kept_fence kept_queue : respects.

(** Storing a record and moving its key to the end of a bounded index. *)
Lemma bounded_index_push {A} limit stray (records : gmap string A) index key :
  (0 < limit)%nat -> bounded_index limit stray records index ->
  let split := push_bounded limit key index in
  forall records' : gmap string A, (forall k x, records' !! k = Some x -> k = key \/ records !! k = Some x) ->
  (forall k, k ∈ split.1 -> k ≠ ""%string -> records' !! k = None) ->
  bounded_index limit stray records' split.2.
Proof.
  intros Hl (Hnd & Hlen & Hin) split records' Hsub Hev.
  destruct (push_bounded_spec limit key index Hl) as (H1 & H2 & H3 & H4). fold split in H1, H2, H3, H4.
  specialize (H4 Hnd). apply NoDup_app in H4 as (_ & _ & Hnd2). split_and!; [done | done |].
  assert (key ∈ split.2) as Hkey by (by apply last_Some_elem_of).
  intros k x Hk. destruct (decide (k = "")) as [->|Hne]; [by left|]. right.
  destruct (Hsub k x Hk) as [->|Hold]; [by left|].
  destruct (Hin k x Hold) as [->|[Hk'|Hs]]; [done | | by right]. left.
  assert (k ∈ split.1 ++ split.2) as Happ.
  { subst split. unfold push_bounded, js_push. simpl. rewrite take_drop.
    destruct (decide (k = key)) as [->|Hkk]; [apply elem_of_app; right; apply list_elem_of_here|].
    apply elem_of_app. left. apply elem_of_js_filter. split; [done|]. unfold str_eq.
    by rewrite bool_decide_false. }
  apply elem_of_app in Happ as [He|]; [|done]. by rewrite (Hev k He Hne) in Hk.
Qed.

Lemma step_outcomes s records index :
  repo_ok s -> bounded_index MAX_RECEIVE_OUTCOMES stock_outcome_of records index ->
  repo_step strict s (set_receiveOutcomeIndex (Some index) (set_receiveOutcomes records s)).
Proof. intros [] Hb. kept_fields. Qed.

Lemma step_receipts s records index :
  repo_ok s -> bounded_index MAX_INGESTION_RECEIPTS (fun _ _ => False) records index ->
  repo_step strict s (set_ingestionReceiptIndex (Some index) (set_ingestionReceipts records s)).
Proof. intros [] Hb. kept_fields. Qed.

(** The eviction loops delete exactly the evicted keys. *)
Lemma wp_evict {A} (field : Storage -> gmap string A) (set_field : gmap string A -> Storage -> Storage)
    (evicted : list string) s (Q : res unit -> world -> Prop) records n :
  (forall r s, field (set_field r s) = r) -> (forall r r' s, set_field r (set_field r' s) = set_field r s) ->
  (forall e w', Q (Err e) w') ->
  (forall (records' : gmap string A) n, (forall k x, records' !! k = Some x -> records !! k = Some x) ->
     (forall k, k ∈ evicted -> k ≠ ""%string -> records' !! k = None) ->
     Q (Ok tt) (World (set_field records' s) n)) ->
  wp (for_each evicted (fun removed => if str_eq removed "" then ret tt
        else put (fun s => set_field (delete removed (field s)) s))) Q (World (set_field records s) n).
Proof.
  intros Hget Hset Herr Hok. revert records n Hok. induction evicted as [|x l IH]; intros records n Hok; simpl.
  - apply wp_ret, Hok; [done|]. intros k Hk. by apply elem_of_nil in Hk.
  - apply wp_bind. destruct (str_eq x "") eqn:Ex.
    + apply wp_ret, IH. intros records' n' H1 H2. apply Hok; [done|].
      intros k [->|Hk]%elem_of_cons Hne; [|by apply H2]. unfold str_eq in Ex. to_prop. done.
    + apply wp_put; [intros; apply Herr|]. intros _. cbn [st]. rewrite Hget, Hset.
      apply IH. intros records' n' H1 H2. apply Hok.
      * intros k y Hk. by apply (H1 k y), lookup_delete_Some in Hk as [_ Hy].
      * intros k [->|Hk]%elem_of_cons Hne; [|by apply H2].
        destruct (records' !! x) eqn:E; [|done]. apply H1 in E. by rewrite lookup_delete_eq in E.
Qed.

Lemma kept_storeOutcome o : authority_kept (storeReceiveOutcome o).
Proof.
  apply kept_wp. intros s n Hs. unfold storeReceiveOutcome. apply wp_transaction.
  apply wp_bind, wp_put; [intros; by apply step_refl|]. intros _. apply wp_bind, wp_get, wp_bind. cbn [st].
  eapply (wp_evict receiveOutcomes set_receiveOutcomes); [done | done | intros; by apply step_refl |].
  intros records' n' H1 H2. apply wp_put; [intros; by apply step_refl|]. intros _. cbn [st].
  apply step_outcomes; [done|]. eapply (bounded_index_push _ _ (receiveOutcomes s)); [unfold MAX_RECEIVE_OUTCOMES; lia | apply Hs | | exact H2].
  intros k y Hk. apply H1 in Hk. destruct (decide (k = outcome_token o)) as [->|Hne]; [by left|].
  right. by rewrite lookup_insert_ne in Hk by done.
Qed.

Lemma kept_storeReceipt r : authority_kept (storeIngestionReceipt r).
Proof.
  apply kept_wp. intros s n Hs. unfold storeIngestionReceipt. apply wp_transaction.
  apply wp_bind, wp_get. wp_step; [apply wp_throw; by apply step_refl|].
  apply wp_bind, wp_put; [intros; by apply step_refl|]. intros _. apply wp_bind, wp_get, wp_bind. cbn [st].
  eapply (wp_evict ingestionReceipts set_ingestionReceipts); [done | done | intros; by apply step_refl |].
  intros records' n' H1 H2. apply wp_put; [intros; by apply step_refl|]. intros _. cbn [st].
  apply step_receipts; [done|]. eapply (bounded_index_push _ _ (ingestionReceipts s)); [unfold MAX_INGESTION_RECEIPTS; lia | apply Hs | | exact H2].
  intros k y Hk. apply H1 in Hk. destruct (decide (k = keyHash r)) as [->|Hne]; [by left|].
  right. by rewrite lookup_insert_ne in Hk by done.
Qed.
Hint Resolve kept_storeOutcome kept_storeReceipt : respects.

Lemma kept_receipt r : authority_kept (store_receipt r).
Proof. unfold store_receipt. authority. Qed.
Hint Resolve kept_receipt : respects.

(** *** The durable intent and the compare-and-swap *)

Definition own_intent (i : ReceiveFinalizeIntent) : Prop := intent_ok (intent_token i) i.

Lemma step_intent s token i :
  repo_ok s -> intent_ok token i ->
  repo_step strict s (set_receiveFinalizeIntents (<[token := i]> (receiveFinalizeIntents s)) s).
Proof.
  intros [] Hi. kept_fields. intros k j. destruct (decide (k = token)) as [->|Hne].
  - rewrite lookup_insert_eq. by intros [= <-].
  - rewrite lookup_insert_ne by done. auto.
Qed.

Lemma step_no_intent s token :
  repo_ok s -> repo_step strict s (set_receiveFinalizeIntents (delete token (receiveFinalizeIntents s)) s).
Proof.
  intros [] . kept_fields. intros k j Hk. apply lookup_delete_Some in Hk as [_ Hk]. auto.
Qed.

Lemma kept_persist i proof : own_intent i -> authority_kept (persist_intent i proof).
Proof. intros Hi. unfold persist_intent. authority. by apply step_intent. Qed.
Hint Resolve kept_persist : respects.

Lemma kept_protection inspect rv oids staged :
  authority_kept (prepareGcReceiveProtection inspect rv oids staged).
Proof. unfold prepareGcReceiveProtection. authority. Qed.
Hint Resolve kept_protection : respects.

Lemma kept_build_intent a rs :
  respects repo_ok (repo_evolves strict) (build_intent a rs) (fun r => own_intent r.1).
Proof.
  unfold build_intent. authority. apply kept_persist. by split.
Qed.

Hint Resolve kept_build_intent : respects.

Lemma kept_begin_intent a :
  respects repo_ok (repo_evolves strict) (begin_intent a)
    (fun r => match r with inr (i, _) => own_intent i | inl _ => True end).
Proof. unfold begin_intent. authority. by destruct a1. Qed.
Hint Resolve kept_begin_intent : respects.

Lemma kept_retry_intent a i :
  own_intent i -> respects repo_ok (repo_evolves strict) (retry_intent a i)
    (fun r => match r with inr (i, _) => own_intent i | inl _ => True end).
Proof. intros Hi. unfold retry_intent. authority. Qed.

Hint Resolve kept_retry_intent : respects.

Lemma orZ_some v d : d <= 1 -> d <= v -> orZ (Some v) d = v \/ v = 0 /\ orZ (Some v) d = d.
Proof. unfold orZ. destruct (v =? 0) eqn:E; to_prop; auto. Qed.

(** A counter is only ever raised. *)
Lemma kept_raise_sequence seq :
  authority_kept (let! current := get (fun s => orZ (nextPackSeq s) 1) in
                  if current <=? seq then put (set_nextPackSeq (Some (seq + 1))) else ret tt).
Proof.
  apply kept_wp. intros s n Hs. apply wp_bind, wp_get. cbn [st].
  destruct (_ <=? seq) eqn:E; [|by apply wp_ret, step_refl]. apply Z.leb_le in E.
  apply wp_put; [intros; by apply step_refl|]. intros _. destruct Hs. kept_fields.
  unfold orZ in *. destruct (seq + 1 =? 0) eqn:E1; to_prop; lia.
Qed.

Lemma kept_raise_packset v :
  authority_kept (let! current := get (fun s => orZ (packsetVersion s) 0) in
                  if current <? v then put (set_packsetVersion (Some v)) else ret tt).
Proof.
  apply kept_wp. intros s n Hs. apply wp_bind, wp_get. cbn [st].
  destruct (_ <? v) eqn:E; [|by apply wp_ret, step_refl]. apply Z.ltb_lt in E.
  apply wp_put; [intros; by apply step_refl|]. intros _. destruct Hs. kept_fields.
  unfold orZ in *. destruct (v =? 0) eqn:E1; to_prop; lia.
Qed.

Lemma bind_assoc {A B C} (m : DO A) (f : A -> DO B) (g : B -> DO C) w :
  bind m (fun a => bind (f a) g) w = bind (bind m f) g w.
Proof. unfold bind. by destruct (m w) as [[a|e] w']. Qed.

Lemma kept_ext {A} (m m' : DO A) : (forall w, m w = m' w) -> authority_kept m' -> authority_kept m.
Proof. intros E Hm w Hw. rewrite E. by apply Hm. Qed.

Lemma kept_activate i : authority_kept (activate_pack i).
Proof.
  unfold activate_pack, listActivePackCatalog. destruct (intent_stagedPack i); [|authority].
  respect_step. respect_step; [authority|]. destruct (packSequence i) as [seq|]; [|authority].
  destruct (nextPacksetVersion i) as [npv|]; [|authority].
  respect_step; [authority|]. respect_step.
  eapply kept_ext; [intros w; apply bind_assoc|].
  eapply (respects_bind _ _ _ _ anything); preorder; [apply kept_raise_sequence|]. intros _ _.
  eapply kept_ext; [intros w; apply bind_assoc|].
  eapply (respects_bind _ _ _ _ anything); preorder; [apply kept_raise_packset|]. intros _ _. authority.
Qed.

(** The three writes of a successful compare-and-swap. *)
Lemma step_cas s i rs first :
  repo_ok s -> own_intent i ->
  cas_refs i (default [] (refs s)) (orZ (refsVersion s) 0) = Some (rs, first) ->
  repo_step strict s (set_refsVersion (Some (nextRefsVersion i))
    (set_head (Some (nextHead i)) (set_refs (Some rs) s))).
Proof.
  intros Hs [_ Hv] Ecas. unfold cas_refs in Ecas. destruct (_ =? expectedRefsVersion i) eqn:E1.
  - injection Ecas as <- _. apply Z.eqb_eq in E1. destruct Hs. kept_fields.
    + apply applied_refs_wf.
    + unfold orZ in *. destruct (nextRefsVersion i =? 0) eqn:E2; to_prop; lia.
  - destruct (_ && _) eqn:E2; [|done]. injection Ecas as <- _.
    apply andb_true_iff in E2 as [E2 _]. apply Z.eqb_eq in E2. destruct Hs. kept_fields.
    split; [|done]. destruct (nextRefsVersion i =? 0) eqn:E3; to_prop; lia.
Qed.

Lemma kept_commit_refs i : own_intent i -> authority_kept (commit_refs i).
Proof.
  intros Hi. apply respects_atomic; preorder. intros [s n] Hs. cbn [st] in *.
  eapply wp_conseq with (Q := fun r w' => match r with
    | Ok _ => repo_step strict s (st w') | Err _ => True end).
  2: { intros [x|e] w' Hx; [by destruct Hx | done]. }
  apply wp_bind, wp_get, wp_bind, wp_get. cbn [st].
  destruct (cas_refs _ _ _) as [[rs first]|] eqn:Ecas; [|by apply wp_throw].
  apply wp_bind, wp_now, wp_bind, wp_put; [done|]. intros _.
  apply wp_bind, wp_put; [done|]. intros _. apply wp_bind, wp_put; [done|]. intros _. cbn [st bump].
  set (s1 := set_refsVersion _ _).
  assert (repo_step strict s s1) as [Hok1 Hev1] by (by eapply step_cas).
  assert (authority_kept (
    (match (match intent_refPublication i with
            | Some p => Some p
            | None => if first : bool then Some (mkRefPublication (env_now n) (nextRefsVersion i)) else None
            end) with
     | Some p => put (fun s => set_receiveFinalizeIntents
         (<[intent_token i := with_publication i p]> (receiveFinalizeIntents s)) s)
     | None => ret tt
     end) ;!
    let! expectedPins := get (fun s => default 0 (snapshotPinVersion s)) in
    let! retained := (match acceptedWriteFactsForIntent i with
                      | Some facts =>
                        recordAcceptedWrites (nextRefsVersion i) facts
                          (intent_createdAt i) env_snapshotEventProbe (snapshot_input i)
                      | None => ret true
                      end) in
    let! nextPins := get (fun s => default 0 (snapshotPinVersion s)) in
    advanceGcReceiveVersions (expectedRefsVersion i) (nextRefsVersion i)
      (nextPacksetVersion i) expectedPins nextPins ;!
    ret (rs, (match intent_refPublication i with
            | Some p => Some p
            | None => if first : bool then Some (mkRefPublication (env_now n) (nextRefsVersion i)) else None
            end), retained))) as Hrest.
  { authority; apply step_intent; [done | by destruct Hi; split ..]. }
  eapply wp_kept; [exact Hrest | exact Hok1 |]. intros r w' Hok' Hev' _. destruct r; [|done].
  split; [done | by etrans].
Qed.
Hint Resolve kept_activate kept_commit_refs : respects.


Lemma kept_finish a i v b rs p : authority_kept (finish_receive a i v b rs p).
Proof. unfold finish_receive. authority. by apply step_no_intent. Qed.

Lemma kept_replay a o : authority_kept (replay_outcome a o).
Proof. unfold replay_outcome. authority. by apply step_no_intent. Qed.
Hint Resolve kept_finish kept_replay : respects.

Lemma kept_complete a i v : own_intent i -> authority_kept (complete_intent a i v).
Proof. intros Hi. unfold complete_intent. authority. Qed.

Lemma kept_finalize a : authority_kept (finalizeReceiveState a).
Proof.
  unfold finalizeReceiveState. apply respects_get_bind; preorder. intros s Hs.
  apply respects_get_bind; preorder. intros s2 _.
  eapply (respects_bind _ _ _ _ anything); preorder; [apply kept_fence | intros held _].
  destruct (negb held); [authority|].
  eapply (respects_bind _ _ _ _ anything); preorder; [apply kept_defaults | intros _ _].
  destruct (receiveOutcomes s2 !! fin_token a); [apply kept_replay|].
  eapply (respects_bind _ _ _ _ (fun r => match r with inr (i, _) => own_intent i | inl _ => True end));
    preorder.
  - destruct (receiveFinalizeIntents s !! fin_token a) as [i|] eqn:Ei; [|apply kept_begin_intent].
    apply kept_retry_intent. destruct (ok_intents _ Hs _ _ Ei) as [Ht Hv]. by split.
  - intros [r|[i v]] Hi; [authority | by apply kept_complete].
Qed.
Hint Resolve kept_finalize : respects.

Lemma kept_reconcile token commands key receipt inspect :
  authority_kept (reconcileReceiveState token commands key receipt inspect).
Proof. unfold reconcileReceiveState, reconcile_by_state, listActivePackCatalog. authority. Qed.

Lemma kept_note_failed token : authority_kept (note_failed_recovery token).
Proof.
  unfold note_failed_recovery. authority. apply step_intent; [done|].
  match goal with Hs : repo_ok ?s, E : receiveFinalizeIntents ?s !! token = Some ?i |- _ =>
    destruct (ok_intents _ Hs _ _ E) as [? ?] end. by split.
Qed.
Hint Resolve kept_note_failed : respects.

Lemma kept_resume inspect : authority_kept (resumeReceiveFinalizeFromAlarm inspect).
Proof. unfold resumeReceiveFinalizeFromAlarm. authority. Qed.

(** *** Compaction and packs *)

Lemma kept_context : authority_kept loadCompactionContext.
Proof. unfold loadCompactionContext, getActivePackCatalogSnapshot, listActivePackCatalog. authority. Qed.
Hint Resolve kept_context : respects.

Lemma kept_request : authority_kept requestCompactionState.
Proof. unfold requestCompactionState. authority. Qed.

Lemma kept_clear_request : authority_kept clearCompactionRequestState.
Proof. unfold clearCompactionRequestState. authority. Qed.

Lemma kept_beginCompaction : authority_kept beginCompactionState.
Proof.
  unfold beginCompactionState, acquire_compaction, listActiveStockReceivePreparationLeases,
    listActiveStockReceiveOperations, getActivePackCatalogSnapshot, listActivePackCatalog. authority.
Qed.

Lemma kept_commitCompaction token sources t pv staged :
  authority_kept (commitCompactionState token sources t pv staged).
Proof.
  unfold commitCompactionState, compaction_fence, compaction_recheck, compaction_replace,
    compaction_reschedule, listActiveStockReceivePreparationLeases, listActiveStockReceiveOperations,
    listActivePackCatalog. authority.
Qed.

Lemma kept_rearm : authority_kept rearmCompactionQueueFromAlarm.
Proof. unfold rearmCompactionQueueFromAlarm, scheduleCompactionAlarm. authority. Qed.

Lemma kept_artifact key : authority_kept (deletePackArtifact key).
Proof. unfold deletePackArtifact. authority. Qed.
Hint Resolve kept_artifact : respects.

Lemma kept_removePack key : authority_kept (removePack key).
Proof. unfold removePack, getPackCatalogRow. authority. Qed.
End Authority.

(** *** The two resets *)

Section Resets.
Context `{Env}.

Lemma step_cleared s s1 :
  repo_ok s1 -> repo_step false s (set_pack_catalog (pack_catalog s1) (set_repositoryDeleting (Some true) empty_storage)).
Proof.
  intros Hok. pose proof empty_ok as He. destruct He, Hok. split; [split; simpl; done|]. by split.
Qed.

Lemma kept_clear_storage : respects repo_ok (repo_evolves false) clearRepositoryStorage anything.
Proof.
  apply kept_wp. intros s n Hs. unfold clearRepositoryStorage. apply wp_bind, wp_get.
  destruct (negb _); [by apply wp_throw, step_refl|].
  apply wp_bind. eapply wp_kept; [apply (kept_delete_all false) | done |].
  intros [[]|e] w1 Hok1 Hev1 _; [|by split].
  apply wp_bind, wp_transaction, wp_put; [intros; by split|]. intros _. by apply wp_ret, step_cleared.
Qed.

Lemma decide_reads last now : framed (fun s => s) (decideIdleCleanup env_idleMs last now).
Proof. unfold decideIdleCleanup, getActivePackCatalogCount. frames. Qed.

Lemma kept_clear_alarm : respects repo_ok (repo_evolves false) clearIdleAlarm anything.
Proof. unfold clearIdleAlarm. respect; keeps. Qed.

(** The reset of an idle repository that is not being deleted. *)
Lemma wp_idle_reset s n :
  repo_ok s -> truthy (repositoryDeleting s) = false ->
  wp performIdleCleanup (fun _ w' => repo_step false s (st w')) (World s n).
Proof.
  intros Hs Ed. unfold performIdleCleanup. apply wp_try_catch, wp_put.
  - intros [] _; by apply (step_refl false).
  - intros _. split; [apply empty_ok|]. split; [by rewrite Ed | done].
Qed.

Lemma kept_idle : respects repo_ok (repo_evolves false) handleIdleAndMaintenance anything.
Proof.
  unfold handleIdleAndMaintenance.
  apply respects_try_catch; preorder; [|intros; by apply respects_ret; preorder].
  apply (kept_wp false). intros s n Hs. apply wp_bind, wp_now, wp_bind, wp_get. cbn [st bump].
  assert (forall (m : DO unit) k, respects repo_ok (repo_evolves false) m anything ->
    wp m (fun _ w' => repo_step false s (st w')) (World s k)) as Hkept.
  { intros m k Hm. eapply wp_kept; [apply Hm | done | by split]. }
  destruct (truthy (repositoryDeleting s)) eqn:Ed; [apply Hkept, kept_clear_alarm|].
  apply wp_bind, wp_get, wp_bind. eapply wp_framed; [apply decide_reads|].
  intros [d|e] [s' k] Hr; simpl in Hr; subst s'; [|by apply (step_refl false)].
  destruct d; [|by apply wp_idle_reset | apply Hkept, kept_clear_alarm].
  apply Hkept. eapply respects_bind; preorder; [apply (kept_ensureScheduled false)|].
  intros _ _. by apply respects_ret; preorder.
Qed.
End Resets.
