(* ===== verification/StockAuthority.v ===== *)
(** * The stock receive authority keeps the authority of the repository

    Every handler of [do/repo/stockReceiveAuthority.ts] keeps the invariant of
    the storage ([repo_ok]) and lets it evolve as [repo_evolves] allows; the
    operations it stores move as [stock_step] allows. *)
From S2P Require Import Prelude NativeTypes Storage Effects Text Keys RefUpdate Catalog Activity.
From S2P Require Import Gc GcRefinement Leases AcceptedWrites Receive AuthorityPlan StockReceive.
From S2P Require Import StockMachine StockAdmission Authority.

(** ** Definitions *)

(** The versions that a finalizer reads before its digests and writes after. *)
Definition pack_versions (s : Storage) : option Z * option Z := (nextPackSeq s, packsetVersion s).

(** ** Lemmas *)

(** Storing an operation that keeps the ledger listing everything. *)
Lemma step_native strict s o index :
  repo_ok s -> operation_ok (native_id o) o -> stock_step (native_of (native_id o) s) (Some o) ->
  ledgered (<[native_id o := o]> (nativeReceiveOperations s)) (default [] index) ->
  repo_step strict s (set_nativeReceiveOperationIndex index
    (set_nativeReceiveOperations (<[native_id o := o]> (nativeReceiveOperations s)) s)).
Proof.
  intros [] Ho Hstep Hl. kept_fields.
  - intros id x. unfold native_of. simpl. destruct (decide (id = native_id o)) as [->|Hne].
    + rewrite lookup_insert_eq. by intros [= <-].
    + rewrite lookup_insert_ne by done. apply ok_natives.
  - intros id. destruct (decide (id = native_id o)) as [->|Hne].
    + rewrite lookup_insert_eq. unfold native_of in Hstep. by apply rtc_once.
    + rewrite lookup_insert_ne by done. apply rtc_refl.
Qed.

Lemma ledgered_update operations index id d o :
  ledgered operations index -> operations !! id = Some d -> ledgered (<[id := o]> operations) index.
Proof.
  intros [Hnd Hb Hl] Hd. split; [done | done |]. intros k x Hk.
  destruct (decide (k = id)) as [->|Hne]; [by eapply Hl|].
  rewrite lookup_insert_ne in Hk by done. by eapply Hl.
Qed.

Lemma ledgered_delete operations index id : ledgered operations index -> ledgered (delete id operations) index.
Proof.
  intros [Hnd Hb Hl]. split; [done | done |]. intros k x [_ Hk]%lookup_delete_Some. by eapply Hl.
Qed.

(** An operation is replaced by its successor under the same name. *)
Lemma step_put strict s id d o :
  repo_ok s -> native_of id s = Some d -> operation_ok id o -> stock_step (Some d) (Some o) ->
  repo_step strict s (set_nativeReceiveOperations (<[native_id o := o]> (nativeReceiveOperations s)) s).
Proof.
  intros Hs Hd Ho Hx. pose proof (oo_id _ _ Ho) as <-. pose proof (ok_ledger _ Hs) as Hl.
  destruct (step_native strict s o (nativeReceiveOperationIndex s)) as [H1 H2];
    [done | done | by rewrite Hd | by eapply ledgered_update |].
  by destruct s.
Qed.

Lemma step_forget strict s id d :
  repo_ok s -> native_of id s = Some d -> forgettable d = true ->
  repo_step strict s (set_nativeReceiveOperations (delete id (nativeReceiveOperations s)) s).
Proof.
  intros [] Hd Hf. kept_fields.
  - intros k x Hk. unfold native_of in Hk. simpl in Hk. apply lookup_delete_Some in Hk as [_ Hk]. by apply ok_natives.
  - by apply ledgered_delete.
  - intros k. destruct (decide (k = id)) as [->|Hne].
    + rewrite lookup_delete_eq. unfold native_of in Hd. rewrite Hd. by apply rtc_once, step_forgotten.
    + rewrite lookup_delete_ne by done. apply rtc_refl.
Qed.

Lemma with_events_ok id events o : operation_ok id o -> operation_ok id (set_native_events events o).
Proof. intros []. by split. Qed.

Lemma withEvidence_ok id o additions o' :
  operation_ok id o -> withEvidence o additions = Ok o' ->
  operation_ok id o' /\ same_push o o' /\ native_state o' = native_state o /\
  native_cleanupPending o' = native_cleanupPending o /\ native_attempts o' = native_attempts o /\
  native_processorResult o' = native_processorResult o /\
  native_publicationPlan o' = native_publicationPlan o.
Proof.
  unfold withEvidence. destruct (add_events _ _) as [events|]; [|done]. intros Ho [= <-].
  split_and!; try done. by apply with_events_ok.
Qed.

Lemma withEvidence_lease o additions o' :
  withEvidence o additions = Ok o' -> native_leaseToken o' = native_leaseToken o.
Proof. unfold withEvidence. destruct (add_events _ _); [|done]. by intros [= <-]. Qed.

Lemma readied_ok o r plan now :
  operation_ok (native_id o) o -> native_errorCode o = None ->
  operation_ok (native_id o) (readied o r plan now).
Proof. intros [] He. by split. Qed.

Section StockAuthority.
Context `{Env} (strict : bool).

Local Abbreviation authority_kept m := (respects repo_ok (repo_evolves strict) m anything).

#[local] Hint Resolve kept_armWake kept_mark kept_upsert kept_advance_versions kept_record
  kept_removePreparation : respects.

Ltac authority := respect; try keeps.

Lemma kept_drop token : authority_kept (drop_lease token).
Proof. unfold drop_lease. authority. Qed.
#[local] Hint Resolve kept_drop : respects.

Lemma natives_drop token : framed nativeReceiveOperations (drop_lease token).
Proof. unfold drop_lease. frames. Qed.

(** The end of a transaction that has just rewritten an operation. *)
Lemma wp_kept_tail {A} (m : DO A) s s1 n :
  repo_step strict s s1 -> authority_kept m ->
  wp m (fun r w' => match r with
    | Ok _ => repo_ok (st w') /\ repo_evolves strict s (st w') /\ anything r | Err _ => True end)
    (World s1 n).
Proof.
  intros [Hok Hev] Hm. eapply wp_kept; [exact Hm | exact Hok |]. intros r w' Hok' Hev' _.
  destruct r; [|done]. split_and!; [done | by etrans | done].
Qed.

(** *** Rejections *)

Lemma running_ok id d : operation_ok id d -> native_state d = NrProcessing \/ native_state d = NrReady ->
  native_errorCode d = None.
Proof. intros [_ He _] Hs. apply He. unfold ended. destruct Hs as [-> | ->]; by intros []. Qed.

Lemma aborted_step code now d additions o id :
  operation_ok id d -> native_state d = NrProcessing \/ native_state d = NrReady ->
  withEvidence (aborted code now d) additions = Ok o ->
  operation_ok id o /\ stock_step (Some d) (Some o).
Proof.
  intros Hd Hs Ho. assert (operation_ok id (aborted code now d)) as Ha.
  { destruct Hd. split; simpl; [done | | done]. intros Hn. exfalso. apply Hn. by left. }
  destruct (withEvidence_ok _ _ _ _ Ha Ho) as (H1 & H2 & H3 & H4 & _). split; [done|].
  apply step_aborted; done.
Qed.

Lemma kept_reject o code phase expected c :
  expected = NrProcessing \/ expected = NrReady ->
  authority_kept (rejectReadyStockAuthority o code phase expected c).
Proof.
  intros He. unfold rejectReadyStockAuthority.
  eapply (respects_bind _ _ _ _ anything); preorder.
  - apply respects_atomic; preorder. intros [s n] Hs. apply wp_bind, wp_get. cbn [st].
    destruct (native_of (native_id o) s) as [d|] eqn:Ed; [|by apply wp_ret; split_and!].
    destruct (_ || _) eqn:Eg; [by apply wp_ret; split_and!|].
    apply wp_bind, wp_now, wp_bind, wp_of_res. cbn [st bump].
    destruct (withEvidence _ _) as [rejected|] eqn:Er; [|done].
    assert (native_state d = expected) as Est by (unfold is_state in Eg; by to_prop).
    pose proof (ok_natives _ Hs _ _ Ed) as Hd. destruct (aborted_step _ _ _ _ _ _ Hd ltac:(by rewrite Est) Er) as [Hr Hstep].
    apply wp_bind, wp_put; [done|]. intros _. cbn [st]. apply wp_kept_tail.
    + by eapply (step_put _ s).
    + authority.
  - intros b _. unfold publication_or. authority.
Qed.

(** *** Admission *)

Lemma kept_existing o e :
  respects repo_ok (repo_evolves strict) (admit_existing o e)
    (fun r => r = None -> readmissible o e).
Proof.
  unfold admit_existing.
  destruct (negb (str_eq _ _)) eqn:Ef; [by apply respects_ret; preorder|].
  destruct (is_state NrCommitted e); [authority; try done|].
  destruct (pending_publication e); [authority; try done|].
  destruct (_ && is_state NrReady e); [authority; try done|].
  destruct (isNativeReceiveTerminal (native_state e) && native_cleanupPending e) eqn:Et; [authority; try done|].
  destruct (negb (retryableFailure _)) eqn:Er; [by apply respects_ret; preorder|].
  apply respects_ret; preorder. intros _. to_prop. split; [done | | done].
  intros Ht. rewrite Ht in Et. by destruct Et.
Qed.

Lemma natives_existing o e : framed nativeReceiveOperations (admit_existing o e).
Proof. unfold admit_existing, drop_lease, removeStockReceivePreparationLease. frames. Qed.

Lemma wp_make_room fuel keep next s0 s n :
  repo_step strict s0 s ->
  wp (make_room fuel keep next) (fun r w' => repo_step strict s0 (st w') /\
    native_of keep (st w') = native_of keep s) (World s n).
Proof.
  revert next s n. induction fuel as [|fuel IH]; intros next s n Hs; simpl; [by apply wp_ret|].
  apply wp_bind, wp_get. cbn [st]. destruct (js_findIndex _ _) as [i|] eqn:Ei; [|by apply wp_ret].
  apply wp_bind, wp_put; [by intros|]. intros _. cbn [st].
  apply js_findIndex_lookup in Ei as (x & Hx & Hev). rewrite Hx. simpl.
  unfold evictable in Hev. apply andb_true_iff in Hev as [[_ Hne]%andb_true_iff Hf].
  destruct (native_of x s) as [d|] eqn:Ed; [|done]. unfold str_eq in Hne. to_prop.
  eapply wp_conseq; [apply IH; eapply step_trans; [exact Hs | by eapply step_forget; [apply Hs|..]]|].
  intros r w' [H1 H2]. split; [done|]. rewrite H2. unfold native_of. simpl. by rewrite lookup_delete_ne.
Qed.

Lemma readmitted_step o e key claim now additions o' :
  readmissible o e -> operation_ok (native_id o) e ->
  withEvidence (claimed o (Some e) key claim now) additions = Ok o' -> stock_step (Some e) (Some o').
Proof.
  intros [Hf Hc Hr] He Ho.
  assert (operation_ok (native_id o) (claimed o (Some e) key claim now)) as Hok by (by split).
  destruct (withEvidence_ok _ _ _ _ Hok Ho) as (_ & [H1 _] & H2 & _ & H3 & _).
  assert (ended e) as Hend.
  { destruct (native_state e) eqn:Es; try (by left); try (by right).
    all: exfalso; rewrite (oo_error _ _ He) in Hr; [done | unfold ended; rewrite Es; by intros []]. }
  apply step_readmitted; [by rewrite H1 | done | | done | by rewrite H2 | by rewrite H3].
  apply Hc. by destruct Hend as [-> | ->].
Qed.

Lemma admitted_ok o existing key claim now additions o' :
  withEvidence (claimed o existing key claim now) additions = Ok o' ->
  operation_ok (native_id o) o' /\ native_state o' = NrProcessing.
Proof.
  intros Ho. assert (operation_ok (native_id o) (claimed o existing key claim now)) as Hok by (by split).
  destruct (withEvidence_ok _ _ _ _ Hok Ho) as (H1 & _ & H2 & _). by split.
Qed.

Lemma wp_admit_new o existing s n :
  repo_ok s -> native_of (native_id o) s = existing ->
  (forall e, existing = Some e -> readmissible o e) ->
  wp (admit_new o existing) (fun r w' => match r with
    | Ok a => repo_ok (st w') /\ repo_evolves strict s (st w') /\ anything a | Err _ => True end) (World s n).
Proof.
  intros Hs Hx Hr. unfold admit_new.
  apply wp_bind, wp_get. cbn [st]. destruct (recovery_pending _ _); [by apply wp_ret; split_and!|].
  apply wp_bind, wp_now, wp_bind, wp_get. cbn [st bump]. destruct (negb _); [by apply wp_ret; split_and!|].
  apply wp_bind, wp_uuid. cbn [st bump].
  destruct (nativeReceiveClaimOutputPackKey _ _) as [key|]; [|by apply wp_throw].
  apply wp_bind, wp_now, wp_bind, wp_of_res. cbn [st bump].
  destruct (withEvidence _ _) as [o'|] eqn:Eo; [|done].
  destruct (admitted_ok _ _ _ _ _ _ _ Eo) as [Hok Hst].
  assert (stock_step existing (Some o')) as Hstep.
  { destruct existing as [e|]; [|by apply step_admitted].
    eapply readmitted_step; [by apply Hr | by apply (ok_natives _ Hs) | exact Eo]. }
  destruct (listed_last_spec s (native_id o) (lg_NoDup _ _ (ok_ledger _ Hs))) as (N1 & N2 & _).
  apply wp_bind. unfold retainOperation. apply wp_bind, wp_get, wp_bind. cbn [st].
  pose proof (oo_id _ _ Hok) as Ei. rewrite Ei. change (js_push _ (native_id o)) with (listed_last s (native_id o)).
  eapply wp_conseq; [apply wp_and; [apply (wp_make_room _ (native_id o) _ s s); by apply step_refl | by apply room_made]|].
  intros [[next|]|e] [s1 n1] [[[Hok1 Hev1] Hk] Hroom]; cbn [st] in *; [|by apply wp_ret, wp_ret; split_and! | done].
  apply wp_bind, wp_put; [done|]. intros _. apply wp_bind, wp_put; [done|]. intros _. apply wp_ret. cbn [st negb].
  apply wp_kept_tail; [|authority]. eapply (step_trans strict s s1); [by split|].
  apply (step_native strict s1 o' (Some next)); [done | by rewrite Ei | | ].
  - by rewrite Ei, Hk, Hx.
  - apply (retained_ledger s s1 next o o' (ok_ledger _ Hs) Ei Hroom).
Qed.

Lemma kept_admit_stock o : authority_kept (admitStockReceiveState o).
Proof.
  unfold admitStockReceiveState. apply respects_atomic; preorder. intros [s n] Hs. cbn [st] in *.
  apply wp_bind, wp_get. cbn [st]. destruct (truthy _); [by apply wp_ret; split_and!|].
  apply wp_bind, wp_get. cbn [st].
  destruct (native_of (native_id o) s) as [e|] eqn:Ee; [|by apply wp_admit_new].
  apply wp_bind. destruct (kept_existing o e (World s n) Hs) as (H1 & H2 & H3).
  destruct (natives_existing o e (World s n) I) as (_ & Hn & _). unfold wp at 1. unfold frame in Hn.
  destruct (admit_existing o e (World s n)) as [[a|err] [s1 n1]]; [|done]. cbn [fst snd st] in *.
  destruct a as [a|]; [by apply wp_ret; split_and!|].
  eapply wp_conseq; [apply wp_admit_new; [exact H1 | | by intros x [= <-]; apply H3]|].
  - unfold native_of in *. by rewrite <- Hn.
  - intros [a|err2] w2; [|done]. intros (G1 & G2 & _). split_and!; [done | by etrans | done].
Qed.

(** *** Confirmation, rejection, cleanup *)

Lemma found_ok s o (p : NativeReceiveOperation -> bool) :
  repo_ok s -> js_find p (indexed_natives s) = Some o ->
  native_of (native_id o) s = Some o /\ operation_ok (native_id o) o.
Proof.
  intros Hs [Hin _]%js_find_some. unfold indexed_natives in Hin.
  apply list_elem_of_omap in Hin as (id & _ & Hid).
  pose proof (ok_natives _ Hs id o Hid) as Hok. by rewrite (oo_id _ _ Hok).
Qed.

Lemma kept_confirm token proof ack : authority_kept (confirmStockReceivePublicationState token proof ack).
Proof.
  unfold confirmStockReceivePublicationState. apply respects_atomic; preorder. intros [s n] Hs. cbn [st] in *.
  apply wp_bind, wp_get. cbn [st]. destruct (by_publication token s) as [o|] eqn:Eo; [|by apply wp_ret; split_and!].
  destruct (found_ok s o _ Hs Eo) as [Ho Hok].
  destruct (native_publicationPlan o) as [plan|] eqn:Ep; [|by apply wp_ret; split_and!].
  destruct (is_state NrCommitted o) eqn:Ec.
  - destruct (_ && _).
    + apply wp_bind, wp_now, wp_bind, wp_of_res. cbn [st bump].
      destruct (withEvidence _ _) as [a|] eqn:Ea; [|done].
      unfold is_state in Ec. to_prop.
      eapply (withEvidence_ok (native_id o)) in Ea as (K1 & K2 & K3 & _); [|by destruct Hok; split].
      apply wp_bind, wp_put; [done|]. intros _. apply wp_kept_tail; [|authority].
      eapply step_put; [done | exact Ho | done |]. apply step_acknowledged; [done | done | by rewrite K3].
    + apply wp_bind, wp_of_res. destruct (cleanupDescriptor o); [|done]. by apply wp_ret; split_and!.
  - destruct (_ || _) eqn:Ef; [by apply wp_ret; split_and!|].
    apply wp_bind, wp_now, wp_bind, wp_of_res. cbn [st bump].
    destruct (withEvidence _ _) as [a|] eqn:Ea; [|done]. unfold is_state in *. to_prop.
    assert (native_state o = NrFinalizing) as Est by done.
    eapply (withEvidence_ok (native_id o)) in Ea as (K1 & K2 & K3 & _).
    2: { destruct Hok as [Hi He Hp]. split; simpl; [done | | done]. intros _. apply He. unfold ended. rewrite Est. by intros []. }
    apply wp_bind, wp_put; [done|]. intros _. apply wp_kept_tail; [|authority].
    eapply step_put; [done | exact Ho | done |]. by apply step_committed.
Qed.

Lemma kept_reject_execution token rejection : authority_kept (rejectStockReceiveExecutionState token rejection).
Proof.
  unfold rejectStockReceiveExecutionState. apply respects_atomic; preorder. intros [s n] Hs. cbn [st] in *.
  apply wp_bind, wp_get. cbn [st]. destruct (by_execution token s) as [o|] eqn:Eo; [|by apply wp_ret; split_and!].
  destruct (found_ok s o _ Hs Eo) as [Ho Hok].
  destruct (isNativeReceiveTerminal _); [by apply wp_ret; split_and!|].
  destruct (_ || _) eqn:Ep; [by apply wp_ret; split_and!|].
  destruct (AMap.lookup _ _) as [phase|]; [|by apply wp_ret; split_and!].
  destruct (negb (diagnostic_valid _)); [by apply wp_ret; split_and!|].
  apply wp_bind, wp_of_res. destruct (rejection_complaint _ _) as [[code|]|]; [by apply wp_ret; split_and! | | done].
  apply wp_bind, wp_now, wp_bind, wp_of_res. cbn [st bump].
  destruct (withEvidence _ _) as [f|] eqn:Ef; [|done]. unfold is_state in *. to_prop.
  eapply (withEvidence_ok (native_id o)) in Ef as (K1 & K2 & K3 & K4 & _).
  2: { destruct Hok as [Hi He Hp]. split; simpl; [done | | done]. intros Hn. exfalso. apply Hn. by right. }
  apply wp_bind, wp_put; [done|]. intros _. apply wp_kept_tail; [|authority].
  eapply step_put; [done | exact Ho | done |]. by apply step_failed.
Qed.

Lemma kept_cleanup id fingerprint : authority_kept (completeStockReceiveCleanupState id fingerprint).
Proof.
  unfold completeStockReceiveCleanupState. apply respects_atomic; preorder. intros [s n] Hs. cbn [st] in *.
  apply wp_bind, wp_get. cbn [st]. destruct (native_of id s) as [o|] eqn:Eo; [|by apply wp_ret; split_and!].
  destruct (negb _); [by apply wp_ret; split_and!|].
  destruct (negb (isNativeReceiveTerminal _)) eqn:Et; [by apply wp_ret; split_and!|]. apply negb_false_iff in Et.
  apply wp_bind, wp_now, wp_bind, wp_put; [done|]. intros _. cbn [st bump].
  pose proof (ok_natives _ Hs _ _ Eo) as Hok. apply wp_kept_tail; [|authority].
  eapply step_put; [done | exact Eo | by destruct Hok; split |]. by apply step_cleaned.
Qed.

(** *** Finalization *)

Context (Hg : gate_respects repo_ok (repo_evolves strict)).

Lemma kept_digesting {A} (r : res A) : authority_kept (digesting r).
Proof. by apply respects_digesting; preorder. Qed.

Definition running (o : NativeReceiveOperation) : Prop :=
  native_state o = NrProcessing \/ native_state o = NrReady.

(** An operation that was found in the storage. *)
Lemma kept_found {A} token (k : option NativeReceiveOperation -> DO A) Q :
  respects repo_ok (repo_evolves strict) (k None) Q ->
  (forall o, operation_ok (native_id o) o -> native_claimId o = Some token ->
     respects repo_ok (repo_evolves strict) (k (Some o)) Q) ->
  respects repo_ok (repo_evolves strict) (let! o := operationByExecutionToken token in k o) Q.
Proof.
  intros Hn Hk [s n] Hs. change (bind _ _ _) with (k (by_execution token s) (World s n)). cbn [st] in *.
  destruct (by_execution token s) as [o|] eqn:Eo; [|by apply Hn].
  destruct (found_ok s o _ Hs Eo) as [_ Hok]. apply js_find_some in Eo as [_ Hc]. to_prop. by apply Hk.
Qed.

Lemma kept_retain_prepared token p : authority_kept (retainPreparedStockReceiveState token p).
Proof.
  unfold retainPreparedStockReceiveState. destruct p as [p|]; [|by apply respects_ret; preorder].
  apply kept_found; [by apply respects_ret; preorder|]. intros o _ _.
  destruct (negb _); [by apply respects_ret; preorder|].
  eapply (respects_bind _ _ _ _ anything); preorder; [apply kept_digesting|]. intros ok _.
  destruct (negb ok); [by apply respects_ret; preorder|].
  apply respects_atomic; preorder. intros [s n] Hs. apply wp_bind, wp_get. cbn [st] in *.
  destruct (native_of (native_id o) s) as [d|] eqn:Ed; [|by apply wp_ret; split_and!].
  destruct (negb (same_claim o d NrProcessing)) eqn:Es; [by apply wp_ret; split_and!|].
  apply negb_false_iff in Es. unfold same_claim, is_state in Es. to_prop.
  apply wp_bind, wp_now, wp_bind, wp_put; [done|]. intros _. cbn [st bump].
  pose proof (ok_natives _ Hs _ _ Ed) as Hd. apply wp_kept_tail; [|authority].
  eapply step_put; [done | exact Ed | |].
  - destruct Hd as [Hi He Hp]. split; simpl; [done | | done]. intros _. apply He. unfold ended. rewrite H0. by intros [].
  - apply step_ready; [done | by left | done | by eexists].
Qed.

Lemma kept_acquire_publication token now : authority_kept (acquire_publication token now).
Proof. unfold acquire_publication, operationByExecutionToken. authority. Qed.

Lemma kept_release a b : authority_kept (release_publication a b).
Proof. unfold release_publication. authority. Qed.

Lemma kept_disposition o : authority_kept (finalizedDisposition o).
Proof. unfold finalizedDisposition. authority. Qed.

(** The refusal of a push whose old value is stale. *)
Lemma kept_conflict o : operation_ok (native_id o) o -> running o -> authority_kept (stock_conflict o).
Proof.
  intros Ho Hr. unfold stock_conflict. respect_step; [by apply respects_now; preorder|].
  apply respects_res_bind; preorder. intros rejected Ee.
  eapply (respects_bind _ _ _ _ anything); preorder.
  2: { intros b _. pose proof kept_disposition. authority. }
  apply respects_atomic; preorder. intros [s n] Hs. apply wp_bind, wp_get. cbn [st] in *.
  destruct (native_of (native_id o) s) as [d|] eqn:Ed; [|by apply wp_ret; split_and!].
  destruct (negb (same_claim o d _)) eqn:Es; [by apply wp_ret; split_and!|].
  apply negb_false_iff in Es. unfold same_claim, is_state in Es. to_prop.
  destruct (aborted_step _ _ _ _ _ _ Ho Hr Ee) as [Hok Hstep].
  apply wp_bind, wp_put; [done|]. intros _. cbn [st]. apply wp_kept_tail; [|authority].
  eapply step_put; [done | exact Ed | done |].
  assert (operation_ok (native_id o) (aborted "exact-old-ref-conflict" a o)) as Ha.
  { destruct Ho. split; simpl; [done | | done]. intros Hn. exfalso. apply Hn. by left. }
  destruct (withEvidence_ok _ _ _ _ Ha Ee) as (_ & [K1 K2] & K3 & K4 & _).
  apply step_aborted; [split; simpl in *; congruence | | done | done]. unfold running in Hr. by rewrite H0.
Qed.

(** *** The write-ahead step *)

Lemma kept_write_ahead o expected i b :
  operation_ok (native_id o) o -> native_state o = NrReady -> is_Some (native_processorResult o) ->
  expected = NrProcessing \/ expected = NrReady -> intent_ok (native_leaseToken o) i ->
  authority_kept (write_ahead o expected i b).
Proof.
  intros Ho Hr Hp He Hi. unfold write_ahead. apply respects_atomic; preorder. intros [s n] Hs.
  apply wp_bind, wp_get, wp_bind, wp_get. cbn [st] in *.
  destruct (native_of (native_id o) s) as [d|] eqn:Ed; [|by apply wp_ret; split_and!].
  destruct (negb (same_claim o d expected)) eqn:Es; [by apply wp_ret; split_and!|].
  destruct (_ || _); [by apply wp_ret; split_and!|].
  apply negb_false_iff in Es. unfold same_claim, is_state in Es. to_prop.
  apply wp_bind, wp_put; [done|]. intros _. apply wp_bind, wp_put; [done|]. intros _. cbn [st].
  apply wp_kept_tail; [|authority].
  destruct (step_intent strict s (native_leaseToken o) i Hs Hi) as [Hok Hev].
  eapply step_trans; [by split|]. eapply step_put; [done | exact Ed | done |].
  apply step_ready; [by split | by rewrite H0 | done | done].
Qed.

(** What the work of a finalizer satisfies before the swap. *)
Record work_ok (w : Work) : Prop := {
  wo_operation : operation_ok (native_id (wk_operation w)) (wk_operation w);
  wo_state : native_state (wk_operation w) = NrReady;
  wo_intent : forall i, wk_intent w = Some i -> nextRefsVersion i = expectedRefsVersion i + 1 }.

Definition work_or_answer (r : FinalizeStockReceiveResult + Work) : Prop :=
  match r with inl _ => True | inr w => work_ok w end.

Lemma kept_winner w :
  respects repo_ok (repo_evolves strict) (resume_winner w) work_or_answer.
Proof.
  unfold resume_winner. apply respects_get_bind; preorder. intros s Hs.
  destruct (negb _); [by apply respects_ret; preorder|].
  eapply (respects_bind _ _ _ _ anything); preorder; [apply kept_disposition|]. intros answer _.
  destruct answer; [by apply respects_ret; preorder|].
  destruct (native_of _ s) as [c|] eqn:Ec; [|by apply respects_ret; preorder].
  destruct (is_state NrReady c) eqn:Er; [|by destruct (native_processorResult c), (native_publicationPlan c); apply respects_ret; preorder].
  destruct (native_processorResult c); [|by apply respects_ret; preorder].
  destruct (native_publicationPlan c); [|by apply respects_ret; preorder].
  apply respects_get_bind; preorder. intros s1 Hs1. apply respects_get_bind; preorder. intros s2 _.
  apply respects_ret; preorder. unfold is_state in Er. to_prop.
  pose proof (ok_natives _ Hs _ _ Ec) as Hok. split; simpl; [by rewrite (oo_id _ _ Hok) | done |].
  intros i Hi. by destruct (ok_intents _ Hs1 _ _ Hi).
Qed.

Lemma kept_wal w b :
  operation_ok (native_id (wk_operation w)) (wk_operation w) -> running (wk_operation w) ->
  respects repo_ok (repo_evolves strict) (stock_wal w b) work_or_answer.
Proof.
  intros Ho Hr. unfold stock_wal. apply respects_get_bind; preorder. intros s _.
  destruct (acceptedWriteContext _) as [context|]; [|apply respects_throw; preorder].
  eapply (respects_bind _ _ _ _ anything); preorder; [by apply respects_now; preorder|]. intros t1 _.
  eapply (respects_bind _ _ _ _ anything); preorder; [by apply respects_now; preorder|]. intros t2 _.
  eapply (respects_bind _ _ _ _ anything); preorder; [apply kept_digesting|]. intros plan _.
  eapply (respects_bind _ _ _ _ anything); preorder; [by apply respects_now; preorder|]. intros t3 _.
  apply respects_res_bind; preorder. intros ready Er.
  pose proof (readied_ok _ (wk_result w) plan t3 Ho (running_ok _ _ Ho Hr)) as Hready.
  destruct (withEvidence_ok _ _ _ _ Hready Er) as (K1 & _ & K3 & _ & _ & K4 & _).
  pose proof (withEvidence_lease _ _ _ Er) as El. clear Er Hready.
  pose proof (oo_id _ _ K1) as Eid. rewrite <- Eid in K1.
  eapply (respects_bind _ _ _ _ anything); preorder.
  { apply kept_write_ahead; [done | by rewrite K3 | rewrite K4; by eexists | exact Hr |].
    split; [exact (eq_sym El) | reflexivity]. }
  intros [|] _; [|apply kept_winner]. apply respects_ret; preorder.
  split; simpl; [done | by rewrite K3 |]. by intros i [= <-].
Qed.

(** *** The compare-and-swap *)

Lemma step_stock_outcome s token o :
  repo_ok s -> stock_outcome_of token o ->
  repo_step strict s (set_receiveOutcomes (<[token := o]> (receiveOutcomes s)) s).
Proof.
  intros [] Ho. kept_fields. destruct ok_outcomes as (H1 & H2 & H3). split_and!; [done | done |].
  intros k x. destruct (decide (k = token)) as [->|Hne].
  - rewrite lookup_insert_eq. intros [= <-]. by right; right.
  - rewrite lookup_insert_ne by done. apply H3.
Qed.

Lemma orZ_next x d : 0 <= d <= 1 -> orZ x d <= orZ (Some (default d x + 1)) d.
Proof.
  intros Hd. destruct x as [v|]; simpl; unfold orZ;
    repeat match goal with |- context [?x =? 0] => destruct (x =? 0) eqn:? end; to_prop; lia.
Qed.

Lemma orZ_next_ne x : orZ x 0 <> orZ (Some (default 0 x + 1)) 0.
Proof.
  destruct x as [v|]; simpl; unfold orZ;
    repeat match goal with |- context [?x =? 0] => destruct (x =? 0) eqn:? end; to_prop; lia.
Qed.

(** The writes of the swap, on the versions the finalizer works from. *)
Lemma step_stock_refs s rs h v :
  repo_ok s -> NoDup (ref_name <$> rs) -> v = default 0 (refsVersion s) + 1 ->
  repo_step strict s (set_refsVersion (Some v) (set_head h (set_refs (Some rs) s))).
Proof.
  intros [] Hnd ->. pose proof (orZ_next (refsVersion s) 0 ltac:(lia)) as H1.
  pose proof (orZ_next_ne (refsVersion s)) as H2.
  split; [split; assumption|]. split; [done|]. intros _. split; try exact H1; try done.
  all: solve [apply rtc_refl | intros id; apply rtc_refl | intros rf c Hc; exists c; auto
             | split; [exact H1 | intros E; by destruct (H2 E)]].
Qed.

Lemma step_stock_packs s sq pv :
  repo_ok s -> (strict = true -> sq = default 1 (nextPackSeq s) /\ pv = default 0 (packsetVersion s)) ->
  repo_step strict s (set_packsetVersion (Some (pv + 1)) (set_nextPackSeq (Some (sq + 1)) s)).
Proof.
  intros [] Hver. split; [split; assumption|]. split; [done|]. intros Hst. destruct (Hver Hst) as [-> ->].
  pose proof (orZ_next (nextPackSeq s) 1 ltac:(lia)) as H1.
  pose proof (orZ_next (packsetVersion s) 0 ltac:(lia)) as H2.
  split; try exact H1; try exact H2; try done.
  all: solve [apply rtc_refl | intros id; apply rtc_refl | intros rf c Hc; exists c; auto].
Qed.

(** The basis is that of the storage [s]. *)
Record basis_of (b : Basis) (s : Storage) : Prop := {
  bo_refs : exists rs commands, bs_nextRefs b = applyReceiveCommands rs commands;
  bo_packs : strict = true ->
    bs_packSequence b = default 1 (nextPackSeq s) /\ bs_packsetVersion b = default 0 (packsetVersion s) }.

Lemma basis_packs b s s' : basis_of b s -> (strict = true -> pack_versions s' = pack_versions s) -> basis_of b s'.
Proof.
  intros [H1 H2] Hv. split; [done|]. intros Hst. specialize (Hv Hst). unfold pack_versions in Hv.
  injection Hv as -> ->. auto.
Qed.

Definition stepped {A} (s : Storage) (r : res A) (w : world) : Prop := repo_step strict s (st w).

(** Going on from a storage that was reached by steps. *)
Lemma wp_chain {A} s s1 (m : DO A) (Q : res A -> world -> Prop) n :
  repo_step strict s s1 -> authority_kept m -> framed nativeReceiveOperations m ->
  (forall a s2 n2, repo_step strict s s2 -> nativeReceiveOperations s2 = nativeReceiveOperations s1 ->
     Q (Ok a) (World s2 n2)) ->
  (forall e w, repo_step strict s (st w) -> Q (Err e) w) -> wp m Q (World s1 n).
Proof.
  intros [H1 H2] Hm Hf HQ HE. destruct (Hm (World s1 n) H1) as (K1 & K2 & _), (Hf (World s1 n) I) as (_ & K3 & _).
  unfold wp, frame in *. assert (repo_step strict s (st (m (World s1 n)).2)) by (split; [done | by etrans]).
  destruct (m (World s1 n)) as [[a|e] [s2 n2]]; simpl in *; auto.
Qed.

Lemma wp_versions {A} s s1 (m : DO A) (Q : res A -> world -> Prop) n :
  repo_step strict s s1 -> authority_kept m -> framed pack_versions m ->
  (forall a s2 n2, repo_step strict s s2 -> (strict = true -> pack_versions s2 = pack_versions s1) ->
     Q (Ok a) (World s2 n2)) ->
  (forall e w, repo_step strict s (st w) -> Q (Err e) w) -> wp m Q (World s1 n).
Proof.
  intros [H1 H2] Hm Hf HQ HE. destruct (Hm (World s1 n) H1) as (K1 & K2 & _), (Hf (World s1 n) I) as (_ & K3 & _).
  unfold wp, frame in *. assert (repo_step strict s (st (m (World s1 n)).2)) by (split; [done | by etrans]).
  destruct (m (World s1 n)) as [[a|e] [s2 n2]]; simpl in *; auto.
Qed.

Lemma natives_advance a b c d e : framed nativeReceiveOperations (advanceGcReceiveVersions a b c d e).
Proof. unfold advanceGcReceiveVersions. frames. Qed.

Lemma natives_record v facts t journal pin :
  framed nativeReceiveOperations (recordAcceptedWrites v facts t journal pin).
Proof.
  intros w Hw. destruct (recordAcceptedWrites_authority v facts t journal pin w Hw) as (H1 & H2 & H3).
  split_and!; [done | | done]. unfold frame, authority in *. congruence.
Qed.

Lemma wp_kept_commit o w i b f queue t s n :
  repo_ok s -> basis_of b s -> nextRefsVersion i = bs_refsVersion b + 1 ->
  operation_ok (native_id o) f -> same_push o f -> native_state f = NrFinalizing ->
  is_Some (native_publicationPlan f) ->
  wp (stock_commit o w i b f queue t) (stepped s) (World s n).
Proof.
  intros Hs Hb Hi Hf Hsame Hst Hplan. unfold stock_commit, stepped. apply wp_transaction.
  eapply wp_conseq with (Q := fun r w' => match r with Ok _ => repo_step strict s (st w') | Err _ => True end).
  2: { intros [a|e] w'; [done|]. intros _. by apply step_refl. }
  apply wp_bind, wp_get. cbn [st]. destruct (cas_holds s o i b) eqn:Ecas; cbn [negb]; [|by apply wp_ret, step_refl].
  unfold cas_holds in Ecas. destruct (native_of (native_id o) s) as [d|] eqn:Ed; [|done].
  destruct (receiveFinalizeIntents s !! _); [|done].
  apply andb_true_iff in Ecas as [[[Hclaim _]%andb_true_iff Hver]%andb_true_iff _]. apply Z.eqb_eq in Hver.
  unfold same_claim, is_state in Hclaim. to_prop.
  apply wp_bind, wp_put; [done|]. intros _. apply wp_bind, wp_put; [done|]. intros _.
  apply wp_bind, wp_put; [done|]. intros _. cbn [st].
  destruct (bo_refs _ _ Hb) as (rs & commands & Ers).
  pose proof (step_stock_refs s (bs_nextRefs b) (Some (nextHead i)) (nextRefsVersion i) Hs
    ltac:(rewrite Ers; apply applied_refs_wf) ltac:(by rewrite Hi, <- Hver)) as Hstep1.
  set (s1 := set_refsVersion _ _) in *.
  assert (forall s2 n2, repo_step strict s s2 -> nativeReceiveOperations s2 = nativeReceiveOperations s ->
    wp (let! pins := get (fun s => default 0 (snapshotPinVersion s)) in
        advanceGcReceiveVersions (bs_refsVersion b) (nextRefsVersion i)
          ((fun _ => bs_packsetVersion b + 1) <$> bs_stagedPack b) pins pins ;!
        recordAcceptedWrites (nextRefsVersion i) (native_acceptedWrites o) (intent_createdAt i) true None ;!
        put (fun s => set_receiveOutcomes
               (<[native_leaseToken o := stock_outcome o w b queue]> (receiveOutcomes s)) s) ;!
        put_operation f ;!
        drop_lease (native_leaseToken o) ;!
        (if queue : bool then markCompactionActivity t else ret tt) ;!
        armWake (t + 1) ;!
        ret true)
      (fun r w' => match r with Ok _ => repo_step strict s (st w') | Err _ => True end) (World s2 n2)) as Hrest.
  { intros s2 n2 Hstep2 Hn2. apply wp_bind, wp_get, wp_bind. cbn [st].
    eapply (wp_chain s s2); [done | apply kept_advance_versions | apply natives_advance | | done].
    intros [] s3 n3 Hstep3 Hn3. apply wp_bind.
    eapply (wp_chain s s3); [done | apply kept_record | apply natives_record | | done].
    intros kept s4 n4 Hstep4 Hn4. apply wp_bind, wp_put; [done|]. intros _. cbn [st].
    apply wp_bind, wp_put; [done|]. intros _. cbn [st].
    set (s5 := set_receiveOutcomes _ s4).
    assert (repo_step strict s s5) as Hstep5.
    { eapply step_trans; [exact Hstep4|]. apply step_stock_outcome; [apply Hstep4 | done]. }
    eapply wp_conseq; [apply (wp_kept_tail _ s)|].
    - eapply step_trans; [exact Hstep5|]. eapply (step_put strict s5 (native_id o)); [apply Hstep5 | | exact Hf |].
      + unfold native_of, s5. simpl. rewrite Hn4, Hn3, Hn2. exact Ed.
      + destruct Hsame. by apply step_finalizing; [split; congruence|..].
    - authority.
    - intros [a|e] w'; [|done]. intros (K1 & K2 & _). by split. }
  apply wp_bind. destruct (bs_stagedPack b) as [staged|] eqn:Est; [|by apply wp_ret, Hrest].
  apply wp_bind, wp_put; [done|]. intros _. apply wp_put; [done|]. intros _. cbn [st]. apply Hrest; [|done].
  eapply step_trans; [exact Hstep1|]. apply step_stock_packs; [apply Hstep1 | apply Hb].
Qed.

Lemma wp_kept_publish w b s n :
  repo_ok s -> basis_of b s -> work_ok w -> wp (stock_publish w b) (stepped s) (World s n).
Proof.
  intros Hs Hb [Hop Hst Hint]. unfold stock_publish.
  assert (forall m : DO FinalizeStockReceiveResult, authority_kept m -> forall s1 n1, repo_step strict s s1 ->
    wp m (stepped s) (World s1 n1)) as Hkept.
  { intros m Hm s1 n1 [H1 H2]. eapply wp_kept; [exact Hm | done |]. intros r w' K1 K2 _. split; [done | by etrans]. }
  assert (forall code phase, authority_kept (reject_ready (wk_operation w) code phase)) as Hrej.
  { intros. apply kept_reject. by right. }
  pose proof (step_refl strict s Hs) as Hrefl.
  destruct (wk_intent w) as [i|] eqn:Ei; [|apply Hkept; [authority | done]].
  destruct (wk_plan w) as [plan|] eqn:Ep; [|apply Hkept; [authority | done]].
  destruct (is_state NrReady (wk_operation w) && _) eqn:E1; [by apply Hkept|].
  assert (nextRefsVersion i = bs_refsVersion b + 1) as Hv.
  { unfold is_state in E1. rewrite (bool_decide_true _ Hst) in E1. simpl in E1.
    apply negb_false_iff, Z.eqb_eq in E1. by rewrite (Hint i eq_refl), E1. }
  destruct (negb (bs_refOnly b) && _); [by apply Hkept|].
  apply wp_bind, wp_get. destruct (catalog_conflict _ _ _); [by apply Hkept|].
  apply wp_bind. eapply (wp_versions s s); [done | | | | done].
  { repeat case_match; authority. }
  { unfold upsertPackCatalogRow, sql. repeat case_match; frames. }
  intros [] s1 n1 Hstep1 Hv1. apply wp_bind, wp_get, wp_bind, wp_now, wp_bind, wp_of_res. cbn [st bump].
  destruct (withEvidence _ _) as [f|e] eqn:Ef; [|done].
  assert (operation_ok (native_id (wk_operation w)) (finalizing_operation (wk_operation w) w plan b (env_now n1))) as Hfin.
  { destruct Hop as [? He ?]. split; simpl; [done | | by eexists]. intros _. apply He. unfold ended. rewrite Hst. by intros []. }
  destruct (withEvidence_ok _ _ _ _ Hfin Ef) as (K1 & K2 & K3 & _ & _ & _ & K4).
  apply wp_bind. eapply wp_conseq; [apply (wp_kept_commit _ w i b f _ _ s1)|].
  - apply Hstep1.
  - by eapply basis_packs.
  - done.
  - done.
  - exact K2.
  - done.
  - rewrite K4. by eexists.
  - intros [ok|e] [s2 n2] Hr; unfold stepped in Hr; [|by eapply step_trans]. cbn [st] in Hr.
    pose proof (step_trans strict _ _ _ Hstep1 Hr) as Hstep2.
    destruct ok; cbn [negb]; apply Hkept; try done; [authority|]. unfold publication_or. authority.
Qed.

(** From here on, where the versions of the catalog matter, nobody changes them
    while a finalizer waits for its digests. *)
Context (Hversions : strict = true -> gate_respects (fun _ => True) (frame pack_versions)).

Lemma versions_wal w b : strict = true -> framed pack_versions (stock_wal w b).
Proof.
  intros Hst. pose proof (Hversions Hst) as Hgate.
  unfold stock_wal, write_ahead, resume_winner, finalizedDisposition, digesting, put_operation, armWake. frames.
Qed.

Lemma wp_versions_of {A} s s1 (m : DO A) (P : A -> Prop) (Q : res A -> world -> Prop) n :
  repo_step strict s s1 -> respects repo_ok (repo_evolves strict) m P ->
  (strict = true -> framed pack_versions m) ->
  (forall a s2 n2, repo_step strict s s2 -> (strict = true -> pack_versions s2 = pack_versions s1) ->
     P a -> Q (Ok a) (World s2 n2)) ->
  (forall e w, repo_step strict s (st w) -> Q (Err e) w) -> wp m Q (World s1 n).
Proof.
  intros [H1 H2] Hm Hf HQ HE. destruct (Hm (World s1 n) H1) as (K1 & K2 & K3).
  assert (strict = true -> pack_versions (st (m (World s1 n)).2) = pack_versions s1) as K4.
  { intros Hst. destruct (Hf Hst (World s1 n) I) as (_ & K4 & _). symmetry. exact K4. }
  unfold wp. assert (repo_step strict s (st (m (World s1 n)).2)) by (split; [done | by etrans]).
  destruct (m (World s1 n)) as [[a|e] [s2 n2]]; simpl in *; auto.
Qed.

Lemma prepared_running o p :
  respects repo_ok (repo_evolves strict) (stock_prepared o p) (fun r => match r with
    | inr _ => running o | inl _ => True end).
Proof.
  unfold stock_prepared, running, is_state. destruct (bool_decide (_ = NrReady)) eqn:E1; to_prop.
  - destruct (native_processorResult o); [|by apply respects_ret; preorder].
    eapply (respects_bind _ _ _ _ anything); preorder; [apply kept_digesting|].
    intros [|] _; by apply respects_ret; preorder; try right.
  - destruct (bool_decide (_ = NrProcessing)) eqn:E2; to_prop; [|by apply respects_ret; preorder].
    destruct p; [|by apply respects_ret; preorder].
    eapply (respects_bind _ _ _ _ anything); preorder; [apply kept_digesting|].
    intros [|] _; by apply respects_ret; preorder; try left.
Qed.

Lemma kept_leased token p : authority_kept (finalizeStockReceiveWithPublicationLease token p).
Proof.
  unfold finalizeStockReceiveWithPublicationLease. apply kept_found; [authority|]. intros o Ho _.
  unfold publication_or. destruct (pending_publication o); [authority|].
  destruct (is_state NrCommitted o) eqn:Ec; [authority|]. destruct (negb _); [authority|].
  apply respects_get_bind; preorder. intros s0 _.
  eapply respects_bind; preorder; [apply prepared_running|]. intros [answer|r] Hrun; [authority|].
  destruct (negb _); [by apply kept_conflict|].
  apply (kept_wp strict). intros s n Hs. apply wp_bind, wp_get, wp_bind, wp_get, wp_bind. cbn [st].
  set (b := stock_basis _ o r s). set (wk := mkWork o r _ _ _).
  assert (basis_of b s) as Hb by (by split; [eexists _, _|]).
  eapply (wp_versions_of s s _ work_or_answer); [by apply step_refl | | | | done].
  - destruct (is_state NrProcessing o) eqn:Es; cbn [orb]; [by apply kept_wal|].
    destruct (_ || _); [by apply kept_wal|]. unfold is_state in Es. to_prop.
    intros [s' n'] Hs'. cbn [st] in Hs'. split_and!; [done | done|].
    split; cbn [wk wk_operation wk_intent ret fst]; [done | by destruct Hrun |].
    intros i Hi. by destruct (ok_intents _ Hs _ _ Hi).
  - intros Hst. destruct (_ || _); [by apply versions_wal | frames].
  - intros [answer|wk'] s2 n2 Hstep Hv Hw; [by apply wp_ret|].
    eapply wp_conseq; [apply wp_kept_publish; [apply Hstep | by eapply basis_packs | exact Hw]|].
    intros res w' Hr. by eapply step_trans.
Qed.

Lemma kept_finalize_stock token p : authority_kept (finalizeStockReceiveState token p).
Proof.
  unfold finalizeStockReceiveState.
  eapply (respects_bind _ _ _ _ anything); preorder; [apply kept_retain_prepared|]. intros _ _.
  eapply (respects_bind _ _ _ _ anything); preorder; [by apply respects_now; preorder|]. intros now _.
  eapply (respects_bind _ _ _ _ anything); preorder; [apply kept_acquire_publication|]. intros [| |a b] _.
  - apply kept_leased.
  - authority.
  - apply respects_try_finally; preorder; [apply kept_leased | apply kept_release].
Qed.

(** *** The alarm *)

Lemma kept_put_alarm delay : authority_kept (put_alarm delay).
Proof. unfold put_alarm. authority. Qed.

Lemma kept_resume_ready o : authority_kept (resume_ready o).
Proof.
  unfold resume_ready. pose proof kept_put_alarm as Halarm.
  eapply (respects_bind _ _ _ _ anything); preorder; [apply kept_finalize_stock|]. intros resumed _.
  destruct resumed; try (authority; fail).
  apply respects_get_bind; preorder. intros s _. destruct (native_of _ s) as [c|]; [|authority].
  eapply (respects_bind _ _ _ _ anything); preorder; [|intros _ _; authority].
  destruct (is_state NrReady c); [|authority].
  eapply (respects_bind _ _ _ _ anything); preorder; [apply kept_reject; by right | intros _ _; authority].
Qed.

Lemma kept_expire o : authority_kept (expire_processing o).
Proof.
  unfold expire_processing. pose proof kept_put_alarm as Halarm.
  eapply (respects_bind _ _ _ _ anything); preorder; [by apply respects_now; preorder|]. intros now _.
  destruct (now <? claim_end o); [authority|].
  eapply (respects_bind _ _ _ _ anything); preorder; [apply kept_reject; by left | intros _ _; authority].
Qed.

Lemma kept_resume_stock : authority_kept resumeStockReceiveAuthorityFromAlarm.
Proof.
  unfold resumeStockReceiveAuthorityFromAlarm. apply respects_get_bind; preorder. intros s _.
  destruct (next_ready s); [apply kept_resume_ready|].
  destruct (next_processing s); [apply kept_expire | authority].
Qed.
End StockAuthority.
