(* ===== verification/GcWorker.v ===== *)
(** * The worker of a reachability collection

    [git/maintenance/reachabilityGc.ts], the worker beside the repository object:
    from what the object hands out when a collection begins ([ReachabilityGc]) it
    computes the closure of the refs and pins ([RefClosure]), looks for a pack that
    already holds exactly that or has one written, and asks the object to put it in
    the place of the active packs.  Loading the indexes and sidecars from R2,
    selecting and ordering the rewritten entries, and storing, scanning and indexing
    the new pack are the parameters [load], [rewrite] and [store]; the worker trusts
    of the last only what [targetIdxMatchesClosure] has checked.  A missing sidecar
    is one of the reasons [load] gives to retry. *)
From S2P Require Import Prelude Storage Effects Text Keys Bytes StockProof PackIndex RefClosure Catalog Activity.
From S2P Require Import Lifecycle Gc ReachabilityGc Authority.

(** ** Definitions *)

Definition MAX_REACHABILITY_GC_SOURCE_PACKS : nat := 250.
Definition SUPERSEDED_PACK_CLEANUP_CHUNK_SIZE : nat := 250.

(** The loop that deletes the ids of an index from a set; [None] is an id it lacks. *)
Fixpoint delete_each (oids : list string) (remaining : gset string) : option (gset string) :=
  match oids with
  | [] => Some remaining
  | oid :: rest => if bool_decide (oid ∈ remaining) then delete_each rest (remaining ∖ {[oid]}) else None
  end.

Definition index_oids (idx : IdxView) : list string :=
  getOidHexAt idx <$> seq 0 (Z.to_nat (iv_count idx)).

Definition targetIdxMatchesClosure (idx : IdxView) (reachableOids : list string) : bool :=
  if negb (iv_count idx =? Z.of_nat (length reachableOids)) then false else
  let remaining : gset string := list_to_set reachableOids in
  if negb (size remaining =? length reachableOids)%nat then false else
  match delete_each (index_oids idx) remaining with
  | Some rest => (size rest =? 0)%nat
  | None => false
  end.

Definition chunkSupersededPackKeys (packKeys : list string) : list (list string) :=
  batches SUPERSEDED_PACK_CLEANUP_CHUNK_SIZE packKeys.

(** [Array.from(new Set(l))]. *)
Fixpoint unique (seen l : list string) : list string :=
  match l with
  | [] => []
  | x :: rest => if bool_decide (x ∈ seen) then unique seen rest else x :: unique (x :: seen) rest
  end.

Definition gc_wants (b : GcBegin) : list string :=
  unique [] ((ref_oid <$> gcb_refs b) ++ gcb_snapshotPinOids b).

(** The snapshot of the active packs in R2. *)
Inductive SnapshotLoad := SnapshotNotReady (reason : string) | SnapshotReady (packs : list PackRefSnapshotEntry).

(** The answer of [rewritePackResult]; its stream stays with the parameter. *)
Inductive PackRewriteResult := RewriteFailed (reason : string) | RewriteOk (addedDeltaBases : Z).

(** The pack once it is uploaded, scanned and indexed. *)
Record StoredPack := mkStored { sp_packBytes : Z; sp_idxBytes : Z; sp_idxView : IdxView }.

(** What the worker asks the object for, or why it stops before. *)
Inductive GcPlan :=
  | PlanCompleted (reachableObjects : nat) (sourcePacks : nat)
  | PlanRetry (reason : string)
  | PlanBlocked (reason : string)
  | PlanCommit (a : CommitGcArgs).

Definition budget_reason (r : BudgetReason) : string :=
  match r with TimeoutReason => "timeout" | MissingRefBudget => "missing-ref-budget" end.

Section Plan.
Context (now : nat -> Z) (load : list PackCatalogRow -> SnapshotLoad) (rewrite : list string -> PackRewriteResult).
Context (store : string -> list string -> option StoredPack).

(** Where the new pack goes: beside the first source, under the token of the lease. *)
Definition gc_pack_key (b : GcBegin) : option string :=
  first ← gcb_activeCatalog b !! 0%nat;
  doId ← getDoIdFromPath (packKey first);
  Some (r2PackKey (doPrefix doId) ("pack-gc-" ++ lease_token (gcb_lease b) ++ ".pack")).

Definition staged_of (key : string) (stored : StoredPack) (neededOids : list string) : StagedPack :=
  mkStaged key (sp_packBytes stored) (sp_idxBytes stored) (Z.of_nat (length neededOids)) None.

Definition commit_of (b : GcBegin) (retained : option PackRefSnapshotEntry) (staged : option StagedPack) : CommitGcArgs :=
  mkCommitGc (lease_token (gcb_lease b)) (gcb_refsVersion b) (gcb_packsetVersion b) (gcb_snapshotPinVersion b)
    (gcb_activeCatalog b) (pe_packKey <$> retained) staged None None.

(** From the answer of [beginReachabilityGc] to the arguments of the commit; an
    exception is [None]. *)
Definition gc_plan (b : GcBegin) : option GcPlan :=
  let sources := length (gcb_activeCatalog b) in
  if (sources =? 0)%nat then
    Some (if (0 <? length (gcb_refs b))%nat then PlanRetry "active-catalog-empty" else PlanCompleted 0 0)
  else if (MAX_REACHABILITY_GC_SOURCE_PACKS <? sources)%nat then Some (PlanBlocked "source-pack-limit") else
  match load (gcb_activeCatalog b) with
  | SnapshotNotReady reason => Some (PlanRetry reason)
  | SnapshotReady packs =>
    closure ← computeNeededFromPackRefs now packs (gc_wants b) [];
    match closure with
    | BudgetExceeded reason _ _ _ => Some (PlanRetry (budget_reason reason))
    | Ready neededOids _ _ =>
      let some := (0 <? length neededOids)%nat in
      let retained := if some then js_find (fun p => targetIdxMatchesClosure (pe_idx p) neededOids) packs else None in
      if bool_decide (is_Some retained) && (sources =? 1)%nat then Some (PlanCompleted (length neededOids) 1) else
      if some && negb (bool_decide (is_Some retained)) then
        match rewrite neededOids with
        | RewriteFailed reason => Some (PlanRetry reason)
        | RewriteOk addedDeltaBases =>
          if 0 <? addedDeltaBases then Some (PlanBlocked "delta-base-outside-reachability-closure") else
          key ← gc_pack_key b;
          stored ← store key neededOids;
          if negb (targetIdxMatchesClosure (sp_idxView stored) neededOids) then Some (PlanBlocked "rewritten-oid-set-mismatch")
          else Some (PlanCommit (commit_of b None (Some (staged_of key stored neededOids))))
        end
      else Some (PlanCommit (commit_of b retained None))
    end
  end.
End Plan.

(** The ids a pack of the new catalog is known to hold. *)
Definition keeps_exactly (packs : list PackRefSnapshotEntry) (wants : list string) (ids : list string) : Prop :=
  NoDup ids /\
  (forall t, t ∈ wants -> toLowerCase t ∈ ids) /\
  (forall a b, is_oid a -> bytesToHex a ∈ ids -> refers packs a b -> bytesToHex b ∈ ids) /\
  (forall oid, is_oid oid -> indexed packs oid -> bytesToHex oid ∈ ids <-> reachable packs (named wants) oid).

(** ** Lemmas *)

Lemma elem_of_unique l : forall seen x, x ∈ unique seen l <-> x ∈ l /\ x ∉ seen.
Proof.
  induction l as [|y l IH]; intros seen x; simpl.
  - rewrite elem_of_nil. tauto.
  - case_bool_decide as Hy; rewrite ?elem_of_cons, IH, ?elem_of_cons.
    + split; [tauto|]. intros [[->|?] ?]; [done | by split].
    + split.
      * intros [->|[? Hn]]; [split; [by left | done]|]. split; [by right | tauto].
      * intros [[->|Hx] Hn]; [by left|]. destruct (decide (x = y)) as [->|Hne]; [by left|]. right. split; [done | tauto].
Qed.

Lemma delete_each_spec oids : forall (remaining rest : gset string),
  delete_each oids remaining = Some rest -> NoDup oids /\ list_to_set oids ⊆ remaining /\ rest = remaining ∖ list_to_set oids.
Proof.
  induction oids as [|o oids IH]; intros remaining rest; simpl.
  - intros [= <-]. split_and!; [by apply NoDup_nil_2 | set_solver | set_solver].
  - case_bool_decide as Ho; [|done]. intros (H1 & H2 & ->)%IH. split_and!.
    + apply NoDup_cons. split; [|done]. intros Hin. assert (o ∈ remaining ∖ {[o]}) as Hx; [|set_solver].
      apply H2, elem_of_list_to_set, Hin.
    + set_solver.
    + set_solver.
Qed.

(** A set as large as a list has no repetitions to hide. *)
Lemma size_list_le (l : list string) : (size (list_to_set l : gset string) <= length l)%nat.
Proof.
  induction l as [|x l IH]; [done|]. cbn [list_to_set length]. rewrite size_union_alt, size_singleton.
  pose proof (subseteq_size (list_to_set l ∖ {[x]} : gset string) (list_to_set l) ltac:(set_solver)). lia.
Qed.

Lemma size_list_NoDup (l : list string) : size (list_to_set l : gset string) = length l -> NoDup l.
Proof.
  induction l as [|x l IH]; [intros _; by apply NoDup_nil_2|]. cbn [list_to_set length].
  intros Hs. pose proof (size_list_le l). destruct (decide (x ∈ (list_to_set l : gset string))) as [Hx|Hx].
  - replace ({[x]} ∪ list_to_set l) with (list_to_set l : gset string) in Hs by set_solver. lia.
  - rewrite size_union, size_singleton in Hs by set_solver. apply NoDup_cons.
    split; [by rewrite elem_of_list_to_set in Hx | apply IH; lia].
Qed.

(** A matching index lists the closure: the same ids, each once. *)
Lemma targetIdx_spec idx oids : targetIdxMatchesClosure idx oids = true ->
  NoDup oids /\ NoDup (index_oids idx) /\ forall s, s ∈ index_oids idx <-> s ∈ oids.
Proof.
  unfold targetIdxMatchesClosure. destruct (negb (_ =? _)); [done|].
  destruct (negb (size _ =? _)%nat) eqn:Es; [done|]. apply negb_false_iff, Nat.eqb_eq in Es.
  destruct (delete_each _ _) as [rest|] eqn:Ed; [|done]. intros Hr%Nat.eqb_eq.
  apply delete_each_spec in Ed as (H1 & H2 & ->). apply size_empty_inv in Hr.
  split_and!; [|done|].
  - by apply size_list_NoDup.
  - intros s. split; intros Hs.
    + apply (elem_of_list_to_set (C := gset string)), H2, elem_of_list_to_set, Hs.
    + destruct (decide (s ∈ index_oids idx)) as [|Hn]; [done|]. exfalso.
      assert (s ∈ (list_to_set oids ∖ list_to_set (index_oids idx) : gset string)) as Hx; [|set_solver].
      apply elem_of_difference. split; by rewrite elem_of_list_to_set.
Qed.

Lemma targetIdx_length idx oids : targetIdxMatchesClosure idx oids = true -> length oids = length (index_oids idx).
Proof.
  intros Ht. unfold index_oids. rewrite length_fmap, length_seq. unfold targetIdxMatchesClosure in Ht.
  destruct (iv_count idx =? _) eqn:E; [|done]. apply Z.eqb_eq in E. rewrite E. lia.
Qed.

Section Exact.
Context (packs : list PackRefSnapshotEntry) (names : list (list (list Z))) (Hok : snapshot_ok packs names).
Context (wants : list string).

Lemma nothing_common oid : ~ common packs [] oid.
Proof. intros [(t & Ht & _) _]. unfold HAVE_CAP in Ht. by apply elem_of_nil in Ht. Qed.

Lemma owed_reachable oid : owed packs wants [] oid <-> reachable packs (named wants) oid.
Proof. split; [by intros [? _]|]. intros H. split; [done|]. intros (a & Ha & _). by apply nothing_common in Ha. Qed.

Lemma not_dangling s : ~ dangling packs (reachable packs (common packs [])) s.
Proof. intros (a & b & (c & Hc & _) & _). by apply nothing_common in Hc. Qed.

Lemma indexed_dec oid : indexed packs oid \/ ~ indexed packs oid.
Proof. unfold indexed. destruct (find_object packs oid); [left | right; intros []]; by eauto. Qed.

Lemma closure_exact now needed ack stats :
  answer_ok now packs wants [] (Ready needed ack stats) -> keeps_exactly packs wants needed.
Proof.
  intros (_ & Hnd & Hin & Hout).
  assert (forall oid, is_oid oid -> ~ indexed packs oid ->
    forall oid', is_oid oid' -> indexed packs oid' -> bytesToHex oid <> bytesToHex oid') as Hne.
  { intros oid [_ Ho] Hn oid' [_ Ho'] Hx E. apply bytesToHex_inj in E; [by subst | done | done]. }
  split_and!; [done | | |].
  - intros t Ht. destruct (text_cases t) as [(oid & Ho & _)|[_ Hno]].
    + pose proof Ho as [Hoid E]. rewrite E. destruct (indexed_dec oid) as [Hx|Hx].
      * apply Hin; [done | done |]. apply owed_reachable. exists oid. split; [by exists t | apply rtc_refl].
      * apply Hout; [by apply Hne|]. split; [left | apply not_dangling]. exists t. split_and!; [done | done |].
        intros oid' Ho'. by rewrite (named_unique _ _ _ Ho' Ho).
    + apply Hout; [intros oid Ho _ E; by apply (Hno oid)|]. split; [left | apply not_dangling].
      exists t. split_and!; [done | done |]. intros oid Ho. by apply Hno in Ho.
  - intros a b Ha Hina Hr. assert (indexed packs a) as Hxa by (destruct Hr as (l & E & _); by exists l).
    apply Hin in Hina; [|done|done]. pose proof Hr as (l & _ & Hb). apply (refs_oids _ _ Hok) in Hb.
    destruct (indexed_dec b) as [Hx|Hx].
    + apply Hin; [done | done |]. apply owed_reachable in Hina as (c & Hc & Hrtc). apply owed_reachable.
      exists c. split; [done|]. by eapply rtc_r.
    + apply Hout; [by apply Hne|]. split; [right | apply not_dangling]. by exists a, b.
  - intros oid Ho Hx. rewrite Hin, owed_reachable by done. done.
Qed.

Lemma keeps_same needed ids : keeps_exactly packs wants needed -> NoDup ids -> (forall s, s ∈ ids <-> s ∈ needed) ->
  keeps_exactly packs wants ids.
Proof.
  intros (_ & H2 & H3 & H4) Hnd Hiff. split_and!; [done | | |].
  - intros t Ht. apply Hiff, H2, Ht.
  - intros a b Ha. rewrite !Hiff. by apply H3.
  - intros oid Ho Hx. rewrite Hiff. by apply H4.
Qed.

Lemma matching_keeps needed idx : keeps_exactly packs wants needed -> targetIdxMatchesClosure idx needed = true ->
  keeps_exactly packs wants (index_oids idx).
Proof. intros Hk Ht. destruct (targetIdx_spec _ _ Ht) as (_ & ? & ?). by eapply keeps_same. Qed.
End Exact.

(** Which pack a commit puts in the place of the others, and what it holds. *)
Inductive commit_target (load : list PackCatalogRow -> SnapshotLoad)
    (store : string -> list string -> option StoredPack) (b : GcBegin) : CommitGcArgs -> list string -> Prop :=
  | target_retained p packs :
      load (gcb_activeCatalog b) = SnapshotReady packs -> p ∈ packs ->
      keeps_exactly packs (gc_wants b) (index_oids (pe_idx p)) -> (1 < length (gcb_activeCatalog b))%nat ->
      commit_target load store b (commit_of b (Some p) None) (index_oids (pe_idx p))
  | target_rewritten packs key needed stored :
      load (gcb_activeCatalog b) = SnapshotReady packs -> gc_pack_key b = Some key -> store key needed = Some stored ->
      keeps_exactly packs (gc_wants b) (index_oids (sp_idxView stored)) ->
      length needed = length (index_oids (sp_idxView stored)) ->
      commit_target load store b (commit_of b None (Some (staged_of key stored needed))) (index_oids (sp_idxView stored))
  | target_empty packs :
      load (gcb_activeCatalog b) = SnapshotReady packs -> keeps_exactly packs (gc_wants b) [] ->
      gcb_activeCatalog b <> [] ->
      commit_target load store b (commit_of b None None) [].

Lemma gc_plan_target now load rewrite store b a :
  (forall packs, load (gcb_activeCatalog b) = SnapshotReady packs -> exists names, snapshot_ok packs names) ->
  gc_plan now load rewrite store b = Some (PlanCommit a) -> exists ids, commit_target load store b a ids.
Proof.
  intros Hload. unfold gc_plan. destruct (length _ =? 0)%nat eqn:E0; [by destruct (0 <? _)%nat|].
  destruct (_ <? length _)%nat; [done|]. destruct (load _) as [|packs] eqn:El; [done|].
  destruct (Hload packs eq_refl) as [names Hok].
  destruct (fetch_closure_exact now packs names (gc_wants b) [] Hok) as (r & -> & Hr). cbn [mbind option_bind].
  destruct r as [needed ack stats|]; [|done]. apply (closure_exact packs names Hok) in Hr.
  destruct (0 <? length needed)%nat eqn:En; cbn [andb].
  - destruct (js_find _ packs) as [p|] eqn:Ep; cbn [is_Some].
    + apply js_find_some in Ep as [Hp Ht]. rewrite bool_decide_true by done. cbn [andb negb].
      destruct (_ =? 1)%nat eqn:E1; [done|]. intros [= <-]. eexists.
      eapply target_retained; [exact El | done | by eapply matching_keeps |].
      apply Nat.eqb_neq in E0, E1. lia.
    + rewrite bool_decide_false by (by intros []). cbn [andb negb]. destruct (rewrite needed) as [|added]; [done|].
      destruct (0 <? added); [done|]. destruct (gc_pack_key b) as [key|] eqn:Ek; [|done]. cbn [mbind option_bind].
      destruct (store key needed) as [stored|] eqn:Er; [|done]. cbn [mbind option_bind].
      destruct (targetIdxMatchesClosure (sp_idxView stored) needed) eqn:Ht; cbn [negb]; [|done]. intros [= <-]. eexists.
      eapply target_rewritten; [exact El | exact Ek | exact Er | by eapply matching_keeps | by apply targetIdx_length].
  - cbn [is_Some]. rewrite bool_decide_false by (by intros []). cbn [andb]. intros [= <-]. eexists.
    eapply target_empty; [exact El | |].
    + apply Nat.ltb_ge in En. by destruct needed; [|simpl in En; lia].
    + intros Hn. by rewrite Hn in E0.
Qed.

(** *** The commit *)

Lemma upsert_has row rows : row ∈ upsert_row row rows.
Proof.
  induction rows as [|x rows IH]; simpl; [by apply list_elem_of_singleton|].
  destruct (str_eq _ _); apply elem_of_cons; [by left | by right].
Qed.

(** When one pack is left, it is the new one. *)
Lemma replaced_single keys t rows : packKey t ∉ keys -> is_active t = true ->
  length (active_rows (replaced_rows keys (Some t) rows)) = 1%nat ->
  active_rows (replaced_rows keys (Some t) rows) = [t].
Proof.
  intros Hk Ha Hl. assert (t ∈ active_rows (replaced_rows keys (Some t) rows)) as Hin.
  { unfold active_rows. apply elem_of_js_sort, elem_of_js_filter. split; [|done].
    unfold replaced_rows. apply elem_of_supersede. exists t. split; [apply upsert_has|].
    destruct (in_keys keys t) eqn:E; [|done]. by apply in_keys_true in E. }
  destruct (active_rows _) as [|x [|y l]]; [done | | done]. by apply list_elem_of_singleton in Hin as ->.
Qed.

(** What the commit rechecks and leaves alone. *)
Definition observed (s : Storage) := (refs s, refsVersion s, snapshotPinVersion s, pack_catalog s).

Section Commit.
Context `{Env} (a : CommitGcArgs) (Hop : cg_gcOperationId a = None).

Lemma fence_observed : framed observed (commit_fence a).
Proof. unfold commit_fence. frames. Qed.

Lemma wp_commit_recheck s n : wp (commit_recheck a) (fun r w => st w = s /\
  (r = Ok None -> orZ (refsVersion s) 0 = cg_refsVersion a /\ default 0 (snapshotPinVersion s) = cg_snapshotPinVersion a))
  (World s n).
Proof.
  unfold commit_recheck, listActiveStockReceivePreparationLeases, listActiveStockReceiveOperations. wp_run; cbn [st bump] in *.
  all: split; [reflexivity|]; intros ?; try discriminate. to_prop. done.
Qed.

(** The new catalog, and the refs as they were checked. *)
Definition published_catalog (t : option PackCatalogRow) (s s' : Storage) : Prop :=
  refs s' = refs s /\ orZ (refsVersion s) 0 = cg_refsVersion a /\
  default 0 (snapshotPinVersion s) = cg_snapshotPinVersion a /\
  packKey <$> active_rows (pack_catalog s') = match t with Some t => [packKey t] | None => [] end.

Lemma wp_commit_replace t s n :
  (forall row, t = Some row -> packKey row ∉ source_keys a /\ is_active row = true) ->
  orZ (refsVersion s) 0 = cg_refsVersion a -> default 0 (snapshotPinVersion s) = cg_snapshotPinVersion a ->
  wp (commit_replace a t) (fun r w => forall c, r = Ok (GcCommitted c) -> published_catalog t s (st w)) (World s n).
Proof.
  intros Ht Hv Hp. unfold commit_replace.
  apply wp_bind, wp_try_catch, wp_bind, wp_replace.
  - intros [msg|] n'; [|done]. apply wp_bind.
    eapply (wp_framed (fun _ => tt)); [unfold clearGcAttemptState; frames|]. intros [[]|e] w' _; [|done].
    apply wp_ret. cbn [negb]. by apply wp_ret.
  - intros n' _. apply wp_ret. cbn [negb]. apply wp_bind, wp_get. cbn [st pack_catalog].
    set (s1 := set_pack_catalog _ s). change (pack_catalog s1) with (replaced_rows (source_keys a) t (pack_catalog s)).
    destruct (negb _) eqn:El; [by apply wp_throw|]. apply negb_false_iff, Nat.eqb_eq in El.
    assert (packKey <$> active_rows (pack_catalog s1) = match t with Some t => [packKey t] | None => [] end) as Hact.
    { change (pack_catalog s1) with (replaced_rows (source_keys a) t (pack_catalog s)). destruct t as [row|].
      - destruct (Ht row eq_refl) as [H1 H2]. by rewrite replaced_single.
      - by destruct (active_rows _). }
    assert (forall (r : res CommitGcResult) w, observed s1 = observed (st w) ->
      forall c, r = Ok (GcCommitted c) -> published_catalog t s (st w)) as Hend.
    { intros r w E c _. unfold observed in E. injection E as E1 E2 E3 E4. unfold published_catalog.
      rewrite <- E1, <- E4. by split_and!. }
    eapply (wp_framed observed); [|exact Hend].
    unfold bumpPacksetVersion, clearCompactionSchedule, retainGcCommitReceipt, clearGcAttemptState. rewrite Hop. frames.
Qed.

(** Its target row, for arguments of the worker. *)
Definition new_row (t : option PackCatalogRow) : Prop :=
  match cg_stagedPack a, retained_source a with
  | Some staged, _ => exists row, t = Some row /\ packKey row = staged_packKey staged
  | None, r => t = r
  end.

Lemma wp_commit s n :
  (cg_stagedPack a = None -> source_keys a <> []) ->
  (forall staged, cg_stagedPack a = Some staged -> staged_packKey staged ∉ source_keys a) ->
  (forall row, retained_source a = Some row -> packKey row ∉ source_keys a /\ is_active row = true) ->
  catalog_already_committed a (pack_catalog s) = false ->
  wp (commitReachabilityGcState a) (fun r w => forall c, r = Ok (GcCommitted c) ->
    exists t, new_row t /\ published_catalog t s (st w)) (World s n).
Proof.
  intros Hsrc Hstaged Hret Hal. unfold commitReachabilityGcState.
  destruct (_ && _); [by apply wp_ret|]. apply wp_bind, wp_get. cbn [st]. rewrite Hal.
  apply wp_bind. eapply (wp_framed observed); [apply fence_observed|]. intros [[reason|]|e] [s1 n1] E1; cbn [st] in E1;
    [by apply wp_ret | | done].
  apply wp_bind. eapply wp_conseq; [apply wp_commit_recheck|]. intros [[reason|]|e] [s2 n2] [E2 Hrc]; cbn [st] in E2; [| |done].
  { apply wp_bind. eapply (wp_framed (fun _ => tt)); [unfold clearGcAttemptState; frames|].
    intros [[]|e] w' _; [by apply wp_ret | done]. }
  subst s2. destruct (Hrc eq_refl) as [Hv Hp]. unfold observed in E1. injection E1 as E1 E1v E1p E1c.
  assert (forall t (w : world), published_catalog t s1 (st w) -> published_catalog t s (st w)) as Hback.
  { intros t w (H1 & H2 & H3 & H4). unfold published_catalog. rewrite E1, E1v, E1p. by split_and!. }
  unfold new_row. destruct (cg_stagedPack a) as [staged|].
  - apply wp_bind, wp_now. eapply wp_conseq; [apply wp_commit_replace; [|done|done]|].
    + intros row [= <-]. split; [by apply Hstaged | done].
    + intros r w Hr c Hc. refine (ex_intro _ _ (conj _ (Hback _ _ (Hr c Hc)))). by eexists.
  - destruct (length (source_keys a) =? 0)%nat eqn:El.
    { apply Nat.eqb_eq, nil_length_inv in El. by destruct (Hsrc eq_refl). }
    eapply wp_conseq; [apply wp_commit_replace; [|done|done]|]; [done|].
    intros r w Hr c Hc. eexists. split; [done|]. apply Hback. by eapply Hr.
Qed.
End Commit.

(** What the object hands out when a collection begins. *)
Lemma wp_begin_gc `{Env} s n :
  wp beginReachabilityGcState (fun r w => forall b, r = Ok (GcBegan b) ->
    gcb_refs b = default [] (refs s) /\ gcb_refsVersion b = default 0 (refsVersion s) /\
    gcb_activeCatalog b = active_rows (pack_catalog s)) (World s n).
Proof.
  unfold beginReachabilityGcState. apply wp_bind, wp_now, wp_bind, wp_uuid, wp_bind. cbn [st bump].
  eapply wp_conseq with (Q := fun r w => pack_catalog (st w) = pack_catalog s /\ forall rs rv pins pv,
    r = Ok (inr (rs, rv, pins, pv)) -> rs = default [] (refs s) /\ rv = default 0 (refsVersion s)).
  - unfold acquire_gc, listActiveStockReceivePreparationLeases, listActiveStockReceiveOperations.
    wp_run; cbn [st bump] in *; (split; [reflexivity|]); intros; simplify_eq; done.
  - intros [[reason|[[[rs rv] pins] pv]]|e] [s1 n1] [E1 H1]; cbn [st] in *; [by apply wp_ret | | done].
    destruct (H1 _ _ _ _ eq_refl) as [-> ->]. apply wp_bind.
    eapply (wp_framed pack_catalog); [unfold ensureRepoMetadataDefaults; frames|]. intros [[]|e] [s2 n2] E2; [|done].
    apply wp_bind, wp_get, wp_bind, wp_get, wp_ret. cbn [st] in *. intros b [= <-]. cbn. split_and!; [done | done |]. congruence.
Qed.

Lemma orZ_default x : orZ x 0 = default 0 x.
Proof. unfold orZ. destruct x as [v|]; [|done]. simpl. destruct (v =? 0) eqn:E; [by apply Z.eqb_eq in E|done]. Qed.

(** The arguments of a plan are fit for the commit. *)
Lemma commit_target_ok s0 load store b a ids :
  rows_wf (pack_catalog s0) -> gcb_activeCatalog b = active_rows (pack_catalog s0) ->
  (forall packs, load (gcb_activeCatalog b) = SnapshotReady packs ->
    forall p, p ∈ packs -> pe_packKey p <> ""%string /\ pe_packKey p ∈ packKey <$> gcb_activeCatalog b) ->
  (forall staged, cg_stagedPack a = Some staged -> staged_packKey staged ∉ packKey <$> gcb_activeCatalog b) ->
  commit_target load store b a ids ->
  (cg_stagedPack a = None -> source_keys a <> []) /\
  (forall staged, cg_stagedPack a = Some staged -> staged_packKey staged ∉ source_keys a) /\
  (forall row, retained_source a = Some row -> packKey row ∉ source_keys a /\ is_active row = true) /\
  (forall t, new_row a t -> match t with Some t => [packKey t] | None => [] end =
    match expected_target_key a with Some key => [key] | None => [] end).
Proof.
  intros [Hnd _] Ec Hload Hfresh Ht.
  assert (NoDup (packKey <$> gcb_activeCatalog b)) as Hnd'.
  { rewrite Ec. unfold active_rows. rewrite js_sort_perm. by apply NoDup_fmap_js_filter. }
  assert (forall row, row ∈ gcb_activeCatalog b -> is_active row = true) as Hact.
  { intros row. rewrite Ec. unfold active_rows. rewrite elem_of_js_sort, elem_of_js_filter. by intros [_ ?]. }
  assert (cg_sourcePacks a = gcb_activeCatalog b) as Es by (by destruct Ht).
  assert (forall k, k ∈ source_keys a -> k ∈ packKey <$> gcb_activeCatalog b /\ Some k <> cg_retainedPackKey a) as Hsk.
  { intros k. unfold source_keys. rewrite elem_of_js_filter, Es. intros [Hin Hk]. split; [done|].
    apply negb_true_iff in Hk. unfold ostr_eq in Hk. by apply bool_decide_eq_false in Hk. }
  assert (forall row, retained_source a = Some row -> row ∈ gcb_activeCatalog b /\ cg_retainedPackKey a = Some (packKey row)) as Hret.
  { unfold retained_source. rewrite Es. destruct (cg_retainedPackKey a) as [key|]; [|done].
    destruct (str_eq key ""); [done|]. intros row [Hin Hk]%js_find_some. split; [done|]. unfold str_eq in Hk.
    apply bool_decide_eq_true in Hk. by rewrite Hk. }
  split_and!.
  - intros Hn Hempty. assert (forall k, k ∈ packKey <$> gcb_activeCatalog b -> cg_retainedPackKey a = Some k) as Hall.
    { intros k Hk. destruct (decide (cg_retainedPackKey a = Some k)) as [|Hne]; [done|]. exfalso.
      assert (k ∈ source_keys a) as Hin; [|by rewrite Hempty in Hin; apply elem_of_nil in Hin].
      unfold source_keys. rewrite elem_of_js_filter, Es. split; [done|]. apply negb_true_iff. unfold ostr_eq.
      by apply bool_decide_eq_false. }
    destruct Ht as [p packs Hl Hp Hk Hlen| |packs Hl Hk Hne]; [|done|].
    + destruct (gcb_activeCatalog b) as [|x [|y l]]; [simpl in Hlen; lia.. |].
      pose proof (Hall (packKey x) ltac:(csimpl; set_solver)) as E1. pose proof (Hall (packKey y) ltac:(csimpl; set_solver)) as E2.
      csimpl in *. apply NoDup_cons in Hnd' as [Hnot _]. apply Hnot, elem_of_cons. left. congruence.
    + destruct (gcb_activeCatalog b) as [|x l]; [done|]. by specialize (Hall (packKey x) ltac:(csimpl; set_solver)).
  - intros staged Hst [Hin _]%Hsk. by eapply Hfresh.
  - intros row [Hin E]%Hret. split; [|by apply Hact]. intros [_ Hne]%Hsk. congruence.
  - intros t. unfold new_row, expected_target_key. destruct (cg_stagedPack a) as [staged|].
    + by intros (row & -> & ->).
    + intros ->. destruct (retained_source a) as [row|] eqn:Er; [by destruct (Hret _ eq_refl) as [_ ->]|].
      destruct Ht as [p packs Hl Hp Hk Hlen| |packs Hl Hk]; [|done|done]. exfalso. destruct (Hload _ Hl p Hp) as [Hne Hin].
      unfold retained_source, str_eq in Er. cbn in Er. rewrite (bool_decide_false (pe_packKey p = ""%string)) in Er by done.
      apply list_elem_of_fmap in Hin as (row & E & Hin). apply (js_find_none _ _ _ Er) in Hin. cbn beta in Hin.
      by rewrite bool_decide_true in Hin.
Qed.

(** *** A small run *)

Definition toy_refs : list Ref := [mkRef "refs/heads/main" (bytesToHex (replicate 20 2))].

Definition toy_source : Storage :=
  set_pack_catalog [demo_row demo_key 1] (set_refsVersion (Some 1) (set_refs (Some toy_refs) empty_storage)).

Definition toy_load (rows : list PackCatalogRow) : SnapshotLoad := SnapshotReady [demo_entry].

(** The rewritten pack has the tree and the blob. *)
Definition toy_rewrite (oids : list string) : PackRewriteResult := RewriteOk 0.

Definition toy_store (key : string) (oids : list string) : option StoredPack :=
  Some (mkStored 50 60 (mkIdxView key 2 [] (replicate 20 1 ++ replicate 20 2) [] [] [] [] 50 [] [])).

Definition toy_begin : res BeginReachabilityGcResult * world := beginReachabilityGcState (H := toy_env) (World toy_source 0).

Definition toy_answer : GcBegin :=
  match toy_begin.1 with Ok (GcBegan b) => b | _ => mkGcBegin (mkLease "" 0 0 None) [] [] 0 0 0 [] end.

Definition toy_plan : option GcPlan := gc_plan (fun _ => 0) toy_load toy_rewrite toy_store toy_answer.

Definition toy_args : CommitGcArgs :=
  match toy_plan with Some (PlanCommit a) => a | _ => mkCommitGc "" 0 0 0 [] None None None None end.

(** The key of the new pack. *)
Definition toy_target : string := default ""%string (staged_packKey <$> cg_stagedPack toy_args).

Definition toy_recorded : world :=
  (recordReachabilityGcPendingState (H := toy_env) (cg_token toy_args) toy_target toy_begin.2).2.

(** ** Properties *)

(** C23: a collection loses no reachable object.  Take the answer of
    [beginReachabilityGc], the plan the worker makes of it, and a commit of that
    plan that the object accepts at any later time, whatever other requests did in
    between.  At that moment the refs are those the plan was made for; the active
    catalog is the one pack the plan names (or empty); and what that pack holds is
    exact: each id once, every ref and snapshot pin, with an object everything it
    refers to, and of the objects of the old packs only the reachable ones.  The
    pack written to R2 is taken as reported; its index is what the worker checks. *)
Theorem collection_keeps_reachable `{Env} (now : nat -> Z) (load : list PackCatalogRow -> SnapshotLoad)
    (rewrite : list string -> PackRewriteResult) (store : string -> list string -> option StoredPack) (w0 wB w1 w2 : world) (b : GcBegin) (a : CommitGcArgs) (c : GcCommit) :
  repo_ok (st w0) ->
  beginReachabilityGcState w0 = (Ok (GcBegan b), wB) ->
  (forall packs, load (gcb_activeCatalog b) = SnapshotReady packs -> (exists names, snapshot_ok packs names) /\
    forall p, p ∈ packs -> pe_packKey p <> ""%string /\ pe_packKey p ∈ packKey <$> gcb_activeCatalog b) ->
  gc_plan now load rewrite store b = Some (PlanCommit a) ->
  (forall staged, cg_stagedPack a = Some staged -> staged_packKey staged ∉ packKey <$> gcb_activeCatalog b) ->
  repo_evolves true (st wB) (st w1) ->
  catalog_already_committed a (pack_catalog (st w1)) = false ->
  commitReachabilityGcState a w1 = (Ok (GcCommitted c), w2) ->
  exists packs ids, load (gcb_activeCatalog b) = SnapshotReady packs /\ commit_target load store b a ids /\
    refs (st w2) = refs (st w1) /\ default [] (refs (st w2)) = gcb_refs b /\
    (forall r, r ∈ default [] (refs (st w2)) -> toLowerCase (ref_oid r) ∈ ids) /\
    keeps_exactly packs (gc_wants b) ids /\
    packKey <$> active_rows (pack_catalog (st w2)) =
      match expected_target_key a with Some key => [key] | None => [] end.
Proof.
  intros Hok Hb Hload Hplan Hfresh Hev Hal Hc.
  destruct w0 as [s0 n0]. pose proof (wp_begin_gc s0 n0) as Hbegin. unfold wp in Hbegin. rewrite Hb in Hbegin.
  destruct (Hbegin b eq_refl) as (Er & Ev & Ec).
  destruct (kept_begin_gc true (World s0 n0) Hok) as (_ & [_ Hk0] & _). rewrite Hb in Hk0. cbn [st fst snd] in Hk0.
  destruct (kp_refs _ _ (Hk0 eq_refl)) as [V0 R0]. destruct Hev as [_ Hk1]. destruct (kp_refs _ _ (Hk1 eq_refl)) as [V1 R1].
  destruct (gc_plan_target now load rewrite store b a) as [ids Ht]; [intros; by apply Hload | done |].
  assert (cg_refsVersion a = gcb_refsVersion b /\ cg_gcOperationId a = None) as [Hav Hop] by (by destruct Ht).
  assert (exists packs, load (gcb_activeCatalog b) = SnapshotReady packs /\ keeps_exactly packs (gc_wants b) ids)
    as (packs & Hl & Hkeep) by (by destruct Ht; eexists).
  destruct (commit_target_ok s0 load store b a ids) as (S1 & S2 & S3 & S4);
    [apply Hok | done | intros packs' Hp; by apply Hload | done | done |].
  destruct w1 as [s1 n1]. pose proof (wp_commit a Hop s1 n1 S1 S2 S3 Hal) as Hw. unfold wp in Hw. rewrite Hc in Hw.
  destruct (Hw c eq_refl) as (t & Hnew & Hr & Hv & _ & Hact). cbn [st fst snd] in *.
  assert (default [] (refs s1) = gcb_refs b) as Hrefs.
  { rewrite Er. rewrite Hav, Ev, <- orZ_default in Hv. rewrite <- R1, <- R0; [done | lia | lia]. }
  exists packs, ids. rewrite Hr. split_and!; [done | done | done | done | | done |].
  - intros r Hin. destruct Hkeep as (_ & Hw2 & _). apply Hw2. unfold gc_wants. apply elem_of_unique.
    split; [|by intros ?%elem_of_nil]. apply elem_of_app. left. apply list_elem_of_fmap. exists r. by rewrite <- Hrefs.
  - rewrite Hact. by apply S4.
Qed.

Lemma toy_source_ok : repo_ok toy_source.
Proof.
  assert (repo_step true empty_storage (set_refsVersion (Some 1) (set_refs (Some toy_refs) empty_storage))) as [H _].
  { apply step_refs; [apply empty_ok | apply NoDup_singleton | done]. }
  apply (step_rows true _ (fun _ => [demo_row demo_key 1])) in H as [H _]; [exact H|].
  intros _. split; [apply NoDup_singleton|]. intros row ->%list_elem_of_singleton. reflexivity.
Qed.

Lemma toy_load_ok b packs : (packKey <$> gcb_activeCatalog b) = [demo_key] ->
  toy_load (gcb_activeCatalog b) = SnapshotReady packs -> (exists names, snapshot_ok packs names) /\
  forall p, p ∈ packs -> pe_packKey p <> ""%string /\ pe_packKey p ∈ packKey <$> gcb_activeCatalog b.
Proof.
  intros E [= <-]. split; [exists demo_names; apply demo_snapshot|]. intros p ->%list_elem_of_singleton.
  split; [discriminate|]. rewrite E. by apply list_elem_of_singleton.
Qed.

Lemma collection_keeps_reachable_witness :
  exists b c w2, toy_begin.1 = Ok (GcBegan b) /\
    commitReachabilityGcState (H := toy_env) toy_args toy_recorded = (Ok (GcCommitted c), w2) /\
    packKey <$> active_rows (pack_catalog (st w2)) = [toy_target] /\
    exists packs ids, default [] (refs (st w2)) = toy_refs /\ keeps_exactly packs (gc_wants b) ids /\
      toLowerCase (bytesToHex (replicate 20 2)) ∈ ids.
Proof.
  assert (match (commitReachabilityGcState (H := toy_env) toy_args toy_recorded).1 with
    | Ok (GcCommitted _) => true | _ => false end = true) as E1 by (vm_compute; reflexivity).
  destruct (commitReachabilityGcState (H := toy_env) toy_args toy_recorded) as [[[c|]|] w2] eqn:Ec; try discriminate E1.
  assert (toy_begin.1 = Ok (GcBegan toy_answer)) as Eb by (vm_compute; reflexivity).
  assert (packKey <$> gcb_activeCatalog toy_answer = [demo_key]) as Ek by (vm_compute; reflexivity).
  assert (gcb_refs toy_answer = toy_refs) as Er by (vm_compute; reflexivity).
  assert (gc_plan (fun _ => 0) toy_load toy_rewrite toy_store toy_answer = Some (PlanCommit toy_args)) as Ep by (vm_compute; reflexivity).
  assert (staged_packKey <$> cg_stagedPack toy_args = Some toy_target) as Es by (vm_compute; reflexivity).
  assert (expected_target_key toy_args = Some toy_target) as Et by (vm_compute; reflexivity).
  assert (bool_decide (toy_target = demo_key) = false) as En by (vm_compute; reflexivity).
  assert (beginReachabilityGcState (H := toy_env) (World toy_source 0) = (Ok (GcBegan toy_answer), toy_begin.2)) as Hb.
  { rewrite <- Eb. unfold toy_begin. apply surjective_pairing. }
  destruct (kept_begin_gc (H := toy_env) true (World toy_source 0) toy_source_ok) as (Hok & _).
  destruct (kept_record_pending (H := toy_env) true (cg_token toy_args) toy_target toy_begin.2 Hok) as (_ & Hev & _).
  destruct (collection_keeps_reachable (H := toy_env) (fun _ => 0) toy_load toy_rewrite toy_store (World toy_source 0) toy_begin.2
    toy_recorded w2 toy_answer toy_args c toy_source_ok Hb) as (packs & ids & _ & _ & _ & H4 & H5 & H6 & H7).
  - intros packs. by apply toy_load_ok.
  - exact Ep.
  - intros staged E. rewrite E in Es. apply (inj Some) in Es. rewrite Es, Ek. intros X%list_elem_of_singleton. exact (bool_decide_eq_false_1 _ En X).
  - exact Hev.
  - vm_compute. reflexivity.
  - exact Ec.
  - exists toy_answer, c, w2. split; [exact Eb|]. split; [reflexivity|]. split; [by rewrite H7, Et|]. exists packs, ids.
    split; [by rewrite H4|]. split; [exact H6|]. apply (H5 (mkRef "refs/heads/main" (bytesToHex (replicate 20 2)))).
    rewrite H4, Er. by apply list_elem_of_singleton.
Defined.
