(* ===== verification/RepoSystem.v ===== *)
(** * The repository object as a system

    [repoDO.ts] and [repoDO/access.ts]: the requests the object serves, how an
    access is noted, and the histories of a repository - requests served one
    after another, each under a platform of its own, where further requests are
    served at every point at which a handler leaves the object.  The theorems of
    this file hold along every history. *)
From S2P Require Import Prelude Storage Effects Text RefUpdate Catalog Activity Scheduler.
From S2P Require Import Lifecycle Gc ReachabilityGc GcOperations GcRefinement Leases.
From S2P Require Import AcceptedWrites Receive Compaction NativeExecution NativeTypes StockReceive.
From S2P Require Import StockProof AuthorityPlan StockSafety StockMachine Authority StockAuthority.

(** ** Definitions *)

(** *** Access: [repoDO/access.ts] *)

Definition shouldPreserveDueAlarm (alarm_ : option Z) (now : Z) : bool :=
  match alarm_ with Some a => a <=? now | None => false end.

Section Access.
Context `{Env}.

(** [lastAccessMem] is the field of the object that lives as long as the
    isolate; the new value is returned. *)
Definition touchAndMaybeSchedule (lastAccessMem : option Z) : DO (option Z) :=
  let! now := Date_now in
  let! deleting := get repositoryDeleting in
  if truthy deleting then put (set_alarm None) ;! ret lastAccessMem else
  let! mem := try_catch
    (if match lastAccessMem with Some t => (t =? 0) || (60000 <=? now - t) | None => true end
     then put (set_lastAccessMs (Some now)) ;! ret (Some now) else ret lastAccessMem)
    (fun _ => ret lastAccessMem) in
  let! planned := get alarm in
  if shouldPreserveDueAlarm planned now then ret mem else
  ensureScheduled now ;! ret mem.

Definition ensureAccessAndAlarm (lastAccessMem : option Z) : DO (option Z) :=
  try_catch (touchAndMaybeSchedule lastAccessMem) (fun _ => ret lastAccessMem).
End Access.

(** *** Requests: the methods of [RepoDurableObject] and the stages of [alarm] *)

Inductive request :=
  | ListRefs | GetHead
  | SetRefs (rs : list Ref)
  | SetHead (h : Head)
  | BeginReceive (concurrency : option nat)
  | BeginReceiveRecovery (operationId : string)
  | CompleteReceiveRecovery (operationId token : string)
  | AbortReceive (token : string)
  | PromotePreparation (token : string)
  | FinalizeReceive (a : FinalizeArgs)
  | ReconcileReceive (token : string) (commands : list ReceiveCommand) (key : option string)
      (receipt : option IngestionReceipt) (inspect : nat -> option RetentionReason)
  | Reading (r : read_request)
  | BeginMaintenance (operation : LeaseOperation)
  | RenewMaintenance (token : string)
  | FinishMaintenance (token : string)
  | BeginSnapshot (prefix : string)
  | RenewSnapshot (token : string)
  | FinishSnapshot (token : string)
  | BeginDeletion
  | Journal (r : journal_request)
  | EnsureGeneration
  | CompleteGeneration (generation : Z)
  | Collection (r : gc_request)
  | RecordGcPending (token packKey : string)
  | RemoveSuperseded (packKeys : list string)
  | RequestCompaction | ClearCompaction | BeginCompaction
  | AbortCompaction (token : string)
  | CommitCompaction (token : string) (sources : list PackCatalogRow) (tier_ packsetVersion_ : Z)
      (staged : StagedPack)
  | RemovePack (key : string)
  | BeginNative (lane : NativeExecutionLane) (operationId claimId propsDigest grant : string)
  | FinishNative (i : NativeExecutionIdentity) (outcome : FinishOutcome)
  | NoteNativeIO (i : NativeExecutionIdentity) (wrote : bool) (bytes : Z)
  | StopNative (i : NativeExecutionIdentity)
  | AdmitStock (operation : NativeReceiveOperation)
  | FinalizeStock (executionToken : string) (prepared : option NativeReceivePrepared)
  | ConfirmStock (publicationToken : string) (proof : NativeReceiveAuthorityPublication)
      (authorizeClientAck : bool)
  | RecoverStock (operationId : string)
  | RejectStock (executionToken : string) (rejection : ExecutionRejection + string)
  | CleanupStock (operationId fingerprint : string)
  | AlarmStockDispatch
  | AlarmStock
  | AlarmReceive (inspect : nat -> option RetentionReason)
  | AlarmLeases (now : Z)
  | AlarmCompaction
  | AlarmIdle
  | ClearStorage
  (** A method that notes the access before it serves the request. *)
  | Accessed (lastAccessMem : option Z) (r : request).

(** The stage of the alarm that hands an unfinished publication to a worker. *)
Definition dispatchStockRecovery `{Env} : DO bool :=
  let! operationId := stockReceiveWorkerRecoveryOperationId in
  match operationId with
  | Some _ => try_catch queue_send (fun _ => put_alarm 5000) ;! ret true
  | None => ret false
  end.

Fixpoint serve `{Env} (r : request) : DO unit :=
  match r with
  | ListRefs => getRefs ;! ret tt
  | GetHead => resolveHead ;! ret tt
  | SetRefs rs => setRefs rs ;! ret tt
  | SetHead h => setHead h ;! ret tt
  | BeginReceive concurrency => beginReceiveLease concurrency ;! ret tt
  | BeginReceiveRecovery operationId => beginStockReceiveRecoveryLease operationId ;! ret tt
  | CompleteReceiveRecovery operationId token =>
    completeStockReceiveRecoveryLease operationId token ;! ret tt
  | AbortReceive token => abortReceiveLease token ;! ret tt
  | PromotePreparation token => promoteStockPreparationLease token ;! ret tt
  | FinalizeReceive a => finalizeReceiveState a ;! ret tt
  | ReconcileReceive token commands key receipt inspect =>
    reconcileReceiveState token commands key receipt inspect ;! ret tt
  | Reading r => serve_read r
  | BeginMaintenance operation => beginRepositoryMaintenanceState operation ;! ret tt
  | RenewMaintenance token => renewRepositoryMaintenanceState token ;! ret tt
  | FinishMaintenance token => finishRepositoryMaintenanceState token ;! ret tt
  | BeginSnapshot prefix => beginSnapshotMaterializationState prefix ;! ret tt
  | RenewSnapshot token => renewSnapshotMaterializationState token ;! ret tt
  | FinishSnapshot token => finishSnapshotMaterializationState token ;! ret tt
  | BeginDeletion => beginRepositoryDeletionState ;! ret tt
  | Journal r => serve_journal r
  | EnsureGeneration => ensureGenerationPublicationPendingState ;! ret tt
  | CompleteGeneration g => completeGenerationPublicationState g ;! ret tt
  | Collection r => serve_gc r
  | RecordGcPending token key => recordReachabilityGcPendingState token key ;! ret tt
  | RemoveSuperseded keys => removeSupersededGcPacksState keys ;! ret tt
  | RequestCompaction => requestCompactionState ;! ret tt
  | ClearCompaction => clearCompactionRequestState ;! ret tt
  | BeginCompaction => beginCompactionState ;! ret tt
  | AbortCompaction token => abortCompactionLease token ;! ret tt
  | CommitCompaction token sources t pv staged => commitCompactionState token sources t pv staged ;! ret tt
  | RemovePack key => removePack key ;! ret tt
  | BeginNative lane operationId claimId props grant =>
    beginNativeExecution lane operationId claimId props grant ;! ret tt
  | FinishNative i outcome => finishNativeExecution i outcome ;! ret tt
  | NoteNativeIO i wrote bytes => noteNativeBridgeIO i wrote bytes
  | StopNative i => acknowledgeNativeStop i
  | AdmitStock operation => admitStockReceiveState operation ;! ret tt
  | FinalizeStock token prepared => finalizeStockReceiveState token prepared ;! ret tt
  | ConfirmStock token proof ack => confirmStockReceivePublicationState token proof ack ;! ret tt
  | RecoverStock operationId => recoverStockReceivePublicationState operationId ;! ret tt
  | RejectStock token rejection => rejectStockReceiveExecutionState token rejection ;! ret tt
  | CleanupStock operationId fingerprint =>
    completeStockReceiveCleanupState operationId fingerprint ;! ret tt
  | AlarmStockDispatch => dispatchStockRecovery ;! ret tt
  | AlarmStock => resumeStockReceiveAuthorityFromAlarm ;! ret tt
  | AlarmReceive inspect => resumeReceiveFinalizeFromAlarm inspect ;! ret tt
  | AlarmLeases now => clearExpiredLeases now ;! ret tt
  | AlarmCompaction => rearmCompactionQueueFromAlarm ;! ret tt
  | AlarmIdle => handleIdleAndMaintenance
  | ClearStorage => clearRepositoryStorage ;! ret tt
  | Accessed mem r => ensureAccessAndAlarm mem ;! serve r
  end.

(** What callers respect: the names of a new ref list are distinct, and a direct
    commit of a collection names no registered operation.  Only a history that
    may reset the storage has the last two requests. *)
Fixpoint request_ok (resets : bool) (r : request) : Prop :=
  match r with
  | SetRefs rs => NoDup (ref_name <$> rs)
  | Collection r => gc_request_ok r
  | AlarmIdle | ClearStorage => resets = true
  | Accessed _ r => request_ok resets r
  | _ => True
  end.

(** The requests that finalize a stock receive. *)
Fixpoint finalizes (r : request) : bool :=
  match r with
  | FinalizeStock _ _ | AlarmStock => true
  | Accessed _ r => finalizes r
  | _ => false
  end.

(** [history resets s s']: requests served from [s] on end in [s'].  Each runs
    under its own clock, oracles and faults - it may fail or be cut short at any
    write - and at each point where it leaves the object a history of its own
    runs.  A history that does not reset the storage has no change of the pack
    versions while a stock finalization waits for its digests: it writes the
    successors of the versions it read before. *)
Inductive history (resets : bool) : Storage -> Storage -> Prop :=
  | history_start s : history resets s s
  | history_serve s w (E : Env) r :
      history resets s (st w) -> request_ok resets r ->
      (forall n s1, history resets s1 (env_interleave n s1)) ->
      (resets = false -> finalizes r = true ->
       forall n s1, pack_versions (env_interleave n s1) = pack_versions s1) ->
      history resets s (st (serve r w).2).

(** The handler answers [a] and writes nothing. *)
Definition refuses {A} (m : DO A) (a : A) (w : world) : Prop :=
  (m w).1 = Ok a /\ st (m w).2 = st w.

(** What a repository that is being deleted answers to whoever asks to begin,
    to continue or to complete some work on it. *)
Record closed `{Env} (w : world) : Prop := {
  cl_read : forall operation, refuses (beginRepositoryReadState operation) RepositoryDeleting w;
  cl_renew_read : forall token, refuses (renewRepositoryReadState token) false w;
  cl_maintenance : forall operation, refuses (beginRepositoryMaintenanceState operation) RepositoryDeleting w;
  cl_renew_maintenance : forall token, refuses (renewRepositoryMaintenanceState token) false w;
  cl_snapshot : forall prefix, refuses (beginSnapshotMaterializationState prefix) RepositoryDeleting w;
  cl_renew_snapshot : forall token, refuses (renewSnapshotMaterializationState token) false w;
  cl_receive : forall concurrency,
    refuses (beginReceiveLease concurrency) (ReceiveRefused LEASE_RETRY_AFTER_SECONDS) w;
  cl_recovery : forall operationId,
    refuses (beginStockReceiveRecoveryLease operationId) (RecoveryBusy LEASE_RETRY_AFTER_SECONDS) w;
  cl_promote : forall token, refuses (promoteStockPreparationLease token) false w;
  cl_finalize : forall a, refuses (finalizeReceiveState a) FinLeaseMismatch w;
  cl_reconcile : forall token commands key receipt inspect,
    refuses (reconcileReceiveState token commands key receipt inspect) RecUnknown w;
  cl_refs : forall rs, refuses (setRefs rs) false w;
  cl_head : forall h, refuses (setHead h) false w;
  cl_compaction : refuses beginCompactionState (CompactionBusy LEASE_RETRY_AFTER_SECONDS CbDeleting) w;
  cl_collection : refuses beginReachabilityGcState (GcBusy LEASE_RETRY_AFTER_SECONDS BusyDeleting) w;
  cl_claim : forall operationId, refuses (claimGcOperation operationId) (GcRejected RejDeleting) w;
  cl_progress : forall operationId claimId p,
    refuses (recordGcProgress operationId claimId p) (GcRejected RejDeleting) w;
  cl_stock : forall operation, refuses (admitStockReceiveState operation) (AdRejected "repository-deleting") w;
  cl_native : forall lane operationId claimId props grant,
    refuses (beginNativeExecution lane operationId claimId props grant) None w }.

(** ** Lemmas *)

Lemma kept_access `{Env} strict mem :
  respects repo_ok (repo_evolves strict) (ensureAccessAndAlarm mem) anything.
Proof.
  unfold ensureAccessAndAlarm, touchAndMaybeSchedule. pose proof (kept_ensureScheduled strict).
  respect; try keeps; auto.
Qed.

Lemma kept_reading `{Env} strict r : respects repo_ok (repo_evolves strict) (serve_read r) anything.
Proof.
  pose proof (kept_beginRead strict). pose proof (kept_renewRead strict).
  destruct r; simpl; [| |apply kept_finishRead]; (eapply respects_bind; preorder; [auto|]);
    intros ? _; by apply respects_ret; preorder.
Qed.

Lemma kept_ignore `{Env} strict {A} (m : DO A) :
  respects repo_ok (repo_evolves strict) m anything ->
  respects repo_ok (repo_evolves strict) (m ;! ret tt) anything.
Proof.
  intros Hm. eapply respects_bind; preorder; [exact Hm|]. intros ? _. by apply respects_ret; preorder.
Qed.

Lemma kept_collection `{Env} strict r :
  gate_respects repo_ok (repo_evolves strict) -> gc_request_ok r ->
  respects repo_ok (repo_evolves strict) (serve_gc r) anything.
Proof.
  intros Hg Hr. destruct r; unfold serve_gc; try apply kept_ignore.
  - apply kept_register.
  - apply kept_claim.
  - apply kept_progress.
  - apply kept_commit_gc.
  - by apply kept_direct_commit.
  - apply kept_begin_gc.
  - apply kept_reconcile_pending.
  - apply kept_complete_pending.
  - apply kept_help.
  - by apply kept_resume_gc.
  - apply kept_retain_protection.
  - apply kept_advance_versions.
Qed.

Lemma kept_recover `{Env} strict id :
  respects repo_ok (repo_evolves strict) (recoverStockReceivePublicationState id) anything.
Proof. unfold recoverStockReceivePublicationState. respect. Qed.

Lemma kept_dispatch `{Env} strict :
  gate_respects repo_ok (repo_evolves strict) ->
  respects repo_ok (repo_evolves strict) dispatchStockRecovery anything.
Proof.
  intros Hg. pose proof (kept_put_alarm strict) as Ha. unfold dispatchStockRecovery, stockReceiveWorkerRecoveryOperationId.
  respect; try keeps; auto.
Qed.

(** The evolution of histories that may reset the storage. *)
Definition may (resets : bool) : Storage -> Storage -> Prop := repo_evolves (negb resets).

Lemma versions_gate `{Env} :
  (forall n s, pack_versions (env_interleave n s) = pack_versions s) ->
  gate_respects (fun _ => True) (frame pack_versions).
Proof. intros Hv n s _. split; [done|]. unfold frame. by rewrite Hv. Qed.

Create HintDb served.
#[local] Hint Resolve kept_resolveHead kept_setRefs kept_setHead kept_beginReceive kept_beginRecovery
  kept_completeRecovery kept_abort kept_promote kept_finalize kept_reconcile kept_reading
  kept_beginMaintenance kept_renewMaintenance kept_finishMaintenance kept_beginSnapshot
  kept_renewSnapshot kept_finishSnapshot kept_beginDeletion kept_journal kept_generation_pending
  kept_generation_done kept_collection kept_record_pending kept_remove_superseded kept_request
  kept_clear_request kept_beginCompaction kept_abortCompaction kept_commitCompaction kept_removePack
  kept_native_begin kept_native_finish kept_native_io kept_native_stop kept_resume kept_clearExpired
  kept_rearm kept_admit_stock kept_finalize_stock kept_confirm kept_reject_execution kept_cleanup
  kept_resume_stock kept_recover kept_dispatch : served.

Lemma kept_serve `{Env} resets r :
  gate_respects repo_ok (may resets) -> request_ok resets r ->
  (resets = false -> finalizes r = true ->
   forall n s1, pack_versions (env_interleave n s1) = pack_versions s1) ->
  respects repo_ok (may resets) (serve r) anything.
Proof.
  unfold may. intros Hg. induction r; intros Hr Hv; simpl in *; try apply kept_ignore; eauto with served.
  - by apply respects_get; preorder.
  - apply kept_finalize_stock; [done|]. intros Hst. by apply versions_gate, Hv; destruct resets.
  - apply kept_resume_stock; [done|]. intros Hst. by apply versions_gate, Hv; destruct resets.
  - subst. apply kept_idle.
  - subst. apply kept_clear_storage.
  - eapply respects_bind; preorder; [apply kept_access | auto].
Qed.

Lemma history_keeps resets s s' :
  history resets s s' -> repo_ok s -> repo_ok s' /\ may resets s s'.
Proof.
  intros Hh. induction Hh as [s | s w E r Hh IH Hr Hgate IHgate Hv]; intros Hs.
  - split; [done | unfold may; reflexivity].
  - destruct (IH Hs) as [Hw Hsw].
    assert (gate_respects repo_ok (may resets)) as Hg by (intros n s1 Hs1; apply (IHgate n s1 Hs1)).
    destruct (kept_serve _ _ Hg Hr Hv w Hw) as (H1 & H2 & _).
    split; [done|]. unfold may in *. etrans; [exact Hsw | exact H2].
Qed.

Lemma history_trans resets s1 s2 s3 : history resets s1 s2 -> history resets s2 s3 -> history resets s1 s3.
Proof. intros Ha Hb. revert Ha. induction Hb; intros Ha; [done | apply history_serve; eauto]. Qed.

(** One request on a platform where nothing interleaves. *)
Lemma history_one resets (E : Env) r w :
  request_ok resets r -> (forall n s, env_interleave n s = s) -> history resets (st w) (st (serve r w).2).
Proof.
  intros Hr Hn. apply history_serve; [apply history_start | done | | by intros; rewrite Hn].
  intros n s. rewrite Hn. apply history_start.
Qed.

(** Run a handler up to its guard, which the raised fence [Hd] decides. *)
Ltac closes Hd :=
  repeat (first
    [ progress (cbn [st bump negb]; rewrite ?Hd)
    | lazymatch goal with
      | |- wp (bind _ _) _ _ => apply wp_bind
      | |- wp (transaction _) _ _ => apply wp_transaction
      | |- wp (get _) _ _ => apply wp_get
      | |- wp Date_now _ _ => apply wp_now
      | |- wp randomUUID _ _ => apply wp_uuid
      | |- wp (ret _) _ _ => apply wp_ret
      | |- wp (if negb (str_eq _ _) then _ else _) _ _ => destruct (str_eq _ _)
      end ]); try done.

Lemma fence_closes `{Env} w : truthy (repositoryDeleting (st w)) = true -> closed w.
Proof.
  intros Hd. split; intros.
  all: match goal with |- refuses ?m ?a ?v => change (wp m (fun r v' => r = Ok a /\ st v' = st v) v) end.
  all: unfold beginRepositoryReadState, renewRepositoryReadState, beginRepositoryMaintenanceState,
    renewRepositoryMaintenanceState, beginSnapshotMaterializationState, renewSnapshotMaterializationState,
    beginReceiveLease, admitLease, acquire, beginStockReceiveRecoveryLease, promoteStockPreparationLease,
    finalizeReceiveState, reconcileReceiveState, holdReceiveCompletionFence, setRefs, setHead,
    beginCompactionState, beginReachabilityGcState, acquire_gc, claimGcOperation, recordGcProgress,
    beginNativeExecution, ownsClaim, owns_claim, admitStockReceiveState; closes Hd.
Qed.

(** ** Properties *)


(** A repository that has a reader and a ref. *)
Definition demo_history_state : Storage :=
  st (serve (H := demo_env) (Accessed None (SetRefs [mkRef "refs/heads/main" "1111"]))
        (serve (H := demo_env) (Reading (ReadBegin OpGitFetch)) (World empty_storage 0)).2).2.

Lemma demo_history : history false empty_storage demo_history_state.
Proof.
  eapply history_trans; [apply (history_one false demo_env (Reading (ReadBegin OpGitFetch)) (World empty_storage 0)) |
    apply history_one]; try done.
  apply NoDup_singleton.
Qed.







(** Requests served one after another on the toy platform, each from a step number. *)
Definition run_toy (l : list (nat * request)) (s : Storage) : Storage :=
  foldl (fun s x => st (serve (H := toy_env) x.2 (World s x.1)).2) s l.

Lemma run_toy_history resets l s0 s :
  history resets s0 s -> Forall (fun x => request_ok resets x.2) l -> history resets s0 (run_toy l s).
Proof.
  revert s. induction l as [|[n r] l IH]; intros s Hs Hl; [done|]. inversion_clear Hl as [|?? Hr Hl'].
  apply (IH (st (serve (H := toy_env) r (World s n)).2)); [|done].
  eapply history_trans; [exact Hs | by apply (history_one resets toy_env r (World s n))].
Qed.

(** A push to the toy repository up to its compare-and-swap, and its publication. *)
Definition demo_pushed : Storage :=
  run_toy [(0%nat, SetRefs [mkRef "refs/heads/main" (oldOid demo_command)]); (6%nat, BeginReceive None);
           (10%nat, AdmitStock demo_operation);
           (20%nat, FinalizeStock (env_uuid (Env := toy_env) 11) (Some demo_prepared))] empty_storage.

Definition demo_plan : NativeReceiveAuthorityPublicationPlan :=
  default (plan_of (H := toy_env) demo_operation demo_result)
    (native_of "push" demo_pushed ≫= native_publicationPlan).

Definition demo_confirmed : Storage :=
  run_toy [(60%nat, ConfirmStock (pp_token demo_plan) (published demo_plan) true)] demo_pushed.

